(* ===== verification/_CoqProject ===== *)
-Q . S2P
Prelude.v
Text.v
Redis.v
Listing.v
JumpHash.v
KeyProducer.v
SimpleQueue.v
Messages.v
Retry.v
Doubles.v
WorkerQueueResolver.v
Jobs.v
Scripts.v
ScriptFacts.v
Samples.v
Dequeue.v
DequeueCk.v
Lifecycle.v
Expire.v
RunQueue.v
KeySpace.v
System.v
Levels.v
Steps.v
Invariants.v
Methods.v
Outcomes.v
Termination.v
Divergences.v
Effect.v
FairKeys.v
FairScripts.v
FairRetry.v
FairWorld.v
FairManagers.v
FairSchedulers.v
FairWeighted.v
FairSelection.v
FairQueue.v
FairSystem.v
FairSteps.v
FairLevels.v
FairInvariants.v
FairTraces.v
FairMethods.v
FairPolicies.v
SelectionFacts.v
SelectionSystem.v
FairSamples.v
FairTheorems.v
FairOutcomes.v
BatchTracker.v
BatchCounting.v
BatchQueue.v
BatchTraces.v
BatchTheorems.v
BatchAccounting.v
BatchOutcomes.v
BatchSamples.v
BatchDivergences.v
EngineErrors.v
EngineProg.v
EngineData.v
Duration.v
EngineSystems.v
EngineAttempts.v
EngineLifecycle.v
EngineHandlers.v
EngineDequeue.v
EngineOutcomes.v
EngineSamples.v
EngineDequeueFacts.v
EngineWakeups.v
EngineWakeupRules.v
EngineWakeupMethods.v
EngineWakeupWaits.v
EngineWakeupStarts.v
EngineWakeupDequeue.v
EngineNoLostWakeup.v
