(* ===== verification/Prelude.v ===== *)
(** * Verification of the queues and the run engine of the platos platform

    ** What the program is

    The platform runs tasks.  A run waits in a _run queue_ (internal-packages/
    run-engine/src/run-queue), a set of Redis structures that are only changed by
    Lua scripts and single commands, each of them atomic: per queue a sorted set of
    run ids, per environment a sorted set of all waiting runs, sets of the runs that
    hold a concurrency slot, an index of the queues of each concurrency key, and
    master queues, sharded by a consistent hash of the environment, from which the
    consumers find the queues.  A background worker (packages/redis-worker) runs the
    delayed jobs that drain queues into lists, from which workers pick up runs; it
    keeps its jobs in a [SimpleQueue].

    Batches of runs go through a second queue: the _batch queue_ (run-engine/src/
    batch-queue) stores what it knows of a batch in a completion tracker, and its items
    in a _fair queue_ (packages/redis-worker/src/fair-queue), in which messages of many
    tenants wait, are claimed by consumers that ask a scheduler whose turn it is, are in
    flight under a deadline and go back to their queue when it passes.

    The life of a run is kept by the _run engine_ (run-engine/src/engine) in PostgreSQL:
    a row per run, a list of execution snapshots of which the latest says what the run
    is doing, and the waitpoints a run is blocked by.  Its methods take a lock on the
    run, and leave follow-up work to jobs of a background worker.

    ** Files

    - [Prelude]: tactics, hint databases, the type of outcomes.  [Text]: the string
      functions of JavaScript and Lua.  [Redis]: the commands as a class with laws,
      and a concrete database that satisfies them.
    - [JumpHash] (core/src/v3/serverOnly/jumpHash.ts): the shard of an environment.
    - [KeyProducer] (run-queue/keyProducer.ts): every key, and the derivations of keys
      from a queue key.  [KeySpace]: keys of one Redis type never coincide.
    - [SimpleQueue] (redis-worker/src/queue.ts) and [Jobs]: the delayed job queue, and
      the interface [JobQueue] with laws through which the run queue uses it.
    - [Messages], [Retry] (core/src/v3/utils/retries.ts), [WorkerQueueResolver]: the
      payloads, the retry delay in double precision, the choice of a worker queue.
    - [Scripts] (the Lua commands of run-queue/index.ts), one definition per command;
      [ScriptFacts] their shared fragments; [Dequeue], [DequeueCk], [Lifecycle],
      [Expire] what one run of each script does; [Samples] a concrete queue.
    - [RunQueue] (the methods of run-queue/index.ts) in a state and error monad over
      the database, the background worker and the cool-off table of the process.
    - [System], [Levels], [Steps], [Invariants], [Methods], [Outcomes], [Termination]:
      the whole queue.  [Divergences]: inputs outside the conditions of the others.
    - [FairSelection] (run-queue/fairQueueSelectionStrategy.ts): which queues a consumer
      of the master queue looks at, in which order.  [Doubles]: rounding of a random
      number times a length.  [SelectionFacts] what the strategy hands out;
      [SelectionSystem] the consumer with the strategy.
    - [Effect]: the monad of methods.  [FairKeys], [FairScripts], [FairRetry],
      [FairWorld], [FairManagers] (a module per manager), [FairSchedulers],
      [FairWeighted], [FairQueue]: the fair queue, file by file of fair-queue/.
    - [FairSystem], [FairSteps], [FairLevels], [FairInvariants]: its step relation and
      invariant.  [FairTraces], [FairMethods]: the methods move along the steps.
      [FairPolicies]: the schedulers.  [FairTheorems], [FairOutcomes]: the results;
      [FairSamples] a concrete queue.
    - [BatchTracker] (completionTracker.ts), [BatchQueue] (batch-queue/index.ts);
      [BatchCounting], [BatchTraces], [BatchTheorems], [BatchAccounting],
      [BatchOutcomes] their theorems; [BatchSamples] a concrete batch;
      [BatchDivergences] a race that loses an item.
    - [EngineErrors] (engine/statuses.ts, errors.ts, retrying.ts and core's errors.ts),
      [Duration] (core's isomorphic/duration.ts): statuses, errors, retry decisions.
      [EngineProg]: methods as sequences of atomic statements, pools of them under a
      schedule, and a rely-guarantee logic.  [EngineData]: rows, tables, jobs, the
      shared state.  [EngineSystems] (snapshots, waitpoints, batches, locks),
      [EngineAttempts] (runAttemptSystem.ts), [EngineLifecycle] (checkpoints, delays,
      expiry), [EngineHandlers] (the jobs), [EngineDequeue] (dequeueSystem.ts,
      pendingVersionSystem.ts, machinePresets.ts): one definition per method.
      [EngineOutcomes]: their theorems; [EngineSamples] concrete stores, and runs that
      go wrong; [EngineDequeueFacts] the same for [EngineDequeue].
    - [EngineWakeups]: what one statement may do to the waits of runs; [EngineWakeupRules]
      the rules for methods; [EngineWakeupMethods], [EngineWakeupWaits],
      [EngineWakeupStarts], [EngineWakeupDequeue]: the methods keep to them;
      [EngineNoLostWakeup] the results.

    ** What the theorems show

    [System] and [Steps] define an abstract machine in which a run is queued under a
    score or not, holds a slot or not, and was picked up or not; [Steps.sys_step] is
    the relation of all atomic operations.  [Invariants] shows that every sequence of
    steps, whatever its interleaving, implements the machine, keeps every
    environment, queue and concurrency key within its limit, and keeps every queued
    run visible from the master queue.  [Methods] shows that the methods act only
    through such steps, [Outcomes] what enqueue and nack achieve, [Termination] that
    the draining job ends.  [SelectionFacts] shows that the selection strategy hands out
    exactly the due queues of the environments with room, whatever its weights and
    random numbers, and how long it reuses a snapshot; [SelectionSystem] that no due run
    is overlooked by it and that the consumer with the real strategy keeps to the steps.
    [Dequeue], [DequeueCk], [Lifecycle] and [Expire] give the
    functional behaviour of each script, [KeyProducer] the round trip and
    disjointness of keys, [JumpHash] termination, range, consistency and agreement
    with the published algorithm, [SimpleQueue] its invariant, exclusivity,
    deduplication and redrive.

    For the fair queue, [FairSystem.mstate] is the abstract state of a message (waiting,
    in flight, dead) and [FairInvariants.fq_step] the relation of all atomic commands.
    A method runs in a world [FairWorld.fq_world] that says what the other processes do
    before each of its commands, so the theorems of [FairTheorems] hold for all
    interleavings: calls refine the machine of messages, no message is lost, queued
    messages stay visible and limits hold.  They are parametric in the key producer,
    the scheduler and the client ([FairKeys.FairKeyLaws], [FairMethods.SchedulerLaws],
    [FairSystem.homes], [FairInvariants.bounds]); the batch queue instantiates them.
    [FairOutcomes] gives the exact result of a claim, a failure, a time-out and a
    hand-over when nobody interferes; [FairPolicies] the bounds and the fairness of the
    schedulers.  [BatchCounting] shows that the tracker is a log in which each item
    counts once and that the end of a batch is seen once; [BatchAccounting] that an
    enqueued item is in the queue until it is recorded; [BatchOutcomes] what handling an
    item does, up to the completion of the batch.

    For the run engine, [EngineOutcomes] shows that retries stay within their limits,
    that the recursion of a failed attempt ends under every interleaving, that the order
    of completed waitpoints survives a snapshot and that a time to live is clamped;
    [EngineSamples] has runs on which a cancellation is undone, a finished run is
    suspended, and an expired run leaves its batch open.  [EngineNoLostWakeup] is about
    all interleavings of the methods and the worker: a run that waits and whose
    waitpoints are all completed is never without a job that continues it, and a run is
    handed to a worker at most once each time it is queued.  The calls it
    covers are those of [EngineNoLostWakeup.call]; blockRunWithWaitpointLockless, which
    leaves the wake-up to the waitpoint of a batch, is not among them, nor is the job
    [queueRunsPendingVersion], whose snapshots appear without the lock of their run; and a
    checkpoint is taken of a run that waits.  [EngineDequeueFacts] shows which version of
    the code a run is executed with, whatever happens to the tables meanwhile, and that no
    run that waits for a version is left behind; and two runs on which a cancelled run is
    queued and a resumed one loses its checkpoint.

    ** Conventions, bounds and fuel

    Numbers that are timestamps or counts are [Z]; they are exact in the source, where
    they are doubles below 2^53.  Factors and random numbers are IEEE doubles.
    [JumpHash.jump_fuel] is the bucket count plus 3, enough by [jump_hash_total];
    [RunQueue.processQueueForWorkerQueue] has the fuel its callers give it, enough
    above the size of the environment's queue by [process_queue_terminates]; the
    pattern matcher [RunQueue.glob] has the length of its arguments;
    [EngineAttempts.attemptFailed] has two levels of recursion, enough by
    [attempt_failure_ends].  The time, fresh
    ids and random numbers are arguments; [seedrandom] gives doubles from 0 up to 1
    ([Doubles.in_unit]), and the cache of limits of the selection strategy is any function
    from what it would load to what it answers.  SHA-256, [Math.pow] and the database are
    parameters; what is relied on of them is stated as laws, which a concrete
    instance satisfies.

    ** Not modelled

    Timers, polling loops, tracing, metrics, events and connection handling.  Of the run
    engine: triggering and debouncing, which need the tables of the platform's web
    application; the writing of deployments and background workers, whose tables are an
    argument ([EngineDequeue.worker_catalog], by time); the retries of a lock acquisition
    and the expiry of a lock; columns that are only copied.  The database of the engine does
    not fail except as the code provokes it.  The web applications, SDKs, the schedule
    engine and the query compiler. *)

From Stdlib Require Export ZArith Lia Ascii.
From stdpp Require Export sorting numbers option.
From stdpp Require Export base tactics strings gmap list.
Open Scope stdpp_scope.

(** ** Notations *)

Declare Scope platos_scope.
Delimit Scope platos_scope with platos.

(** Outcome of a fallible computation that also changes a state: the state is
    kept on failure, because neither a Lua script nor an [await] chain rolls
    back what it already did. *)
Inductive outcome (E A : Type) : Type :=
| Ok (a : A)
| Err (e : E).
Arguments Ok {E A} a.
Arguments Err {E A} e.

(** ** Grouping by key, in insertion order (a JavaScript [Map] of arrays) *)

Fixpoint group_add {A} (k : string) (v : A) (g : list (string * list A)) : list (string * list A) :=
  match g with
  | [] => [(k, [v])]
  | (k', vs) :: g => if decide (k = k') then (k', vs ++ [v]) :: g else (k', vs) :: group_add k v g
  end.

(** [map.get(k) ?? []]. *)
Definition group_get {A} (k : string) (g : list (string * list A)) : list A :=
  from_option snd [] (list_find (λ p, p.1 = k) g ≫= λ p, Some p.2).

(** ** Stable sorting *)

Section Sort.
Context {A : Type} (lt : A → A → bool).

(** After the elements it does not precede. *)
Fixpoint insert_stable (x : A) (l : list A) : list A :=
  match l with
  | [] => [x]
  | y :: l => if lt x y then x :: y :: l else y :: insert_stable x l
  end.

Definition sort_stable (l : list A) : list A := foldl (λ acc x, insert_stable x acc) [] l.

Lemma insert_stable_perm x l : insert_stable x l ≡ₚ x :: l.
Proof.
  induction l as [|y l IH]; [done|]. cbn [insert_stable]. destruct (lt x y); [done|].
  rewrite IH. apply Permutation_swap.
Qed.

Lemma sort_stable_perm l : sort_stable l ≡ₚ l.
Proof.
  unfold sort_stable.
  assert (∀ acc, foldl (λ acc x, insert_stable x acc) acc l ≡ₚ l ++ acc) as H.
  { induction l as [|x l IH]; intros acc; [done|]. cbn [foldl]. rewrite IH, insert_stable_perm.
    symmetry; apply Permutation_middle. }
  rewrite H. by rewrite app_nil_r.
Qed.

Context (R : relation A) `{!Transitive R}.
Context (lt_true : ∀ x y, lt x y = true → R x y) (lt_false : ∀ x y, lt x y = false → R y x).

Lemma insert_stable_sorted x l : StronglySorted R l → StronglySorted R (insert_stable x l).
Proof using Type*.
  induction 1 as [|y l Hl IH Hy]; cbn [insert_stable]; [repeat constructor|].
  destruct (lt x y) eqn:E.
  - constructor; [by constructor|]. constructor; [by apply lt_true|].
    eapply Forall_impl; [done|]. intros z Hz. etrans; [by apply lt_true|done].
  - constructor; [done|]. rewrite insert_stable_perm. constructor; [by apply lt_false|done].
Qed.

Lemma sort_stable_sorted l : StronglySorted R (sort_stable l).
Proof using Type*.
  unfold sort_stable. assert (StronglySorted R (@nil A)) as H by constructor.
  revert H. generalize (@nil A) as acc. induction l as [|x l IH]; intros acc Hacc; [done|].
  cbn [foldl]. by apply IH, insert_stable_sorted.
Qed.

End Sort.

(** ** Hint databases *)

Create HintDb platos discriminated.
Create HintDb redis discriminated.

(** ** Tactics *)

(** Split every [match]/[if] of the goal or of a hypothesis on the value it
    inspects, and simplify the resulting equations. *)
Ltac split_match :=
  repeat first
    [ progress simplify_eq/=
    | match goal with
      | H : context [match ?x with _ => _ end] |- _ =>
          lazymatch type of x with
          | sumbool _ _ => destruct x
          | _ => let E := fresh "E" in destruct x eqn:E
          end
      | |- context [match ?x with _ => _ end] =>
          lazymatch type of x with
          | sumbool _ _ => destruct x
          | _ => let E := fresh "E" in destruct x eqn:E
          end
      end ].

(** Turn boolean comparisons of the source into propositions. *)
Ltac reflect :=
  repeat match goal with
  | H : (_ <? _)%Z = true |- _ => apply Z.ltb_lt in H
  | H : (_ <? _)%Z = false |- _ => apply Z.ltb_ge in H
  | H : (_ <=? _)%Z = true |- _ => apply Z.leb_le in H
  | H : (_ <=? _)%Z = false |- _ => apply Z.leb_gt in H
  | H : (_ =? _)%Z = true |- _ => apply Z.eqb_eq in H
  | H : (_ =? _)%Z = false |- _ => apply Z.eqb_neq in H
  | H : bool_decide _ = true |- _ => apply bool_decide_eq_true in H
  | H : bool_decide _ = false |- _ => apply bool_decide_eq_false in H
  | H : negb _ = true |- _ => apply negb_true_iff in H
  | H : negb _ = false |- _ => apply negb_false_iff in H
  | H : (_ && _) = true |- _ => apply andb_true_iff in H; destruct H
  | H : (_ || _) = false |- _ => apply orb_false_iff in H; destruct H
  end.

(** Pairwise distinctness out of [NoDup]. *)
Ltac distinct :=
  repeat match goal with
  | H : NoDup (_ :: _) |- _ => apply NoDup_cons in H; destruct H
  | H : NoDup [] |- _ => clear H
  end; set_solver.
