(* ===== verification/Text.v ===== *)
(** * Text: the string functions of JavaScript and Lua the queue code uses

    [String.prototype.split] on one character, [Array.prototype.join],
    [replace] of the first occurrence, [endsWith], [includes], the regular
    expression [/:ck:.+$/], and the Lua calls [string.find] (plain),
    [string.sub] and [string.match] with the patterns of the run-queue scripts.
    The lemmas compute these functions on texts built by concatenation. *)

From S2P Require Import Prelude.

(** ** Definitions *)

(** [s.includes(c)] for a one-character text. *)
Fixpoint has_char (c : ascii) (s : string) : bool :=
  match s with
  | EmptyString => false
  | String d t => bool_decide (c = d) || has_char c t
  end.

(** Prepend text to the first element of a non-empty list of parts. *)
Definition hd_app (a : string) (l : list string) : list string :=
  match l with
  | h :: t => (a +:+ h) :: t
  | [] => [a]
  end.

(** [s.split(c)] for a one-character separator: always at least one part. *)
Fixpoint split_char (c : ascii) (s : string) : list string :=
  match s with
  | EmptyString => [""]
  | String d t =>
      if bool_decide (c = d) then "" :: split_char c t
      else hd_app (String d "") (split_char c t)
  end.

(** [l.join(sep)]. *)
Fixpoint join (sep : string) (l : list string) : string :=
  match l with
  | [] => ""
  | [x] => x
  | x :: l => x +:+ sep +:+ join sep l
  end.

(** [Some r] when [s = p +:+ r]. *)
Fixpoint strip_prefix (p s : string) : option string :=
  match p, s with
  | EmptyString, _ => Some s
  | String c p, String d s => if bool_decide (c = d) then strip_prefix p s else None
  | String _ _, EmptyString => None
  end.

Definition starts_with (p s : string) : bool := bool_decide (is_Some (strip_prefix p s)).

(** The leftmost occurrence of [p] in [s] whose remainder satisfies [ok]:
    the text before it and the text after it. *)
Fixpoint cut_where (ok : string → bool) (p s : string) : option (string * string) :=
  match strip_prefix p s with
  | Some r => if ok r then Some ("", r) else
      match s with
      | EmptyString => None
      | String c t => (λ '(a, b), (String c a, b)) <$> cut_where ok p t
      end
  | None =>
      match s with
      | EmptyString => None
      | String c t => (λ '(a, b), (String c a, b)) <$> cut_where ok p t
      end
  end.

Definition cut : string → string → option (string * string) := cut_where (λ _, true).

(** The rightmost occurrence of [p] in [s] whose remainder satisfies [ok]. *)
Fixpoint rcut_where (ok : string → bool) (p s : string) : option (string * string) :=
  let here :=
    match strip_prefix p s with
    | Some r => if ok r then Some ("", r) else None
    | None => None
    end in
  match s with
  | EmptyString => here
  | String c t =>
      match rcut_where ok p t with
      | Some (a, b) => Some (String c a, b)
      | None => here
      end
  end.

(** [s.replace(p, by)] with a text pattern: the first occurrence only. *)
Definition replace_first (p by_ s : string) : string :=
  match cut p s with
  | Some (a, b) => a +:+ by_ +:+ b
  | None => s
  end.

(** [s.endsWith(p)]. *)
Fixpoint ends_with (p s : string) : bool :=
  bool_decide (s = p) ||
  match s with
  | EmptyString => false
  | String _ t => ends_with p t
  end.

(** [s.includes(p)]. *)
Definition includes (p s : string) : bool := bool_decide (is_Some (cut p s)).

(** JavaScript truthiness of a text. *)
Definition truthy (s : string) : bool := negb (bool_decide (s = "")).

(** Truthiness of an optional text ([undefined] and the empty text are falsy). *)
Definition truthy_opt (o : option string) : bool :=
  match o with Some s => truthy s | None => false end.

Definition newline : ascii := Ascii false true false true false false false false.
Definition carriage : ascii := Ascii true false true true false false false false.

(** What [.+$] accepts: at least one character and no line terminator. *)
Definition dot_plus_end (s : string) : bool :=
  truthy s && negb (has_char newline s) && negb (has_char carriage s).

(** The longest prefix without [c]: a greedy [[^c]*]. *)
Fixpoint run_without (c : ascii) (s : string) : string :=
  match s with
  | EmptyString => ""
  | String d t => if bool_decide (c = d) then "" else String d (run_without c t)
  end.

(** ** Lemmas *)

Lemma string_app_nil_l (s : string) : "" +:+ s = s.
Proof. done. Qed.

Lemma string_app_cons c (s t : string) : String c s +:+ t = String c (s +:+ t).
Proof. done. Qed.

Lemma string_app_nil_r (s : string) : s +:+ "" = s.
Proof. induction s; [done|]. by rewrite string_app_cons, IHs. Qed.

Lemma string_app_assoc (a b c : string) : (a +:+ b) +:+ c = a +:+ (b +:+ c).
Proof. induction a; [done|]. rewrite !string_app_cons. by rewrite IHa. Qed.

Lemma string_app_inj (a b c : string) : a +:+ b = a +:+ c → b = c.
Proof.
  induction a as [|x a IH]; [done|]. rewrite !string_app_cons. intros [= H]. by apply IH.
Qed.

Lemma string_length_app (a b : string) :
  String.length (a +:+ b) = (String.length a + String.length b)%nat.
Proof. induction a as [|x a IH]; [done|]. rewrite string_app_cons. simpl. by rewrite IH. Qed.

Lemma string_app_inj_r (a b c : string) : a +:+ c = b +:+ c → a = b.
Proof.
  revert b. induction a as [|x a IH]; intros [|y b]; [done| | |].
  - rewrite string_app_nil_l, string_app_cons. intros H. apply (f_equal String.length) in H.
    simpl in H. rewrite string_length_app in H. lia.
  - rewrite string_app_nil_l, string_app_cons. intros H. apply (f_equal String.length) in H.
    simpl in H. rewrite string_length_app in H. lia.
  - rewrite !string_app_cons. intros [= -> H%IH]. by subst.
Qed.

Lemma string_app_self (a b : string) : a = a +:+ b → b = "".
Proof. intros H. rewrite <- (string_app_nil_r a) in H at 1. by apply string_app_inj in H. Qed.

Lemma string_app_eq_nil (a b : string) : a +:+ b = "" ↔ a = "" ∧ b = "".
Proof. destruct a; rewrite ?string_app_nil_l, ?string_app_cons; split; [done|by intros [_ ?]|done|by intros [? _]]. Qed.

Lemma has_char_app c (a b : string) : has_char c (a +:+ b) = has_char c a || has_char c b.
Proof.
  induction a as [|d a IH]; [done|]. rewrite string_app_cons. simpl. rewrite IH.
  by rewrite orb_assoc.
Qed.

Lemma split_char_ne c s : split_char c s ≠ [].
Proof. destruct s; simpl; [done|]. case_bool_decide; [done|]. by destruct (split_char c s). Qed.

Lemma hd_app_app (a b : string) l : l ≠ [] → hd_app (a +:+ b) l = hd_app a (hd_app b l).
Proof. destruct l; [done|]. intros _. simpl. by rewrite string_app_assoc. Qed.

Lemma hd_app_nil l : l ≠ [] → hd_app "" l = l.
Proof. by destruct l. Qed.

Lemma split_char_app c (a r : string) :
  has_char c a = false → split_char c (a +:+ r) = hd_app a (split_char c r).
Proof.
  induction a as [|d a IH].
  - intros _. by rewrite string_app_nil_l, hd_app_nil by apply split_char_ne.
  - rewrite string_app_cons. simpl.
    intros [Hd Ha]%orb_false_iff. apply bool_decide_eq_false in Hd. rewrite bool_decide_false by done.
    rewrite IH by done. by destruct (split_char c r) eqn:E; [destruct (split_char_ne c r)|].
Qed.

Lemma split_char_no_sep c (a : string) : has_char c a = false → split_char c a = [a].
Proof.
  intros H. rewrite <- (string_app_nil_r a) at 1. rewrite split_char_app by done.
  simpl. by rewrite string_app_nil_r.
Qed.

Lemma split_char_sep c (r : string) : split_char c (String c r) = "" :: split_char c r.
Proof. simpl. by rewrite bool_decide_true. Qed.

(** Splitting what [join] produced gives the parts back. *)
Lemma split_join c (l : list string) :
  l ≠ [] → Forall (λ p, has_char c p = false) l →
  split_char c (join (String c "") l) = l.
Proof.
  intros Hne Hall. induction Hall as [|p l Hp Hall IH]; [done|].
  destruct l as [|q l]; simpl.
  - by apply split_char_no_sep.
  - rewrite split_char_app by done. rewrite string_app_cons, string_app_nil_l.
    rewrite split_char_sep. simpl. rewrite string_app_nil_r.
    f_equal. by apply IH.
Qed.

Lemma strip_prefix_app p r : strip_prefix p (p +:+ r) = Some r.
Proof.
  induction p as [|c p IH]; [done|]. rewrite string_app_cons. simpl.
  by rewrite bool_decide_true.
Qed.

Lemma strip_prefix_Some p s r : strip_prefix p s = Some r ↔ s = p +:+ r.
Proof.
  split; [|intros ->; apply strip_prefix_app].
  revert s. induction p as [|c p IH]; intros s; simpl; [by intros [= ->]|].
  destruct s as [|d s]; [done|]. case_bool_decide; [|done]. subst.
  intros H%IH. by subst.
Qed.

(** A word ended by a separator matches a part ended by it only when equal. *)
Lemma strip_word c (w p r : string) :
  has_char c w = false → has_char c p = false →
  strip_prefix (w +:+ String c "") (p +:+ String c r) =
  (if decide (w = p) then Some r else None).
Proof.
  revert p. induction w as [|x w IH]; intros [|y p];
    rewrite ?string_app_nil_l, ?string_app_cons; cbn [strip_prefix has_char]; intros Hw Hp.
  - by rewrite bool_decide_true.
  - apply orb_false_iff in Hp as [Hy _]. rewrite Hy. by case_decide.
  - apply orb_false_iff in Hw as [Hx Hw]. apply bool_decide_eq_false in Hx.
    rewrite bool_decide_false by congruence. by case_decide.
  - apply orb_false_iff in Hw as [Hx Hw]. apply orb_false_iff in Hp as [Hy Hp].
    clear Hx Hy. case_bool_decide; subst.
    + rewrite IH by done. repeat case_decide; by simplify_eq.
    + case_decide; by simplify_eq.
Qed.

(** A word ended by a separator is not a prefix of a text without it. *)
Lemma strip_word_end c (w p : string) :
  has_char c w = false → has_char c p = false → strip_prefix (w +:+ String c "") p = None.
Proof.
  revert p. induction w as [|x w IH]; intros [|y p];
    rewrite ?string_app_nil_l, ?string_app_cons; simpl; intros Hw Hp; try done.
  - apply orb_false_iff in Hp as [Hy _]. by rewrite Hy.
  - apply orb_false_iff in Hw as [Hx Hw]. apply orb_false_iff in Hp as [Hy Hp].
    clear Hx Hy. case_bool_decide; [|done]. by apply IH.
Qed.

Lemma cut_where_cons ok p c t :
  cut_where ok p (String c t) =
  match strip_prefix p (String c t) with
  | Some r => if ok r then Some ("", r) else (λ '(a, b), (String c a, b)) <$> cut_where ok p t
  | None => (λ '(a, b), (String c a, b)) <$> cut_where ok p t
  end.
Proof. done. Qed.

(** A text that starts with the pattern. *)
Lemma cut_where_prefix ok p r : ok r = true → cut_where ok p (p +:+ r) = Some ("", r).
Proof.
  intros Hok. destruct (p +:+ r) as [|c t] eqn:E.
  - apply string_app_eq_nil in E as [-> ->]. simpl. by rewrite Hok.
  - rewrite cut_where_cons, <- E, strip_prefix_app. by rewrite Hok.
Qed.

Lemma starts_with_app p r : starts_with p (p +:+ r) = true.
Proof. unfold starts_with. rewrite strip_prefix_app. apply bool_decide_true. eauto. Qed.

(** A pattern that starts with [c] cannot start inside a text without [c]. *)
Lemma cut_where_app ok c (w a r : string) :
  has_char c a = false →
  cut_where ok (String c w) (a +:+ r) =
  (λ '(x, y), (a +:+ x, y)) <$> cut_where ok (String c w) r.
Proof.
  induction a as [|d a IH].
  - intros _. rewrite string_app_nil_l. by destruct (cut_where _ _ _) as [[]|].
  - rewrite string_app_cons, cut_where_cons. simpl.
    intros [Hd Ha]%orb_false_iff. rewrite Hd, IH by done.
    by destruct (cut_where _ _ r) as [[]|].
Qed.

Lemma cut_where_none ok c (w a : string) :
  has_char c a = false → cut_where ok (String c w) a = None.
Proof.
  intros H. rewrite <- (string_app_nil_r a), cut_where_app by done. done.
Qed.

Lemma cut_where_Some ok p s a b :
  cut_where ok p s = Some (a, b) → s = a +:+ p +:+ b ∧ ok b = true.
Proof.
  revert a b. induction s as [|c s IH]; intros a b; simpl.
  - destruct (strip_prefix p "") as [r|] eqn:E; [|done].
    destruct (ok r) eqn:Hok; [|done]. intros [= <- <-].
    apply strip_prefix_Some in E. by split; [exact E|].
  - assert (((λ '(a, b), (String c a, b)) <$> cut_where ok p s = Some (a, b)) →
      String c s = a +:+ p +:+ b ∧ ok b = true) as Hrec.
    { intros H. destruct (cut_where ok p s) as [[x y]|] eqn:E; [|done].
      simpl in H. injection H as <- <-. destruct (IH _ _ eq_refl) as [-> ?]. done. }
    destruct (strip_prefix p (String c s)) as [r|] eqn:E; [|by apply Hrec].
    destruct (ok r) eqn:Hok; [|by apply Hrec]. intros [= <- <-].
    apply strip_prefix_Some in E. by split; [exact E|].
Qed.

Lemma run_without_app c (a r : string) :
  has_char c a = false → run_without c (a +:+ String c r) = a.
Proof.
  induction a as [|d a IH].
  - intros _. by rewrite string_app_nil_l; simpl; rewrite bool_decide_true.
  - rewrite string_app_cons. simpl. intros [Hd Ha]%orb_false_iff. rewrite Hd.
    by rewrite IH.
Qed.

Lemma run_without_all c (a : string) : has_char c a = false → run_without c a = a.
Proof.
  induction a as [|d a IH]; simpl; [done|]. intros [Hd Ha]%orb_false_iff.
  rewrite Hd. by rewrite IH.
Qed.

Lemma ends_with_app (a p : string) : ends_with p (a +:+ p) = true.
Proof.
  induction a as [|c a IH].
  - rewrite string_app_nil_l. by destruct p; cbn [ends_with]; rewrite bool_decide_true.
  - rewrite string_app_cons. cbn [ends_with]. rewrite IH. by rewrite orb_true_r.
Qed.

Lemma truthy_cons c s : truthy (String c s) = true.
Proof. done. Qed.

Lemma split_char_ne_cons c d (t : string) :
  c ≠ d → split_char c (String d t) = hd_app (String d "") (split_char c t).
Proof. intros H. simpl. by rewrite bool_decide_false. Qed.

Lemma cut_where_ne ok c d (w t : string) :
  c ≠ d →
  cut_where ok (String c w) (String d t) =
  (λ '(a, b), (String d a, b)) <$> cut_where ok (String c w) t.
Proof. intros H. rewrite cut_where_cons. simpl. by rewrite bool_decide_false. Qed.

Lemma has_char_ne_cons c d (t : string) : c ≠ d → has_char c (String d t) = has_char c t.
Proof. intros H. simpl. by rewrite bool_decide_false. Qed.

(** Searching for a separated word skips a part that is not that word, *)
Lemma cut_word_skip ok c (w p r : string) :
  has_char c w = false → has_char c p = false → w ≠ p →
  cut_where ok (String c (w +:+ String c "")) (String c (p +:+ String c r)) =
  (λ '(a, b), (String c (p +:+ a), b)) <$> cut_where ok (String c (w +:+ String c "")) (String c r).
Proof.
  intros Hw Hp Hne. rewrite cut_where_cons. cbn [strip_prefix].
  rewrite bool_decide_true by done. rewrite strip_word, decide_False by done.
  rewrite cut_where_app by done. by destruct (cut_where _ _ _) as [[]|].
Qed.

(** stops at the word, *)
Lemma cut_word_hit ok c (w r : string) :
  ok r = true →
  cut_where ok (String c (w +:+ String c "")) (String c (w +:+ String c r)) = Some ("", r).
Proof.
  intros Hok. rewrite cut_where_cons. cbn [strip_prefix]. rewrite bool_decide_true by done.
  replace (w +:+ String c r) with ((w +:+ String c "") +:+ r)
    by by rewrite string_app_assoc.
  by rewrite strip_prefix_app, Hok.
Qed.

(** and finds nothing in a last part. *)
Lemma cut_word_last ok c (w p : string) :
  has_char c w = false → has_char c p = false →
  cut_where ok (String c (w +:+ String c "")) (String c p) = None.
Proof.
  intros Hw Hp. rewrite cut_where_cons. cbn [strip_prefix]. rewrite bool_decide_true by done.
  rewrite strip_word_end by done. by rewrite cut_where_none.
Qed.

(** The same search over a text given as joined parts. *)
Lemma cut_word_join_tail ok c (w : string) (ps : list string) (r : string) :
  has_char c w = false → Forall (λ p, has_char c p = false ∧ w ≠ p) ps → ok r = true →
  cut_where ok (String c (w +:+ String c ""))
    (foldr (λ p acc, String c (p +:+ acc)) (String c (w +:+ String c r)) ps) =
  Some (foldr (λ p acc, String c (p +:+ acc)) "" ps, r).
Proof.
  intros Hw Hps Hok. induction Hps as [|p ps [Hp Hne] Hps IH]; cbn [foldr].
  - by apply cut_word_hit.
  - assert (∃ t, foldr (λ p acc, String c (p +:+ acc)) (String c (w +:+ String c r)) ps = String c t)
      as [t Ht] by (destruct ps; eauto).
    rewrite Ht in *. rewrite cut_word_skip, IH by done. done.
Qed.

Lemma cut_word_join_none ok c (w : string) (ps : list string) :
  has_char c w = false → Forall (λ p, has_char c p = false ∧ w ≠ p) ps →
  cut_where ok (String c (w +:+ String c ""))
    (foldr (λ p acc, String c (p +:+ acc)) "" ps) = None.
Proof.
  intros Hw Hps. induction Hps as [|p ps [Hp Hne] Hps IH]; cbn [foldr]; [done|].
  destruct ps as [|q ps]; cbn [foldr] in *.
  - rewrite string_app_nil_r. by apply cut_word_last.
  - rewrite cut_word_skip, IH by done. done.
Qed.

Lemma join_foldr c p (ps : list string) (t : string) :
  join (String c "") (p :: ps) +:+ t = p +:+ foldr (λ p acc, String c (p +:+ acc)) t ps.
Proof.
  revert p. induction ps as [|q ps IH]; intros p; cbn [join foldr]; [done|].
  rewrite !string_app_assoc. f_equal. rewrite string_app_cons, string_app_nil_l. f_equal. apply IH.
Qed.

Lemma cut_word_join ok c (w p : string) (ps : list string) (r : string) :
  has_char c w = false → has_char c p = false →
  Forall (λ p, has_char c p = false ∧ w ≠ p) ps → ok r = true →
  cut_where ok (String c (w +:+ String c ""))
    (join (String c "") (p :: ps) +:+ String c (w +:+ String c r)) =
  Some (join (String c "") (p :: ps), r).
Proof.
  intros Hw Hp Hps Hok. rewrite join_foldr, cut_where_app, cut_word_join_tail by done.
  simpl. do 2 f_equal. by rewrite <- join_foldr, string_app_nil_r.
Qed.

Lemma cut_word_join_absent ok c (w p : string) (ps : list string) :
  has_char c w = false → has_char c p = false →
  Forall (λ p, has_char c p = false ∧ w ≠ p) ps →
  cut_where ok (String c (w +:+ String c "")) (join (String c "") (p :: ps)) = None.
Proof.
  intros Hw Hp Hps. rewrite <- (string_app_nil_r (join _ _)), join_foldr.
  by rewrite cut_where_app, cut_word_join_none.
Qed.

Lemma has_char_ne c (a b : string) : has_char c a = true → has_char c b = false → a ≠ b.
Proof. congruence. Qed.

(** ** Automation *)

(** Bring a text built by concatenation to a right-nested form. *)
Ltac text_norm :=
  repeat (progress rewrite ?string_app_assoc, ?string_app_cons, ?string_app_nil_l,
                     ?string_app_nil_r).
Tactic Notation "text_norm" "in" hyp(H) :=
  repeat (progress rewrite ?string_app_assoc, ?string_app_cons, ?string_app_nil_l,
                     ?string_app_nil_r in H).

(** Evaluate [split_char] on such a text. *)
Ltac split_norm :=
  repeat first
    [ rewrite split_char_sep
    | rewrite split_char_ne_cons by done
    | rewrite split_char_app by done
    | rewrite split_char_no_sep by done ];
  cbn [hd_app]; rewrite ?string_app_nil_r, ?string_app_cons, ?string_app_nil_l.

(** Two texts that agree around their first [c]. *)
Lemma sep_inj c (a b a' b' : string) :
  has_char c a = false → has_char c a' = false →
  a +:+ String c b = a' +:+ String c b' → a = a' ∧ b = b'.
Proof.
  revert a'. induction a as [|d a IH]; intros [|d' a']; simpl; intros Ha Ha' H; injection H.
  - by intros ->.
  - intros _ <-. by rewrite bool_decide_true in Ha'.
  - intros _ ->. by rewrite bool_decide_true in Ha.
  - intros H' <-. apply orb_false_iff in Ha as [_ Ha], Ha' as [_ Ha'].
    by destruct (IH a' Ha Ha' H') as [-> ->].
Qed.
