(* ===== verification/Redis.v ===== *)
(** * Redis: the interface the queue scripts are written against

    Redis is a service outside the repository, so it is a parameter of the
    development: [Redis] lists the write commands the scripts issue and one view
    per data type, [RedisLaws] states the documented effect of each command on
    each view.  Read commands whose documented reply is a function of a view
    ([SCARD], [ZRANGE], [ZRANGEBYSCORE], ...) are definitions over the views.
    A state [db] is one in which every key holds the data type it is used at, or
    nothing (the key producer never builds one name for two types, see
    [KeyProducer.key_kinds_disjoint]), so a command only acts on the view of its
    own type.  Scores are integers (millisecond timestamps, below 2^53).

    [V] is the type of the values kept under string keys and hash fields: what
    the code serialises with [JSON.stringify] or [String] and reads back with
    [cjson.decode], [JSON.parse], [tonumber] or [Number].

    [mem] is a concrete implementation that satisfies the laws; the witnesses
    run the scripts on it. *)

From S2P Require Import Prelude Text.

(** ** Sorted sets as lists ordered by (score, member) *)

Definition zle (p q : string * Z) : Prop :=
  (p.2 < q.2)%Z ∨ (p.2 = q.2 ∧ String.le p.1 q.1).

#[export] Instance zle_dec : RelDecision zle.
Proof. intros p q. unfold zle. apply _. Defined.

#[export] Instance zle_total : Total zle.
Proof.
  intros [m x] [n y]. unfold zle; simpl.
  destruct (Z.lt_trichotomy x y) as [?|[->|?]]; [left; by left| |right; by left].
  destruct (total String.le m n); [left|right]; by right.
Qed.

#[export] Instance zle_trans : Transitive zle.
Proof.
  intros [m x] [n y] [o z]; unfold zle; simpl. intros [?|[-> ?]] [?|[-> ?]]; auto with lia.
  right. split; [done|]. by etrans.
Qed.

(** The elements of a sorted set in ascending order; ties by member. *)
Definition zsorted (z : gmap string Z) : list (string * Z) := merge_sort zle (map_to_list z).

(** ** The interface *)

Class Redis (V db : Type) := {
  GET : string → db → option V;
  SMEMBERS : string → db → gset string;
  ZALL : string → db → gmap string Z;
  LALL : string → db → list string;
  HALL : string → db → gmap string V;
  TIME : db → Z * Z;
  SET : string → V → db → db;
  DEL : string → db → db;
  SADD : string → string → db → db;
  SREM : string → string → db → db;
  ZADD : string → Z → string → db → db;
  ZREM : string → string → db → db;
  RPUSH : string → string → db → db;
  LPOP : string → db → db;
  LREM : string → string → db → db;
  HSET : string → string → V → db → db;
  HDEL : string → string → db → db;
}.

(** Documented effect of the write commands. *)
Class RedisLaws {V db : Type} (R : Redis V db) : Prop := {
  GET_SET k k' v s : GET k' (SET k v s) = if decide (k = k') then Some v else GET k' s;
  GET_DEL k k' s : GET k' (DEL k s) = if decide (k = k') then None else GET k' s;
  GET_SADD k k' m s : GET k' (SADD k m s) = GET k' s;
  GET_SREM k k' m s : GET k' (SREM k m s) = GET k' s;
  GET_ZADD k k' x m s : GET k' (ZADD k x m s) = GET k' s;
  GET_ZREM k k' m s : GET k' (ZREM k m s) = GET k' s;
  GET_RPUSH k k' v s : GET k' (RPUSH k v s) = GET k' s;
  GET_LPOP k k' s : GET k' (LPOP k s) = GET k' s;
  GET_LREM k k' v s : GET k' (LREM k v s) = GET k' s;
  GET_HSET k k' f v s : GET k' (HSET k f v s) = GET k' s;
  GET_HDEL k k' f s : GET k' (HDEL k f s) = GET k' s;
  SMEMBERS_SET k k' v s : SMEMBERS k' (SET k v s) = SMEMBERS k' s;
  SMEMBERS_DEL k k' s : SMEMBERS k' (DEL k s) = SMEMBERS k' s;
  SMEMBERS_SADD k k' m s :
    SMEMBERS k' (SADD k m s) =
    if decide (k = k') then {[m]} ∪ SMEMBERS k' s else SMEMBERS k' s;
  SMEMBERS_SREM k k' m s :
    SMEMBERS k' (SREM k m s) =
    if decide (k = k') then SMEMBERS k' s ∖ {[m]} else SMEMBERS k' s;
  SMEMBERS_ZADD k k' x m s : SMEMBERS k' (ZADD k x m s) = SMEMBERS k' s;
  SMEMBERS_ZREM k k' m s : SMEMBERS k' (ZREM k m s) = SMEMBERS k' s;
  SMEMBERS_RPUSH k k' v s : SMEMBERS k' (RPUSH k v s) = SMEMBERS k' s;
  SMEMBERS_LPOP k k' s : SMEMBERS k' (LPOP k s) = SMEMBERS k' s;
  SMEMBERS_LREM k k' v s : SMEMBERS k' (LREM k v s) = SMEMBERS k' s;
  SMEMBERS_HSET k k' f v s : SMEMBERS k' (HSET k f v s) = SMEMBERS k' s;
  SMEMBERS_HDEL k k' f s : SMEMBERS k' (HDEL k f s) = SMEMBERS k' s;
  ZALL_SET k k' v s : ZALL k' (SET k v s) = ZALL k' s;
  ZALL_DEL k k' s : ZALL k' (DEL k s) = ZALL k' s;
  ZALL_SADD k k' m s : ZALL k' (SADD k m s) = ZALL k' s;
  ZALL_SREM k k' m s : ZALL k' (SREM k m s) = ZALL k' s;
  ZALL_ZADD k k' x m s :
    ZALL k' (ZADD k x m s) = if decide (k = k') then <[m:=x]> (ZALL k' s) else ZALL k' s;
  ZALL_ZREM k k' m s :
    ZALL k' (ZREM k m s) = if decide (k = k') then delete m (ZALL k' s) else ZALL k' s;
  ZALL_RPUSH k k' v s : ZALL k' (RPUSH k v s) = ZALL k' s;
  ZALL_LPOP k k' s : ZALL k' (LPOP k s) = ZALL k' s;
  ZALL_LREM k k' v s : ZALL k' (LREM k v s) = ZALL k' s;
  ZALL_HSET k k' f v s : ZALL k' (HSET k f v s) = ZALL k' s;
  ZALL_HDEL k k' f s : ZALL k' (HDEL k f s) = ZALL k' s;
  LALL_SET k k' v s : LALL k' (SET k v s) = LALL k' s;
  LALL_DEL k k' s : LALL k' (DEL k s) = LALL k' s;
  LALL_SADD k k' m s : LALL k' (SADD k m s) = LALL k' s;
  LALL_SREM k k' m s : LALL k' (SREM k m s) = LALL k' s;
  LALL_ZADD k k' x m s : LALL k' (ZADD k x m s) = LALL k' s;
  LALL_ZREM k k' m s : LALL k' (ZREM k m s) = LALL k' s;
  LALL_RPUSH k k' v s :
    LALL k' (RPUSH k v s) = if decide (k = k') then LALL k' s ++ [v] else LALL k' s;
  LALL_LPOP k k' s :
    LALL k' (LPOP k s) = if decide (k = k') then tail (LALL k' s) else LALL k' s;
  LALL_LREM k k' v s :
    LALL k' (LREM k v s) =
    if decide (k = k') then filter (λ x, x ≠ v) (LALL k' s) else LALL k' s;
  LALL_HSET k k' f v s : LALL k' (HSET k f v s) = LALL k' s;
  LALL_HDEL k k' f s : LALL k' (HDEL k f s) = LALL k' s;
  HALL_SET k k' v s : HALL k' (SET k v s) = HALL k' s;
  HALL_DEL k k' s : HALL k' (DEL k s) = HALL k' s;
  HALL_SADD k k' m s : HALL k' (SADD k m s) = HALL k' s;
  HALL_SREM k k' m s : HALL k' (SREM k m s) = HALL k' s;
  HALL_ZADD k k' x m s : HALL k' (ZADD k x m s) = HALL k' s;
  HALL_ZREM k k' m s : HALL k' (ZREM k m s) = HALL k' s;
  HALL_RPUSH k k' v s : HALL k' (RPUSH k v s) = HALL k' s;
  HALL_LPOP k k' s : HALL k' (LPOP k s) = HALL k' s;
  HALL_LREM k k' v s : HALL k' (LREM k v s) = HALL k' s;
  HALL_HSET k k' f v s :
    HALL k' (HSET k f v s) = if decide (k = k') then <[f:=v]> (HALL k' s) else HALL k' s;
  HALL_HDEL k k' f s :
    HALL k' (HDEL k f s) = if decide (k = k') then delete f (HALL k' s) else HALL k' s;
}.

(** ** Read commands *)

Section Reads.
Context {V db : Type} {R : Redis V db}.

(** [SCARD key]. *)
Definition SCARD (k : string) (s : db) : Z := Z.of_nat (size (SMEMBERS k s)).

(** [ZCARD key]. *)
Definition ZCARD (k : string) (s : db) : Z := Z.of_nat (size (ZALL k s)).

(** [ZSCORE key member]. *)
Definition ZSCORE (k m : string) (s : db) : option Z := ZALL k s !! m.

(** [ZRANGE key 0 stop WITHSCORES]; a negative [stop] counts from the end. *)
Definition ZRANGE (k : string) (stop : Z) (s : db) : list (string * Z) :=
  let l := zsorted (ZALL k s) in
  take (Z.to_nat (if (stop <? 0)%Z then Z.of_nat (length l) + stop + 1 else stop + 1)) l.

(** [ZRANGEBYSCORE key -inf max WITHSCORES LIMIT 0 n], [n >= 0]. *)
Definition ZRANGEBYSCORE (k : string) (mx n : Z) (s : db) : list (string * Z) :=
  take (Z.to_nat n) (filter (λ p, p.2 ≤ mx)%Z (zsorted (ZALL k s))).

(** [ZCOUNT key -inf max]. *)
Definition ZCOUNT (k : string) (mx : Z) (s : db) : Z :=
  Z.of_nat (length (filter (λ p, p.2 ≤ mx)%Z (zsorted (ZALL k s)))).

(** [LLEN key]. *)
Definition LLEN (k : string) (s : db) : Z := Z.of_nat (length (LALL k s)).

(** [EXISTS key] on a string key. *)
Definition EXISTS (k : string) (s : db) : bool := bool_decide (is_Some (GET k s)).

(** [HGET key field]. *)
Definition HGET (k f : string) (s : db) : option V := HALL k s !! f.

End Reads.

(** ** Facts on ordered sorted sets *)

Lemma elem_of_zsorted z m x : (m, x) ∈ zsorted z ↔ z !! m = Some x.
Proof. unfold zsorted. rewrite merge_sort_Permutation. apply elem_of_map_to_list. Qed.

Lemma NoDup_zsorted z : NoDup (zsorted z).*1.
Proof. unfold zsorted. rewrite merge_sort_Permutation. apply NoDup_fst_map_to_list. Qed.

Lemma length_zsorted z : length (zsorted z) = size z.
Proof. unfold zsorted. by rewrite merge_sort_Permutation, length_map_to_list. Qed.

Lemma zsorted_nil z : zsorted z = [] ↔ z = ∅.
Proof.
  unfold zsorted. split.
  - intros H. apply map_to_list_empty_iff. apply Permutation_nil_r.
    rewrite <- H. symmetry. apply merge_sort_Permutation.
  - intros ->. by rewrite map_to_list_empty.
Qed.

Lemma StronglySorted_zsorted z : StronglySorted zle (zsorted z).
Proof. apply StronglySorted_merge_sort; apply _. Qed.

(** The first element of a sorted set: the earliest score. *)
Definition zmin (z : gmap string Z) : option (string * Z) := head (zsorted z).

Lemma zmin_None z : zmin z = None ↔ z = ∅.
Proof. unfold zmin. rewrite <- zsorted_nil. by destruct (zsorted z). Qed.

Lemma zmin_Some z m x :
  zmin z = Some (m, x) → z !! m = Some x ∧ ∀ n y, z !! n = Some y → (x ≤ y)%Z.
Proof.
  unfold zmin. intros H. pose proof (StronglySorted_zsorted z) as Hs.
  destruct (zsorted z) as [|p l] eqn:E; simpl in H; [done|]. injection H as ->.
  split.
  - apply elem_of_zsorted. rewrite E. by left.
  - intros n y Hn%elem_of_zsorted. rewrite E in Hn.
    apply StronglySorted_inv in Hs as [_ Hs]. rewrite Forall_forall in Hs.
    apply elem_of_cons in Hn as [[= -> ->]|Hn]; [done|].
    destruct (Hs _ Hn) as [?|[? _]]; simpl in *; lia.
Qed.

Lemma zmin_lookup z m x : z !! m = Some x → ∃ p, zmin z = Some p ∧ (p.2 ≤ x)%Z.
Proof.
  intros Hm. destruct (zmin z) as [[n y]|] eqn:E.
  - exists (n, y). split; [done|]. by apply (zmin_Some _ _ _ E) in Hm.
  - apply zmin_None in E as ->. by rewrite lookup_empty in Hm.
Qed.

Section ReadFacts.
Context {V db : Type} {R : Redis V db}.
Implicit Types (s : db) (k : string).

Lemma ZRANGE_first k s : head (ZRANGE k 0 s) = zmin (ZALL k s).
Proof. unfold ZRANGE, zmin. by destruct (zsorted (ZALL k s)). Qed.

Lemma ZRANGEBYSCORE_elem k mx n s m x :
  (m, x) ∈ ZRANGEBYSCORE k mx n s → ZALL k s !! m = Some x ∧ (x ≤ mx)%Z.
Proof.
  unfold ZRANGEBYSCORE. intros H%elem_of_take. destruct H as (i & H & _).
  apply list_elem_of_lookup_2 in H. apply list_elem_of_filter in H as [? H].
  by apply elem_of_zsorted in H.
Qed.

Lemma ZRANGEBYSCORE_length k mx n s : (0 ≤ n)%Z → (Z.of_nat (length (ZRANGEBYSCORE k mx n s)) ≤ n)%Z.
Proof. intros Hn. unfold ZRANGEBYSCORE. rewrite length_take. lia. Qed.

Lemma NoDup_fst_sublist (l l' : list (string * Z)) : l `sublist_of` l' → NoDup l'.*1 → NoDup l.*1.
Proof.
  intros Hs Hnd. eapply sublist_NoDup; [exact Hnd|]. clear Hnd.
  induction Hs; simpl; by constructor.
Qed.

Lemma ZRANGEBYSCORE_NoDup k mx n s : NoDup (ZRANGEBYSCORE k mx n s).*1.
Proof.
  apply (NoDup_fst_sublist _ (zsorted (ZALL k s))); [|apply NoDup_zsorted].
  unfold ZRANGEBYSCORE. etrans; [apply sublist_take|]. apply sublist_filter.
Qed.

(** A limit that is large enough keeps every due element. *)
Lemma ZRANGEBYSCORE_all k mx n s m x :
  ZALL k s !! m = Some x → (x ≤ mx)%Z → (ZCARD k s ≤ n)%Z → m ∈ (ZRANGEBYSCORE k mx n s).*1.
Proof.
  intros Hm Hx Hn. apply list_elem_of_fmap. exists (m, x). split; [done|].
  unfold ZRANGEBYSCORE, ZCARD in *. rewrite take_ge.
  - apply list_elem_of_filter. split; [done|]. by apply elem_of_zsorted.
  - pose proof (length_filter (λ p : string * Z, (p.2 ≤ mx)%Z) (zsorted (ZALL k s))).
    rewrite length_zsorted in *. lia.
Qed.

(** When nothing is due, every element is in the future. *)
Lemma ZRANGEBYSCORE_nil k mx n s :
  (0 < n)%Z → ZRANGEBYSCORE k mx n s = [] →
  ∀ m x, ZALL k s !! m = Some x → (mx < x)%Z.
Proof.
  unfold ZRANGEBYSCORE. intros Hn H m x Hm.
  destruct (decide (x ≤ mx)%Z) as [Hle|]; [|lia].
  assert ((m, x) ∈ filter (λ p : string * Z, (p.2 ≤ mx)%Z) (zsorted (ZALL k s))) as Hin.
  { apply list_elem_of_filter. split; [done|]. by apply elem_of_zsorted. }
  destruct (filter _ _) as [|p l]; [by apply elem_of_nil in Hin|].
  destruct (Z.to_nat n) eqn:En; [lia|done].
Qed.

End ReadFacts.

(** ** Observational equality of databases *)

Definition db_equiv {V db : Type} {R : Redis V db} (s t : db) : Prop :=
  ∀ k, GET k s = GET k t ∧ SMEMBERS k s = SMEMBERS k t ∧ ZALL k s = ZALL k t ∧
       LALL k s = LALL k t ∧ HALL k s = HALL k t.

Infix "≡db" := db_equiv (at level 70, no associativity) : platos_scope.
Open Scope platos_scope.

#[export] Instance db_equiv_equivalence {V db} {R : Redis V db} : Equivalence (db_equiv (R := R)).
Proof.
  split.
  - by intros s k.
  - intros s t H k. destruct (H k) as (?&?&?&?&?). by repeat split.
  - intros s t u H1 H2 k. destruct (H1 k) as (?&?&?&?&?), (H2 k) as (?&?&?&?&?).
    repeat split; by etrans.
Qed.

#[export] Hint Rewrite @GET_SET @GET_DEL @GET_SADD @GET_SREM @GET_ZADD @GET_ZREM @GET_RPUSH
  @GET_LPOP @GET_LREM @GET_HSET @GET_HDEL using apply _ : redis.
#[export] Hint Rewrite @SMEMBERS_SET @SMEMBERS_DEL @SMEMBERS_SADD @SMEMBERS_SREM
  @SMEMBERS_ZADD @SMEMBERS_ZREM @SMEMBERS_RPUSH @SMEMBERS_LPOP @SMEMBERS_LREM
  @SMEMBERS_HSET @SMEMBERS_HDEL using apply _ : redis.
#[export] Hint Rewrite @ZALL_SET @ZALL_DEL @ZALL_SADD @ZALL_SREM @ZALL_ZADD @ZALL_ZREM
  @ZALL_RPUSH @ZALL_LPOP @ZALL_LREM @ZALL_HSET @ZALL_HDEL using apply _ : redis.
#[export] Hint Rewrite @LALL_SET @LALL_DEL @LALL_SADD @LALL_SREM @LALL_ZADD @LALL_ZREM
  @LALL_RPUSH @LALL_LPOP @LALL_LREM @LALL_HSET @LALL_HDEL using apply _ : redis.
#[export] Hint Rewrite @HALL_SET @HALL_DEL @HALL_SADD @HALL_SREM @HALL_ZADD @HALL_ZREM
  @HALL_RPUSH @HALL_LPOP @HALL_LREM @HALL_HSET @HALL_HDEL using apply _ : redis.

(** Decide an equality of keys from the hypotheses. *)
Ltac key_case :=
  match goal with
  | |- context [decide (?a = ?b)] =>
      let H := fresh in
      first [ assert (a = b) as H by reflexivity; rewrite (decide_True _ _ H)
            | assert (a ≠ b) as H by first [assumption | congruence]; rewrite (decide_False _ _ H)
            | assert (a = b) as H by congruence; rewrite (decide_True _ _ H) ]; clear H
  end.

(** Compute views of a database built by commands, deciding key equality from
    the hypotheses. *)
Ltac redis_simpl := repeat first [ progress autorewrite with redis | key_case ].

(** ** A concrete database *)

Record mem (V : Type) : Type := Mem {
  m_str : gmap string V;
  m_set : gmap string (gset string);
  m_zset : gmap string (gmap string Z);
  m_list : gmap string (list string);
  m_hash : gmap string (gmap string V);
  m_time : Z * Z;
}.
Arguments Mem {V}.
Arguments m_str {V}.
Arguments m_set {V}.
Arguments m_zset {V}.
Arguments m_list {V}.
Arguments m_hash {V}.
Arguments m_time {V}.

Definition mem_empty {V} (t : Z * Z) : mem V := Mem ∅ ∅ ∅ ∅ ∅ t.

Section MemOps.
Context {V : Type}.

Definition on_str (f : gmap string V → gmap string V) (s : mem V) : mem V :=
  Mem (f (m_str s)) (m_set s) (m_zset s) (m_list s) (m_hash s) (m_time s).
Definition on_set (k : string) (f : gset string → gset string) (s : mem V) : mem V :=
  Mem (m_str s) (<[k := f (default ∅ (m_set s !! k))]> (m_set s)) (m_zset s) (m_list s)
    (m_hash s) (m_time s).
Definition on_zset (k : string) (f : gmap string Z → gmap string Z) (s : mem V) : mem V :=
  Mem (m_str s) (m_set s) (<[k := f (default ∅ (m_zset s !! k))]> (m_zset s)) (m_list s)
    (m_hash s) (m_time s).
Definition on_list (k : string) (f : list string → list string) (s : mem V) : mem V :=
  Mem (m_str s) (m_set s) (m_zset s) (<[k := f (default [] (m_list s !! k))]> (m_list s))
    (m_hash s) (m_time s).
Definition on_hash (k : string) (f : gmap string V → gmap string V) (s : mem V) : mem V :=
  Mem (m_str s) (m_set s) (m_zset s) (m_list s)
    (<[k := f (default ∅ (m_hash s !! k))]> (m_hash s)) (m_time s).

End MemOps.

#[export] Instance mem_redis (V : Type) : Redis V (mem V) := {|
  GET k s := m_str s !! k;
  SMEMBERS k s := default ∅ (m_set s !! k);
  ZALL k s := default ∅ (m_zset s !! k);
  LALL k s := default [] (m_list s !! k);
  HALL k s := default ∅ (m_hash s !! k);
  TIME s := m_time s;
  SET k v := on_str (<[k := v]>);
  DEL k := on_str (delete k);
  SADD k m := on_set k (λ x, {[m]} ∪ x);
  SREM k m := on_set k (λ x, x ∖ {[m]});
  ZADD k x m := on_zset k (<[m := x]>);
  ZREM k m := on_zset k (delete m);
  RPUSH k v := on_list k (λ l, l ++ [v]);
  LPOP k := on_list k (@tail string);
  LREM k v := on_list k (filter (λ x, x ≠ v));
  HSET k f v := on_hash k (<[f := v]>);
  HDEL k f := on_hash k (delete f);
|}.

(** The concrete database satisfies the documented laws. *)
#[export] Instance mem_laws (V : Type) : RedisLaws (mem_redis V).
Proof.
  split; intros; simpl; try done;
    rewrite ?lookup_insert, ?lookup_delete; case_decide; subst; done.
Qed.
