(* ===== verification/Listing.v ===== *)
(** * Listing: a sorted set that lists queues under their earliest score

    The run queue and the fair queue both keep indexes of queues: a sorted set
    ([parent]) that holds the name of another one ([child]) under the score of its
    first member.  This file has the Lua fragments that keep such an entry up to
    date, their effect on every view, and the relation [listed] the invariants of
    both queues are built from. *)

From S2P Require Import Prelude Text Redis.
Local Open Scope Z_scope.

Section Listing.
Context {V db : Type} {R : Redis V db}.
Implicit Types (s t : db).

(** "Rebalance the parent queues": the parent holds the child under its
    earliest score, or not at all when the child is empty. *)
Definition rebalance (parent child name : string) (s : db) : db :=
  match ZRANGE child 0 s with
  | [] => ZREM parent name s
  | (_, score) :: _ => ZADD parent score name s
  end.

(** The variant that only adds. *)
Definition rebalance_add (parent child name : string) (s : db) : db :=
  match ZRANGE child 0 s with
  | [] => s
  | (_, score) :: _ => ZADD parent score name s
  end.

(** The parent holds [name] under the earliest score of [child], and does not
    hold it when [child] is empty. *)
Definition parent_ok (parent child name : string) (s : db) : Prop :=
  ZALL parent s !! name = snd <$> zmin (ZALL child s).

(** The parent holds [name] under a score of at most [x]. *)
Definition listed (parent name : string) (x : Z) s : Prop :=
  ∃ y, ZALL parent s !! name = Some y ∧ y ≤ x.

End Listing.

Section Views.
Context {V db : Type} {R : Redis V db} {L : RedisLaws R}.
Implicit Types (s t : db).

(** ** Views after [rebalance] *)

Lemma rebalance_cases parent child name s :
  (zmin (ZALL child s) = None ∧ rebalance parent child name s = ZREM parent name s) ∨
  (∃ p, zmin (ZALL child s) = Some p ∧ rebalance parent child name s = ZADD parent p.2 name s).
Proof.
  unfold rebalance. rewrite <- ZRANGE_first.
  destruct (ZRANGE child 0 s) as [|[m x] l]; [by left|right; by eexists].
Qed.

Lemma rebalance_add_cases parent child name s :
  (zmin (ZALL child s) = None ∧ rebalance_add parent child name s = s) ∨
  (∃ p, zmin (ZALL child s) = Some p ∧
        rebalance_add parent child name s = ZADD parent p.2 name s).
Proof.
  unfold rebalance_add. rewrite <- ZRANGE_first.
  destruct (ZRANGE child 0 s) as [|[m x] l]; [by left|right; by eexists].
Qed.

Local Ltac by_cases lem :=
  intros; destruct lem as [[? ->]|(? & ? & ->)]; by redis_simpl.

Lemma GET_rebalance k parent child name s : GET k (rebalance parent child name s) = GET k s.
Proof. by_cases (rebalance_cases parent child name s). Qed.
Lemma SMEMBERS_rebalance k parent child name s :
  SMEMBERS k (rebalance parent child name s) = SMEMBERS k s.
Proof. by_cases (rebalance_cases parent child name s). Qed.
Lemma LALL_rebalance k parent child name s : LALL k (rebalance parent child name s) = LALL k s.
Proof. by_cases (rebalance_cases parent child name s). Qed.
Lemma HALL_rebalance k parent child name s : HALL k (rebalance parent child name s) = HALL k s.
Proof. by_cases (rebalance_cases parent child name s). Qed.

Lemma ZALL_rebalance k parent child name s :
  ZALL k (rebalance parent child name s) =
  if decide (parent = k)
  then partial_alter (λ _, snd <$> zmin (ZALL child s)) name (ZALL k s) else ZALL k s.
Proof.
  destruct (rebalance_cases parent child name s) as [[-> ->]|(p & -> & ->)];
    redis_simpl; by case_decide.
Qed.

Lemma GET_rebalance_add k parent child name s : GET k (rebalance_add parent child name s) = GET k s.
Proof. by_cases (rebalance_add_cases parent child name s). Qed.
Lemma SMEMBERS_rebalance_add k parent child name s :
  SMEMBERS k (rebalance_add parent child name s) = SMEMBERS k s.
Proof. by_cases (rebalance_add_cases parent child name s). Qed.
Lemma LALL_rebalance_add k parent child name s :
  LALL k (rebalance_add parent child name s) = LALL k s.
Proof. by_cases (rebalance_add_cases parent child name s). Qed.
Lemma HALL_rebalance_add k parent child name s :
  HALL k (rebalance_add parent child name s) = HALL k s.
Proof. by_cases (rebalance_add_cases parent child name s). Qed.

Lemma ZALL_rebalance_add k parent child name s :
  ZALL k (rebalance_add parent child name s) =
  if decide (parent = k)
  then partial_alter (λ old, from_option (Some ∘ snd) old (zmin (ZALL child s))) name (ZALL k s)
  else ZALL k s.
Proof.
  destruct (rebalance_add_cases parent child name s) as [[-> ->]|(p & -> & ->)];
    redis_simpl; case_decide; simpl; try done.
  apply map_eq. intros m. destruct (decide (m = name)) as [->|].
  - by rewrite lookup_partial_alter_eq.
  - by rewrite lookup_partial_alter_ne.
Qed.

End Views.

#[export] Hint Rewrite @GET_rebalance @SMEMBERS_rebalance @LALL_rebalance @HALL_rebalance
  @ZALL_rebalance @GET_rebalance_add @SMEMBERS_rebalance_add @LALL_rebalance_add
  @HALL_rebalance_add @ZALL_rebalance_add using apply _ : redis.
Section Updates.
Context {V db : Type} {R : Redis V db} {L : RedisLaws R}.
Implicit Types (s t : db).

(** ** Updates of one entry *)

Definition upd (p n : string) (v : option Z) s t : Prop :=
  ∀ k, ZALL k t = if decide (p = k) then partial_alter (λ _, v) n (ZALL k s) else ZALL k s.

(** The earliest score of a sorted set. *)
Definition earliest (k : string) s : option Z := snd <$> zmin (ZALL k s).

Lemma upd_rebalance p c n s : upd p n (earliest c s) s (rebalance p c n s).
Proof. intros k. apply ZALL_rebalance. Qed.

Lemma upd_ZREM p n s : upd p n None s (ZREM p n s).
Proof. intros k. by redis_simpl. Qed.

Lemma earliest_le k s m x : ZALL k s !! m = Some x → ∃ y, earliest k s = Some y ∧ y ≤ x.
Proof. intros (p' & Hp & Hle)%zmin_lookup. exists p'.2. unfold earliest. by rewrite Hp. Qed.

Lemma earliest_in k s y : earliest k s = Some y → ∃ m, ZALL k s !! m = Some y.
Proof.
  unfold earliest. destruct (zmin _) as [[m x]|] eqn:E; [|done]. intros [= <-].
  apply zmin_Some in E as [? _]. by exists m.
Qed.

Lemma listed_upd p n v s t pa name x :
  upd p n v s t → listed pa name x s → (pa = p → name = n → ∃ y, v = Some y ∧ y ≤ x) →
  listed pa name x t.
Proof.
  intros Hu Hl Hv. unfold listed. rewrite Hu. case_decide as Hp; [|done].
  destruct (decide (name = n)) as [->|]; [|by rewrite lookup_partial_alter_ne].
  rewrite lookup_partial_alter_eq. by apply Hv.
Qed.

Lemma listed_here p n v s t x y : upd p n v s t → v = Some y → y ≤ x → listed p n x t.
Proof.
  intros Hu -> Hy. exists y. by rewrite Hu, decide_True, lookup_partial_alter_eq.
Qed.

End Updates.
