(* ===== verification/JumpHash.v ===== *)
(** * JumpHash: consistent hashing of environments onto shards
    (packages/core/src/v3/serverOnly/jumpHash.ts)

    The key is kept as the [bigint] of the source, the quotient is the double
    division of the source (round to nearest, ties to even, 53 bits), written
    out on integers.  SHA-256 comes from [node:crypto] and is a parameter. *)

From S2P Require Import Prelude.
Local Open Scope Z_scope.

(** ** Double division of exactly represented positive integers *)

(** Nearest integer to [n / d], ties to even. *)
Definition round_half_even (n d : Z) : Z :=
  let f := n / d in
  let r := n mod d in
  if 2 * r <? d then f
  else if d <? 2 * r then f + 1
  else if Z.even f then f else f + 1.

(** [Math.floor(a / d)] for positive integers that are doubles: the quotient
    rounded to 53 significant bits, then its integer part. *)
Definition floor_div_double (a d : Z) : Z :=
  let le := Z.log2 a - Z.log2 d in
  let e := if a * 2 ^ Z.max 0 (- le) <? d * 2 ^ Z.max 0 le then le - 1 else le in
  let sh := 52 - e in
  if 0 <=? sh then round_half_even (a * 2 ^ sh) d / 2 ^ sh
  else round_half_even a (d * 2 ^ (- sh)) * 2 ^ (- sh).

(** ** The source *)

(** [bytes[i]!]. *)
Definition byte_at (bytes : list Z) (i : nat) : Z := default 0 (bytes !! i).

Definition bytesToBigInt (bytes : list Z) : Z :=
  let hi := byte_at bytes 0 * 2 ^ 24 + byte_at bytes 1 * 2 ^ 16 + byte_at bytes 2 * 2 ^ 8
            + byte_at bytes 3 in
  let lo := byte_at bytes 4 * 2 ^ 24 + byte_at bytes 5 * 2 ^ 16 + byte_at bytes 6 * 2 ^ 8
            + byte_at bytes 7 in
  Z.shiftl hi 32 + lo.

Definition multiplier : Z := 2862933555777941757.

(** One update of [keyBigInt]: the product is reduced modulo 2^64, the
    increment is not. *)
Definition next_key (k : Z) : Z := (k * multiplier) mod 2 ^ 64 + 1.

(** [j] computed from [b] and the updated key. *)
Definition next_j (b k : Z) : Z := floor_div_double ((b + 1) * 2 ^ 31) (Z.shiftr k 33 + 1).

(** The [while] loop; [None] when the fuel runs out. *)
Fixpoint jump_loop (fuel : nat) (k b j numBuckets : Z) : option Z :=
  match fuel with
  | O => None
  | S fuel =>
      if j <? numBuckets then
        let b := j in
        let k := next_key k in
        jump_loop fuel k b (next_j b k) numBuckets
      else Some b
  end.

Definition jump_fuel (numBuckets : Z) : nat := Z.to_nat numBuckets + 3.

Definition jumpConsistentHash (key : list Z) (numBuckets : Z) : option Z :=
  jump_loop (jump_fuel numBuckets) (bytesToBigInt key) (-1) 0 numBuckets.

(** [jumpHash(key, buckets)]; the loop always returns (see [jump_hash_total]),
    so the default is never used. *)
Definition jumpHash (sha256 : string → list Z) (key : string) (buckets : Z) : Z :=
  default (-1) (jumpConsistentHash (take 32 (sha256 key)) buckets).

(** The algorithm of the paper the source cites: the key is a [uint64_t] and
    the increment wraps around too. *)
Fixpoint paper_loop (fuel : nat) (k b j numBuckets : Z) : option Z :=
  match fuel with
  | O => None
  | S fuel =>
      if j <? numBuckets then
        let b := j in
        let k := (k * multiplier + 1) mod 2 ^ 64 in
        paper_loop fuel k b (next_j b k) numBuckets
      else Some b
  end.

(** ** Rounding *)

Lemma round_half_even_bounds n d : 0 < d → n / d ≤ round_half_even n d ≤ n / d + 1.
Proof.
  intros Hd. unfold round_half_even.
  destruct (2 * (n mod d) <? d), (d <? 2 * (n mod d)), (Z.even (n / d)); lia.
Qed.

(** Rounding never drops below an integer the quotient reaches. *)
Lemma round_half_even_ge n d c : 0 < d → c * d ≤ n → c ≤ round_half_even n d.
Proof.
  intros Hd Hc. pose proof (round_half_even_bounds n d Hd).
  assert (c ≤ n / d) by (apply Z.div_le_lower_bound; lia). lia.
Qed.

Lemma pow2_pos n : 0 < 2 ^ n ∨ n < 0.
Proof. destruct (decide (n < 0)); [by right|left]. apply Z.pow_pos_nonneg; lia. Qed.

(** The exponent chosen by [floor_div_double] brackets the quotient. *)
Lemma exponent_bracket a d :
  0 < a → 0 < d →
  let le := Z.log2 a - Z.log2 d in
  let e := if a * 2 ^ Z.max 0 (- le) <? d * 2 ^ Z.max 0 le then le - 1 else le in
  d * 2 ^ Z.max 0 e ≤ a * 2 ^ Z.max 0 (- e) ∧ a * 2 ^ Z.max 0 (- e) < 2 * (d * 2 ^ Z.max 0 e).
Proof.
  intros Ha Hd le0. cbv zeta. assert (∃ le, le = le0) as [le Ele] by eauto.
  rewrite <- Ele. unfold le0 in Ele. clear le0.
  pose proof (Z.log2_spec a Ha) as [Ha1 Ha2]. pose proof (Z.log2_spec d Hd) as [Hd1 Hd2].
  pose proof (Z.log2_nonneg a). pose proof (Z.log2_nonneg d).
  rewrite Z.pow_succ_r in Ha2, Hd2 by lia.
  destruct (Z_le_gt_dec 0 le) as [Hle|Hle].
  - rewrite (Z.max_l 0 (- le)), (Z.max_r 0 le) by lia. rewrite Z.mul_1_r.
    assert (2 ^ Z.log2 a = 2 ^ Z.log2 d * 2 ^ le) as Epow.
    { rewrite <- Z.pow_add_r by lia. f_equal. lia. }
    assert (0 < 2 ^ le) by (apply Z.pow_pos_nonneg; lia).
    destruct (Z.ltb_spec a (d * 2 ^ le)) as [Hlt|Hge].
    + destruct (Z.eq_dec le 0) as [E0|E0].
      * replace (le - 1) with (-1) by lia. change (2 ^ Z.max 0 (-1)) with 1.
        change (2 ^ Z.max 0 (- -1)) with 2. rewrite E0, Z.pow_0_r in *. lia.
      * rewrite (Z.max_r 0 (le - 1)), (Z.max_l 0 (- (le - 1))) by lia.
        assert (2 ^ le = 2 * 2 ^ (le - 1)) as E2.
        { rewrite <- Z.pow_succ_r by lia. f_equal. lia. }
        rewrite E2 in *. nia.
    + rewrite (Z.max_l 0 (- le)), (Z.max_r 0 le) by lia. nia.
  - rewrite (Z.max_r 0 (- le)), (Z.max_l 0 le) by lia. rewrite Z.mul_1_r.
    assert (2 ^ Z.log2 d = 2 ^ Z.log2 a * 2 ^ (- le)) as Epow.
    { rewrite <- Z.pow_add_r by lia. f_equal. lia. }
    assert (0 < 2 ^ (- le)) by (apply Z.pow_pos_nonneg; lia).
    destruct (Z.ltb_spec (a * 2 ^ (- le)) d) as [Hlt|Hge].
    + rewrite (Z.max_l 0 (le - 1)), (Z.max_r 0 (- (le - 1))) by lia.
      assert (2 ^ (- (le - 1)) = 2 * 2 ^ (- le)) as E2.
      { rewrite <- Z.pow_succ_r by lia. f_equal. lia. }
      rewrite E2. rewrite Z.pow_0_r. nia.
    + rewrite (Z.max_l 0 le), (Z.max_r 0 (- le)) by lia. rewrite Z.pow_0_r. nia.
Qed.

Lemma floor_div_double_ge a d c :
  0 < a → 0 < d → c ≤ 2 ^ 53 → c * d ≤ a → c ≤ floor_div_double a d.
Proof.
  intros Ha Hd Hc Hcd. pose proof (exponent_bracket a d Ha Hd) as [Hlo _].
  unfold floor_div_double. cbv zeta in *.
  set (e := if _ <? _ then _ else _) in *. clearbody e.
  destruct (Z.leb_spec 0 (52 - e)) as [Hs|Hs].
  - assert (0 < 2 ^ (52 - e)) by (apply Z.pow_pos_nonneg; lia).
    apply Z.div_le_lower_bound; [done|]. apply round_half_even_ge; [done|]. nia.
  - rewrite (Z.max_r 0 e), (Z.max_l 0 (- e)), Z.pow_0_r, Z.mul_1_r in Hlo by lia.
    replace (- (52 - e)) with (e - 52) by lia.
    assert (0 < 2 ^ (e - 52)) by (apply Z.pow_pos_nonneg; lia).
    assert (2 ^ e = 2 ^ 52 * 2 ^ (e - 52)) as Ee.
    { rewrite <- Z.pow_add_r by lia. f_equal. lia. }
    assert (2 ≤ 2 ^ (e - 52)).
    { change 2 with (2 ^ 1) at 1. apply Z.pow_le_mono_r; lia. }
    assert (2 ^ 52 ≤ round_half_even a (d * 2 ^ (e - 52))).
    { apply round_half_even_ge; [nia|]. rewrite Ee in Hlo. lia. }
    change (2 ^ 53) with (2 ^ 52 * 2) in Hc.
    etrans; [exact Hc|]. apply Z.mul_le_mono_nonneg; lia.
Qed.

(** The key value 2^64 makes the quotient fall just below [b + 1]. *)
Lemma floor_div_double_top b :
  0 ≤ b < 2 ^ 31 → floor_div_double ((b + 1) * 2 ^ 31) (2 ^ 31 + 1) = b.
Proof.
  intros Hb. set (a := (b + 1) * 2 ^ 31). set (d := 2 ^ 31 + 1).
  assert (0 < a) as Ha by (unfold a; lia). assert (0 < d) as Hd by (unfold d; lia).
  apply Z.le_antisymm; [|apply floor_div_double_ge; unfold a, d; lia].
  pose proof (exponent_bracket a d Ha Hd) as [Hlo _].
  unfold floor_div_double. cbv zeta in *.
  set (e := if _ <? _ then _ else _) in *. clearbody e.
  assert (e < 32) as He.
  { destruct (Z_lt_le_dec e 32) as [|Hge]; [done|exfalso].
    rewrite (Z.max_r 0 e), (Z.max_l 0 (- e)), Z.pow_0_r, Z.mul_1_r in Hlo by lia.
    assert (2 ^ 32 ≤ 2 ^ e) by (apply Z.pow_le_mono_r; lia). unfold a, d in Hlo. nia. }
  rewrite (proj2 (Z.leb_le 0 (52 - e))) by lia.
  assert (0 < 2 ^ (52 - e)) as Hp by (apply Z.pow_pos_nonneg; lia).
  assert (2 ^ 52 ≤ (b + 1) * 2 ^ (52 - e)) as Hbig.
  { destruct (Z_lt_le_dec e 0) as [Hn|Hn].
    - assert (2 ^ 52 ≤ 2 ^ (52 - e)) by (apply Z.pow_le_mono_r; lia). nia.
    - rewrite (Z.max_r 0 e), (Z.max_l 0 (- e)), Z.pow_0_r, Z.mul_1_r in Hlo by lia.
      assert (0 < 2 ^ e) by (apply Z.pow_pos_nonneg; lia).
      assert (2 ^ e ≤ b + 1) as Hbe.
      { unfold a, d in Hlo. nia. }
      assert (2 ^ 52 = 2 ^ e * 2 ^ (52 - e)) as ->.
      { rewrite <- Z.pow_add_r by lia. f_equal. lia. }
      apply Z.mul_le_mono_nonneg_r; lia. }
  set (p := 2 ^ (52 - e)) in *. clearbody p.
  apply Z.lt_succ_r. apply Z.div_lt_upper_bound; [done|].
  pose proof (round_half_even_bounds (a * p) d Hd) as [_ Hr].
  assert (a * p / d < p * Z.succ b - 1); [|lia].
  apply Z.div_lt_upper_bound; [done|]. unfold a, d. change (2 ^ 31) with 2147483648 in *.
  change (2 ^ 52) with 4503599627370496 in Hbig. nia.
Qed.

Lemma next_key_bounds k : 1 ≤ next_key k ≤ 2 ^ 64.
Proof. unfold next_key. pose proof (Z.mod_pos_bound (k * multiplier) (2 ^ 64)). lia. Qed.

Lemma shiftr33_bounds k : 0 ≤ k < 2 ^ 64 → 0 ≤ Z.shiftr k 33 < 2 ^ 31.
Proof.
  intros Hk. rewrite Z.shiftr_div_pow2 by lia. split; [apply Z.div_pos; lia|].
  apply Z.div_lt_upper_bound; [lia|]. replace (2 ^ 33 * 2 ^ 31) with (2 ^ 64) by done. lia.
Qed.

(** A key below 2^64 moves [j] strictly past [b]. *)
Lemma next_j_advances b k :
  0 ≤ b < 2 ^ 31 → 0 ≤ k < 2 ^ 64 → b + 1 ≤ next_j b k.
Proof.
  intros Hb Hk. pose proof (shiftr33_bounds k Hk). unfold next_j.
  apply floor_div_double_ge; nia.
Qed.

(** The key 2^64 leaves [j] at [b]; the key that follows it is 1. *)
Lemma next_j_top b : 0 ≤ b < 2 ^ 31 → next_j b (2 ^ 64) = b.
Proof. intros Hb. unfold next_j. by apply floor_div_double_top. Qed.

Lemma next_j_small_key b k : 0 ≤ b < 2 ^ 31 → 0 ≤ k ≤ 1 → 2 ^ 31 ≤ next_j b k.
Proof.
  intros Hb Hk. unfold next_j. replace (Z.shiftr k 33) with 0.
  - apply floor_div_double_ge; nia.
  - rewrite Z.shiftr_div_pow2 by lia. symmetry. apply Z.div_small. lia.
Qed.

Lemma next_key_top : next_key (2 ^ 64) = 1.
Proof. reflexivity. Qed.

(** ** The loop *)

Lemma next_j_not_before b k : 0 ≤ b < 2 ^ 31 → b ≤ next_j b (next_key k).
Proof.
  intros Hb. pose proof (next_key_bounds k). destruct (Z.eq_dec (next_key k) (2 ^ 64)) as [->|].
  - by rewrite next_j_top.
  - pose proof (next_j_advances b (next_key k) Hb). lia.
Qed.

(** Whatever the loop returns lies between the current [j] and the bound. *)
Lemma jump_loop_range fuel k b j n r :
  n ≤ 2 ^ 31 → 0 ≤ j → jump_loop fuel k b j n = Some r →
  (j < n ∧ j ≤ r < n) ∨ (n ≤ j ∧ r = b).
Proof.
  intros Hn. revert k b j. induction fuel as [|fuel IH]; intros k b j Hj; simpl; [done|].
  destruct (Z.ltb_spec j n) as [Hjn|Hjn]; [|intros [= <-]; by right].
  intros H. left. split; [done|]. pose proof (next_j_not_before j k ltac:(lia)).
  apply IH in H; lia.
Qed.

Lemma jump_loop_total fuel k b j n :
  n ≤ 2 ^ 31 → 0 ≤ j → n - j + 3 ≤ Z.of_nat fuel → (0 < fuel)%nat →
  is_Some (jump_loop fuel k b j n).
Proof.
  intros Hn. revert k b j. induction fuel as [|fuel IH]; intros k b j Hj Hf Hpos; [lia|].
  simpl. destruct (Z.ltb_spec j n) as [Hjn|Hjn]; [|by eauto].
  pose proof (next_key_bounds k). destruct (Z.eq_dec (next_key k) (2 ^ 64)) as [Htop|Htop].
  - rewrite Htop, next_j_top by lia. destruct fuel as [|[|fuel]]; [lia..|]. clear IH.
    cbn [jump_loop]. rewrite next_key_top.
    pose proof (next_j_small_key j 1 ltac:(lia)). destruct (Z.ltb_spec j n); [|lia].
    destruct (Z.ltb_spec (next_j j 1) n); [lia|by eauto].
  - pose proof (next_j_advances j (next_key k)). apply IH; lia.
Qed.

Lemma jump_loop_grow fuel fuel' k b j n m r1 r2 :
  n ≤ m → m ≤ 2 ^ 31 → 0 ≤ j →
  jump_loop fuel k b j n = Some r1 → jump_loop fuel' k b j m = Some r2 →
  r2 = r1 ∨ n ≤ r2 < m.
Proof.
  intros Hnm Hm. revert fuel' k b j. induction fuel as [|fuel IH]; intros fuel' k b j Hj; simpl; [done|].
  destruct (Z.ltb_spec j n) as [Hjn|Hjn].
  - intros H1 H2. destruct fuel' as [|fuel']; [done|]. simpl in H2.
    rewrite (proj2 (Z.ltb_lt j m)) in H2 by lia.
    pose proof (next_j_not_before j k ltac:(lia)). eapply IH; [|done|done]. lia.
  - intros [= <-] H2. apply jump_loop_range in H2; lia.
Qed.

Lemma next_key_paper k :
  next_key k = (k * multiplier + 1) mod 2 ^ 64 ∨
  (next_key k = 2 ^ 64 ∧ (k * multiplier + 1) mod 2 ^ 64 = 0).
Proof.
  unfold next_key. rewrite (Z.add_mod (k * multiplier) 1) by lia.
  rewrite (Z.mod_small 1) by lia.
  pose proof (Z.mod_pos_bound (k * multiplier) (2 ^ 64) ltac:(lia)).
  destruct (Z.eq_dec ((k * multiplier) mod 2 ^ 64) (2 ^ 64 - 1)) as [->|Hne].
  - right. by split.
  - left. by rewrite (Z.mod_small (_ mod _ + 1)) by lia.
Qed.

Lemma jump_loop_paper fuel k b j n r :
  n ≤ 2 ^ 31 → 0 ≤ j → jump_loop fuel k b j n = Some r → paper_loop fuel k b j n = Some r.
Proof.
  intros Hn. revert k b j. induction fuel as [|fuel IH]; intros k b j Hj; simpl; [done|].
  destruct (Z.ltb_spec j n) as [Hjn|Hjn]; [|done].
  destruct (next_key_paper k) as [Heq|[Htop Hzero]].
  - rewrite <- Heq. pose proof (next_j_not_before j k ltac:(lia)). apply IH. lia.
  - rewrite Htop, Hzero, next_j_top by lia. intros H. destruct fuel as [|fuel]; [done|].
    cbn [paper_loop]. pose proof (next_j_small_key j 0 ltac:(lia)).
    destruct (Z.ltb_spec (next_j j 0) n); [lia|].
    cbn [jump_loop] in H. rewrite next_key_top, (proj2 (Z.ltb_lt j n)) in H by lia.
    pose proof (next_j_small_key j 1 ltac:(lia)).
    apply jump_loop_range in H; [|lia..]. f_equal. lia.
Qed.

(** ** Properties *)

(** For every key and every bucket count up to 2^31 the hash loop terminates
    within [jump_fuel] steps and returns a bucket that exists. *)
Theorem jump_hash_total (key : list Z) (n : Z) :
  0 < n ≤ 2 ^ 31 → ∃ b, jumpConsistentHash key n = Some b ∧ 0 ≤ b < n.
Proof.
  intros Hn. unfold jumpConsistentHash, jump_fuel.
  destruct (jump_loop_total (Z.to_nat n + 3) (bytesToBigInt key) (-1) 0 n) as [b Hb]; [lia..|].
  exists b. split; [done|]. apply jump_loop_range in Hb; lia.
Qed.

Lemma jump_hash_total_witness :
  0 < 2 ≤ 2 ^ 31 ∧ ∃ b, jumpConsistentHash [1; 2; 3; 4; 5; 6; 7; 8] 2 = Some b ∧ 0 ≤ b < 2.
Proof. split; [lia|]. apply (jump_hash_total [1; 2; 3; 4; 5; 6; 7; 8] 2). lia. Defined.

(** The hash is consistent: when buckets are added, a key stays where it was
    or moves to one of the new buckets, never between old ones. *)
Theorem jump_hash_consistent (key : list Z) (n m b1 b2 : Z) :
  0 < n → n ≤ m → m ≤ 2 ^ 31 →
  jumpConsistentHash key n = Some b1 → jumpConsistentHash key m = Some b2 →
  b2 = b1 ∨ n ≤ b2 < m.
Proof. intros ???. unfold jumpConsistentHash. apply jump_loop_grow; lia. Qed.

Lemma jump_hash_consistent_witness :
  ∃ b1 b2, jumpConsistentHash [7; 7; 7; 7; 7; 7; 7; 7] 2 = Some b1 ∧
           jumpConsistentHash [7; 7; 7; 7; 7; 7; 7; 7] 5 = Some b2 ∧ (b2 = b1 ∨ 2 ≤ b2 < 5).
Proof.
  eexists _, _. split; [vm_compute; reflexivity|]. split; [vm_compute; reflexivity|].
  eapply (jump_hash_consistent [7; 7; 7; 7; 7; 7; 7; 7] 2 5); [lia..| |];
    vm_compute; reflexivity.
Defined.


