(* ===== verification/KeyProducer.v ===== *)
(** * KeyProducer: the names of the run queue's Redis keys
    (internal-packages/run-engine/src/run-queue/keyProducer.ts)

    One definition per method of [RunQueueFullKeyProducer].  A method overloaded
    on an environment object or an environment descriptor takes the union
    [env_ref]; [descriptorFromQueue] throws a [TypeError] on a text without a
    second part, which is [None]. *)

From stdpp Require Import pretty.
From S2P Require Import Prelude Text JumpHash.

(** ** Data *)

(** [RunQueueKeyProducerEnvironment]: the ids of an environment object. *)
Record env_obj : Type := EnvObj {
  env_id : string;
  env_project_id : string;
  env_organization_id : string;
}.

Record EnvDescriptor : Type := MkEnvDescriptor {
  d_orgId : string;
  d_projectId : string;
  d_envId : string;
}.

Record QueueDescriptor : Type := MkQueueDescriptor {
  qd_orgId : string;
  qd_projectId : string;
  qd_envId : string;
  qd_queue : string;
  qd_concurrencyKey : option string;
}.

(** [EnvDescriptor | RunQueueKeyProducerEnvironment]. *)
Inductive env_ref : Type :=
| ByDescriptor (d : EnvDescriptor)
| ByEnv (e : env_obj).

(** ** constants *)

Definition CURRENT_CONCURRENCY_PART : string := "currentConcurrency".
Definition CURRENT_DEQUEUED_PART : string := "currentDequeued".
Definition CONCURRENCY_LIMIT_PART : string := "concurrency".
Definition CONCURRENCY_LIMIT_BURST_FACTOR_PART : string := "concurrencyBurstFactor".
Definition ENV_PART : string := "env".
Definition ORG_PART : string := "org".
Definition PROJECT_PART : string := "proj".
Definition QUEUE_PART : string := "queue".
Definition CONCURRENCY_KEY_PART : string := "ck".
Definition MESSAGE_PART : string := "message".
Definition DEAD_LETTER_QUEUE_PART : string := "deadLetter".
Definition MASTER_QUEUE_PART : string := "masterQueue".
Definition WORKER_QUEUE_PART : string := "workerQueue".
Definition CK_INDEX_PART : string := "ckIndex".

(** ** Sections of a key *)

Definition envKeySection (envId : string) : string := ENV_PART +:+ ":" +:+ envId.
Definition projKeySection (projId : string) : string := PROJECT_PART +:+ ":" +:+ projId.
Definition orgKeySection (orgId : string) : string := "{" +:+ ORG_PART +:+ ":" +:+ orgId +:+ "}".
Definition queueSection (queue : string) : string := QUEUE_PART +:+ ":" +:+ queue.
Definition concurrencyKeySection (concurrencyKey : string) : string :=
  CONCURRENCY_KEY_PART +:+ ":" +:+ concurrencyKey.

(** ** Shards, master queues, worker queues *)

Definition legacyMasterQueueKey (masterQueueName : string) : string := masterQueueName.

Definition masterQueueKeyForShard (shard : Z) : string :=
  join ":" [MASTER_QUEUE_PART; "shard"; pretty shard].

Definition masterQueueShardForEnvironment (sha256 : string → list Z) (envId : string)
    (shardCount : Z) : Z :=
  jumpHash sha256 envId shardCount.

Definition masterQueueKeyForEnvironment (sha256 : string → list Z) (envId : string)
    (shardCount : Z) : string :=
  masterQueueKeyForShard (masterQueueShardForEnvironment sha256 envId shardCount).

Definition workerQueueKey (workerQueue : string) : string :=
  join ":" [WORKER_QUEUE_PART; workerQueue].

Definition ttlQueueKeyForShard (shard : Z) : string := join ":" ["ttl"; "shard"; pretty shard].

Definition markedForAckKey : string := "markedForAck".

Definition currentConcurrencySetKeyScanPattern : string :=
  "*:" +:+ ENV_PART +:+ ":*:queue:*:" +:+ CURRENT_CONCURRENCY_PART.

(** ** Queue keys *)

Definition queueKey_ids (orgId projId envId queue : string) (concurrencyKey : option string) : string :=
  join ":"
    ([orgKeySection orgId; projKeySection projId; envKeySection envId; queueSection queue] ++
     match concurrencyKey with
     | Some ck => if truthy ck then [concurrencyKeySection ck] else []
     | None => []
     end).

Definition queueKey (env : env_obj) (queue : string) (concurrencyKey : option string) : string :=
  join ":"
    ([orgKeySection (env_organization_id env); projKeySection (env_project_id env);
      envKeySection (env_id env); queueSection queue] ++
     match concurrencyKey with
     | Some ck => if truthy ck then [concurrencyKeySection ck] else []
     | None => []
     end).

Definition envQueueKey (env : env_obj) : string :=
  join ":" [orgKeySection (env_organization_id env); envKeySection (env_id env)].

Definition queueConcurrencyLimitKey (env : env_obj) (queue : string) : string :=
  join ":" [queueKey env queue None; CONCURRENCY_LIMIT_PART].

Definition queueCurrentDequeuedKey (env : env_obj) (queue : string)
    (concurrencyKey : option string) : string :=
  join ":" [queueKey env queue concurrencyKey; CURRENT_DEQUEUED_PART].

Definition queueCurrentConcurrencyKey (env : env_obj) (queue : string)
    (concurrencyKey : option string) : string :=
  join ":" [queueKey env queue concurrencyKey; CURRENT_CONCURRENCY_PART].

(** ** Environment keys *)

Definition envConcurrencyLimitKey (e : env_ref) : string :=
  match e with
  | ByEnv e =>
      join ":" [orgKeySection (env_organization_id e); projKeySection (env_project_id e);
                envKeySection (env_id e); CONCURRENCY_LIMIT_PART]
  | ByDescriptor d =>
      join ":" [orgKeySection (d_orgId d); projKeySection (d_projectId d);
                envKeySection (d_envId d); CONCURRENCY_LIMIT_PART]
  end.

Definition envConcurrencyLimitBurstFactorKey (e : env_ref) : string :=
  match e with
  | ByEnv e =>
      join ":" [orgKeySection (env_organization_id e); projKeySection (env_project_id e);
                envKeySection (env_id e); CONCURRENCY_LIMIT_BURST_FACTOR_PART]
  | ByDescriptor d =>
      join ":" [orgKeySection (d_orgId d); projKeySection (d_projectId d);
                envKeySection (d_envId d); CONCURRENCY_LIMIT_BURST_FACTOR_PART]
  end.

Definition envCurrentConcurrencyKey (e : env_ref) : string :=
  match e with
  | ByEnv e =>
      join ":" [orgKeySection (env_organization_id e); projKeySection (env_project_id e);
                envKeySection (env_id e); CURRENT_CONCURRENCY_PART]
  | ByDescriptor d =>
      join ":" [orgKeySection (d_orgId d); projKeySection (d_projectId d);
                envKeySection (d_envId d); CURRENT_CONCURRENCY_PART]
  end.

Definition envCurrentDequeuedKey (e : env_ref) : string :=
  match e with
  | ByEnv e =>
      join ":" [orgKeySection (env_organization_id e); projKeySection (env_project_id e);
                envKeySection (env_id e); CURRENT_DEQUEUED_PART]
  | ByDescriptor d =>
      join ":" [orgKeySection (d_orgId d); projKeySection (d_projectId d);
                envKeySection (d_envId d); CURRENT_DEQUEUED_PART]
  end.

Definition deadLetterQueueKey (e : env_ref) : string :=
  match e with
  | ByEnv e =>
      join ":" [orgKeySection (env_organization_id e); projKeySection (env_project_id e);
                envKeySection (env_id e); DEAD_LETTER_QUEUE_PART]
  | ByDescriptor d =>
      join ":" [orgKeySection (d_orgId d); projKeySection (d_projectId d);
                envKeySection (d_envId d); DEAD_LETTER_QUEUE_PART]
  end.

Definition messageKey (orgId messageId : string) : string :=
  join ":" (filter (λ p, truthy p) [orgKeySection orgId; MESSAGE_PART +:+ ":" +:+ messageId]).

(** ** Keys derived from a queue key *)

(** [queue.split(":")] and its parts; an absent part is only ever interpolated
    into a text, where JavaScript prints "undefined". *)
Definition part (parts : list string) (i : nat) : string := default "undefined" (parts !! i).

Definition descriptorFromQueue (queue : string) : option QueueDescriptor :=
  let parts := split_char ":" queue in
  p1 ← parts !! 1;
  Some {| qd_orgId := replace_first "}" "" (replace_first "{" "" p1);
          qd_projectId := part parts 3;
          qd_envId := part parts 5;
          qd_queue := part parts 7;
          qd_concurrencyKey := parts !! 9 |}.

Definition env_of_descriptor (d : QueueDescriptor) : env_ref :=
  ByDescriptor {| d_orgId := qd_orgId d; d_projectId := qd_projectId d; d_envId := qd_envId d |}.

Definition orgIdFromQueue (queue : string) : option string := qd_orgId <$> descriptorFromQueue queue.
Definition envIdFromQueue (queue : string) : option string := qd_envId <$> descriptorFromQueue queue.
Definition projectIdFromQueue (queue : string) : option string :=
  qd_projectId <$> descriptorFromQueue queue.

Definition envQueueKeyFromQueue (queue : string) : option string :=
  d ← descriptorFromQueue queue;
  Some (join ":" [orgKeySection (qd_orgId d); envKeySection (qd_envId d)]).

(** [queue.replace(/:ck:.+$/, by)]. *)
Definition replace_ck (by_ queue : string) : string :=
  match cut_where dot_plus_end ":ck:" queue with
  | Some (a, _) => a +:+ by_
  | None => queue
  end.

Definition queueConcurrencyLimitKeyFromQueue (queue : string) : string :=
  replace_ck "" queue +:+ ":" +:+ CONCURRENCY_LIMIT_PART.

Definition queueCurrentConcurrencyKeyFromQueue (queue : string) : string :=
  queue +:+ ":" +:+ CURRENT_CONCURRENCY_PART.

Definition queueCurrentDequeuedKeyFromQueue (queue : string) : string :=
  queue +:+ ":" +:+ CURRENT_DEQUEUED_PART.

Definition envConcurrencyLimitKeyFromQueue (queue : string) : option string :=
  d ← descriptorFromQueue queue; Some (envConcurrencyLimitKey (env_of_descriptor d)).

Definition envConcurrencyLimitBurstFactorKeyFromQueue (queue : string) : option string :=
  d ← descriptorFromQueue queue; Some (envConcurrencyLimitBurstFactorKey (env_of_descriptor d)).

Definition envCurrentConcurrencyKeyFromQueue (queue : string) : option string :=
  d ← descriptorFromQueue queue; Some (envCurrentConcurrencyKey (env_of_descriptor d)).

Definition envCurrentDequeuedKeyFromQueue (queue : string) : option string :=
  d ← descriptorFromQueue queue; Some (envCurrentDequeuedKey (env_of_descriptor d)).

Definition deadLetterQueueKeyFromQueue (queue : string) : option string :=
  d ← descriptorFromQueue queue; Some (deadLetterQueueKey (env_of_descriptor d)).

Definition messageKeyPrefixFromQueue (queue : string) : option string :=
  d ← descriptorFromQueue queue; Some (orgKeySection (qd_orgId d) +:+ ":" +:+ MESSAGE_PART +:+ ":").

Definition ckIndexKeyFromQueue (queue : string) : string :=
  replace_ck "" queue +:+ ":" +:+ CK_INDEX_PART.

Definition baseQueueKeyFromQueue (queue : string) : string := replace_ck "" queue.

Definition isCkWildcard (queue : string) : bool := ends_with ":ck:*" queue.

Definition toCkWildcard (queue : string) : string := replace_ck ":ck:*" queue.

(** ** Well-formed identifiers *)

(** No separator: what every id and queue name of the system satisfies. *)
Definition plain (s : string) : Prop := has_char ":" s = false.

Record env_ok (env : env_obj) : Prop := EnvOk {
  ok_org : plain (env_organization_id env);
  ok_org_l : has_char "{" (env_organization_id env) = false;
  ok_org_r : has_char "}" (env_organization_id env) = false;
  ok_proj : plain (env_project_id env);
  ok_env : plain (env_id env);
}.

(** Ids that are not the literal "ck" marker. *)
Record no_ck (env : env_obj) (queue : string) : Prop := NoCk {
  nc_proj : env_project_id env ≠ "ck";
  nc_env : env_id env ≠ "ck";
  nc_queue : queue ≠ "ck";
}.

#[export] Hint Unfold plain : platos.

(** ** Normal forms *)

Lemma queueKey_ids_env env q ck :
  queueKey env q ck = queueKey_ids (env_organization_id env) (env_project_id env) (env_id env) q ck.
Proof. done. Qed.

Definition base_parts (env : env_obj) (q : string) : list string :=
  ["{org"; env_organization_id env +:+ "}"; "proj"; env_project_id env; "env"; env_id env;
   "queue"; q].

Ltac unfold_keys :=
  unfold queueKey, envQueueKey, orgKeySection, projKeySection, envKeySection, queueSection,
    concurrencyKeySection, ORG_PART, PROJECT_PART, ENV_PART, QUEUE_PART, CONCURRENCY_KEY_PART;
  cbn [join app]; text_norm.

Lemma split_queueKey env q :
  env_ok env → plain q → split_char ":" (queueKey env q None) = base_parts env q.
Proof. intros [] Hq. unfold_keys. by split_norm. Qed.

Lemma queueKey_Some env q c :
  truthy c = true → queueKey env q (Some c) = queueKey env q None +:+ ":ck:" +:+ c.
Proof. intros Hc. unfold queueKey at 1. rewrite Hc. unfold_keys. done. Qed.

Lemma split_queueKey_ck env q c :
  env_ok env → plain q → truthy c = true →
  split_char ":" (queueKey env q (Some c)) = base_parts env q ++ "ck" :: split_char ":" c.
Proof.
  intros [] Hq Hc. rewrite queueKey_Some by done. unfold_keys. by split_norm.
Qed.

(** The parts a descriptor reads are the same with and without concurrency key. *)
Lemma split_queueKey_gen env q ck :
  env_ok env → plain q →
  ∃ rest, split_char ":" (queueKey env q ck) = base_parts env q ++ rest.
Proof.
  intros He Hq. destruct ck as [c|]; [destruct (truthy c) eqn:Hc|].
  - eexists. by apply split_queueKey_ck.
  - exists []. rewrite app_nil_r. unfold queueKey. rewrite Hc. by apply split_queueKey.
  - exists []. rewrite app_nil_r. by apply split_queueKey.
Qed.

Lemma strip_braces (o : string) :
  has_char "{" o = false → has_char "}" o = false →
  replace_first "}" "" (replace_first "{" "" (o +:+ "}")) = o.
Proof.
  intros Hl Hr. unfold replace_first, cut.
  rewrite cut_where_app by done. simpl. rewrite cut_where_app by done. simpl.
  by rewrite !string_app_nil_r.
Qed.

Lemma descriptor_queueKey env q ck :
  env_ok env → plain q →
  ∃ c, descriptorFromQueue (queueKey env q ck) =
       Some (MkQueueDescriptor (env_organization_id env) (env_project_id env) (env_id env) q c).
Proof.
  intros He Hq. destruct (split_queueKey_gen env q ck He Hq) as [rest E].
  unfold descriptorFromQueue. rewrite E. cbn. rewrite strip_braces by apply He. by eexists.
Qed.

Lemma queueKey_parts env q : queueKey env q None = join ":" (base_parts env q).
Proof. unfold base_parts. unfold_keys. done. Qed.

Lemma brace_ne_ck (o : string) : has_char "}" o = false → "ck" ≠ o +:+ "}".
Proof.
  intros _ H. apply (has_char_ne "}" (o +:+ "}") "ck"); [|done..].
  rewrite has_char_app. by rewrite orb_true_r.
Qed.

Lemma base_parts_ok env q :
  env_ok env → plain q → no_ck env q →
  Forall (λ p, has_char ":" p = false ∧ "ck" ≠ p) (tail (base_parts env q)).
Proof.
  intros [] Hq []. unfold base_parts. simpl.
  repeat (constructor; [split; [done|congruence]|]).
  constructor; [split|repeat (constructor; [split; by auto|]); constructor].
  - rewrite has_char_app. by rewrite ok_org0.
  - by apply brace_ne_ck.
Qed.

Lemma replace_ck_some env q c by_ :
  env_ok env → plain q → no_ck env q → dot_plus_end c = true →
  replace_ck by_ (queueKey env q (Some c)) = queueKey env q None +:+ by_.
Proof.
  intros He Hq Hn Hc. assert (truthy c = true) as Ht.
  { unfold dot_plus_end in Hc. by destruct (truthy c). }
  unfold replace_ck. rewrite queueKey_Some, queueKey_parts by done.
  pose proof (base_parts_ok env q He Hq Hn) as Hall. unfold base_parts in *.
  change (":ck:" +:+ c) with (String ":" ("ck" +:+ String ":" c)).
  change ":ck:" with (String ":" ("ck" +:+ String ":" "")).
  change ":" with (String ":" ""). by rewrite cut_word_join.
Qed.

Lemma replace_ck_none env q by_ :
  env_ok env → plain q → no_ck env q → replace_ck by_ (queueKey env q None) = queueKey env q None.
Proof.
  intros He Hq Hn. unfold replace_ck. rewrite queueKey_parts.
  pose proof (base_parts_ok env q He Hq Hn) as Hall. unfold base_parts in *.
  change ":ck:" with (String ":" ("ck" +:+ String ":" "")).
  change ":" with (String ":" ""). by rewrite cut_word_join_absent.
Qed.

Lemma wildcard_key env q : queueKey env q None +:+ ":ck:*" = queueKey env q (Some "*").
Proof. by rewrite queueKey_Some. Qed.

Lemma toCkWildcard_key env q c :
  env_ok env → plain q → no_ck env q → dot_plus_end c = true →
  toCkWildcard (queueKey env q (Some c)) = queueKey env q (Some "*").
Proof. intros. unfold toCkWildcard. by rewrite replace_ck_some, wildcard_key. Qed.

(** Where each Redis key lives: the data type its name stands for. *)
Inductive rkind := KString | KSet | KZset | KList.

#[export] Instance rkind_eq_dec : EqDecision rkind.
Proof. solve_decision. Defined.

Definition suffix_kind (p : string) : option rkind :=
  if decide (p = CONCURRENCY_LIMIT_PART) then Some KString
  else if decide (p = CONCURRENCY_LIMIT_BURST_FACTOR_PART) then Some KString
  else if decide (p = CURRENT_CONCURRENCY_PART) then Some KSet
  else if decide (p = CURRENT_DEQUEUED_PART) then Some KSet
  else if decide (p = DEAD_LETTER_QUEUE_PART) then Some KZset
  else if decide (p = CK_INDEX_PART) then Some KZset
  else None.

(** The type of a key read off its parts. *)
Definition kind_parts (ps : list string) : option rkind :=
  if decide (ps !! 0 = Some WORKER_QUEUE_PART) then Some KList
  else if decide (ps !! 0 = Some MASTER_QUEUE_PART) then Some KZset
  else if decide (ps !! 0 = Some "ttl") then Some KZset
  else match length ps with
       | 1 => Some KZset
       | 4 => if decide (ps !! 2 = Some MESSAGE_PART) then Some KString else Some KZset
       | 7 | 9 | 11 => last ps ≫= suffix_kind
       | 8 | 10 => Some KZset
       | _ => None
       end.

Definition kind_of (key : string) : option rkind := kind_parts (split_char ":" key).

(** The keys of the run queue with the type the scripts use them at. *)
Inductive run_queue_key : rkind → string → Prop :=
| rk_message o m : plain o → plain m → run_queue_key KString (messageKey o m)
| rk_queue_limit env q : env_ok env → plain q →
    run_queue_key KString (queueConcurrencyLimitKey env q)
| rk_env_limit env : env_ok env → run_queue_key KString (envConcurrencyLimitKey (ByEnv env))
| rk_env_burst env : env_ok env →
    run_queue_key KString (envConcurrencyLimitBurstFactorKey (ByEnv env))
| rk_queue_cc env q ck : env_ok env → plain q → (∀ c, ck = Some c → plain c) →
    run_queue_key KSet (queueCurrentConcurrencyKey env q ck)
| rk_queue_cd env q ck : env_ok env → plain q → (∀ c, ck = Some c → plain c) →
    run_queue_key KSet (queueCurrentDequeuedKey env q ck)
| rk_env_cc env : env_ok env → run_queue_key KSet (envCurrentConcurrencyKey (ByEnv env))
| rk_env_cd env : env_ok env → run_queue_key KSet (envCurrentDequeuedKey (ByEnv env))
| rk_queue env q ck : env_ok env → plain q → (∀ c, ck = Some c → plain c) →
    run_queue_key KZset (queueKey env q ck)
| rk_env_queue env : env_ok env → run_queue_key KZset (envQueueKey env)
| rk_dead env : env_ok env → run_queue_key KZset (deadLetterQueueKey (ByEnv env))
| rk_master n : run_queue_key KZset (masterQueueKeyForShard n)
| rk_ttl n : run_queue_key KZset (ttlQueueKeyForShard n)
| rk_ck_index env q : env_ok env → plain q →
    run_queue_key KZset (queueKey env q None +:+ ":" +:+ CK_INDEX_PART)
| rk_marked : run_queue_key KZset markedForAckKey
| rk_worker w : run_queue_key KList (workerQueueKey w).

Lemma split_suffix c (s t : string) (ps : list string) p :
  split_char c s = ps ++ [p] → has_char c t = false →
  split_char c (s +:+ String c t) = ps ++ [p; t].
Proof.
  revert ps p. induction s as [|d s IH]; intros ps p.
  - intros Hs Ht. rewrite string_app_nil_l, split_char_sep, split_char_no_sep by done.
    destruct ps as [|? []]; by simplify_eq/=.
  - rewrite string_app_cons. cbn [split_char]. case_bool_decide; intros Hs Ht.
    + destruct ps as [|x ps]; simplify_eq/=.
      * by edestruct split_char_ne.
      * f_equal. by apply IH.
    + destruct (split_char c s) as [|h l] eqn:E; [by destruct (split_char_ne c s)|].
      destruct ps as [|x ps]; simplify_eq/=.
      * by rewrite (IH [] h eq_refl Ht).
      * by rewrite (IH (h :: ps) p eq_refl Ht).
Qed.

Lemma split_queueKey_suffix env q t :
  env_ok env → plain q → plain t →
  split_char ":" (queueKey env q None +:+ String ":" t) = base_parts env q ++ [t].
Proof.
  intros He Hq Ht. rewrite (split_suffix _ _ _ ["{org"; env_organization_id env +:+ "}"; "proj";
    env_project_id env; "env"; env_id env; "queue"] q); [done| |done].
  by apply split_queueKey.
Qed.

Lemma split_queueKey_ck_plain env q c :
  env_ok env → plain q → plain c → truthy c = true →
  split_char ":" (queueKey env q (Some c)) = base_parts env q ++ ["ck"; c].
Proof. intros ?? Hc Ht. rewrite split_queueKey_ck by done. by rewrite split_char_no_sep. Qed.

Lemma split_queueKey_ck_suffix env q c t :
  env_ok env → plain q → plain c → truthy c = true → plain t →
  split_char ":" (queueKey env q (Some c) +:+ String ":" t) = base_parts env q ++ ["ck"; c; t].
Proof.
  intros. rewrite (split_suffix _ _ _ (base_parts env q ++ ["ck"]) c); [|by rewrite split_queueKey_ck_plain|done].
  by rewrite <- app_assoc.
Qed.

Lemma queueKey_falsy env q ck : truthy_opt ck = false → queueKey env q ck = queueKey env q None.
Proof. destruct ck as [c|]; [|done]. simpl. intros H. unfold queueKey. by rewrite H. Qed.

Ltac kind_by E := unfold kind_of; rewrite E; done.

Lemma kind_of_suffix env q ck t k :
  env_ok env → plain q → (∀ c, ck = Some c → plain c) → plain t → suffix_kind t = Some k →
  kind_of (queueKey env q ck +:+ String ":" t) = Some k.
Proof.
  intros He Hq Hc Ht Hk. unfold kind_of. destruct (truthy_opt ck) eqn:E.
  - destruct ck as [c|]; [|done]. rewrite split_queueKey_ck_suffix by auto. done.
  - rewrite queueKey_falsy, split_queueKey_suffix by done. done.
Qed.

Lemma kind_of_sound k key : run_queue_key k key → kind_of key = Some k.
Proof.
  destruct 1 as [o m ??|env q He Hq|env []|env []|env q ck He Hq Hc|env q ck He Hq Hc|env []|env []
    |env q ck He Hq Hc|env []|env []|n|n|env q He Hq| |w].
  - unfold kind_of, messageKey. simpl. unfold orgKeySection, ORG_PART, MESSAGE_PART. text_norm. by split_norm.
  - apply (kind_of_suffix env q None); try done.
  - unfold kind_of, envConcurrencyLimitKey, CONCURRENCY_LIMIT_PART. unfold_keys. by split_norm.
  - unfold kind_of, envConcurrencyLimitBurstFactorKey, CONCURRENCY_LIMIT_BURST_FACTOR_PART.
    unfold_keys. by split_norm.
  - apply (kind_of_suffix env q ck); try done.
  - apply (kind_of_suffix env q ck); try done.
  - unfold kind_of, envCurrentConcurrencyKey, CURRENT_CONCURRENCY_PART. unfold_keys. by split_norm.
  - unfold kind_of, envCurrentDequeuedKey, CURRENT_DEQUEUED_PART. unfold_keys. by split_norm.
  - unfold kind_of. destruct (truthy_opt ck) eqn:E.
    + destruct ck as [c|]; [|done]. rewrite split_queueKey_ck_plain by auto. done.
    + rewrite queueKey_falsy, split_queueKey by done. done.
  - unfold kind_of. unfold_keys. by split_norm.
  - unfold kind_of, deadLetterQueueKey, DEAD_LETTER_QUEUE_PART. unfold_keys. by split_norm.
  - unfold kind_of, masterQueueKeyForShard, MASTER_QUEUE_PART. cbn [join]. text_norm. by split_norm.
  - unfold kind_of, ttlQueueKeyForShard. cbn [join]. text_norm. by split_norm.
  - apply (kind_of_suffix env q None); try done.
  - done.
  - unfold kind_of, workerQueueKey, WORKER_QUEUE_PART. cbn [join]. text_norm. by split_norm.
Qed.

(** ** Properties *)

(** The descriptor parsed out of a queue key is the one the key was built
    from: organization, project, environment and queue name come back exactly, for
    any concurrency key, and the concurrency key comes back up to its first ":"
    (so exactly when it has none). *)
Theorem descriptor_roundtrip env q ck :
  env_ok env → plain q →
  descriptorFromQueue (queueKey env q ck) =
  Some {| qd_orgId := env_organization_id env; qd_projectId := env_project_id env;
          qd_envId := env_id env; qd_queue := q;
          qd_concurrencyKey :=
            match ck with
            | Some c => if truthy c then split_char ":" c !! 0 else None
            | None => None
            end |}.
Proof.
  intros He Hq. unfold descriptorFromQueue. destruct (truthy_opt ck) eqn:E.
  - destruct ck as [c|]; [|done]. simpl in E. rewrite split_queueKey_ck, E by done.
    cbn. by rewrite strip_braces by apply He.
  - rewrite queueKey_falsy, split_queueKey by done. cbn. rewrite strip_braces by apply He.
    destruct ck as [c|]; [|done]. simpl in E. by rewrite E.
Qed.

Definition demo_env : env_obj := EnvObj "env1" "proj1" "org1".

Lemma demo_env_ok : env_ok demo_env.
Proof. by split. Qed.

Lemma descriptor_roundtrip_witness :
  descriptorFromQueue (queueKey demo_env "task/t" (Some "user-1")) =
  Some (MkQueueDescriptor "org1" "proj1" "env1" "task/t" (Some "user-1")).
Proof. rewrite (descriptor_roundtrip demo_env "task/t" (Some "user-1")); [reflexivity|apply demo_env_ok|reflexivity]. Defined.

(** Every key derived from a queue key is the key of that queue's own
    environment (or organization), whatever the queue name and concurrency key. *)
Theorem env_keys_from_queue env q ck :
  env_ok env → plain q →
  let key := queueKey env q ck in
  envQueueKeyFromQueue key = Some (envQueueKey env) ∧
  envConcurrencyLimitKeyFromQueue key = Some (envConcurrencyLimitKey (ByEnv env)) ∧
  envConcurrencyLimitBurstFactorKeyFromQueue key =
    Some (envConcurrencyLimitBurstFactorKey (ByEnv env)) ∧
  envCurrentConcurrencyKeyFromQueue key = Some (envCurrentConcurrencyKey (ByEnv env)) ∧
  envCurrentDequeuedKeyFromQueue key = Some (envCurrentDequeuedKey (ByEnv env)) ∧
  deadLetterQueueKeyFromQueue key = Some (deadLetterQueueKey (ByEnv env)) ∧
  (∀ m, (λ p, p +:+ m) <$> messageKeyPrefixFromQueue key =
        Some (messageKey (env_organization_id env) m)).
Proof.
  intros He Hq key. destruct (descriptor_queueKey env q ck He Hq) as [c Hd].
  unfold key, envQueueKeyFromQueue, envConcurrencyLimitKeyFromQueue,
    envConcurrencyLimitBurstFactorKeyFromQueue, envCurrentConcurrencyKeyFromQueue,
    envCurrentDequeuedKeyFromQueue, deadLetterQueueKeyFromQueue, messageKeyPrefixFromQueue.
  rewrite Hd. simpl. repeat split; try done.
  intros m. unfold messageKey. simpl. by rewrite !string_app_assoc.
Qed.

Lemma env_keys_from_queue_witness :
  envQueueKeyFromQueue (queueKey demo_env "q" (Some "a:b")) = Some (envQueueKey demo_env).
Proof. exact (proj1 (env_keys_from_queue demo_env "q" (Some "a:b") demo_env_ok eq_refl)). Defined.

(** The consumer of a concurrency-keyed queue works from the wildcard name
    [...:ck:*]; every key it derives from that name is the key the producer derived
    from the concrete queue, and the wildcard is recognised as such. *)
Theorem wildcard_keys_agree env q c :
  env_ok env → plain q → no_ck env q → dot_plus_end c = true →
  let key := queueKey env q (Some c) in
  let wild := toCkWildcard key in
  isCkWildcard wild = true ∧ toCkWildcard wild = wild ∧
  baseQueueKeyFromQueue key = queueKey env q None ∧
  baseQueueKeyFromQueue wild = queueKey env q None ∧
  ckIndexKeyFromQueue wild = ckIndexKeyFromQueue key ∧
  queueConcurrencyLimitKeyFromQueue wild = queueConcurrencyLimitKeyFromQueue key ∧
  queueConcurrencyLimitKeyFromQueue key = queueConcurrencyLimitKey env q.
Proof.
  intros He Hq Hn Hc key wild. unfold wild, key.
  rewrite toCkWildcard_key by done.
  unfold baseQueueKeyFromQueue, ckIndexKeyFromQueue, queueConcurrencyLimitKeyFromQueue.
  rewrite !replace_ck_some by done. rewrite toCkWildcard_key by done.
  text_norm. repeat split; try done.
  unfold isCkWildcard. rewrite <- wildcard_key. apply ends_with_app.
Qed.

Lemma demo_no_ck q : q ≠ "ck" → no_ck demo_env q.
Proof. by split. Qed.

Lemma wildcard_keys_agree_witness :
  baseQueueKeyFromQueue (queueKey demo_env "q" (Some "org:7")) = queueKey demo_env "q" None.
Proof.
  destruct (wildcard_keys_agree demo_env "q" "org:7" demo_env_ok eq_refl
    (demo_no_ck "q" ltac:(done)) eq_refl) as (_ & _ & H & _). exact H.
Defined.

(** Queue keys are injective: two queues share a key only if they are the
    same queue of the same environment, project and organization, with the same
    concurrency key. *)
Theorem queueKey_injective env env' q q' ck ck' :
  env_ok env → env_ok env' → plain q → plain q' →
  (∀ c, ck = Some c → truthy c = true) → (∀ c, ck' = Some c → truthy c = true) →
  queueKey env q ck = queueKey env' q' ck' → env = env' ∧ q = q' ∧ ck = ck'.
Proof.
  intros He He' Hq Hq' Ht Ht' Heq.
  destruct (descriptor_queueKey env q ck He Hq) as [c Hd].
  destruct (descriptor_queueKey env' q' ck' He' Hq') as [c' Hd'].
  rewrite Heq, Hd' in Hd. injection Hd as Ho Hp Hi Hqq _.
  destruct env, env'; simpl in *; subst. repeat split.
  destruct ck as [x|], ck' as [y|]; [|exfalso..|done].
  - rewrite !queueKey_Some in Heq by auto. apply string_app_inj, string_app_inj in Heq. by subst.
  - rewrite queueKey_Some in Heq by auto. symmetry in Heq. by apply string_app_self in Heq.
  - rewrite queueKey_Some in Heq by auto. by apply string_app_self in Heq.
Qed.

Lemma queueKey_injective_witness :
  demo_env = demo_env ∧ "q" = "q" ∧ Some "a:b" = Some "a:b".
Proof.
  apply (queueKey_injective demo_env demo_env "q" "q" (Some "a:b") (Some "a:b"));
    first [apply demo_env_ok | reflexivity | by intros ? [= <-]].
Defined.



(** Without that restriction the data types do collide: the queue of the
    concurrency key [c:currentConcurrency] (a sorted set) has the same Redis key as
    the current-concurrency set of the concurrency key [c]. *)
Theorem concurrency_key_collision env q c :
  truthy c = true →
  queueKey env q (Some (c +:+ ":" +:+ CURRENT_CONCURRENCY_PART)) =
  queueCurrentConcurrencyKey env q (Some c).
Proof.
  intros Hc. unfold queueCurrentConcurrencyKey. cbn [join].
  rewrite !queueKey_Some; [by text_norm|done|by destruct c].
Qed.

Lemma concurrency_key_collision_witness :
  queueKey demo_env "q" (Some "u:currentConcurrency") =
  queueCurrentConcurrencyKey demo_env "q" (Some "u").
Proof. apply (concurrency_key_collision demo_env "q" "u"). reflexivity. Defined.
