(* ===== verification/SimpleQueue.v ===== *)
(** * SimpleQueue: the delayed job queue of the background workers
    (packages/redis-worker/src/queue.ts)

    A sorted set [queue] holds the ids with the time they become visible, a hash
    [items] their serialised items; [dlq] and [dlq:items] the dead letters.  The
    payload type, its JSON schema and what a passage through Lua's [cjson] does to
    a payload are parameters. *)

From S2P Require Import Prelude Text Redis.
Local Open Scope Z_scope.

(** ** Commands with options *)

Section Options.
Context {V db : Type} {R : Redis V db}.

(** [HSETNX key field value] with its reply. *)
Definition HSETNX (k f : string) (v : V) (s : db) : Z * db :=
  match HGET k f s with Some _ => (0, s) | None => (1, HSET k f v s) end.

(** [ZADD key NX score member]: only adds. *)
Definition ZADD_NX (k : string) (x : Z) (m : string) (s : db) : db :=
  match ZSCORE k m s with Some _ => s | None => ZADD k x m s end.

(** [ZADD key XX score member]: only updates. *)
Definition ZADD_XX (k : string) (x : Z) (m : string) (s : db) : db :=
  match ZSCORE k m s with Some _ => ZADD k x m s | None => s end.

End Options.

(** ** Data *)

(** The object [JSON.stringify] writes into [items]. *)
Record sq_item (P : Type) : Type := SqItem {
  it_job : string;
  it_item : P;
  it_visibilityTimeoutMs : Z;
  it_attempt : option Z;
  it_deduplicationKey : option string;
  it_errorMessage : option string;
}.
Arguments SqItem {P}.
Arguments it_job {P}.
Arguments it_item {P}.
Arguments it_visibilityTimeoutMs {P}.
Arguments it_attempt {P}.
Arguments it_deduplicationKey {P}.
Arguments it_errorMessage {P}.

(** What is stored: an item, the flag of a cancellation key, or a text that does
    not parse. *)
Inductive sq_value (P : Type) : Type :=
| SItem (i : sq_item P)
| SFlag
| SCorrupt (t : string).
Arguments SItem {P}.
Arguments SFlag {P}.
Arguments SCorrupt {P}.

(** [QueueItem]: what [dequeue] and [getJob] return. *)
Record QueueItem (P : Type) : Type := MkQueueItem {
  qi_id : string;
  qi_job : string;
  qi_item : P;
  qi_visibilityTimeoutMs : Z;
  qi_attempt : Z;
  qi_timestamp : Z;
  qi_deduplicationKey : option string;
}.
Arguments MkQueueItem {P}.
Arguments qi_id {P}.
Arguments qi_job {P}.
Arguments qi_item {P}.
Arguments qi_visibilityTimeoutMs {P}.
Arguments qi_attempt {P}.
Arguments qi_timestamp {P}.
Arguments qi_deduplicationKey {P}.

(** Errors thrown by the methods. *)
Inductive sq_error : Type :=
| DecodeError          (* cjson.decode or JSON.parse of a corrupt item *)
| OperationFailed      (* a script did not return 1 *)
| MissingId.           (* enqueueOnce requires an id *)

(** The item part of a stored value. *)
Definition sq_decode {P} (v : sq_value P) : option (sq_item P) :=
  match v with SItem i => Some i | _ => None end.

Definition set_error {P} (f : P → P) (e : option string) (i : sq_item P) : sq_item P :=
  SqItem (it_job i) (f (it_item i)) (it_visibilityTimeoutMs i) (it_attempt i)
    (it_deduplicationKey i) e.

Section SimpleQueue.
Context {P db : Type} {R : Redis (sq_value P) db}.
(** [this.schema[job]] with [safeParse]. *)
Context (schema : string → option (P → option P)).
(** [cjson.encode(cjson.decode(x))] on a payload. *)
Context (cjson : P → P).
(** The key prefix of the client. *)
Context (prefix : string).
Implicit Types (s : db) (id : string).

Definition queueKey : string := prefix +:+ "queue".
Definition itemsKey : string := prefix +:+ "items".
Definition dlqKey : string := prefix +:+ "dlq".
Definition dlqItemsKey : string := prefix +:+ "dlq:items".
Definition cancelKey (cancellationKey : string) : string :=
  prefix +:+ "cancellationKey:" +:+ cancellationKey.

(** ** Scripts *)

Definition enqueueItem (id : string) (score : Z) (serializedItem : sq_value P) (s : db) : Z * db :=
  let s := ZADD queueKey score id s in
  (1, HSET itemsKey id serializedItem s).

Definition enqueueItemWithCancellationKey (cancellationKey id : string) (score : Z)
    (serializedItem : sq_value P) (s : db) : Z * db :=
  if EXISTS cancellationKey s then (1, s)
  else
    let s := ZADD queueKey score id s in
    (1, HSET itemsKey id serializedItem s).

Fixpoint dequeue_items_loop (now : Z) (result : list (string * Z))
    (dequeued : list (string * sq_value P * Z)) (s : db)
    : outcome sq_error (list (string * sq_value P * Z)) * db :=
  match result with
  | [] => (Ok dequeued, s)
  | (id, score) :: result =>
      if now <? score then (Ok dequeued, s)
      else
        match HGET itemsKey id s with
        | Some serializedItem =>
            match sq_decode serializedItem with
            | None => (Err DecodeError, s)
            | Some item =>
                let invisibleUntil := now + it_visibilityTimeoutMs item in
                let s := ZADD queueKey invisibleUntil id s in
                dequeue_items_loop now result (dequeued ++ [(id, serializedItem, score)]) s
            end
        | None => dequeue_items_loop now result dequeued (ZREM queueKey id s)
        end
  end.

Definition dequeueItems (now count : Z) (s : db)
    : outcome sq_error (list (string * sq_value P * Z)) * db :=
  dequeue_items_loop now (ZRANGEBYSCORE queueKey now count s) [] s.

Definition getJob_script (jobId : string) (s : db) : option (option Z * sq_value P) :=
  match HGET itemsKey jobId s with
  | None => None
  | Some serializedItem => Some (ZSCORE queueKey jobId s, serializedItem)
  end.

(** Does the deduplication key passed to [ackItem] reject the stored item? *)
Definition dedup_rejects (item : sq_value P) (deduplicationKey : string) : bool :=
  truthy deduplicationKey &&
  match sq_decode item with
  | Some parsed =>
      match it_deduplicationKey parsed with
      | Some k => negb (bool_decide (k = deduplicationKey))
      | None => false
      end
  | None => false
  end.

Definition ackItem (id deduplicationKey : string) (s : db) : Z * db :=
  match HGET itemsKey id s with
  | None => (-1, s)
  | Some item =>
      if dedup_rejects item deduplicationKey then (0, s)
      else
        let s := ZREM queueKey id s in
        (1, HDEL itemsKey id s)
  end.

Definition moveToDeadLetterQueue_script (id errorMessage : string) (s : db)
    : outcome sq_error Z * db :=
  match HGET itemsKey id s with
  | None => (Ok 0, s)
  | Some item =>
      match sq_decode item with
      | None => (Err DecodeError, s)
      | Some parsedItem =>
          let parsedItem := set_error cjson (Some errorMessage) parsedItem in
          let now := (TIME s).1 * 1000 + (TIME s).2 / 1000 in
          let s := ZREM queueKey id s in
          let s := HDEL itemsKey id s in
          let s := ZADD dlqKey now id s in
          (Ok 1, HSET dlqItemsKey id (SItem parsedItem) s)
      end
  end.

Definition redriveFromDeadLetterQueue_script (id : string) (s : db) : outcome sq_error Z * db :=
  match HGET dlqItemsKey id s with
  | None => (Ok 0, s)
  | Some item =>
      match sq_decode item with
      | None => (Err DecodeError, s)
      | Some parsedItem =>
          let parsedItem := set_error cjson None parsedItem in
          let now := (TIME s).1 * 1000 + (TIME s).2 / 1000 in
          let s := ZREM dlqKey id s in
          let s := HDEL dlqItemsKey id s in
          let s := ZADD queueKey now id s in
          (Ok 1, HSET itemsKey id (SItem parsedItem) s)
      end
  end.

Definition enqueueItemOnce (id : string) (score : Z) (serializedItem : sq_value P) (s : db)
    : Z * db :=
  let '(added, s) := HSETNX itemsKey id serializedItem s in
  if added =? 1 then (1, ZADD_NX queueKey score id s) else (0, s).

(** ** Methods *)

Definition cancel (cancellationKey : string) (s : db) : db := SET (cancelKey cancellationKey) SFlag s.

(** The object stringified by [enqueue] and [enqueueOnce]. *)
Definition new_item (job : string) (item : P) (visibilityTimeoutMs : Z) (attempt : option Z)
    (deduplicationKey : string) : sq_value P :=
  SItem (SqItem job item visibilityTimeoutMs attempt (Some deduplicationKey) None).

(** [enqueue]; [now] is [Date.now()], [nanoid1] and [nanoid2] the generated ids. *)
Definition enqueue (now : Z) (nanoid1 nanoid2 : string) (id : option string) (job : string)
    (item : P) (attempt availableAt : option Z) (visibilityTimeoutMs : Z)
    (cancellationKey : option string) (s : db) : outcome sq_error unit * db :=
  let score := default now availableAt in
  let serializedItem := new_item job item visibilityTimeoutMs attempt nanoid1 in
  let id := default nanoid2 id in
  let '(result, s) :=
    match cancellationKey with
    | Some ck =>
        if truthy ck then enqueueItemWithCancellationKey (cancelKey ck) id score serializedItem s
        else enqueueItem id score serializedItem s
    | None => enqueueItem id score serializedItem s
    end in
  if result =? 1 then (Ok tt, s) else (Err OperationFailed, s).

Definition enqueueOnce (now : Z) (nanoid1 : string) (id job : string) (item : P)
    (attempt availableAt : option Z) (visibilityTimeoutMs : Z) (s : db)
    : outcome sq_error bool * db :=
  if truthy id then
    let score := default now availableAt in
    let serializedItem := new_item job item visibilityTimeoutMs attempt nanoid1 in
    let '(result, s) := enqueueItemOnce id score serializedItem s in
    (Ok (result =? 1), s)
  else (Err MissingId, s).

(** One element of the reply, validated; [None] when it is logged and skipped. *)
Definition to_queue_item (r : string * sq_value P * Z) : option (QueueItem P) :=
  let '(id, serializedItem, score) := r in
  parsedItem ← sq_decode serializedItem;
  parse ← schema (it_job parsedItem);
  data ← parse (it_item parsedItem);
  Some (MkQueueItem id (it_job parsedItem) data (it_visibilityTimeoutMs parsedItem)
          (default 0 (it_attempt parsedItem)) score (it_deduplicationKey parsedItem)).

Definition dequeue (now count : Z) (s : db) : outcome sq_error (list (QueueItem P)) * db :=
  match dequeueItems now count s with
  | (Err e, s) => (Err e, s)
  | (Ok results, s) => (Ok (omap to_queue_item results), s)
  end.

(** [ack]; a reply other than 1 is only logged. *)
Definition ack (id : string) (deduplicationKey : option string) (s : db) : db :=
  (ackItem id (default "" deduplicationKey) s).2.

Definition reschedule (id : string) (availableAt : Z) (s : db) : db :=
  ZADD_XX queueKey availableAt id s.

Definition size_ (now : Z) (includeFuture : bool) (s : db) : Z :=
  if includeFuture then ZCARD queueKey s else ZCOUNT queueKey now s.

Definition getJob (id : string) (s : db) : outcome sq_error (option (QueueItem P)) :=
  match getJob_script id s with
  | None => Ok None
  | Some (score, serializedItem) =>
      match sq_decode serializedItem with
      | None => Err DecodeError
      | Some item =>
          Ok (Some (MkQueueItem id (it_job item) (it_item item) (it_visibilityTimeoutMs item)
                      (default 0 (it_attempt item)) (default 0 score) (it_deduplicationKey item)))
      end
  end.

Definition moveToDeadLetterQueue (id errorMessage : string) (s : db) : outcome sq_error unit * db :=
  match moveToDeadLetterQueue_script id errorMessage s with
  | (Err e, s) => (Err e, s)
  | (Ok result, s) => if result =? 1 then (Ok tt, s) else (Err OperationFailed, s)
  end.

Definition sizeOfDeadLetterQueue (s : db) : Z := ZCARD dlqKey s.

Definition redriveFromDeadLetterQueue (id : string) (s : db) : outcome sq_error unit * db :=
  match redriveFromDeadLetterQueue_script id s with
  | (Err e, s) => (Err e, s)
  | (Ok result, s) => if result =? 1 then (Ok tt, s) else (Err OperationFailed, s)
  end.

(** The effect of inspecting one due entry. *)
Definition touch (now : Z) (id : string) (s : db) : db :=
  match HGET itemsKey id s ≫= sq_decode with
  | Some item => ZADD queueKey (now + it_visibilityTimeoutMs item) id s
  | None => ZREM queueKey id s
  end.

(** The items of a list of entries, as the script returns them. *)
Definition due_items (s : db) (l : list (string * Z)) : list (string * sq_value P * Z) :=
  omap (λ p, v ← HGET itemsKey p.1 s; Some (p.1, v, p.2)) l.

(** ** Well-formed states *)

(** The sorted set and the hash list the same ids, for the queue and for the dead
    letters, and every stored item decodes. *)
Record sq_ok (s : db) : Prop := SqOk {
  ok_queue id : is_Some (ZALL queueKey s !! id) ↔ is_Some (HALL itemsKey s !! id);
  ok_dlq id : is_Some (ZALL dlqKey s !! id) ↔ is_Some (HALL dlqItemsKey s !! id);
  ok_items id v : HALL itemsKey s !! id = Some v → ∃ i, v = SItem i;
  ok_dlq_items id v : HALL dlqItemsKey s !! id = Some v → ∃ i, v = SItem i;
}.

(** One call of a public method. *)
Inductive sq_step : db → db → Prop :=
| step_cancel c s : sq_step s (cancel c s)
| step_enqueue now n1 n2 (id : option string) job item att av vt ck s :
    sq_step s (enqueue now n1 n2 id job item att av vt ck s).2
| step_enqueueOnce now n1 id job item att av vt s :
    sq_step s (enqueueOnce now n1 id job item att av vt s).2
| step_dequeue now count s : sq_step s (dequeue now count s).2
| step_ack id k s : sq_step s (ack id k s)
| step_reschedule id av s : sq_step s (reschedule id av s)
| step_dlq id e s : sq_step s (moveToDeadLetterQueue id e s).2
| step_redrive id s : sq_step s (redriveFromDeadLetterQueue id s).2.

(** ** Facts *)

Context {L : RedisLaws R}.

Lemma queue_dlq : queueKey ≠ dlqKey.
Proof. unfold queueKey, dlqKey. by intros H%string_app_inj. Qed.
Lemma items_dlq : itemsKey ≠ dlqItemsKey.
Proof. unfold itemsKey, dlqItemsKey. by intros H%string_app_inj. Qed.
Local Hint Resolve queue_dlq items_dlq not_eq_sym : platos.

Local Ltac sq_keys := pose proof queue_dlq; pose proof items_dlq.
Local Ltac views := sq_keys; redis_simpl.

(** Adding and removing an id on both sides keeps the two sides together. *)
Lemma same_dom_insert {A B} (z : gmap string A) (h : gmap string B) (id j : string) a b :
  (is_Some (z !! j) ↔ is_Some (h !! j)) →
  (is_Some (<[id := a]> z !! j) ↔ is_Some (<[id := b]> h !! j)).
Proof. intros H. destruct (decide (id = j)) as [->|]; simplify_map_eq; [|done]. split; eauto. Qed.

Lemma same_dom_delete {A B} (z : gmap string A) (h : gmap string B) (id j : string) :
  (is_Some (z !! j) ↔ is_Some (h !! j)) →
  (is_Some (delete id z !! j) ↔ is_Some (delete id h !! j)).
Proof.
  intros H. destruct (decide (id = j)) as [->|]; simplify_map_eq; [|done].
  split; by intros [].
Qed.

Lemma enqueueItem_ok id x i s : sq_ok s → sq_ok (enqueueItem id x (SItem i) s).2.
Proof.
  intros [Hq Hd Hi Hdi]. unfold enqueueItem. simpl. sq_keys. split.
  - intros j. redis_simpl. by apply same_dom_insert.
  - intros j. by redis_simpl.
  - intros j v. redis_simpl. intros [[_ <-]|[_ ?]]%lookup_insert_Some; eauto.
  - intros j v. redis_simpl. eauto.
Qed.

Lemma remove_ok id s : sq_ok s → sq_ok (HDEL itemsKey id (ZREM queueKey id s)).
Proof.
  intros [Hq Hd Hi Hdi]. sq_keys. split.
  - intros j. redis_simpl. by apply same_dom_delete.
  - intros j. by redis_simpl.
  - intros j v. redis_simpl. intros [_ ?]%lookup_delete_Some. eauto.
  - intros j v. redis_simpl. eauto.
Qed.

Lemma rescore_ok id x s : is_Some (HALL itemsKey s !! id) → sq_ok s → sq_ok (ZADD queueKey x id s).
Proof.
  intros Hid [Hq Hd Hi Hdi]. sq_keys. split.
  - intros j. redis_simpl. destruct (decide (id = j)) as [->|]; simplify_map_eq; [|done].
    split; eauto.
  - intros j. by redis_simpl.
  - intros j v. redis_simpl. eauto.
  - intros j v. redis_simpl. eauto.
Qed.

Lemma orphan_ok id s : HALL itemsKey s !! id = None → sq_ok s → sq_ok (ZREM queueKey id s).
Proof.
  intros Hid [Hq Hd Hi Hdi]. sq_keys. split.
  - intros j. redis_simpl. destruct (decide (id = j)) as [->|]; [|by rewrite lookup_delete_ne].
    rewrite lookup_delete_eq, Hid. done.
  - intros j. by redis_simpl.
  - intros j v. redis_simpl. eauto.
  - intros j v. redis_simpl. eauto.
Qed.

Lemma dead_ok id x i s : sq_ok s → sq_ok (HSET dlqItemsKey id (SItem i) (ZADD dlqKey x id s)).
Proof.
  intros [Hq Hd Hi Hdi]. sq_keys. split.
  - intros j. by redis_simpl.
  - intros j. redis_simpl. by apply same_dom_insert.
  - intros j v. redis_simpl. eauto.
  - intros j v. redis_simpl. intros [[_ <-]|[_ ?]]%lookup_insert_Some; eauto.
Qed.

Lemma undead_ok id s : sq_ok s → sq_ok (HDEL dlqItemsKey id (ZREM dlqKey id s)).
Proof.
  intros [Hq Hd Hi Hdi]. sq_keys. split.
  - intros j. by redis_simpl.
  - intros j. redis_simpl. by apply same_dom_delete.
  - intros j v. redis_simpl. eauto.
  - intros j v. redis_simpl. intros [_ ?]%lookup_delete_Some. eauto.
Qed.

Lemma due_items_cons s p l :
  due_items s (p :: l) =
  option_list (v ← HGET itemsKey p.1 s; Some (p.1, v, p.2)) ++ due_items s l.
Proof. unfold due_items. simpl. by destruct (HGET itemsKey p.1 s). Qed.

Lemma due_items_ext s s' l : (∀ k, HALL k s' = HALL k s) → due_items s' l = due_items s l.
Proof.
  intros H. induction l as [|p l IH]; [done|]. rewrite !due_items_cons, IH. unfold HGET. by rewrite H.
Qed.

(** In a well-formed state the loop never fails, hands out the items of the due
    entries and pushes each into the future. *)
Lemma dequeue_loop_ok now l acc s :
  sq_ok s → Forall (λ p, p.2 ≤ now) l →
  ∃ s', dequeue_items_loop now l acc s = (Ok (acc ++ due_items s l), s') ∧
        sq_ok s' ∧ s' = foldl (λ s p, touch now p.1 s) s l ∧ (∀ k, HALL k s' = HALL k s).
Proof.
  intros Hok Hl. revert acc s Hok. induction Hl as [|[id x] l Hx Hl IH]; intros acc s Hok.
  { exists s. cbn [dequeue_items_loop foldl due_items omap list_omap].
    by rewrite (right_id_L [] (++)). }
  cbn [dequeue_items_loop foldl]. simpl in Hx. destruct (Z.ltb_spec now x); [lia|].
  rewrite due_items_cons. unfold touch. simpl. destruct (HGET itemsKey id s) as [v|] eqn:Ei; simpl.
  - destruct (ok_items s Hok id v Ei) as [i ->]. simpl.
    assert (∀ k, HALL k (ZADD queueKey (now + it_visibilityTimeoutMs i) id s) = HALL k s) as Hz
      by (intros; by redis_simpl).
    edestruct (IH (acc ++ [(id, SItem i, x)])) as (s' & E & Hok' & Hs' & Hh);
      [apply rescore_ok; [by eexists|exact Hok]|].
    exists s'. rewrite E, (due_items_ext _ _ _ Hz), <- (assoc_L (++)).
    split_and!; try done. intros k. by rewrite Hh.
  - assert (∀ k, HALL k (ZREM queueKey id s) = HALL k s) as Hz by (intros; by redis_simpl).
    edestruct (IH acc) as (s' & E & Hok' & Hs' & Hh); [by apply orphan_ok|].
    exists s'. rewrite E, (due_items_ext _ _ _ Hz). split_and!; try done. intros k. by rewrite Hh.
Qed.

Lemma dequeueItems_ok now count s :
  sq_ok s →
  let l := ZRANGEBYSCORE queueKey now count s in
  ∃ s', dequeueItems now count s = (Ok (due_items s l), s') ∧ sq_ok s' ∧
        s' = foldl (λ s p, touch now p.1 s) s l ∧ (∀ k, HALL k s' = HALL k s).
Proof.
  intros Hok l. apply (dequeue_loop_ok now l []); [done|].
  apply Forall_forall. intros [id x] Hin%ZRANGEBYSCORE_elem. by destruct Hin.
Qed.

(** An id without item has no entry. *)
Lemma no_item_no_entry id s : sq_ok s → HALL itemsKey s !! id = None → ZALL queueKey s !! id = None.
Proof.
  intros Hok Hno. destruct (ZALL queueKey s !! id) eqn:E; [|done].
  destruct (proj1 (ok_queue s Hok id)); [by eexists|]. congruence.
Qed.

Lemma enqueueOnce_ok now n1 id job item att av vt s :
  sq_ok s → sq_ok (enqueueOnce now n1 id job item att av vt s).2.
Proof.
  intros Hok. unfold enqueueOnce, enqueueItemOnce, HSETNX, HGET, new_item.
  destruct (truthy id); [|done]. destruct (HALL itemsKey s !! id) eqn:Ei; [done|]. simpl.
  unfold ZADD_NX, ZSCORE. redis_simpl. rewrite (no_item_no_entry _ _ Hok Ei).
  sq_keys. destruct Hok as [Hq Hd Hi Hdi]. split.
  - intros j. redis_simpl. by apply same_dom_insert.
  - intros j. by redis_simpl.
  - intros j v. redis_simpl. intros [[_ <-]|[_ ?]]%lookup_insert_Some; eauto.
  - intros j v. redis_simpl. eauto.
Qed.

(** Every method keeps the queue consistent: the visibility set and the item
    hash always list the same ids, so do the two sides of the dead letter queue,
    and every stored item can be decoded. *)
Theorem sq_step_ok s s' : sq_step s s' → sq_ok s → sq_ok s'.
Proof.
  intros Hstep Hok. destruct Hstep as [c s|now n1 n2 id job item att av vt ck s
    |now n1 id job item att av vt s|now count s|id k s|id av s|id e s|id s].
  - destruct Hok as [Hq Hd Hi Hdi]. unfold cancel. split; intros j; redis_simpl; eauto.
  - unfold enqueue. destruct ck as [c|]; [destruct (truthy c)|]; simpl;
      try apply enqueueItem_ok; try done.
    unfold enqueueItemWithCancellationKey. destruct (EXISTS _ _); [done|]. simpl.
    by apply (enqueueItem_ok _ _ _ s).
  - by apply enqueueOnce_ok.
  - unfold dequeue. destruct (dequeueItems_ok now count s Hok) as (s' & -> & Hok' & _). done.
  - unfold ack, ackItem. destruct (HGET itemsKey id s); [|done].
    destruct (dedup_rejects _ _); [done|]. by apply remove_ok.
  - unfold reschedule, ZADD_XX. destruct (ZSCORE queueKey id s) eqn:Ez; [|done].
    apply rescore_ok; [|done]. apply (ok_queue s Hok). by eexists.
  - unfold moveToDeadLetterQueue, moveToDeadLetterQueue_script.
    destruct (HGET itemsKey id s) as [v|]; [|done]. destruct (sq_decode v); [|done]. simpl.
    by apply dead_ok, remove_ok.
  - unfold redriveFromDeadLetterQueue, redriveFromDeadLetterQueue_script.
    destruct (HGET dlqItemsKey id s) as [v|]; [|done]. destruct (sq_decode v); [|done]. simpl.
    apply (enqueueItem_ok _ _ _ (HDEL dlqItemsKey id (ZREM dlqKey id s))). by apply undead_ok.
Qed.

(** ** Dequeue *)

Lemma touch_other now id j s : id ≠ j → ZALL queueKey (touch now id s) !! j = ZALL queueKey s !! j.
Proof.
  intros Hne. unfold touch. destruct (HGET itemsKey id s ≫= sq_decode); redis_simpl.
  - by rewrite lookup_insert_ne.
  - by rewrite lookup_delete_ne.
Qed.

Lemma HALL_touch now id k s : HALL k (touch now id s) = HALL k s.
Proof. unfold touch. destruct (HGET itemsKey id s ≫= sq_decode); by redis_simpl. Qed.

(** When an entry becomes visible again after it was inspected at [now]. *)
Definition visible_at (now : Z) s (id : string) : option Z :=
  i ← HGET itemsKey id s ≫= sq_decode; Some (now + it_visibilityTimeoutMs i).

Lemma touch_all now (l : list (string * Z)) s id :
  NoDup l.*1 →
  ZALL queueKey (foldl (λ s p, touch now p.1 s) s l) !! id =
  if decide (id ∈ l.*1) then visible_at now s id else ZALL queueKey s !! id.
Proof.
  revert s. induction l as [|[j x] l IH]; intros s Hnd; [done|].
  apply NoDup_cons in Hnd as [Hj Hnd]. cbn [foldl fmap list_fmap]. simpl in *.
  rewrite IH by done. unfold visible_at, HGET. rewrite HALL_touch.
  destruct (decide (id = j)) as [->|Hne].
  - rewrite (decide_False (P := j ∈ l.*1)) by done. rewrite decide_True by (by left).
    unfold touch, HGET. destruct (HALL itemsKey s !! j ≫= sq_decode); redis_simpl.
    + apply lookup_insert_eq.
    + apply lookup_delete_eq.
  - rewrite touch_other by done. destruct (decide (id ∈ l.*1)) as [Hin|Hin].
    + rewrite decide_True by (by right). done.
    + rewrite decide_False; [done|]. by intros [->|?]%elem_of_cons.
Qed.

(** A dequeue returns the items that are due, oldest first and at most as many
    as asked for (leaving out those whose payload no longer matches its schema), and
    loses nothing: the items stay stored, each entry it inspected becomes visible
    again exactly its visibility timeout later, and all other entries keep their
    time. *)
Theorem sq_dequeue_exact now count s :
  sq_ok s →
  let l := ZRANGEBYSCORE queueKey now count s in
  ∃ s', dequeue now count s = (Ok (omap to_queue_item (due_items s l)), s') ∧
    (∀ k, HALL k s' = HALL k s) ∧
    (∀ id, ZALL queueKey s' !! id =
       if decide (id ∈ l.*1) then visible_at now s id else ZALL queueKey s !! id).
Proof.
  intros Hok l. destruct (dequeueItems_ok now count s Hok) as (s' & E & _ & Hs' & Hh).
  exists s'. unfold dequeue. rewrite E. split; [done|]. split; [done|].
  intros id. rewrite Hs'. apply touch_all, ZRANGEBYSCORE_NoDup.
Qed.

Lemma to_queue_item_id r qi :
  to_queue_item r = Some qi → ∃ i, r.1.2 = SItem i ∧ qi_id qi = r.1.1 ∧
    qi_visibilityTimeoutMs qi = it_visibilityTimeoutMs i.
Proof.
  destruct r as [[id v] x]. unfold to_queue_item. intros H.
  destruct v as [i| |]; simpl in *; [|done..]. exists i. simplify_option_eq. done.
Qed.

Lemma elem_of_due_items s l r : r ∈ due_items s l → r.1.1 ∈ l.*1 ∧ HGET itemsKey r.1.1 s = Some r.1.2.
Proof.
  unfold due_items. intros (p & Hp & E)%list_elem_of_omap. simplify_option_eq.
  split; [|done]. apply list_elem_of_fmap. eauto.
Qed.


(** ** Acknowledge *)

Lemma dedup_rejects_new job item vt att n k :
  dedup_rejects (new_item job item vt att n) k = truthy k && negb (bool_decide (n = k)).
Proof. done. Qed.

(** Acknowledging with the deduplication key of an older enqueue cannot remove
    a newer one: if the id was enqueued again in the meantime the acknowledgement
    changes nothing, and with the key of the current item it removes it from both
    the visibility set and the hash. *)
Theorem sq_ack_dedup now n1 n2 id job item att av vt k s :
  truthy k = true →
  let s1 := (enqueue now n1 n2 (Some id) job item att av vt None s).2 in
  (n1 ≠ k → ack id (Some k) s1 = s1) ∧
  (n1 = k → let s2 := ack id (Some k) s1 in
            ZALL queueKey s2 !! id = None ∧ HALL itemsKey s2 !! id = None).
Proof.
  intros Hk. unfold enqueue, enqueueItem. simpl. set (s1 := HSET _ _ _ _).
  assert (HGET itemsKey id s1 = Some (new_item job item vt att n1)) as Hg.
  { unfold s1, HGET. redis_simpl. apply lookup_insert_eq. }
  unfold ack, ackItem. change (default "" (Some k)) with k.
  rewrite Hg, dedup_rejects_new, Hk. simpl. split.
  - intros Hne. by rewrite bool_decide_false.
  - intros ->. rewrite bool_decide_true by done. simpl. redis_simpl.
    by rewrite !lookup_delete_eq.
Qed.

(** Enqueuing the same id once more does nothing while the first item is still
    stored, whatever the new job, payload and time are; and the first call stores
    exactly one item at its time. *)
Theorem sq_enqueueOnce_once now n1 id job item att av vt now' n1' job' item' att' av' vt' s :
  sq_ok s → truthy id = true → HALL itemsKey s !! id = None →
  ∃ s1, enqueueOnce now n1 id job item att av vt s = (Ok true, s1) ∧
    ZALL queueKey s1 = <[id := default now av]> (ZALL queueKey s) ∧
    HALL itemsKey s1 = <[id := new_item job item vt att n1]> (HALL itemsKey s) ∧
    enqueueOnce now' n1' id job' item' att' av' vt' s1 = (Ok false, s1).
Proof.
  intros Hok Hid Hno.
  pose proof (no_item_no_entry _ _ Hok Hno) as Hz.
  unfold enqueueOnce, enqueueItemOnce, HSETNX, ZADD_NX, HGET, ZSCORE. rewrite Hid, Hno. simpl.
  redis_simpl. rewrite Hz. eexists. split; [done|]. redis_simpl.
  split; [done|]. split; [done|]. by rewrite lookup_insert_eq.
Qed.

(** ** Dead letters *)

(** Dead-lettering and redriving an item restores it: it leaves the dead letter
    queue, is due at once, and its stored form is the original one (job, payload,
    timeout, attempt and deduplication key) as long as the payload survives the
    passages through [cjson]. *)
Theorem sq_redrive_roundtrip id e s i :
  HALL itemsKey s !! id = Some (SItem i) → cjson (cjson (it_item i)) = it_item i →
  it_errorMessage i = None →
  ∃ s1 s2, moveToDeadLetterQueue id e s = (Ok tt, s1) ∧
    ZALL queueKey s1 !! id = None ∧ HALL itemsKey s1 !! id = None ∧
    is_Some (ZALL dlqKey s1 !! id) ∧
    redriveFromDeadLetterQueue id s1 = (Ok tt, s2) ∧
    HALL itemsKey s2 !! id = Some (SItem i) ∧
    ZALL queueKey s2 !! id = Some ((TIME s1).1 * 1000 + (TIME s1).2 / 1000) ∧
    ZALL dlqKey s2 !! id = None ∧ HALL dlqItemsKey s2 !! id = None.
Proof.
  intros Hi Hc He. sq_keys.
  unfold moveToDeadLetterQueue, moveToDeadLetterQueue_script, HGET. rewrite Hi. simpl.
  eexists. eexists. split; [done|]. set (s1 := HSET _ _ _ _).
  assert (HALL dlqItemsKey s1 !! id = Some (SItem (set_error cjson (Some e) i))) as Hd.
  { unfold s1. redis_simpl. apply lookup_insert_eq. }
  split; [unfold s1; redis_simpl; apply lookup_delete_eq|].
  split; [unfold s1; redis_simpl; apply lookup_delete_eq|].
  split; [unfold s1; redis_simpl; rewrite lookup_insert_eq; eauto|].
  unfold redriveFromDeadLetterQueue, redriveFromDeadLetterQueue_script, HGET. rewrite Hd. simpl.
  split; [done|]. redis_simpl.
  rewrite !lookup_insert_eq, !lookup_delete_eq. split_and!; try done.
  do 2 f_equal. unfold set_error. simpl. rewrite Hc. destruct i; simpl in *. by subst.
Qed.

End SimpleQueue.

(** ** Witnesses: a queue of numbers whose only job is "count" *)

Definition sample_schema (job : string) : option (Z → option Z) :=
  if decide (job = "count") then Some (λ n, if 0 <=? n then Some n else None) else None.

Definition sample_sq : mem (sq_value Z) :=
  (enqueue "w:" 10 "k1" "r1" (Some "a") "count" 7 None (Some 100) 50 None (mem_empty (3, 0))).2.

Lemma empty_sq_ok : sq_ok "w:" (mem_empty (V := sq_value Z) (3, 0)).
Proof.
  split; intros j; cbn [ZALL HALL mem_redis mem_empty m_zset m_hash];
    rewrite !lookup_empty; simpl; rewrite !lookup_empty; done.
Qed.

Lemma sample_sq_ok : sq_ok "w:" sample_sq.
Proof. apply (enqueueItem_ok "w:" "a" 100), empty_sq_ok. Qed.

Lemma sq_step_ok_witness : sq_ok "w:" (ack "w:" "a" (Some "k1") sample_sq).
Proof.
  exact (sq_step_ok sample_schema (λ n, n) "w:" sample_sq _
           (step_ack sample_schema (λ n, n) "w:" "a" (Some "k1") sample_sq) sample_sq_ok).
Defined.

Lemma sq_dequeue_exact_witness :
  (dequeue sample_schema "w:" 200 5 sample_sq).1 =
  Ok [MkQueueItem "a" "count" 7 50 0 100 (Some "k1")].
Proof.
  destruct (sq_dequeue_exact sample_schema "w:" 200 5 sample_sq sample_sq_ok) as (s' & E & _).
  rewrite E. vm_compute. reflexivity.
Defined.


Lemma sq_ack_dedup_witness :
  let s1 := (enqueue "w:" 10 "k2" "r2" (Some "a") "count" 8 None None 50 None sample_sq).2 in
  ack "w:" "a" (Some "k1") s1 = s1.
Proof.
  refine (proj1 (sq_ack_dedup "w:" 10 "k2" "r2" "a" "count" 8 None None 50 "k1" sample_sq _) _).
  - reflexivity.
  - discriminate.
Defined.

Lemma sq_enqueueOnce_once_witness :
  ∃ s1, enqueueOnce "w:" 10 "k3" "b" "count" 1 None None 50 sample_sq = (Ok true, s1) ∧
        enqueueOnce "w:" 20 "k4" "b" "count" 2 None None 50 s1 = (Ok false, s1).
Proof.
  destruct (sq_enqueueOnce_once "w:" 10 "k3" "b" "count" 1 None None 50 20 "k4" "count" 2 None None
              50 sample_sq sample_sq_ok eq_refl eq_refl) as (s1 & H1 & _ & _ & H2).
  exists s1. split; [exact H1|exact H2].
Defined.

Lemma sq_redrive_roundtrip_witness :
  ∃ s1 s2, moveToDeadLetterQueue (λ n, n) "w:" "a" "boom" sample_sq = (Ok tt, s1) ∧
    redriveFromDeadLetterQueue (λ n, n) "w:" "a" s1 = (Ok tt, s2) ∧
    HALL "w:items" s2 !! "a" = Some (new_item "count" 7 50 None "k1").
Proof.
  assert (HALL (itemsKey "w:") sample_sq !! "a" =
    Some (SItem (SqItem "count" 7 50 None (Some "k1") None))) as Hi by (vm_compute; reflexivity).
  destruct (sq_redrive_roundtrip (λ n, n) "w:" "a" "boom" sample_sq
              (SqItem "count" 7 50 None (Some "k1") None) Hi eq_refl eq_refl)
    as (s1 & s2 & H1 & _ & _ & _ & H2 & H3 & _).
  exists s1, s2. split; [exact H1|]. split; [exact H2|exact H3].
Defined.
