(* ===== verification/Messages.v ===== *)
(** * Messages: the payloads and stored values of the run queue
    (run-queue/types.ts, and the values the scripts keep in Redis) *)

From Stdlib Require Import SpecFloat.
From S2P Require Import Prelude Text.

(** [RuntimeEnvironmentType]. *)
Inductive RuntimeEnvironmentType := PRODUCTION | STAGING | DEVELOPMENT | PREVIEW.

(** [InputPayload]. *)
Record InputPayload : Type := MkInputPayload {
  runId : string;
  taskIdentifier : string;
  orgId : string;
  projectId : string;
  environmentId : string;
  environmentType : RuntimeEnvironmentType;
  queue : string;
  concurrencyKey : option string;
  timestamp : Z;
  attempt : Z;
  ttlExpiresAt : option Z;
}.

(** The part of [OutputPayload] that depends on its version. *)
Inductive payload_version : Type :=
| Version1 (masterQueues : list string)
| Version2 (workerQueue : string).

(** [OutputPayload]: [OutputPayloadV1] or [OutputPayloadV2]. *)
Record OutputPayload : Type := MkOutputPayload {
  payload :> InputPayload;
  version : payload_version;
}.

Definition set_queue (q : string) (m : InputPayload) : InputPayload :=
  MkInputPayload (runId m) (taskIdentifier m) (orgId m) (projectId m) (environmentId m)
    (environmentType m) q (concurrencyKey m) (timestamp m) (attempt m) (ttlExpiresAt m).

Definition set_attempt (a : Z) (m : InputPayload) : InputPayload :=
  MkInputPayload (runId m) (taskIdentifier m) (orgId m) (projectId m) (environmentId m)
    (environmentType m) (queue m) (concurrencyKey m) (timestamp m) a (ttlExpiresAt m).

(** What the run queue stores under string keys and hash fields: an integer
    limit, a burst factor (a double), a serialised message, a serialised job of
    the TTL worker, or a text that is none of these. *)
Inductive rq_value : Type :=
| VNumber (n : Z)
| VFactor (f : spec_float)
| VMessage (m : OutputPayload)
| VExpireJob (job_runId job_orgId job_queueKey : string) (visibilityTimeoutMs attempt : Z)
| VText (t : string).

(** ** Lua numbers *)

(** [tonumber(v)] where an integer is expected; [None] makes the arithmetic that
    follows it raise. *)
Definition tonumber (v : rq_value) : option Z :=
  match v with VNumber n => Some n | _ => None end.

Definition double_of_Z (n : Z) : spec_float := binary_normalize 53 1024 n 0 false.

(** [tonumber(v)] where a double is expected. *)
Definition todouble (v : rq_value) : option spec_float :=
  match v with
  | VNumber n => Some (double_of_Z n)
  | VFactor f => Some f
  | _ => None
  end.

(** [math.floor(x)] on a finite double. *)
Definition lua_floor (x : spec_float) : option Z :=
  match x with
  | S754_zero _ => Some 0%Z
  | S754_finite neg m e =>
      let z := if neg then Zneg m else Zpos m in
      Some (if (0 <=? e)%Z then z * 2 ^ e else z / 2 ^ (- e))%Z
  | _ => None
  end.

(** [math.floor(limit * factor)], the product rounded to a double. *)
Definition floor_mul (limit : Z) (factor : spec_float) : option Z :=
  lua_floor (SFmul 53 1024 (double_of_Z limit) factor).

(** [cjson.decode(v)] of a stored message. *)
Definition cjson_decode (v : rq_value) : option OutputPayload :=
  match v with VMessage m => Some m | _ => None end.
