(* ===== verification/Retry.v ===== *)
(** * Retry: the delay before the next attempt
    (packages/core/src/v3/utils/retries.ts)

    Numbers are IEEE doubles ([spec_float]); comparison and [Math.round] are on
    their exact values.  [Math.random] and [Math.pow] (whose result the language
    leaves to the implementation) are arguments. *)

From Stdlib Require Import SpecFloat.
From S2P Require Import Prelude Messages.
Local Open Scope Z_scope.

(** ** Numbers *)

Definition d_mul : spec_float → spec_float → spec_float := SFmul 53 1024.
Definition d_add : spec_float → spec_float → spec_float := SFadd 53 1024.

(** The exact value [z * 2 ^ e] of a finite double. *)
Definition d_val (x : spec_float) : option (Z * Z) :=
  match x with
  | S754_zero _ => Some (0, 0)
  | S754_finite true m e => Some (Zneg m, e)
  | S754_finite false m e => Some (Zpos m, e)
  | _ => None
  end.

(** [x < y] on doubles. *)
Definition d_ltb (x y : spec_float) : bool :=
  match x, y with
  | S754_nan, _ | _, S754_nan => false
  | S754_infinity true, S754_infinity true => false
  | S754_infinity true, _ => true
  | _, S754_infinity true => false
  | S754_infinity false, _ => false
  | _, S754_infinity false => true
  | _, _ =>
      match d_val x, d_val y with
      | Some (zx, ex), Some (zy, ey) =>
          let e := Z.min ex ey in zx * 2 ^ (ex - e) <? zy * 2 ^ (ey - e)
      | _, _ => false
      end
  end.

(** [x >= y]. *)
Definition d_geb (x y : spec_float) : bool :=
  match x, y with
  | S754_nan, _ | _, S754_nan => false
  | _, _ => negb (d_ltb x y)
  end.

(** [Math.min(x, y)]; zeros are not told apart. *)
Definition d_min (x y : spec_float) : spec_float :=
  match x, y with
  | S754_nan, _ | _, S754_nan => S754_nan
  | _, _ => if d_ltb y x then y else x
  end.

(** [Math.round(x)]: the nearest integer, halves upwards; [None] for the values
    that are not finite. *)
Definition d_round (x : spec_float) : option Z :=
  '(z, e) ← d_val x;
  Some (if 0 <=? e then z * 2 ^ e else (2 * z + 2 ^ (- e)) / 2 ^ (1 - e)).

(** ** The source *)

(** [RetryOptions]; a field is absent or set. *)
Record RetryOptions : Type := MkRetryOptions {
  maxAttempts : option Z;
  factor : option spec_float;
  minTimeoutInMs : option Z;
  maxTimeoutInMs : option Z;
  randomize : option bool;
}.

Definition defaultRetryOptions : RetryOptions :=
  MkRetryOptions (Some 3) (Some (double_of_Z 2)) (Some 1000) (Some 60000) (Some true).

(** [{ ...defaultRetryOptions, ...options }], field by field. *)
Definition with_default {A} (d o : option A) : option A := match o with Some _ => o | None => d end.

Definition merge_options (d o : RetryOptions) : RetryOptions :=
  MkRetryOptions (with_default (maxAttempts d) (maxAttempts o)) (with_default (factor d) (factor o))
    (with_default (minTimeoutInMs d) (minTimeoutInMs o))
    (with_default (maxTimeoutInMs d) (maxTimeoutInMs o))
    (with_default (randomize d) (randomize o)).

(** [calculateNextRetryDelay]: [None] is [undefined]; [Some None] a delay that is
    not finite. *)
Definition calculateNextRetryDelay (random : spec_float)
    (pow : spec_float → spec_float → spec_float) (options : RetryOptions) (attempt : Z)
    : option (option Z) :=
  let opts := merge_options defaultRetryOptions options in
  match maxAttempts opts, factor opts, minTimeoutInMs opts, maxTimeoutInMs opts, randomize opts with
  | Some maxAttempts, Some factor, Some minTimeoutInMs, Some maxTimeoutInMs, Some randomize =>
      if maxAttempts <=? attempt then None
      else
        let random := if randomize : bool then d_add random (double_of_Z 1) else double_of_Z 1 in
        let timeout :=
          d_min (double_of_Z maxTimeoutInMs)
            (d_mul (d_mul random (double_of_Z minTimeoutInMs))
               (pow factor (double_of_Z (attempt - 1)))) in
        Some (d_round timeout)
  | _, _, _, _, _ => None
  end.

(** ** Facts *)

Lemma merge_defaults options :
  ∃ a f mn mx r, merge_options defaultRetryOptions options =
    MkRetryOptions (Some a) (Some f) (Some mn) (Some mx) (Some r).
Proof. destruct options as [[] [] [] [] []]; repeat eexists. Qed.

(** Rounding at a common power of two. *)
Lemma round_common z e k :
  0 ≤ k → - e ≤ k →
  (if 0 <=? e then z * 2 ^ e else (2 * z + 2 ^ (- e)) / 2 ^ (1 - e)) =
  (2 * (z * 2 ^ (e + k)) + 2 ^ k) / 2 ^ (k + 1).
Proof.
  intros Hk He. rewrite (Z.pow_add_r 2 k 1) by lia. change (2 ^ 1) with 2.
  destruct (Z.leb_spec 0 e).
  - rewrite Z.pow_add_r by lia.
    replace (2 * (z * (2 ^ e * 2 ^ k)) + 2 ^ k) with (2 ^ k + z * 2 ^ e * (2 ^ k * 2)) by ring.
    pose proof (Z.pow_pos_nonneg 2 k ltac:(lia) ltac:(lia)).
    rewrite Z.div_add by lia. rewrite Z.div_small by lia. lia.
  - replace k with ((e + k) + (- e)) by lia. set (j := e + k). assert (0 ≤ j) by lia.
    rewrite (Z.pow_add_r 2 j (- e)) by lia.
    replace (1 - e) with (- e + 1) by lia. rewrite (Z.pow_add_r 2 (- e) 1) by lia.
    change (2 ^ 1) with 2. replace (e + (j + - e)) with j by lia.
    pose proof (Z.pow_pos_nonneg 2 j ltac:(lia) ltac:(lia)).
    pose proof (Z.pow_pos_nonneg 2 (- e) ltac:(lia) ltac:(lia)).
    replace (2 * (z * 2 ^ j) + 2 ^ j * 2 ^ (- e)) with (2 ^ j * (2 * z + 2 ^ (- e))) by ring.
    replace (2 ^ j * 2 ^ (- e) * 2) with (2 ^ j * (2 ^ (- e) * 2)) by ring.
    by rewrite Z.div_mul_cancel_l by lia.
Qed.

(** Rounding is monotone. *)
Lemma d_round_lt x y a b :
  d_ltb x y = true → d_round x = Some a → d_round y = Some b → a ≤ b.
Proof.
  unfold d_round. destruct (d_val x) as [[zx ex]|] eqn:Ex; [|done].
  destruct (d_val y) as [[zy ey]|] eqn:Ey; [|done].
  cbn [mbind option_bind]. intros Hlt [= <-] [= <-].
  assert (zx * 2 ^ (ex - Z.min ex ey) < zy * 2 ^ (ey - Z.min ex ey)) as Hv.
  { unfold d_ltb in Hlt. rewrite Ex, Ey in Hlt.
    destruct x as [| | |[]], y as [| | |[]]; try done; by apply Z.ltb_lt in Hlt. }
  set (k := Z.max 0 (- Z.min ex ey)).
  rewrite (round_common zx ex k), (round_common zy ey k) by lia.
  apply Z.div_le_mono; [apply Z.pow_pos_nonneg; lia|].
  apply Z.add_le_mono_r, Z.mul_le_mono_nonneg_l; [lia|].
  set (e := Z.min ex ey) in *.
  replace (ex + k) with ((ex - e) + (e + k)) by lia.
  replace (ey + k) with ((ey - e) + (e + k)) by lia.
  rewrite (Z.pow_add_r 2 (ex - e)), (Z.pow_add_r 2 (ey - e)) by lia. rewrite !Z.mul_assoc.
  apply Z.mul_le_mono_nonneg_r; [apply Z.pow_nonneg; lia|lia].
Qed.

Lemma d_round_min x y a b :
  d_round (d_min x y) = Some a → d_round x = Some b → a ≤ b.
Proof.
  unfold d_min. intros Ha Hb.
  assert (d_round (if d_ltb y x then y else x) = Some a) as H.
  { destruct x, y; try done; simpl in Ha; congruence. }
  destruct (d_ltb y x) eqn:E; [by eapply d_round_lt|].
  rewrite Hb in H. injection H as <-. lia.
Qed.

(** A retry is given up exactly when the attempts are used up, and otherwise
    the delay never exceeds the configured maximum, whatever the random number and
    the power are. *)
Theorem retry_delay_bounded random pow options attempt :
  let opts := merge_options defaultRetryOptions options in
  ∃ a mx, maxAttempts opts = Some a ∧ maxTimeoutInMs opts = Some mx ∧
    (calculateNextRetryDelay random pow options attempt = None ↔ a ≤ attempt) ∧
    (∀ d n, calculateNextRetryDelay random pow options attempt = Some (Some d) →
       d_round (double_of_Z mx) = Some n → d ≤ n).
Proof.
  unfold calculateNextRetryDelay. destruct (merge_defaults options) as (a & f & mn & mx & r & ->).
  exists a, mx. split; [done|]. split; [done|]. cbn [maxAttempts factor minTimeoutInMs maxTimeoutInMs randomize].
  destruct (Z.leb_spec a attempt); (split; [split; done || lia|]); [done|].
  intros d n [= Hd] Hn. by eapply d_round_min.
Qed.
