(* ===== verification/Doubles.v ===== *)
(** * Doubles: the product of a random number and a length is an index

    [Math.floor(random() * n)] is below [n] although the product is rounded: the error
    of the rounding is less than the distance of a double below 1 from 1, times [n]. *)

From Stdlib Require Import SpecFloat.
From S2P Require Import Prelude Messages Retry.
Local Open Scope Z_scope.

(** A double [r] with [0 <= r < 1]. *)
Definition in_unit (r : spec_float) : bool :=
  match r with
  | S754_zero _ => true
  | S754_finite false _ _ => valid_binary 53 1024 r && d_ltb r (double_of_Z 1)
  | _ => false
  end.

(** ** Digits *)

Lemma digits_bounds m : 2 ^ (Zpos (digits2_pos m) - 1) <= Zpos m < 2 ^ Zpos (digits2_pos m).
Proof.
  induction m as [m IH|m IH|]; cbn [digits2_pos]; [| |done];
    rewrite Pos2Z.inj_succ; replace (Z.succ _ - 1) with (Z.succ (Zpos (digits2_pos m) - 1)) by lia;
    rewrite !Z.pow_succ_r by lia; lia.
Qed.

Lemma digits_le m k : 0 <= k → Zpos m < 2 ^ k → Zpos (digits2_pos m) <= k.
Proof.
  intros Hk Hm. destruct (digits_bounds m) as [Hl _].
  destruct (Z.le_gt_cases (Zpos (digits2_pos m)) k); [done|].
  assert (2 ^ k <= 2 ^ (Zpos (digits2_pos m) - 1)) by (apply Z.pow_le_mono_r; lia). lia.
Qed.

Lemma digits_exact m k : 0 < k → 2 ^ (k - 1) <= Zpos m < 2 ^ k → Zpos (digits2_pos m) = k.
Proof.
  intros Hk Hm. pose proof (digits_le m k ltac:(lia) ltac:(lia)). destruct (digits_bounds m) as [_ Hu].
  destruct (Z.le_gt_cases k (Zpos (digits2_pos m))); [lia|].
  assert (2 ^ Zpos (digits2_pos m) <= 2 ^ (k - 1)) by (apply Z.pow_le_mono_r; lia). lia.
Qed.

(** ** Shifts *)

(** The record stands for [m / 2 ^ k] rounded down; a set round bit means that the rest
    is at least half a unit. *)
Definition shifted (m : Z) (k : Z) (mrs : shr_record) : Prop :=
  0 <= shr_m mrs ∧ shr_m mrs * 2 ^ k <= m ∧
  (shr_r mrs = true → 0 < k ∧ shr_m mrs * 2 ^ k + 2 ^ (k - 1) <= m).

Lemma shifted_step m k mrs : 0 <= k → shifted m k mrs → shifted m (k + 1) (shr_1 mrs).
Proof.
  intros Hk. destruct mrs as [x r s]. unfold shifted. cbn [shr_m shr_r]. intros (H0 & H1 & _).
  replace (k + 1 - 1) with k by lia. replace (2 ^ (k + 1)) with (2 * 2 ^ k) by (rewrite Z.pow_add_r; lia).
  assert (0 < 2 ^ k) by (apply Z.pow_pos_nonneg; lia).
  destruct x as [|[p|p|]|p]; cbn; lia.
Qed.

Lemma shifted_iter p m k mrs :
  0 <= k → shifted m k mrs → shifted m (k + Zpos p) (SpecFloat.iter_pos shr_1 p mrs).
Proof.
  revert k mrs. induction p as [p IH|p IH|]; intros k mrs Hk Hs; cbn [iter_pos].
  - replace (k + Zpos p~1) with (k + 1 + Zpos p + Zpos p) by lia.
    apply IH; [lia|]. apply IH; [lia|]. by apply shifted_step.
  - replace (k + Zpos p~0) with (k + Zpos p + Zpos p) by lia. apply IH; [lia|]. by apply IH.
  - by apply shifted_step.
Qed.

Lemma shr_fexp_shifted m e mrs e' :
  0 <= m → shr_fexp 53 1024 m e loc_Exact = (mrs, e') →
  e' = Z.max e (fexp 53 1024 (Zdigits2 m + e)) ∧ shifted m (e' - e) mrs.
Proof.
  intros Hm. unfold shr_fexp, shr. cbn [shr_record_of_loc].
  assert (shifted m 0 {| shr_m := m; shr_r := false; shr_s := false |}) as Hs by (split; cbn; lia).
  destruct (fexp 53 1024 (Zdigits2 m + e) - e) as [|p|p] eqn:E; intros [= <- <-].
  - rewrite Z.sub_diag. split; [lia|done].
  - replace (e + Zpos p - e) with (0 + Zpos p) by lia. split; [lia|]. by apply shifted_iter.
  - rewrite Z.sub_diag. split; [lia|done].
Qed.

Lemma round_bound m k mrs :
  0 <= k → shifted m k mrs →
  let r := round_nearest_even (shr_m mrs) (loc_of_shr_record mrs) in
  0 <= r ∧ r * 2 ^ k <= m + (if 0 <? k then 2 ^ (k - 1) else 0).
Proof.
  intros Hk (H0 & H1 & H2). destruct mrs as [x [] s]; cbn [shr_m shr_r] in *; cycle 1.
  { assert (0 <= if 0 <? k then 2 ^ (k - 1) else 0) by (case_match; lia).
    destruct s; cbn; split; lia. }
  destruct H2 as [Hp H2]; [done|]. rewrite (proj2 (Z.ltb_lt 0 k) Hp).
  assert (2 ^ k = 2 * 2 ^ (k - 1)) as Hkk.
  { rewrite <- Z.pow_succ_r by lia. f_equal. lia. }
  assert ((x + 1) * 2 ^ k <= m + 2 ^ (k - 1)) by lia.
  destruct s; cbn; [lia|]. destruct (Z.even x); split; lia.
Qed.

(** A rounded positive number is zero, infinite or at most half a unit too large. *)
Lemma round_aux_cases m e :
  0 < m →
  let k := Z.max e (fexp 53 1024 (Zdigits2 m + e)) - e in
  let up := m + (if 0 <? k then 2 ^ (k - 1) else 0) in
  match binary_round_aux 53 1024 false m e loc_Exact with
  | S754_zero _ => True
  | S754_finite sg m2 e2 => sg = false ∧ e <= e2 ∧ Zpos m2 * 2 ^ (e2 - e) <= up
  | S754_infinity _ => ∃ r, 0 <= r ∧ r * 2 ^ k <= up ∧ 971 < Z.max (e + k) (fexp 53 1024 (Zdigits2 r + (e + k)))
  | S754_nan => False
  end.
Proof.
  intros Hm k up. unfold binary_round_aux.
  destruct (shr_fexp 53 1024 m e loc_Exact) as [mrs e1] eqn:E1.
  apply shr_fexp_shifted in E1 as [He1 Hs1]; [|lia].
  destruct (round_bound m (e1 - e) mrs ltac:(lia) Hs1) as [Hr0 Hr].
  set (r := round_nearest_even _ _) in *.
  destruct (shr_fexp 53 1024 r e1 loc_Exact) as [mrs2 e2] eqn:E2.
  apply shr_fexp_shifted in E2 as [He2 (H0 & H1 & _)]; [|done].
  replace (e1 - e) with k in Hr by lia. fold up in Hr.
  destruct (shr_m mrs2) as [|m2|m2]; [done| |lia]. destruct (e2 <=? 1024 - 53) eqn:E3.
  - split; [done|]. split; [lia|]. replace (e2 - e) with (e2 - e1 + k) by lia.
    rewrite Z.pow_add_r by lia. assert (0 <= 2 ^ k) by lia. nia.
  - exists r. replace (e + k) with e1 by lia. split_and!; [done|done|lia].
Qed.

(** ** Integers *)

Lemma shl_align_le m e d :
  0 <= d → (let '(mz, ez) := shl_align m e (e - d) in Zpos mz = Zpos m * 2 ^ d ∧ ez = e - d).
Proof.
  intros Hd. unfold shl_align. replace (e - d - e) with (- d) by lia. destruct d as [|p|p]; [|cbn|lia].
  - cbn. split; lia.
  - split; [|lia]. clear Hd.
    rewrite Pos2Nat.inj_iter, <- (positive_nat_Z p). generalize (Pos.to_nat p) as n.
    induction n as [|n IH]; [cbn; lia|]. cbn [nat_rect]. rewrite Pos2Z.inj_xO, IH, Nat2Z.inj_succ, Z.pow_succ_r; lia.
Qed.

(** An integer below 2^53 is a double with 53 digits. *)
Lemma double_of_small n :
  0 < n < 2 ^ 53 →
  ∃ m d, double_of_Z n = S754_finite false m (- d) ∧ 0 <= d ∧ Zpos m = n * 2 ^ d ∧
    2 ^ 52 <= Zpos m < 2 ^ 53.
Proof.
  intros Hn. destruct n as [|p|p]; [lia| |lia]. set (D := Zpos (digits2_pos p)).
  assert (D <= 53) as HD by (apply digits_le; lia).
  pose proof (digits_bounds p) as [Hl Hu]. fold D in Hl, Hu.
  unfold double_of_Z, binary_normalize, binary_round. fold D.
  assert (fexp 53 1024 (D + 0) = 0 - (53 - D)) as Hf by (unfold fexp, emin; lia). rewrite Hf.
  pose proof (shl_align_le p 0 (53 - D) ltac:(lia)) as Ha.
  destruct (shl_align p 0 (0 - (53 - D))) as [mz ez]. destruct Ha as [Hmz ->].
  assert (2 ^ 52 <= Zpos mz < 2 ^ 53) as Hb.
  { rewrite Hmz. replace (2 ^ 52) with (2 ^ (D - 1) * 2 ^ (53 - D)) by (rewrite <- Z.pow_add_r by lia; f_equal; lia).
    replace (2 ^ 53) with (2 ^ D * 2 ^ (53 - D)) by (rewrite <- Z.pow_add_r by lia; f_equal; lia).
    assert (0 < 2 ^ (53 - D)) by (apply Z.pow_pos_nonneg; lia). nia. }
  exists mz, (53 - D). split; [|split_and!; [lia|done|lia..]].
  unfold binary_round_aux, shr_fexp. cbn [Zdigits2 shr_record_of_loc].
  rewrite (digits_exact mz 53) by lia.
  replace (fexp 53 1024 (53 + (0 - (53 - D))) - (0 - (53 - D))) with 0 by (unfold fexp, emin; lia).
  cbn [shr loc_of_shr_record shr_m round_nearest_even shr_record_of_loc Zdigits2].
  rewrite (digits_exact mz 53) by lia.
  replace (fexp 53 1024 (53 + (0 - (53 - D))) - (0 - (53 - D))) with 0 by (unfold fexp, emin; lia).
  cbn [shr shr_m]. by rewrite (proj2 (Z.leb_le (0 - (53 - D)) (1024 - 53))) by lia.
Qed.

(** ** Products *)

Lemma in_unit_finite sg m e :
  in_unit (S754_finite sg m e) = true →
  sg = false ∧ -1074 <= e < 0 ∧ Zpos m < 2 ^ (- e) ∧ Zpos m < 2 ^ 53.
Proof.
  destruct sg; [done|]. unfold in_unit. intros [Hv Hl]%andb_true_iff.
  unfold valid_binary, bounded, canonical_mantissa in Hv. apply andb_true_iff in Hv as [Hc%Z.eqb_eq _].
  unfold fexp, emin in Hc. split; [done|].
  assert (Zpos (digits2_pos m) <= 53) as Hd by lia.
  assert (2 ^ Zpos (digits2_pos m) <= 2 ^ 53) by (apply Z.pow_le_mono_r; lia).
  pose proof (digits_bounds m). split_and!; [lia| | |lia].
  all: change (d_ltb (S754_finite false m e) (double_of_Z 1)) with
    (Zpos m * 2 ^ (e - Z.min e (-52)) <? 2 ^ 52 * 2 ^ (-52 - Z.min e (-52))) in Hl;
    apply Z.ltb_lt in Hl; rewrite <- Z.pow_add_r in Hl by lia.
  - destruct (Z.lt_ge_cases e 0); [done|]. rewrite Z.min_r in Hl by lia.
    assert (2 ^ 52 <= 2 ^ (e - -52)) by (apply Z.pow_le_mono_r; lia). simpl in *. nia.
  - replace (52 + (-52 - Z.min e (-52))) with (- e + (e - Z.min e (-52))) in Hl by lia.
    destruct (Z.lt_ge_cases e 0) as [He|He]; [|rewrite Z.min_r in Hl by lia].
    + rewrite Z.pow_add_r in Hl by lia. assert (0 < 2 ^ (e - Z.min e (-52))) by (apply Z.pow_pos_nonneg; lia). nia.
    + replace (- e + (e - -52)) with 52 in Hl by lia.
      assert (2 ^ 52 <= 2 ^ (e - -52)) by (apply Z.pow_le_mono_r; lia). nia.
Qed.

(** The rounded product of the mantissas stays below the bound. *)
Lemma product_room mr er mz d :
  -1074 <= er < 0 → Zpos mr < 2 ^ (- er) → Zpos mr < 2 ^ 53 → 0 <= d <= 52 → 2 ^ 52 <= Zpos mz < 2 ^ 53 →
  let E := er - d in
  let k := Z.max E (fexp 53 1024 (Zdigits2 (Zpos (mr * mz)) + E)) - E in
  k <= 53 ∧ Zpos (mr * mz) + (if 0 <? k then 2 ^ (k - 1) else 0) < 2 ^ (- er) * Zpos mz.
Proof.
  intros Her Hr1 Hr2 Hd Hz E k. pose proof (digits_bounds (mr * mz)) as [Hl _].
  rewrite Pos2Z.inj_mul in *. set (D := Zpos (digits2_pos (mr * mz))) in *.
  assert (D <= 106) as HD.
  { apply digits_le; [lia|]. rewrite Pos2Z.inj_mul. change (2 ^ 106) with (2 ^ 53 * 2 ^ 53). nia. }
  assert (k = Z.max 0 (Z.max (D - 53) (-1074 - E))) as Hk.
  { unfold k, E, fexp, emin. cbn [Zdigits2]. fold D. lia. }
  assert (Zpos mr * Zpos mz + Zpos mz <= 2 ^ (- er) * Zpos mz) as Hroom by nia.
  split; [lia|]. destruct (0 <? k) eqn:Ek; [|lia]. apply Z.ltb_lt in Ek.
  assert (2 ^ (k - 1) < Zpos mz); [|lia].
  destruct (Z.le_gt_cases (D - 53) (-1074 - E)).
  - assert (2 ^ (k - 1) <= 2 ^ 51) by (apply Z.pow_le_mono_r; lia). lia.
  - assert (2 ^ (D - 1) < 2 ^ 53 * Zpos mz) by nia.
    replace (D - 1) with (53 + (k - 1)) in * by lia. rewrite Z.pow_add_r in * by lia. lia.
Qed.

Lemma floor_below m e E n :
  E <= e → 0 <= - E → Zpos m * 2 ^ (e - E) < n * 2 ^ (- E) →
  ∃ z, lua_floor (S754_finite false m e) = Some z ∧ 0 <= z < n.
Proof.
  intros He HE Hm. eexists. split; [done|]. destruct (0 <=? e) eqn:E0.
  - apply Z.leb_le in E0. replace (e - E) with (e + - E) in Hm by lia. rewrite Z.pow_add_r in Hm by lia.
    assert (0 < 2 ^ (- E)) by (apply Z.pow_pos_nonneg; lia). nia.
  - apply Z.leb_gt in E0. assert (0 < 2 ^ (- e)) by (apply Z.pow_pos_nonneg; lia).
    split; [by apply Z.div_pos|]. apply Z.div_lt_upper_bound; [done|].
    replace (- E) with (e - E + - e) in Hm by lia. rewrite Z.pow_add_r in Hm by lia.
    assert (0 < 2 ^ (e - E)) by (apply Z.pow_pos_nonneg; lia). nia.
Qed.

Lemma rounded_digits x mz a k :
  0 <= x → 0 <= k <= 53 → 0 < a → Zpos mz < 2 ^ 53 → x * 2 ^ k < 2 ^ a * Zpos mz →
  Zdigits2 x <= a + 53 - k.
Proof.
  intros Hx Hk Ha Hz Hlt. destruct x as [|x|x]; [cbn; lia| |lia]. apply digits_le; [lia|].
  assert (2 ^ (a + 53 - k) * 2 ^ k = 2 ^ a * 2 ^ 53) as Hp by (rewrite <- !Z.pow_add_r by lia; f_equal; lia).
  assert (0 < 2 ^ k) by (apply Z.pow_pos_nonneg; lia). assert (0 < 2 ^ a) by (apply Z.pow_pos_nonneg; lia).
  apply (Z.mul_lt_mono_pos_r (2 ^ k)); [done|]. rewrite Hp. etrans; [exact Hlt|].
  by apply Z.mul_lt_mono_pos_l.
Qed.

(** [Math.floor(r * n)] is an index below [n] for [0 <= r < 1]. *)
Lemma floor_unit_mul r n :
  in_unit r = true → 0 < n < 2 ^ 53 →
  ∃ z, lua_floor (d_mul r (double_of_Z n)) = Some z ∧ 0 <= z < n.
Proof.
  intros Hr Hn. destruct (double_of_small n Hn) as (mz & d & -> & Hd & Hmz & Hz).
  destruct r as [sg|sg| |sg mr er]; try done; [exists 0; split; [done|lia]|].
  apply in_unit_finite in Hr as (-> & Her & Hr1 & Hr2).
  assert (d <= 52) as Hd2.
  { destruct (Z.le_gt_cases d 52); [done|]. assert (2 ^ 53 <= 2 ^ d) by (apply Z.pow_le_mono_r; lia). nia. }
  destruct (product_room mr er mz d Her Hr1 Hr2 ltac:(lia) Hz) as [Hk Hroom].
  change (d_mul (S754_finite false mr er) (S754_finite false mz (- d))) with
    (binary_round_aux 53 1024 false (Zpos (mr * mz)) (er - d) loc_Exact).
  pose proof (round_aux_cases (Zpos (mr * mz)) (er - d) ltac:(lia)) as Hc. cbv zeta in Hc, Hk, Hroom.
  assert (n * 2 ^ (- (er - d)) = 2 ^ (- er) * Zpos mz) as Hb.
  { rewrite Hmz. replace (- (er - d)) with (- er + d) by lia. rewrite Z.pow_add_r by lia. lia. }
  destruct (binary_round_aux _ _ _ _ _ _) as [sg|sg| |sg m2 e2].
  - exists 0. split; [done|lia].
  - exfalso. destruct Hc as (x & Hx0 & Hx & Hbig). set (k := _ - (er - d)) in *.
    assert (0 <= k) by lia.
    assert (Zdigits2 x <= - er + 53 - k) as Hdx by (apply (rounded_digits x mz); lia).
    unfold fexp, emin in Hbig. lia.
  - done.
  - destruct Hc as (-> & He2 & Hm2). apply (floor_below m2 e2 (er - d)); [done|lia|lia].
Qed.
