(* ===== verification/WorkerQueueResolver.v ===== *)
(** * WorkerQueueResolver: which worker queue a message goes to
    (run-queue/workerQueueResolver.ts)

    The override table is the parsed configuration; reading it from JSON is left
    out. *)

From S2P Require Import Prelude Text Messages.

(** [WorkerQueueOverrides]. *)
Record WorkerQueueOverrides : Type := MkOverrides {
  by_environmentId : gmap string string;
  by_projectId : gmap string string;
  by_orgId : gmap string string;
  by_workerQueue : gmap string string;
}.

(** A truthy entry of a table. *)
Definition override (table : gmap string string) (k : string) : option string :=
  v ← table !! k;
  if truthy v then Some v else None.

(** [#getOverride]: environment, then project, then organization, then queue. *)
Definition getOverride (overrides : option WorkerQueueOverrides) (m : InputPayload)
    (workerQueue : string) : option string :=
  match overrides with
  | None => None
  | Some o =>
      match override (by_environmentId o) (environmentId m) with
      | Some q => Some q
      | None =>
          match override (by_projectId o) (projectId m) with
          | Some q => Some q
          | None =>
              match override (by_orgId o) (orgId m) with
              | Some q => Some q
              | None => override (by_workerQueue o) workerQueue
              end
          end
      end
  end.

(** [getWorkerQueueFromMessage]; an absent first master queue prints as
    "undefined" in the key it is interpolated into. *)
Definition getWorkerQueueFromMessage (overrides : option WorkerQueueOverrides)
    (message : OutputPayload) : string :=
  match version message with
  | Version2 workerQueue => default workerQueue (getOverride overrides message workerQueue)
  | Version1 masterQueues =>
      match environmentType message with
      | DEVELOPMENT => environmentId message
      | _ => default "undefined" (masterQueues !! 0)
      end
  end.
