(* ===== verification/Jobs.v ===== *)
(** * Jobs: what the run queue expects of its background worker

    The run queue asks its [Worker] for one thing: to run the job
    [processQueueForWorkerQueue] for a queue, once per queue at a time.  The class
    states that; [SimpleQueue] (through [Worker.enqueueOnce]) implements it. *)

From S2P Require Import Prelude Text Redis SimpleQueue.
Local Open Scope Z_scope.

(** The payloads of the worker's catalog: [processQueueForWorkerQueue] and the two
    cron jobs. *)
Inductive rq_job : Type :=
| ProcessQueue (queueKey environmentId : string)
| CronJob (name : string).

Class JobQueue (J : Type) := {
  (** The jobs waiting or running, by id. *)
  pending : J → gmap string rq_job;
  (** [worker.enqueueOnce({ id, job: "processQueueForWorkerQueue", payload, availableAt })] at
      time [now]; [nonce] is the generated deduplication key. *)
  scheduleOnce : Z → string → string → rq_job → Z → J → J;
  (** States the worker can be in. *)
  jobs_ok : J → Prop;
}.

(** Scheduling adds the job under its id unless one is there already. *)
Class JobQueueLaws {J} (Q : JobQueue J) : Prop := {
  pending_scheduleOnce now nonce id job at_ j id' :
    truthy id = true → jobs_ok j →
    pending (scheduleOnce now nonce id job at_ j) !! id' =
    if decide (id = id') then Some (default job (pending j !! id')) else pending j !! id';
  scheduleOnce_ok now nonce id job at_ j : jobs_ok j → jobs_ok (scheduleOnce now nonce id job at_ j);
}.

(** ** The implementation by [SimpleQueue] *)

Definition job_name (job : rq_job) : string :=
  match job with ProcessQueue _ _ => "processQueueForWorkerQueue" | CronJob n => n end.

Section Impl.
Context {db : Type} {R : Redis (sq_value rq_job) db} {L : RedisLaws R} (prefix : string).

(** [workerCatalog.processQueueForWorkerQueue.visibilityTimeoutMs]. *)
Definition processQueue_timeout : Z := 30000.

(** [Worker.enqueueOnce]: the timeout comes from the catalog. *)
Definition worker_enqueueOnce (now : Z) (nonce id : string) (job : rq_job) (at_ : Z) (s : db) : db :=
  (SimpleQueue.enqueueOnce prefix now nonce id (job_name job) job None (Some at_)
     processQueue_timeout s).2.

(** The jobs stored in the item hash; a value that is not an item is not a job. *)
Definition stored_jobs (s : db) : gmap string rq_job :=
  omap (λ v, it_item <$> sq_decode v) (HALL (itemsKey prefix) s).

#[export] Instance simple_queue_jobs : JobQueue db := {|
  pending := stored_jobs;
  scheduleOnce := worker_enqueueOnce;
  jobs_ok := sq_ok prefix;
|}.

#[export] Instance simple_queue_laws : JobQueueLaws simple_queue_jobs.
Proof.
  split; simpl.
  - intros now nonce id job at_ s id' Hid Hok. unfold stored_jobs, worker_enqueueOnce,
      SimpleQueue.enqueueOnce, enqueueItemOnce, HSETNX, HGET. rewrite Hid, !lookup_omap.
    destruct (HALL (itemsKey prefix) s !! id) as [v|] eqn:E; simpl.
    + destruct (decide (id = id')) as [<-|]; [|done].
      destruct (ok_items _ _ Hok _ _ E) as [i ->]. by rewrite E.
    + unfold ZADD_NX, ZSCORE. redis_simpl. rewrite (no_item_no_entry _ _ _ Hok E). redis_simpl.
      destruct (decide (id = id')) as [<-|]; [by rewrite lookup_insert_eq, E|].
      by rewrite lookup_insert_ne.
  - intros. by apply enqueueOnce_ok.
Qed.

(** C30. The delayed job queue keeps the promise the run queue relies on: scheduling
    a job under an id makes a job with that id pending, keeps the one that is
    already pending, and touches no other job. *)
Theorem simple_queue_schedules_once : JobQueueLaws simple_queue_jobs.
Proof. exact simple_queue_laws. Qed.
End Impl.

Lemma simple_queue_schedules_once_witness :
  JobQueueLaws (simple_queue_jobs (db := mem (sq_value rq_job)) "w:").
Proof. exact (simple_queue_schedules_once "w:"). Defined.
