(* ===== verification/Scripts.v ===== *)
(** * Scripts: the Lua commands of the run queue
    (internal-packages/run-engine/src/run-queue/index.ts, [#registerCommands])

    One definition per [defineCommand].  [KEYS] are collected in [rq_keys] under
    the names the scripts give them; [ARGV] are arguments, numbers already read.
    A script runs atomically and does not roll back: a script that can raise
    returns the database it leaves behind together with its outcome. *)

From Stdlib Require Import SpecFloat.
From S2P Require Import Prelude Text Redis Listing Messages.
Local Open Scope Z_scope.

(** [KEYS] of the scripts, by local name. *)
Record rq_keys : Type := MkKeys {
  masterQueueKey : string;
  queueKey : string;
  messageKey : string;
  queueCurrentConcurrencyKey : string;
  envCurrentConcurrencyKey : string;
  queueCurrentDequeuedKey : string;
  envCurrentDequeuedKey : string;
  envQueueKey : string;
  ttlQueueKey : string;
  ckIndexKey : string;
  workerQueueKey : string;
  queueConcurrencyLimitKey : string;
  envConcurrencyLimitKey : string;
  envConcurrencyLimitBurstFactorKey : string;
  deadLetterQueueKey : string;
  messageKeyPrefix : string;
}.

(** What a script can raise. *)
Inductive lua_error : Type :=
| NotANumber     (* arithmetic on a value that is not a number *)
| CannotDecode   (* cjson.decode of a value that is not a JSON object *)
| NilValue.      (* arithmetic on, or concatenation with, nil *)

(** A message handed out by a dequeue script: id, score, payload. *)
Definition dequeued : Type := string * Z * OutputPayload.

Section Scripts.
Context {db : Type} {R : Redis rq_value db}.
Implicit Types (K : rq_keys) (s : db).

(** ** Shared fragments *)

(** "Update the concurrency keys": forget the message in the four sets. *)
Definition release (K : rq_keys) (messageId : string) (s : db) : db :=
  let s := SREM (queueCurrentConcurrencyKey K) messageId s in
  let s := SREM (envCurrentConcurrencyKey K) messageId s in
  let s := SREM (queueCurrentDequeuedKey K) messageId s in
  SREM (envCurrentDequeuedKey K) messageId s.

(** [tonumber(redis.call('GET', key) or default)]. *)
Definition get_limit (key : string) (dflt : Z) (s : db) : option Z :=
  match GET key s with Some v => tonumber v | None => Some dflt end.

Definition get_factor (key : string) (dflt : spec_float) (s : db) : option spec_float :=
  match GET key s with Some v => todouble v | None => Some dflt end.

(** The environment limit and the limit with burst. *)
Definition env_limits (K : rq_keys) (dLimit : Z) (dBurst : spec_float) (s : db) : option (Z * Z) :=
  envLimit ← get_limit (envConcurrencyLimitKey K) dLimit s;
  envBurstFactor ← get_factor (envConcurrencyLimitBurstFactorKey K) dBurst s;
  envLimitWithBurst ← floor_mul envLimit envBurstFactor;
  Some (envLimit, envLimitWithBurst).

(** [math.min(tonumber(GET queueConcurrencyLimitKey or '1000000'), envLimit)]. *)
Definition queue_limit (K : rq_keys) (envLimit : Z) (s : db) : option Z :=
  l ← get_limit (queueConcurrencyLimitKey K) 1000000 s;
  Some (Z.min l envLimit).

(** ** Enqueue *)

(** The fast-path conditions: nothing due in the queue, room in the
    environment, room in the queue. *)
Definition fast_path_open (K : rq_keys) (dLimit : Z) (dBurst : spec_float) (currentTime : Z)
    (enableFastPath : bool) (s : db) : option bool :=
  if enableFastPath then
    match ZRANGEBYSCORE (queueKey K) currentTime 1 s with
    | [] =>
        let envCurrent := SCARD (envCurrentConcurrencyKey K) s in
        '(envLimit, envLimitWithBurst) ← env_limits K dLimit dBurst s;
        if envCurrent <? envLimitWithBurst then
          let queueCurrent := SCARD (queueCurrentConcurrencyKey K) s in
          queueLimit ← queue_limit K envLimit s;
          Some (queueCurrent <? queueLimit)
        else Some false
    | _ :: _ => Some false
    end
  else Some false.

(** The fast path itself: claim the slots and push to the worker queue. *)
Definition fast_path (K : rq_keys) (messageId : string) (messageData : rq_value)
    (messageKeyValue : string) (s : db) : db :=
  let s := SET (messageKey K) messageData s in
  let s := SADD (queueCurrentConcurrencyKey K) messageId s in
  let s := SADD (envCurrentConcurrencyKey K) messageId s in
  RPUSH (workerQueueKey K) messageKeyValue s.

(** The slow path up to the queues. *)
Definition slow_path_queues (K : rq_keys) (messageId : string) (messageData : rq_value)
    (messageScore : Z) (s : db) : db :=
  let s := SET (messageKey K) messageData s in
  let s := ZADD (queueKey K) messageScore messageId s in
  ZADD (envQueueKey K) messageScore messageId s.

Definition enqueueMessage (K : rq_keys) (queueName messageId : string) (messageData : rq_value)
    (messageScore : Z) (messageKeyValue : string) (dLimit : Z) (dBurst : spec_float)
    (currentTime : Z) (enableFastPath : bool) (s : db) : outcome lua_error bool * db :=
  match fast_path_open K dLimit dBurst currentTime enableFastPath s with
  | None => (Err NotANumber, s)
  | Some true => (Ok true, fast_path K messageId messageData messageKeyValue s)
  | Some false =>
      let s := slow_path_queues K messageId messageData messageScore s in
      let s := rebalance (masterQueueKey K) (queueKey K) queueName s in
      (Ok false, release K messageId s)
  end.

Definition enqueueMessageWithTtl (K : rq_keys) (queueName messageId : string)
    (messageData : rq_value) (messageScore : Z) (ttlMember : string) (ttlScore : Z)
    (messageKeyValue : string) (dLimit : Z) (dBurst : spec_float) (currentTime : Z)
    (enableFastPath : bool) (s : db) : outcome lua_error bool * db :=
  match fast_path_open K dLimit dBurst currentTime enableFastPath s with
  | None => (Err NotANumber, s)
  | Some true => (Ok true, fast_path K messageId messageData messageKeyValue s)
  | Some false =>
      let s := slow_path_queues K messageId messageData messageScore s in
      let s := ZADD (ttlQueueKey K) ttlScore ttlMember s in
      let s := rebalance (masterQueueKey K) (queueKey K) queueName s in
      (Ok false, release K messageId s)
  end.

Definition enqueueMessageCk (K : rq_keys) (queueName messageId : string)
    (messageData : rq_value) (messageScore : Z) (ckWildcardName : string)
    (messageKeyValue : string) (dLimit : Z) (dBurst : spec_float) (currentTime : Z)
    (enableFastPath : bool) (s : db) : outcome lua_error bool * db :=
  match fast_path_open K dLimit dBurst currentTime enableFastPath s with
  | None => (Err NotANumber, s)
  | Some true => (Ok true, fast_path K messageId messageData messageKeyValue s)
  | Some false =>
      let s := slow_path_queues K messageId messageData messageScore s in
      let s := rebalance_add (ckIndexKey K) (queueKey K) queueName s in
      let s := rebalance_add (masterQueueKey K) (ckIndexKey K) ckWildcardName s in
      let s := ZREM (masterQueueKey K) queueName s in
      (Ok false, release K messageId s)
  end.

Definition enqueueMessageWithTtlCk (K : rq_keys) (queueName messageId : string)
    (messageData : rq_value) (messageScore : Z) (ttlMember : string) (ttlScore : Z)
    (ckWildcardName : string) (messageKeyValue : string) (dLimit : Z) (dBurst : spec_float)
    (currentTime : Z) (enableFastPath : bool) (s : db) : outcome lua_error bool * db :=
  match fast_path_open K dLimit dBurst currentTime enableFastPath s with
  | None => (Err NotANumber, s)
  | Some true => (Ok true, fast_path K messageId messageData messageKeyValue s)
  | Some false =>
      let s := slow_path_queues K messageId messageData messageScore s in
      let s := ZADD (ttlQueueKey K) ttlScore ttlMember s in
      let s := rebalance_add (ckIndexKey K) (queueKey K) queueName s in
      let s := rebalance_add (masterQueueKey K) (ckIndexKey K) ckWildcardName s in
      let s := ZREM (masterQueueKey K) queueName s in
      (Ok false, release K messageId s)
  end.

(** ** Dequeue from a queue *)

(** [queueName .. '|' .. messageId .. '|' .. orgId]. *)
Definition ttl_member (queueName messageId org : string) : string :=
  queueName +:+ "|" +:+ messageId +:+ "|" +:+ org.

(** Is the message past its TTL? ([ttlExpiresAt and ttlExpiresAt <= currentTime]) *)
Definition ttl_expired (m : OutputPayload) (currentTime : Z) : bool :=
  match ttlExpiresAt m with Some t => t <=? currentTime | None => false end.

(** Move one message out of its queue [qk] into the concurrency set [ck] and the
    environment's set, dropping its TTL entry. *)
Definition take_message (K : rq_keys) (qk ck queueName messageId : string) (m : OutputPayload)
    (s : db) : db :=
  let s := ZREM qk messageId s in
  let s := ZREM (envQueueKey K) messageId s in
  let s := SADD ck messageId s in
  let s := SADD (envCurrentConcurrencyKey K) messageId s in
  if negb (bool_decide (ttlQueueKey K = "")) && bool_decide (is_Some (ttlExpiresAt m)) then
    ZREM (ttlQueueKey K) (ttl_member queueName messageId (orgId m)) s
  else s.

(** Drop a message (expired or without payload) from its queue. *)
Definition drop_message (K : rq_keys) (qk messageId : string) (s : db) : db :=
  ZREM (envQueueKey K) messageId (ZREM qk messageId s).

(** The body of the [for] loop; [None] in the outcome when the message was not
    handed out. *)
Definition dequeue_one (K : rq_keys) (qk ck queueName : string) (currentTime : Z)
    (messageId : string) (messageScore : Z) (s : db) : outcome lua_error (option dequeued) * db :=
  match GET (messageKeyPrefix K +:+ messageId) s with
  | Some messagePayload =>
      match cjson_decode messagePayload with
      | None => (Err CannotDecode, s)
      | Some m =>
          if ttl_expired m currentTime then (Ok None, drop_message K qk messageId s)
          else (Ok (Some (messageId, messageScore, m)),
                take_message K qk ck queueName messageId m s)
      end
  | None => (Ok None, drop_message K qk messageId s)
  end.

Fixpoint dequeue_loop (K : rq_keys) (queueName : string) (currentTime : Z)
    (messages : list (string * Z)) (results : list dequeued) (s : db)
    : outcome lua_error (list dequeued) * db :=
  match messages with
  | [] => (Ok results, s)
  | (messageId, messageScore) :: messages =>
      match dequeue_one K (queueKey K) (queueCurrentConcurrencyKey K) queueName currentTime
              messageId messageScore s with
      | (Err e, s) => (Err e, s)
      | (Ok None, s) => dequeue_loop K queueName currentTime messages results s
      | (Ok (Some d), s) => dequeue_loop K queueName currentTime messages (results ++ [d]) s
      end
  end.

(** How many messages may be taken: [None] when a limit does not parse,
    [Some None] when the script returns [nil] before touching the queue. *)
Definition dequeue_capacity (K : rq_keys) (dLimit : Z) (dBurst : spec_float) (maxCount : Z)
    (s : db) : option (option Z) :=
  let envCurrentConcurrency := SCARD (envCurrentConcurrencyKey K) s in
  '(envConcurrencyLimit, envConcurrencyLimitWithBurstFactor) ← env_limits K dLimit dBurst s;
  if envConcurrencyLimitWithBurstFactor <=? envCurrentConcurrency then Some None
  else
    let queueCurrentConcurrency := SCARD (queueCurrentConcurrencyKey K) s in
    totalQueueConcurrencyLimit ← queue_limit K envConcurrencyLimit s;
    if totalQueueConcurrencyLimit <=? queueCurrentConcurrency then Some None
    else
      let envAvailableCapacity := envConcurrencyLimitWithBurstFactor - envCurrentConcurrency in
      let queueAvailableCapacity := totalQueueConcurrencyLimit - queueCurrentConcurrency in
      let actualMaxCount := Z.min maxCount (Z.min envAvailableCapacity queueAvailableCapacity) in
      if actualMaxCount <=? 0 then Some None else Some (Some actualMaxCount).

Definition dequeueMessagesFromQueue (K : rq_keys) (queueName : string) (currentTime dLimit : Z)
    (dBurst : spec_float) (maxCount : Z) (s : db)
    : outcome lua_error (option (list dequeued)) * db :=
  match dequeue_capacity K dLimit dBurst maxCount s with
  | None => (Err NotANumber, s)
  | Some None => (Ok None, s)
  | Some (Some actualMaxCount) =>
      match ZRANGEBYSCORE (queueKey K) currentTime actualMaxCount s with
      | [] => (Ok None, s)
      | messages =>
          match dequeue_loop K queueName currentTime messages [] s with
          | (Err e, s) => (Err e, s)
          | (Ok results, s) =>
              (Ok (Some results), rebalance (masterQueueKey K) (queueKey K) queueName s)
          end
      end
  end.

(** ** Dequeue from a concurrency-keyed queue *)

(** One sub-queue of the index: at most one message is taken, then the index
    entry of the sub-queue is rebalanced. *)
Definition dequeue_ck_one (K : rq_keys) (keyPrefix : string) (currentTime queueConcurrencyLimit : Z)
    (ckQueueName : string) (s : db) : outcome lua_error (option dequeued) * db :=
  let fullQueueKey := keyPrefix +:+ ckQueueName in
  let ckConcurrencyKey := fullQueueKey +:+ ":currentConcurrency" in
  let ckCurrentConcurrency := SCARD ckConcurrencyKey s in
  if ckCurrentConcurrency <? queueConcurrencyLimit then
    match ZRANGEBYSCORE fullQueueKey currentTime 1 s with
    | (messageId, messageScore) :: _ =>
        match dequeue_one K fullQueueKey ckConcurrencyKey ckQueueName currentTime
                messageId messageScore s with
        | (Err e, s) => (Err e, s)
        | (Ok r, s) => (Ok r, rebalance (ckIndexKey K) fullQueueKey ckQueueName s)
        end
    | [] => (Ok None, rebalance (ckIndexKey K) fullQueueKey ckQueueName s)
    end
  else (Ok None, s).

Fixpoint dequeue_ck_loop (K : rq_keys) (keyPrefix : string)
    (currentTime queueConcurrencyLimit actualMaxCount : Z) (ckQueues : list string)
    (results : list dequeued) (s : db) : outcome lua_error (list dequeued) * db :=
  match ckQueues with
  | [] => (Ok results, s)
  | ckQueueName :: ckQueues =>
      if actualMaxCount <=? Z.of_nat (length results) then (Ok results, s)
      else
        match dequeue_ck_one K keyPrefix currentTime queueConcurrencyLimit ckQueueName s with
        | (Err e, s) => (Err e, s)
        | (Ok None, s) =>
            dequeue_ck_loop K keyPrefix currentTime queueConcurrencyLimit actualMaxCount
              ckQueues results s
        | (Ok (Some d), s) =>
            dequeue_ck_loop K keyPrefix currentTime queueConcurrencyLimit actualMaxCount
              ckQueues (results ++ [d]) s
        end
  end.

Definition dequeueMessagesFromCkQueue (K : rq_keys) (ckWildcardName : string)
    (currentTime dLimit : Z) (dBurst : spec_float) (keyPrefix : string) (maxCount : Z) (s : db)
    : outcome lua_error (option (list dequeued)) * db :=
  let envCurrentConcurrency := SCARD (envCurrentConcurrencyKey K) s in
  match env_limits K dLimit dBurst s with
  | None => (Err NotANumber, s)
  | Some (envConcurrencyLimit, envConcurrencyLimitWithBurstFactor) =>
      if envConcurrencyLimitWithBurstFactor <=? envCurrentConcurrency then (Ok None, s)
      else
        match queue_limit K envConcurrencyLimit s with
        | None => (Err NotANumber, s)
        | Some queueConcurrencyLimit =>
            let envAvailableCapacity :=
              envConcurrencyLimitWithBurstFactor - envCurrentConcurrency in
            let actualMaxCount := Z.min maxCount envAvailableCapacity in
            if actualMaxCount <=? 0 then (Ok None, s)
            else
              match ZRANGEBYSCORE (ckIndexKey K) currentTime (actualMaxCount * 3) s with
              | [] => (Ok None, rebalance (masterQueueKey K) (ckIndexKey K) ckWildcardName s)
              | ckQueues =>
                  match dequeue_ck_loop K keyPrefix currentTime queueConcurrencyLimit
                          actualMaxCount ckQueues.*1 [] s with
                  | (Err e, s) => (Err e, s)
                  | (Ok results, s) =>
                      (Ok (Some results),
                       rebalance (masterQueueKey K) (ckIndexKey K) ckWildcardName s)
                  end
              end
        end
  end.

(** ** Worker queue *)

Definition dequeueMessageFromWorkerQueueNonBlocking (workerQueueKey : string) (s : db)
    : option (string * Z) * db :=
  match LALL workerQueueKey s with
  | [] => (None, s)
  | messageId :: _ =>
      let s := LPOP workerQueueKey s in
      (Some (messageId, LLEN workerQueueKey s), s)
  end.

(** [string.match(queue, "(.+):queue:")]: everything before the last ":queue:". *)
Definition match_before_queue (q : string) : option string :=
  match rcut_where (λ _, true) ":queue:" q with
  | Some (a, _) => if truthy a then Some a else None
  | None => None
  end.

Definition dequeueMessageFromKey (messageKey keyPrefix : string) (s : db)
    : outcome lua_error (option OutputPayload) * db :=
  match GET messageKey s with
  | None => (Ok None, s)
  | Some message =>
      match cjson_decode message with
      | None => (Err CannotDecode, s)
      | Some m =>
          let queueCurrentDequeuedKey := keyPrefix +:+ queue m +:+ ":currentDequeued" in
          match match_before_queue (queue m) with
          | None => (Err NilValue, s)
          | Some envPart =>
              let envCurrentDequeuedKey := keyPrefix +:+ envPart +:+ ":currentDequeued" in
              let s := SADD queueCurrentDequeuedKey (runId m) s in
              let s := SADD envCurrentDequeuedKey (runId m) s in
              (Ok (Some m), s)
          end
      end
  end.

(** ** Acknowledge, nack, dead letter *)

Definition acknowledgeMessage (K : rq_keys) (messageId messageQueueName messageKeyValue : string)
    (removeFromWorkerQueue : bool) (s : db) : db :=
  let s := DEL (messageKey K) s in
  let s := ZREM (queueKey K) messageId s in
  let s := ZREM (envQueueKey K) messageId s in
  let s := rebalance (masterQueueKey K) (queueKey K) messageQueueName s in
  let s := release K messageId s in
  if removeFromWorkerQueue then LREM (workerQueueKey K) messageKeyValue s else s.

Definition nackMessage (K : rq_keys) (messageId messageQueueName : string)
    (messageData : rq_value) (messageScore : Z) (s : db) : db :=
  let s := SET (messageKey K) messageData s in
  let s := release K messageId s in
  let s := ZADD (queueKey K) messageScore messageId s in
  let s := ZADD (envQueueKey K) messageScore messageId s in
  rebalance (masterQueueKey K) (queueKey K) messageQueueName s.

Definition moveToDeadLetterQueue (K : rq_keys) (messageId messageQueueName : string) (s : db) : db :=
  let s := ZREM (queueKey K) messageId s in
  let s := ZREM (envQueueKey K) messageId s in
  let s := rebalance (masterQueueKey K) (queueKey K) messageQueueName s in
  let s := ZADD (deadLetterQueueKey K) (TIME s).1 messageId s in
  release K messageId s.

Definition acknowledgeMessageCk (K : rq_keys) (messageId messageQueueName messageKeyValue : string)
    (removeFromWorkerQueue : bool) (ckWildcardName : string) (s : db) : db :=
  let s := DEL (messageKey K) s in
  let s := ZREM (queueKey K) messageId s in
  let s := ZREM (envQueueKey K) messageId s in
  let s := rebalance (ckIndexKey K) (queueKey K) messageQueueName s in
  let s := rebalance (masterQueueKey K) (ckIndexKey K) ckWildcardName s in
  let s := ZREM (masterQueueKey K) messageQueueName s in
  let s := release K messageId s in
  if removeFromWorkerQueue then LREM (workerQueueKey K) messageKeyValue s else s.

Definition nackMessageCk (K : rq_keys) (messageId messageQueueName : string)
    (messageData : rq_value) (messageScore : Z) (ckWildcardName : string) (s : db) : db :=
  let s := SET (messageKey K) messageData s in
  let s := release K messageId s in
  let s := ZADD (queueKey K) messageScore messageId s in
  let s := ZADD (envQueueKey K) messageScore messageId s in
  let s := rebalance_add (ckIndexKey K) (queueKey K) messageQueueName s in
  let s := rebalance (masterQueueKey K) (ckIndexKey K) ckWildcardName s in
  ZREM (masterQueueKey K) messageQueueName s.

Definition moveToDeadLetterQueueCk (K : rq_keys) (messageId messageQueueName ckWildcardName : string)
    (s : db) : db :=
  let s := ZREM (queueKey K) messageId s in
  let s := ZREM (envQueueKey K) messageId s in
  let s := rebalance (ckIndexKey K) (queueKey K) messageQueueName s in
  let s := rebalance (masterQueueKey K) (ckIndexKey K) ckWildcardName s in
  let s := ZREM (masterQueueKey K) messageQueueName s in
  let s := ZADD (deadLetterQueueKey K) (TIME s).1 messageId s in
  release K messageId s.

Definition releaseConcurrency
    (queueCurrentConcurrencyKey envCurrentConcurrencyKey queueCurrentDequeuedKey
     envCurrentDequeuedKey messageId : string) (s : db) : db :=
  let s := SREM queueCurrentConcurrencyKey messageId s in
  let s := SREM envCurrentConcurrencyKey messageId s in
  let s := SREM queueCurrentDequeuedKey messageId s in
  SREM envCurrentDequeuedKey messageId s.

Definition clearMessageFromConcurrencySets
    (queueCurrentConcurrencyKey envCurrentConcurrencyKey queueCurrentDequeuedKey
     envCurrentDequeuedKey messageId : string) (s : db) : db :=
  let s := SREM queueCurrentConcurrencyKey messageId s in
  let s := SREM envCurrentConcurrencyKey messageId s in
  let s := SREM queueCurrentDequeuedKey messageId s in
  SREM envCurrentDequeuedKey messageId s.

Definition updateEnvironmentConcurrencyLimits
    (envConcurrencyLimitKey envConcurrencyLimitBurstFactorKey : string) (envConcurrencyLimit : Z)
    (envConcurrencyLimitBurstFactor : spec_float) (s : db) : db :=
  let s := SET envConcurrencyLimitKey (VNumber envConcurrencyLimit) s in
  SET envConcurrencyLimitBurstFactorKey (VFactor envConcurrencyLimitBurstFactor) s.

(** [migrateLegacyMasterQueues]: rebalance a list of queues. *)
Definition migrateLegacyMasterQueues (masterQueueKey keyPrefix : string) (queueNames : list string)
    (s : db) : db :=
  foldl (λ s queueName, rebalance masterQueueKey (keyPrefix +:+ queueName) queueName s) s queueNames.

(** ** Runs marked for acknowledgement *)

Definition markCompletedRunsForAck (markedForAckKey : string) (runs : list (string * string))
    (s : db) : Z * db :=
  let currentTime := (TIME s).1 * 1000 in
  (Z.of_nat (length runs),
   foldl (λ s '(org, messageId),
            ZADD markedForAckKey currentTime (org +:+ ":" +:+ messageId) s) s runs).

(** One marked member "orgId:messageId" with its score. *)
Definition parse_marked (p : string * Z) : option (string * string * Z) :=
  '(org, messageId) ← cut ":" p.1;
  Some (org, messageId, p.2).

Definition getMarkedRunsForAck (markedForAckKey : string) (maxCount : Z) (s : db)
    : list (string * string * Z) * db :=
  let markedRuns := ZRANGE markedForAckKey (maxCount - 1) s in
  let results := omap parse_marked markedRuns in
  match results with
  | [] => (results, s)
  | _ => (results, foldl (λ s p, ZREM markedForAckKey p.1 s) s markedRuns)
  end.

(** ** TTL expiry *)

(** [string.match(q, ":env:([^:]+)")]. *)
Definition match_env (q : string) : option string :=
  '(_, r) ← cut_where (λ r, truthy (run_without ":" r)) ":env:" q;
  Some (run_without ":" r).

(** Does [[^:]+] followed by ":env:" match here? *)
Definition id_then_env (r : string) : bool :=
  let id := run_without ":" r in truthy id && starts_with (id +:+ ":env:") r.

(** [string.match(q, ":proj:([^:]+):env:")]. *)
Definition match_proj (q : string) : option string :=
  '(_, r) ← cut_where id_then_env ":proj:" q;
  Some (run_without ":" r).

(** [string.match(q, "^(.+):ck:.+$")]: everything before the last ":ck:". *)
Definition match_ck_base (q : string) : option string :=
  match rcut_where truthy ":ck:" q with
  | Some (a, _) => if truthy a then Some a else None
  | None => None
  end.

(** [string.find(q, "{org:", 1, true)], [string.find(q, "}", ...)] and the
    [string.sub] between them. *)
Definition org_from_queue (q : string) : option string :=
  '(_, r) ← cut "{org:" q;
  '(org, _) ← cut "}" r;
  Some org.

(** The member format "queueKey|runId|orgId". *)
Definition parse_ttl_member (member : string) : option (string * string * string) :=
  '(rawQueueKey, r) ← cut "|" member;
  '(run, org) ← cut "|" r;
  Some (rawQueueKey, run, org).

(** The body of the loop for one parsed member. *)
Definition expire_one (ttlQueueKey keyPrefix workerQueueKey workerItemsKey : string)
    (visibilityTimeoutMs nowMs : Z) (member rawQueueKey run org : string) (s : db)
    : outcome lua_error unit * db :=
  let queueKey := keyPrefix +:+ rawQueueKey in
  let s := ZREM ttlQueueKey member s in
  match org_from_queue rawQueueKey with
  | None => (Err NilValue, s)
  | Some orgFromQueue =>
      let messageKey := keyPrefix +:+ "{org:" +:+ orgFromQueue +:+ "}:message:" +:+ run in
      let s := DEL messageKey s in
      let s := ZREM queueKey run s in
      let envMatch := match_env rawQueueKey in
      let s :=
        match envMatch with
        | Some envId => ZREM (keyPrefix +:+ "{org:" +:+ orgFromQueue +:+ "}:env:" +:+ envId) run s
        | None => s
        end in
      let concurrencyKey := queueKey +:+ ":currentConcurrency" in
      let dequeuedKey := queueKey +:+ ":currentDequeued" in
      let s := SREM concurrencyKey run s in
      let s := SREM dequeuedKey run s in
      let projMatch := match_proj rawQueueKey in
      let envBase :=
        keyPrefix +:+ "{org:" +:+ orgFromQueue +:+ "}:proj:" +:+ default "" projMatch
        +:+ ":env:" +:+ default "" envMatch in
      let s := SREM (envBase +:+ ":currentConcurrency") run s in
      let s := SREM (envBase +:+ ":currentDequeued") run s in
      let s :=
        match match_ck_base rawQueueKey with
        | Some ckMatch => rebalance (keyPrefix +:+ ckMatch +:+ ":ckIndex") queueKey rawQueueKey s
        | None => s
        end in
      let s := ZADD workerQueueKey nowMs run s in
      (Ok tt, HSET workerItemsKey run (VExpireJob run org rawQueueKey visibilityTimeoutMs 0) s)
  end.

Fixpoint expire_loop (ttlQueueKey keyPrefix workerQueueKey workerItemsKey : string)
    (visibilityTimeoutMs nowMs : Z) (members results : list string) (s : db)
    : outcome lua_error (list string) * db :=
  match members with
  | [] => (Ok results, s)
  | member :: members =>
      match parse_ttl_member member with
      | None =>
          expire_loop ttlQueueKey keyPrefix workerQueueKey workerItemsKey visibilityTimeoutMs
            nowMs members results s
      | Some (rawQueueKey, run, org) =>
          match expire_one ttlQueueKey keyPrefix workerQueueKey workerItemsKey
                  visibilityTimeoutMs nowMs member rawQueueKey run org s with
          | (Err e, s) => (Err e, s)
          | (Ok _, s) =>
              expire_loop ttlQueueKey keyPrefix workerQueueKey workerItemsKey
                visibilityTimeoutMs nowMs members (results ++ [member]) s
          end
      end
  end.

Definition expireTtlRuns (ttlQueueKey keyPrefix : string) (currentTime batchSize : Z)
    (workerQueueKey workerItemsKey : string) (visibilityTimeoutMs : Z) (s : db)
    : outcome lua_error (list string) * db :=
  match ZRANGEBYSCORE ttlQueueKey currentTime batchSize s with
  | [] => (Ok [], s)
  | expiredMembers =>
      let time := TIME s in
      let nowMs := time.1 * 1000 + time.2 / 1000 in
      expire_loop ttlQueueKey keyPrefix workerQueueKey workerItemsKey visibilityTimeoutMs nowMs
        expiredMembers.*1 [] s
  end.

End Scripts.
