(* ===== verification/ScriptFacts.v ===== *)
(** * ScriptFacts: what the shared fragments and loops of the scripts do

    View equations for [rebalance], [release], the fast and the slow path, the
    dequeue loops; they extend the [redis] rewrite database, so that the views of
    a database after a whole script are computed by [redis_simpl]. *)

From Stdlib Require Import SpecFloat.
From S2P Require Import Prelude Text Redis Listing Messages Scripts.
Local Open Scope Z_scope.

(** The keys of one type are different keys. *)
Record keys_ok (K : rq_keys) : Prop := KeysOk {
  zset_keys : NoDup [masterQueueKey K; queueKey K; envQueueKey K; ttlQueueKey K;
                     ckIndexKey K; deadLetterQueueKey K];
  set_keys : NoDup [queueCurrentConcurrencyKey K; envCurrentConcurrencyKey K;
                    queueCurrentDequeuedKey K; envCurrentDequeuedKey K];
  string_keys : NoDup [messageKey K; queueConcurrencyLimitKey K; envConcurrencyLimitKey K;
                       envConcurrencyLimitBurstFactorKey K];
}.

(** Bring the pairwise inequalities of [keys_ok] into the context. *)
Ltac keys_distinct :=
  repeat match goal with
  | H : keys_ok _ |- _ => destruct H
  | H : NoDup (_ :: _) |- _ =>
      apply NoDup_cons in H; let H' := fresh in destruct H as [H' H]
  | H : _ ∉ (_ :: _) |- _ => apply not_elem_of_cons in H; let H' := fresh in destruct H as [H' H]
  | H : NoDup [] |- _ => clear H
  | H : _ ∉ [] |- _ => clear H
  end.

Section Facts.
Context {db : Type} {R : Redis rq_value db} {L : RedisLaws R}.
Implicit Types (K : rq_keys) (s : db).

(** ** Removing a message from a list of sets *)

Definition srem_all (ks : list string) (m : string) (s : db) : db := foldr (λ k, SREM k m) s ks.

Lemma GET_srem_all k ks m s : GET k (srem_all ks m s) = GET k s.
Proof. induction ks as [|k' ks IH]; simpl; [done|]. by redis_simpl. Qed.
Lemma ZALL_srem_all k ks m s : ZALL k (srem_all ks m s) = ZALL k s.
Proof. induction ks as [|k' ks IH]; simpl; [done|]. by redis_simpl. Qed.
Lemma LALL_srem_all k ks m s : LALL k (srem_all ks m s) = LALL k s.
Proof. induction ks as [|k' ks IH]; simpl; [done|]. by redis_simpl. Qed.
Lemma HALL_srem_all k ks m s : HALL k (srem_all ks m s) = HALL k s.
Proof. induction ks as [|k' ks IH]; simpl; [done|]. by redis_simpl. Qed.

Lemma SMEMBERS_srem_all k ks m s :
  SMEMBERS k (srem_all ks m s) = if decide (k ∈ ks) then SMEMBERS k s ∖ {[m]} else SMEMBERS k s.
Proof.
  induction ks as [|k' ks IH]; simpl; [done|]. redis_simpl. rewrite IH.
  destruct (decide (k' = k)) as [->|Hne].
  - rewrite (decide_True (P := k ∈ k :: ks)) by (by left). case_decide; set_solver.
  - destruct (decide (k ∈ ks)); [rewrite decide_True by set_solver|rewrite decide_False by set_solver];
      done.
Qed.

(** ** Views after [release] *)

Lemma GET_release k K m s : GET k (release K m s) = GET k s.
Proof. unfold release. by redis_simpl. Qed.
Lemma ZALL_release k K m s : ZALL k (release K m s) = ZALL k s.
Proof. unfold release. by redis_simpl. Qed.
Lemma LALL_release k K m s : LALL k (release K m s) = LALL k s.
Proof. unfold release. by redis_simpl. Qed.
Lemma HALL_release k K m s : HALL k (release K m s) = HALL k s.
Proof. unfold release. by redis_simpl. Qed.

(** The four sets the message is removed from. *)
Definition concurrency_keys (K : rq_keys) : list string :=
  [queueCurrentConcurrencyKey K; envCurrentConcurrencyKey K;
   queueCurrentDequeuedKey K; envCurrentDequeuedKey K].

Lemma SMEMBERS_release k K m s :
  SMEMBERS k (release K m s) =
  if decide (k ∈ concurrency_keys K) then SMEMBERS k s ∖ {[m]} else SMEMBERS k s.
Proof.
  change (release K m s) with (srem_all (reverse (concurrency_keys K)) m s).
  rewrite SMEMBERS_srem_all. destruct (decide (k ∈ concurrency_keys K)) as [Hk|Hk];
    [rewrite decide_True by by rewrite elem_of_reverse|
     rewrite decide_False by by rewrite elem_of_reverse]; done.
Qed.

End Facts.

#[export] Hint Rewrite @GET_srem_all @ZALL_srem_all @LALL_srem_all @HALL_srem_all
  using apply _ : redis.
#[export] Hint Rewrite @GET_release @ZALL_release @LALL_release @HALL_release
  using apply _ : redis.
