(* ===== verification/Samples.v ===== *)
(** * Samples: the concrete queue the witnesses run the scripts on

    One environment of one project, the queue "task/a", three messages: a live
    one, one with a TTL in the future, one whose TTL has passed. *)

From Stdlib Require Import SpecFloat.
From S2P Require Import Prelude Text Redis Listing Messages Scripts ScriptFacts.
Local Open Scope Z_scope.

Definition sample_keys (id : string) : rq_keys :=
  MkKeys "masterQueue:shard:0"
    "{org:o1}:proj:p1:env:e1:queue:task/a"
    ("{org:o1}:message:" +:+ id)
    "{org:o1}:proj:p1:env:e1:queue:task/a:currentConcurrency"
    "{org:o1}:proj:p1:env:e1:currentConcurrency"
    "{org:o1}:proj:p1:env:e1:queue:task/a:currentDequeued"
    "{org:o1}:proj:p1:env:e1:currentDequeued"
    "{org:o1}:env:e1"
    "ttl:shard:0"
    "{org:o1}:proj:p1:env:e1:queue:task/a:ckIndex"
    "workerQueue:main"
    "{org:o1}:proj:p1:env:e1:queue:task/a:concurrency"
    "{org:o1}:proj:p1:env:e1:concurrency"
    "{org:o1}:proj:p1:env:e1:concurrencyBurstFactor"
    "{org:o1}:proj:p1:env:e1:deadLetter"
    "{org:o1}:message:".

Definition sample_queue : string := "{org:o1}:proj:p1:env:e1:queue:task/a".

Definition sample_message (id : string) (score : Z) (ttl : option Z) : OutputPayload :=
  MkOutputPayload
    (MkInputPayload id "task/a" "o1" "p1" "e1" PRODUCTION sample_queue None score 0 ttl)
    (Version2 "main").

Definition sample_burst : spec_float := double_of_Z 1.

(** Enqueue a sample message by the script, fast path off. *)
Definition sample_enqueue (id : string) (score : Z) (ttl : option Z) (s : mem rq_value)
    : mem rq_value :=
  (enqueueMessage (sample_keys id) sample_queue id (VMessage (sample_message id score ttl)) score
     ("{org:o1}:message:" +:+ id) 10 sample_burst 100 false s).2.

(** Three queued messages; the environment may run two at a time. *)
Definition sample_db : mem rq_value :=
  sample_enqueue "c" 30 (Some 40)
    (sample_enqueue "b" 20 (Some 500)
       (sample_enqueue "a" 10 None
          (SET "{org:o1}:proj:p1:env:e1:concurrency" (VNumber 2) (mem_empty (1700000000, 0))))).

Lemma sample_keys_ok : keys_ok (sample_keys "a").
Proof. split; apply (bool_decide_unpack _); vm_compute; exact I. Qed.
