(* ===== verification/Dequeue.v ===== *)
(** * Dequeue: what one run of the dequeue scripts does

    [moved] describes the effect of a dequeue on every view of the database: the
    inspected messages leave their queue and the environment queue, the ones
    handed out enter the two concurrency sets and lose their TTL entry, nothing
    else changes.  [live] is the specification of which messages are handed out. *)

From Stdlib Require Import SpecFloat.
From S2P Require Import Prelude Text Redis Listing Messages Scripts ScriptFacts Samples.
Local Open Scope Z_scope.

(** The id of a message handed out. *)
Definition dq_id (d : dequeued) : string := d.1.1.

(** The TTL entries of the messages handed out. *)
Definition ttl_members (K : rq_keys) (queueName : string) (ds : list dequeued) : list string :=
  if decide (ttlQueueKey K = "") then []
  else omap (λ d : dequeued,
         ttlExpiresAt d.2 ≫= λ _, Some (ttl_member queueName (dq_id d) (orgId d.2))) ds.

(** The effect of inspecting [ids] in the queue [qk] and handing out [ds]. *)
Record moved `{Redis rq_value db} (K : rq_keys) (qk ck queueName : string) (ids : list string)
    (ds : list dequeued) (s s' : db) : Prop := Moved {
  moved_get k : GET k s' = GET k s;
  moved_list k : LALL k s' = LALL k s;
  moved_hash k : HALL k s' = HALL k s;
  moved_queue m : ZALL qk s' !! m = if decide (m ∈ ids) then None else ZALL qk s !! m;
  moved_env m : ZALL (envQueueKey K) s' !! m =
    if decide (m ∈ ids) then None else ZALL (envQueueKey K) s !! m;
  moved_ttl m : ZALL (ttlQueueKey K) s' !! m =
    if decide (m ∈ ttl_members K queueName ds) then None else ZALL (ttlQueueKey K) s !! m;
  moved_ck : SMEMBERS ck s' = SMEMBERS ck s ∪ list_to_set (dq_id <$> ds);
  moved_envcc : SMEMBERS (envCurrentConcurrencyKey K) s' =
    SMEMBERS (envCurrentConcurrencyKey K) s ∪ list_to_set (dq_id <$> ds);
  moved_zsets k : k ≠ qk → k ≠ envQueueKey K → k ≠ ttlQueueKey K → ZALL k s' = ZALL k s;
  moved_sets k : k ≠ ck → k ≠ envCurrentConcurrencyKey K → SMEMBERS k s' = SMEMBERS k s;
}.

(** The payload of [messageId] if it is to be handed out at [currentTime]. *)
Definition live `{Redis rq_value db} (K : rq_keys) (currentTime : Z) (s : db)
    (messageId : string) : option OutputPayload :=
  v ← GET (messageKeyPrefix K +:+ messageId) s;
  m ← cjson_decode v;
  if ttl_expired m currentTime then None else Some m.

(** What the dequeue of the messages [msgs] hands out. *)
Definition handed_out `{Redis rq_value db} (K : rq_keys) (currentTime : Z) (s : db)
    (msgs : list (string * Z)) : list dequeued :=
  omap (λ p, m ← live K currentTime s p.1; Some (p.1, p.2, m)) msgs.

(** No payload in the way of the script is corrupt. *)
Definition decodable `{Redis rq_value db} (K : rq_keys) (s : db) (msgs : list (string * Z)) : bool :=
  forallb (λ p, match GET (messageKeyPrefix K +:+ p.1) s with
                | Some v => bool_decide (is_Some (cjson_decode v))
                | None => true
                end) msgs.

Section Dequeue.
Context {db : Type} {R : Redis rq_value db} {L : RedisLaws R}.
Implicit Types (K : rq_keys) (s : db).

(** Removing two groups is removing both. *)
Lemma gone_app {A} (m : string) (ids ids' : list string) (x : option A) :
  (if decide (m ∈ ids') then None else if decide (m ∈ ids) then None else x) =
  if decide (m ∈ ids ++ ids') then None else x.
Proof.
  destruct (decide (m ∈ ids')), (decide (m ∈ ids)); destruct (decide (m ∈ ids ++ ids')) as [Hm|Hm];
    rewrite elem_of_app in Hm; tauto.
Qed.

Lemma gone_one (z : gmap string Z) (m n : string) :
  delete n z !! m = if decide (m ∈ [n]) then None else z !! m.
Proof.
  rewrite lookup_delete. destruct (decide (n = m)) as [->|];
    [rewrite decide_True|rewrite decide_False]; rewrite ?list_elem_of_singleton; done.
Qed.

Lemma moved_refl K qk ck qn s : moved K qk ck qn [] [] s s.
Proof.
  split; intros; rewrite ?decide_False by (try apply not_elem_of_nil; unfold ttl_members;
    case_decide; set_solver); simpl; try done; set_solver.
Qed.

Lemma ttl_members_app K qn ds ds' :
  ttl_members K qn (ds ++ ds') = ttl_members K qn ds ++ ttl_members K qn ds'.
Proof. unfold ttl_members. case_decide; [done|]. apply omap_app. Qed.

Lemma moved_trans K qk ck qn ids ids' ds ds' s s' s'' :
  moved K qk ck qn ids ds s s' → moved K qk ck qn ids' ds' s' s'' →
  moved K qk ck qn (ids ++ ids') (ds ++ ds') s s''.
Proof.
  intros [g l h q e t c ec zs ss] [g' l' h' q' e' t' c' ec' zs' ss'].
  split; intros; rewrite ?ttl_members_app, ?fmap_app, ?list_to_set_app_L.
  - by rewrite g'.
  - by rewrite l'.
  - by rewrite h'.
  - by rewrite q', q, gone_app.
  - by rewrite e', e, gone_app.
  - by rewrite t', t, gone_app.
  - by rewrite c', c, (assoc_L (∪)).
  - by rewrite ec', ec, (assoc_L (∪)).
  - by rewrite zs', zs.
  - by rewrite ss', ss.
Qed.

(** The distinctness a dequeue from [qk] with the set [ck] relies on. *)
Record dequeue_keys (K : rq_keys) (qk ck : string) : Prop := DequeueKeys {
  dk_env : qk ≠ envQueueKey K;
  dk_ttl : qk ≠ ttlQueueKey K;
  dk_env_ttl : envQueueKey K ≠ ttlQueueKey K;
  dk_cc : ck ≠ envCurrentConcurrencyKey K;
}.

Lemma ttl_members_one K qn id x m :
  ttl_members K qn [(id, x, m)] =
  if negb (bool_decide (ttlQueueKey K = "")) && bool_decide (is_Some (ttlExpiresAt m))
  then [ttl_member qn id (orgId m)] else [].
Proof.
  unfold ttl_members. case_decide; simpl.
  - by rewrite bool_decide_true.
  - rewrite bool_decide_false by done. by destruct (ttlExpiresAt m).
Qed.

Lemma take_message_moved K qk ck qn id x m s :
  dequeue_keys K qk ck →
  moved K qk ck qn [id] [(id, x, m)] s (take_message K qk ck qn id m s).
Proof.
  intros [?? ? ?]. unfold take_message. split; intros; rewrite ?ttl_members_one;
    destruct (negb _ && _); redis_simpl; simpl; rewrite ?gone_one; try done.
  all: unfold dq_id; simpl; by rewrite (right_id_L ∅ (∪)), (comm_L (∪)).
Qed.

Lemma drop_message_moved K qk ck qn id s :
  dequeue_keys K qk ck → moved K qk ck qn [id] [] s (drop_message K qk id s).
Proof.
  intros [?? ? ?]. unfold drop_message. assert (ttl_members K qn [] = []) as Ht.
  { unfold ttl_members. by case_decide. }
  split; intros; rewrite ?Ht; redis_simpl; simpl; rewrite ?gone_one, ?(right_id_L ∅ (∪)); done.
Qed.

(** One iteration: what is handed out is the live payload; on an error nothing
    has changed. *)
Lemma dequeue_one_spec K qk ck qn ct id x s r s' :
  dequeue_keys K qk ck → dequeue_one K qk ck qn ct id x s = (r, s') →
  match r with
  | Ok o => o = (m ← live K ct s id; Some (id, x, m)) ∧ moved K qk ck qn [id] (option_list o) s s'
  | Err _ => s' = s
  end.
Proof.
  intros Hk. unfold dequeue_one, live.
  destruct (GET _ s) as [v|]; simpl;
    [|intros [= <- <-]; split; [done|by apply drop_message_moved]].
  destruct (cjson_decode v) as [m|]; simpl; [|by intros [= <- <-]].
  destruct (ttl_expired m ct); intros [= <- <-]; split; try done;
    [by apply drop_message_moved|by apply take_message_moved].
Qed.

Lemma live_moved K qk ck qn ids ds ct s s' id :
  moved K qk ck qn ids ds s s' → live K ct s' id = live K ct s id.
Proof. intros H. unfold live. by rewrite (moved_get _ _ _ _ _ _ _ _ H). Qed.

Lemma handed_out_cons K ct s p msgs :
  handed_out K ct s (p :: msgs) =
  option_list (m ← live K ct s p.1; Some (p.1, p.2, m)) ++ handed_out K ct s msgs.
Proof. unfold handed_out. simpl. by destruct (live K ct s p.1). Qed.

Lemma handed_out_moved K qk ck qn ids ds ct s s' msgs :
  moved K qk ck qn ids ds s s' → handed_out K ct s' msgs = handed_out K ct s msgs.
Proof.
  intros H. induction msgs as [|p msgs IH]; [done|].
  by rewrite !handed_out_cons, IH, (live_moved _ _ _ _ _ _ _ _ _ _ H).
Qed.

(** The loop, also when a corrupt payload stops it half-way: the messages
    inspected before it ([done_]) are moved. *)
Lemma dequeue_loop_spec K qn ct msgs res s r s' :
  dequeue_keys K (queueKey K) (queueCurrentConcurrencyKey K) →
  dequeue_loop K qn ct msgs res s = (r, s') →
  ∃ done_ todo, msgs = done_ ++ todo ∧
    moved K (queueKey K) (queueCurrentConcurrencyKey K) qn done_.*1
      (handed_out K ct s done_) s s' ∧
    match r with
    | Ok res' => todo = [] ∧ res' = res ++ handed_out K ct s msgs
    | Err e => e = CannotDecode ∧ ∃ p, head todo = Some p ∧ decodable K s [p] = false
    end.
Proof.
  intros Hk. revert res s. induction msgs as [|[id x] msgs IH]; intros res s; cbn [dequeue_loop].
  - intros [= <- <-]. exists [], []. split; [done|]. split; [apply moved_refl|].
    unfold handed_out; simpl. by rewrite (right_id_L [] (++)).
  - destruct (dequeue_one _ _ _ _ _ _ _ _) as [[o|e] s1] eqn:E.
    + pose proof (dequeue_one_spec _ _ _ _ _ _ _ _ _ _ Hk E) as [-> Hm].
      intros Hl.
      assert (∃ res1, dequeue_loop K qn ct msgs res1 s1 = (r, s') ∧
        res1 = res ++ option_list (m ← live K ct s id; Some (id, x, m))) as (res1 & Hl1 & ->).
      { destruct (live K ct s id); simpl in *; eexists; split; try done.
        by rewrite (right_id_L [] (++)). }
      destruct (IH _ _ Hl1) as (d & t & -> & Hm' & Hr). exists ((id, x) :: d), t.
      rewrite (handed_out_moved _ _ _ _ _ _ _ _ _ _ Hm) in Hm'.
      split; [done|]. split.
      { rewrite handed_out_cons. exact (moved_trans _ _ _ _ _ _ _ _ _ _ _ Hm Hm'). }
      destruct r as [res'|e].
      * destruct Hr as [-> ->]. split; [done|].
        by rewrite handed_out_cons, (handed_out_moved _ _ _ _ _ _ _ _ _ _ Hm), (assoc_L (++)).
      * destruct Hr as (-> & p & Hp & Hd). split; [done|]. exists p. split; [done|].
        unfold decodable in *. simpl in *. by rewrite (moved_get _ _ _ _ _ _ _ _ Hm) in Hd.
    + pose proof (dequeue_one_spec _ _ _ _ _ _ _ _ _ _ Hk E) as Hs1. simpl in Hs1. subst s1.
      intros [= <- <-]. exists [], ((id, x) :: msgs).
      split; [done|]. split; [apply moved_refl|].
      unfold dequeue_one in E. destruct (GET _ s) as [v|] eqn:Eg; [|done].
      destruct (cjson_decode v) eqn:Ed; [by destruct (ttl_expired _ _)|]. simplify_eq.
      split; [done|]. eexists. split; [done|]. unfold decodable; simpl.
      by rewrite Eg, Ed.
Qed.

(** ** Counting *)

Lemma size_list_to_set_le (l : list string) : (size (list_to_set l : gset string) ≤ length l)%nat.
Proof.
  induction l as [|a l IH]; [done|]. simpl.
  rewrite size_union_alt, size_singleton. simpl. apply le_n_S.
  etrans; [|exact IH]. apply subseteq_size. set_solver.
Qed.

Lemma size_union_list (X : gset string) (l : list string) :
  (size (X ∪ list_to_set l) ≤ size X + length l)%nat.
Proof.
  rewrite size_union_alt. apply Nat.add_le_mono_l.
  etrans; [|apply size_list_to_set_le]. apply subseteq_size. set_solver.
Qed.

Lemma length_handed_out K ct s msgs : (length (handed_out K ct s msgs) ≤ length msgs)%nat.
Proof.
  induction msgs as [|p msgs IH]; [done|]. rewrite handed_out_cons, length_app. simpl.
  destruct (live K ct s p.1); simpl; lia.
Qed.

(** The capacity computed by the script never exceeds the room left. *)
Lemma dequeue_capacity_room K dl bf mc s n :
  dequeue_capacity K dl bf mc s = Some (Some n) →
  ∃ l lb ql, env_limits K dl bf s = Some (l, lb) ∧ queue_limit K l s = Some ql ∧
    0 < n ≤ mc ∧ SCARD (envCurrentConcurrencyKey K) s + n ≤ lb ∧
    SCARD (queueCurrentConcurrencyKey K) s + n ≤ ql.
Proof.
  unfold dequeue_capacity. destruct (env_limits K dl bf s) as [[l lb]|] eqn:El; simpl; [|done].
  destruct (lb <=? _) eqn:E1; [done|].
  destruct (queue_limit K l s) as [ql|] eqn:Eq; simpl; [|done].
  destruct (ql <=? _) eqn:E2; [done|]. destruct (_ <=? 0) eqn:E3; [done|].
  intros [= <-]. exists l, lb, ql. reflect. split; [done|]. split; [done|]. lia.
Qed.

(** The database after a run that took messages. *)
Lemma dequeue_run K qn ct dl bf mc s r s' :
  dequeue_keys K (queueKey K) (queueCurrentConcurrencyKey K) →
  dequeueMessagesFromQueue K qn ct dl bf mc s = (r, s') →
  (s' = s ∧ ∀ ds, r ≠ Ok (Some ds)) ∨
  ∃ n msgs done_ todo s1, dequeue_capacity K dl bf mc s = Some (Some n) ∧
    msgs = ZRANGEBYSCORE (queueKey K) ct n s ∧ msgs ≠ [] ∧ msgs = done_ ++ todo ∧
    moved K (queueKey K) (queueCurrentConcurrencyKey K) qn done_.*1
      (handed_out K ct s done_) s s1 ∧
    ((∃ p, r = Err CannotDecode ∧ s' = s1 ∧ head todo = Some p ∧ decodable K s [p] = false) ∨
     (todo = [] ∧ r = Ok (Some (handed_out K ct s msgs)) ∧
      s' = rebalance (masterQueueKey K) (queueKey K) qn s1)).
Proof.
  intros Hk. unfold dequeueMessagesFromQueue.
  destruct (dequeue_capacity K dl bf mc s) as [[n|]|] eqn:Ec;
    [|intros [= <- <-]; left; by split..].
  destruct (ZRANGEBYSCORE (queueKey K) ct n s) as [|p msgs] eqn:Ez;
    [intros [= <- <-]; left; by split|].
  destruct (dequeue_loop _ _ _ _ _ _) as [r1 s1] eqn:El. intros Hr. right.
  destruct (dequeue_loop_spec _ _ _ _ _ _ _ _ Hk El) as (d & t & Hmsgs & Hm & Hc).
  exists n, (p :: msgs), d, t, s1. repeat (split; [done|]).
  destruct r1 as [res|e]; simplify_eq.
  - right. destruct Hc as [-> ->]. done.
  - left. destruct Hc as (-> & q & ? & ?). by exists q.
Qed.

Lemma elem_of_handed_out K ct s msgs m :
  m ∈ dq_id <$> handed_out K ct s msgs ↔ m ∈ msgs.*1 ∧ is_Some (live K ct s m).
Proof.
  induction msgs as [|[id x] msgs IH]; [simpl; set_solver|].
  rewrite handed_out_cons, fmap_app, elem_of_app, IH, fmap_cons, elem_of_cons. simpl.
  destruct (decide (m = id)) as [->|Hne].
  - destruct (live K ct s id); simpl; [unfold dq_id; simpl|]; set_solver by eauto.
  - destruct (live K ct s id); simpl; [unfold dq_id; simpl|]; set_solver.
Qed.

Lemma keys_ok_dequeue K : keys_ok K → dequeue_keys K (queueKey K) (queueCurrentConcurrencyKey K).
Proof. intros HK. keys_distinct. by split. Qed.

Lemma size_after_moved K qk ck qn ids ds s s1 :
  moved K qk ck qn ids ds s s1 →
  SCARD ck s1 ≤ SCARD ck s + Z.of_nat (length ds) ∧
  SCARD (envCurrentConcurrencyKey K) s1 ≤
    SCARD (envCurrentConcurrencyKey K) s + Z.of_nat (length ds).
Proof.
  intros Hm. unfold SCARD. rewrite (moved_ck _ _ _ _ _ _ _ _ Hm), (moved_envcc _ _ _ _ _ _ _ _ Hm).
  pose proof (size_union_list (SMEMBERS ck s) (dq_id <$> ds)).
  pose proof (size_union_list (SMEMBERS (envCurrentConcurrencyKey K) s) (dq_id <$> ds)).
  rewrite length_fmap in *. lia.
Qed.

Lemma dequeue_limits K qn ct dl bf mc s r s' l lb ql :
  keys_ok K → env_limits K dl bf s = Some (l, lb) → queue_limit K l s = Some ql →
  dequeueMessagesFromQueue K qn ct dl bf mc s = (r, s') →
  SCARD (envCurrentConcurrencyKey K) s' ≤ Z.max (SCARD (envCurrentConcurrencyKey K) s) lb ∧
  SCARD (queueCurrentConcurrencyKey K) s' ≤ Z.max (SCARD (queueCurrentConcurrencyKey K) s) ql ∧
  (∀ k, k ≠ queueCurrentConcurrencyKey K → k ≠ envCurrentConcurrencyKey K →
     SMEMBERS k s' = SMEMBERS k s).
Proof.
  intros HK Hl Hq Hd.
  destruct (dequeue_run _ _ _ _ _ _ _ _ _ (keys_ok_dequeue _ HK) Hd)
    as [[-> _]|(n & msgs & d & t & s1 & Hc & Hmsgs & _ & Happ & Hm & Hend)];
    [split_and!; done || lia|].
  destruct (dequeue_capacity_room _ _ _ _ _ _ Hc) as (l' & lb' & ql' & Hl' & Hq' & Hn & He & Hqr).
  simplify_eq. destruct (size_after_moved _ _ _ _ _ _ _ _ Hm) as [H1 H2].
  pose proof (length_handed_out K ct s d) as Hlen.
  pose proof (ZRANGEBYSCORE_length (queueKey K) ct n s ltac:(lia)) as Hz.
  rewrite Happ, length_app in Hz.
  assert (∀ k, SCARD k s' = SCARD k s1) as Hsc.
  { intros k. destruct Hend as [(?&?&->&?)|(?&?&->)]; unfold SCARD; by redis_simpl. }
  rewrite !Hsc. split; [lia|]. split; [lia|]. intros k Hk1 Hk2.
  rewrite <- (moved_sets _ _ _ _ _ _ _ _ Hm k Hk1 Hk2).
  destruct Hend as [(?&?&->&?)|(?&?&->)]; by redis_simpl.
Qed.

(** Dequeuing never takes an environment over its limit with burst, nor a
    queue over the smaller of its own and the environment's limit, also when the
    script fails half-way; a set that is already over its limit does not grow. *)
Theorem dequeue_respects_limits K qn ct dl bf mc s r s' l lb ql :
  keys_ok K → env_limits K dl bf s = Some (l, lb) → queue_limit K l s = Some ql →
  dequeueMessagesFromQueue K qn ct dl bf mc s = (r, s') →
  SCARD (envCurrentConcurrencyKey K) s' ≤ Z.max (SCARD (envCurrentConcurrencyKey K) s) lb ∧
  SCARD (queueCurrentConcurrencyKey K) s' ≤ Z.max (SCARD (queueCurrentConcurrencyKey K) s) ql.
Proof.
  intros HK Hl Hq Hd. destruct (dequeue_limits _ _ _ _ _ _ _ _ _ _ _ _ HK Hl Hq Hd) as (? & ? & _).
  done.
Qed.

(** C26. A successful dequeue hands out exactly the live messages among those due
    (payload present, TTL not passed), in the order of their scores and at most
    as many as there is room for; the inspected messages leave the queue and the
    environment queue, the ones handed out are in both concurrency sets and have
    no TTL entry left, and the master queue holds the queue under its new earliest
    score.  The only error is a payload that does not decode. *)
Theorem dequeue_exact K qn ct dl bf mc s n :
  keys_ok K → dequeue_capacity K dl bf mc s = Some (Some n) →
  let msgs := ZRANGEBYSCORE (queueKey K) ct n s in
  msgs ≠ [] → decodable K s msgs = true →
  ∃ s1, moved K (queueKey K) (queueCurrentConcurrencyKey K) qn msgs.*1
          (handed_out K ct s msgs) s s1 ∧
    let s' := rebalance (masterQueueKey K) (queueKey K) qn s1 in
    dequeueMessagesFromQueue K qn ct dl bf mc s = (Ok (Some (handed_out K ct s msgs)), s') ∧
    parent_ok (masterQueueKey K) (queueKey K) qn s'.
Proof.
  intros HK Hc msgs Hne Hdec. pose proof (keys_ok_dequeue _ HK) as Hk.
  destruct (dequeueMessagesFromQueue K qn ct dl bf mc s) as [r s'] eqn:Hd.
  unfold dequeueMessagesFromQueue in Hd. rewrite Hc in Hd. fold msgs in Hd.
  destruct (dequeue_loop K qn ct msgs [] s) as [r1 s1] eqn:El.
  destruct (dequeue_loop_spec _ _ _ _ _ _ _ _ Hk El) as (d & t & Happ & Hm & Hr).
  destruct r1 as [res|e].
  - destruct Hr as [-> Hres]. rewrite (right_id_L [] (++)) in Happ. subst d. simpl in Hres.
    exists s1. split; [done|]. split; [destruct msgs; [done|]; rewrite El in Hd; by simplify_eq|].
    unfold parent_ok. keys_distinct. redis_simpl. by rewrite lookup_partial_alter_eq.
  - exfalso. destruct Hr as (_ & p & Hp & Hnd). unfold decodable in *.
    rewrite Happ, forallb_app in Hdec. apply andb_true_iff in Hdec as [_ Hdec].
    destruct t as [|q t]; [done|]. injection Hp as ->. simpl in *.
    rewrite andb_true_r in Hnd. by rewrite Hnd in Hdec.
Qed.

(** No live message is lost: a message that was queued is afterwards still
    queued under its score, or was handed out and holds a slot in both
    concurrency sets, or was dropped because its payload is gone or its TTL has
    passed; and exactly one of the three. *)
Theorem dequeue_conserves K qn ct dl bf mc s ds s' m x :
  keys_ok K → dequeueMessagesFromQueue K qn ct dl bf mc s = (Ok (Some ds), s') →
  ZALL (queueKey K) s !! m = Some x →
  (ZALL (queueKey K) s' !! m = Some x ∧ m ∉ dq_id <$> ds) ∨
  (ZALL (queueKey K) s' !! m = None ∧ m ∈ dq_id <$> ds ∧ is_Some (live K ct s m) ∧
   m ∈ SMEMBERS (queueCurrentConcurrencyKey K) s' ∧
   m ∈ SMEMBERS (envCurrentConcurrencyKey K) s') ∨
  (ZALL (queueKey K) s' !! m = None ∧ m ∉ dq_id <$> ds ∧ live K ct s m = None).
Proof.
  intros HK Hd Hx.
  destruct (dequeue_run _ _ _ _ _ _ _ _ _ (keys_ok_dequeue _ HK) Hd)
    as [[_ Hno]|(n & msgs & d & t & s1 & _ & _ & _ & Happ & Hm & Hend)]; [by destruct (Hno ds)|].
  destruct Hend as [(?&?&?&?)|(-> & [= ->] & ->)]; [done|].
  rewrite (right_id_L [] (++)) in Happ. subst d. keys_distinct. redis_simpl.
  rewrite (moved_queue _ _ _ _ _ _ _ _ Hm), (moved_ck _ _ _ _ _ _ _ _ Hm),
    (moved_envcc _ _ _ _ _ _ _ _ Hm), !elem_of_union, !elem_of_list_to_set, !elem_of_handed_out.
  destruct (decide (m ∈ msgs.*1)); [right|left; tauto].
  destruct (live K ct s m) as [p|]; [left; eauto 10|right].
  repeat split; try done. by intros [_ []].
Qed.

End Dequeue.

Lemma dequeue_respects_limits_witness :
  let run := dequeueMessagesFromQueue (sample_keys "a") sample_queue 100 10 sample_burst 10
               sample_db in
  SCARD (envCurrentConcurrencyKey (sample_keys "a")) run.2 ≤
    Z.max (SCARD (envCurrentConcurrencyKey (sample_keys "a")) sample_db) 2 ∧
  SCARD (queueCurrentConcurrencyKey (sample_keys "a")) run.2 ≤
    Z.max (SCARD (queueCurrentConcurrencyKey (sample_keys "a")) sample_db) 2.
Proof.
  intros run.
  apply (dequeue_respects_limits (sample_keys "a") sample_queue 100 10 sample_burst 10 sample_db
           run.1 run.2 2 2 2 sample_keys_ok); [vm_compute; reflexivity..|].
  apply surjective_pairing.
Defined.

Lemma dequeue_exact_witness :
  (dequeueMessagesFromQueue (sample_keys "a") sample_queue 100 10 sample_burst 10 sample_db).1 =
  Ok (Some [("a", 10, sample_message "a" 10 None); ("b", 20, sample_message "b" 20 (Some 500))]).
Proof.
  destruct (dequeue_exact (sample_keys "a") sample_queue 100 10 sample_burst 10 sample_db 2
              sample_keys_ok) as (s1 & _ & H & _);
    [vm_compute; reflexivity|vm_compute; discriminate|vm_compute; reflexivity|].
  rewrite H. vm_compute. reflexivity.
Defined.

Lemma dequeue_conserves_witness :
  let run := dequeueMessagesFromQueue (sample_keys "a") sample_queue 100 10 sample_burst 10
               sample_db in
  ZALL sample_queue run.2 !! "c" = Some 30 ∨ ZALL sample_queue run.2 !! "c" = None.
Proof.
  intros run.
  destruct (dequeue_conserves (sample_keys "a") sample_queue 100 10 sample_burst 10 sample_db
              [("a", 10, sample_message "a" 10 None);
               ("b", 20, sample_message "b" 20 (Some 500))] run.2 "c" 30 sample_keys_ok)
    as [[H _]|[[H _]|[H _]]]; [vm_compute; reflexivity..| | |]; auto.
Defined.
