(* ===== verification/DequeueCk.v ===== *)
(** * DequeueCk: the dequeue of a queue with concurrency keys

    The script walks the index of the base queue and takes at most one message
    from each queue of a concurrency key. *)

From Stdlib Require Import SpecFloat.
From S2P Require Import Prelude Text Redis Listing Messages Scripts ScriptFacts Samples Dequeue.
Local Open Scope Z_scope.

(** The concurrency set of the queue [name]. *)
Definition ck_set (keyPrefix name : string) : string :=
  (keyPrefix +:+ name) +:+ ":currentConcurrency".

Section DequeueCk.
Context {db : Type} {R : Redis rq_value db} {L : RedisLaws R}.
Context (K : rq_keys) (keyPrefix : string).
Implicit Types (s : db).

(** Queues of the index use other keys than the environment. *)
Definition ck_names_ok (names : list string) : Prop :=
  Forall (λ name, dequeue_keys K (keyPrefix +:+ name) (ck_set keyPrefix name)) names.

Lemma ck_set_inj n m : ck_set keyPrefix n = ck_set keyPrefix m → n = m.
Proof.
  unfold ck_set. intros H. apply string_app_inj_r in H. by apply string_app_inj in H.
Qed.

(** One queue of the index: the environment gains at most the message handed out,
    its own set too, and only when it had room; no other set changes. *)
Lemma dequeue_ck_one_sets ct ql name s r s' :
  dequeue_keys K (keyPrefix +:+ name) (ck_set keyPrefix name) →
  dequeue_ck_one K keyPrefix ct ql name s = (r, s') →
  ∃ ds : list dequeued, (length ds ≤ 1)%nat ∧
    match r with Ok o => ds = option_list o | Err _ => ds = [] end ∧
    SMEMBERS (envCurrentConcurrencyKey K) s' =
      SMEMBERS (envCurrentConcurrencyKey K) s ∪ list_to_set (dq_id <$> ds) ∧
    SMEMBERS (ck_set keyPrefix name) s' =
      SMEMBERS (ck_set keyPrefix name) s ∪ list_to_set (dq_id <$> ds) ∧
    (ds ≠ [] → SCARD (ck_set keyPrefix name) s < ql) ∧
    (∀ k, k ≠ ck_set keyPrefix name → k ≠ envCurrentConcurrencyKey K →
       SMEMBERS k s' = SMEMBERS k s).
Proof.
  intros Hk. unfold dequeue_ck_one. fold (ck_set keyPrefix name).
  destruct (_ <? ql) eqn:El; reflect;
    [|intros [= <- <-]; exists []; simpl; rewrite !(right_id_L ∅ (∪)); split_and!; done || lia].
  destruct (ZRANGEBYSCORE _ _ _ _) as [|[id x] l].
  { intros [= <- <-]. exists []. simpl. rewrite !(right_id_L ∅ (∪)).
    split_and!; try done; try lia; intros; by redis_simpl. }
  destruct (dequeue_one _ _ _ _ _ _ _ _) as [[o|e] s1] eqn:E; intros [= <- <-];
    pose proof (dequeue_one_spec _ _ _ _ _ _ _ _ _ _ Hk E) as Hs.
  - destruct Hs as [-> Hm]. exists (option_list (m ← live K ct s id; Some (id, x, m))).
    redis_simpl. destruct Hm as [_ _ _ _ _ _ Hc He _ Ho].
    split; [destruct (live K ct s id); simpl; lia|]. split; [done|]. split; [done|]. split; [done|].
    split; [done|]. intros k Hk1 Hk2. redis_simpl. by apply Ho.
  - simpl in Hs. subst s1. exists []. simpl. rewrite !(right_id_L ∅ (∪)).
    split_and!; done || lia.
Qed.

Lemma dequeue_ck_one_card ct ql name s r s' k :
  dequeue_keys K (keyPrefix +:+ name) (ck_set keyPrefix name) →
  dequeue_ck_one K keyPrefix ct ql name s = (r, s') → k ≠ envCurrentConcurrencyKey K →
  SCARD k s' ≤ SCARD k s + 1 ∧ SCARD k s' ≤ Z.max (SCARD k s) ql.
Proof.
  intros Hk E Hke.
  destruct (dequeue_ck_one_sets _ _ _ _ _ _ Hk E) as (ds & Hlen & _ & _ & Hc & Hroom & Ho).
  destruct (decide (k = ck_set keyPrefix name)) as [->|Hkn];
    [|unfold SCARD; rewrite Ho by done; lia].
  unfold SCARD in *. rewrite Hc in *. pose proof (size_union_list
    (SMEMBERS (ck_set keyPrefix name) s) (dq_id <$> ds)) as Hsz.
  rewrite length_fmap in Hsz.
  destruct ds as [|d ds]; simpl in *; [|specialize (Hroom ltac:(done))]; lia.
Qed.

(** The walk over the index. *)
Lemma dequeue_ck_loop_sets ct ql mx names res s r s' :
  ck_names_ok names → NoDup names →
  dequeue_ck_loop K keyPrefix ct ql mx names res s = (r, s') →
  ∃ ds : list dequeued,
    match r with Ok res' => res' = res ++ ds | Err _ => True end ∧
    Z.of_nat (length (res ++ ds)) ≤ Z.max (Z.of_nat (length res)) mx ∧
    SMEMBERS (envCurrentConcurrencyKey K) s' =
      SMEMBERS (envCurrentConcurrencyKey K) s ∪ list_to_set (dq_id <$> ds) ∧
    (∀ k, k ≠ envCurrentConcurrencyKey K →
       SCARD k s' ≤ SCARD k s + 1 ∧ SCARD k s' ≤ Z.max (SCARD k s) ql ∧
       (k ∉ ck_set keyPrefix <$> names → SMEMBERS k s' = SMEMBERS k s)).
Proof.
  intros Hok Hnd. revert res s. induction names as [|name names IH]; intros res s; simpl.
  { intros [= <- <-]. exists []. rewrite !(right_id_L [] (++)). simpl.
    rewrite (right_id_L ∅ (∪)). split_and!; try done; [lia|]. intros k _. split_and!; done || lia. }
  destruct (_ <=? _) eqn:Emx.
  { intros [= <- <-]. exists []. rewrite !(right_id_L [] (++)). simpl.
    rewrite (right_id_L ∅ (∪)). split_and!; try done; [lia|]. intros k _. split_and!; done || lia. }
  reflect. apply Forall_cons in Hok as [Hk Hok]. apply NoDup_cons in Hnd as [Hni Hnd].
  destruct (dequeue_ck_one _ _ _ _ _ _) as [r1 s1] eqn:E.
  destruct (dequeue_ck_one_sets _ _ _ _ _ _ Hk E) as (ds1 & Hlen & Hr1 & He & Hc & Hroom & Ho).
  pose proof (λ k Hk', dequeue_ck_one_card _ _ _ _ _ _ k Hk E Hk') as Hcard.
  destruct r1 as [o|e].
  - subst ds1. intros Hl.
    assert (dequeue_ck_loop K keyPrefix ct ql mx names (res ++ option_list o) s1 = (r, s')) as Hl1.
    { destruct o; [done|]. simpl. by rewrite (right_id_L [] (++)). }
    destruct (IH Hok Hnd _ _ Hl1) as (ds & Hr & Hle & He' & Hk').
    exists (option_list o ++ ds). rewrite (assoc_L (++)). split; [done|]. split.
    { rewrite length_app in Hle |- *. rewrite length_app in *. lia. }
    split; [by rewrite He', He, fmap_app, list_to_set_app_L, (assoc_L (∪))|].
    intros k Hke. destruct (Hk' k Hke) as (H1 & H2 & H3). destruct (Hcard k Hke) as [H4 H5].
    destruct (decide (k ∈ ck_set keyPrefix <$> names)) as [Hin|Hin].
    + assert (k ≠ ck_set keyPrefix name) as Hkn.
      { intros ->. apply list_elem_of_fmap in Hin as (n & Hn%ck_set_inj & Hin). by subst. }
      unfold SCARD in *. rewrite (Ho k Hkn Hke) in *. split_and!; try done.
      rewrite not_elem_of_cons. naive_solver.
    + specialize (H3 Hin). unfold SCARD in *. rewrite H3 in *. split_and!; try done.
      rewrite not_elem_of_cons. intros [Hkn _]. by apply Ho.
  - intros [= <- <-]. subst ds1. exists []. rewrite (right_id_L [] (++)). simpl in *.
    split_and!; try done; [lia|]. intros k Hke. destruct (Hcard k Hke). split_and!; try done.
    rewrite not_elem_of_cons. intros [Hkn _]. by apply Ho.
Qed.

Lemma dequeue_ck_limits wild ct dl bf mc s r s' l lb ql :
  keys_ok K →
  (∀ name x, ZALL (ckIndexKey K) s !! name = Some x →
     dequeue_keys K (keyPrefix +:+ name) (ck_set keyPrefix name)) →
  env_limits K dl bf s = Some (l, lb) → queue_limit K l s = Some ql →
  dequeueMessagesFromCkQueue K wild ct dl bf keyPrefix mc s = (r, s') →
  SCARD (envCurrentConcurrencyKey K) s' ≤ Z.max (SCARD (envCurrentConcurrencyKey K) s) lb ∧
  (∀ k, k ≠ envCurrentConcurrencyKey K →
     SCARD k s' ≤ SCARD k s + 1 ∧ SCARD k s' ≤ Z.max (SCARD k s) ql ∧
     ((∀ name x, ZALL (ckIndexKey K) s !! name = Some x → k ≠ ck_set keyPrefix name) →
      SMEMBERS k s' = SMEMBERS k s)) ∧
  (∀ ds, r = Ok (Some ds) →
     Z.of_nat (length ds) ≤ mc ∧ parent_ok (masterQueueKey K) (ckIndexKey K) wild s').
Proof.
  intros HK Hok Hl Hq. unfold dequeueMessagesFromCkQueue. rewrite Hl, Hq.
  destruct (lb <=? _) eqn:E1;
    [intros [= <- <-]; split_and!; try done; [lia|intros; split_and!; done || lia]|].
  destruct (_ <=? 0) eqn:E2;
    [intros [= <- <-]; split_and!; try done; [lia|intros; split_and!; done || lia]|]. reflect.
  set (n := Z.min mc (lb - SCARD (envCurrentConcurrencyKey K) s)) in *.
  assert (∀ t, SCARD (envCurrentConcurrencyKey K) (rebalance (masterQueueKey K) (ckIndexKey K) wild t)
     = SCARD (envCurrentConcurrencyKey K) t) as Hreb by (intros; unfold SCARD; by redis_simpl).
  assert (ck_names_ok (ZRANGEBYSCORE (ckIndexKey K) ct (n * 3) s).*1) as Hnames.
  { apply Forall_forall. intros name ([name' x] & -> & Hin)%list_elem_of_fmap.
    apply ZRANGEBYSCORE_elem in Hin as [Hin _]. by apply (Hok _ _ Hin). }
  assert (∀ k, (∀ name x, ZALL (ckIndexKey K) s !! name = Some x → k ≠ ck_set keyPrefix name) →
    k ∉ ck_set keyPrefix <$> (ZRANGEBYSCORE (ckIndexKey K) ct (n * 3) s).*1) as Hout.
  { intros k Hno (name & -> & ([name' x] & -> & Hin)%list_elem_of_fmap)%list_elem_of_fmap.
    apply ZRANGEBYSCORE_elem in Hin as [Hin _]. by apply (Hno _ _ Hin). }
  pose proof (ZRANGEBYSCORE_NoDup (ckIndexKey K) ct (n * 3) s) as Hnd.
  destruct (ZRANGEBYSCORE _ _ _ _) as [|p ps] eqn:Ez.
  { intros [= <- <-]. rewrite Hreb. split_and!; [lia| |done].
    intros k _. unfold SCARD. redis_simpl. split_and!; done || lia. }
  destruct (dequeue_ck_loop _ _ _ _ _ _ _ _) as [r1 s1] eqn:El.
  destruct (dequeue_ck_loop_sets _ _ _ _ _ _ _ _ Hnames Hnd El) as (ds & Hr & Hlen & He & Hk).
  assert (SCARD (envCurrentConcurrencyKey K) s1 ≤ lb) as Henv.
  { unfold SCARD in *. rewrite He. pose proof (size_union_list
      (SMEMBERS (envCurrentConcurrencyKey K) s) (dq_id <$> ds)) as Hs.
    rewrite length_fmap in Hs. simpl in Hlen. lia. }
  destruct r1 as [res|e]; intros [= <- <-].
  - rewrite Hreb. split; [lia|]. split.
    + intros k Hke. destruct (Hk k Hke) as (H1 & H2 & H3). unfold SCARD in *. redis_simpl.
      split_and!; try done. intros Hno. by apply H3, Hout.
    + intros ? [= <-]. subst res. simpl in *. split; [lia|].
      unfold parent_ok. keys_distinct. redis_simpl. by rewrite lookup_partial_alter_eq.
  - split; [lia|]. split; [|done]. intros k Hke. destruct (Hk k Hke) as (H1 & H2 & H3).
    split_and!; try done. intros Hno. by apply H3, Hout.
Qed.

(** C27. Dequeuing a queue with concurrency keys never takes the environment over
    its limit with burst, nor any queue of a key over the queue's limit, also when
    the script fails half-way; no key gets more than one message per call, the
    number of messages is at most the one asked for, and the master queue holds the
    wildcard entry under the index's earliest score. *)
Theorem dequeue_ck_respects_limits wild ct dl bf mc s r s' l lb ql :
  keys_ok K →
  (∀ name x, ZALL (ckIndexKey K) s !! name = Some x →
     dequeue_keys K (keyPrefix +:+ name) (ck_set keyPrefix name)) →
  env_limits K dl bf s = Some (l, lb) → queue_limit K l s = Some ql →
  dequeueMessagesFromCkQueue K wild ct dl bf keyPrefix mc s = (r, s') →
  SCARD (envCurrentConcurrencyKey K) s' ≤ Z.max (SCARD (envCurrentConcurrencyKey K) s) lb ∧
  (∀ k, k ≠ envCurrentConcurrencyKey K →
     SCARD k s' ≤ SCARD k s + 1 ∧ SCARD k s' ≤ Z.max (SCARD k s) ql) ∧
  (∀ ds, r = Ok (Some ds) →
     Z.of_nat (length ds) ≤ mc ∧ parent_ok (masterQueueKey K) (ckIndexKey K) wild s').
Proof.
  intros HK Hok Hl Hq Hd.
  destruct (dequeue_ck_limits _ _ _ _ _ _ _ _ _ _ _ HK Hok Hl Hq Hd) as (? & Hk & ?).
  split_and!; try done. intros k Hke. by destruct (Hk k Hke) as (? & ? & _).
Qed.

End DequeueCk.

(** ** Witness *)

(** The keys of the sample queue with the concurrency key [c]. *)
Definition sample_ck_keys (id c : string) : rq_keys :=
  let K := sample_keys id in
  MkKeys (masterQueueKey K) (queueKey K +:+ ":ck:" +:+ c) (messageKey K)
    (queueKey K +:+ ":ck:" +:+ c +:+ ":currentConcurrency") (envCurrentConcurrencyKey K)
    (queueKey K +:+ ":ck:" +:+ c +:+ ":currentDequeued") (envCurrentDequeuedKey K)
    (envQueueKey K) (ttlQueueKey K) (ckIndexKey K) (workerQueueKey K)
    (queueConcurrencyLimitKey K) (envConcurrencyLimitKey K)
    (envConcurrencyLimitBurstFactorKey K) (deadLetterQueueKey K) (messageKeyPrefix K).

Definition sample_ck_enqueue (id c : string) (score : Z) (s : mem rq_value) : mem rq_value :=
  (enqueueMessageCk (sample_ck_keys id c) (sample_queue +:+ ":ck:" +:+ c) id
     (VMessage (sample_message id score None)) score (sample_queue +:+ ":ck:*")
     ("{org:o1}:message:" +:+ id) 10 sample_burst 100 false s).2.

(** Two messages of the user "u1", one of "u2". *)
Definition sample_ck_db : mem rq_value :=
  sample_ck_enqueue "c" "u2" 30
    (sample_ck_enqueue "b" "u1" 20 (sample_ck_enqueue "a" "u1" 10 (mem_empty (1700000000, 0)))).

Lemma sample_ck_index name x :
  ZALL (ckIndexKey (sample_ck_keys "a" "u1")) sample_ck_db !! name = Some x →
  name = sample_queue +:+ ":ck:u1" ∨ name = sample_queue +:+ ":ck:u2".
Proof.
  intros Hm%elem_of_map_to_list.
  assert (map_to_list (ZALL (ckIndexKey (sample_ck_keys "a" "u1")) sample_ck_db) =
    [(sample_queue +:+ ":ck:u1", 10); (sample_queue +:+ ":ck:u2", 30)]) as El
    by (vm_compute; reflexivity).
  rewrite El, !elem_of_cons in Hm. destruct Hm as [[= -> _]|[[= -> _]|Hm]]; [by left|by right|].
  inversion Hm.
Qed.

Lemma dequeue_ck_respects_limits_witness :
  let run := dequeueMessagesFromCkQueue (sample_ck_keys "a" "u1") (sample_queue +:+ ":ck:*") 100 10
               sample_burst "" 10 sample_ck_db in
  SCARD (envCurrentConcurrencyKey (sample_keys "a")) run.2 ≤
    Z.max (SCARD (envCurrentConcurrencyKey (sample_keys "a")) sample_ck_db) 10.
Proof.
  intros run.
  refine (proj1 (dequeue_ck_respects_limits (sample_ck_keys "a" "u1") "" (sample_queue +:+ ":ck:*")
    100 10 sample_burst 10 sample_ck_db run.1 run.2 10 10 10 _ _ _ _ _)).
  - split; apply (bool_decide_unpack _); vm_compute; exact I.
  - intros name x [->| ->]%sample_ck_index; split; discriminate.
  - vm_compute. reflexivity.
  - vm_compute. reflexivity.
  - apply surjective_pairing.
Defined.
