(* ===== verification/Lifecycle.v ===== *)
(** * Lifecycle: what enqueue, acknowledge, nack and dead-lettering leave behind

    Each theorem computes the views of the database after one script; [queued],
    [idle] and [forgotten] name the situations a message can be in. *)

From Stdlib Require Import SpecFloat.
From S2P Require Import Prelude Text Redis Listing Messages Scripts ScriptFacts Samples Dequeue.
Local Open Scope Z_scope.

(** The message waits in its queue and in the environment queue. *)
Definition queued `{Redis rq_value db} (K : rq_keys) (messageId : string) (score : Z) (s : db)
    : Prop :=
  ZALL (queueKey K) s !! messageId = Some score ∧
  ZALL (envQueueKey K) s !! messageId = Some score.

(** The message is in neither queue. *)
Definition dequeued_from `{Redis rq_value db} (K : rq_keys) (messageId : string) (s : db) : Prop :=
  ZALL (queueKey K) s !! messageId = None ∧ ZALL (envQueueKey K) s !! messageId = None.

(** The message holds no concurrency slot. *)
Definition idle `{Redis rq_value db} (K : rq_keys) (messageId : string) (s : db) : Prop :=
  ∀ k, k ∈ concurrency_keys K → messageId ∉ SMEMBERS k s.

(** Nothing in the queue mentions the message any more. *)
Definition forgotten `{Redis rq_value db} (K : rq_keys) (messageId : string) (s : db) : Prop :=
  GET (messageKey K) s = None ∧ dequeued_from K messageId s ∧ idle K messageId s.

(** The levels above a queue.  Without a concurrency key the master queue holds
    the queue; with one ([ck = Some wild]) the index of the base queue holds the
    queue, the master queue holds the wildcard entry, and no entry of the older
    format is left. *)
Definition parents_ok `{Redis rq_value db} (K : rq_keys) (queueName : string)
    (ck : option string) (s : db) : Prop :=
  match ck with
  | None => parent_ok (masterQueueKey K) (queueKey K) queueName s
  | Some wild =>
      parent_ok (ckIndexKey K) (queueKey K) queueName s ∧
      parent_ok (masterQueueKey K) (ckIndexKey K) wild s ∧
      ZALL (masterQueueKey K) s !! queueName = None
  end.

(** The update of these levels that the scripts end with. *)
Definition rebalance_parents `{Redis rq_value db} (K : rq_keys) (queueName : string)
    (ck : option string) (s : db) : db :=
  match ck with
  | None => rebalance (masterQueueKey K) (queueKey K) queueName s
  | Some wild =>
      ZREM (masterQueueKey K) queueName
        (rebalance (masterQueueKey K) (ckIndexKey K) wild
           (rebalance (ckIndexKey K) (queueKey K) queueName s))
  end.

(** A wildcard entry is not the name of a queue. *)
Definition wild_ok (queueName : string) (ck : option string) : Prop :=
  ∀ wild, ck = Some wild → wild ≠ queueName.

Section Lifecycle.
Context {db : Type} {R : Redis rq_value db} {L : RedisLaws R}.
Implicit Types (K : rq_keys) (s : db).

Lemma idle_release K m s : idle K m (release K m s).
Proof. intros k Hk. rewrite SMEMBERS_release, decide_True by done. set_solver. Qed.

Lemma lookup_partial_alter_const {A} (z : gmap string A) (m : string) (x : option A) :
  partial_alter (λ _, x) m z !! m = x.
Proof. by rewrite lookup_partial_alter_eq. Qed.

Lemma size_add_one (m : string) (X : gset string) : (size ({[m]} ∪ X) ≤ S (size X))%nat.
Proof.
  rewrite size_union_alt, size_singleton. simpl. apply le_n_S, subseteq_size. set_solver.
Qed.

(** ** Enqueue *)

(** What the fast-path test guarantees. *)
Lemma fast_path_open_true K dl bf ct fast s :
  fast_path_open K dl bf ct fast s = Some true →
  (∀ m x, ZALL (queueKey K) s !! m = Some x → ct < x) ∧
  ∃ l lb ql, env_limits K dl bf s = Some (l, lb) ∧ queue_limit K l s = Some ql ∧
    SCARD (envCurrentConcurrencyKey K) s < lb ∧ SCARD (queueCurrentConcurrencyKey K) s < ql.
Proof.
  unfold fast_path_open. destruct fast; [|done].
  destruct (ZRANGEBYSCORE _ _ _ _) eqn:Ez; [|done].
  destruct (env_limits K dl bf s) as [[l lb]|] eqn:El; simpl; [|done].
  destruct (_ <? lb) eqn:E1; [|done]. destruct (queue_limit K l s) as [ql|] eqn:Eq; simpl; [|done].
  intros [= E2]. reflect. split; [exact (ZRANGEBYSCORE_nil _ _ 1 _ ltac:(lia) Ez)|]. by exists l, lb, ql.
Qed.

(** ** The levels above the queue *)

Lemma rebalance_parents_ok K qn ck s :
  keys_ok K → wild_ok qn ck → parents_ok K qn ck (rebalance_parents K qn ck s).
Proof.
  intros HK Hw. keys_distinct. destruct ck as [wild|]; unfold parents_ok, parent_ok; simpl.
  - specialize (Hw wild eq_refl). redis_simpl.
    rewrite lookup_delete_eq, lookup_delete_ne, !lookup_partial_alter_const by done. done.
  - redis_simpl. apply lookup_partial_alter_const.
Qed.

Lemma GET_parents k K qn ck s : GET k (rebalance_parents K qn ck s) = GET k s.
Proof. destruct ck; simpl; by redis_simpl. Qed.
Lemma SMEMBERS_parents k K qn ck s : SMEMBERS k (rebalance_parents K qn ck s) = SMEMBERS k s.
Proof. destruct ck; simpl; by redis_simpl. Qed.
Lemma LALL_parents k K qn ck s : LALL k (rebalance_parents K qn ck s) = LALL k s.
Proof. destruct ck; simpl; by redis_simpl. Qed.
Lemma HALL_parents k K qn ck s : HALL k (rebalance_parents K qn ck s) = HALL k s.
Proof. destruct ck; simpl; by redis_simpl. Qed.
Lemma ZALL_parents k K qn ck s :
  k ≠ masterQueueKey K → k ≠ ckIndexKey K → ZALL k (rebalance_parents K qn ck s) = ZALL k s.
Proof. intros. destruct ck; simpl; by redis_simpl. Qed.

(** The levels only depend on the sorted sets. *)
Lemma parents_ok_proper K qn ck s t :
  (∀ k, k ∈ [masterQueueKey K; ckIndexKey K; queueKey K] → ZALL k s = ZALL k t) →
  parents_ok K qn ck s → parents_ok K qn ck t.
Proof.
  intros H. unfold parents_ok, parent_ok.
  rewrite !(H (masterQueueKey K)), !(H (ckIndexKey K)), !(H (queueKey K)) by set_solver.
  by destruct ck.
Qed.

(** On a queue that is not empty, adding is the same as rebalancing. *)
Lemma rebalance_add_nonempty parent child name s m x :
  ZALL child s !! m = Some x → rebalance_add parent child name s = rebalance parent child name s.
Proof.
  intros Hm. unfold rebalance_add, rebalance. pose proof (ZRANGE_first child s) as Hf.
  destruct (ZRANGE child 0 s); [|done]. symmetry in Hf. apply zmin_None in Hf.
  by rewrite Hf, lookup_empty in Hm.
Qed.

Lemma rebalance_parents_add K qn wild s m x :
  ZALL (queueKey K) s !! m = Some x →
  ZREM (masterQueueKey K) qn
    (rebalance_add (masterQueueKey K) (ckIndexKey K) wild
       (rebalance_add (ckIndexKey K) (queueKey K) qn s)) =
  rebalance_parents K qn (Some wild) s.
Proof.
  intros Hm. simpl. rewrite (rebalance_add_nonempty _ _ _ _ _ _ Hm). f_equal.
  destruct (zmin_lookup _ _ _ Hm) as (p & Hp & _). eapply rebalance_add_nonempty.
  by rewrite ZALL_rebalance, decide_True, Hp, lookup_partial_alter_const.
Qed.

End Lifecycle.

#[export] Hint Rewrite @GET_parents @SMEMBERS_parents @LALL_parents @HALL_parents
  using apply _ : redis.
#[export] Hint Rewrite @ZALL_parents using first [apply _ | done | congruence] : redis.

(** ** Uniform descriptions of the scripts

    The four enqueue scripts differ in two options, a TTL entry and a concurrency
    key; so do the two variants of the other scripts in the second. *)

Definition enqueue_script `{Redis rq_value db} (K : rq_keys) (queueName messageId : string)
    (messageData : rq_value) (messageScore : Z) (ttl : option (string * Z)) (ck : option string)
    (messageKeyValue : string) (dLimit : Z) (dBurst : spec_float) (currentTime : Z)
    (enableFastPath : bool) (s : db) : outcome lua_error bool * db :=
  match ck, ttl with
  | Some wild, Some (tm, ts) =>
      enqueueMessageWithTtlCk K queueName messageId messageData messageScore tm ts wild
        messageKeyValue dLimit dBurst currentTime enableFastPath s
  | Some wild, None =>
      enqueueMessageCk K queueName messageId messageData messageScore wild
        messageKeyValue dLimit dBurst currentTime enableFastPath s
  | None, Some (tm, ts) =>
      enqueueMessageWithTtl K queueName messageId messageData messageScore tm ts
        messageKeyValue dLimit dBurst currentTime enableFastPath s
  | None, None =>
      enqueueMessage K queueName messageId messageData messageScore
        messageKeyValue dLimit dBurst currentTime enableFastPath s
  end.

Definition ack_script `{Redis rq_value db} (K : rq_keys)
    (messageId messageQueueName messageKeyValue : string) (removeFromWorkerQueue : bool)
    (ck : option string) (s : db) : db :=
  match ck with
  | Some wild =>
      acknowledgeMessageCk K messageId messageQueueName messageKeyValue removeFromWorkerQueue wild s
  | None => acknowledgeMessage K messageId messageQueueName messageKeyValue removeFromWorkerQueue s
  end.

Definition nack_script `{Redis rq_value db} (K : rq_keys) (messageId messageQueueName : string)
    (messageData : rq_value) (messageScore : Z) (ck : option string) (s : db) : db :=
  match ck with
  | Some wild => nackMessageCk K messageId messageQueueName messageData messageScore wild s
  | None => nackMessage K messageId messageQueueName messageData messageScore s
  end.

Definition dead_letter_script `{Redis rq_value db} (K : rq_keys)
    (messageId messageQueueName : string) (ck : option string) (s : db) : db :=
  match ck with
  | Some wild => moveToDeadLetterQueueCk K messageId messageQueueName wild s
  | None => moveToDeadLetterQueue K messageId messageQueueName s
  end.

Section Uniform.
Context {db : Type} {R : Redis rq_value db} {L : RedisLaws R}.
Implicit Types (K : rq_keys) (s : db).

Definition ttl_stage (K : rq_keys) (ttl : option (string * Z)) (s : db) : db :=
  match ttl with Some (tm, ts) => ZADD (ttlQueueKey K) ts tm s | None => s end.

(** The four scripts are one. *)
Lemma enqueue_script_eq K qn id d x ttl ck mkv dl bf ct fast s :
  keys_ok K →
  enqueue_script K qn id d x ttl ck mkv dl bf ct fast s =
  match fast_path_open K dl bf ct fast s with
  | None => (Err NotANumber, s)
  | Some true => (Ok true, fast_path K id d mkv s)
  | Some false =>
      (Ok false,
       release K id (rebalance_parents K qn ck (ttl_stage K ttl (slow_path_queues K id d x s))))
  end.
Proof.
  intros HK.
  assert (∀ t, ZALL (queueKey K) (ttl_stage K t (slow_path_queues K id d x s)) !! id = Some x) as Hin.
  { intros t. keys_distinct. destruct t as [[tm ts]|]; unfold slow_path_queues; simpl; redis_simpl;
      apply lookup_insert_eq. }
  destruct ck as [wild|], ttl as [[tm ts]|]; simpl;
    unfold enqueueMessageWithTtlCk, enqueueMessageCk, enqueueMessageWithTtl, enqueueMessage;
    destruct (fast_path_open K dl bf ct fast s) as [[]|]; try done; do 2 f_equal.
  - exact (rebalance_parents_add K qn wild _ id x (Hin (Some (tm, ts)))).
  - exact (rebalance_parents_add K qn wild _ id x (Hin None)).
Qed.

Lemma ack_script_eq K id qn mkv rm ck s :
  ack_script K id qn mkv rm ck s =
  let s1 := release K id (rebalance_parents K qn ck
              (ZREM (envQueueKey K) id (ZREM (queueKey K) id (DEL (messageKey K) s)))) in
  if rm then LREM (workerQueueKey K) mkv s1 else s1.
Proof. by destruct ck. Qed.

Lemma nack_script_eq K id qn d x ck s :
  keys_ok K →
  nack_script K id qn d x ck s =
  rebalance_parents K qn ck
    (ZADD (envQueueKey K) x id (ZADD (queueKey K) x id (release K id (SET (messageKey K) d s)))).
Proof.
  intros HK. destruct ck as [wild|]; [|done]. simpl. unfold nackMessageCk. do 2 f_equal.
  eapply rebalance_add_nonempty. keys_distinct. redis_simpl. apply lookup_insert_eq.
Qed.

Lemma dead_letter_script_eq K id qn ck s :
  dead_letter_script K id qn ck s =
  let s1 := rebalance_parents K qn ck (ZREM (envQueueKey K) id (ZREM (queueKey K) id s)) in
  release K id (ZADD (deadLetterQueueKey K) (TIME s1).1 id s1).
Proof. by destruct ck. Qed.

(** ** Properties *)

(** Whichever enqueue script runs (with or without TTL, with or without
    concurrency key), the fast path is only taken when nothing is due in the queue,
    and it keeps the environment within its limit with burst and the queue within
    its own: the message goes straight to the tail of the worker queue with its
    slot claimed in both concurrency sets, and no queue changes. *)
Theorem enqueue_fast_path_safe K qn id d x ttl ck mkv dl bf ct fast s s' :
  keys_ok K → enqueue_script K qn id d x ttl ck mkv dl bf ct fast s = (Ok true, s') →
  (∀ m y, ZALL (queueKey K) s !! m = Some y → ct < y) ∧
  (∃ l lb ql, env_limits K dl bf s = Some (l, lb) ∧ queue_limit K l s = Some ql ∧
    SCARD (envCurrentConcurrencyKey K) s' ≤ lb ∧ SCARD (queueCurrentConcurrencyKey K) s' ≤ ql) ∧
  GET (messageKey K) s' = Some d ∧
  LALL (workerQueueKey K) s' = LALL (workerQueueKey K) s ++ [mkv] ∧
  id ∈ SMEMBERS (queueCurrentConcurrencyKey K) s' ∧
  id ∈ SMEMBERS (envCurrentConcurrencyKey K) s' ∧
  (∀ k, ZALL k s' = ZALL k s).
Proof.
  intros HK. rewrite enqueue_script_eq by done.
  destruct (fast_path_open K dl bf ct fast s) as [[]|] eqn:Ho; [|done..]. intros [= <-].
  destruct (fast_path_open_true _ _ _ _ _ _ Ho) as [Hdue (l & lb & ql & Hl & Hq & He & Hqq)].
  split; [done|]. unfold fast_path, SCARD in *. keys_distinct. redis_simpl. split.
  - exists l, lb, ql. repeat (split; [done|]).
    pose proof (size_add_one id (SMEMBERS (envCurrentConcurrencyKey K) s)).
    pose proof (size_add_one id (SMEMBERS (queueCurrentConcurrencyKey K) s)). lia.
  - split; [done|]. split; [done|]. rewrite !elem_of_union, !elem_of_singleton.
    split; [by left|]. split; [by left|]. intros k. by redis_simpl.
Qed.

Local Ltac stage := unfold ttl_stage, slow_path_queues; redis_simpl.

(** On the slow path the message is stored, waits in its queue and in the
    environment queue under its score and holds no concurrency slot; the worker
    queues are untouched; the queue's entry above it (in the master queue, or in
    the index of its base queue with the wildcard entry in the master queue) is its
    earliest score; and with a TTL the member is in the TTL set under its expiry. *)
Theorem enqueue_slow_path K qn id d x ttl ck mkv dl bf ct fast s s' :
  keys_ok K → wild_ok qn ck →
  enqueue_script K qn id d x ttl ck mkv dl bf ct fast s = (Ok false, s') →
  GET (messageKey K) s' = Some d ∧ queued K id x s' ∧ idle K id s' ∧
  (∀ k, LALL k s' = LALL k s) ∧ parents_ok K qn ck s' ∧
  (∀ tm ts, ttl = Some (tm, ts) → ZALL (ttlQueueKey K) s' !! tm = Some ts).
Proof.
  intros HK Hw. rewrite enqueue_script_eq by done.
  destruct (fast_path_open K dl bf ct fast s) as [[]|] eqn:Ho; [done| |done]. intros [= <-].
  assert (parents_ok K qn ck (release K id (rebalance_parents K qn ck
            (ttl_stage K ttl (slow_path_queues K id d x s))))) as Hp.
  { eapply parents_ok_proper; [|apply rebalance_parents_ok]; try done.
    intros k _. by rewrite ZALL_release. }
  unfold queued. keys_distinct. destruct ttl as [[tm ts]|]; simpl in *.
  - split_and!; try done; [by stage|stage; apply lookup_insert_eq..|apply idle_release|intros k|].
    + by stage.
    + intros ?? [= <- <-]. stage. apply lookup_insert_eq.
  - split_and!; try done; [by stage|stage; apply lookup_insert_eq..|apply idle_release|intros k].
    by stage.
Qed.

Lemma ack_forgotten K id qn mkv rm ck s :
  keys_ok K → wild_ok qn ck →
  let s' := ack_script K id qn mkv rm ck s in
  forgotten K id s' ∧ parents_ok K qn ck s' ∧ (rm = true → mkv ∉ LALL (workerQueueKey K) s').
Proof.
  intros HK Hw. rewrite ack_script_eq. cbv zeta. set (s1 := rebalance_parents K qn ck _).
  set (s' := if rm then _ else _).
  assert (∀ k, ZALL k s' = ZALL k s1 ∧ GET k s' = GET k s1 ∧
               SMEMBERS k s' = SMEMBERS k (release K id s1)) as Hv.
  { intros k. unfold s'. destruct rm; by redis_simpl. }
  unfold forgotten, dequeued_from.
  rewrite !(proj1 (Hv _)), (proj1 (proj2 (Hv _))). split; [split_and!|split].
  - unfold s1. by redis_simpl.
  - unfold s1. keys_distinct. redis_simpl. apply lookup_delete_eq.
  - unfold s1. keys_distinct. redis_simpl. apply lookup_delete_eq.
  - intros k Hk. rewrite (proj2 (proj2 (Hv k))). by apply idle_release.
  - apply (parents_ok_proper _ _ _ s1); [|by apply rebalance_parents_ok].
    intros k _. symmetry. apply Hv.
  - intros ->. unfold s'. redis_simpl. rewrite list_elem_of_filter. naive_solver.
Qed.


(** A nacked message is stored with its new payload, waits in its queue and in
    the environment queue under its retry time and holds no concurrency slot, no
    other message moves, and the entries above its queue are exact. *)
Theorem nack_requeues K id qn d x ck s :
  keys_ok K → wild_ok qn ck →
  let s' := nack_script K id qn d x ck s in
  GET (messageKey K) s' = Some d ∧ queued K id x s' ∧ idle K id s' ∧ parents_ok K qn ck s' ∧
  (∀ k, LALL k s' = LALL k s) ∧
  (∀ m, m ≠ id →
     ZALL (queueKey K) s' !! m = ZALL (queueKey K) s !! m ∧
     ZALL (envQueueKey K) s' !! m = ZALL (envQueueKey K) s !! m ∧
     ∀ k, m ∈ SMEMBERS k s' ↔ m ∈ SMEMBERS k s).
Proof.
  intros HK Hw. rewrite nack_script_eq by done. cbv zeta. split; [|split; [|split; [|split]]].
  - by redis_simpl.
  - unfold queued. keys_distinct. split; redis_simpl; apply lookup_insert_eq.
  - intros k Hk. redis_simpl. by apply idle_release.
  - by apply rebalance_parents_ok.
  - split; [intros k; by redis_simpl|]. intros m Hm. split; [|split].
    + keys_distinct. redis_simpl. by rewrite lookup_insert_ne.
    + keys_distinct. redis_simpl. by rewrite lookup_insert_ne.
    + intros k. redis_simpl. rewrite SMEMBERS_release. redis_simpl. case_decide; set_solver.
Qed.

(** A dead-lettered message keeps its payload, leaves both queues, holds no
    concurrency slot and is in the dead letter queue; every other message stays
    where it was and the entries above its queue are exact. *)
Theorem dead_letter_moves K id qn ck s :
  keys_ok K → wild_ok qn ck →
  let s' := dead_letter_script K id qn ck s in
  (∀ k, GET k s' = GET k s) ∧ dequeued_from K id s' ∧ idle K id s' ∧ parents_ok K qn ck s' ∧
  is_Some (ZALL (deadLetterQueueKey K) s' !! id) ∧
  (∀ m, m ≠ id →
     ZALL (queueKey K) s' !! m = ZALL (queueKey K) s !! m ∧
     ZALL (deadLetterQueueKey K) s' !! m = ZALL (deadLetterQueueKey K) s !! m ∧
     ∀ k, m ∈ SMEMBERS k s' ↔ m ∈ SMEMBERS k s).
Proof.
  intros HK Hw. rewrite dead_letter_script_eq. cbv zeta.
  set (s1 := rebalance_parents K qn ck _). set (x := (TIME s1).1). clearbody x.
  split; [|split; [|split; [|split; [|split]]]].
  - intros k. unfold s1. by redis_simpl.
  - unfold s1, dequeued_from. keys_distinct. split; redis_simpl; apply lookup_delete_eq.
  - apply idle_release.
  - apply (parents_ok_proper _ _ _ s1); [|by apply rebalance_parents_ok].
    intros k Hk. keys_distinct. redis_simpl. by rewrite decide_False by set_solver.
  - redis_simpl. rewrite lookup_insert_eq. eauto.
  - intros m Hm. unfold s1. split; [|split].
    + keys_distinct. redis_simpl. by rewrite lookup_delete_ne.
    + keys_distinct. redis_simpl. by rewrite lookup_insert_ne.
    + intros k. rewrite SMEMBERS_release. redis_simpl. case_decide; set_solver.
Qed.

Lemma filter_absent (l : list string) (x : string) : x ∉ l → filter (λ y, y ≠ x) l = l.
Proof.
  induction l as [|y l IH]; [done|]. intros [Hy Hl]%not_elem_of_cons.
  rewrite filter_cons_True by congruence. by rewrite IH.
Qed.

Lemma partial_alter_same {A} (z : gmap string A) (m : string) (x : option A) :
  z !! m = x → partial_alter (λ _, x) m z = z.
Proof. intros <-. apply partial_alter_self. Qed.

(** Rebalancing levels that are exact changes nothing. *)
Lemma rebalance_parents_fixed K qn ck s k :
  keys_ok K → parents_ok K qn ck s → ZALL k (rebalance_parents K qn ck s) = ZALL k s.
Proof.
  intros HK Hp. keys_distinct. destruct ck as [wild|]; unfold parents_ok, parent_ok in Hp; simpl.
  - destruct Hp as (H1 & H2 & H3). redis_simpl.
    rewrite (partial_alter_same (ZALL (ckIndexKey K) s)) by done.
    destruct (decide (masterQueueKey K = k)) as [<-|].
    + rewrite decide_False by congruence.
      rewrite (partial_alter_same (ZALL (masterQueueKey K) s)) by done. by apply delete_id.
    + case_decide; subst; [|done]. by apply partial_alter_same.
  - redis_simpl. case_decide; subst; [|done]. by apply partial_alter_same.
Qed.

(** Acknowledging twice is acknowledging once: the second run changes nothing
    an observer of the database could see. *)
Theorem ack_idempotent K id qn mkv rm ck s :
  keys_ok K → wild_ok qn ck →
  ack_script K id qn mkv rm ck (ack_script K id qn mkv rm ck s) ≡db
  ack_script K id qn mkv rm ck s.
Proof.
  intros HK Hw. destruct (ack_forgotten K id qn mkv rm ck s HK Hw) as ((Hg & [Hq He] & Hi) & Hp & Hl).
  revert Hg Hq He Hi Hp Hl. generalize (ack_script K id qn mkv rm ck s). intros t Hg Hq He Hi Hp Hl.
  rewrite ack_script_eq. cbv zeta. set (t1 := ZREM _ _ _).
  assert (∀ k, ZALL k t1 = ZALL k t) as Hz1.
  { intros k. unfold t1. destruct HK as [Hd _ _]. keys_distinct.
    destruct (decide (k = envQueueKey K)) as [->|]; [redis_simpl; by apply delete_id|].
    destruct (decide (k = queueKey K)) as [->|]; [redis_simpl; by apply delete_id|].
    by redis_simpl. }
  assert (parents_ok K qn ck t1) as Hp1.
  { apply (parents_ok_proper _ _ _ t); [|done]. intros k _. by rewrite Hz1. }
  pose proof (λ k, rebalance_parents_fixed K qn ck t1 k HK Hp1) as Hfix.
  intros k. split_and!.
  - destruct rm; redis_simpl; unfold t1; redis_simpl; case_decide; congruence.
  - assert (SMEMBERS k t ∖ {[id]} = SMEMBERS k t ∨ k ∉ concurrency_keys K) as Hs.
    { destruct (decide (k ∈ concurrency_keys K)) as [Hk|]; [|by right]. left.
      specialize (Hi k Hk). set_solver. }
    destruct rm; redis_simpl; rewrite SMEMBERS_release; unfold t1; redis_simpl;
      case_decide; naive_solver.
  - destruct rm; redis_simpl; by rewrite Hfix, Hz1.
  - destruct rm; redis_simpl; unfold t1; redis_simpl; [|done].
    case_decide; [subst|done]. specialize (Hl eq_refl).
    by apply filter_absent.
  - destruct rm; redis_simpl; unfold t1; by redis_simpl.
Qed.

End Uniform.

(** ** Witnesses *)

Lemma sample_wild_ok : wild_ok sample_queue (Some "wild").
Proof. intros ? [= <-]. discriminate. Qed.

(** An environment with room: the fast path is open at time 5. *)
Lemma enqueue_fast_path_safe_witness :
  ∃ s', enqueue_script (sample_keys "d") sample_queue "d"
          (VMessage (sample_message "d" 50 None)) 50 None None "{org:o1}:message:d" 10 sample_burst
          5 true sample_db = (Ok true, s') ∧
        LALL "workerQueue:main" s' = LALL "workerQueue:main" sample_db ++ ["{org:o1}:message:d"].
Proof.
  eexists. split; [reflexivity|].
  refine (proj1 (proj2 (proj2 (proj2 (enqueue_fast_path_safe (sample_keys "d") sample_queue "d"
    (VMessage (sample_message "d" 50 None)) 50 None None "{org:o1}:message:d" 10 sample_burst
    5 true sample_db _ _ _))))); [|reflexivity].
  split; apply (bool_decide_unpack _); vm_compute; exact I.
Defined.

Lemma enqueue_slow_path_witness :
  let run := enqueue_script (sample_keys "a") sample_queue "a"
               (VMessage (sample_message "a" 10 (Some 70))) 10 (Some ("q|a|o1", 70)) (Some "wild")
               "{org:o1}:message:a" 10 sample_burst 5 false sample_db in
  queued (sample_keys "a") "a" 10 run.2 ∧ ZALL "ttl:shard:0" run.2 !! "q|a|o1" = Some 70.
Proof.
  intros run.
  destruct (enqueue_slow_path (sample_keys "a") sample_queue "a"
    (VMessage (sample_message "a" 10 (Some 70))) 10 (Some ("q|a|o1", 70)) (Some "wild")
    "{org:o1}:message:a" 10 sample_burst 5 false sample_db run.2 sample_keys_ok sample_wild_ok
    eq_refl) as (_ & Hq & _ & _ & _ & Ht).
  split; [exact Hq|exact (Ht _ _ eq_refl)].
Defined.


Lemma nack_requeues_witness :
  queued (sample_keys "a") "a" 99
    (nack_script (sample_keys "a") "a" sample_queue (VMessage (sample_message "a" 10 None)) 99
       (Some "wild") sample_db).
Proof.
  exact (proj1 (proj2 (nack_requeues (sample_keys "a") "a" sample_queue
    (VMessage (sample_message "a" 10 None)) 99 (Some "wild") sample_db sample_keys_ok
    sample_wild_ok))).
Defined.

Lemma dead_letter_moves_witness :
  is_Some (ZALL "{org:o1}:proj:p1:env:e1:deadLetter"
    (dead_letter_script (sample_keys "a") "a" sample_queue (Some "wild") sample_db) !! "a").
Proof.
  exact (proj1 (proj2 (proj2 (proj2 (proj2 (dead_letter_moves (sample_keys "a") "a" sample_queue
    (Some "wild") sample_db sample_keys_ok sample_wild_ok)))))).
Defined.

Lemma ack_idempotent_witness :
  let ack := ack_script (sample_keys "a") "a" sample_queue "{org:o1}:message:a" true (Some "wild") in
  ack (ack sample_db) ≡db ack sample_db.
Proof.
  exact (ack_idempotent (sample_keys "a") "a" sample_queue "{org:o1}:message:a" true (Some "wild")
           sample_db sample_keys_ok sample_wild_ok).
Defined.
