(* ===== verification/Expire.v ===== *)
(** * Expire: the keys the TTL script derives by pattern matching

    [expireTtlRuns] does not get the keys of a run; it rebuilds them from the queue
    key inside the TTL member with Lua patterns.  Here they are shown to be the
    keys [RunQueueFullKeyProducer] builds. *)

From Stdlib Require Import SpecFloat.
From S2P Require Import Prelude Text Redis Listing Messages Scripts ScriptFacts KeyProducer.
Local Open Scope Z_scope.

(** Rightmost and leftmost search find nothing in the same texts. *)
Lemma rcut_where_none ok p s : cut_where ok p s = None → rcut_where ok p s = None.
Proof.
  induction s as [|c s IH]; simpl.
  - destruct (strip_prefix p "") as [r|]; [destruct (ok r)|]; done.
  - destruct (strip_prefix p (String c s)) as [r|]; [destruct (ok r); [done|]|];
      intros H%fmap_None; by rewrite IH.
Qed.

(** The rightmost occurrence is found when no later one starts. *)
Lemma rcut_where_last ok d p a b :
  ok b = true → cut_where ok (String d p) (p +:+ b) = None →
  rcut_where ok (String d p) (a +:+ String d p +:+ b) = Some (a, b).
Proof.
  intros Hok Hno. induction a as [|c a IH].
  - rewrite string_app_nil_l, string_app_cons. cbn [rcut_where].
    rewrite (rcut_where_none _ _ _ Hno).
    replace (String d (p +:+ b)) with (String d p +:+ b) by done.
    by rewrite strip_prefix_app, Hok.
  - rewrite string_app_cons. cbn [rcut_where]. by rewrite IH.
Qed.

(** Ids as the database issues them: not empty, and the project is not called "env". *)
Record ids_ok (env : env_obj) : Prop := IdsOk {
  ids_proj : truthy (env_project_id env) = true;
  ids_env : truthy (env_id env) = true;
  ids_no_env : env_project_id env ≠ "env";
}.

(** A queue key as its first part and the parts after it. *)
Lemma queueKey_foldr env q ck :
  ∃ t, queueKey env q ck =
    "{org" +:+ foldr (λ p acc, String ":" (p +:+ acc)) t
      [env_organization_id env +:+ "}"; "proj"; env_project_id env; "env"; env_id env; "queue"; q].
Proof.
  assert (queueKey env q None = "{org" +:+ foldr (λ p acc, String ":" (p +:+ acc)) ""
      [env_organization_id env +:+ "}"; "proj"; env_project_id env; "env"; env_id env; "queue"; q])
    as Hn.
  { unfold_keys. cbn [foldr]. text_norm. done. }
  destruct ck as [c|]; [destruct (truthy c) eqn:Hc|]; [|exists ""..]; [|by rewrite queueKey_falsy|exact Hn].
  exists (":ck:" +:+ c). rewrite queueKey_Some, Hn by done. cbn [foldr]. by text_norm.
Qed.

Lemma brace_ne (o w : string) : has_char "}" w = false → w ≠ o +:+ "}".
Proof.
  intros Hw ->. rewrite has_char_app in Hw. apply orb_false_iff in Hw as [_ Hw]. done.
Qed.

Lemma plain_brace env : env_ok env → has_char ":" (env_organization_id env +:+ "}") = false.
Proof. intros [Ho _ _ _ _]. rewrite has_char_app. by rewrite Ho. Qed.

Lemma org_from_queueKey env q ck :
  env_ok env → org_from_queue (queueKey env q ck) = Some (env_organization_id env).
Proof.
  intros He. destruct (queueKey_foldr env q ck) as [t ->]. cbn [foldr].
  unfold org_from_queue, cut.
  replace ("{org" +:+ _) with ("{org:" +:+ (env_organization_id env +:+ String "}"
    (foldr (λ p acc, String ":" (p +:+ acc)) t
      ["proj"; env_project_id env; "env"; env_id env; "queue"; q])))
    by (cbn [foldr]; by text_norm).
  rewrite cut_where_prefix by done. simpl. change "}" with (String "}" "").
  rewrite cut_where_app by apply He. rewrite cut_where_cons. simpl. by text_norm.
Qed.

Lemma match_env_queueKey env q ck :
  env_ok env → ids_ok env → match_env (queueKey env q ck) = Some (env_id env).
Proof.
  intros He [Hp Hi Hne]. destruct (queueKey_foldr env q ck) as [t ->].
  unfold match_env. rewrite (cut_where_app _ ":" "env:") by done.
  change ":env:" with (String ":" ("env" +:+ String ":" "")).
  pose proof (plain_brace env He). destruct He. cbn [foldr].
  rewrite cut_word_skip by (done || by apply brace_ne).
  rewrite cut_word_skip by done. rewrite cut_word_skip by done.
  rewrite cut_word_hit by (by rewrite run_without_app). simpl.
  by rewrite run_without_app.
Qed.

Lemma match_proj_queueKey env q ck :
  env_ok env → ids_ok env → match_proj (queueKey env q ck) = Some (env_project_id env).
Proof.
  intros He [Hp Hi Hne]. destruct (queueKey_foldr env q ck) as [t ->].
  unfold match_proj. rewrite (cut_where_app _ ":" "proj:") by done.
  change ":proj:" with (String ":" ("proj" +:+ String ":" "")).
  pose proof (plain_brace env He). destruct He. cbn [foldr].
  rewrite cut_word_skip by (done || by apply brace_ne).
  rewrite cut_word_hit; [simpl; by rewrite run_without_app|].
  unfold id_then_env. rewrite run_without_app by done. rewrite Hp. simpl.
  match goal with |- starts_with _ ?x = true =>
    replace x with ((env_project_id env +:+ ":env:") +:+
      (env_id env +:+ String ":" ("queue" +:+ String ":" (q +:+ t)))) by (by text_norm) end.
  apply starts_with_app.
Qed.

Lemma match_ck_queueKey env q c :
  truthy c = true → plain c →
  match_ck_base (queueKey env q (Some c)) = Some (queueKey env q None).
Proof.
  intros Hc Hp. unfold match_ck_base. rewrite queueKey_Some by done.
  change (":ck:" +:+ c) with (String ":" "ck:" +:+ c).
  change ":ck:" with (String ":" "ck:"). rewrite rcut_where_last; [|done|].
  - by rewrite queueKey_parts.
  - change (String ":" "ck:") with (String ":" ("ck" +:+ String ":" "")).
    change ("ck:" +:+ c) with (String "c" (String "k" (String ":" c))).
    rewrite !cut_where_ne by done. by rewrite cut_word_last.
Qed.

Lemma match_ck_queueKey_none env q :
  env_ok env → plain q → no_ck env q → match_ck_base (queueKey env q None) = None.
Proof.
  intros He Hq Hn. unfold match_ck_base. rewrite rcut_where_none; [done|].
  rewrite queueKey_parts. pose proof (base_parts_ok env q He Hq Hn) as Hall. unfold base_parts in *.
  change ":ck:" with (String ":" ("ck" +:+ String ":" "")).
  change ":" with (String ":" ""). by apply cut_word_join_absent.
Qed.

Lemma parse_ttl_member_ok qn run org :
  has_char "|" qn = false → has_char "|" run = false →
  parse_ttl_member (ttl_member qn run org) = Some (qn, run, org).
Proof.
  intros Hq Hr. unfold parse_ttl_member, ttl_member, cut. change "|" with (String "|" "").
  text_norm. rewrite cut_where_app by done. rewrite cut_where_cons. simpl. text_norm.
  rewrite cut_where_app by done. rewrite cut_where_cons. simpl. by text_norm.
Qed.

Lemma messageKey_text org run :
  messageKey org run = "{org:" +:+ org +:+ "}:message:" +:+ run.
Proof.
  unfold messageKey. rewrite !filter_cons_True by done. rewrite filter_nil. unfold_keys. done.
Qed.

(** Every key the TTL script rebuilds from a member's queue key by pattern
    matching is the key [RunQueueKeyProducer] gives that run: the message, the
    environment queue, the queue's and the environment's concurrency sets and, for
    a concurrency key, the index of the base queue; and the member's three parts
    come back as they were written. *)
Theorem ttl_keys_agree env q ck run :
  env_ok env → ids_ok env → plain q → no_ck env q →
  (∀ c, ck = Some c → truthy c = true ∧ plain c ∧ dot_plus_end c = true) →
  has_char "|" (queueKey env q ck) = false → has_char "|" run = false →
  let key := queueKey env q ck in
  let org := env_organization_id env in
  parse_ttl_member (ttl_member key run org) = Some (key, run, org) ∧
  org_from_queue key = Some org ∧
  "{org:" +:+ org +:+ "}:message:" +:+ run = messageKey org run ∧
  (∃ e, match_env key = Some e ∧ "{org:" +:+ org +:+ "}:env:" +:+ e = envQueueKey env) ∧
  (∃ p e, match_proj key = Some p ∧ match_env key = Some e ∧
    "{org:" +:+ org +:+ "}:proj:" +:+ p +:+ ":env:" +:+ e +:+ ":currentConcurrency" =
      envCurrentConcurrencyKey (ByEnv env) ∧
    "{org:" +:+ org +:+ "}:proj:" +:+ p +:+ ":env:" +:+ e +:+ ":currentDequeued" =
      envCurrentDequeuedKey (ByEnv env)) ∧
  key +:+ ":currentConcurrency" = queueCurrentConcurrencyKey env q ck ∧
  key +:+ ":currentDequeued" = queueCurrentDequeuedKey env q ck ∧
  (λ base, base +:+ ":ckIndex") <$> match_ck_base key =
    (if truthy_opt ck then Some (ckIndexKeyFromQueue key) else None).
Proof.
  intros He Hi Hq Hn Hck Hk Hr key org. unfold key, org.
  rewrite parse_ttl_member_ok, org_from_queueKey, match_env_queueKey, match_proj_queueKey by done.
  split; [done|]. split; [done|]. split; [by rewrite messageKey_text|].
  split; [eexists; split; [done|]; unfold_keys; by text_norm|].
  split; [do 2 eexists; split; [done|]; split; [done|]; split;
          unfold envCurrentConcurrencyKey, envCurrentDequeuedKey; unfold_keys; by text_norm|].
  split; [done|]. split; [done|]. destruct ck as [c|]; simpl.
  - destruct (Hck c eq_refl) as (Hc & Hp & Hd). rewrite Hc, match_ck_queueKey by done. simpl.
    unfold ckIndexKeyFromQueue. by rewrite replace_ck_some, string_app_nil_r.
  - by rewrite match_ck_queueKey_none.
Qed.

Lemma ttl_keys_agree_witness :
  (λ base, base +:+ ":ckIndex") <$> match_ck_base (queueKey demo_env "task" (Some "u1")) =
  Some (ckIndexKeyFromQueue (queueKey demo_env "task" (Some "u1"))).
Proof.
  destruct (ttl_keys_agree demo_env "task" (Some "u1") "run1") as (_ & _ & _ & _ & _ & _ & _ & H).
  - exact demo_env_ok.
  - split; [reflexivity..|discriminate].
  - reflexivity.
  - apply demo_no_ck. discriminate.
  - intros c [= <-]. split; [reflexivity|]. split; reflexivity.
  - reflexivity.
  - reflexivity.
  - exact H.
Defined.

(** The restriction to concurrency keys without ":" is needed: the key producer
    cuts a queue key at its first ":ck:" and the TTL script at its last, so for a
    concurrency key that itself contains ":ck:" the script updates another index
    than the one the queue is listed in. *)
Theorem ttl_ck_index_diverges env q c d :
  env_ok env → plain q → no_ck env q → truthy c = true → truthy d = true → plain d →
  dot_plus_end (c +:+ ":ck:" +:+ d) = true →
  let key := queueKey env q (Some (c +:+ ":ck:" +:+ d)) in
  ckIndexKeyFromQueue key = queueKey env q None +:+ ":ckIndex" ∧
  match_ck_base key = Some (queueKey env q (Some c)) ∧
  queueKey env q (Some c) +:+ ":ckIndex" ≠ ckIndexKeyFromQueue key.
Proof.
  intros He Hq Hn Hc Hd Hpd Hdot key.
  assert (ckIndexKeyFromQueue key = queueKey env q None +:+ ":ckIndex") as Hidx.
  { unfold ckIndexKeyFromQueue, key. by rewrite replace_ck_some, string_app_nil_r. }
  rewrite Hidx. split; [done|]. split.
  - unfold match_ck_base, key. rewrite (queueKey_Some _ _ (c +:+ ":ck:" +:+ d))
      by (by destruct c).
    replace (queueKey env q None +:+ ":ck:" +:+ c +:+ ":ck:" +:+ d)
      with (queueKey env q (Some c) +:+ String ":" "ck:" +:+ d)
      by (rewrite queueKey_Some by done; by text_norm).
    change ":ck:" with (String ":" "ck:"). rewrite rcut_where_last; [by rewrite queueKey_Some|done|].
    change (String ":" "ck:") with (String ":" ("ck" +:+ String ":" "")).
    change ("ck:" +:+ d) with (String "c" (String "k" (String ":" d))).
    rewrite !cut_where_ne by done. by rewrite cut_word_last.
  - intros H%string_app_inj_r. rewrite queueKey_Some in H by done.
    symmetry in H. apply string_app_self in H. discriminate.
Qed.

Lemma ttl_ck_index_diverges_witness :
  match_ck_base (queueKey demo_env "task" (Some "a:ck:b")) =
  Some (queueKey demo_env "task" (Some "a")).
Proof.
  refine (proj1 (proj2 (ttl_ck_index_diverges demo_env "task" "a" "b" demo_env_ok _ _ _ _ _ _)));
    try reflexivity.
  apply demo_no_ck. discriminate.
Defined.

(** ** What expiring one run does *)

Section ExpireOne.
Context {db : Type} {R : Redis rq_value db} {L : RedisLaws R}.
Implicit Types (s : db).

(** The sorted sets the script touches for a run of queue [key]. *)
Definition expire_zsets (ttlKey P workerQueueKey : string) (env : env_obj) (key : string)
    : list string :=
  [ttlKey; P +:+ key; P +:+ envQueueKey env; workerQueueKey; P +:+ ckIndexKeyFromQueue key].

(** The run removed from the four sets of its queue and environment. *)
Definition expire_sets (P run : string) (env : env_obj) (q : string) (ck : option string) s : db :=
  srem_all ((λ k, P +:+ k) <$>
    [envCurrentDequeuedKey (ByEnv env); envCurrentConcurrencyKey (ByEnv env);
     queueCurrentDequeuedKey env q ck; queueCurrentConcurrencyKey env q ck]) run s.

(** The script with the derived keys replaced by the producer's. *)
Lemma expire_one_eq ttlKey P wq wi vt now env q ck run member s :
  env_ok env → ids_ok env → plain q → no_ck env q →
  (∀ c, ck = Some c → truthy c = true ∧ plain c ∧ dot_plus_end c = true) →
  let key := queueKey env q ck in
  let org := env_organization_id env in
  let s1 := expire_sets P run env q ck
      (ZREM (P +:+ envQueueKey env) run (ZREM (P +:+ key) run
        (DEL (P +:+ messageKey org run) (ZREM ttlKey member s)))) in
  let s2 := if truthy_opt ck then rebalance (P +:+ ckIndexKeyFromQueue key) (P +:+ key) key s1
            else s1 in
  expire_one ttlKey P wq wi vt now member key run org s =
  (Ok tt, HSET wi run (VExpireJob run org key vt 0) (ZADD wq now run s2)).
Proof.
  intros He Hi Hq Hn Hck key org s1 s2. unfold expire_one, key. fold org.
  rewrite org_from_queueKey, match_env_queueKey, match_proj_queueKey by done. cbn [default].
  fold org. assert ((P +:+ "{org:" +:+ org +:+ "}:env:" +:+ env_id env) = P +:+ envQueueKey env) as ->
    by (unfold_keys; by text_norm).
  rewrite <- messageKey_text.
  assert (∀ t, ((P +:+ "{org:" +:+ org +:+ "}:proj:" +:+ env_project_id env +:+ ":env:"
                 +:+ env_id env) +:+ t)
          = P +:+ ("{org:" +:+ org +:+ "}:proj:" +:+ env_project_id env +:+ ":env:"
                 +:+ env_id env +:+ t)) as Henv by (intros t; by text_norm).
  rewrite !Henv. rewrite !(string_app_assoc P (queueKey env q ck)).
  assert ("{org:" +:+ org +:+ "}:proj:" +:+ env_project_id env +:+ ":env:" +:+ env_id env +:+
          ":currentConcurrency" = envCurrentConcurrencyKey (ByEnv env)) as ->
    by (unfold envCurrentConcurrencyKey; unfold_keys; by text_norm).
  assert ("{org:" +:+ org +:+ "}:proj:" +:+ env_project_id env +:+ ":env:" +:+ env_id env +:+
          ":currentDequeued" = envCurrentDequeuedKey (ByEnv env)) as ->
    by (unfold envCurrentDequeuedKey; unfold_keys; by text_norm).
  do 3 f_equal. unfold s2. destruct ck as [c|].
  - destruct (Hck c eq_refl) as (Hc & Hp & Hd). rewrite match_ck_queueKey by done.
    simpl. rewrite Hc. unfold ckIndexKeyFromQueue, key. rewrite replace_ck_some by done.
    by rewrite string_app_nil_r.
  - by rewrite match_ck_queueKey_none.
Qed.

(** Expiring a run forgets it as an acknowledgement would (payload, queue,
    environment queue, all four concurrency sets), removes its TTL entry, hands it
    to the TTL worker exactly as a job that is due now, and keeps the index entry of
    its queue exact. *)
Theorem expire_one_forgets ttlKey P wq wi vt now env q ck run s :
  env_ok env → ids_ok env → plain q → no_ck env q →
  (∀ c, ck = Some c → truthy c = true ∧ plain c ∧ dot_plus_end c = true) →
  let key := queueKey env q ck in
  let org := env_organization_id env in
  let member := ttl_member key run org in
  NoDup (expire_zsets ttlKey P wq env key) →
  ∃ s', expire_one ttlKey P wq wi vt now member key run org s = (Ok tt, s') ∧
    GET (P +:+ messageKey org run) s' = None ∧
    ZALL ttlKey s' !! member = None ∧
    ZALL (P +:+ key) s' !! run = None ∧
    ZALL (P +:+ envQueueKey env) s' !! run = None ∧
    (∀ k, k ∈ [queueCurrentConcurrencyKey env q ck; queueCurrentDequeuedKey env q ck;
               envCurrentConcurrencyKey (ByEnv env); envCurrentDequeuedKey (ByEnv env)] →
       run ∉ SMEMBERS (P +:+ k) s') ∧
    ZALL wq s' !! run = Some now ∧
    HALL wi s' !! run = Some (VExpireJob run org key vt 0) ∧
    (truthy_opt ck = true → parent_ok (P +:+ ckIndexKeyFromQueue key) (P +:+ key) key s').
Proof.
  intros He Hi Hq Hn Hck key org member Hnd.
  eexists. split; [by apply expire_one_eq|]. fold key org.
  unfold expire_zsets in Hnd. keys_distinct.
  split_and!.
  - unfold expire_sets. destruct (truthy_opt ck); by redis_simpl.
  - unfold expire_sets. destruct (truthy_opt ck); redis_simpl; apply lookup_delete_eq.
  - unfold expire_sets. destruct (truthy_opt ck); redis_simpl; apply lookup_delete_eq.
  - unfold expire_sets. destruct (truthy_opt ck); redis_simpl; apply lookup_delete_eq.
  - intros k Hk. assert (∀ t, run ∉ SMEMBERS (P +:+ k) (expire_sets P run env q ck t)) as Hout.
    { intros t. unfold expire_sets. rewrite SMEMBERS_srem_all, decide_True; [set_solver|].
      apply list_elem_of_fmap. exists k. split; [done|]. set_solver. }
    destruct (truthy_opt ck); autorewrite with redis; apply Hout.
  - redis_simpl. apply lookup_insert_eq.
  - redis_simpl. apply lookup_insert_eq.
  - intros ->. unfold parent_ok. redis_simpl. apply lookup_partial_alter_eq.
Qed.

End ExpireOne.

Lemma expire_one_forgets_witness :
  let key := queueKey demo_env "task" (Some "u1") in
  ∃ s', expire_one "ttl:shard:0" "rq:" "rq:ttl:queue" "rq:ttl:items" 30000 5
          (ttl_member key "run1" "org1") key "run1" "org1" (mem_empty (0, 0)) = (Ok tt, s') ∧
        ZALL "rq:ttl:queue" s' !! "run1" = Some 5.
Proof.
  intros key.
  destruct (expire_one_forgets "ttl:shard:0" "rq:" "rq:ttl:queue" "rq:ttl:items" 30000 5 demo_env
    "task" (Some "u1") "run1" (mem_empty (0, 0))) as (s' & Hrun & _ & _ & _ & _ & _ & Hw & _).
  - exact demo_env_ok.
  - split; [reflexivity..|discriminate].
  - reflexivity.
  - apply demo_no_ck. discriminate.
  - intros c [= <-]. split; [reflexivity|]. split; reflexivity.
  - apply (bool_decide_unpack _). vm_compute. exact I.
  - exists s'. split; [exact Hrun|exact Hw].
Defined.
