(* ===== verification/RunQueue.v ===== *)
(** * RunQueue: the methods of the run queue
    (run-queue/index.ts, class [RunQueue])

    One definition per method.  A method computes the keys with the key producer,
    calls scripts and schedules jobs; it is a function on the state [world] (the
    Redis database, the jobs of the background worker, the cool-off table) that
    returns a value or an error.  The clock ([Date.now()]), generated ids, the
    random number and [Math.pow] are arguments; SHA-256 (of the shard hash) is a
    parameter.  Logging and tracing are left out. *)

From Stdlib Require Import SpecFloat.
From S2P Require Import Prelude Text Redis Listing Messages Retry WorkerQueueResolver Jobs Scripts KeyProducer.
Local Open Scope Z_scope.

(** ** Options, errors, state *)

(** [options.ttlSystem]. *)
Record ttl_options : Type := MkTtlOptions {
  ttl_shardCount : option Z;
  ttl_workerQueueSuffix : string;
  ttl_workerItemsSuffix : string;
  ttl_visibilityTimeoutMs : option Z;
}.

(** The part of [RunQueueOptions] that decides what the queue does. *)
Record RunQueueOptions : Type := MkRunQueueOptions {
  opt_keyPrefix : option string;
  opt_shardCount : option Z;
  opt_defaultEnvConcurrency : Z;
  opt_defaultEnvConcurrencyBurstFactor : option spec_float;
  opt_retryOptions : option RetryOptions;
  opt_processWorkerQueueDebounceMs : option Z;
  opt_masterQueueCooloffPeriodMs : option Z;
  opt_masterQueueCooloffCountThreshold : option Z;
  opt_ttlSystem : option ttl_options;
}.

(** What a method can throw. *)
Inductive rq_error : Type :=
| LuaError (e : lua_error)     (* a script raised *)
| BadQueueKey                  (* a queue key without ":" in [descriptorFromQueue] *)
| Unfinished.                  (* the recursion did not end within the fuel of the model *)

(** [QueueCooloffState]. *)
Inductive QueueCooloffState : Type :=
| CoolNormal (consecutiveFailures : Z)
| CoolOff (cooloffExpiresAt : Z).

Record world (db J : Type) : Type := World {
  w_redis : db;
  w_worker : J;
  w_cooloff : gmap string QueueCooloffState;
}.
Arguments World {db J}.
Arguments w_redis {db J}.
Arguments w_worker {db J}.
Arguments w_cooloff {db J}.

(** ** The monad of the methods *)

Definition M (db J A : Type) : Type := world db J → outcome rq_error A * world db J.

Section Monad.
Context {db J : Type}.

Definition m_ret {A} (a : A) : M db J A := λ w, (Ok a, w).

Definition m_throw {A} (e : rq_error) : M db J A := λ w, (Err e, w).

Definition m_bind {A B} (m : M db J A) (f : A → M db J B) : M db J B :=
  λ w, match m w with
       | (Ok a, w) => f a w
       | (Err e, w) => (Err e, w)
       end.

(** [tryCatch(promise)]. *)
Definition m_try {A} (m : M db J A) : M db J (outcome rq_error A) :=
  λ w, let '(r, w) := m w in (Ok r, w).

(** A key that may fail to be built. *)
Definition m_key {A} (k : option A) : M db J A :=
  match k with Some a => m_ret a | None => m_throw BadQueueKey end.

(** A read of the database. *)
Definition m_get {A} (f : db → A) : M db J A := λ w, (Ok (f (w_redis w)), w).

(** A command or script that does not raise. *)
Definition m_run {A} (f : db → A * db) : M db J A :=
  λ w, let '(a, s) := f (w_redis w) in (Ok a, World s (w_worker w) (w_cooloff w)).

Definition m_do (f : db → db) : M db J unit :=
  λ w, (Ok tt, World (f (w_redis w)) (w_worker w) (w_cooloff w)).

(** A script that may raise. *)
Definition m_script {A} (f : db → outcome lua_error A * db) : M db J A :=
  λ w, match f (w_redis w) with
       | (Ok a, s) => (Ok a, World s (w_worker w) (w_cooloff w))
       | (Err e, s) => (Err (LuaError e), World s (w_worker w) (w_cooloff w))
       end.

(** A call of the background worker. *)
Definition m_worker (f : J → J) : M db J unit :=
  λ w, (Ok tt, World (w_redis w) (f (w_worker w)) (w_cooloff w)).

Definition m_cooloff {A} (f : gmap string QueueCooloffState → A * gmap string QueueCooloffState)
    : M db J A :=
  λ w, let '(a, c) := f (w_cooloff w) in (Ok a, World (w_redis w) (w_worker w) c).

(** [for (const a of l) await body(a)]. *)
Fixpoint m_each {A} (body : A → M db J unit) (l : list A) : M db J unit :=
  match l with
  | [] => m_ret tt
  | a :: l => m_bind (body a) (λ _, m_each body l)
  end.

End Monad.

Declare Scope method_scope.
Delimit Scope method_scope with method.
Notation "x <- m ;; k" := (m_bind m (λ x, k))
  (at level 100, m at next level, right associativity) : method_scope.
Notation "m ;;; k" := (m_bind m (λ _, k)) (at level 100, right associativity) : method_scope.
Open Scope method_scope.

Section Methods.
Context {db J : Type} {R : Redis rq_value db} {Q : JobQueue J}.
Context (o : RunQueueOptions) (sha256 : string → list Z).
Context (overrides : option WorkerQueueOverrides).
Implicit Types (w : world db J).

(** ** Derived options *)

Definition keyPrefix : string := default "" (opt_keyPrefix o).
Definition shardCount : Z := default 2 (opt_shardCount o).
Definition burstDefault : spec_float :=
  default (double_of_Z 1) (opt_defaultEnvConcurrencyBurstFactor o).

Definition defaultRetrySettings : RetryOptions :=
  MkRetryOptions (Some 12) (Some (double_of_Z 2)) (Some 1000) (Some 3600000) (Some true).

Definition retryOptions : RetryOptions := default defaultRetrySettings (opt_retryOptions o).

(** What the client does to every key: prepend the prefix. *)
Definition pk (k : string) : string := keyPrefix +:+ k.

(** [MinimalAuthenticatedEnvironment]. *)
Record MinimalAuthenticatedEnvironment : Type := MkAuthEnv {
  ae_env : env_obj;
  ae_type : RuntimeEnvironmentType;
  maximumConcurrencyLimit : Z;
  concurrencyLimitBurstFactor : spec_float;
}.

(** ** Limits and reads *)

Definition updateQueueConcurrencyLimits (env : MinimalAuthenticatedEnvironment) (queue : string)
    (concurrency : Z) : M db J unit :=
  m_do (SET (pk (queueConcurrencyLimitKey (ae_env env) queue)) (VNumber concurrency)).

Definition removeQueueConcurrencyLimits (env : MinimalAuthenticatedEnvironment) (queue : string)
    : M db J unit :=
  m_do (DEL (pk (queueConcurrencyLimitKey (ae_env env) queue))).

(** A reply that is neither [null] nor the empty text. *)
Definition GET_truthy (k : string) (s : db) : option rq_value :=
  match GET k s with
  | Some (VText t) => if truthy t then Some (VText t) else None
  | v => v
  end.

(** [result ? Number(result) : undefined]; the inner [None] is [NaN]. *)
Definition getQueueConcurrencyLimit (env : MinimalAuthenticatedEnvironment) (queue : string)
    : M db J (option (option Z)) :=
  m_get (λ s, tonumber <$> GET_truthy (pk (queueConcurrencyLimitKey (ae_env env) queue)) s).

Definition updateEnvConcurrencyLimits (env : MinimalAuthenticatedEnvironment) : M db J unit :=
  m_do (updateEnvironmentConcurrencyLimits (pk (envConcurrencyLimitKey (ByEnv (ae_env env))))
          (pk (envConcurrencyLimitBurstFactorKey (ByEnv (ae_env env))))
          (maximumConcurrencyLimit env) (concurrencyLimitBurstFactor env)).

Definition getEnvConcurrencyLimit (env : MinimalAuthenticatedEnvironment) : M db J (option Z) :=
  m_get (λ s,
    match GET_truthy (pk (envConcurrencyLimitKey (ByEnv (ae_env env)))) s with
    | Some v => tonumber v
    | None => Some (opt_defaultEnvConcurrency o)
    end).

Definition getEnvConcurrencyBurstFactor (env : MinimalAuthenticatedEnvironment)
    : M db J (option spec_float) :=
  m_get (λ s,
    match GET_truthy (pk (envConcurrencyLimitBurstFactorKey (ByEnv (ae_env env)))) s with
    | Some v => todouble v
    | None => Some burstDefault
    end).

Definition getEnvConcurrencyLimitWithBurstFactor (env : MinimalAuthenticatedEnvironment)
    : M db J (option Z) :=
  burstFactor <- getEnvConcurrencyBurstFactor env ;;
  limit <- getEnvConcurrencyLimit env ;;
  m_ret (f ← burstFactor; l ← limit; floor_mul l f).

Definition getCurrentConcurrencyOfEnvironment (env : MinimalAuthenticatedEnvironment)
    : M db J (gset string) :=
  m_get (SMEMBERS (pk (envCurrentConcurrencyKey (ByEnv (ae_env env))))).

Definition getCurrentConcurrencyOfQueue (env : MinimalAuthenticatedEnvironment) (queue : string)
    : M db J (gset string) :=
  m_get (SMEMBERS (pk (queueCurrentConcurrencyKey (ae_env env) queue None))).

Definition lengthOfQueue (env : MinimalAuthenticatedEnvironment) (queue : string)
    (concurrencyKey : option string) : M db J Z :=
  m_get (ZCARD (pk (queueKey (ae_env env) queue concurrencyKey))).

Definition lengthOfQueueAvailableMessages (env : MinimalAuthenticatedEnvironment) (queue : string)
    (currentTime : Z) (concurrencyKey : option string) : M db J Z :=
  m_get (ZCOUNT (pk (queueKey (ae_env env) queue concurrencyKey)) currentTime).

Definition lengthOfEnvQueue (env : MinimalAuthenticatedEnvironment) : M db J Z :=
  m_get (ZCARD (pk (envQueueKey (ae_env env)))).

Definition lengthOfDeadLetterQueue (env : MinimalAuthenticatedEnvironment) : M db J Z :=
  m_get (ZCARD (pk (deadLetterQueueKey (ByEnv (ae_env env))))).

(** [!!result]: the reply is a text, truthy also for the score 0. *)
Definition messageInDeadLetterQueue (env : MinimalAuthenticatedEnvironment) (messageId : string)
    : M db J bool :=
  m_get (λ s, bool_decide (is_Some (ZSCORE (pk (deadLetterQueueKey (ByEnv (ae_env env)))) messageId s))).

Definition oldestMessageInQueue (env : MinimalAuthenticatedEnvironment) (queue : string)
    (concurrencyKey : option string) : M db J (option Z) :=
  m_get (λ s,
    match ZRANGE (pk (queueKey (ae_env env) queue concurrencyKey)) 0 s with
    | [] => None
    | (_, score) :: _ => Some score
    end).

Definition currentConcurrencyOfQueue (env : MinimalAuthenticatedEnvironment) (queue : string)
    (concurrencyKey : option string) : M db J Z :=
  m_get (SCARD (pk (queueCurrentConcurrencyKey (ae_env env) queue concurrencyKey))).

Definition currentDequeuedOfQueue (env : MinimalAuthenticatedEnvironment) (queue : string)
    (concurrencyKey : option string) : M db J Z :=
  m_get (SCARD (pk (queueCurrentDequeuedKey (ae_env env) queue concurrencyKey))).

(** A record of numbers by queue, later entries winning. *)
Definition currentConcurrencyOfQueues (env : MinimalAuthenticatedEnvironment) (queues : list string)
    : M db J (gmap string Z) :=
  m_get (λ s, foldl (λ acc queue,
    <[queue := SCARD (pk (queueCurrentDequeuedKey (ae_env env) queue None)) s]> acc) ∅ queues).

Definition lengthOfQueues (env : MinimalAuthenticatedEnvironment) (queues : list string)
    : M db J (gmap string Z) :=
  m_get (λ s, foldl (λ acc queue,
    <[queue := ZCARD (pk (queueKey (ae_env env) queue None)) s]> acc) ∅ queues).

Definition currentConcurrencyOfEnvironment (env : MinimalAuthenticatedEnvironment) : M db J Z :=
  m_get (SCARD (pk (envCurrentDequeuedKey (ByEnv (ae_env env))))).

Definition operationalCurrentConcurrencyOfEnvironment (env : MinimalAuthenticatedEnvironment)
    : M db J Z :=
  m_get (SCARD (pk (envCurrentConcurrencyKey (ByEnv (ae_env env))))).

Definition messageExists (orgId messageId : string) : M db J bool :=
  m_get (EXISTS (pk (messageKey orgId messageId))).

(** ** Messages *)

(** [readMessageFromKey] with [parseRawMessage]: a stored value that is not a
    message is logged and treated as absent. *)
Definition readMessageFromKey (key : string) : M db J (option OutputPayload) :=
  m_get (λ s, v ← GET_truthy (pk key) s; cjson_decode v).

Definition readMessage (orgId messageId : string) : M db J (option OutputPayload) :=
  readMessageFromKey (messageKey orgId messageId).

Definition workerQueueOf (m : OutputPayload) : string := getWorkerQueueFromMessage overrides m.

(** [#getTtlShardForQueue] and the same shard computed by the dequeue calls. *)
Definition ttlShardCount : Z :=
  match opt_ttlSystem o with
  | Some t => default shardCount (ttl_shardCount t)
  | None => shardCount
  end.

Definition getTtlShardForQueue (queueKey : string) : option Z :=
  envId ← envIdFromQueue queueKey;
  Some (masterQueueShardForEnvironment sha256 envId ttlShardCount).

(** The keys every call derives from a queue key, with the prefix of the client;
    [ttlQueueKey] is left to the caller. *)
Definition keys_for (masterQueueKey workerQueue ttlQueueKey queue orgId messageId : string)
    : option rq_keys :=
  envCurrentConcurrencyKey ← envCurrentConcurrencyKeyFromQueue queue;
  envCurrentDequeuedKey ← envCurrentDequeuedKeyFromQueue queue;
  envQueueKey ← envQueueKeyFromQueue queue;
  envConcurrencyLimitKey ← envConcurrencyLimitKeyFromQueue queue;
  envConcurrencyLimitBurstFactorKey ← envConcurrencyLimitBurstFactorKeyFromQueue queue;
  deadLetterQueueKey ← deadLetterQueueKeyFromQueue queue;
  messageKeyPrefix ← messageKeyPrefixFromQueue queue;
  Some (MkKeys (pk masterQueueKey) (pk queue) (pk (messageKey orgId messageId))
          (pk (queueCurrentConcurrencyKeyFromQueue queue)) (pk envCurrentConcurrencyKey)
          (pk (queueCurrentDequeuedKeyFromQueue queue)) (pk envCurrentDequeuedKey)
          (pk envQueueKey) (pk ttlQueueKey) (pk (ckIndexKeyFromQueue queue))
          (pk (workerQueueKey workerQueue)) (pk (queueConcurrencyLimitKeyFromQueue queue))
          (pk envConcurrencyLimitKey) (pk envConcurrencyLimitBurstFactorKey)
          (pk deadLetterQueueKey) (pk messageKeyPrefix)).

(** The keys of a message's calls. *)
Definition message_keys (workerQueue ttlQueueKey : string) (m : InputPayload) : option rq_keys :=
  keys_for (masterQueueKeyForEnvironment sha256 (environmentId m) shardCount) workerQueue
    ttlQueueKey (queue m) (orgId m) (runId m).

(** ** Enqueue *)

(** [ttlInfo]: expiry, set and member. *)
Record ttl_info : Type := MkTtlInfo {
  ti_ttlExpiresAt : Z;
  ti_ttlQueueKey : string;
  ti_ttlMember : string;
}.

(** [#callEnqueueMessage]: one of the four scripts; [workerQueue] is the version-2
    field of the message. *)
Definition callEnqueueMessage (now : Z) (message : OutputPayload) (workerQueue : string)
    (ttlInfo : option ttl_info) (enableFastPath : bool) : M db J bool :=
  K <- m_key (message_keys workerQueue (default "" (ti_ttlQueueKey <$> ttlInfo)) message) ;;
  let queueName := queue message in
  let messageId := runId message in
  let messageData := VMessage message in
  let messageScore := timestamp message in
  let messageKeyValue := messageKey (orgId message) (runId message) in
  let dLimit := opt_defaultEnvConcurrency o in
  if truthy_opt (concurrencyKey message) then
    let ckWildcardName := toCkWildcard (queue message) in
    match ttlInfo with
    | Some ti =>
        m_script (enqueueMessageWithTtlCk K queueName messageId messageData messageScore
          (ti_ttlMember ti) (ti_ttlExpiresAt ti) ckWildcardName messageKeyValue dLimit burstDefault
          now enableFastPath)
    | None =>
        m_script (enqueueMessageCk K queueName messageId messageData messageScore ckWildcardName
          messageKeyValue dLimit burstDefault now enableFastPath)
    end
  else
    match ttlInfo with
    | Some ti =>
        m_script (enqueueMessageWithTtl K queueName messageId messageData messageScore
          (ti_ttlMember ti) (ti_ttlExpiresAt ti) messageKeyValue dLimit burstDefault now
          enableFastPath)
    | None =>
        m_script (Scripts.enqueueMessage K queueName messageId messageData messageScore
          messageKeyValue dLimit burstDefault now enableFastPath)
    end.

(** The queue a processing job is deduplicated by. *)
Definition dedupQueueKey (queueKey : string) (concurrencyKey : option string) : string :=
  if truthy_opt concurrencyKey then toCkWildcard queueKey else queueKey.

(** [worker.enqueueOnce({ id: dedupQueueKey, job: "processQueueForWorkerQueue", ... })]. *)
Definition scheduleProcessing (now : Z) (nonce dedupKey environmentId : string) : M db J unit :=
  m_worker (scheduleOnce now nonce dedupKey (ProcessQueue dedupKey environmentId)
              (now + default 500 (opt_processWorkerQueueDebounceMs o))).

(** [message.ttlExpiresAt && this.options.ttlSystem ? {...} : undefined]. *)
Definition ttl_info_of (queueKey : string) (message : InputPayload) : M db J (option ttl_info) :=
  match ttlExpiresAt message, opt_ttlSystem o with
  | Some t, Some _ =>
      if t =? 0 then m_ret None
      else
        shard <- m_key (getTtlShardForQueue queueKey) ;;
        m_ret (Some (MkTtlInfo t (ttlQueueKeyForShard shard)
                       (queueKey +:+ "|" +:+ runId message +:+ "|" +:+ orgId message)))
  | _, _ => m_ret None
  end.

Definition enqueueMessage (now : Z) (nonce : string) (env : MinimalAuthenticatedEnvironment)
    (message : InputPayload) (workerQueue : string) (skipDequeueProcessing enableFastPath : bool)
    : M db J unit :=
  let queueKey := queueKey (ae_env env) (queue message) (concurrencyKey message) in
  let dedupKey := dedupQueueKey queueKey (concurrencyKey message) in
  let messagePayload :=
    MkOutputPayload (set_attempt 0 (set_queue queueKey message)) (Version2 workerQueue) in
  ttlInfo <- ttl_info_of queueKey message ;;
  fastPathTaken <- callEnqueueMessage now messagePayload workerQueue ttlInfo enableFastPath ;;
  if negb fastPathTaken && negb skipDequeueProcessing then
    scheduleProcessing now nonce dedupKey (env_id (ae_env env))
  else m_ret tt.

(** ** Dequeue *)

(** [DequeuedMessage]. *)
Record DequeuedMessage : Type := MkDequeuedMessage {
  dm_messageId : string;
  dm_messageScore : Z;
  dm_message : OutputPayload;
  dm_workerQueueLength : option Z;
}.

(** The TTL set the dequeue scripts clean up, or the empty key. *)
Definition dequeueTtlKey (queue : string) : option string :=
  shard ← getTtlShardForQueue queue;
  Some (match opt_ttlSystem o with Some _ => ttlQueueKeyForShard shard | None => "" end).

(** The reply of a dequeue script as messages; a payload that was decoded by the
    script also parses here. *)
Definition to_messages (result : option (list dequeued)) : list DequeuedMessage :=
  match result with
  | None => []
  | Some ds => (λ '(id, score, m), MkDequeuedMessage id score m None) <$> ds
  end.

Definition callDequeueMessagesFromQueue (now : Z) (messageQueue : string) (shard maxCount : Z)
    : M db J (list DequeuedMessage) :=
  ttlQueueKey <- m_key (dequeueTtlKey messageQueue) ;;
  K <- m_key (keys_for (masterQueueKeyForShard shard) "" ttlQueueKey messageQueue "" "") ;;
  result <- m_script (dequeueMessagesFromQueue K messageQueue now (opt_defaultEnvConcurrency o)
                        burstDefault maxCount) ;;
  m_ret (to_messages result).

Definition callDequeueMessagesFromCkQueue (now : Z) (ckWildcardQueue : string) (shard maxCount : Z)
    : M db J (list DequeuedMessage) :=
  ttlQueueKey <- m_key (dequeueTtlKey ckWildcardQueue) ;;
  K <- m_key (keys_for (masterQueueKeyForShard shard) "" ttlQueueKey ckWildcardQueue "" "") ;;
  result <- m_script (dequeueMessagesFromCkQueue K ckWildcardQueue now
                        (opt_defaultEnvConcurrency o) burstDefault keyPrefix maxCount) ;;
  m_ret (to_messages result).

(** The dispatch on the wildcard name. *)
Definition dequeueFrom (now : Z) (queue : string) (shard maxCount : Z)
    : M db J (list DequeuedMessage) :=
  if isCkWildcard queue then callDequeueMessagesFromCkQueue now queue shard maxCount
  else callDequeueMessagesFromQueue now queue shard maxCount.

(** [#enqueueMessagesToWorkerQueues]: one [RPUSH] per message, in order. *)
Definition enqueueMessagesToWorkerQueues (messages : list DequeuedMessage) : M db J unit :=
  m_do (λ s, foldl (λ s m,
    RPUSH (pk (workerQueueKey (workerQueueOf (dm_message m))))
      (messageKey (orgId (dm_message m)) (dm_messageId m)) s) s messages).

(** [#processQueueForWorkerQueue]: repeat while full batches come back.  [fuel]
    bounds the recursion. *)
Fixpoint processQueueForWorkerQueue (fuel : nat) (now : Z) (queueKey environmentId : string)
    : M db J unit :=
  match fuel with
  | O => m_throw Unfinished
  | S fuel =>
      let shard := masterQueueShardForEnvironment sha256 environmentId shardCount in
      messages <- dequeueFrom now queueKey shard 10 ;;
      if (length messages =? 0)%nat then m_ret tt
      else
        enqueueMessagesToWorkerQueues messages ;;;
        if (length messages =? 10)%nat then
          processQueueForWorkerQueue fuel now queueKey environmentId
        else m_ret tt
  end.

(** ** The master queue consumer *)

Definition coolThreshold : Z := Z.max 1 (default 10 (opt_masterQueueCooloffCountThreshold o)).
Definition coolPeriod : Z := default 10000 (opt_masterQueueCooloffPeriodMs o).

(** The state read at the start of an iteration: [None] when the queue is skipped. *)
Definition cool_enter (now : Z) (queue : string) (c : gmap string QueueCooloffState)
    : option QueueCooloffState * gmap string QueueCooloffState :=
  match default (CoolNormal 0) (c !! queue) with
  | CoolOff expiresAt =>
      if now <? expiresAt then (None, c) else (Some (CoolOff expiresAt), delete queue c)
  | CoolNormal n => (Some (CoolNormal n), c)
  end.

(** The state after an attempt that returned [count] messages. *)
Definition cool_leave (now : Z) (queue : string) (st : QueueCooloffState) (count : nat)
    (c : gmap string QueueCooloffState) : unit * gmap string QueueCooloffState :=
  (tt,
   if (count =? 0)%nat then
     match st with
     | CoolNormal failures =>
         if coolThreshold <=? failures then <[queue := CoolOff (now + coolPeriod)]> c
         else <[queue := CoolNormal (failures + 1)]> c
     | CoolOff _ => c
     end
   else delete queue c).

(** One queue of one environment. *)
Definition processMasterQueue_one (now shard maxCount : Z) (queue : string) : M db J unit :=
  st <- m_cooloff (cool_enter now queue) ;;
  match st with
  | None => m_ret tt
  | Some st =>
      r <- m_try (dequeueFrom now queue shard maxCount) ;;
      match r with
      | Err _ => m_ret tt
      | Ok messages =>
          m_cooloff (cool_leave now queue st (length messages)) ;;;
          if (length messages =? 0)%nat then m_ret tt
          else enqueueMessagesToWorkerQueues messages
      end
  end.

(** [#processMasterQueueShard]; [distribute] is the selection strategy. *)
Definition processMasterQueueShard (distribute : string → string → db → list (string * list string))
    (now shard : Z) (consumerId : string) (maxCount : Z) : M db J unit :=
  envQueues <- m_get (distribute (pk (masterQueueKeyForShard shard)) consumerId) ;;
  m_each (λ env, m_each (processMasterQueue_one now shard maxCount) env.2) envQueues.

(** ** The worker queue *)

Definition dequeueMessageFromKey (key : string) : M db J (option OutputPayload) :=
  m_script (Scripts.dequeueMessageFromKey (pk key) keyPrefix).

(** [BLPOP key timeout]: the head of the list, or nothing at the deadline. *)
Definition BLPOP (k : string) (s : db) : option string * db :=
  match LALL k s with
  | [] => (None, s)
  | v :: _ => (Some v, LPOP k s)
  end.

(** The message behind a popped key, as the caller gets it. *)
Definition deliver (key : string) (workerQueueLength : Z) : M db J (option DequeuedMessage) :=
  message <- dequeueMessageFromKey key ;;
  m_ret (m ← message;
         Some (MkDequeuedMessage (runId (payload m)) (timestamp (payload m)) m
                 (Some workerQueueLength))).

Definition callDequeueMessageFromWorkerQueue (workerQueue : string) (blockingPop : bool)
    : M db J (option DequeuedMessage) :=
  let key := pk (workerQueueKey workerQueue) in
  if blockingPop then
    result <- m_run (BLPOP key) ;;
    match result with
    | None => m_ret None
    | Some messageKey =>
        workerQueueLength <- m_get (LLEN key) ;;
        deliver messageKey workerQueueLength
    end
  else
    result <- m_run (dequeueMessageFromWorkerQueueNonBlocking key) ;;
    match result with
    | None => m_ret None
    | Some (messageKey, workerQueueLength) => deliver messageKey workerQueueLength
    end.

(** [dequeueMessageFromWorkerQueue]; [blockingPop] is true by default. *)
Definition dequeueMessageFromWorkerQueue (workerQueue : string) (blockingPop : option bool)
    : M db J (option DequeuedMessage) :=
  callDequeueMessageFromWorkerQueue workerQueue (default true blockingPop).

Definition peekAllOnWorkerQueue (workerQueue : string) : M db J (list string) :=
  m_get (LALL (pk (workerQueueKey workerQueue))).

(** ** Acknowledge *)

Definition callAcknowledgeMessage (message : OutputPayload) (removeFromWorkerQueue : bool)
    : M db J unit :=
  K <- m_key (message_keys (workerQueueOf message) "" message) ;;
  let messageKeyValue := messageKey (orgId message) (runId message) in
  if truthy_opt (concurrencyKey message) then
    m_do (acknowledgeMessageCk K (runId message) (queue message) messageKeyValue
            removeFromWorkerQueue (toCkWildcard (queue message)))
  else
    m_do (Scripts.acknowledgeMessage K (runId message) (queue message) messageKeyValue
            removeFromWorkerQueue).

Definition acknowledgeMessage (now : Z) (nonce orgId messageId : string)
    (skipDequeueProcessing removeFromWorkerQueue : bool) : M db J unit :=
  message <- readMessage orgId messageId ;;
  match message with
  | None => m_ret tt
  | Some message =>
      (if skipDequeueProcessing then m_ret tt
       else scheduleProcessing now nonce
              (dedupQueueKey (queue message) (concurrencyKey message)) (environmentId message)) ;;;
      callAcknowledgeMessage message removeFromWorkerQueue
  end.

(** ** Nack *)

Definition callNackMessage (now : Z) (random : spec_float)
    (pow : spec_float → spec_float → spec_float) (message : OutputPayload) (retryAt : option Z)
    : M db J unit :=
  K <- m_key (message_keys (workerQueueOf message) "" message) ;;
  let nextRetryDelay := calculateNextRetryDelay random pow retryOptions (attempt message) in
  let messageScore :=
    match retryAt with
    | Some t => t
    | None => match nextRetryDelay with Some (Some d) => now + d | _ => now end
    end in
  if truthy_opt (concurrencyKey message) then
    m_do (nackMessageCk K (runId message) (queue message) (VMessage message) messageScore
            (toCkWildcard (queue message)))
  else
    m_do (Scripts.nackMessage K (runId message) (queue message) (VMessage message) messageScore).

Definition callMoveToDeadLetterQueue (message : OutputPayload) : M db J unit :=
  K <- m_key (message_keys (workerQueueOf message) "" message) ;;
  if truthy_opt (concurrencyKey message) then
    m_do (moveToDeadLetterQueueCk K (runId message) (queue message) (toCkWildcard (queue message)))
  else m_do (moveToDeadLetterQueue K (runId message) (queue message)).

(** [message.attempt = message.attempt + 1]. *)
Definition bump_attempt (m : OutputPayload) : OutputPayload :=
  MkOutputPayload (set_attempt (attempt m + 1) m) (version m).

(** [nackMessage]: [None] when the message is not found, [Some false] when it was
    dead-lettered, [Some true] when it was requeued. *)
Definition nackMessage (now : Z) (nonce : string) (random : spec_float)
    (pow : spec_float → spec_float → spec_float) (orgId messageId : string) (retryAt : option Z)
    (incrementAttemptCount skipDequeueProcessing : bool) : M db J (option bool) :=
  let maxAttempts := default 12 (maxAttempts retryOptions) in
  message <- readMessage orgId messageId ;;
  match message with
  | None => m_ret None
  | Some message =>
      let message := if incrementAttemptCount then bump_attempt message else message in
      if incrementAttemptCount && (maxAttempts <=? attempt message) then
        callMoveToDeadLetterQueue message ;;; m_ret (Some false)
      else
        (if skipDequeueProcessing then m_ret tt
         else scheduleProcessing now nonce
                (dedupQueueKey (queue message) (concurrencyKey message)) (environmentId message)) ;;;
        callNackMessage now random pow message retryAt ;;; m_ret (Some true)
  end.

(** ** Concurrency slots *)

Definition releaseAllConcurrency (orgId messageId : string) : M db J unit :=
  message <- readMessage orgId messageId ;;
  match message with
  | None => m_ret tt
  | Some message =>
      envCC <- m_key (envCurrentConcurrencyKeyFromQueue (queue message)) ;;
      envCD <- m_key (envCurrentDequeuedKeyFromQueue (queue message)) ;;
      m_do (releaseConcurrency (pk (queueCurrentConcurrencyKeyFromQueue (queue message))) (pk envCC)
              (pk (queueCurrentDequeuedKeyFromQueue (queue message))) (pk envCD) messageId)
  end.

(** [#callClearMessageFromConcurrencySets]; the queue is a bare name here. *)
Definition clearMessageFromConcurrencySets (runId orgId queue : string) (env : env_obj)
    : M db J unit :=
  m_do (Scripts.clearMessageFromConcurrencySets (pk (queueCurrentConcurrencyKey env queue None))
          (pk (envCurrentConcurrencyKey (ByEnv env))) (pk (queueCurrentDequeuedKey env queue None))
          (pk (envCurrentDequeuedKey (ByEnv env))) runId).

(** ** Removing the queues of an environment *)

(** A [MATCH] pattern whose only special character is "*". *)
Fixpoint glob (fuel : nat) (p s : string) : bool :=
  match fuel with
  | O => false
  | S fuel =>
      match p, s with
      | EmptyString, EmptyString => true
      | EmptyString, String _ _ => false
      | String c p', EmptyString => bool_decide (c = "*"%char) && glob fuel p' ""
      | String c p', String d s' =>
          if bool_decide (c = "*"%char) then glob fuel p' s || glob fuel p s'
          else bool_decide (c = d) && glob fuel p' s'
      end
  end.

(** Every recursive call shortens the pattern or the text. *)
Definition glob_match (p s : string) : bool := glob (String.length p + String.length s + 1) p s.

Definition removeEnvironmentQueuesFromMasterQueue
    (runtimeEnvironmentId organizationId projectId : string) : M db J unit :=
  let masterQueue := pk (masterQueueKeyForEnvironment sha256 runtimeEnvironmentId shardCount) in
  let pattern := queueKey_ids organizationId projectId "*" "*" None in
  m_do (λ s, foldl (λ s q, ZREM masterQueue q s) s
               (filter (λ q, glob_match pattern q) (zsorted (ZALL masterQueue s)).*1)).

(** ** Redrive *)

(** [handleRedriveMessage] on a well-formed notification; errors are only logged. *)
Definition handleRedriveMessage (now : Z) (nonce runId envId projectId orgId : string) : M db J unit :=
  r <- m_try (
    data <- readMessage orgId runId ;;
    match data with
    | None => m_ret tt
    | Some data =>
        let env := MkAuthEnv (EnvObj (environmentId data) (Messages.projectId data)
                                (Messages.orgId data)) (environmentType data) (-1) (double_of_Z 1) in
        enqueueMessage now nonce env (set_attempt 0 data) (workerQueueOf data) false false ;;;
        m_do (ZREM (pk (deadLetterQueueKey (ByDescriptor (MkEnvDescriptor orgId projectId envId))))
                runId)
    end) ;;
  m_ret tt.

(** ** Grouping by master queue *)

(** [new Set(l)]: the first occurrence of each element. *)
Fixpoint unique (l : list string) : list string :=
  match l with
  | [] => []
  | x :: l => x :: filter (λ y, y ≠ x) (unique l)
  end.

(** Group queue names by the master queue of their environment. *)
Fixpoint group_by_master (queues : list string) (g : list (string * list string))
    : option (list (string * list string)) :=
  match queues with
  | [] => Some g
  | q :: queues =>
      envId ← envIdFromQueue q;
      group_by_master queues
        (group_add (masterQueueKeyForEnvironment sha256 envId shardCount) q g)
  end.

(** ** TTL expiry *)

(** [#expireTtlRuns]: the queue keys, run ids and organizations of the expired runs. *)
Definition expireTtlRuns (shard now batchSize : Z) : M db J (list (string * string * string)) :=
  match opt_ttlSystem o with
  | None => m_ret []
  | Some ttl =>
      results <- m_script (Scripts.expireTtlRuns (pk (ttlQueueKeyForShard shard)) keyPrefix now
                   batchSize (keyPrefix +:+ ttl_workerQueueSuffix ttl)
                   (keyPrefix +:+ ttl_workerItemsSuffix ttl)
                   (default 30000 (ttl_visibilityTimeoutMs ttl))) ;;
      let expiredRuns :=
        (λ member, let parts := split_char "|" member in
                   (part parts 0, part parts 1, part parts 2)) <$> results in
      groups <- m_key (group_by_master ((λ r, r.1.1) <$> expiredRuns) []) ;;
      m_do (λ s, foldl (λ s '(masterKey, queueNames),
        let nonCkQueues := filter (λ q, ¬ includes ":ck:" q) queueNames in
        match nonCkQueues with
        | [] => s
        | _ => migrateLegacyMasterQueues (pk masterKey) keyPrefix (unique nonCkQueues) s
        end) s groups) ;;;
      m_ret expiredRuns
  end.

(** ** Migration *)

Definition migrateLegacyMasterQueue (legacyMasterQueue : string) : M db J unit :=
  queueNames <- m_get (λ s, (ZRANGE (pk (legacyMasterQueueKey legacyMasterQueue)) (-1) s).*1) ;;
  groups <- m_key (group_by_master queueNames []) ;;
  m_do (λ s, foldl (λ s '(masterKey, queueNames),
    migrateLegacyMasterQueues (pk masterKey) keyPrefix queueNames s) s groups).

(** ** The concurrency sweeper *)

Definition markRunsForAck (now : Z) (completedRuns : list (string * string)) : M db J unit :=
  m_do (λ s, foldl (λ s '(id, org), ZADD (pk markedForAckKey) now (org +:+ ":" +:+ id) s)
               s completedRuns).

(** [processCurrentConcurrencyRunIds]; [callback] asks the database which runs are
    complete, [None] when no sweeper is configured. *)
Definition processCurrentConcurrencyRunIds
    (callback : option (list string → list (string * string))) (now : Z) (runIds : list string)
    : M db J unit :=
  match callback with
  | None => m_ret tt
  | Some callback =>
      match callback runIds with
      | [] => m_ret tt
      | completedRuns => markRunsForAck now completedRuns
      end
  end.

Definition processMarkedRun (now : Z) (nonce orgId messageId : string) : M db J unit :=
  acknowledgeMessage now nonce orgId messageId true false.

(** [processMarkedRuns]: acknowledge the marked runs, 100 at a time, until none is
    left; [fuel] bounds the recursion. *)
Fixpoint processMarkedRuns (fuel : nat) (now : Z) (nonce : string) : M db J unit :=
  match fuel with
  | O => m_throw Unfinished
  | S fuel =>
      results <- m_run (getMarkedRunsForAck (pk markedForAckKey) 100) ;;
      match results with
      | [] => m_ret tt
      | markedRuns =>
          m_each (λ '(org, messageId, _),
            r <- m_try (processMarkedRun now nonce org messageId) ;; m_ret tt) markedRuns ;;;
          more <- m_get (ZCARD (pk markedForAckKey)) ;;
          if 0 <? more then processMarkedRuns fuel now nonce else m_ret tt
      end
  end.

End Methods.
