(* ===== verification/KeySpace.v ===== *)
(** * KeySpace: the keys of one Redis type are pairwise different

    A queue is addressed by its environment, name and concurrency key ([addr]).
    The sorted sets, the sets and the strings of the run queue are enumerated by
    [zkey], [skey] and [vkey]; the text of a key determines it. *)

From stdpp Require Import pretty.
From S2P Require Import Prelude Text KeyProducer Expire.

(** The address of a queue. *)
Record addr : Type := Addr {
  a_env : env_obj;
  a_queue : string;
  a_ck : option string;
}.

#[export] Instance env_obj_eq_dec : EqDecision env_obj.
Proof. solve_decision. Defined.
#[export] Instance addr_eq_dec : EqDecision addr.
Proof. solve_decision. Defined.

(** Addresses the system uses: ids and names without ":" and not the marker "ck",
    concurrency keys without ":", not empty, not the wildcard. *)
Record addr_ok (a : addr) : Prop := AddrOk {
  ad_env : env_ok (a_env a);
  ad_queue : plain (a_queue a);
  ad_no_ck : no_ck (a_env a) (a_queue a);
  ad_ck c : a_ck a = Some c → truthy c = true ∧ plain c ∧ dot_plus_end c = true ∧ c ≠ "*";
}.

Definition addr_key (a : addr) : string := queueKey (a_env a) (a_queue a) (a_ck a).

(** Sorted sets, sets and strings; [ZUnused] is the empty name a call passes for the
    TTL set when there is no TTL system. *)
Inductive zkey : Type :=
| ZQueue (a : addr)
| ZEnv (org env : string)
| ZDead (e : env_obj)
| ZIndex (e : env_obj) (q : string)
| ZMaster (n : Z)
| ZTtl (n : Z)
| ZMarked
| ZUnused.

Inductive skey : Type :=
| SQueueCC (a : addr)
| SQueueCD (a : addr)
| SEnvCC (e : env_obj)
| SEnvCD (e : env_obj).

Inductive vkey : Type :=
| VMsg (org id : string)
| VQueueLimit (e : env_obj) (q : string)
| VEnvLimit (e : env_obj)
| VEnvBurst (e : env_obj).

#[export] Instance zkey_eq_dec : EqDecision zkey.
Proof. solve_decision. Defined.
#[export] Instance skey_eq_dec : EqDecision skey.
Proof. solve_decision. Defined.
#[export] Instance vkey_eq_dec : EqDecision vkey.
Proof. solve_decision. Defined.

Definition zkey_text (k : zkey) : string :=
  match k with
  | ZQueue a => addr_key a
  | ZEnv o e => envQueueKey (EnvObj e "" o)
  | ZDead e => deadLetterQueueKey (ByEnv e)
  | ZIndex e q => queueKey e q None +:+ ":" +:+ CK_INDEX_PART
  | ZMaster n => masterQueueKeyForShard n
  | ZTtl n => ttlQueueKeyForShard n
  | ZMarked => markedForAckKey
  | ZUnused => ""
  end.

Definition skey_text (k : skey) : string :=
  match k with
  | SQueueCC a => queueCurrentConcurrencyKey (a_env a) (a_queue a) (a_ck a)
  | SQueueCD a => queueCurrentDequeuedKey (a_env a) (a_queue a) (a_ck a)
  | SEnvCC e => envCurrentConcurrencyKey (ByEnv e)
  | SEnvCD e => envCurrentDequeuedKey (ByEnv e)
  end.

Definition vkey_text (k : vkey) : string :=
  match k with
  | VMsg o m => messageKey o m
  | VQueueLimit e q => queueConcurrencyLimitKey e q
  | VEnvLimit e => envConcurrencyLimitKey (ByEnv e)
  | VEnvBurst e => envConcurrencyLimitBurstFactorKey (ByEnv e)
  end.

(** Well-formed keys. *)
Definition zkey_ok (k : zkey) : Prop :=
  match k with
  | ZQueue a => addr_ok a
  | ZEnv o e => plain o ∧ plain e
  | ZDead e => env_ok e
  | ZIndex e q => env_ok e ∧ plain q
  | _ => True
  end.

Definition skey_ok (k : skey) : Prop :=
  match k with
  | SQueueCC a | SQueueCD a => addr_ok a
  | SEnvCC e | SEnvCD e => env_ok e
  end.

Definition vkey_ok (k : vkey) : Prop :=
  match k with
  | VMsg o m => plain o ∧ plain m
  | VQueueLimit e q => env_ok e ∧ plain q
  | VEnvLimit e | VEnvBurst e => env_ok e
  end.

(** ** Parts *)

Definition addr_parts (a : addr) : list string :=
  base_parts (a_env a) (a_queue a) ++ match a_ck a with Some c => ["ck"; c] | None => [] end.

Definition env_parts (e : env_obj) : list string :=
  ["{org"; env_organization_id e +:+ "}"; "proj"; env_project_id e; "env"; env_id e].

Definition zkey_parts (k : zkey) : list string :=
  match k with
  | ZQueue a => addr_parts a
  | ZEnv o e => ["{org"; o +:+ "}"; "env"; e]
  | ZDead e => env_parts e ++ [DEAD_LETTER_QUEUE_PART]
  | ZIndex e q => base_parts e q ++ [CK_INDEX_PART]
  | ZMaster n => MASTER_QUEUE_PART :: "shard" :: split_char ":" (pretty n)
  | ZTtl n => "ttl" :: "shard" :: split_char ":" (pretty n)
  | ZMarked => [markedForAckKey]
  | ZUnused => [""]
  end.

Definition skey_parts (k : skey) : list string :=
  match k with
  | SQueueCC a => addr_parts a ++ [CURRENT_CONCURRENCY_PART]
  | SQueueCD a => addr_parts a ++ [CURRENT_DEQUEUED_PART]
  | SEnvCC e => env_parts e ++ [CURRENT_CONCURRENCY_PART]
  | SEnvCD e => env_parts e ++ [CURRENT_DEQUEUED_PART]
  end.

Definition vkey_parts (k : vkey) : list string :=
  match k with
  | VMsg o m => ["{org"; o +:+ "}"; MESSAGE_PART; m]
  | VQueueLimit e q => base_parts e q ++ [CONCURRENCY_LIMIT_PART]
  | VEnvLimit e => env_parts e ++ [CONCURRENCY_LIMIT_PART]
  | VEnvBurst e => env_parts e ++ [CONCURRENCY_LIMIT_BURST_FACTOR_PART]
  end.

Lemma split_addr a : addr_ok a → split_char ":" (addr_key a) = addr_parts a.
Proof.
  intros [He Hq _ Hc]. unfold addr_key, addr_parts. destruct (a_ck a) as [c|].
  - destruct (Hc c eq_refl) as (Ht & Hp & _). by apply split_queueKey_ck_plain.
  - rewrite split_queueKey by done. by rewrite (right_id_L [] (++)).
Qed.

Lemma split_addr_suffix a t :
  addr_ok a → plain t → split_char ":" (addr_key a +:+ String ":" t) = addr_parts a ++ [t].
Proof.
  intros [He Hq _ Hc] Ht. unfold addr_key, addr_parts. destruct (a_ck a) as [c|].
  - destruct (Hc c eq_refl) as (Htr & Hp & _). rewrite split_queueKey_ck_suffix by done.
    by rewrite <- (assoc_L (++)).
  - rewrite split_queueKey_suffix by done. by rewrite (right_id_L [] (++)).
Qed.

Lemma split_zkey k : zkey_ok k → split_char ":" (zkey_text k) = zkey_parts k.
Proof.
  destruct k as [a|org env|e|e q|n|n| |]; simpl.
  - apply split_addr.
  - intros [Ho He]. unfold plain in *. unfold_keys. simpl. by split_norm.
  - intros []. unfold deadLetterQueueKey, DEAD_LETTER_QUEUE_PART. unfold_keys. by split_norm.
  - intros [He Hq]. by apply split_queueKey_suffix.
  - intros _. unfold masterQueueKeyForShard, MASTER_QUEUE_PART. cbn [join]. text_norm. by split_norm.
  - intros _. unfold ttlQueueKeyForShard. cbn [join]. text_norm. by split_norm.
  - done.
  - done.
Qed.

Lemma split_skey k : skey_ok k → split_char ":" (skey_text k) = skey_parts k.
Proof.
  destruct k as [a|a|e|e]; simpl.
  - intros Ha. by apply (split_addr_suffix a).
  - intros Ha. by apply (split_addr_suffix a).
  - intros []. unfold envCurrentConcurrencyKey, CURRENT_CONCURRENCY_PART. unfold_keys. by split_norm.
  - intros []. unfold envCurrentDequeuedKey, CURRENT_DEQUEUED_PART. unfold_keys. by split_norm.
Qed.

Lemma split_vkey k : vkey_ok k → split_char ":" (vkey_text k) = vkey_parts k.
Proof.
  destruct k as [o m|e q|e|e]; cbn [vkey_ok vkey_text vkey_parts].
  - intros [Ho Hm]. unfold plain in *. rewrite messageKey_text. unfold MESSAGE_PART. text_norm.
    by split_norm.
  - intros [He Hq]. by apply split_queueKey_suffix.
  - intros []. unfold envConcurrencyLimitKey, CONCURRENCY_LIMIT_PART. unfold_keys. by split_norm.
  - intros []. unfold envConcurrencyLimitBurstFactorKey, CONCURRENCY_LIMIT_BURST_FACTOR_PART.
    unfold_keys. by split_norm.
Qed.

(** ** Injectivity *)

Lemma base_parts_inj e q e' q' : base_parts e q = base_parts e' q' → e = e' ∧ q = q'.
Proof.
  unfold base_parts. intros [= Ho Hp He ->]. apply string_app_inj_r in Ho.
  destruct e, e'; simpl in *. by subst.
Qed.

Lemma env_parts_inj e e' : env_parts e = env_parts e' → e = e'.
Proof.
  unfold env_parts. intros [= Ho Hp He]. apply string_app_inj_r in Ho.
  destruct e, e'; simpl in *. by subst.
Qed.

Lemma length_base_parts e q : length (base_parts e q) = 8.
Proof. done. Qed.

Lemma addr_parts_inj a a' l l' :
  length l = length l' → addr_parts a ++ l = addr_parts a' ++ l' → a = a' ∧ l = l'.
Proof.
  intros Hl H. unfold addr_parts in H. rewrite <- !(assoc_L (++)) in H.
  apply app_inj_1 in H as [[He Hq]%base_parts_inj H]; [|done].
  destruct a as [e q [c|]], a' as [e' q' [c'|]]; simpl in *;
    first [ by simplify_eq | exfalso; apply (f_equal length) in H; simpl in H; lia ].
Qed.

(** Part lists of different shape. *)
Local Ltac differ H :=
  exfalso; revert H; clear; unfold addr_parts, base_parts, env_parts;
  repeat match goal with a : addr |- _ => destruct a as [? ? []] end; simpl; discriminate.

Lemma zkey_inj k k' : zkey_ok k → zkey_ok k' → zkey_text k = zkey_text k' → k = k'.
Proof.
  intros Hk Hk' H.
  assert (split_char ":" (zkey_text k) = split_char ":" (zkey_text k')) as Hs by (by rewrite H).
  rewrite !split_zkey in Hs by done. clear Hk Hk'.
  destruct k as [a|org env|e|e q|n|n| |], k' as [a'|org' env'|e'|e' q'|n'|n'| |];
    cbn [zkey_parts] in *; try done; try (differ Hs).
  - destruct (addr_parts_inj a a' [] []) as [-> _]; [done| |done]. by rewrite !(right_id_L [] (++)).
  - injection Hs as Ho ->. by apply string_app_inj_r in Ho as ->.
  - by apply app_inj_tail in Hs as [->%env_parts_inj _].
  - by apply app_inj_tail in Hs as [[-> ->]%base_parts_inj _].
  - change ("masterQueue:shard:" +:+ pretty n = "masterQueue:shard:" +:+ pretty n') in H.
    apply string_app_inj in H. by apply (inj pretty) in H as ->.
  - change ("ttl:shard:" +:+ pretty n = "ttl:shard:" +:+ pretty n') in H.
    apply string_app_inj in H. by apply (inj pretty) in H as ->.
Qed.

Lemma skey_inj k k' : skey_ok k → skey_ok k' → skey_text k = skey_text k' → k = k'.
Proof.
  intros Hk Hk' H. apply (f_equal (split_char ":")) in H. rewrite !split_skey in H by done.
  clear Hk Hk'. destruct k as [a|a|e|e], k' as [a'|a'|e'|e']; cbn [skey_parts] in *;
    try (by apply addr_parts_inj in H as [-> ?]);
    try (by apply app_inj_tail in H as [->%env_parts_inj ?]); try (differ H).
Qed.

Lemma vkey_inj k k' : vkey_ok k → vkey_ok k' → vkey_text k = vkey_text k' → k = k'.
Proof.
  intros Hk Hk' H. apply (f_equal (split_char ":")) in H. rewrite !split_vkey in H by done.
  clear Hk Hk'. destruct k as [o m|e q|e|e], k' as [o' m'|e' q'|e'|e']; cbn [vkey_parts] in *;
    try (by apply app_inj_tail in H as [->%env_parts_inj ?]);
    try (by apply app_inj_tail in H as [[-> ->]%base_parts_inj ?]); try (differ H).
  injection H as Ho ->. by apply string_app_inj_r in Ho as ->.
Qed.
