(* ===== verification/System.v ===== *)
(** * System: the queues and slots of all runs

    The state of a run is where it is queued and which slots it holds
    ([run_state]).  [repr] says that a database holds exactly that for every run:
    in its own queue, in the queue of its environment, and in the concurrency sets
    of both.  The fragments the scripts are made of are shown to change the state
    of one run. *)

From Stdlib Require Import SpecFloat.
From stdpp Require Import functions.
From S2P Require Import Prelude Text Redis Listing Messages Scripts ScriptFacts Dequeue Lifecycle.
From S2P Require Import KeyProducer Expire KeySpace.
Local Open Scope Z_scope.

(** The state of one run: its position in its queue, and whether it is in the
    current-concurrency sets and in the current-dequeued sets. *)
Record run_state : Type := RunState {
  rs_queued : option Z;
  rs_slot : bool;
  rs_dequeued : bool;
}.

(** The state of all runs. *)
Definition runs : Type := string → run_state.

Definition no_runs : runs := λ _, RunState None false false.

(** One run changes. *)
Definition with_queued (x : option Z) (r : run_state) : run_state :=
  RunState x (rs_slot r) (rs_dequeued r).
Definition with_slot (b : bool) (r : run_state) : run_state :=
  RunState (rs_queued r) b (rs_dequeued r).
Definition with_dequeued (b : bool) (r : run_state) : run_state :=
  RunState (rs_queued r) (rs_slot r) b.
Definition no_slots (r : run_state) : run_state := RunState (rs_queued r) false false.

Definition change (f : run_state → run_state) (id : string) (σ : runs) : runs :=
  <[id := f (σ id)]> σ.

(** ** Keys *)

Definition org_of (e : env_obj) : string := env_organization_id e.

Definition ttl_zkey (n : option Z) : zkey := match n with Some n => ZTtl n | None => ZUnused end.

Lemma addr_env_ok a : addr_ok a → env_ok (a_env a).
Proof. by intros []. Qed.
Lemma env_org_ok e : env_ok e → plain (org_of e).
Proof. by intros []. Qed.
Lemma env_id_ok e : env_ok e → plain (env_id e).
Proof. by intros []. Qed.
Lemma addr_queue_ok a : addr_ok a → plain (a_queue a).
Proof. by intros []. Qed.
Lemma ttl_zkey_ok n : zkey_ok (ttl_zkey n).
Proof. by destruct n. Qed.

Create HintDb keys.
#[export] Hint Resolve addr_env_ok env_org_ok env_id_ok addr_queue_ok ttl_zkey_ok : keys.
#[export] Hint Extern 1 (zkey_ok _) => cbn [zkey_ok] : keys.
#[export] Hint Extern 1 (skey_ok _) => cbn [skey_ok] : keys.
#[export] Hint Extern 1 (vkey_ok _) => cbn [vkey_ok] : keys.
#[export] Hint Extern 1 (_ ∧ _) => split : keys.
#[export] Hint Extern 1 (plain "") => reflexivity : keys.

Section Keys.
(** The key prefix of the client. *)
Context (P : string).

Definition zk (k : zkey) : string := P +:+ zkey_text k.
Definition sk (k : skey) : string := P +:+ skey_text k.
Definition vk (k : vkey) : string := P +:+ vkey_text k.

Lemma zk_inj k k' : zkey_ok k → zkey_ok k' → zk k = zk k' → k = k'.
Proof. intros ?? H%string_app_inj. by apply zkey_inj. Qed.
Lemma sk_inj k k' : skey_ok k → skey_ok k' → sk k = sk k' → k = k'.
Proof. intros ?? H%string_app_inj. by apply skey_inj. Qed.
Lemma vk_inj k k' : vkey_ok k → vkey_ok k' → vk k = vk k' → k = k'.
Proof. intros ?? H%string_app_inj. by apply vkey_inj. Qed.

Lemma decide_zk {A} k k' (x y : A) :
  zkey_ok k → zkey_ok k' →
  (if decide (zk k = zk k') then x else y) = if decide (k = k') then x else y.
Proof.
  intros. destruct (decide (k = k')) as [->|]; [by rewrite decide_True|].
  rewrite decide_False; [done|]. by intros ?%zk_inj.
Qed.
Lemma decide_sk {A} k k' (x y : A) :
  skey_ok k → skey_ok k' →
  (if decide (sk k = sk k') then x else y) = if decide (k = k') then x else y.
Proof.
  intros. destruct (decide (k = k')) as [->|]; [by rewrite decide_True|].
  rewrite decide_False; [done|]. by intros ?%sk_inj.
Qed.
Lemma decide_vk {A} k k' (x y : A) :
  vkey_ok k → vkey_ok k' →
  (if decide (vk k = vk k') then x else y) = if decide (k = k') then x else y.
Proof.
  intros. destruct (decide (k = k')) as [->|]; [by rewrite decide_True|].
  rewrite decide_False; [done|]. by intros ?%vk_inj.
Qed.

End Keys.

(** Views of a database in terms of key descriptions. *)
Ltac by_key :=
  redis_simpl; rewrite ?decide_zk, ?decide_sk, ?decide_vk by (by eauto 12 with keys);
  repeat match goal with
  | |- context [decide (?k = ?k')] =>
      lazymatch type of k with zkey => idtac | skey => idtac | vkey => idtac end;
      destruct (decide (k = k')); [first [discriminate|simplify_eq]|]
  end.

Section System.
Context {db : Type} {R : Redis rq_value db} {L : RedisLaws R}.
(** The key prefix, the shard of an environment, the queue of each run. *)
Context (P : string) (shard : string → Z) (owner : string → addr).
Local Notation zk := (zk P).
Local Notation sk := (sk P).
Local Notation vk := (vk P).
Implicit Types (s t : db) (σ : runs) (a : addr) (e : env_obj) (id : string).

Definition master (e : env_obj) : string := zk (ZMaster (shard (env_id e))).

(** The wildcard entry of a queue with concurrency keys. *)
Definition wildcard (e : env_obj) (q : string) : string := queueKey e q (Some "*").
Definition addr_wild (a : addr) : option string := (λ _, wildcard (a_env a) (a_queue a)) <$> a_ck a.

(** The keys of the calls on a message [id] of the queue [a]. *)
Definition sys_keys (a : addr) (ttl : option Z) (wq o id : string) : rq_keys :=
  let e := a_env a in
  MkKeys (master e) (zk (ZQueue a)) (vk (VMsg o id))
    (sk (SQueueCC a)) (sk (SEnvCC e)) (sk (SQueueCD a)) (sk (SEnvCD e))
    (zk (ZEnv (org_of e) (env_id e))) (zk (ttl_zkey ttl)) (zk (ZIndex e (a_queue a)))
    (P +:+ KeyProducer.workerQueueKey wq) (vk (VQueueLimit e (a_queue a))) (vk (VEnvLimit e))
    (vk (VEnvBurst e)) (zk (ZDead e)) (vk (VMsg (org_of e) "")).

(** The word "queue" is not the queue of a concurrency key: the pattern
    "(.+):queue:" of [dequeueMessageFromKey] is greedy. *)
Definition word_ok (a : addr) : Prop := a_ck a = None ∨ a_queue a ≠ "queue".

(** A run the system knows. *)
Record run_ok (id : string) : Prop := RunOk {
  ro_id : plain id;
  ro_addr : addr_ok (owner id);
  ro_word : word_ok (owner id);
}.

Definition org_id (id : string) : string := org_of (a_env (owner id)).
Definition msg_key (id : string) : string := vk (VMsg (org_id id) id).

#[local] Hint Resolve ro_id ro_addr ro_word : keys.

(** Two keys of one type are different because their descriptions are. *)
Local Ltac key_ne :=
  let H := fresh in intros H;
  first [apply zk_inj in H; [|by eauto 12 with keys..]
        |apply sk_inj in H; [|by eauto 12 with keys..]
        |apply vk_inj in H; [|by eauto 12 with keys..]];
  first [discriminate H | congruence].

Lemma sys_keys_ok a ttl wq o id : addr_ok a → plain o → plain id → keys_ok (sys_keys a ttl wq o id).
Proof.
  intros Ha Ho Hid. split; cbn [sys_keys Scripts.masterQueueKey Scripts.queueKey Scripts.envQueueKey
    Scripts.ttlQueueKey Scripts.ckIndexKey Scripts.deadLetterQueueKey];
  repeat (apply NoDup_cons; split; [rewrite ?not_elem_of_cons; split_and?; try apply not_elem_of_nil|]);
    try apply NoDup_nil_2; destruct ttl; try key_ne.
Qed.

(** ** The database of a state *)

(** The run is in the environment queue of this organization and environment. *)
Definition in_env (o ev id : string) : Prop :=
  org_of (a_env (owner id)) = o ∧ env_id (a_env (owner id)) = ev.
#[local] Instance in_env_dec o ev id : Decision (in_env o ev id) := _.

Definition at_queue σ (b : Prop) `{Decision b} (id : string) : option Z :=
  if decide b then rs_queued (σ id) else None.

(** A message is the one of its run. *)
Record message_ok (m : OutputPayload) : Prop := MessageOk {
  mo_run : run_ok (runId m);
  mo_queue : queue m = addr_key (owner (runId m));
  mo_org : orgId m = org_id (runId m);
  mo_env : environmentId m = env_id (a_env (owner (runId m)));
  mo_ck : concurrencyKey m = a_ck (owner (runId m));
}.

Record repr s σ : Prop := Repr {
  rp_queue a id : addr_ok a → ZALL (zk (ZQueue a)) s !! id = at_queue σ (owner id = a) id;
  rp_env o ev id : plain o → plain ev →
    ZALL (zk (ZEnv o ev)) s !! id = at_queue σ (in_env o ev id) id;
  rp_cc a id : addr_ok a →
    id ∈ SMEMBERS (sk (SQueueCC a)) s ↔ owner id = a ∧ rs_slot (σ id) = true;
  rp_ecc e id : env_ok e →
    id ∈ SMEMBERS (sk (SEnvCC e)) s ↔ a_env (owner id) = e ∧ rs_slot (σ id) = true;
  rp_cd a id : addr_ok a →
    id ∈ SMEMBERS (sk (SQueueCD a)) s ↔ owner id = a ∧ rs_dequeued (σ id) = true;
  rp_ecd e id : env_ok e →
    id ∈ SMEMBERS (sk (SEnvCD e)) s ↔ a_env (owner id) = e ∧ rs_dequeued (σ id) = true;
  rp_msg k m : GET k s = Some (VMessage m) → message_ok m ∧ k = msg_key (runId m);
}.

(** The two databases agree on what [repr] looks at. *)
Record same_core s t : Prop := SameCore {
  sc_queue a : addr_ok a → ZALL (zk (ZQueue a)) t = ZALL (zk (ZQueue a)) s;
  sc_env o ev : plain o → plain ev → ZALL (zk (ZEnv o ev)) t = ZALL (zk (ZEnv o ev)) s;
  sc_sets k : skey_ok k → SMEMBERS (sk k) t = SMEMBERS (sk k) s;
  sc_msg k : GET k t = GET k s;
}.

Lemma repr_same s t σ : same_core s t → repr s σ → repr t σ.
Proof.
  intros [Hq He Hs Hm] []. split; intros;
    rewrite ?Hq, ?He, ?Hs by (by eauto with keys); try by auto.
  rewrite Hm in *. by auto.
Qed.

(** A sorted set that is no queue. *)
Definition aside (k : string) : Prop :=
  (∀ a, addr_ok a → k ≠ zk (ZQueue a)) ∧ (∀ o ev, plain o → plain ev → k ≠ zk (ZEnv o ev)).

Lemma aside_zk k :
  zkey_ok k → (∀ a, k ≠ ZQueue a) → (∀ o ev, k ≠ ZEnv o ev) → aside (zk k).
Proof.
  intros Hk Hq He. split.
  - intros a Ha H. apply zk_inj in H; [by apply (Hq a)|done|done].
  - intros o ev ?? H. apply zk_inj in H; [by apply (He o ev)|done|done].
Qed.

Lemma aside_master e : aside (master e).
Proof. by apply aside_zk. Qed.
Lemma aside_index a : addr_ok a → aside (zk (ZIndex (a_env a) (a_queue a))).
Proof. intros. apply aside_zk; eauto 12 with keys; done. Qed.
Lemma aside_ttl n : aside (zk (ttl_zkey n)).
Proof. destruct n; by apply aside_zk. Qed.
Lemma aside_dead e : env_ok e → aside (zk (ZDead e)).
Proof. intros. by apply aside_zk. Qed.
Lemma aside_marked : aside (zk ZMarked).
Proof. by apply aside_zk. Qed.

Local Ltac same := split; intros; by redis_simpl.

Lemma core_ZADD k x m s : aside k → same_core s (ZADD k x m s).
Proof. intros [Hq He]. split; intros; redis_simpl; try done; rewrite decide_False by auto; done. Qed.
Lemma core_ZREM k m s : aside k → same_core s (ZREM k m s).
Proof. intros [Hq He]. split; intros; redis_simpl; try done; rewrite decide_False by auto; done. Qed.
Lemma core_rebalance p c n s : aside p → same_core s (rebalance p c n s).
Proof.
  intros Hp. destruct (rebalance_cases p c n s) as [[_ ->]|(x & _ & ->)];
    [by apply core_ZREM|by apply core_ZADD].
Qed.
Lemma core_RPUSH k v s : same_core s (RPUSH k v s).
Proof. same. Qed.
Lemma core_LPOP k s : same_core s (LPOP k s).
Proof. same. Qed.
Lemma core_LREM k v s : same_core s (LREM k v s).
Proof. same. Qed.
Lemma core_HSET k f v s : same_core s (HSET k f v s).
Proof. same. Qed.
Lemma core_refl s : same_core s s.
Proof. done. Qed.
Lemma core_trans s1 s2 s3 : same_core s1 s2 → same_core s2 s3 → same_core s1 s3.
Proof.
  intros [] []. split; intros; (etrans; [|by auto]); by auto.
Qed.

(** ** The fragments of the scripts *)

Lemma change_eq f id σ : change f id σ id = f (σ id).
Proof. apply fn_lookup_insert. Qed.
Lemma change_ne f id id' σ : id ≠ id' → change f id σ id' = σ id'.
Proof. apply fn_lookup_insert_ne. Qed.

(** [s'] is [s] with the position of [id] set to [x] in its two queues. *)
Lemma repr_position id x s s' σ :
  addr_ok (owner id) → repr s σ →
  (∀ a id', addr_ok a → ZALL (zk (ZQueue a)) s' !! id' =
     if decide (owner id = a ∧ id' = id) then x else ZALL (zk (ZQueue a)) s !! id') →
  (∀ o ev id', plain o → plain ev → ZALL (zk (ZEnv o ev)) s' !! id' =
     if decide (in_env o ev id ∧ id' = id) then x else ZALL (zk (ZEnv o ev)) s !! id') →
  (∀ k, SMEMBERS k s' = SMEMBERS k s) → (∀ k, GET k s' = GET k s) →
  repr s' (change (with_queued x) id σ).
Proof.
  clear shard. intros Hid [] Hq He Hs Hg. split.
  - intros a id' Ha. rewrite Hq, rp_queue0 by done. unfold at_queue.
    destruct (decide (id' = id)) as [->|Hne].
    + rewrite change_eq. repeat case_decide; naive_solver.
    + rewrite change_ne by done. by rewrite decide_False by naive_solver.
  - intros o ev id' Ho Hev. rewrite He, rp_env0 by done. unfold at_queue.
    destruct (decide (id' = id)) as [->|Hne].
    + rewrite change_eq. repeat case_decide; naive_solver.
    + rewrite change_ne by done. by rewrite decide_False by naive_solver.
  - intros a id' Ha. rewrite Hs, rp_cc0 by done. by destruct (decide (id = id')) as [<-|];
      rewrite ?change_eq, ?change_ne by done.
  - intros a id' Ha. rewrite Hs, rp_ecc0 by done. by destruct (decide (id = id')) as [<-|];
      rewrite ?change_eq, ?change_ne by done.
  - intros a id' Ha. rewrite Hs, rp_cd0 by done. by destruct (decide (id = id')) as [<-|];
      rewrite ?change_eq, ?change_ne by done.
  - intros a id' Ha. rewrite Hs, rp_ecd0 by done. by destruct (decide (id = id')) as [<-|];
      rewrite ?change_eq, ?change_ne by done.
  - intros k m. rewrite Hg. by apply rp_msg0.
Qed.

Definition env_queue (e : env_obj) : string := zk (ZEnv (org_of e) (env_id e)).

Lemma repr_put id x s σ :
  addr_ok (owner id) → repr s σ →
  repr (ZADD (env_queue (a_env (owner id))) x id (ZADD (zk (ZQueue (owner id))) x id s))
    (change (with_queued (Some x)) id σ).
Proof.
  clear shard. intros Hid Hr. apply (repr_position id (Some x) s); try done; [intros a id' Ha|intros o ev id' Ho Hev|by intros; redis_simpl..];
    unfold env_queue, in_env; by_key; rewrite ?lookup_insert;
    repeat case_decide; naive_solver.
Qed.

Lemma repr_unput id s σ :
  addr_ok (owner id) → repr s σ →
  repr (ZREM (env_queue (a_env (owner id))) id (ZREM (zk (ZQueue (owner id))) id s))
    (change (with_queued None) id σ).
Proof.
  clear shard. intros Hid Hr. apply (repr_position id None s); try done; [intros a id' Ha|intros o ev id' Ho Hev|by intros; redis_simpl..];
    unfold env_queue, in_env; by_key; rewrite ?lookup_delete;
    repeat case_decide; naive_solver.
Qed.

Local Ltac by_cases :=
  repeat match goal with H : ∀ _, _ |- _ => clear H | H : repr _ _ |- _ => clear H end;
  naive_solver.

(** [s'] is [s] with the slots of [id] as [f] says. *)
Lemma repr_slots f id s s' σ :
  repr s σ → rs_queued (f (σ id)) = rs_queued (σ id) →
  (∀ a id', addr_ok a → id' ∈ SMEMBERS (sk (SQueueCC a)) s' ↔
     if decide (id' = id) then owner id = a ∧ rs_slot (f (σ id)) = true
     else id' ∈ SMEMBERS (sk (SQueueCC a)) s) →
  (∀ e id', env_ok e → id' ∈ SMEMBERS (sk (SEnvCC e)) s' ↔
     if decide (id' = id) then a_env (owner id) = e ∧ rs_slot (f (σ id)) = true
     else id' ∈ SMEMBERS (sk (SEnvCC e)) s) →
  (∀ a id', addr_ok a → id' ∈ SMEMBERS (sk (SQueueCD a)) s' ↔
     if decide (id' = id) then owner id = a ∧ rs_dequeued (f (σ id)) = true
     else id' ∈ SMEMBERS (sk (SQueueCD a)) s) →
  (∀ e id', env_ok e → id' ∈ SMEMBERS (sk (SEnvCD e)) s' ↔
     if decide (id' = id) then a_env (owner id) = e ∧ rs_dequeued (f (σ id)) = true
     else id' ∈ SMEMBERS (sk (SEnvCD e)) s) →
  (∀ k, ZALL k s' = ZALL k s) → (∀ k, GET k s' = GET k s) →
  repr s' (change f id σ).
Proof.
  intros [] Hf Hcc Hecc Hcd Hecd Hz Hg. split.
  - intros a id' Ha. rewrite Hz, rp_queue0 by done. unfold at_queue.
    destruct (decide (id = id')) as [<-|]; rewrite ?change_eq, ?change_ne, ?Hf by done; done.
  - intros o ev id' Ho Hev. rewrite Hz, rp_env0 by done. unfold at_queue.
    destruct (decide (id = id')) as [<-|]; rewrite ?change_eq, ?change_ne, ?Hf by done; done.
  - intros a id' Ha. rewrite Hcc by done. case_decide; subst; rewrite ?change_eq, ?change_ne by done; auto.
  - intros a id' Ha. rewrite Hecc by done. case_decide; subst; rewrite ?change_eq, ?change_ne by done; auto.
  - intros a id' Ha. rewrite Hcd by done. case_decide; subst; rewrite ?change_eq, ?change_ne by done; auto.
  - intros a id' Ha. rewrite Hecd by done. case_decide; subst; rewrite ?change_eq, ?change_ne by done; auto.
  - intros k m. rewrite Hg. by apply rp_msg0.
Qed.

Lemma repr_hold id s σ :
  addr_ok (owner id) → repr s σ →
  repr (SADD (sk (SEnvCC (a_env (owner id)))) id (SADD (sk (SQueueCC (owner id))) id s))
    (change (with_slot true) id σ).
Proof.
  intros Hid Hr. pose proof Hr as []. apply (repr_slots _ id s); try done; [..|by intros; redis_simpl|by intros; redis_simpl];
    intros k id' Hk; by_key; rewrite ?elem_of_union, ?elem_of_singleton;
    repeat case_decide; subst; rewrite ?rp_cc0, ?rp_ecc0, ?rp_cd0, ?rp_ecd0 by eauto with keys;
    by_cases.
Qed.

Lemma repr_deliver id s σ :
  addr_ok (owner id) → repr s σ →
  repr (SADD (sk (SEnvCD (a_env (owner id)))) id (SADD (sk (SQueueCD (owner id))) id s))
    (change (with_dequeued true) id σ).
Proof.
  intros Hid Hr. pose proof Hr as []. apply (repr_slots _ id s); try done; [..|by intros; redis_simpl|by intros; redis_simpl];
    intros k id' Hk; by_key; rewrite ?elem_of_union, ?elem_of_singleton;
    repeat case_decide; subst; rewrite ?rp_cc0, ?rp_ecc0, ?rp_cd0, ?rp_ecd0 by eauto with keys;
    by_cases.
Qed.

(** The four sets of a run. *)
Definition run_sets (id : string) : list string :=
  [sk (SQueueCC (owner id)); sk (SEnvCC (a_env (owner id)));
   sk (SQueueCD (owner id)); sk (SEnvCD (a_env (owner id)))].

Lemma in_run_sets id k :
  addr_ok (owner id) → skey_ok k →
  sk k ∈ run_sets id ↔ k = SQueueCC (owner id) ∨ k = SEnvCC (a_env (owner id)) ∨
    k = SQueueCD (owner id) ∨ k = SEnvCD (a_env (owner id)).
Proof.
  clear shard. intros Hid Hk. unfold run_sets. rewrite !elem_of_cons, elem_of_nil.
  assert (∀ k', skey_ok k' → sk k = sk k' ↔ k = k') as Heq.
  { intros k' Hk'. split; [by apply sk_inj|by intros ->]. }
  rewrite !Heq by (by eauto 12 with keys). tauto.
Qed.

Lemma repr_unhold id s s' σ :
  addr_ok (owner id) → repr s σ →
  (∀ k, SMEMBERS k s' =
     if decide (k ∈ run_sets id) then SMEMBERS k s ∖ {[id]} else SMEMBERS k s) →
  (∀ k, ZALL k s' = ZALL k s) → (∀ k, GET k s' = GET k s) →
  repr s' (change no_slots id σ).
Proof.
  clear shard. intros Hid Hr Hs Hz Hg. pose proof Hr as []. apply (repr_slots _ id s); try done;
    intros k id' Hk; rewrite Hs; case_decide as Hin; rewrite in_run_sets in Hin by eauto with keys;
    rewrite ?elem_of_difference, ?elem_of_singleton; case_decide; subst;
    rewrite ?rp_cc0, ?rp_ecc0, ?rp_cd0, ?rp_ecd0 by eauto with keys; by_cases.
Qed.

Lemma repr_release ttl wq id s σ :
  addr_ok (owner id) → repr s σ →
  repr (release (sys_keys (owner id) ttl wq (org_id id) id) id s) (change no_slots id σ).
Proof.
  intros Hid Hr. apply (repr_unhold id s); try done; intros k.
  - apply SMEMBERS_release.
  - apply ZALL_release.
  - apply GET_release.
Qed.

(** Storing and deleting the payload. *)
Lemma repr_store m s σ :
  message_ok m → repr s σ → repr (SET (msg_key (runId m)) (VMessage m) s) σ.
Proof.
  intros Hm []. split; try by (intros; redis_simpl; auto).
  intros k m'. redis_simpl. case_decide; [|by apply rp_msg0]. by intros [= <-].
Qed.

Lemma repr_delete k s σ : repr s σ → repr (DEL k s) σ.
Proof.
  intros []. split; try by (intros; redis_simpl; auto).
  intros k' m. redis_simpl. case_decide; [done|]. by apply rp_msg0.
Qed.

End System.

#[export] Hint Resolve ro_id ro_addr ro_word : keys.
