(* ===== verification/Levels.v ===== *)
(** * Levels: every queued message can be found from the master queue

    The consumers only look at the master queue.  [levels] says that a message
    with score [x] is reachable from there through entries with scores at most
    [x]: the entry of its queue, or the wildcard entry and the entry of its queue
    in the index of the base queue. *)

From S2P Require Import Prelude Text Redis Listing Messages Scripts ScriptFacts Lifecycle.
From S2P Require Import KeyProducer Expire KeySpace System.
Local Open Scope Z_scope.

Lemma addr_key_inj a a' : addr_ok a → addr_ok a' → addr_key a = addr_key a' → a = a'.
Proof. intros ?? H. by assert (ZQueue a = ZQueue a') as [= ->] by by apply zkey_inj. Qed.

Lemma split_wildcard e q :
  env_ok e → plain q → split_char ":" (wildcard e q) = addr_parts (Addr e q (Some "*")).
Proof. intros. by apply split_queueKey_ck_plain. Qed.

Lemma wildcard_inj e q e' q' :
  env_ok e → plain q → env_ok e' → plain q' → wildcard e q = wildcard e' q' → e = e' ∧ q = q'.
Proof.
  intros ???? H. apply (f_equal (split_char ":")) in H. rewrite !split_wildcard in H by done.
  destruct (addr_parts_inj (Addr e q (Some "*")) (Addr e' q' (Some "*")) [] []) as [[= -> ->] _];
    [done| |done]. by rewrite !(right_id_L [] (++)).
Qed.

Lemma wildcard_ne_addr e q a : env_ok e → plain q → addr_ok a → wildcard e q ≠ addr_key a.
Proof.
  intros ?? Ha H. apply (f_equal (split_char ":")) in H.
  rewrite split_wildcard, split_addr in H by done.
  destruct (addr_parts_inj (Addr e q (Some "*")) a [] []) as [<- _];
    [done|by rewrite !(right_id_L [] (++))|].
  destruct Ha as [_ _ _ Hc]. by destruct (Hc "*" eq_refl) as (_ & _ & _ & ?).
Qed.

(** The queue without concurrency key beside a queue. *)
Lemma addr_base_ok a : addr_ok a → addr_ok (Addr (a_env a) (a_queue a) None).
Proof. intros [He Hq Hn _]. by split. Qed.

Section Levels.
Context {db : Type} {R : Redis rq_value db} {L : RedisLaws R}.
Context (P : string) (shard : string → Z).
Implicit Types (s t : db) (a : addr) (e : env_obj) (id q : string).
Implicit Types (X : addr → Prop) (Y : env_obj → string → Prop).
Local Notation zk := (zk P).
Local Notation master := (master P shard).
Local Notation sys_keys := (sys_keys P shard).

(** The level above a queue. *)
Definition parent (a : addr) : string :=
  match a_ck a with None => master (a_env a) | Some _ => zk (ZIndex (a_env a) (a_queue a)) end.

(** A name of the master queue of a shard: a queue, or the wildcard of one. *)
Definition queue_name (n : Z) (q : string) : Prop :=
  (∃ a, addr_ok a ∧ q = addr_key a ∧ shard (env_id (a_env a)) = n) ∨
  (∃ e base, addr_ok (Addr e base None) ∧ q = wildcard e base ∧ shard (env_id e) = n).

(** Every queue is listed, but for those in [X], and every index, but for those in [Y];
    indexes and master queues only hold names of queues. *)
Record levels_but X Y s : Prop := LevelsBut {
  lv_queue a id x : addr_ok a → ¬ X a → ZALL (zk (ZQueue a)) s !! id = Some x →
    listed (parent a) (addr_key a) x s;
  lv_name e q name y : env_ok e → plain q → ZALL (zk (ZIndex e q)) s !! name = Some y →
    ∃ c, addr_ok (Addr e q (Some c)) ∧ name = addr_key (Addr e q (Some c));
  lv_index e q name y : env_ok e → plain q → ¬ Y e q →
    ZALL (zk (ZIndex e q)) s !! name = Some y → listed (master e) (wildcard e q) y s;
  lv_master n name y : ZALL (zk (ZMaster n)) s !! name = Some y → queue_name n name;
}.

Definition none {A} : A → Prop := λ _, False.
Definition none2 {A B} : A → B → Prop := λ _ _, False.
Definition levels s : Prop := levels_but none none2 s.

Lemma levels_weaken X Y X' Y' s :
  (∀ a, X a → X' a) → (∀ e q, Y e q → Y' e q) → levels_but X Y s → levels_but X' Y' s.
Proof.
  intros HX HY [Hq Hn Hi Hm]. split; [|done| |done].
  - intros a id x Ha Hx. apply Hq; auto.
  - intros e q name y He Hpq Hy. apply Hi; auto.
Qed.

(** Only the queues, the indexes and the master queues matter; queues may lose
    messages. *)
Lemma levels_shrink X Y s t :
  (∀ a id x, addr_ok a → ZALL (zk (ZQueue a)) t !! id = Some x →
     ZALL (zk (ZQueue a)) s !! id = Some x) →
  (∀ e q, env_ok e → plain q → ZALL (zk (ZIndex e q)) t = ZALL (zk (ZIndex e q)) s) →
  (∀ n, ZALL (zk (ZMaster n)) t = ZALL (zk (ZMaster n)) s) →
  levels_but X Y s → levels_but X Y t.
Proof.
  intros Hz Hix Hm [Hq Hn Hi Hmn].
  assert (∀ a name x, addr_ok a → listed (parent a) name x s → listed (parent a) name x t) as Hp.
  { intros a name x Ha. unfold listed, parent, master.
    destruct (a_ck a); rewrite ?Hm, ?Hix by eauto with keys; done. }
  split.
  - intros a id x Ha HX Hx. apply Hp; [done|]. eapply Hq; eauto.
  - intros e q name y He Hpq. rewrite Hix by done. by apply Hn.
  - intros e q name y He Hpq HY. rewrite Hix by done. unfold listed, master. rewrite Hm. by apply Hi.
  - intros n name y. rewrite Hm. by apply Hmn.
Qed.

(** A message is added: its queue may have to be listed anew. *)
Lemma levels_put a x id s :
  addr_ok a → levels s → levels_but (λ b, b = a) none2 (ZADD (zk (ZQueue a)) x id s).
Proof.
  intros Ha [Hq Hn Hi Hmn].
  assert (∀ k, zkey_ok k → k ≠ ZQueue a → ZALL (zk k) (ZADD (zk (ZQueue a)) x id s) = ZALL (zk k) s)
    as Ho.
  { intros k Hk Hne. redis_simpl. rewrite decide_False; [done|].
    intros H%zk_inj; [|by eauto with keys..]. by subst. }
  assert (∀ b, addr_ok b → ZALL (parent b) (ZADD (zk (ZQueue a)) x id s) = ZALL (parent b) s) as Hp.
  { intros b Hb. unfold parent. destruct (a_ck b); apply Ho; eauto 12 with keys; done. }
  split.
  - intros b id' x' Hb Hne. rewrite Ho by (naive_solver eauto with keys).
    unfold listed. rewrite Hp by done. apply Hq; auto.
  - intros e q name y He Hpq. rewrite Ho by done. by apply Hn.
  - intros e q name y He Hpq HY. rewrite Ho by done. unfold listed, master.
    rewrite Ho by done. by apply Hi.
  - intros n name y. rewrite Ho by done. by apply Hmn.
Qed.

(** ** Updates of one entry *)

Lemma upd_zk k n v s t k' :
  zkey_ok k → zkey_ok k' → k ≠ k' → upd (zk k) n v s t → ZALL (zk k') t = ZALL (zk k') s.
Proof. intros ?? Hne Hu. rewrite Hu, decide_False; [done|]. by intros ?%zk_inj. Qed.

Lemma upd_master_queue e n v s t b :
  upd (master e) n v s t → addr_ok b → ZALL (zk (ZQueue b)) t = ZALL (zk (ZQueue b)) s.
Proof. intros Hu Hb. by apply (upd_zk (ZMaster (shard (env_id e))) n v s t (ZQueue b)). Qed.

Lemma upd_master_index e n v s t e' q :
  upd (master e) n v s t → env_ok e' → plain q →
  ZALL (zk (ZIndex e' q)) t = ZALL (zk (ZIndex e' q)) s.
Proof. intros Hu He Hq. by apply (upd_zk (ZMaster (shard (env_id e))) n v s t (ZIndex e' q)). Qed.

Lemma upd_master_names X Y e n v s t :
  upd (master e) n v s t → levels_but X Y s → queue_name (shard (env_id e)) n →
  ∀ k name y, ZALL (zk (ZMaster k)) t !! name = Some y → queue_name k name.
Proof.
  intros Hu [_ _ _ Hmn] Hn k name y. rewrite Hu. case_decide as Hk; [|by apply Hmn].
  apply zk_inj in Hk as [= <-]; [|done..]. destruct (decide (name = n)) as [->|]; [done|].
  rewrite lookup_partial_alter_ne by done. by apply Hmn.
Qed.

(** The entry of a queue in the master queue. *)
Lemma levels_master X Y a s t :
  addr_ok a → a_ck a = None → levels_but X Y s →
  upd (master (a_env a)) (addr_key a) (earliest (zk (ZQueue a)) s) s t →
  levels_but (λ b, X b ∧ b ≠ a) Y t.
Proof.
  intros Ha Hck Hs Hu. pose proof Hs as [Hq Hn Hi _]. split.
  - intros b id x Hb Hx. rewrite (upd_master_queue _ _ _ _ _ b Hu Hb). intros Hid.
    destruct (decide (b = a)) as [->|Hne].
    + destruct (earliest_le _ _ _ _ Hid) as (y & Hy & Hle).
      unfold parent. rewrite Hck. by eapply listed_here.
    + apply (listed_upd _ _ _ _ _ _ _ _ Hu); [by eapply Hq; eauto|].
      intros _ H%addr_key_inj; done.
  - intros e q name y He Hpq. rewrite (upd_master_index _ _ _ _ _ _ _ Hu He Hpq).
    by apply Hn.
  - intros e q name y He Hpq HY.
    rewrite (upd_master_index _ _ _ _ _ _ _ Hu He Hpq). intros Hy.
    apply (listed_upd _ _ _ _ _ _ _ _ Hu); [by eapply Hi|].
    intros _ H. by apply wildcard_ne_addr in H.
  - apply (upd_master_names _ _ _ _ _ _ _ Hu Hs). left. by exists a.
Qed.

(** An entry of the master queue that no level relies on. *)
Lemma levels_master_ck X Y a v s t :
  addr_ok a → a_ck a ≠ None → levels_but X Y s → upd (master (a_env a)) (addr_key a) v s t →
  levels_but X Y t.
Proof.
  intros Ha Hck Hs Hu. pose proof Hs as [Hq Hn Hi _]. split.
  - intros b id x Hb Hx. rewrite (upd_master_queue _ _ _ _ _ b Hu Hb). intros Hid.
    apply (listed_upd _ _ _ _ _ _ _ _ Hu); [by eapply Hq|]. unfold parent.
    intros Hp H%addr_key_inj; [|done..]. subst b. destruct (a_ck a); [|done].
    apply zk_inj in Hp; [done|by eauto 12 with keys|done].
  - intros e' q name y He Hpq. rewrite (upd_master_index _ _ _ _ _ _ _ Hu He Hpq).
    by apply Hn.
  - intros e' q name y He Hpq HY.
    rewrite (upd_master_index _ _ _ _ _ _ _ Hu He Hpq). intros Hy.
    apply (listed_upd _ _ _ _ _ _ _ _ Hu); [by eapply Hi|].
    intros _ H. by apply wildcard_ne_addr in H.
  - apply (upd_master_names _ _ _ _ _ _ _ Hu Hs). left. by exists a.
Qed.

(** The wildcard entry. *)
Lemma levels_wildcard X Y e q s t :
  addr_ok (Addr e q None) → levels_but X Y s →
  upd (master e) (wildcard e q) (earliest (zk (ZIndex e q)) s) s t →
  levels_but X (λ e' q', Y e' q' ∧ ¬ (e' = e ∧ q' = q)) t.
Proof.
  intros Ha Hs Hu. pose proof Hs as [Hq Hn Hi _].
  pose proof (addr_env_ok _ Ha) as He. pose proof (addr_queue_ok _ Ha) as Hpq. simpl in He, Hpq. split.
  - intros b id x Hb Hx. rewrite (upd_master_queue _ _ _ _ _ b Hu Hb). intros Hid.
    apply (listed_upd _ _ _ _ _ _ _ _ Hu); [by eapply Hq|].
    intros _ H. symmetry in H. by apply wildcard_ne_addr in H.
  - intros e' q' name y He' Hpq'.
    rewrite (upd_master_index _ _ _ _ _ _ _ Hu He' Hpq'). by apply Hn.
  - intros e' q' name y He' Hpq' HY.
    rewrite (upd_master_index _ _ _ _ _ _ _ Hu He' Hpq'). intros Hy.
    destruct (decide (e' = e ∧ q' = q)) as [[-> ->]|Hne].
    + destruct (earliest_le _ _ _ _ Hy) as (y' & Hy' & Hle). by eapply listed_here.
    + apply (listed_upd _ _ _ _ _ _ _ _ Hu); [eapply Hi; eauto|].
      intros _ H%wildcard_inj; done.
  - apply (upd_master_names _ _ _ _ _ _ _ Hu Hs). right. by exists e, q.
Qed.

(** The entry of a queue in its index. *)
Lemma levels_in_index X Y a s t :
  addr_ok a → a_ck a ≠ None → levels_but X Y s →
  upd (zk (ZIndex (a_env a) (a_queue a))) (addr_key a) (earliest (zk (ZQueue a)) s) s t →
  (∀ b id x, addr_ok b → ¬ (X b ∧ b ≠ a) → ZALL (zk (ZQueue b)) t !! id = Some x →
     listed (parent b) (addr_key b) x t) ∧
  (∀ e q name y, env_ok e → plain q → ZALL (zk (ZIndex e q)) t !! name = Some y →
     ZALL (zk (ZIndex e q)) s !! name = Some y ∨
     (e = a_env a ∧ q = a_queue a ∧ name = addr_key a ∧ earliest (zk (ZQueue a)) s = Some y)) ∧
  (∀ e name x, listed (master e) name x s → listed (master e) name x t) ∧
  (∀ k name y, ZALL (zk (ZMaster k)) t !! name = Some y → queue_name k name).
Proof.
  intros Ha Hck [Hq Hn Hi Hmn] Hu.
  assert (zkey_ok (ZIndex (a_env a) (a_queue a))) as Hk by eauto 12 with keys.
  assert (∀ b, addr_ok b → ZALL (zk (ZQueue b)) t = ZALL (zk (ZQueue b)) s) as Hsame.
  { intros b Hb. by eapply (upd_zk _ _ _ _ _ (ZQueue b) Hk). }
  split; [|split; [|split]].
  - intros b id x Hb Hx. rewrite Hsame by done. intros Hid.
    destruct (decide (b = a)) as [->|Hne].
    + destruct (earliest_le _ _ _ _ Hid) as (y & Hy & Hle).
      unfold parent. destruct (a_ck a); [|done]. by eapply listed_here.
    + apply (listed_upd _ _ _ _ _ _ _ _ Hu); [by eapply Hq; eauto|].
      intros _ H%addr_key_inj; done.
  - intros e q name y He Hpq. rewrite Hu. case_decide as Hz; [|by left].
    apply zk_inj in Hz as [= -> ->]; [|done..]. destruct (decide (name = addr_key a)) as [->|];
      [rewrite lookup_partial_alter_eq; naive_solver|rewrite lookup_partial_alter_ne by done; by left].
  - intros e name x Hl. apply (listed_upd _ _ _ _ _ _ _ _ Hu Hl).
    intros Hz. apply zk_inj in Hz; done.
  - intros k name y. rewrite (upd_zk _ _ _ _ _ (ZMaster k) Hk ltac:(done) ltac:(done) Hu). by apply Hmn.
Qed.

(** Relisting a queue after messages left it keeps the levels. *)
Lemma levels_index a s t :
  addr_ok a → a_ck a ≠ None → levels s →
  upd (zk (ZIndex (a_env a) (a_queue a))) (addr_key a) (earliest (zk (ZQueue a)) s) s t →
  levels t.
Proof.
  intros Ha Hck Hs Hu. pose proof Hs as [Hq Hn Hi _].
  destruct (levels_in_index _ _ _ _ _ Ha Hck Hs Hu) as (H1 & H2 & H3 & H4). split; [..|exact H4].
  - intros b id x Hb _. apply H1; [done|]. by intros [[] _].
  - intros e q name y He Hpq [Hy|(-> & -> & -> & _)]%H2; [by eapply Hn| |done..].
    destruct a as [e q [c|]]; [|done]. by exists c.
  - intros e q name y He Hpq HY [Hy|(-> & -> & -> & Hy)]%H2; [|..|done|done]; apply H3.
    + by eapply Hi.
    + apply earliest_in in Hy as (id & Hid).
      destruct (Hq a id y Ha ltac:(done) Hid) as (y0 & Hy0 & Hle).
      unfold parent in Hy0. destruct (a_ck a); [|done].
      destruct (Hi _ _ _ _ (addr_env_ok _ Ha) (addr_queue_ok _ Ha) HY Hy0) as (z & Hz & Hzle).
      exists z. split; [done|lia].
Qed.

(** Listing a queue that got a message: its index is to be listed next. *)
Lemma levels_index_add a s t :
  addr_ok a → a_ck a ≠ None → levels_but (λ b, b = a) none2 s →
  upd (zk (ZIndex (a_env a) (a_queue a))) (addr_key a) (earliest (zk (ZQueue a)) s) s t →
  levels_but none (λ e q, e = a_env a ∧ q = a_queue a) t.
Proof.
  intros Ha Hck Hs Hu. pose proof Hs as [Hq Hn Hi _].
  destruct (levels_in_index _ _ _ _ _ Ha Hck Hs Hu) as (H1 & H2 & H3 & H4). split; [..|exact H4].
  - intros b id x Hb _. apply H1; [done|]. naive_solver.
  - intros e q name y He Hpq [Hy|(-> & -> & -> & _)]%H2; [by eapply Hn| |done..].
    destruct a as [e q [c|]]; [|done]. by exists c.
  - intros e q name y He Hpq HY [Hy|(-> & -> & -> & Hy)]%H2; [|naive_solver|done|done].
    apply H3. eapply Hi; eauto.
Qed.

(** The update of the levels that ends the scripts. *)
Lemma levels_parents a ttl wq o id s :
  addr_ok a → levels_but (λ b, b = a) none2 s →
  levels (rebalance_parents (sys_keys a ttl wq o id) (addr_key a) (addr_wild a) s).
Proof.
  intros Ha Hs. unfold rebalance_parents, addr_wild. destruct (a_ck a) as [c|] eqn:Hck; cbn.
  - assert (a_ck a ≠ None) as Hne by congruence.
    pose proof (levels_index_add a s _ Ha Hne Hs (upd_rebalance _ _ _ _)) as H1.
    pose proof (levels_wildcard _ _ (a_env a) (a_queue a) _ _ (addr_base_ok _ Ha) H1
      (upd_rebalance _ _ _ _)) as H2.
    pose proof (levels_master_ck _ _ a _ _ _ Ha Hne H2 (upd_ZREM _ _ _)) as H3.
    eapply levels_weaken; [..|exact H3]; unfold none2; naive_solver.
  - pose proof (levels_master _ _ a s _ Ha Hck Hs (upd_rebalance _ _ _ _)) as H1.
    eapply levels_weaken; [..|exact H1]; unfold none; naive_solver.
Qed.

Lemma levels_parents_same a ttl wq o id s :
  addr_ok a → levels s →
  levels (rebalance_parents (sys_keys a ttl wq o id) (addr_key a) (addr_wild a) s).
Proof.
  intros Ha Hs. apply levels_parents; [done|]. eapply levels_weaken; [..|exact Hs]; done.
Qed.

(** ** Commands that keep the levels *)

Lemma levels_same X Y s t : (∀ k, ZALL k t = ZALL k s) → levels_but X Y s → levels_but X Y t.
Proof. intros H. apply levels_shrink; intros; rewrite ?H in *; done. Qed.

Lemma levels_ZREM X Y k m s :
  zkey_ok k → (∀ n, k ≠ ZMaster n) → (∀ e q, k ≠ ZIndex e q) →
  levels_but X Y s → levels_but X Y (ZREM (zk k) m s).
Proof.
  intros Hk Hm Hi. apply levels_shrink.
  - intros a id x Ha. redis_simpl. case_decide; [|done]. rewrite lookup_delete. by case_decide.
  - intros e q He Hq. redis_simpl. rewrite decide_False; [done|]. intros H%zk_inj; [|done..]. by apply (Hi e q).
  - intros n. redis_simpl. rewrite decide_False; [done|]. intros H%zk_inj; [|done..]. by apply (Hm n).
Qed.

(** A sorted set outside the levels. *)
Definition outside (k : string) : Prop :=
  (∀ a, addr_ok a → k ≠ zk (ZQueue a)) ∧
  (∀ e q, env_ok e → plain q → k ≠ zk (ZIndex e q)) ∧ (∀ n, k ≠ zk (ZMaster n)).

Lemma outside_zk k :
  zkey_ok k → match k with ZEnv _ _ | ZDead _ | ZTtl _ | ZMarked | ZUnused => True | _ => False end →
  outside (zk k).
Proof.
  intros Hk Hc. split_and!.
  - intros a Ha Heq. apply zk_inj in Heq; [by subst|done..].
  - intros e q He Hq Heq. apply zk_inj in Heq; [by subst|done..].
  - intros n Heq. apply zk_inj in Heq; [by subst|done..].
Qed.

Lemma levels_ZADD_outside X Y k x m s :
  outside k → levels_but X Y s → levels_but X Y (ZADD k x m s).
Proof.
  intros (Hq & Hi & Hm). apply levels_shrink.
  - intros a id y Ha. redis_simpl. by rewrite decide_False by auto.
  - intros e q He Hpq. redis_simpl. by rewrite decide_False by auto.
  - intros n. rewrite ?ZALL_ZADD, ?ZALL_ZREM. by rewrite decide_False by auto.
Qed.

Lemma levels_ZREM_outside X Y k m s :
  outside k → levels_but X Y s → levels_but X Y (ZREM k m s).
Proof.
  intros (Hq & Hi & Hm). apply levels_shrink.
  - intros a id y Ha. redis_simpl. by rewrite decide_False by auto.
  - intros e q He Hpq. redis_simpl. by rewrite decide_False by auto.
  - intros n. rewrite ?ZALL_ZADD, ?ZALL_ZREM. by rewrite decide_False by auto.
Qed.

Lemma outside_ttl n : outside (zk (ttl_zkey n)).
Proof. destruct n; by apply outside_zk. Qed.

Lemma outside_env e : env_ok e → outside (zk (ZEnv (org_of e) (env_id e))).
Proof. intros. apply outside_zk; [by eauto 12 with keys|done]. Qed.

(** Removing a message from its queues. *)
Lemma levels_unput X Y a id s :
  addr_ok a → levels_but X Y s →
  levels_but X Y (ZREM (zk (ZEnv (org_of (a_env a)) (env_id (a_env a)))) id
    (ZREM (zk (ZQueue a)) id s)).
Proof.
  intros Ha Hs. apply levels_ZREM_outside; [apply outside_env; eauto with keys|].
  by apply levels_ZREM.
Qed.

(** Looking at one message of a queue. *)
Lemma dequeue_one_levels a a' n qn ck ct id x s r s' :
  addr_ok a → a_env a' = a_env a → levels s →
  dequeue_one (sys_keys a' n "" "" "") (zk (ZQueue a)) ck qn ct id x s = (r, s') → levels s'.
Proof.
  intros Ha He Hs. unfold dequeue_one.
  assert (levels (drop_message (sys_keys a' n "" "" "") (zk (ZQueue a)) id s)) as Hd.
  { unfold drop_message. cbn. rewrite He. by apply levels_unput. }
  destruct (GET _ s) as [v|]; [|by intros [= <- <-]].
  destruct (cjson_decode v) as [m|]; [|by intros [= <- <-]].
  destruct (ttl_expired m ct); intros [= <- <-]; [done|]. unfold take_message.
  set (s1 := SADD _ id _). assert (levels s1) as H1.
  { apply (levels_same _ _ (drop_message (sys_keys a' n "" "" "") (zk (ZQueue a)) id s)); [|done].
    intros k. unfold s1, drop_message. by redis_simpl. }
  destruct (_ && _); [|done]. apply levels_ZREM_outside; [apply outside_ttl|done].
Qed.

(** The entry of a queue in the master queue, or of the wildcard, is relisted. *)
Lemma levels_rebalance a s :
  addr_ok a → levels s → levels (rebalance (master (a_env a)) (zk (ZQueue a)) (addr_key a) s).
Proof.
  intros Ha Hs. destruct (decide (a_ck a = None)) as [Hck|Hck].
  - pose proof (levels_master _ _ a s _ Ha Hck Hs (upd_rebalance _ _ _ _)) as H1.
    eapply levels_weaken; [..|exact H1]; unfold none; naive_solver.
  - by apply (levels_master_ck _ _ a _ _ _ Ha Hck Hs (upd_rebalance _ _ _ _)).
Qed.

Lemma levels_rebalance_wildcard e q s :
  addr_ok (Addr e q None) → levels s →
  levels (rebalance (master e) (zk (ZIndex e q)) (wildcard e q) s).
Proof.
  intros Ha Hs.
  pose proof (levels_wildcard _ _ e q s _ Ha Hs (upd_rebalance _ _ _ _)) as H1.
  eapply levels_weaken; [..|exact H1]; unfold none2; naive_solver.
Qed.

Lemma levels_rebalance_index a s :
  addr_ok a → a_ck a ≠ None → levels s →
  levels (rebalance (zk (ZIndex (a_env a) (a_queue a))) (zk (ZQueue a)) (addr_key a) s).
Proof. intros Ha Hck Hs. exact (levels_index a s _ Ha Hck Hs (upd_rebalance _ _ _ _)). Qed.

End Levels.
