(* ===== verification/Steps.v ===== *)
(** * Steps: the scripts implement a machine of runs

    [sys_step] lists every atomic step of the run queue on the database: a script
    or command as the methods call it.  [run_step] is what the step means for the
    runs.  The methods of concurrent processes interleave at these steps, so a
    property of [sys_step] holds of every interleaving. *)

From Stdlib Require Import SpecFloat.
From S2P Require Import Prelude Text Redis Listing Messages Scripts ScriptFacts Dequeue DequeueCk Lifecycle.
From S2P Require Import KeyProducer Expire KeySpace System Levels.
Local Open Scope Z_scope.

(** ** The machine of runs *)

Inductive op : Type :=
| OpEnqueue (id : string) (x : Z)       (* a new message with score [x] *)
| OpDequeue (a : addr)                  (* hand out messages of a queue *)
| OpDequeueCk (e : env_obj) (q : string)(* hand out messages of a queue with concurrency keys *)
| OpDeliver (id : string)               (* a worker picks the message up *)
| OpRequeue (id : string) (x : Z)       (* nack *)
| OpForget (id : string)                (* acknowledge, dead-letter, expire *)
| OpRelease (id : string)               (* give the slots back *)
| OpInternal.                           (* lists, master queue, marks *)

Definition enqueued_at (x : Z) (r : run_state) : run_state := RunState (Some x) false false.
Definition gone (r : run_state) : run_state := RunState None false false.
Definition taken (r : run_state) : run_state := RunState None true (rs_dequeued r).

Section Machine.
Context (owner : string → addr).
Implicit Types (σ : runs).

(** One message of a queue leaves it, with a slot or (expired, or without payload)
    without. *)
Inductive take_one (P : addr → Prop) : runs → runs → Prop :=
| take_live σ id x : P (owner id) → rs_queued (σ id) = Some x → take_one P σ (change taken id σ)
| take_stale σ id x : P (owner id) → rs_queued (σ id) = Some x →
    take_one P σ (change (with_queued None) id σ).

(** What an operation may do to the runs. *)
Inductive run_step : op → runs → runs → Prop :=
| run_enqueue σ id x : run_step (OpEnqueue id x) σ (change (enqueued_at x) id σ)
| run_fast_path σ id x : run_step (OpEnqueue id x) σ (change (with_slot true) id σ)
| run_enqueue_error σ id x : run_step (OpEnqueue id x) σ σ
| run_dequeue σ σ' a : rtc (take_one (λ b, b = a)) σ σ' → run_step (OpDequeue a) σ σ'
| run_dequeue_ck σ σ' e q :
    rtc (take_one (λ b, a_env b = e ∧ a_queue b = q ∧ a_ck b ≠ None)) σ σ' →
    run_step (OpDequeueCk e q) σ σ'
| run_deliver σ id : run_step (OpDeliver id) σ (change (with_dequeued true) id σ)
| run_requeue σ id x : run_step (OpRequeue id x) σ (change (enqueued_at x) id σ)
| run_forget σ id : run_step (OpForget id) σ (change gone id σ)
| run_release σ id : run_step (OpRelease id) σ (change no_slots id σ)
| run_internal σ : run_step OpInternal σ σ.

End Machine.

(** ** The steps on the database *)

Section Steps.
Context {db : Type} {R : Redis rq_value db} {L : RedisLaws R}.
Context (P : string) (shard : string → Z) (owner : string → addr).
Context (dl : Z) (bf : spec_float).
Implicit Types (s t : db) (σ : runs) (a : addr) (e : env_obj) (id : string).

Local Notation zk := (zk P).
Local Notation sk := (sk P).
Local Notation vk := (vk P).
Local Notation master := (master P shard).
Local Notation sys_keys := (sys_keys P shard).
Local Notation repr := (repr P owner).
Local Notation run_ok := (run_ok owner).
Local Notation message_ok := (message_ok owner).
Local Notation org_id := (org_id owner).
Local Notation msg_key := (msg_key P owner).

Inductive sys_step : op → db → db → Prop :=
| st_enqueue id m x ttl mkv ct fast n wq s :
    message_ok m → runId m = id →
    sys_step (OpEnqueue id x) s
      (enqueue_script (sys_keys (owner id) n wq (org_id id) id) (addr_key (owner id)) id (VMessage m) x ttl
         (addr_wild (owner id)) mkv dl bf ct fast s).2
| st_dequeue a n ct mc s :
    addr_ok a →
    sys_step (OpDequeue a) s
      (dequeueMessagesFromQueue (sys_keys a n "" "" "") (addr_key a) ct dl bf mc s).2
| st_dequeue_ck e q n ct mc s :
    addr_ok (Addr e q None) →
    sys_step (OpDequeueCk e q) s
      (dequeueMessagesFromCkQueue (sys_keys (Addr e q None) n "" "" "") (wildcard e q) ct dl bf P mc s).2
| st_push k v s : sys_step OpInternal s (RPUSH k v s)
| st_pop k s : sys_step OpInternal s (LPOP k s)
| st_deliver k m s :
    GET k s = Some (VMessage m) →
    sys_step (OpDeliver (runId m)) s (dequeueMessageFromKey k P s).2
| st_ack id mkv rm wq s :
    run_ok id →
    sys_step (OpForget id) s
      (ack_script (sys_keys (owner id) None wq (org_id id) id) id (addr_key (owner id)) mkv rm
         (addr_wild (owner id)) s)
| st_nack id m x wq s :
    message_ok m → runId m = id →
    sys_step (OpRequeue id x) s
      (nack_script (sys_keys (owner id) None wq (org_id id) id) id (addr_key (owner id)) (VMessage m) x
         (addr_wild (owner id)) s)
| st_dead_letter id wq s :
    run_ok id →
    sys_step (OpForget id) s
      (dead_letter_script (sys_keys (owner id) None wq (org_id id) id) id (addr_key (owner id))
         (addr_wild (owner id)) s)
| st_release id s :
    run_ok id →
    sys_step (OpRelease id) s
      (releaseConcurrency (sk (SQueueCC (owner id))) (sk (SEnvCC (a_env (owner id))))
         (sk (SQueueCD (owner id))) (sk (SEnvCD (a_env (owner id)))) id s)
| st_expire id n wq wi vt now member s :
    run_ok id → ids_ok (a_env (owner id)) → (∀ k, zkey_ok k → wq ≠ zk k) →
    sys_step (OpForget id) s
      (expire_one (zk (ZTtl n)) P wq wi vt now member (addr_key (owner id)) id (org_id id) s).2
| st_rebalance a s :
    addr_ok a →
    sys_step OpInternal s (rebalance (master (a_env a)) (zk (ZQueue a)) (addr_key a) s)
| st_mark x m s : sys_step OpInternal s (ZADD (zk ZMarked) x m s)
| st_unmark m s : sys_step OpInternal s (ZREM (zk ZMarked) m s)
| st_redriven e id s : env_ok e → sys_step OpInternal s (ZREM (zk (ZDead e)) id s).

(** ** Composing fragments *)

Lemma repr_ext s σ σ' : (∀ id, σ id = σ' id) → repr s σ → repr s σ'.
Proof.
  intros H []. split; unfold at_queue in *; intros; rewrite <- ?H; auto.
Qed.

Lemma change_twice f g id σ id' : change f id (change g id σ) id' = change (λ r, f (g r)) id σ id'.
Proof.
  destruct (decide (id = id')) as [<-|]; [by rewrite !change_eq|by rewrite !change_ne].
Qed.

Lemma repr_twice f g id s σ :
  repr s (change f id (change g id σ)) → repr s (change (λ r, f (g r)) id σ).
Proof. apply repr_ext. intros. apply change_twice. Qed.

(** The state changes as the composition does. *)
Lemma repr_as h f g id s σ :
  (∀ r, h r = f (g r)) → repr s (change f id (change g id σ)) → repr s (change h id σ).
Proof.
  intros Hh. apply repr_ext. intros id'. rewrite change_twice.
  destruct (decide (id = id')) as [<-|]; [by rewrite !change_eq|by rewrite !change_ne].
Qed.

Lemma core_parents a n wq o id s :
  addr_ok a →
  same_core P s (rebalance_parents (sys_keys a n wq o id) (addr_key a) (addr_wild a) s).
Proof.
  intros Ha. unfold rebalance_parents, addr_wild. destruct (a_ck a); cbn.
  - eapply core_trans; [apply core_rebalance, (aside_index P a Ha)|].
    eapply core_trans; [apply core_rebalance, aside_master|]. apply core_ZREM, aside_master.
  - apply core_rebalance, aside_master.
Qed.

Lemma sys_keys_wild a : addr_ok a → wild_ok (addr_key a) (addr_wild a).
Proof.
  intros Ha wild. unfold addr_wild. destruct (a_ck a); [|done]. intros [= <-].
  by apply wildcard_ne_addr; eauto with keys.
Qed.

(** ** Enqueue, acknowledge, nack, dead-letter *)

Lemma core_ttl_stage a n wq o id ttl s :
  same_core P s (ttl_stage (sys_keys a n wq o id) ttl s).
Proof. destruct ttl as [[tm ts]|]; [apply core_ZADD, aside_ttl|apply core_refl]. Qed.

Lemma enqueue_slow_repr id m x ttl n wq s σ :
  message_ok m → runId m = id → repr s σ →
  let K := sys_keys (owner id) n wq (org_id id) id in
  repr (release K id (rebalance_parents K (addr_key (owner id)) (addr_wild (owner id))
          (ttl_stage K ttl (slow_path_queues K id (VMessage m) x s))))
    (change (enqueued_at x) id σ).
Proof.
  intros Hm <- Hr K. pose proof (ro_addr _ _ (mo_run _ _ Hm)) as Ha.
  apply (repr_as _ no_slots (with_queued (Some x))); [done|]. apply repr_release; [done|].
  eapply repr_same; [by apply core_parents|]. eapply repr_same; [apply core_ttl_stage|].
  refine (repr_put P owner (runId m) x _ σ Ha _). by apply repr_store.
Qed.

Lemma fast_path_repr id m mkv n wq s σ :
  message_ok m → runId m = id → repr s σ →
  repr (fast_path (sys_keys (owner id) n wq (org_id id) id) id (VMessage m) mkv s)
    (change (with_slot true) id σ).
Proof.
  intros Hm <- Hr. eapply repr_same; [apply core_RPUSH|].
  refine (repr_hold P owner (runId m) _ σ (ro_addr _ _ (mo_run _ _ Hm)) _). by apply repr_store.
Qed.

Lemma forget_repr id s σ :
  addr_ok (owner id) → repr s (change no_slots id (change (with_queued None) id σ)) →
  repr s (change gone id σ).
Proof. intros _. by apply repr_as. Qed.

Lemma ack_repr id mkv rm wq s σ :
  run_ok id → repr s σ →
  repr (ack_script (sys_keys (owner id) None wq (org_id id) id) id (addr_key (owner id)) mkv rm
          (addr_wild (owner id)) s) (change gone id σ).
Proof.
  intros Hid Hr. pose proof (ro_addr _ _ Hid) as Ha. rewrite ack_script_eq. cbv zeta.
  apply forget_repr; [done|]. set (s1 := release _ _ _).
  assert (repr s1 (change no_slots id (change (with_queued None) id σ))) as H1.
  { apply repr_release; [done|]. eapply repr_same; [by apply core_parents|].
    refine (repr_unput P owner id _ σ Ha _). by apply repr_delete. }
  destruct rm; [|done]. eapply repr_same; [apply core_LREM|done].
Qed.

Lemma nack_repr id m x wq s σ :
  message_ok m → runId m = id → repr s σ →
  repr (nack_script (sys_keys (owner id) None wq (org_id id) id) id (addr_key (owner id)) (VMessage m) x
          (addr_wild (owner id)) s) (change (enqueued_at x) id σ).
Proof.
  intros Hm <- Hr. pose proof (mo_run _ _ Hm) as Hid. pose proof (ro_addr _ _ Hid) as Ha.
  rewrite nack_script_eq by (apply sys_keys_ok; eauto with keys).
  apply (repr_as _ (with_queued (Some x)) no_slots); [done|].
  eapply repr_same; [by apply core_parents|]. refine (repr_put P owner (runId m) x _ _ Ha _).
  apply repr_release; [done|]. by apply repr_store.
Qed.

Lemma dead_letter_repr id wq s σ :
  run_ok id → repr s σ →
  repr (dead_letter_script (sys_keys (owner id) None wq (org_id id) id) id (addr_key (owner id))
          (addr_wild (owner id)) s) (change gone id σ).
Proof.
  intros Hid Hr. pose proof (ro_addr _ _ Hid) as Ha. rewrite dead_letter_script_eq. cbv zeta.
  apply forget_repr; [done|]. apply repr_release; [done|].
  eapply repr_same; [apply core_ZADD, aside_dead; by eauto with keys|].
  eapply repr_same; [by apply core_parents|]. exact (repr_unput P owner id _ σ Ha Hr).
Qed.

(** ** Release, delivery, expiry *)

Lemma release_repr id s σ :
  run_ok id → repr s σ →
  repr (releaseConcurrency (sk (SQueueCC (owner id))) (sk (SEnvCC (a_env (owner id))))
          (sk (SQueueCD (owner id))) (sk (SEnvCD (a_env (owner id)))) id s)
    (change no_slots id σ).
Proof. intros Hid. exact (repr_release P shard owner None "" id s σ (ro_addr _ _ Hid)). Qed.

Lemma env_section a :
  queueKey (a_env a) (a_queue a) None =
  ("{org:" +:+ org_of (a_env a) +:+ "}:proj:" +:+ env_project_id (a_env a) +:+ ":env:"
   +:+ env_id (a_env a)) +:+ String ":" "queue:" +:+ a_queue a.
Proof. unfold org_of. unfold_keys. by text_norm. Qed.

Lemma match_before_queue_addr a :
  addr_ok a → word_ok a → match_before_queue (addr_key a) =
    Some ("{org:" +:+ org_of (a_env a) +:+ "}:proj:" +:+ env_project_id (a_env a)
          +:+ ":env:" +:+ env_id (a_env a)).
Proof.
  intros [_ Hq _ Hck] Hw. unfold match_before_queue, addr_key.
  set (pre := "{org:" +:+ _). assert (truthy pre = true) as Hpre by done.
  assert (queueKey (a_env a) (a_queue a) None = pre +:+ String ":" "queue:" +:+ a_queue a) as Hk
    by apply env_section.
  clearbody pre. assert (∀ b, cut_where (λ _, true) (String ":" ("queue" +:+ String ":" "")) (String ":" b) = None →
    rcut_where (λ _, true) ":queue:" (pre +:+ String ":" "queue:" +:+ b) = Some (pre, b)) as Hcut.
  { intros b Hb. change ":queue:" with (String ":" "queue:"). apply rcut_where_last; [done|].
    change ("queue:" +:+ b) with ("queue" +:+ String ":" b).
    change (String ":" ("queue" +:+ String ":" "")) with ":queue:" in Hb.
    rewrite cut_where_app by done. by rewrite Hb. }
  destruct (a_ck a) as [c|] eqn:Ec.
  - destruct (Hck c eq_refl) as (Ht & Hp & _). destruct Hw as [Hw|Hw]; [congruence|].
    rewrite queueKey_Some, Hk, !string_app_assoc, Hcut by done || (
      change (":ck:" +:+ c) with (String ":" ("ck" +:+ String ":" c));
      rewrite cut_word_skip by done; rewrite cut_word_skip by done; by rewrite cut_word_last).
    by rewrite Hpre.
  - rewrite Hk, Hcut by by rewrite cut_word_last. by rewrite Hpre.
Qed.

Lemma sk_queue_cd a : P +:+ addr_key a +:+ ":currentDequeued" = sk (SQueueCD a).
Proof. done. Qed.

Lemma sk_queue_cc a : (P +:+ addr_key a) +:+ ":currentConcurrency" = sk (SQueueCC a).
Proof. by rewrite string_app_assoc. Qed.

Lemma sk_env_cd e :
  P +:+ ("{org:" +:+ org_of e +:+ "}:proj:" +:+ env_project_id e +:+ ":env:" +:+ env_id e)
    +:+ ":currentDequeued" = sk (SEnvCD e).
Proof.
  unfold System.sk, skey_text, org_of, envCurrentDequeuedKey, CURRENT_DEQUEUED_PART. unfold_keys.
  by text_norm.
Qed.

Lemma deliver_eq k m s σ :
  repr s σ → GET k s = Some (VMessage m) →
  message_ok m ∧
  (dequeueMessageFromKey k P s).2 =
    SADD (sk (SEnvCD (a_env (owner (runId m))))) (runId m)
      (SADD (sk (SQueueCD (owner (runId m)))) (runId m) s).
Proof.
  intros Hr Eg. destruct (rp_msg _ _ _ _ Hr _ _ Eg) as [Hm _]. split; [done|].
  unfold dequeueMessageFromKey. rewrite Eg. cbn [cjson_decode].
  rewrite (mo_queue _ _ Hm), match_before_queue_addr by (apply Hm).
  cbn [snd]. by rewrite sk_queue_cd, sk_env_cd.
Qed.

(** The queue as the TTL script sees it. *)
Lemma addr_ck_ok a c :
  addr_ok a → a_ck a = Some c → truthy c = true ∧ plain c ∧ dot_plus_end c = true.
Proof. intros [_ _ _ Hc] H. by destruct (Hc c H) as (? & ? & ? & _). Qed.

Lemma ckIndex_addr a :
  addr_ok a → P +:+ ckIndexKeyFromQueue (addr_key a) = zk (ZIndex (a_env a) (a_queue a)).
Proof.
  intros [He Hq Hn Hc]. unfold ckIndexKeyFromQueue, addr_key, baseQueueKeyFromQueue.
  destruct (a_ck a) as [c|] eqn:E.
  - destruct (Hc c eq_refl) as (_ & _ & Hd & _). rewrite replace_ck_some by done. by text_norm.
  - by rewrite replace_ck_none.
Qed.

Lemma expire_script_eq id n wq wi vt now member s :
  run_ok id → ids_ok (a_env (owner id)) →
  let a := owner id in
  ∃ s1, (∀ k, SMEMBERS k s1 = if decide (k ∈ run_sets P owner id) then SMEMBERS k s ∖ {[id]}
                              else SMEMBERS k s) ∧
    (∀ k, ZALL k s1 = ZALL k (ZREM (env_queue P (a_env a)) id (ZREM (zk (ZQueue a)) id
                        (ZREM (zk (ZTtl n)) member s)))) ∧
    (∀ k, GET k s1 = GET k (DEL (vk (VMsg (org_id id) id)) s)) ∧
    expire_one (zk (ZTtl n)) P wq wi vt now member (addr_key a) id (org_id id) s =
    (Ok tt, HSET wi id (VExpireJob id (org_id id) (addr_key a) vt 0)
       (ZADD wq now id
          (if decide (a_ck a = None) then s1
           else rebalance (zk (ZIndex (a_env a) (a_queue a))) (zk (ZQueue a)) (addr_key a) s1))).
Proof.
  intros Hid Hi a. pose proof (ro_addr _ _ Hid) as Ha. fold a in Ha.
  eexists (expire_sets P id (a_env a) (a_queue a) (a_ck a) _). split_and!; cycle 3.
  - unfold addr_key at 1. rewrite (expire_one_eq (zk (ZTtl n)) P wq wi vt now (a_env a)); try done;
      [..|intros c Hc; by apply (addr_ck_ok a)]; [|by destruct Ha..].
    fold (addr_key a). cbv zeta. do 4 f_equal. rewrite ckIndex_addr by done.
    destruct (a_ck a) as [c|] eqn:Ec; cbn; [|done].
    destruct (addr_ck_ok a c Ha Ec) as (-> & _). done.
  - intros k. unfold expire_sets. rewrite SMEMBERS_srem_all. redis_simpl.
    destruct (decide (k ∈ run_sets P owner id)) as [Hk|Hk];
      [rewrite decide_True; [done|]|rewrite decide_False; [done|]]; unfold run_sets in Hk;
      fold a in Hk; revert Hk; rewrite ?list_elem_of_fmap; set_solver.
  - intros k. unfold expire_sets. by redis_simpl.
  - intros k. unfold expire_sets. by redis_simpl.
Qed.

Lemma aside_foreign wq : (∀ k, zkey_ok k → wq ≠ zk k) → aside P wq.
Proof. intros H. split; intros; apply H; by eauto with keys. Qed.

Lemma expire_repr id n wq wi vt now member s σ :
  run_ok id → ids_ok (a_env (owner id)) → (∀ k, zkey_ok k → wq ≠ zk k) → repr s σ →
  repr (expire_one (zk (ZTtl n)) P wq wi vt now member (addr_key (owner id)) id (org_id id) s).2
    (change gone id σ).
Proof.
  intros Hid Hi Hwq Hr. pose proof (ro_addr _ _ Hid) as Ha.
  destruct (expire_script_eq id n wq wi vt now member s Hid Hi) as (s1 & Hs & Hz & Hg & ->).
  eapply repr_same; [apply core_HSET|]. eapply repr_same; [by apply core_ZADD, aside_foreign|].
  assert (repr s1 (change gone id σ)) as H1.
  { set (t := ZREM (env_queue P (a_env (owner id))) id (ZREM (zk (ZQueue (owner id))) id
                (ZREM (zk (ZTtl n)) member (DEL (vk (VMsg (org_id id) id)) s)))).
    apply (repr_as _ no_slots (with_queued None)); [done|]. apply (repr_unhold P owner id t); [done|..].
    - apply repr_unput; [done|]. eapply repr_same; [apply core_ZREM, (aside_ttl P (Some n))|].
      by apply repr_delete.
    - intros k. unfold t. redis_simpl. apply Hs.
    - intros k. rewrite Hz. unfold t. by redis_simpl.
    - intros k. rewrite Hg. unfold t. by redis_simpl. }
  case_decide; [done|]. eapply repr_same; [by apply core_rebalance, aside_index|done].
Qed.

(** ** Dequeue *)

Lemma message_key_text o id : vk (VMsg o "") +:+ id = vk (VMsg o id).
Proof.
  unfold System.vk. cbn [vkey_text]. rewrite !messageKey_text. by text_norm.
Qed.

(** The keys a dequeue from the queue [a] relies on. *)
Lemma queue_dequeue_keys a a' n wq o m :
  addr_ok a → addr_ok a' →
  dequeue_keys (sys_keys a' n wq o m) (zk (ZQueue a)) (sk (SQueueCC a)).
Proof.
  intros Ha Ha'. split; cbn; intros H;
    first [apply zk_inj in H|apply sk_inj in H]; try (by eauto 12 with keys);
    by destruct n.
Qed.

(** One message: it leaves its queue, and takes its slot if it is handed out. *)
Lemma dequeue_one_repr (Q : addr → Prop) a a' n qn ct id x x0 s σ r s' :
  Q a → addr_ok a → a_env a' = a_env a → owner id = a → rs_queued (σ id) = Some x0 → repr s σ →
  dequeue_one (sys_keys a' n "" "" "") (zk (ZQueue a)) (sk (SQueueCC a)) qn ct id x s = (r, s') →
  ∃ σ', rtc (take_one owner Q) σ σ' ∧ repr s' σ' ∧ ∀ id', id' ≠ id → σ' id' = σ id'.
Proof.
  intros HQ Ha He Hid Hx Hr. subst a. unfold dequeue_one.
  assert (repr (drop_message (sys_keys a' n "" "" "") (zk (ZQueue (owner id))) id s)
            (change (with_queued None) id σ)) as Hdrop.
  { unfold drop_message. cbn. rewrite He. by apply repr_unput. }
  assert (∃ σ', rtc (take_one owner Q) σ σ' ∧
    repr (drop_message (sys_keys a' n "" "" "") (zk (ZQueue (owner id))) id s) σ' ∧
    ∀ id', id' ≠ id → σ' id' = σ id') as Hd.
  { eexists. split; [|split; [exact Hdrop|intros; by apply change_ne]].
    apply rtc_once. by eapply take_stale. }
  destruct (GET _ s) as [v|]; [|by intros [= <- <-]].
  destruct (cjson_decode v) as [m|];
    [|intros [= <- <-]; exists σ; split; [apply rtc_refl|done]].
  destruct (ttl_expired m ct); intros [= <- <-]; [done|].
  exists (change taken id σ). split; [apply rtc_once; by eapply take_live|].
  split; [|intros; by apply change_ne]. unfold take_message. set (s1 := SADD _ id _).
  assert (repr s1 (change taken id σ)) as H1.
  { unfold s1. cbn. rewrite He. apply (repr_as _ (with_slot true) (with_queued None)); [done|].
    apply repr_hold; [done|]. by apply repr_unput. }
  destruct (_ && _); [|done]. eapply repr_same; [apply core_ZREM, aside_ttl|done].
Qed.

(** The loop over due messages. *)
Lemma dequeue_loop_repr a n qn ct msgs res s σ r s' :
  addr_ok a → NoDup msgs.*1 →
  Forall (λ p, owner p.1 = a ∧ is_Some (rs_queued (σ p.1))) msgs → repr s σ →
  dequeue_loop (sys_keys a n "" "" "") qn ct msgs res s = (r, s') →
  ∃ σ', rtc (take_one owner (λ b, b = a)) σ σ' ∧ repr s' σ'.
Proof.
  intros Ha. revert res s σ. induction msgs as [|[id x] msgs IH]; intros res s σ Hnd Hall Hr.
  { intros [= <- <-]. exists σ. split; [apply rtc_refl|done]. }
  cbn [dequeue_loop]. apply NoDup_cons in Hnd as [Hni Hnd].
  apply Forall_cons in Hall as [[Hid [x0 Hx]] Hall]. simpl in *.
  destruct (dequeue_one _ _ _ _ _ _ _ _) as [r1 s1] eqn:E.
  destruct (dequeue_one_repr (λ b, b = a) a a n qn ct id x x0 s σ r1 s1 eq_refl Ha eq_refl Hid Hx Hr E)
    as (σ1 & Hσ1 & Hr1 & Hsame).
  assert (Forall (λ p, owner p.1 = a ∧ is_Some (rs_queued (σ1 p.1))) msgs) as Hall1.
  { rewrite Forall_forall in Hall |- *. intros p Hp. rewrite Hsame; [by apply Hall|].
    intros Heq. apply Hni, list_elem_of_fmap. exists p. by rewrite Heq. }
  destruct r1 as [[d|]|e]; [..|intros [= <- <-]; by exists σ1];
    (intros Hl; destruct (IH _ _ _ Hnd Hall1 Hr1 Hl) as (σ2 & Hσ2 & Hr2);
     exists σ2; split; [by etrans|done]).
Qed.

Lemma due_owned a ct m s σ :
  addr_ok a → repr s σ →
  Forall (λ p, owner p.1 = a ∧ is_Some (rs_queued (σ p.1))) (ZRANGEBYSCORE (zk (ZQueue a)) ct m s).
Proof.
  intros Ha Hr. apply Forall_forall. intros [id x] Hp. apply ZRANGEBYSCORE_elem in Hp as [Hp _].
  rewrite (rp_queue _ _ _ _ Hr) in Hp by done. unfold at_queue in Hp. case_decide; [|done]. simpl. by rewrite Hp.
Qed.

Lemma dequeue_repr a n ct mc s σ :
  addr_ok a → repr s σ →
  ∃ σ', rtc (take_one owner (λ b, b = a)) σ σ' ∧
    repr (dequeueMessagesFromQueue (sys_keys a n "" "" "") (addr_key a) ct dl bf mc s).2 σ'.
Proof.
  intros Ha Hr. unfold dequeueMessagesFromQueue.
  destruct (dequeue_capacity _ _ _ _ _) as [[m|]|]; [|by exists σ; split; [apply rtc_refl|]..].
  pose proof (due_owned a ct m s σ Ha Hr) as Hall.
  pose proof (ZRANGEBYSCORE_NoDup (zk (ZQueue a)) ct m s) as Hnd.
  change (Scripts.queueKey (sys_keys a n "" "" "")) with (zk (ZQueue a)).
  destruct (ZRANGEBYSCORE (zk (ZQueue a)) ct m s) as [|p ps]; [by exists σ; split; [apply rtc_refl|]|].
  destruct (dequeue_loop _ _ _ _ _ _) as [r s1] eqn:El.
  destruct (dequeue_loop_repr a n _ _ _ _ _ _ _ _ Ha Hnd Hall Hr El) as (σ1 & Hσ1 & Hr1).
  exists σ1. split; [done|]. destruct r; [|done]. cbn.
  eapply repr_same; [apply core_rebalance, aside_master|done].
Qed.

Local Notation levels := (levels P shard).

Lemma dequeue_loop_levels a n qn ct msgs res s r s' :
  addr_ok a → levels s → dequeue_loop (sys_keys a n "" "" "") qn ct msgs res s = (r, s') → levels s'.
Proof.
  intros Ha. revert res s. induction msgs as [|[id x] msgs IH]; intros res s Hs; cbn [dequeue_loop].
  { by intros [= <- <-]. }
  destruct (dequeue_one _ _ _ _ _ _ _ _) as [r1 s1] eqn:E.
  pose proof (dequeue_one_levels P shard a a n qn _ ct id x s r1 s1 Ha eq_refl Hs E) as H1.
  destruct r1 as [[d|]|e]; [by apply IH..|by intros [= <- <-]].
Qed.

Lemma dequeue_levels a n ct mc s :
  addr_ok a → levels s →
  levels (dequeueMessagesFromQueue (sys_keys a n "" "" "") (addr_key a) ct dl bf mc s).2.
Proof.
  intros Ha Hs. unfold dequeueMessagesFromQueue.
  destruct (dequeue_capacity _ _ _ _ _) as [[m|]|]; try done.
  destruct (ZRANGEBYSCORE _ _ _ _) as [|p ps]; [done|].
  destruct (dequeue_loop _ _ _ _ _ _) as [r s1] eqn:El.
  pose proof (dequeue_loop_levels _ _ _ _ _ _ _ _ _ Ha Hs El) as H1.
  destruct r; [|done]. by apply levels_rebalance.
Qed.

(** ** Dequeue with concurrency keys *)

Definition keyed (e : env_obj) (q : string) (a : addr) : Prop :=
  a_env a = e ∧ a_queue a = q ∧ a_ck a ≠ None.

Lemma dequeue_ck_one_inv a n ct ql s σ r s' :
  addr_ok a → a_ck a ≠ None → repr s σ → levels s →
  let K := sys_keys (Addr (a_env a) (a_queue a) None) n "" "" "" in
  dequeue_ck_one K P ct ql (addr_key a) s = (r, s') →
  ∃ σ', rtc (take_one owner (keyed (a_env a) (a_queue a))) σ σ' ∧ repr s' σ' ∧ levels s'.
Proof.
  intros Ha Hck Hr Hs K. unfold dequeue_ck_one. rewrite sk_queue_cc.
  change (P +:+ addr_key a) with (zk (ZQueue a)).
  assert (∀ t σ', repr t σ' → levels t →
    repr (rebalance (ckIndexKey K) (zk (ZQueue a)) (addr_key a) t) σ' ∧
    levels (rebalance (ckIndexKey K) (zk (ZQueue a)) (addr_key a) t)) as Hreb.
  { intros t σ' Ht Hlt. split; [|exact (levels_rebalance_index P shard a t Ha Hck Hlt)].
    eapply repr_same; [apply core_rebalance, (aside_index P a Ha)|done]. }
  destruct (_ <? ql); [|intros [= <- <-]; exists σ; split; [apply rtc_refl|done]].
  pose proof (due_owned a ct 1 s σ Ha Hr) as Hdue.
  destruct (ZRANGEBYSCORE _ _ _ _) as [|[id x] l].
  { intros [= <- <-]. exists σ. split; [apply rtc_refl|by apply Hreb]. }
  apply Forall_cons in Hdue as [[Hid [x0 Hx]] _]. simpl in Hid, Hx.
  destruct (dequeue_one _ _ _ _ _ _ _ _) as [r1 s1] eqn:E.
  destruct (dequeue_one_repr (keyed (a_env a) (a_queue a)) a (Addr (a_env a) (a_queue a) None)
    n (addr_key a) ct id x x0 s σ r1 s1) as (σ1 & Hσ1 & Hr1 & _); try done.
  pose proof (dequeue_one_levels P shard a (Addr (a_env a) (a_queue a) None) n _ _ ct id x s r1 s1
    Ha eq_refl Hs E) as Hl1.
  exists σ1. split; [done|]. destruct r1; simplify_eq; [by apply Hreb|done].
Qed.

Lemma dequeue_ck_loop_inv e q n ct ql mx names res s σ r s' :
  Forall (λ name, ∃ c, addr_ok (Addr e q (Some c)) ∧ name = addr_key (Addr e q (Some c))) names →
  repr s σ → levels s →
  dequeue_ck_loop (sys_keys (Addr e q None) n "" "" "") P ct ql mx names res s = (r, s') →
  ∃ σ', rtc (take_one owner (keyed e q)) σ σ' ∧ repr s' σ' ∧ levels s'.
Proof.
  intros Hall. revert res s σ. induction Hall as [|name names (c & Hc & ->) Hall IH];
    intros res s σ Hr Hs; cbn [dequeue_ck_loop].
  { intros [= <- <-]. exists σ. split; [apply rtc_refl|done]. }
  destruct (mx <=? _); [intros [= <- <-]; exists σ; split; [apply rtc_refl|done]|].
  destruct (dequeue_ck_one _ _ _ _ _ _) as [r1 s1] eqn:E.
  destruct (dequeue_ck_one_inv (Addr e q (Some c)) n ct ql s σ r1 s1) as (σ1 & Hσ1 & Hr1 & Hs1);
    [done..|].
  destruct r1 as [[d|]|er]; [..|intros [= <- <-]; by exists σ1];
    (intros Hl; destruct (IH _ _ _ Hr1 Hs1 Hl) as (σ2 & ? & ? & ?); exists σ2; split; [by etrans|done]).
Qed.

Lemma dequeue_ck_inv e q n ct mc s σ :
  addr_ok (Addr e q None) → repr s σ → levels s →
  let s' := (dequeueMessagesFromCkQueue (sys_keys (Addr e q None) n "" "" "") (wildcard e q) ct dl bf P
               mc s).2 in
  ∃ σ', rtc (take_one owner (keyed e q)) σ σ' ∧ repr s' σ' ∧ levels s'.
Proof.
  intros Ha Hr Hs. pose proof (addr_env_ok _ Ha) as He. pose proof (addr_queue_ok _ Ha) as Hq.
  simpl in He, Hq. unfold dequeueMessagesFromCkQueue. set (K := sys_keys (Addr e q None) n "" "" "").
  assert (∃ σ', rtc (take_one owner (keyed e q)) σ σ' ∧ repr s σ' ∧ levels s) as Hstay.
  { exists σ. split; [apply rtc_refl|done]. }
  assert (∀ t σ', repr t σ' → levels t →
    repr (rebalance (Scripts.masterQueueKey K) (ckIndexKey K) (wildcard e q) t) σ' ∧
    levels (rebalance (Scripts.masterQueueKey K) (ckIndexKey K) (wildcard e q) t)) as Hreb.
  { intros t σ' Ht Hlt. split; [|by apply levels_rebalance_wildcard].
    eapply repr_same; [apply core_rebalance, aside_master|done]. }
  destruct (env_limits K dl bf s) as [[l lb]|]; [|done]. destruct (lb <=? _); [done|].
  destruct (queue_limit K l s) as [ql|]; [|done]. destruct (_ <=? 0); [done|].
  set (m := Z.min _ _ * 3).
  assert (Forall (λ name, ∃ c, addr_ok (Addr e q (Some c)) ∧ name = addr_key (Addr e q (Some c)))
    (ZRANGEBYSCORE (ckIndexKey K) ct m s).*1) as Hall.
  { apply Forall_fmap, Forall_forall. intros [name y] Hin. apply ZRANGEBYSCORE_elem in Hin as [Hin _].
    by apply (lv_name _ _ _ _ _ Hs e q name y). }
  destruct (ZRANGEBYSCORE (ckIndexKey K) ct m s) as [|p ps].
  { exists σ. split; [apply rtc_refl|by apply Hreb]. }
  destruct (dequeue_ck_loop _ _ _ _ _ _ _ _) as [r s1] eqn:El.
  destruct (dequeue_ck_loop_inv _ _ _ _ _ _ _ _ _ _ _ _ Hall Hr Hs El) as (σ1 & ? & ? & ?).
  exists σ1. split; [done|]. destruct r; [by apply Hreb|done].
Qed.

(** ** Levels after the other scripts *)

Lemma levels_slow id x d ttl n wq s :
  run_ok id → levels s →
  let K := sys_keys (owner id) n wq (org_id id) id in
  levels (release K id (rebalance_parents K (addr_key (owner id)) (addr_wild (owner id))
            (ttl_stage K ttl (slow_path_queues K id d x s)))).
Proof.
  intros Hid Hs K. pose proof (ro_addr _ _ Hid) as Ha. pose proof (addr_env_ok _ Ha) as He.
  eapply levels_same; [intros k; apply ZALL_release|]. apply levels_parents; [done|].
  assert (levels_but P shard (λ b, b = owner id) none2 (slow_path_queues K id d x s)) as H1.
  { apply levels_ZADD_outside; [by apply outside_env|]. apply levels_put; [done|].
    eapply levels_same; [|exact Hs]. intros k. by redis_simpl. }
  destruct ttl as [[tm ts]|]; [|done]. apply levels_ZADD_outside; [apply outside_ttl|done].
Qed.

Lemma levels_requeue id x d wq s :
  run_ok id → levels s →
  levels (nack_script (sys_keys (owner id) None wq (org_id id) id) id (addr_key (owner id)) d x
            (addr_wild (owner id)) s).
Proof.
  intros Hid Hs. pose proof (ro_addr _ _ Hid) as Ha. pose proof (addr_env_ok _ Ha) as He.
  rewrite nack_script_eq by (apply sys_keys_ok; eauto with keys). apply levels_parents; [done|].
  apply levels_ZADD_outside; [by apply outside_env|]. apply levels_put; [done|].
  eapply levels_same; [|exact Hs]. intros k. by redis_simpl.
Qed.

Lemma levels_ack id mkv rm wq s :
  run_ok id → levels s →
  levels (ack_script (sys_keys (owner id) None wq (org_id id) id) id (addr_key (owner id)) mkv rm
            (addr_wild (owner id)) s).
Proof.
  intros Hid Hs. pose proof (ro_addr _ _ Hid) as Ha. rewrite ack_script_eq. cbv zeta.
  set (K := sys_keys (owner id) None wq (org_id id) id).
  apply (levels_same _ _ _ _ (rebalance_parents K (addr_key (owner id)) (addr_wild (owner id))
    (ZREM (Scripts.envQueueKey K) id (ZREM (Scripts.queueKey K) id (DEL (Scripts.messageKey K) s))))).
  { intros k. destruct rm; by redis_simpl. }
  apply levels_parents_same; [done|]. apply levels_unput; [done|].
  eapply levels_same; [|exact Hs]. intros k. by redis_simpl.
Qed.

Lemma levels_dead_letter id wq s :
  run_ok id → levels s →
  levels (dead_letter_script (sys_keys (owner id) None wq (org_id id) id) id (addr_key (owner id))
            (addr_wild (owner id)) s).
Proof.
  intros Hid Hs. pose proof (ro_addr _ _ Hid) as Ha. rewrite dead_letter_script_eq. cbv zeta.
  eapply levels_same; [intros k; apply ZALL_release|].
  apply levels_ZADD_outside; [apply outside_zk; [by eauto with keys|done]|].
  apply levels_parents_same; [done|]. by apply levels_unput.
Qed.

Lemma levels_expire id n wq wi vt now member s :
  run_ok id → ids_ok (a_env (owner id)) → (∀ k, zkey_ok k → wq ≠ zk k) → levels s →
  levels (expire_one (zk (ZTtl n)) P wq wi vt now member (addr_key (owner id)) id (org_id id) s).2.
Proof.
  intros Hid Hi Hwq Hs. pose proof (ro_addr _ _ Hid) as Ha.
  destruct (expire_script_eq id n wq wi vt now member s Hid Hi) as (s1 & _ & Hz & _ & ->).
  eapply levels_same; [intros k; apply ZALL_HSET|].
  apply levels_ZADD_outside; [split_and!; intros; apply Hwq; by eauto with keys|].
  assert (levels s1) as H1.
  { eapply levels_same; [exact Hz|]. apply levels_unput; [done|].
    apply levels_ZREM_outside; [apply (outside_ttl P (Some n))|done]. }
  case_decide; [done|]. by apply levels_rebalance_index.
Qed.

Lemma deliver_zsets k P' s k' : ZALL k' (dequeueMessageFromKey k P' s).2 = ZALL k' s.
Proof.
  unfold dequeueMessageFromKey. destruct (GET k s); [|done]. destruct (cjson_decode _); [|done].
  destruct (match_before_queue _); [|done]. cbn. by redis_simpl.
Qed.

(** ** The simulation *)

Lemma enqueue_inv id m x ttl mkv ct fast n wq s σ :
  message_ok m → runId m = id → repr s σ → levels s →
  let s' := (enqueue_script (sys_keys (owner id) n wq (org_id id) id) (addr_key (owner id)) id (VMessage m) x ttl
               (addr_wild (owner id)) mkv dl bf ct fast s).2 in
  ∃ σ', run_step owner (OpEnqueue id x) σ σ' ∧ repr s' σ' ∧ levels s'.
Proof.
  intros Hm Hrun Hr Hs. assert (run_ok id) as Hid by (subst id; apply Hm).
  rewrite enqueue_script_eq by (apply sys_keys_ok; eauto with keys).
  destruct (fast_path_open _ _ _ _ _ _) as [[]|]; cbn [snd].
  - eexists. split; [apply run_fast_path|]. split; [by apply fast_path_repr|].
    eapply levels_same; [|exact Hs]. intros k. unfold fast_path. by redis_simpl.
  - eexists. split; [apply run_enqueue|]. split; [by apply enqueue_slow_repr|by apply levels_slow].
  - eexists. split; [apply run_enqueue_error|done].
Qed.

Lemma step_inv o s s' σ :
  sys_step o s s' → repr s σ → levels s →
  ∃ σ', run_step owner o σ σ' ∧ repr s' σ' ∧ levels s'.
Proof.
  intros Hst Hr Hs.
  assert (∀ t, same_core P s t → levels t →
    ∃ σ', run_step owner OpInternal σ σ' ∧ repr t σ' ∧ levels t) as Hint.
  { intros t Hc Ht. exists σ. split; [constructor|]. split; [by eapply repr_same|done]. }
  destruct Hst.
  - by apply enqueue_inv.
  - destruct (dequeue_repr a n ct mc s σ) as (σ' & ? & ?); [done..|].
    exists σ'. split; [by constructor|]. split; [done|by apply dequeue_levels].
  - destruct (dequeue_ck_inv e q n ct mc s σ) as (σ' & ? & ? & ?); [done..|].
    exists σ'. by split; [constructor|].
  - apply Hint; [apply core_RPUSH|]. eapply levels_same; [|exact Hs]. intros. by redis_simpl.
  - apply Hint; [apply core_LPOP|]. eapply levels_same; [|exact Hs]. intros. by redis_simpl.
  - destruct (deliver_eq k m s σ Hr) as [Hm Heq]; [done|]. eexists.
    split; [apply run_deliver|]. split; [rewrite Heq; apply repr_deliver; [apply Hm|done]|].
    eapply levels_same; [|exact Hs]. intros. apply deliver_zsets.
  - eexists. split; [apply run_forget|]. split; [by apply ack_repr|by apply levels_ack].
  - eexists. split; [apply run_requeue|]. split; [by apply nack_repr|].
    apply levels_requeue; [subst id; by apply mo_run|done].
  - eexists. split; [apply run_forget|]. split; [by apply dead_letter_repr|by apply levels_dead_letter].
  - eexists. split; [apply run_release|]. split; [by apply release_repr|].
    eapply levels_same; [|exact Hs]. intros. unfold releaseConcurrency. by redis_simpl.
  - eexists. split; [apply run_forget|]. split; [by apply expire_repr|by apply levels_expire].
  - apply Hint; [apply core_rebalance, aside_master|by apply levels_rebalance].
  - apply Hint; [apply core_ZADD, aside_marked|]. apply levels_ZADD_outside; [by apply outside_zk|done].
  - apply Hint; [apply core_ZREM, aside_marked|]. apply levels_ZREM_outside; [by apply outside_zk|done].
  - apply Hint; [by apply core_ZREM, aside_dead|]. apply levels_ZREM_outside; [by apply outside_zk|done].
Qed.

End Steps.
