(* ===== verification/Invariants.v ===== *)
(** * Invariants: what holds after any sequence of steps

    The concurrency limits are never exceeded while they are not changed, every
    queued run stays reachable from the master queue, and the environment's queue
    and sets agree with those of its queues. *)

From Stdlib Require Import SpecFloat.
From S2P Require Import Prelude Text Redis Listing Messages Scripts ScriptFacts Dequeue DequeueCk Lifecycle.
From S2P Require Import KeyProducer Expire KeySpace System Levels Steps.
Local Open Scope Z_scope.

Section Invariants.
Context {db : Type} {R : Redis rq_value db} {L : RedisLaws R}.
Context (P : string) (shard : string → Z) (owner : string → addr).
Context (dl : Z) (bf : spec_float).
Implicit Types (s t : db) (σ : runs) (a : addr) (e : env_obj) (id : string).

Local Notation zk := (zk P).
Local Notation sk := (sk P).
Local Notation vk := (vk P).
Local Notation master := (master P shard).
Local Notation sys_keys := (sys_keys P shard).
Local Notation repr := (repr P owner).
Local Notation levels := (levels P shard).
Local Notation run_ok := (run_ok owner).
Local Notation message_ok := (message_ok owner).
Local Notation sys_step := (sys_step P shard owner dl bf).
Local Notation org_id := (org_id owner).

(** ** Limits *)

(** The limits in force: of an environment (plain and with burst), of a queue. *)
Definition limit_of (e : env_obj) s : option (Z * Z) :=
  env_limits (sys_keys (Addr e "" None) None "" "" "") dl bf s.
Definition queue_limit_of (a : addr) (l : Z) s : option Z :=
  queue_limit (sys_keys a None "" "" "") l s.

(** No environment and no queue holds more slots than its limit. *)
Record limits_ok s : Prop := LimitsOk {
  lm_env e l lb : env_ok e → limit_of e s = Some (l, lb) → SCARD (sk (SEnvCC e)) s ≤ Z.max 0 lb;
  lm_queue a l lb ql : addr_ok a → limit_of (a_env a) s = Some (l, lb) →
    queue_limit_of a l s = Some ql → SCARD (sk (SQueueCC a)) s ≤ Z.max 0 ql;
}.

(** The keys the limits are read from. *)
Definition limit_key (k : vkey) : Prop := match k with VMsg _ _ => False | _ => vkey_ok k end.

Definition same_limits s t : Prop := ∀ k, limit_key k → GET (vk k) t = GET (vk k) s.

Lemma limit_of_same e s t : env_ok e → same_limits s t → limit_of e t = limit_of e s.
Proof.
  intros He H. unfold limit_of, env_limits, get_limit, get_factor. cbn.
  by rewrite (H (VEnvLimit e)), (H (VEnvBurst e)).
Qed.

Lemma queue_limit_of_same a l s t :
  addr_ok a → same_limits s t → queue_limit_of a l t = queue_limit_of a l s.
Proof.
  intros Ha H. unfold queue_limit_of, queue_limit, get_limit. cbn.
  rewrite (H (VQueueLimit (a_env a) (a_queue a))); [done|]. cbn. by eauto with keys.
Qed.

(** The sets of [t] are bounded by those of [s] or by the limits. *)
Lemma limits_step s t :
  same_limits s t →
  (∀ e l lb, env_ok e → limit_of e s = Some (l, lb) →
     SCARD (sk (SEnvCC e)) t ≤ Z.max (SCARD (sk (SEnvCC e)) s) lb) →
  (∀ a l lb ql, addr_ok a → limit_of (a_env a) s = Some (l, lb) → queue_limit_of a l s = Some ql →
     SCARD (sk (SQueueCC a)) t ≤ Z.max (SCARD (sk (SQueueCC a)) s) ql) →
  limits_ok s → limits_ok t.
Proof.
  intros Hsame He Hq [Hle Hlq]. split.
  - intros e l lb Hok. rewrite (limit_of_same e s t) by done. intros Hl.
    pose proof (He e l lb Hok Hl). pose proof (Hle e l lb Hok Hl). lia.
  - intros a l lb ql Hok. rewrite (limit_of_same _ s t), (queue_limit_of_same a l s t) by eauto with keys.
    intros Hl Hql. pose proof (Hq a l lb ql Hok Hl Hql). pose proof (Hlq a l lb ql Hok Hl Hql). lia.
Qed.

Lemma SCARD_subseteq k s t : SMEMBERS k t ⊆ SMEMBERS k s → SCARD k t ≤ SCARD k s.
Proof. intros H. unfold SCARD. apply inj_le, subseteq_size, H. Qed.

(** A step that takes no slot. *)
Lemma limits_shrink s t :
  same_limits s t →
  (∀ e, env_ok e → SMEMBERS (sk (SEnvCC e)) t ⊆ SMEMBERS (sk (SEnvCC e)) s) →
  (∀ a, addr_ok a → SMEMBERS (sk (SQueueCC a)) t ⊆ SMEMBERS (sk (SQueueCC a)) s) →
  limits_ok s → limits_ok t.
Proof.
  intros Hsame He Hq. apply limits_step; [done|..].
  - intros e l lb Hok _. pose proof (SCARD_subseteq _ _ _ (He e Hok)). lia.
  - intros a l lb ql Hok _ _. pose proof (SCARD_subseteq _ _ _ (Hq a Hok)). lia.
Qed.

Lemma msg_no_limit o id k : plain o → plain id → limit_key k → vk (VMsg o id) ≠ vk k.
Proof.
  intros Ho Hid Hk H. apply vk_inj in H; [by subst|done|]. by destruct k.
Qed.

Lemma same_limits_SET o id v s t :
  plain o → plain id → same_limits s t → same_limits s (SET (vk (VMsg o id)) v t).
Proof.
  intros Ho Hid H k Hk. redis_simpl. rewrite decide_False by by apply msg_no_limit. by apply H.
Qed.

Lemma same_limits_get s t : (∀ k, GET k t = GET k s) → same_limits s t.
Proof. intros H k _. apply H. Qed.

(** ** The steps keep the limits *)

Lemma limits_slow id m x ttl n wq s :
  run_ok id → limits_ok s →
  let K := sys_keys (owner id) n wq (org_id id) id in
  limits_ok (release K id (rebalance_parents K (addr_key (owner id)) (addr_wild (owner id))
               (ttl_stage K ttl (slow_path_queues K id (VMessage m) x s)))).
Proof.
  intros Hid Hs K. set (t := ttl_stage K ttl _).
  assert (same_limits s t ∧ ∀ k, SMEMBERS k t = SMEMBERS k s) as [Hl Hm].
  { unfold t, slow_path_queues. destruct ttl as [[tm ts]|]; split; cbn [ttl_stage];
      try (by intros; redis_simpl); intros k Hk; redis_simpl;
      rewrite decide_False by (apply msg_no_limit; eauto with keys); done. }
  clearbody t. revert Hs. apply limits_shrink.
  - intros k Hk. redis_simpl. by apply Hl.
  - intros e He. rewrite SMEMBERS_release. redis_simpl. rewrite Hm. case_decide; set_solver.
  - intros a Ha. rewrite SMEMBERS_release. redis_simpl. rewrite Hm. case_decide; set_solver.
Qed.

Lemma limits_fast id m mkv ct fast n wq s :
  run_ok id → fast_path_open (sys_keys (owner id) n wq (org_id id) id) dl bf ct fast s = Some true →
  limits_ok s → limits_ok (fast_path (sys_keys (owner id) n wq (org_id id) id) id (VMessage m) mkv s).
Proof.
  intros Hid Ho. destruct (fast_path_open_true _ _ _ _ _ _ Ho) as [_ (l & lb & ql & Hl & Hq & He & Hqq)].
  unfold fast_path. apply limits_step.
  - intros k Hk. redis_simpl. rewrite decide_False by (apply msg_no_limit; eauto with keys). done.
  - intros e l' lb' Hok Hl'. unfold SCARD in *. cbn in *. by_key.
    + change (env_limits (sys_keys (owner id) n wq (org_id id) id) dl bf s) with
        (limit_of (a_env (owner id)) s) in Hl. simplify_eq.
      pose proof (size_add_one id (SMEMBERS (sk (SEnvCC (a_env (owner id)))) s)). lia.
    + lia.
  - intros a l' lb' ql' Hok Hl' Hql'. unfold SCARD in *. cbn in *. by_key.
    + change (env_limits (sys_keys (owner id) n wq (org_id id) id) dl bf s) with
        (limit_of (a_env (owner id)) s) in Hl. simplify_eq.
      change (queue_limit (sys_keys (owner id) n wq (org_id id) id) l s) with
        (queue_limit_of (owner id) l s) in Hq. simplify_eq.
      pose proof (size_add_one id (SMEMBERS (sk (SQueueCC (owner id))) s)). lia.
    + lia.
Qed.

Lemma limits_enqueue id m x ttl mkv ct fast n wq s :
  run_ok id → limits_ok s →
  limits_ok (enqueue_script (sys_keys (owner id) n wq (org_id id) id) (addr_key (owner id)) id (VMessage m) x ttl
               (addr_wild (owner id)) mkv dl bf ct fast s).2.
Proof.
  intros Hid Hs. rewrite enqueue_script_eq by (apply sys_keys_ok; eauto with keys).
  destruct (fast_path_open _ _ _ _ _ _) as [[]|] eqn:Ho; cbn [snd];
    [by eapply limits_fast|by apply limits_slow|done].
Qed.

Lemma cc_ne_ecc a e : addr_ok a → env_ok e → sk (SQueueCC a) ≠ sk (SEnvCC e).
Proof. intros Ha He H. apply sk_inj in H; [done|done|done]. Qed.
Lemma ecc_ne e e' : env_ok e → env_ok e' → e ≠ e' → sk (SEnvCC e) ≠ sk (SEnvCC e').
Proof. intros He He' Hne H. apply sk_inj in H; [congruence|done|done]. Qed.
Lemma cc_ne a b : addr_ok a → addr_ok b → a ≠ b → sk (SQueueCC a) ≠ sk (SQueueCC b).
Proof. intros Ha Hb Hne H. apply sk_inj in H; [congruence|done|done]. Qed.

Lemma limits_dequeue a n ct mc s :
  addr_ok a → limits_ok s →
  limits_ok (dequeueMessagesFromQueue (sys_keys a n "" "" "") (addr_key a) ct dl bf mc s).2.
Proof.
  intros Ha Hs. set (K := sys_keys a n "" "" "").
  assert (keys_ok K) as HK by by apply sys_keys_ok.
  destruct (dequeueMessagesFromQueue K _ _ _ _ _ _) as [r s'] eqn:E.
  destruct (dequeue_run _ _ _ _ _ _ _ _ _ (keys_ok_dequeue _ HK) E)
    as [[-> _]|(m & msgs & d & todo & s1 & Hc & _ & _ & _ & Hm & Hend)]; [done|].
  destruct (dequeue_capacity_room _ _ _ _ _ _ Hc) as (l & lb & ql & Hl & Hq & _).
  destruct (dequeue_limits _ _ _ _ _ _ _ _ _ _ _ _ HK Hl Hq E) as (Hle & Hlq & Ho).
  change (env_limits K dl bf s) with (limit_of (a_env a) s) in Hl.
  change (queue_limit K l s) with (queue_limit_of a l s) in Hq.
  cbn [snd]. revert Hs. apply limits_step.
  - apply same_limits_get. intros k. rewrite <- (moved_get _ _ _ _ _ _ _ _ Hm k).
    destruct Hend as [(?&?&->&?)|(?&?&->)]; by redis_simpl.
  - intros e l' lb' He Hl'. destruct (decide (e = a_env a)) as [->|Hne]; [by simplify_eq|].
    unfold SCARD. rewrite Ho; [lia|..];
      [intros H; by apply (cc_ne_ecc a e)|apply ecc_ne; eauto with keys].
  - intros b l' lb' ql' Hb Hl' Hq'. destruct (decide (b = a)) as [->|Hne]; [by simplify_eq|].
    unfold SCARD. rewrite Ho; [lia|by apply cc_ne|apply cc_ne_ecc; eauto with keys].
Qed.

Lemma dequeue_one_get K qk ck qn ct id x s r s' k :
  dequeue_one K qk ck qn ct id x s = (r, s') → GET k s' = GET k s.
Proof.
  unfold dequeue_one. destruct (GET _ s) as [v|]; [destruct (cjson_decode v) as [m|];
    [destruct (ttl_expired m ct)|]|]; intros [= <- <-]; try done; unfold drop_message, take_message;
    [by redis_simpl|destruct (_ && _); by redis_simpl|by redis_simpl].
Qed.

Lemma dequeue_ck_one_get K ct ql name s r s' k :
  dequeue_ck_one K P ct ql name s = (r, s') → GET k s' = GET k s.
Proof.
  unfold dequeue_ck_one. destruct (_ <? ql); [|by intros [= <- <-]].
  destruct (ZRANGEBYSCORE _ _ _ _) as [|[id x] l]; [intros [= <- <-]; by redis_simpl|].
  destruct (dequeue_one _ _ _ _ _ _ _ _) as [[o|er] s1] eqn:E; intros [= <- <-];
    redis_simpl; by eapply dequeue_one_get.
Qed.

Lemma dequeue_ck_loop_get K ct ql mx names res s r s' k :
  dequeue_ck_loop K P ct ql mx names res s = (r, s') → GET k s' = GET k s.
Proof.
  revert res s. induction names as [|name names IH]; intros res s; cbn [dequeue_ck_loop];
    [by intros [= <- <-]|].
  destruct (mx <=? _); [by intros [= <- <-]|].
  destruct (dequeue_ck_one _ _ _ _ _ _) as [r1 s1] eqn:E.
  pose proof (dequeue_ck_one_get _ _ _ _ _ _ _ k E) as Hg.
  destruct r1 as [[d|]|er]; [intros Hl; by rewrite (IH _ _ Hl)..|by intros [= <- <-]].
Qed.

Lemma dequeue_ck_get K wild ct mc s k :
  GET k (dequeueMessagesFromCkQueue K wild ct dl bf P mc s).2 = GET k s.
Proof.
  unfold dequeueMessagesFromCkQueue. destruct (env_limits K dl bf s) as [[l lb]|]; [|done].
  destruct (lb <=? _); [done|]. destruct (queue_limit K l s); [|done]. destruct (_ <=? 0); [done|].
  destruct (ZRANGEBYSCORE _ _ _ _) as [|p ps]; [cbn [snd]; by redis_simpl|].
  destruct (dequeue_ck_loop _ _ _ _ _ _ _ _) as [r1 s1] eqn:E.
  pose proof (dequeue_ck_loop_get _ _ _ _ _ _ _ _ _ k E). destruct r1; cbn [snd]; by redis_simpl.
Qed.

(** Without limits the script leaves the database alone. *)
Lemma dequeue_ck_no_limits K wild ct mc s :
  (dequeueMessagesFromCkQueue K wild ct dl bf P mc s).2 = s ∨
  ∃ l lb ql, env_limits K dl bf s = Some (l, lb) ∧ queue_limit K l s = Some ql.
Proof.
  unfold dequeueMessagesFromCkQueue. destruct (env_limits K dl bf s) as [[l lb]|] eqn:El; [|by left].
  destruct (lb <=? _); [by left|]. destruct (queue_limit K l s) as [ql|] eqn:Eq; [|by left].
  right. by exists l, lb, ql.
Qed.

Lemma limits_dequeue_ck e q n ct mc s :
  addr_ok (Addr e q None) → levels s → limits_ok s →
  limits_ok (dequeueMessagesFromCkQueue (sys_keys (Addr e q None) n "" "" "") (wildcard e q) ct dl bf P
               mc s).2.
Proof.
  intros Ha Hlv Hs. pose proof (addr_env_ok _ Ha) as He. pose proof (addr_queue_ok _ Ha) as Hpq.
  simpl in He, Hpq. set (K := sys_keys (Addr e q None) n "" "" "").
  destruct (dequeue_ck_no_limits K (wildcard e q) ct mc s) as [->|(l & lb & ql & Hl & Hq)]; [done|].
  pose proof (λ k, dequeue_ck_get K (wildcard e q) ct mc s k) as Hget.
  destruct (dequeueMessagesFromCkQueue K _ _ _ _ _ _ _) as [r s'] eqn:E. cbn [snd] in *.
  assert (∀ name x, ZALL (ckIndexKey K) s !! name = Some x → ∃ c, addr_ok (Addr e q (Some c)) ∧
    P +:+ name = zk (ZQueue (Addr e q (Some c))) ∧ ck_set P name = sk (SQueueCC (Addr e q (Some c))))
    as Hnames.
  { intros name x Hx. destruct (lv_name _ _ _ _ _ Hlv e q name x He Hpq Hx) as (c & Hc & ->).
    exists c. split; [done|]. split; [done|]. apply sk_queue_cc. }
  assert (keys_ok K) as HK by (by apply sys_keys_ok).
  destruct (dequeue_ck_limits K P (wildcard e q) ct dl bf mc s r s' l lb ql) as (Hle & Hk & _); try done.
  { intros name x Hx. destruct (Hnames name x Hx) as (c & Hc & -> & ->). by apply queue_dequeue_keys. }
  change (env_limits K dl bf s) with (limit_of e s) in Hl.
  revert Hs. apply limits_step; [by apply same_limits_get|..].
  - intros e' l' lb' He' Hl'. destruct (decide (e' = e)) as [->|Hne]; [by simplify_eq|].
    destruct (Hk (sk (SEnvCC e'))) as (_ & _ & Hsame); [by apply ecc_ne|].
    unfold SCARD. rewrite Hsame; [lia|]. intros name x Hx.
    destruct (Hnames name x Hx) as (c & Hc & _ & ->). intros H. by apply (cc_ne_ecc (Addr e q (Some c)) e').
  - intros b l' lb' ql' Hb Hl' Hq'.
    destruct (Hk (sk (SQueueCC b))) as (_ & Hmax & Hsame); [by apply cc_ne_ecc|].
    destruct (decide (a_env b = e ∧ a_queue b = q)) as [[<- <-]|Hne].
    + simplify_eq. change (queue_limit K l s) with (queue_limit_of b l s) in Hq. by simplify_eq.
    + unfold SCARD. rewrite Hsame; [lia|]. intros name x Hx.
      destruct (Hnames name x Hx) as (c & Hc & _ & ->). apply cc_ne; try done. intros ->. by apply Hne.
Qed.

Lemma run_org_plain id : run_ok id → plain (org_id id) ∧ plain id.
Proof. intros Hid. split; [apply env_org_ok|]; eauto with keys. Qed.

(** A step whose effect on the strings is on the run's message, and which only
    removes members of sets. *)
Lemma limits_quiet id s t :
  run_ok id → (∀ k, k ≠ vk (VMsg (org_id id) id) → GET k t = GET k s) →
  (∀ k, SMEMBERS k t ⊆ SMEMBERS k s) → limits_ok s → limits_ok t.
Proof.
  intros Hid Hg Hm. destruct (run_org_plain id Hid) as [Ho Hp].
  apply limits_shrink; [|intros; apply Hm..].
  intros k Hk. apply Hg. intros H. symmetry in H. by apply (msg_no_limit (org_id id) id k) in H.
Qed.

(** A step that changes neither strings nor sets. *)
Lemma limits_same s t :
  (∀ k, GET k t = GET k s) → (∀ k, SMEMBERS k t = SMEMBERS k s) → limits_ok s → limits_ok t.
Proof.
  intros Hg Hm. apply limits_shrink; [by apply same_limits_get|intros; by rewrite Hm..].
Qed.

Lemma deliver_limits k m s σ :
  repr s σ → GET k s = Some (VMessage m) → limits_ok s →
  limits_ok (dequeueMessageFromKey k P s).2.
Proof.
  intros Hr Eg. destruct (deliver_eq P owner k m s σ Hr Eg) as [Hm ->].
  pose proof (ro_addr _ _ (mo_run _ _ Hm)) as Ha. apply limits_shrink.
  - intros k' Hk. by redis_simpl.
  - intros e He. by_key. done.
  - intros a Ha'. by_key. done.
Qed.

Lemma step_limits o s s' σ :
  sys_step o s s' → repr s σ → levels s → limits_ok s → limits_ok s'.
Proof.
  intros Hst Hr Hlv Hs. destruct Hst.
  - subst id. apply limits_enqueue; [by apply mo_run|done].
  - by apply limits_dequeue.
  - by apply limits_dequeue_ck.
  - revert Hs. apply limits_same; intros; by redis_simpl.
  - revert Hs. apply limits_same; intros; by redis_simpl.
  - by eapply deliver_limits.
  - rewrite ack_script_eq. cbv zeta. revert Hs. apply (limits_quiet id); [done|..]; intros k;
      [intros Hk; destruct rm; redis_simpl; by rewrite ?decide_False by done|].
    destruct rm; redis_simpl; rewrite SMEMBERS_release; redis_simpl; case_decide; set_solver.
  - assert (run_ok id) as Hid by (subst id; by apply mo_run). rewrite nack_script_eq by (apply sys_keys_ok; eauto with keys).
    revert Hs. apply (limits_quiet id); [done|..]; intros k;
      [intros Hk; redis_simpl; by rewrite ?decide_False by done|].
    redis_simpl. rewrite SMEMBERS_release. redis_simpl. case_decide; set_solver.
  - rewrite dead_letter_script_eq. cbv zeta. revert Hs. apply (limits_quiet id); [done|..]; intros k;
      [intros _; by redis_simpl|].
    rewrite SMEMBERS_release. redis_simpl. case_decide; set_solver.
  - revert Hs. apply (limits_quiet id); [done|..]; intros k; unfold releaseConcurrency;
      [intros _; by redis_simpl|]. redis_simpl. repeat case_decide; set_solver.
  - destruct (expire_script_eq P shard owner id n wq wi vt now member s) as (s1 & Hm & _ & Hg & ->);
      [done..|]. cbn [snd]. revert Hs. apply (limits_quiet id); [done|..]; intros k.
    + intros Hk. case_decide; redis_simpl; rewrite Hg; redis_simpl; by rewrite ?decide_False by done.
    + case_decide; redis_simpl; rewrite Hm; case_decide; set_solver.
  - revert Hs. apply limits_same; intros; by redis_simpl.
  - revert Hs. apply limits_same; intros; by redis_simpl.
  - revert Hs. apply limits_same; intros; by redis_simpl.
  - revert Hs. apply limits_same; intros; by redis_simpl.
Qed.

(** ** Traces *)

(** A sequence of operations on the database. *)
Inductive sys_trace : list op → db → db → Prop :=
| trace_nil s : sys_trace [] s s
| trace_step o os s1 s2 s3 : sys_step o s1 s2 → sys_trace os s2 s3 → sys_trace (o :: os) s1 s3.

(** The same operations on the runs. *)
Inductive run_trace : list op → runs → runs → Prop :=
| run_nil σ : run_trace [] σ σ
| run_next o os σ1 σ2 σ3 : run_step owner o σ1 σ2 → run_trace os σ2 σ3 → run_trace (o :: os) σ1 σ3.

(** A database without runs; limits may be set. *)
Record initial s : Prop := Initial {
  in_zsets k : ZALL k s = ∅;
  in_sets k : SMEMBERS k s = ∅;
  in_messages k m : GET k s ≠ Some (VMessage m);
}.

Lemma initial_ok s : initial s → repr s no_runs ∧ levels s ∧ limits_ok s.
Proof.
  intros [Hz Hs Hm]. split_and!; split; intros;
    rewrite ?Hz, ?Hs, ?lookup_empty in *; unfold at_queue, SCARD in *; try done.
  - by case_decide.
  - by case_decide.
  - simpl. set_solver.
  - simpl. set_solver.
  - simpl. set_solver.
  - simpl. set_solver.
  - by destruct (Hm k m).
  - rewrite Hs. change (size (∅ : gset string)) with 0%nat. lia.
  - rewrite Hs. change (size (∅ : gset string)) with 0%nat. lia.
Qed.

Lemma trace_ok os s s' σ :
  sys_trace os s s' → repr s σ → levels s → limits_ok s →
  ∃ σ', run_trace os σ σ' ∧ repr s' σ' ∧ levels s' ∧ limits_ok s'.
Proof.
  intros Ht. revert σ. induction Ht as [s|o os s1 s2 s3 Hst Ht IH]; intros σ Hr Hlv Hl.
  { exists σ. split; [constructor|done]. }
  destruct (step_inv _ _ _ _ _ _ _ _ _ Hst Hr Hlv) as (σ2 & Hσ & Hr2 & Hlv2).
  pose proof (step_limits _ _ _ _ Hst Hr Hlv Hl) as Hl2.
  destruct (IH σ2 Hr2 Hlv2 Hl2) as (σ3 & ? & ?). exists σ3. split; [by econstructor|done].
Qed.

Lemma trace_from_initial os s s' :
  initial s → sys_trace os s s' →
  ∃ σ, run_trace os no_runs σ ∧ repr s' σ ∧ levels s' ∧ limits_ok s'.
Proof. intros (? & ? & ?)%initial_ok Ht. by eapply trace_ok. Qed.

(** ** Properties *)

(** C2. The scripts implement the machine of runs: whatever operations have run, in
    whatever order the processes interleaved them, the database is the one of a
    state the machine reaches by the same operations; a run is in its own queue, in
    its environment's queue and in the concurrency sets of both exactly as that
    state says. *)
Theorem scripts_refine_runs os s s' :
  initial s → sys_trace os s s' → ∃ σ, run_trace os no_runs σ ∧ repr s' σ.
Proof. intros Hi Ht. destruct (trace_from_initial _ _ _ Hi Ht) as (σ & ? & ? & _). by exists σ. Qed.

(** C8. While the limits are not changed, no sequence of operations takes an
    environment over its limit with burst, or a queue (or one concurrency key of a
    queue) over the smaller of its own limit and the environment's. *)
Theorem limits_never_exceeded os s s' e l lb :
  initial s → sys_trace os s s' → env_ok e → limit_of e s' = Some (l, lb) →
  SCARD (sk (SEnvCC e)) s' ≤ Z.max 0 lb ∧
  ∀ a ql, addr_ok a → a_env a = e → queue_limit_of a l s' = Some ql →
    SCARD (sk (SQueueCC a)) s' ≤ Z.max 0 ql.
Proof.
  intros Hi Ht He Hl. destruct (trace_from_initial _ _ _ Hi Ht) as (σ & _ & _ & _ & [Hle Hlq]).
  split; [by eapply Hle|]. intros a ql Ha <- Hq. by eapply Hlq.
Qed.


(** A run waits in at most one queue and holds slots of at most one queue; the
    environment's queue holds it under the same score as its own queue, and the
    environment's concurrency set holds it exactly when its own queue's does. *)
Theorem one_queue_one_slot os s s' a b id :
  initial s → sys_trace os s s' → addr_ok a → addr_ok b →
  (∀ x y, ZALL (zk (ZQueue a)) s' !! id = Some x → ZALL (zk (ZQueue b)) s' !! id = Some y → a = b) ∧
  (id ∈ SMEMBERS (sk (SQueueCC a)) s' → id ∈ SMEMBERS (sk (SQueueCC b)) s' → a = b) ∧
  (∀ x, ZALL (zk (ZQueue a)) s' !! id = Some x →
     ZALL (zk (ZEnv (org_of (a_env a)) (env_id (a_env a)))) s' !! id = Some x) ∧
  (id ∈ SMEMBERS (sk (SQueueCC a)) s' → id ∈ SMEMBERS (sk (SEnvCC (a_env a))) s') ∧
  (owner id = a → id ∈ SMEMBERS (sk (SEnvCC (a_env a))) s' → id ∈ SMEMBERS (sk (SQueueCC a)) s').
Proof.
  intros Hi Ht Ha Hb. destruct (trace_from_initial _ _ _ Hi Ht) as (σ & _ & [Hq Hev Hcc Hecc _ _ _] & _).
  pose proof (addr_env_ok _ Ha) as He. 
  rewrite !Hq, !Hcc, !Hecc by eauto with keys.
  unfold at_queue. split_and!.
  - intros x y. repeat case_decide; naive_solver.
  - naive_solver.
  - intros x. rewrite Hev by eauto with keys. unfold at_queue, in_env.
    case_decide; [|done]. subst a. by rewrite decide_True.
  - naive_solver.
  - naive_solver.
Qed.

End Invariants.

(** ** Witnesses *)

(** One queue of the demo environment; the run "r1" of it. *)
Definition demo_addr : addr := Addr demo_env "task" None.

Lemma demo_addr_ok : addr_ok demo_addr.
Proof. split; [apply demo_env_ok|reflexivity|apply demo_no_ck; discriminate|discriminate]. Qed.

Definition demo_owner : string → addr := λ _, demo_addr.
Definition demo_shard : string → Z := λ _, 0.
Definition demo_message : OutputPayload :=
  MkOutputPayload (MkInputPayload "r1" "task" "org1" "proj1" "env1" PRODUCTION (addr_key demo_addr)
    None 10 0 None) (Version2 "main").
Definition demo_db : mem rq_value := mem_empty (1700000000, 0).

(** The run is enqueued, and its queue dequeued. *)
Definition demo_queued : mem rq_value :=
  (enqueue_script (sys_keys "rq:" demo_shard demo_addr None "main" "org1" "r1") (addr_key demo_addr) "r1"
     (VMessage demo_message) 10 None None "m" 10 (double_of_Z 1) 5 false demo_db).2.
Definition demo_taken : mem rq_value :=
  (dequeueMessagesFromQueue (sys_keys "rq:" demo_shard demo_addr None "" "" "") (addr_key demo_addr) 20
     10 (double_of_Z 1) 5 demo_queued).2.

Lemma demo_initial : initial demo_db.
Proof. split; intros; cbn; by rewrite lookup_empty. Qed.

Lemma demo_trace_queued :
  sys_trace "rq:" demo_shard demo_owner 10 (double_of_Z 1) [OpEnqueue "r1" 10] demo_db demo_queued.
Proof.
  eapply trace_step; [|apply trace_nil].
  apply (st_enqueue "rq:" demo_shard demo_owner 10 (double_of_Z 1) "r1" demo_message 10 None "m" 5
    false None "main" demo_db).
  - split; [|done..]. split; [reflexivity|apply demo_addr_ok|by left].
  - done.
Qed.

Lemma demo_trace_taken :
  sys_trace "rq:" demo_shard demo_owner 10 (double_of_Z 1)
    [OpEnqueue "r1" 10; OpDequeue demo_addr] demo_db demo_taken.
Proof.
  eapply trace_step; [|eapply trace_step; [|apply trace_nil]].
  - pose proof demo_trace_queued as Ht. inversion_clear Ht as [|? ? ? ? ? Hst Hnil].
    inversion Hnil; subst. exact Hst.
  - apply (st_dequeue "rq:" demo_shard demo_owner 10 (double_of_Z 1) demo_addr None 20 5 demo_queued).
    apply demo_addr_ok.
Qed.

Lemma scripts_refine_runs_witness :
  ∃ σ, run_trace demo_owner [OpEnqueue "r1" 10; OpDequeue demo_addr] no_runs σ ∧
       repr "rq:" demo_owner demo_taken σ.
Proof.
  exact (scripts_refine_runs "rq:" demo_shard demo_owner 10 (double_of_Z 1) _ demo_db demo_taken
           demo_initial demo_trace_taken).
Defined.

Lemma limits_never_exceeded_witness :
  SCARD (sk "rq:" (SEnvCC demo_env)) demo_taken ≤ Z.max 0 10.
Proof.
  refine (proj1 (limits_never_exceeded "rq:" demo_shard demo_owner 10 (double_of_Z 1) _ demo_db
    demo_taken demo_env 10 10 demo_initial demo_trace_taken demo_env_ok _)).
  vm_compute. reflexivity.
Defined.


Lemma one_queue_one_slot_witness :
  "r1" ∈ SMEMBERS (sk "rq:" (SEnvCC demo_env)) demo_taken.
Proof.
  refine (proj1 (proj2 (proj2 (proj2 (one_queue_one_slot "rq:" demo_shard demo_owner 10
    (double_of_Z 1) _ demo_db demo_taken demo_addr demo_addr "r1" demo_initial demo_trace_taken
    demo_addr_ok demo_addr_ok)))) _).
  apply (bool_decide_unpack _). vm_compute. exact I.
Defined.
