(* ===== verification/Methods.v ===== *)
(** * Methods: the methods of the run queue are sequences of steps

    A method called on a run of the system acts on the database only through the
    steps of [Steps.sys_step], in some order; so what holds of every trace holds
    of every sequence of method calls, also of interleaved ones. *)

From Stdlib Require Import SpecFloat.
From S2P Require Import Prelude Text Redis Listing Messages Retry WorkerQueueResolver SimpleQueue Jobs.
From S2P Require Import Scripts ScriptFacts Dequeue DequeueCk Lifecycle RunQueue.
From S2P Require Import KeyProducer Expire KeySpace System Levels Steps Invariants.
Local Open Scope Z_scope.

Section Methods.
Context {db J : Type} {R : Redis rq_value db} {L : RedisLaws R} {Q : JobQueue J}.
Context (o : RunQueueOptions) (sha256 : string → list Z).
Context (overrides : option WorkerQueueOverrides).
Context (owner : string → addr).
Implicit Types (s t : db) (w : world db J) (a : addr) (e : env_obj) (id : string).

Local Notation P := (keyPrefix o).
Definition shard_of (envId : string) : Z := masterQueueShardForEnvironment sha256 envId (shardCount o).
Local Notation dl := (opt_defaultEnvConcurrency o).
Local Notation bf := (burstDefault o).
Local Notation zk := (zk P).
Local Notation sk := (sk P).
Local Notation vk := (vk P).
Local Notation repr := (repr P owner).
Local Notation levels := (levels P shard_of).
Local Notation queue_name := (queue_name shard_of).
Local Notation sys_keys := (sys_keys P shard_of).
Local Notation sys_trace := (sys_trace P shard_of owner dl bf).
Local Notation sys_step := (sys_step P shard_of owner dl bf).
Local Notation message_ok := (message_ok owner).
Local Notation run_ok := (run_ok owner).

(** ** Keys *)

Lemma limit_key_addr a :
  addr_ok a → P +:+ queueConcurrencyLimitKeyFromQueue (addr_key a) =
    vk (VQueueLimit (a_env a) (a_queue a)).
Proof.
  intros [He Hq Hn Hc]. unfold queueConcurrencyLimitKeyFromQueue, addr_key.
  destruct (a_ck a) as [c|] eqn:E.
  - destruct (Hc c eq_refl) as (_ & _ & Hd & _). rewrite replace_ck_some by done. by text_norm.
  - by rewrite replace_ck_none.
Qed.

Lemma keys_for_addr a wq ttl org id :
  addr_ok a →
  keys_for o (masterQueueKeyForShard (shard_of (env_id (a_env a)))) wq (zkey_text (ttl_zkey ttl))
    (addr_key a) org id = Some (sys_keys a ttl wq org id).
Proof.
  intros Ha. destruct a as [e q ck]. pose proof Ha as [He Hq Hn _]. simpl in He, Hq, Hn.
  destruct (descriptor_queueKey e q ck He Hq) as [c Hd]. unfold addr_key. cbn [a_env a_queue a_ck].
  unfold keys_for, envCurrentConcurrencyKeyFromQueue, envCurrentDequeuedKeyFromQueue,
    envQueueKeyFromQueue, envConcurrencyLimitKeyFromQueue, envConcurrencyLimitBurstFactorKeyFromQueue,
    deadLetterQueueKeyFromQueue, messageKeyPrefixFromQueue.
  rewrite Hd. cbn [mbind option_bind]. unfold System.sys_keys, master, System.zk, System.sk, System.vk.
  cbn [a_env a_queue a_ck zkey_text skey_text vkey_text]. do 2 f_equal.
  - exact (ckIndex_addr P (Addr e q ck) Ha).
  - exact (limit_key_addr (Addr e q ck) Ha).
Qed.

(** The keys the dequeue of a queue with concurrency keys uses. *)
Definition ck_agree (K K' : rq_keys) : Prop :=
  Scripts.masterQueueKey K = Scripts.masterQueueKey K' ∧
  Scripts.envCurrentConcurrencyKey K = Scripts.envCurrentConcurrencyKey K' ∧
  Scripts.envQueueKey K = Scripts.envQueueKey K' ∧ Scripts.ttlQueueKey K = Scripts.ttlQueueKey K' ∧
  Scripts.ckIndexKey K = Scripts.ckIndexKey K' ∧
  Scripts.queueConcurrencyLimitKey K = Scripts.queueConcurrencyLimitKey K' ∧
  Scripts.envConcurrencyLimitKey K = Scripts.envConcurrencyLimitKey K' ∧
  Scripts.envConcurrencyLimitBurstFactorKey K = Scripts.envConcurrencyLimitBurstFactorKey K' ∧
  Scripts.messageKeyPrefix K = Scripts.messageKeyPrefix K'.

Lemma dequeue_ck_agree K K' wild ct d f p mc s :
  ck_agree K K' →
  dequeueMessagesFromCkQueue K wild ct d f p mc s = dequeueMessagesFromCkQueue K' wild ct d f p mc s.
Proof.
  intros (Hm & Hc & He & Ht & Hi & Hq & Hl & Hb & Hp).
  assert (∀ ql name s, dequeue_ck_one K p ct ql name s = dequeue_ck_one K' p ct ql name s) as Hone.
  { intros ql name t. unfold dequeue_ck_one, dequeue_one, drop_message, take_message.
    by rewrite Hc, He, Ht, Hi, Hp. }
  assert (∀ ql mx names res s,
    dequeue_ck_loop K p ct ql mx names res s = dequeue_ck_loop K' p ct ql mx names res s) as Hloop.
  { intros ql mx names. induction names as [|name names IH]; intros res t; cbn [dequeue_ck_loop]; [done|].
    rewrite Hone. destruct (mx <=? _); [done|]. destruct (dequeue_ck_one _ _ _ _ _ _) as [[[]|] ?]; auto. }
  unfold dequeueMessagesFromCkQueue, env_limits, queue_limit. rewrite Hm, Hc, Hi, Hq, Hl, Hb.
  destruct (x ← _; _) as [[l lb]|]; [|done]. destruct (lb <=? _); [done|].
  destruct (x ← _; _) as [ql|]; [|done]. destruct (_ <=? 0); [done|].
  destruct (ZRANGEBYSCORE _ _ _ _); [done|]. by rewrite Hloop.
Qed.

Lemma keys_for_wildcard e q ttl :
  addr_ok (Addr e q None) →
  ∃ K, keys_for o (masterQueueKeyForShard (shard_of (env_id e))) "" (zkey_text (ttl_zkey ttl))
         (wildcard e q) "" "" = Some K ∧ ck_agree K (sys_keys (Addr e q None) ttl "" "" "").
Proof.
  intros Ha. pose proof Ha as [He Hq Hn _]. simpl in He, Hq, Hn.
  destruct (descriptor_queueKey e q (Some "*") He Hq) as [c Hd]. unfold wildcard.
  unfold keys_for, envCurrentConcurrencyKeyFromQueue, envCurrentDequeuedKeyFromQueue,
    envQueueKeyFromQueue, envConcurrencyLimitKeyFromQueue, envConcurrencyLimitBurstFactorKeyFromQueue,
    deadLetterQueueKeyFromQueue, messageKeyPrefixFromQueue.
  rewrite Hd. cbn [mbind option_bind]. eexists. split; [done|]. unfold ck_agree.
  split_and!; try reflexivity.
  - change (P +:+ ckIndexKeyFromQueue (queueKey e q (Some "*")) = zk (ZIndex e q)).
    unfold ckIndexKeyFromQueue. rewrite replace_ck_some by done. by text_norm.
  - change (P +:+ queueConcurrencyLimitKeyFromQueue (queueKey e q (Some "*")) = vk (VQueueLimit e q)).
    unfold queueConcurrencyLimitKeyFromQueue. rewrite replace_ck_some by done. by text_norm.
Qed.

(** ** Methods as traces *)

(** A database the system can be in. *)
Definition good s : Prop := ∃ σ, repr s σ ∧ levels s.

(** The method takes the database along a trace, and a result satisfies [φ]. *)
Definition traced {A} (m : M db J A) (φ : A → Prop) : Prop :=
  ∀ w, good (w_redis w) →
    ∃ os, sys_trace os (w_redis w) (w_redis (m w).2) ∧ ∀ x, (m w).1 = Ok x → φ x.

Definition any {A} : A → Prop := λ _, True.

Lemma trace_app os os' s1 s2 s3 :
  sys_trace os s1 s2 → sys_trace os' s2 s3 → sys_trace (os ++ os') s1 s3.
Proof. induction 1; simpl; [done|]. intros. econstructor; eauto. Qed.

Lemma trace_one op s s' : sys_step op s s' → sys_trace [op] s s'.
Proof. intros. econstructor; [done|constructor]. Qed.

Lemma trace_good os s s' : sys_trace os s s' → good s → good s'.
Proof.
  induction 1 as [|op os s1 s2 s3 Hst _ IH]; [done|]. intros (σ & Hr & Hl). apply IH.
  destruct (step_inv _ _ _ _ _ _ _ _ _ Hst Hr Hl) as (σ' & _ & ? & ?). by exists σ'.
Qed.

Lemma traced_weaken {A} (m : M db J A) (φ ψ : A → Prop) :
  (∀ x, φ x → ψ x) → traced m φ → traced m ψ.
Proof. intros H Hm w Hw. destruct (Hm w Hw) as (os & ? & ?). exists os. auto. Qed.

Lemma traced_ret {A} (x : A) (φ : A → Prop) : φ x → traced (m_ret x) φ.
Proof. intros Hx w _. exists []. split; [constructor|]. by intros ? [= <-]. Qed.

Lemma traced_bind {A B} (m : M db J A) (k : A → M db J B) φ ψ :
  traced m φ → (∀ x, φ x → traced (k x) ψ) → traced (m_bind m k) ψ.
Proof.
  intros Hm Hk w Hw. destruct (Hm w Hw) as (os & Ht & Hφ). unfold m_bind.
  destruct (m w) as [[x|er] w1]; simpl in *; [|by exists os].
  destruct (Hk x (Hφ x eq_refl) w1 (trace_good _ _ _ Ht Hw)) as (os' & Ht' & Hψ).
  exists (os ++ os'). split; [by eapply trace_app|done].
Qed.

Lemma traced_try {A} (m : M db J A) φ :
  traced m φ → traced (m_try m) (λ r, ∀ x, r = Ok x → φ x).
Proof.
  intros Hm w Hw. destruct (Hm w Hw) as (os & Ht & Hφ). unfold m_try. exists os.
  destruct (m w) as [r w1]; simpl in *. split; [done|]. intros ? [= <-]. done.
Qed.

Lemma traced_key {A} (k : option A) : traced (m_key k) (λ x, k = Some x).
Proof.
  intros w _. exists []. destruct k; (split; [constructor|]); [by intros ? [= ->]|done].
Qed.

Lemma traced_get {A} (f : db → A) (φ : A → Prop) :
  (∀ s, good s → φ (f s)) → traced (m_get f) φ.
Proof. intros Hf w Hw. exists []. split; [constructor|]. intros ? [= <-]. by apply Hf. Qed.

Lemma traced_run {A} (f : db → A * db) (φ : A → Prop) :
  (∀ s, good s → (∃ os, sys_trace os s (f s).2) ∧ φ (f s).1) → traced (m_run f) φ.
Proof.
  intros Hf w Hw. destruct (Hf _ Hw) as [[os Ht] Hφ]. exists os. unfold m_run.
  destruct (f (w_redis w)) as [x s]. split; [done|]. by intros ? [= <-].
Qed.

Lemma traced_do (f : db → db) : (∀ s, good s → ∃ os, sys_trace os s (f s)) → traced (m_do f) any.
Proof. intros Hf w Hw. destruct (Hf _ Hw) as [os Ht]. by exists os. Qed.

Lemma traced_script {A} (f : db → outcome lua_error A * db) (φ : A → Prop) :
  (∀ s, good s → (∃ os, sys_trace os s (f s).2) ∧ ∀ x, (f s).1 = Ok x → φ x) →
  traced (m_script f) φ.
Proof.
  intros Hf w Hw. destruct (Hf _ Hw) as [[os Ht] Hφ]. exists os. unfold m_script.
  destruct (f (w_redis w)) as [[x|er] s]; (split; [done|]); [|done]. intros ? [= <-]. by apply Hφ.
Qed.

Lemma traced_worker (f : J → J) : traced (m_worker f) any.
Proof. intros w _. exists []. split; [constructor|done]. Qed.

Lemma traced_cooloff {A} f : traced (m_cooloff (A := A) f) any.
Proof.
  intros w _. exists []. unfold m_cooloff. destruct (f _) as [x c]. split; [constructor|done].
Qed.

Lemma traced_each {A} (body : A → M db J unit) l :
  (∀ x, x ∈ l → traced (body x) any) → traced (m_each body l) any.
Proof.
  induction l as [|x l IH]; intros H; cbn [m_each]; [by apply traced_ret|].
  eapply traced_bind; [apply H; by left|]. intros _ _. apply IH. intros y Hy. apply H. by right.
Qed.

(** ** Enqueue *)

(** The arguments describe a run of the system. *)
Record enqueue_args (env : MinimalAuthenticatedEnvironment) (m : InputPayload) : Prop := EnqueueArgs {
  ea_run : run_ok (runId m);
  ea_owner : owner (runId m) = Addr (ae_env env) (queue m) (concurrencyKey m);
  ea_org : orgId m = env_organization_id (ae_env env);
  ea_env : environmentId m = env_id (ae_env env);
}.

Lemma toCkWildcard_addr a c :
  addr_ok a → a_ck a = Some c → toCkWildcard (addr_key a) = wildcard (a_env a) (a_queue a).
Proof.
  intros [He Hq Hn Hc] Hck. unfold addr_key. rewrite Hck.
  destruct (Hc c Hck) as (_ & _ & Hd & _). by apply toCkWildcard_key.
Qed.

Lemma message_keys_ok m wq ttl :
  message_ok m →
  message_keys o sha256 wq (zkey_text (ttl_zkey ttl)) m =
  Some (sys_keys (owner (runId m)) ttl wq (org_id owner (runId m)) (runId m)).
Proof.
  intros [Hid Hq Ho He Hc]. unfold message_keys. rewrite Hq, He, Ho.
  apply keys_for_addr. by apply ro_addr.
Qed.

(** The two cases of a concurrency key. *)
Lemma ck_cases a :
  addr_ok a →
  (truthy_opt (a_ck a) = true ∧ addr_wild a = Some (toCkWildcard (addr_key a))) ∨
  (truthy_opt (a_ck a) = false ∧ addr_wild a = None).
Proof.
  intros Ha. unfold addr_wild. destruct (a_ck a) as [c|] eqn:E; [left|right; done].
  destruct (addr_ck_ok a c Ha E) as (Ht & _). by rewrite (toCkWildcard_addr a c Ha E).
Qed.

(** The call is one run of the enqueue script. *)
Lemma callEnqueue_eq now m wq ttl fast n w :
  message_ok m → default "" (ti_ttlQueueKey <$> ttl) = zkey_text (ttl_zkey n) →
  callEnqueueMessage o sha256 now m wq ttl fast w =
  m_script (enqueue_script (sys_keys (owner (runId m)) n wq (org_id owner (runId m)) (runId m))
    (addr_key (owner (runId m))) (runId m) (VMessage m) (timestamp m)
    ((λ ti, (ti_ttlMember ti, ti_ttlExpiresAt ti)) <$> ttl) (addr_wild (owner (runId m)))
    (messageKey (orgId m) (runId m)) dl bf now fast) w.
Proof.
  intros Hm Ht. unfold callEnqueueMessage. rewrite Ht, message_keys_ok by done.
  cbn [m_key]. unfold m_bind at 1. cbn [m_ret]. rewrite (mo_ck _ _ Hm), (mo_queue _ _ Hm).
  destruct (ck_cases (owner (runId m))) as [[-> Hw]|[-> Hw]]; [by apply Hm|..]; rewrite Hw;
    by destruct ttl as [ti|].
Qed.

(** The TTL set a call may name. *)
Definition ttl_ok (ttl : option ttl_info) : Prop :=
  ∃ n, default "" (ti_ttlQueueKey <$> ttl) = zkey_text (ttl_zkey n).

Lemma callEnqueue_traced now m wq ttl fast :
  message_ok m → ttl_ok ttl → traced (callEnqueueMessage o sha256 now m wq ttl fast) any.
Proof.
  intros Hm [n Hn] w Hw. rewrite (callEnqueue_eq _ _ _ _ _ n) by done.
  eapply traced_script; [|done]. intros s _. split; [|done]. eexists. apply trace_one.
  by apply st_enqueue.
Qed.

Lemma envId_addr a : addr_ok a → envIdFromQueue (addr_key a) = Some (env_id (a_env a)).
Proof.
  intros [He Hq _ _]. destruct (descriptor_queueKey (a_env a) (a_queue a) (a_ck a) He Hq) as [c Hd].
  unfold envIdFromQueue, addr_key. by rewrite Hd.
Qed.

Lemma ttl_info_eq a m w :
  addr_ok a → ∃ ttl, ttl_info_of o sha256 (addr_key a) m w = (Ok ttl, w) ∧ ttl_ok ttl.
Proof.
  intros Ha. assert (ttl_ok None) as Hnone by by exists None.
  unfold ttl_info_of. destruct (ttlExpiresAt m); [|by eexists].
  destruct (opt_ttlSystem o) eqn:Eo; [|by eexists]. destruct (_ =? 0); [by eexists|].
  unfold getTtlShardForQueue. rewrite envId_addr by done. eexists. split; [done|].
  by eexists (Some _).
Qed.

Lemma ttl_info_traced a m :
  addr_ok a →
  traced (ttl_info_of o sha256 (addr_key a) m)
    ttl_ok.
Proof.
  intros Ha w _. exists []. destruct (ttl_info_eq a m w Ha) as (ttl & -> & Httl).
  split; [constructor|]. by intros ? [= <-].
Qed.

Lemma enqueueMessage_traced now nonce env m wq skip fast :
  enqueue_args env m → traced (enqueueMessage o sha256 now nonce env m wq skip fast) any.
Proof.
  intros [Hid Hown Ho He]. unfold enqueueMessage.
  assert (queueKey (ae_env env) (queue m) (concurrencyKey m) = addr_key (owner (runId m))) as Hk
    by by rewrite Hown.
  rewrite Hk. eapply traced_bind; [apply ttl_info_traced; by apply ro_addr|]. intros ttl Httl.
  eapply traced_bind; [apply callEnqueue_traced; [|done]|].
  - split; cbn; [done|done|by rewrite Ho; unfold org_id; rewrite Hown|by rewrite He, Hown|by rewrite Hown].
  - intros taken _. destruct (_ && _); [apply traced_worker|by apply traced_ret].
Qed.

(** ** Dequeue *)

Lemma ends_with_split (p z : string) : ends_with p z = true → ∃ x, z = x +:+ p.
Proof.
  induction z as [|c z IH]; cbn [ends_with]; intros [H|H]%orb_true_iff.
  - apply bool_decide_eq_true in H. exists "". by rewrite <- H.
  - done.
  - apply bool_decide_eq_true in H. exists "". by rewrite string_app_nil_l.
  - destruct (IH H) as [x ->]. by exists (String c x).
Qed.

Lemma dequeueTtlKey_some q v :
  dequeueTtlKey o sha256 q = Some v → ∃ n, v = zkey_text (ttl_zkey n).
Proof.
  unfold dequeueTtlKey. destruct (getTtlShardForQueue o sha256 q) as [n|]; [|done].
  destruct (opt_ttlSystem o); intros [= <-]; [by exists (Some n)|by exists None].
Qed.

Lemma callDequeue_traced now a mc :
  addr_ok a →
  traced (callDequeueMessagesFromQueue o sha256 now (addr_key a) (shard_of (env_id (a_env a))) mc) any.
Proof.
  intros Ha. unfold callDequeueMessagesFromQueue.
  eapply traced_bind; [apply traced_key|]. intros tk (n & ->)%dequeueTtlKey_some.
  rewrite keys_for_addr by done. eapply traced_bind; [apply traced_key|]. intros K [= <-].
  eapply traced_bind; [apply (traced_script _ any)|intros; by apply traced_ret].
  intros s _. split; [|done]. eexists. apply trace_one, st_dequeue. done.
Qed.

Lemma callDequeueCk_traced now e q mc :
  addr_ok (Addr e q None) →
  traced (callDequeueMessagesFromCkQueue o sha256 now (wildcard e q) (shard_of (env_id e)) mc) any.
Proof.
  intros Ha. unfold callDequeueMessagesFromCkQueue.
  eapply traced_bind; [apply traced_key|]. intros tk (n & ->)%dequeueTtlKey_some.
  destruct (keys_for_wildcard e q n Ha) as (K & HK & Hag).
  rewrite HK. eapply traced_bind; [apply traced_key|]. intros ? [= <-].
  eapply traced_bind; [apply (traced_script _ any)|intros; by apply traced_ret].
  intros s _. split; [|done]. eexists. apply trace_one. rewrite (dequeue_ck_agree _ _ _ _ _ _ _ _ _ Hag).
  by apply st_dequeue_ck.
Qed.

(** A queue is not taken for a wildcard. *)
Lemma addr_not_wildcard a : addr_ok a → isCkWildcard (addr_key a) = false.
Proof.
  intros Ha. apply not_true_is_false. intros [x Hx]%ends_with_split.
  pose proof (split_addr a Ha) as Hs. rewrite Hx in Hs.
  change ":ck:*" with (String ":" "ck:*") in Hs.
  assert (split_char ":" (x +:+ String ":" "ck:*") = split_char ":" x ++ ["ck"; "*"]) as Hsp.
  { clear. induction x as [|c x IH]; [done|]. rewrite string_app_cons. cbn [split_char]. rewrite IH.
    destruct (bool_decide _); [done|]. pose proof (split_char_ne ":" x). by destruct (split_char ":" x). }
  rewrite Hsp in Hs. unfold addr_parts in Hs. destruct Ha as [_ _ _ Hc].
  destruct (a_ck a) as [c|].
  - destruct (Hc c eq_refl) as (_ & _ & _ & Hne). apply (f_equal reverse) in Hs.
    rewrite !reverse_app in Hs. simpl in Hs. congruence.
  - apply (f_equal reverse) in Hs. rewrite !reverse_app in Hs. unfold base_parts in Hs. simpl in Hs.
    discriminate Hs.
Qed.

Lemma wildcard_is_wildcard e q : isCkWildcard (wildcard e q) = true.
Proof. unfold isCkWildcard, wildcard. rewrite <- wildcard_key. apply ends_with_app. Qed.

Lemma dequeueFrom_traced now n q mc :
  queue_name n q → traced (dequeueFrom o sha256 now q n mc) any.
Proof.
  unfold dequeueFrom. intros [(a & Ha & -> & <-)|(e & base & Ha & -> & <-)].
  - rewrite addr_not_wildcard by done. by apply callDequeue_traced.
  - rewrite wildcard_is_wildcard. by apply callDequeueCk_traced.
Qed.

Lemma push_traced messages :
  traced (enqueueMessagesToWorkerQueues o overrides messages) any.
Proof.
  apply traced_do. intros s _. clear -L. revert s. induction messages as [|m l IH]; intros s; simpl.
  - exists []. constructor.
  - destruct (IH (RPUSH (pk o (workerQueueKey (workerQueueOf overrides (dm_message m))))
      (messageKey (orgId (dm_message m)) (dm_messageId m)) s)) as [os Hos].
    exists (OpInternal :: os). econstructor; [apply st_push|exact Hos].
Qed.

Lemma processQueue_traced fuel now q env :
  queue_name (shard_of env) q →
  traced (processQueueForWorkerQueue o sha256 overrides fuel now q env) any.
Proof.
  intros Hq. induction fuel as [|fuel IH]; cbn [processQueueForWorkerQueue].
  { intros w _. exists []. split; [constructor|done]. }
  eapply traced_bind; [by apply dequeueFrom_traced|]. intros messages _.
  destruct (length messages =? 0)%nat; [by apply traced_ret|].
  eapply traced_bind; [apply push_traced|]. intros _ _.
  destruct (length messages =? 10)%nat; [exact IH|by apply traced_ret].
Qed.

Lemma processMaster_traced distribute now n consumerId mc :
  (∀ s env q, good s → env ∈ distribute (pk o (masterQueueKeyForShard n)) consumerId s →
     q ∈ env.2 → queue_name n q) →
  traced (processMasterQueueShard o sha256 overrides distribute now n consumerId mc) any.
Proof.
  intros Hd. unfold processMasterQueueShard.
  eapply (traced_bind _ _ (λ envs, ∀ env q, env ∈ envs → q ∈ env.2 → queue_name n q)).
  { apply traced_get. intros s Hs env q. by apply Hd. }
  intros envs Henvs. apply traced_each. intros env Henv. apply traced_each. intros q Hq.
  unfold processMasterQueue_one. eapply traced_bind; [apply traced_cooloff|].
  intros [st|] _; [|by apply traced_ret].
  eapply traced_bind; [apply traced_try, dequeueFrom_traced; by eapply Henvs|].
  intros [messages|er] _; [|by apply traced_ret].
  eapply traced_bind; [apply traced_cooloff|]. intros _ _.
  destruct (length messages =? 0)%nat; [by apply traced_ret|apply push_traced].
Qed.

(** ** The worker queue *)

Lemma deliver_traced key n : traced (deliver o key n) any.
Proof.
  eapply traced_bind; [apply (traced_script _ any)|intros; by apply traced_ret].
  intros s _. split; [|done]. destruct (GET (pk o key) s) as [v|] eqn:Eg.
  - destruct (cjson_decode v) as [m|] eqn:Ed.
    + destruct v; try done. injection Ed as ->. eexists. apply trace_one. by eapply st_deliver.
    + exists []. unfold Scripts.dequeueMessageFromKey. rewrite Eg, Ed. constructor.
  - exists []. unfold Scripts.dequeueMessageFromKey. rewrite Eg. constructor.
Qed.

Lemma dequeueFromWorker_traced wq blocking :
  traced (dequeueMessageFromWorkerQueue o wq blocking) any.
Proof.
  unfold dequeueMessageFromWorkerQueue, callDequeueMessageFromWorkerQueue.
  destruct (default true blocking).
  - eapply traced_bind; [apply (traced_run _ any)|].
    + intros s _. split; [|done]. unfold BLPOP. destruct (LALL _ s); [by exists []; constructor|].
      eexists. apply trace_one, st_pop.
    + intros [key|] _; [|by apply traced_ret].
      eapply traced_bind; [by apply (traced_get _ any)|]. intros n _. apply deliver_traced.
  - eapply traced_bind; [apply (traced_run _ any)|].
    + intros s _. split; [|done]. unfold dequeueMessageFromWorkerQueueNonBlocking.
      destruct (LALL _ s); [by exists []; constructor|]. eexists. apply trace_one, st_pop.
    + intros [[key n]|] _; [apply deliver_traced|by apply traced_ret].
Qed.

(** ** Acknowledge, nack, release *)

Lemma readMessage_found org id s m :
  (v ← GET_truthy (pk o (messageKey org id)) s; cjson_decode v) = Some m →
  GET (vk (VMsg org id)) s = Some (VMessage m).
Proof.
  unfold GET_truthy. change (pk o (messageKey org id)) with (vk (VMsg org id)).
  destruct (GET _ s) as [[]|]; simpl; try done; [by intros [= ->]|]. by destruct (truthy t).
Qed.

Lemma readMessage_traced org id :
  traced (readMessage o org id) (λ r, ∀ m, r = Some m →
    message_ok m ∧ (plain org → plain id → runId m = id)).
Proof.
  apply traced_get. intros s (σ & Hr & _) m Hm%readMessage_found.
  destruct (rp_msg _ _ _ _ Hr _ _ Hm) as [Hok Hk]. split; [done|]. intros Ho Hid.
  unfold msg_key in Hk. apply vk_inj in Hk; [congruence|done|]. pose proof (mo_run _ _ Hok).
  split; [apply env_org_ok|]; eauto with keys.
Qed.

Lemma callAck_traced m rm :
  message_ok m → traced (callAcknowledgeMessage o sha256 overrides m rm) any.
Proof.
  intros Hm. unfold callAcknowledgeMessage.
  eapply traced_bind; [apply traced_key|]. intros K HK.
  rewrite (message_keys_ok m _ None) in HK by done. injection HK as <-.
  pose proof (λ s, st_ack P shard_of owner dl bf (runId m) (messageKey (orgId m) (runId m)) rm
    (workerQueueOf overrides m) s (mo_run _ _ Hm)) as Hst.
  rewrite (mo_ck _ _ Hm), (mo_queue _ _ Hm).
  destruct (ck_cases (owner (runId m))) as [[-> Hw]|[-> Hw]]; [by apply Hm|..]; rewrite Hw in Hst;
    apply traced_do; intros s _; eexists; apply trace_one, Hst.
Qed.

Lemma acknowledge_traced now nonce org id skip rm :
  traced (acknowledgeMessage o sha256 overrides now nonce org id skip rm) any.
Proof.
  eapply traced_bind; [by apply readMessage_traced|]. intros [m|] Hm; [|by apply traced_ret].
  destruct (Hm m eq_refl) as [Hok _].
  eapply traced_bind; [|intros _ _; by apply callAck_traced].
  destruct skip; [by apply (traced_ret _ any)|apply traced_worker].
Qed.

(** The score of a nacked message. *)
Definition nack_score (now : Z) (random : spec_float) (pow : spec_float → spec_float → spec_float)
    (m : OutputPayload) (retryAt : option Z) : Z :=
  match retryAt with
  | Some t => t
  | None =>
      match calculateNextRetryDelay random pow (retryOptions o) (attempt m) with
      | Some (Some d) => now + d
      | _ => now
      end
  end.

(** The calls are one run of a script. *)
Lemma callNack_eq now random pow m retryAt w :
  message_ok m →
  callNackMessage o sha256 overrides now random pow m retryAt w =
  m_do (nack_script (sys_keys (owner (runId m)) None (workerQueueOf overrides m)
          (org_id owner (runId m)) (runId m)) (runId m) (addr_key (owner (runId m))) (VMessage m)
          (nack_score now random pow m retryAt) (addr_wild (owner (runId m)))) w.
Proof.
  intros Hm. unfold callNackMessage. rewrite (message_keys_ok m _ None) by done.
  cbn [m_key]. unfold m_bind at 1. cbn [m_ret]. rewrite (mo_ck _ _ Hm), (mo_queue _ _ Hm).
  destruct (ck_cases (owner (runId m))) as [[-> Hw]|[-> Hw]]; [by apply Hm|..]; by rewrite Hw.
Qed.

Lemma callDeadLetter_eq m w :
  message_ok m →
  callMoveToDeadLetterQueue o sha256 overrides m w =
  m_do (dead_letter_script (sys_keys (owner (runId m)) None (workerQueueOf overrides m)
          (org_id owner (runId m)) (runId m)) (runId m) (addr_key (owner (runId m)))
          (addr_wild (owner (runId m)))) w.
Proof.
  intros Hm. unfold callMoveToDeadLetterQueue. rewrite (message_keys_ok m _ None) by done.
  cbn [m_key]. unfold m_bind at 1. cbn [m_ret]. rewrite (mo_ck _ _ Hm), (mo_queue _ _ Hm).
  destruct (ck_cases (owner (runId m))) as [[-> Hw]|[-> Hw]]; [by apply Hm|..]; by rewrite Hw.
Qed.

Lemma callNack_traced now random pow m retryAt :
  message_ok m → traced (callNackMessage o sha256 overrides now random pow m retryAt) any.
Proof.
  intros Hm w Hw. rewrite callNack_eq by done. eapply traced_do; [|done].
  intros s _. eexists. apply trace_one. by apply st_nack.
Qed.

Lemma callDeadLetter_traced m :
  message_ok m → traced (callMoveToDeadLetterQueue o sha256 overrides m) any.
Proof.
  intros Hm w Hw. rewrite callDeadLetter_eq by done. eapply traced_do; [|done].
  intros s _. eexists. apply trace_one, st_dead_letter. by apply mo_run.
Qed.

Lemma nack_traced now nonce random pow org id retryAt inc skip :
  traced (nackMessage o sha256 overrides now nonce random pow org id retryAt inc skip) any.
Proof.
  eapply traced_bind; [by apply readMessage_traced|]. intros [m|] Hm; [|by apply traced_ret].
  destruct (Hm m eq_refl) as [Hok _]. set (m' := if inc then bump_attempt m else m).
  assert (message_ok m') as Hok' by (unfold m'; destruct inc; [|done]; by destruct Hok).
  cbv zeta. fold m'. destruct (inc && (_ <=? _)).
  - eapply traced_bind; [by apply callDeadLetter_traced|intros; by apply traced_ret].
  - eapply traced_bind; [|intros _ _; eapply traced_bind;
      [by apply callNack_traced|intros; by apply traced_ret]].
    destruct skip; [by apply (traced_ret _ any)|apply traced_worker].
Qed.

Lemma release_traced org id :
  plain org → plain id → traced (releaseAllConcurrency o org id) any.
Proof.
  intros Ho Hid. eapply traced_bind; [by apply readMessage_traced|]. intros [m|] Hm; [|by apply traced_ret].
  destruct (Hm m eq_refl) as [Hok Hrun]. specialize (Hrun Ho Hid). subst id.
  pose proof (ro_addr _ _ (mo_run _ _ Hok)) as Ha.
  pose proof Ha as [He Hq _ _]. rewrite (mo_queue _ _ Hok).
  destruct (descriptor_queueKey _ _ (a_ck (owner (runId m))) He Hq) as [c Hd].
  unfold envCurrentConcurrencyKeyFromQueue, envCurrentDequeuedKeyFromQueue, addr_key. rewrite Hd.
  eapply traced_bind; [apply traced_key|]. intros k1 [= <-].
  eapply traced_bind; [apply traced_key|]. intros k2 [= <-].
  apply traced_do. intros s _. eexists. apply trace_one.
  exact (st_release P shard_of owner dl bf (runId m) s (mo_run _ _ Hok)).
Qed.

(** ** The concurrency sweeper *)

Lemma zadds_trace x (l : list (string * string)) s :
  ∃ os, sys_trace os s (foldl (λ s '(id, org), ZADD (zk ZMarked) x (org +:+ ":" +:+ id) s) s l).
Proof.
  revert s. induction l as [|[id org] l IH]; intros s; cbn [foldl]; [exists []; constructor|].
  destruct (IH (ZADD (zk ZMarked) x (org +:+ ":" +:+ id) s)) as [os Hos].
  exists (OpInternal :: os). econstructor; [apply st_mark|exact Hos].
Qed.

Lemma zrems_trace (l : list (string * Z)) s :
  ∃ os, sys_trace os s (foldl (λ s p, ZREM (zk ZMarked) p.1 s) s l).
Proof.
  revert s. induction l as [|p l IH]; intros s; simpl; [exists []; constructor|].
  destruct (IH (ZREM (zk ZMarked) p.1 s)) as [os Hos].
  exists (OpInternal :: os). econstructor; [apply st_unmark|exact Hos].
Qed.

Lemma sweep_traced callback now ids :
  traced (processCurrentConcurrencyRunIds o callback now ids) any.
Proof.
  destruct callback as [cb|]; [|by apply traced_ret]. unfold processCurrentConcurrencyRunIds.
  destruct (cb ids) as [|r rs]; [by apply traced_ret|]. apply traced_do. intros s _.
  apply (zadds_trace now (r :: rs)).
Qed.

Lemma processMarked_traced fuel now nonce :
  traced (processMarkedRuns o sha256 overrides fuel now nonce) any.
Proof.
  induction fuel as [|fuel IH]; cbn [processMarkedRuns].
  { intros w _. exists []. split; [constructor|done]. }
  eapply traced_bind; [apply (traced_run _ any)|].
  { intros s _. split; [|done]. unfold getMarkedRunsForAck.
    destruct (omap _ _); [exists []; constructor|]. apply zrems_trace. }
  intros [|r rs] _; [by apply traced_ret|].
  eapply traced_bind; [apply traced_each|].
  { intros [[org id] x] _. eapply traced_bind; [apply traced_try, acknowledge_traced|].
    intros; by apply traced_ret. }
  intros _ _. eapply traced_bind; [by apply (traced_get _ any)|]. intros more _.
  destruct (0 <? more); [exact IH|by apply traced_ret].
Qed.

(** ** All calls *)

(** The calls of the run queue's methods, with what their callers guarantee. *)
Inductive method_call : (world db J → world db J) → Prop :=
| call_enqueue now nonce env m wq skip fast :
    enqueue_args env m →
    method_call (λ w, (enqueueMessage o sha256 now nonce env m wq skip fast w).2)
| call_process fuel now q envId :
    queue_name (shard_of envId) q →
    method_call (λ w, (processQueueForWorkerQueue o sha256 overrides fuel now q envId w).2)
| call_master distribute now n consumerId mc :
    (∀ s env q, good s → env ∈ distribute (pk o (masterQueueKeyForShard n)) consumerId s →
       q ∈ env.2 → queue_name n q) →
    method_call (λ w, (processMasterQueueShard o sha256 overrides distribute now n consumerId mc w).2)
| call_worker wq blocking :
    method_call (λ w, (dequeueMessageFromWorkerQueue o wq blocking w).2)
| call_ack now nonce org id skip rm :
    method_call (λ w, (acknowledgeMessage o sha256 overrides now nonce org id skip rm w).2)
| call_nack now nonce random pow org id retryAt inc skip :
    method_call (λ w,
      (nackMessage o sha256 overrides now nonce random pow org id retryAt inc skip w).2)
| call_release org id :
    plain org → plain id → method_call (λ w, (releaseAllConcurrency o org id w).2)
| call_sweep callback now ids :
    method_call (λ w, (processCurrentConcurrencyRunIds o callback now ids w).2)
| call_marked fuel now nonce :
    method_call (λ w, (processMarkedRuns o sha256 overrides fuel now nonce w).2).

Lemma method_trace f w :
  method_call f → good (w_redis w) → ∃ os, sys_trace os (w_redis w) (w_redis (f w)).
Proof.
  intros Hf Hw. assert (∀ A (m : M db J A), traced m any →
    ∃ os, sys_trace os (w_redis w) (w_redis (m w).2)) as Ht.
  { intros A m Hm. destruct (Hm w Hw) as (os & ? & _). by exists os. }
  destruct Hf; apply Ht.
  - by apply enqueueMessage_traced.
  - by apply processQueue_traced.
  - by apply processMaster_traced.
  - apply dequeueFromWorker_traced.
  - apply acknowledge_traced.
  - apply nack_traced.
  - by apply release_traced.
  - apply sweep_traced.
  - apply processMarked_traced.
Qed.

(** Any sequence of calls. *)
Definition calls : relation (world db J) := rtc (λ w w', ∃ f, method_call f ∧ w' = f w).


End Methods.

(** ** Witnesses *)

Definition demo_options : RunQueueOptions :=
  MkRunQueueOptions (Some "rq:") (Some 2) 10 (Some (double_of_Z 1)) None None None None None.
Definition demo_sha256 : string → list Z := λ _, [1; 2; 3; 4; 5; 6; 7; 8].
Definition demo_auth : MinimalAuthenticatedEnvironment :=
  MkAuthEnv demo_env PRODUCTION 10 (double_of_Z 1).
Definition demo_input : InputPayload :=
  MkInputPayload "r1" "task" "org1" "proj1" "env1" PRODUCTION "task" None 10 0 None.

(** The background worker on its own database. *)
Definition demo_jobs : mem (sq_value rq_job) := mem_empty (3, 0).
#[export] Instance demo_job_queue : JobQueue (mem (sq_value rq_job)) := simple_queue_jobs "w:".
#[export] Instance demo_job_laws : JobQueueLaws demo_job_queue := simple_queue_laws "w:".

Lemma demo_jobs_ok : jobs_ok demo_jobs.
Proof.
  split; intros j; cbn [ZALL HALL mem_redis mem_empty demo_jobs m_zset m_hash];
    rewrite !lookup_empty; simpl; rewrite ?lookup_empty; done.
Qed.

Definition demo_world : world (mem rq_value) (mem (sq_value rq_job)) := World demo_db demo_jobs ∅.
Definition demo_enqueued : world (mem rq_value) (mem (sq_value rq_job)) :=
  (enqueueMessage demo_options demo_sha256 5 "n1" demo_auth demo_input "main" false false demo_world).2.

Lemma demo_run_ok : run_ok demo_owner "r1".
Proof. split; [reflexivity|apply demo_addr_ok|by left]. Qed.

Lemma demo_args : enqueue_args demo_owner demo_auth demo_input.
Proof. split; [apply demo_run_ok|done..]. Qed.

Lemma demo_good : good demo_options demo_sha256 demo_owner (w_redis demo_world).
Proof.
  exists no_runs. destruct (initial_ok "rq:" (shard_of demo_options demo_sha256) demo_owner 10
    (double_of_Z 1) demo_db demo_initial) as (? & ? & _). done.
Qed.

Lemma demo_enqueued_good : good demo_options demo_sha256 demo_owner (w_redis demo_enqueued).
Proof.
  destruct (method_trace demo_options demo_sha256 None demo_owner _ demo_world
    (call_enqueue demo_options demo_sha256 None demo_owner 5 "n1" demo_auth demo_input "main" false
       false demo_args) demo_good) as [os Ht].
  exact (trace_good _ _ _ _ _ _ Ht demo_good).
Qed.

