(* ===== verification/Termination.v ===== *)
(** * Termination: the job that drains a queue comes to an end

    Every message handed out leaves the queue of its environment, so the number of
    full batches is bounded by the size of that queue; the fuel of
    [RunQueue.processQueueForWorkerQueue] is enough when it exceeds it. *)

From Stdlib Require Import SpecFloat.
From S2P Require Import Prelude Text Redis Listing Messages Retry WorkerQueueResolver Jobs.
From S2P Require Import Scripts ScriptFacts Dequeue DequeueCk Lifecycle RunQueue.
From S2P Require Import KeyProducer Expire KeySpace System Levels Steps Invariants Methods.
Local Open Scope Z_scope.

Section Sizes.
Context {db : Type} {R : Redis rq_value db} {L : RedisLaws R}.
Context (P : string) (shard : string → Z) (owner : string → addr).
Context (dl : Z) (bf : spec_float).
Implicit Types (s t : db) (σ : runs) (a : addr) (e : env_obj) (id : string).
Local Notation zk := (zk P).
Local Notation sk := (sk P).
Local Notation sys_keys := (sys_keys P shard).
Local Notation repr := (repr P owner).
Local Notation levels := (levels P shard).

(** The size of an environment's queue. *)
Definition env_size (e : env_obj) s : nat := size (ZALL (env_queue P e) s).

(** How many messages an outcome hands out. *)
Definition out {A} (r : outcome lua_error A) (n : A → nat) : nat :=
  match r with Ok x => n x | Err _ => 0%nat end.

Lemma dequeue_one_size a a' n qn ct id x x0 s σ r s' :
  addr_ok a → addr_ok a' → a_env a' = a_env a → owner id = a → rs_queued (σ id) = Some x0 → repr s σ →
  dequeue_one (sys_keys a' n "" "" "") (zk (ZQueue a)) (sk (SQueueCC a)) qn ct id x s = (r, s') →
  (env_size (a_env a) s' + out r (λ d, length (option_list d)) ≤ env_size (a_env a) s)%nat.
Proof.
  intros Ha Ha' He Hid Hx Hr E. unfold env_size.
  pose proof (dequeue_one_spec _ _ _ _ _ _ _ _ _ _ (queue_dequeue_keys P shard a a' n "" "" "" Ha Ha') E)
    as Hs.
  destruct r as [d|er]; [|subst s'; simpl; lia]. destruct Hs as [-> Hm].
  assert (ZALL (env_queue P (a_env a)) s' = delete id (ZALL (env_queue P (a_env a)) s)) as ->.
  { apply map_eq. intros m. rewrite gone_one. pose proof (moved_env _ _ _ _ _ _ _ _ Hm m) as H.
    cbn in H. by rewrite He in H. }
  assert (is_Some (ZALL (env_queue P (a_env a)) s !! id)) as [y Hy].
  { unfold env_queue. rewrite (rp_env _ _ _ _ Hr) by eauto with keys. unfold at_queue.
    rewrite decide_True by (unfold in_env; by rewrite Hid). by eexists. }
  pose proof (map_size_delete_Some _ _ (ex_intro _ y Hy)) as Hsz.
  assert (size (ZALL (env_queue P (a_env a)) s) ≠ 0%nat).
  { rewrite map_size_ne_0_lookup. eauto. }
  cbn. destruct (live _ _ _ _); simpl; lia.
Qed.

Lemma dequeue_loop_size a n qn ct msgs res s σ r s' :
  addr_ok a → NoDup msgs.*1 →
  Forall (λ p, owner p.1 = a ∧ is_Some (rs_queued (σ p.1))) msgs → repr s σ →
  dequeue_loop (sys_keys a n "" "" "") qn ct msgs res s = (r, s') →
  (env_size (a_env a) s' + out r length ≤ env_size (a_env a) s + length res)%nat.
Proof.
  intros Ha. revert res s σ. induction msgs as [|[id x] msgs IH]; intros res s σ Hnd Hall Hr.
  { intros [= <- <-]. simpl. lia. }
  cbn [dequeue_loop]. apply NoDup_cons in Hnd as [Hni Hnd].
  apply Forall_cons in Hall as [[Hid [x0 Hx]] Hall]. simpl in Hid, Hx, Hni.
  destruct (dequeue_one _ _ _ _ _ _ _ _) as [r1 s1] eqn:E.
  pose proof (dequeue_one_size a a n qn ct id x x0 s σ r1 s1 Ha Ha eq_refl Hid Hx Hr E) as Hsz.
  destruct (dequeue_one_repr P shard owner (λ b, b = a) a a n qn ct id x x0 s σ r1 s1 eq_refl Ha
    eq_refl Hid Hx Hr E) as (σ1 & _ & Hr1 & Hsame).
  assert (Forall (λ p, owner p.1 = a ∧ is_Some (rs_queued (σ1 p.1))) msgs) as Hall1.
  { rewrite Forall_forall in Hall |- *. intros p Hp. rewrite Hsame; [by apply Hall|].
    intros Heq. apply Hni, list_elem_of_fmap. exists p. by rewrite Heq. }
  destruct r1 as [[d|]|er]; [..|intros [= <- <-]; simpl in *; lia];
    intros Hl; pose proof (IH _ _ _ Hnd Hall1 Hr1 Hl) as Hle; rewrite ?length_app in Hle;
    simpl in *; lia.
Qed.

Lemma env_size_rebalance e p c name s :
  env_ok e → aside P p → env_size e (rebalance p c name s) = env_size e s.
Proof.
  intros He [_ Hp]. unfold env_size. rewrite ZALL_rebalance, decide_False; [done|].
  unfold env_queue. apply Hp; eauto with keys.
Qed.

Definition handed (r : outcome lua_error (option (list dequeued))) : nat :=
  out r (λ d, match d with Some l => length l | None => 0%nat end).

Lemma dequeue_size a n ct mc s σ r s' :
  addr_ok a → repr s σ →
  dequeueMessagesFromQueue (sys_keys a n "" "" "") (addr_key a) ct dl bf mc s = (r, s') →
  (env_size (a_env a) s' + handed r ≤ env_size (a_env a) s)%nat.
Proof.
  intros Ha Hr. unfold dequeueMessagesFromQueue.
  destruct (dequeue_capacity _ _ _ _ _) as [[m|]|]; [|intros [= <- <-]; simpl; lia..].
  pose proof (due_owned P owner a ct m s σ Ha Hr) as Hall.
  pose proof (ZRANGEBYSCORE_NoDup (zk (ZQueue a)) ct m s) as Hnd.
  change (Scripts.queueKey (sys_keys a n "" "" "")) with (zk (ZQueue a)).
  destruct (ZRANGEBYSCORE (zk (ZQueue a)) ct m s) as [|p ps]; [intros [= <- <-]; simpl; lia|].
  destruct (dequeue_loop _ _ _ _ _ _) as [r1 s1] eqn:El.
  pose proof (dequeue_loop_size a n _ _ _ _ _ _ _ _ Ha Hnd Hall Hr El) as Hsz.
  destruct r1; intros [= <- <-]; [|simpl in *; lia].
  rewrite env_size_rebalance; [simpl in *; lia|by eauto with keys|apply aside_master].
Qed.

Lemma dequeue_ck_one_size a n ct ql s σ r s' :
  addr_ok a → a_ck a ≠ None → addr_ok (Addr (a_env a) (a_queue a) None) → repr s σ →
  dequeue_ck_one (sys_keys (Addr (a_env a) (a_queue a) None) n "" "" "") P ct ql (addr_key a) s = (r, s') →
  (env_size (a_env a) s' + out r (λ d, length (option_list d)) ≤ env_size (a_env a) s)%nat.
Proof.
  intros Ha Hck Ha0 Hr. unfold dequeue_ck_one. rewrite sk_queue_cc.
  change (P +:+ addr_key a) with (zk (ZQueue a)).
  assert (∀ t, env_size (a_env a) (rebalance (zk (ZIndex (a_env a) (a_queue a))) (zk (ZQueue a))
    (addr_key a) t) = env_size (a_env a) t) as Hreb.
  { intros t. apply env_size_rebalance; [by eauto with keys|by apply aside_index]. }
  destruct (_ <? ql); [|intros [= <- <-]; simpl; lia].
  pose proof (due_owned P owner a ct 1 s σ Ha Hr) as Hdue.
  destruct (ZRANGEBYSCORE _ _ _ _) as [|[id x] l].
  { intros [= <- <-]. cbn [Scripts.ckIndexKey System.sys_keys a_env a_queue]. rewrite Hreb. simpl. lia. }
  apply Forall_cons in Hdue as [[Hid [x0 Hx]] _]. simpl in Hid, Hx.
  destruct (dequeue_one _ _ _ _ _ _ _ _) as [r1 s1] eqn:E.
  pose proof (dequeue_one_size a _ n _ ct id x x0 s σ r1 s1 Ha Ha0 eq_refl Hid Hx Hr E) as Hsz.
  destruct r1; intros [= <- <-]; [|done].
  cbn [Scripts.ckIndexKey System.sys_keys a_env a_queue]. by rewrite Hreb.
Qed.

Lemma dequeue_ck_loop_size e q n ct ql mx names res s σ r s' :
  addr_ok (Addr e q None) →
  Forall (λ name, ∃ c, addr_ok (Addr e q (Some c)) ∧ name = addr_key (Addr e q (Some c))) names →
  repr s σ → levels s →
  dequeue_ck_loop (sys_keys (Addr e q None) n "" "" "") P ct ql mx names res s = (r, s') →
  (env_size e s' + out r length ≤ env_size e s + length res)%nat.
Proof.
  intros Ha0 Hall. revert res s σ. induction Hall as [|name names (c & Hc & ->) Hall IH];
    intros res s σ Hr Hs; cbn [dequeue_ck_loop].
  { intros [= <- <-]. simpl. lia. }
  destruct (mx <=? _); [intros [= <- <-]; simpl; lia|].
  destruct (dequeue_ck_one _ _ _ _ _ _) as [r1 s1] eqn:E.
  pose proof (dequeue_ck_one_size (Addr e q (Some c)) n ct ql s σ r1 s1 Hc ltac:(done) Ha0 Hr E) as Hsz.
  destruct (dequeue_ck_one_inv P shard owner (Addr e q (Some c)) n ct ql s σ r1 s1)
    as (σ1 & _ & Hr1 & Hs1); [done..|]. cbn [a_env] in Hsz.
  destruct r1 as [[d|]|er]; [..|intros [= <- <-]; simpl in *; lia];
    intros Hl; pose proof (IH _ _ _ Hr1 Hs1 Hl) as Hle; rewrite ?length_app in Hle; simpl in *; lia.
Qed.

Lemma dequeue_ck_size e q n ct mc s σ r s' :
  addr_ok (Addr e q None) → repr s σ → levels s →
  dequeueMessagesFromCkQueue (sys_keys (Addr e q None) n "" "" "") (wildcard e q) ct dl bf P mc s = (r, s') →
  (env_size e s' + handed r ≤ env_size e s)%nat.
Proof.
  intros Ha Hr Hs. pose proof (addr_env_ok _ Ha) as He. pose proof (addr_queue_ok _ Ha) as Hq.
  simpl in He, Hq. unfold dequeueMessagesFromCkQueue. set (K := sys_keys (Addr e q None) n "" "" "").
  assert (∀ t, env_size e (rebalance (Scripts.masterQueueKey K) (ckIndexKey K) (wildcard e q) t) =
    env_size e t) as Hreb.
  { intros t. apply env_size_rebalance; [done|apply aside_master]. }
  destruct (env_limits K dl bf s) as [[l lb]|]; [|intros [= <- <-]; simpl; lia].
  destruct (lb <=? _); [intros [= <- <-]; simpl; lia|].
  destruct (queue_limit K l s) as [ql|]; [|intros [= <- <-]; simpl; lia].
  destruct (_ <=? 0); [intros [= <- <-]; simpl; lia|]. set (m := Z.min _ _ * 3).
  assert (Forall (λ name, ∃ c, addr_ok (Addr e q (Some c)) ∧ name = addr_key (Addr e q (Some c)))
    (ZRANGEBYSCORE (ckIndexKey K) ct m s).*1) as Hall.
  { apply Forall_fmap, Forall_forall. intros [name y] Hin. apply ZRANGEBYSCORE_elem in Hin as [Hin _].
    by apply (lv_name _ _ _ _ _ Hs e q name y). }
  destruct (ZRANGEBYSCORE (ckIndexKey K) ct m s) as [|p ps].
  { intros [= <- <-]. rewrite Hreb. simpl. lia. }
  destruct (dequeue_ck_loop _ _ _ _ _ _ _ _) as [r1 s1] eqn:El.
  pose proof (dequeue_ck_loop_size _ _ _ _ _ _ _ _ _ _ _ _ Ha Hall Hr Hs El) as Hsz.
  destruct r1; intros [= <- <-]; [rewrite Hreb|]; simpl in *; lia.
Qed.

End Sizes.

Section Termination.
Context {db J : Type} {R : Redis rq_value db} {L : RedisLaws R} {Q : JobQueue J}.
Context (o : RunQueueOptions) (sha256 : string → list Z).
Context (overrides : option WorkerQueueOverrides).
Context (owner : string → addr).
Implicit Types (s t : db) (w : world db J) (a : addr) (e : env_obj).
Local Notation P := (keyPrefix o).
Local Notation shard_of := (shard_of o sha256).
Local Notation good := (good o sha256 owner).

(** The environment a queue name of the master queue belongs to. *)
Definition name_env (q : string) (e : env_obj) : Prop :=
  (∃ a, addr_ok a ∧ q = addr_key a ∧ a_env a = e) ∨
  (∃ base, addr_ok (Addr e base None) ∧ q = wildcard e base).

Lemma dequeueFrom_size now q e mc w r w' :
  name_env q e → good (w_redis w) →
  dequeueFrom o sha256 now q (shard_of (env_id e)) mc w = (r, w') →
  (∀ er, r = Err er → er ≠ Unfinished) ∧
  ∀ l, r = Ok l → (env_size P e (w_redis w') + length l ≤ env_size P e (w_redis w))%nat.
Proof.
  unfold dequeueFrom. intros [(a & Ha & -> & <-)|(base & Ha & ->)] (σ & Hr & Hs).
  - rewrite addr_not_wildcard by done. unfold callDequeueMessagesFromQueue, m_bind, dequeueTtlKey,
      getTtlShardForQueue. rewrite envId_addr by done. cbn [mbind option_bind m_key m_ret].
    set (tk := match opt_ttlSystem o with Some _ => _ | None => _ end).
    assert (∃ n, tk = zkey_text (ttl_zkey n)) as [n ->].
    { unfold tk. destruct (opt_ttlSystem o); [by eexists (Some _)|by exists None]. }
    rewrite keys_for_addr by done. cbn [m_key m_ret]. unfold m_script.
    destruct (dequeueMessagesFromQueue _ _ _ _ _ _ _) as [r1 s1] eqn:E.
    pose proof (dequeue_size P shard_of owner _ _ a n now mc _ σ r1 s1 Ha Hr E) as Hsz.
    destruct r1 as [d|er]; intros [= <- <-]; (split; [by intros ? [= <-]|]); [|done].
    intros l [= <-]. destruct d; cbn in *; rewrite ?length_fmap; done.
  - rewrite wildcard_is_wildcard. unfold callDequeueMessagesFromCkQueue, m_bind.
    destruct (dequeueTtlKey o sha256 (wildcard e base)) as [tk|] eqn:Et;
      [|intros [= <- <-]; split; [by intros ? [= <-]|done]].
    apply dequeueTtlKey_some in Et as [n ->]. cbn [m_key m_ret].
    destruct (keys_for_wildcard o sha256 e base n Ha) as (K & -> & Hag). cbn [m_key m_ret].
    unfold m_script. rewrite (dequeue_ck_agree _ _ _ _ _ _ _ _ _ Hag).
    destruct (dequeueMessagesFromCkQueue _ _ _ _ _ _ _ _) as [r1 s1] eqn:E.
    pose proof (dequeue_ck_size P shard_of owner _ _ e base n now mc _ σ r1 s1 Ha Hr Hs E) as Hsz.
    destruct r1 as [d|er]; intros [= <- <-]; (split; [by intros ? [= <-]|]); [|done].
    intros l [= <-]. destruct d; cbn in *; rewrite ?length_fmap; done.
Qed.

Lemma push_zsets messages w k :
  ZALL k (w_redis (enqueueMessagesToWorkerQueues o overrides messages w).2) = ZALL k (w_redis w).
Proof.
  unfold enqueueMessagesToWorkerQueues, m_do. cbn [snd w_redis]. generalize (w_redis w).
  induction messages as [|m l IH]; intros s; [done|]. cbn [foldl]. rewrite IH. by redis_simpl.
Qed.

(** C21. The job that drains a queue into the worker queues always ends: the number of
    its rounds is bounded by the number of runs waiting in the environment, since
    every run handed out leaves the environment's queue; with that many rounds as
    fuel the recursion of the model is never cut short. *)
Theorem process_queue_terminates fuel now q e w :
  good (w_redis w) → name_env q e → (env_size P e (w_redis w) < fuel)%nat →
  (processQueueForWorkerQueue o sha256 overrides fuel now q (env_id e) w).1 ≠ Err Unfinished.
Proof.
  intros Hg Hq. assert (queue_name shard_of (shard_of (env_id e)) q) as Hn.
  { destruct Hq as [(a & ? & -> & <-)|(base & ? & ->)]; [left|right]; eauto. }
  revert w Hg. induction fuel as [|fuel IH]; intros w Hg Hlt; [lia|].
  cbn [processQueueForWorkerQueue]. fold (shard_of (env_id e)). unfold m_bind at 1.
  destruct (dequeueFrom _ _ _ _ _ _ w) as [r w1] eqn:E.
  destruct (dequeueFrom_size _ _ _ _ _ _ _ Hq Hg E) as [Herr Hok].
  destruct (dequeueFrom_traced o sha256 owner now _ q 10 Hn w Hg) as (os & Ht & _). rewrite E in Ht.
  pose proof (trace_good _ _ _ _ _ _ Ht Hg) as Hg1. cbn [snd] in Hg1.
  destruct r as [l|er]; [|intros [= ->]; by destruct (Herr Unfinished)].
  specialize (Hok l eq_refl). destruct (length l =? 0)%nat eqn:E0; [done|]. unfold m_bind.
  destruct (enqueueMessagesToWorkerQueues o overrides l w1) as [r2 w2] eqn:E2.
  pose proof (λ k, push_zsets l w1 k) as Hz. rewrite E2 in Hz.
  destruct (push_traced o sha256 overrides owner l w1 Hg1) as (os2 & Ht2 & _). rewrite E2 in Ht2.
  pose proof (trace_good _ _ _ _ _ _ Ht2 Hg1) as Hg2.
  assert (r2 = Ok tt) as -> by (unfold enqueueMessagesToWorkerQueues, m_do in E2; by injection E2).
  destruct (length l =? 10)%nat eqn:E10; [|done]. apply IH; [done|].
  unfold env_size in *. rewrite Hz. apply Nat.eqb_eq in E10. lia.
Qed.

End Termination.

(** ** Witness *)

Lemma process_queue_terminates_witness :
  (processQueueForWorkerQueue demo_options demo_sha256 None 2 20 (addr_key demo_addr) "env1"
     demo_enqueued).1 ≠ Err Unfinished.
Proof.
  refine (process_queue_terminates demo_options demo_sha256 None demo_owner 2 20 (addr_key demo_addr)
    demo_env demo_enqueued demo_enqueued_good _ _).
  - left. exists demo_addr. split; [apply demo_addr_ok|done].
  - apply (bool_decide_unpack _). vm_compute. exact I.
Defined.
