(* ===== verification/Divergences.v ===== *)
(** * Divergences: inputs on which the queue does not do what it means to

    Each theorem is about an input outside the conditions of the other files: the
    concurrency key "*", the repair of a run with a concurrency key, a queue named
    "queue", a redriven message. *)

From Stdlib Require Import SpecFloat.
From S2P Require Import Prelude Text Redis Listing Messages Retry WorkerQueueResolver SimpleQueue Jobs.
From S2P Require Import Scripts ScriptFacts Samples Dequeue DequeueCk Lifecycle RunQueue.
From S2P Require Import KeyProducer Expire KeySpace System Levels Steps Invariants Methods Outcomes.
Local Open Scope Z_scope.

Section Divergences.
Context {db J : Type} {R : Redis rq_value db} {L : RedisLaws R} {Q : JobQueue J}.
Implicit Types (s : db) (a : addr) (e : env_obj) (id : string).

(** The concurrency key "*" makes a run invisible: its queue has the name of the
    wildcard entry, which the enqueue script removes from the master queue last; the
    run is queued and the index lists its queue, but the master queue, the only place
    consumers look at, does not. *)
Theorem star_key_invisible P shard env q n wq org (m : OutputPayload) x ttl mkv dl bf ct s :
  addr_ok (Addr env q None) →
  let a := Addr env q (Some "*") in
  let K := sys_keys P shard a n wq org (runId m) in
  let s' := (enqueue_script K (addr_key a) (runId m) (VMessage m) x ttl
               (Some (toCkWildcard (addr_key a))) mkv dl bf ct false s).2 in
  keys_ok K →
  ZALL (zk P (ZQueue a)) s' !! runId m = Some x ∧
  is_Some (ZALL (zk P (ZIndex env q)) s' !! addr_key a) ∧
  ZALL (master P shard env) s' !! addr_key a = None.
Proof.
  intros [He Hq Hn _] a K s' HK. cbn [a_env a_queue] in He, Hq, Hn.
  assert (toCkWildcard (addr_key a) = addr_key a) as Hw by by apply toCkWildcard_key.
  unfold s'. rewrite Hw, enqueue_script_eq by done. cbn [fast_path_open snd].
  destruct (slow_facts K (addr_key a) (runId m) (VMessage m) x ttl (Some (addr_key a)) s HK)
    as (_ & Hqueued & _).
  split; [exact Hqueued|]. clear Hqueued.
  change (zk P (ZIndex env q)) with (Scripts.ckIndexKey K).
  change (master P shard env) with (Scripts.masterQueueKey K).
  rewrite !ZALL_release. cbn [rebalance_parents].
  set (t := ttl_stage K ttl _). assert (ZALL (Scripts.queueKey K) t !! runId m = Some x) as Ht.
  { unfold t. keys_distinct. destruct ttl as [[tm ts]|]; unfold ttl_stage, slow_path_queues;
      redis_simpl; apply lookup_insert_eq. }
  destruct (zmin_lookup _ _ _ Ht) as (p & Hp & _). clearbody t. keys_distinct. redis_simpl.
  rewrite Hp, lookup_partial_alter_eq, lookup_delete_eq. by split; [eexists|].
Qed.

(** The repair of a run with a concurrency key leaks its slot: the repair is given
    the queue's name but not the key, so it clears the run from the environment's
    set and from the set of the base queue, while the run keeps its slot in the set of
    its own key. *)
Theorem clear_leaks_keyed_slot (o : RunQueueOptions) a id (w : world db J) :
  addr_ok a → addr_ok (Addr (a_env a) (a_queue a) None) → a_ck a ≠ None →
  id ∈ SMEMBERS (sk (keyPrefix o) (SQueueCC a)) (w_redis w) →
  let s' := w_redis (RunQueue.clearMessageFromConcurrencySets o id (org_of (a_env a)) (a_queue a)
                       (a_env a) w).2 in
  id ∉ SMEMBERS (sk (keyPrefix o) (SEnvCC (a_env a))) s' ∧
  id ∈ SMEMBERS (sk (keyPrefix o) (SQueueCC a)) s'.
Proof.
  intros Ha Ha0 Hck Hslot s'. pose proof (addr_env_ok _ Ha) as He.
  set (b := Addr (a_env a) (a_queue a) None) in *.
  assert (a ≠ b) as Hab. { intros Hab. apply Hck. by rewrite Hab. }
  assert (s' = SREM (sk (keyPrefix o) (SEnvCD (a_env a))) id
    (SREM (sk (keyPrefix o) (SQueueCD b)) id (SREM (sk (keyPrefix o) (SEnvCC (a_env a))) id
      (SREM (sk (keyPrefix o) (SQueueCC b)) id (w_redis w))))) as -> by done.
  split.
  - by_key. set_solver.
  - by_key. exact Hslot.
Qed.

(** Picking up a run of a queue named "queue" with a concurrency key counts it in
    the wrong environment set: the greedy pattern of the script takes the queue's name
    for the word "queue" of the key. *)
Theorem queue_word_misparsed env c :
  plain c → truthy c = true →
  ∃ p, match_before_queue (queueKey env "queue" (Some c)) = Some (p +:+ ":queue") ∧
       envCurrentDequeuedKey (ByEnv env) = p +:+ ":currentDequeued" ∧
       (p +:+ ":queue") +:+ ":currentDequeued" ≠ envCurrentDequeuedKey (ByEnv env).
Proof.
  intros Hc Ht. exists ("{org:" +:+ env_organization_id env +:+ "}:proj:" +:+ env_project_id env
    +:+ ":env:" +:+ env_id env). set (p := "{org:" +:+ _).
  assert (envCurrentDequeuedKey (ByEnv env) = p +:+ ":currentDequeued") as Hcd.
  { unfold envCurrentDequeuedKey, CURRENT_DEQUEUED_PART, p. unfold_keys. by text_norm. }
  split; [|split; [done|]].
  - assert (queueKey env "queue" (Some c) = (p +:+ ":queue") +:+ String ":" "queue:" +:+ ("ck:" +:+ c))
      as ->. { unfold p. rewrite queueKey_Some by done. unfold_keys. by text_norm. }
    unfold match_before_queue. change ":queue:" with (String ":" "queue:").
    rewrite rcut_where_last; [done|done|].
    change ("queue:" +:+ ("ck:" +:+ c)) with ("queue" +:+ String ":" ("ck" +:+ String ":" c)).
    change (String ":" "queue:") with (String ":" ("queue" +:+ String ":" "")).
    rewrite cut_where_app by done. rewrite cut_word_skip by done. by rewrite cut_word_last.
  - rewrite Hcd, string_app_assoc. intros H%string_app_inj. discriminate H.
Qed.

End Divergences.

(** ** Witnesses *)

Definition star_keys : rq_keys :=
  sys_keys "rq:" demo_shard (Addr demo_env "task" (Some "*")) None "main" "org1" "r1".

Lemma star_keys_ok : keys_ok star_keys.
Proof. split; apply (bool_decide_unpack _); vm_compute; exact I. Qed.

Lemma star_key_invisible_witness :
  ZALL (master "rq:" demo_shard demo_env)
    (enqueue_script star_keys (addr_key (Addr demo_env "task" (Some "*"))) "r1"
       (VMessage demo_message) 10 None
       (Some (toCkWildcard (addr_key (Addr demo_env "task" (Some "*"))))) "m" 10 (double_of_Z 1) 5
       false demo_db).2 !! addr_key (Addr demo_env "task" (Some "*")) = None.
Proof.
  exact (proj2 (proj2 (star_key_invisible "rq:" demo_shard demo_env "task" None "main" "org1"
    demo_message 10 None "m" 10 (double_of_Z 1) 5 demo_db demo_addr_ok star_keys_ok))).
Defined.

Lemma queue_word_misparsed_witness :
  ∃ p, match_before_queue (queueKey demo_env "queue" (Some "u1")) = Some (p +:+ ":queue").
Proof.
  destruct (queue_word_misparsed demo_env "u1" eq_refl eq_refl) as (p & H & _). by exists p.
Defined.

(** A run with a concurrency key that took the fast path. *)
Definition keyed_addr : addr := Addr demo_env "task" (Some "u1").
Definition keyed_world : world (mem rq_value) (mem (sq_value rq_job)) :=
  World (enqueue_script (sys_keys "rq:" demo_shard keyed_addr None "main" "org1" "r1")
    (addr_key keyed_addr) "r1" (VMessage demo_message) 10 None
    (Some (wildcard demo_env "task")) "m" 10 (double_of_Z 1) 5 true demo_db).2 demo_jobs ∅.

Lemma keyed_addr_ok : addr_ok keyed_addr.
Proof.
  split; [apply demo_env_ok|reflexivity|apply demo_no_ck; discriminate|].
  intros c [= <-]. repeat split; try reflexivity; discriminate.
Qed.

Lemma clear_leaks_keyed_slot_witness :
  "r1" ∈ SMEMBERS (sk "rq:" (SQueueCC keyed_addr))
    (w_redis (RunQueue.clearMessageFromConcurrencySets demo_options "r1" "org1" "task" demo_env
                keyed_world).2).
Proof.
  refine (proj2 (clear_leaks_keyed_slot demo_options keyed_addr "r1" keyed_world keyed_addr_ok
    demo_addr_ok _ _)); [discriminate|].
  apply (bool_decide_unpack _). vm_compute. exact I.
Defined.

(** ** Redriving a dead-lettered run *)

(** A run is enqueued, dead-lettered, and redriven. *)
Definition once_options : RunQueueOptions :=
  MkRunQueueOptions (Some "rq:") (Some 2) 10 (Some (double_of_Z 1))
    (Some (MkRetryOptions (Some 1) None None None None)) None None None None.
Definition dead_world : world (mem rq_value) (mem (sq_value rq_job)) :=
  (nackMessage once_options demo_sha256 None 20 "n2" (double_of_Z 0) (λ x _, x) "org1" "r1"
     (Some 99) true false demo_enqueued).2.
Definition redriven_world : world (mem rq_value) (mem (sq_value rq_job)) :=
  (handleRedriveMessage once_options demo_sha256 None 30 "n3" "r1" "env1" "proj1" "org1" dead_world).2.

