(* ===== verification/Effect.v ===== *)
(** * Effect: methods that change a state and may throw

    The methods of the fair queue and of the batch queue are [async] functions over
    a shared database and the memory of one process.  [St W E A] is such a method:
    it takes the state to an outcome and a state, which is kept when it throws. *)

From S2P Require Import Prelude.

Definition St (W E A : Type) : Type := W → outcome E A * W.

Section Effect.
Context {W E : Type}.

Definition ret {A} (a : A) : St W E A := λ w, (Ok a, w).

Definition throw {A} (e : E) : St W E A := λ w, (Err e, w).

Definition bind {A B} (m : St W E A) (f : A → St W E B) : St W E B :=
  λ w, match m w with
       | (Ok a, w) => f a w
       | (Err e, w) => (Err e, w)
       end.

(** [try { m } catch (e) { handler(e) }]. *)
Definition catch {A} (m : St W E A) (handler : E → St W E A) : St W E A :=
  λ w, match m w with
       | (Ok a, w) => (Ok a, w)
       | (Err e, w) => handler e w
       end.

(** A read of the state. *)
Definition read {A} (f : W → A) : St W E A := λ w, (Ok (f w), w).

(** A change of the state with a reply. *)
Definition act {A} (f : W → A * W) : St W E A := λ w, let '(a, w) := f w in (Ok a, w).

Definition modify (f : W → W) : St W E unit := λ w, (Ok tt, f w).

(** [for (const a of l) await body(a)]. *)
Fixpoint each {A} (body : A → St W E unit) (l : list A) : St W E unit :=
  match l with
  | [] => ret tt
  | a :: l => bind (body a) (λ _, each body l)
  end.

(** The results of [body] on the elements of [l], in order. *)
Fixpoint collect {A B} (body : A → St W E B) (l : list A) : St W E (list B) :=
  match l with
  | [] => ret []
  | a :: l => bind (body a) (λ b, bind (collect body l) (λ bs, ret (b :: bs)))
  end.

End Effect.

Declare Scope effect_scope.
Delimit Scope effect_scope with effect.
Notation "x <- m ;; k" := (bind m (λ x, k))
  (at level 100, m at next level, right associativity) : effect_scope.
Notation "m ;;; k" := (bind m (λ _, k)) (at level 100, right associativity) : effect_scope.

(** ** Reasoning about methods

    [tracked T G m φ]: from a state that satisfies [G], the method moves along [T]
    and a result satisfies [φ]; [T] is a preorder that keeps [G]. *)

Section Tracked.
Context {W E : Type} (T : relation W) (G : W → Prop).
Context {Tpre : PreOrder T} (TG : ∀ w w', T w w' → G w → G w').

Definition tracked {A} (m : St W E A) (φ : A → Prop) : Prop :=
  ∀ w, G w → T w (m w).2 ∧ ∀ a, (m w).1 = Ok a → φ a.

Definition anything {A} : A → Prop := λ _, True.

Lemma tracked_weaken {A} (m : St W E A) (φ ψ : A → Prop) :
  (∀ a, φ a → ψ a) → tracked m φ → tracked m ψ.
Proof. intros H Hm w Hw. destruct (Hm w Hw). split; [done|]. intros. by apply H, H1. Qed.

Lemma tracked_ret {A} (a : A) (φ : A → Prop) : φ a → tracked (ret a) φ.
Proof. intros Ha w _. split; [simpl; reflexivity|]. by intros ? [= <-]. Qed.

Lemma tracked_throw {A} e (φ : A → Prop) : tracked (throw e) φ.
Proof. intros w _. split; [simpl; reflexivity|done]. Qed.

Lemma tracked_bind {A B} (m : St W E A) (f : A → St W E B) (φ : A → Prop) (ψ : B → Prop) :
  tracked m φ → (∀ a, φ a → tracked (f a) ψ) → tracked (bind m f) ψ.
Proof.
  intros Hm Hf w Hw. unfold bind. destruct (Hm w Hw) as [Ht Ha].
  destruct (m w) as [[a|e] w1]; simpl in *; [|done].
  destruct (Hf a (Ha a eq_refl) w1 (TG _ _ Ht Hw)). split; [by etrans|done].
Qed.

Lemma tracked_catch {A} (m : St W E A) (h : E → St W E A) (φ : A → Prop) :
  tracked m φ → (∀ e, tracked (h e) φ) → tracked (catch m h) φ.
Proof.
  intros Hm Hh w Hw. unfold catch. destruct (Hm w Hw) as [Ht Ha].
  destruct (m w) as [[a|e] w1]; simpl in *; [done|].
  destruct (Hh e w1 (TG _ _ Ht Hw)). split; [by etrans|done].
Qed.

Lemma tracked_read {A} (f : W → A) (φ : A → Prop) : (∀ w, G w → φ (f w)) → tracked (read f) φ.
Proof. intros H w Hw. split; [simpl; reflexivity|]. intros ? [= <-]. by apply H. Qed.

Lemma tracked_act {A} (f : W → A * W) (φ : A → Prop) :
  (∀ w, G w → T w (f w).2 ∧ φ (f w).1) → tracked (act f) φ.
Proof.
  intros H w Hw. unfold act. destruct (H w Hw) as [Ht Ha]. destruct (f w) as [a w1].
  split; [done|]. by intros ? [= <-].
Qed.

Lemma tracked_modify (f : W → W) : (∀ w, G w → T w (f w)) → tracked (modify f) anything.
Proof. intros H w Hw. split; [by apply H|done]. Qed.

Lemma tracked_each {A} (body : A → St W E unit) (l : list A) :
  (∀ a, a ∈ l → tracked (body a) anything) → tracked (each body l) anything.
Proof.
  induction l as [|a l IH]; intros H; simpl; [by apply tracked_ret|].
  eapply tracked_bind; [apply H; by left|]. intros _ _. apply IH. intros. apply H. by right.
Qed.

Lemma tracked_collect {A B} (body : A → St W E B) (φ : B → Prop) (l : list A) :
  (∀ a, a ∈ l → tracked (body a) φ) → tracked (collect body l) (Forall φ).
Proof.
  induction l as [|a l IH]; intros H; simpl; [by apply tracked_ret|].
  eapply tracked_bind; [apply H; by left|]. intros b Hb.
  eapply tracked_bind; [apply IH; intros; apply H; by right|]. intros bs Hbs.
  apply tracked_ret. by constructor.
Qed.

End Tracked.
