(* ===== verification/FairKeys.v ===== *)
(** * FairKeys: the data and the Redis keys of the fair queue
    (packages/redis-worker/src/fair-queue/types.ts, keyProducer.ts)

    [FairQueueKeyProducer] is the interface of the source, a record of functions;
    [DefaultFairQueueKeyProducer] and [CallbackFairQueueKeyProducer] implement it.
    The fair queue is verified against [FairKeyLaws]: keys of one Redis type are
    different keys.  The key prefix of the client, which it prepends to every key,
    is left out: the database is the one the client sees. *)

From stdpp Require Import pretty.
From S2P Require Import Prelude Text.

(** ** Data *)

Definition metadata : Type := gmap string string.

Record QueueDescriptor : Type := MkQueueDescriptor {
  qd_id : string;
  qd_tenantId : string;
  qd_metadata : metadata;
}.

Record StoredMessage (P : Type) : Type := MkStoredMessage {
  sm_id : string;
  sm_queueId : string;
  sm_tenantId : string;
  sm_payload : P;
  sm_timestamp : Z;
  sm_attempt : Z;
  sm_workerQueue : option string;
  sm_metadata : option metadata;
}.
Arguments MkStoredMessage {P}.
Arguments sm_id {P}.
Arguments sm_queueId {P}.
Arguments sm_tenantId {P}.
Arguments sm_payload {P}.
Arguments sm_timestamp {P}.
Arguments sm_attempt {P}.
Arguments sm_workerQueue {P}.
Arguments sm_metadata {P}.

Record DeadLetterMessage (P : Type) : Type := MkDeadLetterMessage {
  dl_id : string;
  dl_queueId : string;
  dl_tenantId : string;
  dl_payload : P;
  dl_deadLetteredAt : Z;
  dl_attempts : Z;
  dl_lastError : option string;
  dl_originalTimestamp : Z;
}.
Arguments MkDeadLetterMessage {P}.
Arguments dl_id {P}.
Arguments dl_queueId {P}.
Arguments dl_tenantId {P}.
Arguments dl_payload {P}.
Arguments dl_deadLetteredAt {P}.
Arguments dl_attempts {P}.
Arguments dl_lastError {P}.
Arguments dl_originalTimestamp {P}.

Record QueueWithScore : Type := MkQueueWithScore {
  qs_queueId : string;
  qs_score : Z;
  qs_tenantId : string;
}.

Record TenantQueues : Type := MkTenantQueues {
  tq_tenantId : string;
  tq_queues : list string;
}.

(** What is stored under string keys and hash fields: a serialised message, a
    serialised dead letter, a number, a value of a client of the queue ([X]), or a
    text that is none of these. *)
Inductive fq_value (P X : Type) : Type :=
| FMsg (m : StoredMessage P)
| FDead (m : DeadLetterMessage P)
| FNum (n : Z)
| FOther (x : X)
| FText (t : string).
Arguments FMsg {P X}.
Arguments FDead {P X}.
Arguments FNum {P X}.
Arguments FOther {P X}.
Arguments FText {P X}.

(** [JSON.parse] of a stored message, [None] when it throws. *)
Definition parse_message {P X} (v : fq_value P X) : option (StoredMessage P) :=
  match v with FMsg m => Some m | _ => None end.

Definition parse_dead {P X} (v : fq_value P X) : option (DeadLetterMessage P) :=
  match v with FDead m => Some m | _ => None end.

(** ** The interface *)

Record FairQueueKeyProducer : Type := MkKeys {
  masterQueueKey : Z → string;
  queueKey : string → string;
  queueItemsKey : string → string;
  concurrencyKey : string → string → string;
  inflightKey : Z → string;
  inflightDataKey : Z → string;
  workerQueueKey : string → string;
  deadLetterQueueKey : string → string;
  deadLetterQueueDataKey : string → string;
  dispatchKey : Z → string;
  tenantQueueIndexKey : string → string;
  extractTenantId : string → string;
  extractGroupId : string → string → string;
}.

(** The sorted sets and the hashes of the fair queue. *)
Inductive fz : Type :=
| FzMaster (shard : Z)
| FzQueue (queueId : string)
| FzInflight (shard : Z)
| FzDispatch (shard : Z)
| FzTenant (tenantId : string)
| FzDead (tenantId : string).

Inductive fh : Type :=
| FhItems (queueId : string)
| FhData (shard : Z)
| FhDead (tenantId : string).

Definition fz_key (K : FairQueueKeyProducer) (z : fz) : string :=
  match z with
  | FzMaster n => masterQueueKey K n
  | FzQueue q => queueKey K q
  | FzInflight n => inflightKey K n
  | FzDispatch n => dispatchKey K n
  | FzTenant t => tenantQueueIndexKey K t
  | FzDead t => deadLetterQueueKey K t
  end.

Definition fh_key (K : FairQueueKeyProducer) (h : fh) : string :=
  match h with
  | FhItems q => queueItemsKey K q
  | FhData n => inflightDataKey K n
  | FhDead t => deadLetterQueueDataKey K t
  end.

(** Keys of one type are different keys; those of two concurrency groups are when
    the names of the groups have no ":". *)
Class FairKeyLaws (K : FairQueueKeyProducer) : Prop := {
  fz_inj :: Inj (=) (=) (fz_key K);
  fh_inj :: Inj (=) (=) (fh_key K);
  cc_inj g i g' i' : has_char ":" g = false → has_char ":" g' = false →
    concurrencyKey K g i = concurrencyKey K g' i' → g = g' ∧ i = i';
}.

(** ** The implementations *)

(** [s.split(sep)]. *)
Fixpoint split_text (fuel : nat) (sep s : string) : list string :=
  match fuel with
  | O => [s]
  | S fuel =>
      match cut sep s with
      | Some (a, b) => a :: split_text fuel sep b
      | None => [s]
      end
  end.

Definition js_split (sep s : string) : list string :=
  match sep with
  | EmptyString => (λ c, String c "") <$> String.list_ascii_of_string s
  | String c EmptyString => split_char c s
  | _ => split_text (String.length s) sep s
  end.

Section Default.
Context (opt_prefix opt_separator : option string).

Definition prefix : string := default "fq" opt_prefix.
Definition separator : string := default ":" opt_separator.

Definition buildKey (parts : list string) : string := join separator (prefix :: parts).

Definition default_extractTenantId (queueId : string) : string :=
  match js_split separator queueId with
  | p0 :: p1 :: _ => if bool_decide (p0 = "tenant") && truthy p1 then p1 else p0
  | [p0] => p0
  | [] => ""
  end.

(** The loop over [parts] of [extractGroupId]. *)
Fixpoint group_after (groupName : string) (parts : list string) : string :=
  match parts with
  | p :: ((next :: _) as rest) =>
      if bool_decide (p = groupName) && truthy next then next else group_after groupName rest
  | _ => ""
  end.

Definition default_extractGroupId (groupName queueId : string) : string :=
  group_after groupName (js_split separator queueId).

Definition CallbackFairQueueKeyProducer (tenantExtractor : string → string)
    (groupExtractor : string → string → string) : FairQueueKeyProducer := {|
  masterQueueKey shardId := buildKey ["master"; pretty shardId];
  queueKey queueId := buildKey ["queue"; queueId];
  queueItemsKey queueId := buildKey ["queue"; queueId; "items"];
  concurrencyKey groupName groupId := buildKey ["concurrency"; groupName; groupId];
  inflightKey shardId := buildKey ["inflight"; pretty shardId];
  inflightDataKey shardId := buildKey ["inflight"; pretty shardId; "data"];
  workerQueueKey consumerId := buildKey ["worker"; consumerId];
  dispatchKey shardId := buildKey ["dispatch"; pretty shardId];
  tenantQueueIndexKey tenantId := buildKey ["tenantq"; tenantId];
  deadLetterQueueKey tenantId := buildKey ["dlq"; tenantId];
  deadLetterQueueDataKey tenantId := buildKey ["dlq"; tenantId; "data"];
  extractTenantId := tenantExtractor;
  extractGroupId := groupExtractor;
|}.

Definition DefaultFairQueueKeyProducer : FairQueueKeyProducer :=
  CallbackFairQueueKeyProducer default_extractTenantId default_extractGroupId.

End Default.

(** ** The laws hold *)

Section Laws.
Context (opt_prefix : option string) (te : string → string) (ge : string → string → string).
Local Notation K := (CallbackFairQueueKeyProducer opt_prefix None te ge).

(** Two keys agree after the prefix. *)
Lemma buildKey_inj a b :
  a ≠ [] → b ≠ [] → buildKey opt_prefix None a = buildKey opt_prefix None b → join ":" a = join ":" b.
Proof.
  intros Ha Hb. unfold buildKey, separator. simpl.
  destruct a as [|a0 a]; [done|]. destruct b as [|b0 b]; [done|].
  by intros H%string_app_inj%string_app_inj.
Qed.

(** The text after the first ":" of a key. *)
Lemma word_inj w (a b : string) : w +:+ ":" +:+ a = w +:+ ":" +:+ b → a = b.
Proof. by intros H%string_app_inj%string_app_inj. Qed.

Local Ltac open_keys :=
  cbn [fz_key fh_key masterQueueKey queueKey queueItemsKey concurrencyKey inflightKey inflightDataKey
       deadLetterQueueKey deadLetterQueueDataKey dispatchKey tenantQueueIndexKey
       CallbackFairQueueKeyProducer];
  intros H; apply buildKey_inj in H; [|done..]; cbn [join] in H; try discriminate H.

#[export] Instance callback_fz_inj : Inj (=) (=) (fz_key K).
Proof.
  intros z z'. destruct z, z'; open_keys; apply word_inj in H;
    try apply (inj pretty) in H; by subst.
Qed.

#[export] Instance callback_fh_inj : Inj (=) (=) (fh_key K).
Proof.
  intros h h'. destruct h, h'; open_keys; apply word_inj in H;
    apply string_app_inj_r in H; try apply (inj pretty) in H; by subst.
Qed.

#[export] Instance callback_laws : FairKeyLaws K.
Proof.
  split; [apply _..|]. intros g i g' i' Hg Hg'. open_keys.
  apply word_inj in H. by apply sep_inj in H.
Qed.

End Laws.
