(* ===== verification/FairScripts.v ===== *)
(** * FairScripts: the Lua commands of the fair queue
    (fair-queue/index.ts, visibility.ts, masterQueue.ts, concurrency.ts,
    workerQueue.ts and schedulers/drr.ts)

    One definition per [defineCommand]; the arguments are the [KEYS] and the parsed
    [ARGV] of the command, in the order of the source.  A command that can raise
    returns an [outcome]. *)

From S2P Require Import Prelude Text Redis Listing SimpleQueue FairKeys.
Local Open Scope Z_scope.

(** Errors of the fair queue: what a command raises and what a method throws. *)
Inductive fq_error : Type :=
| NotANumber                          (* a number was expected by a command *)
| UnknownGroup (groupName : string)   (* getConcurrencyLimit *)
| ValidationFailed                    (* a payload that does not match the schema *)
| ParseError                          (* JSON.parse outside a try block *)
| BatchNotFound (batchId : string)    (* enqueueBatchItem *)
| CallbackError (message : string).   (* a callback of the client threw *)

(** [tonumber] of a stored number. *)
Definition fq_number {P X} (v : fq_value P X) : option Z :=
  match v with FNum n => Some n | _ => None end.

(** "messageId:queueId". *)
Definition makeMember (messageId queueId : string) : string := messageId +:+ ":" +:+ queueId.

Section Scripts.
Context {P X db : Type} {R : Redis (fq_value P X) db}.
Implicit Types (s : db).
Local Notation V := (fq_value P X).

(** ** Visibility *)

(** A message leaves its queue for the in-flight set. *)
Definition claim_one (queueKey queueItemsKey inflightKey inflightDataKey queueId : string)
    (deadline : Z) (messageId : string) (payload : V) (s : db) : db :=
  let s := ZREM queueKey messageId s in
  let s := HDEL queueItemsKey messageId s in
  let s := ZADD inflightKey deadline (makeMember messageId queueId) s in
  HSET inflightDataKey messageId payload s.

Definition claimMessage (queueKey queueItemsKey inflightKey inflightDataKey queueId : string)
    (deadline : Z) (s : db) : option (string * V) * db :=
  match ZRANGE queueKey 0 s with
  | [] => (None, s)
  | (messageId, _) :: _ =>
      match HGET queueItemsKey messageId s with
      | None => (None, ZREM queueKey messageId s)
      | Some payload =>
          (Some (messageId, payload),
           claim_one queueKey queueItemsKey inflightKey inflightDataKey queueId deadline
             messageId payload s)
      end
  end.

Fixpoint claim_loop (queueKey queueItemsKey inflightKey inflightDataKey queueId : string)
    (deadline : Z) (items : list (string * Z)) (s : db) : list (string * V) * db :=
  match items with
  | [] => ([], s)
  | (messageId, _) :: items =>
      match HGET queueItemsKey messageId s with
      | Some payload =>
          let s := claim_one queueKey queueItemsKey inflightKey inflightDataKey queueId deadline
                     messageId payload s in
          let '(results, s) :=
            claim_loop queueKey queueItemsKey inflightKey inflightDataKey queueId deadline items s in
          ((messageId, payload) :: results, s)
      | None =>
          claim_loop queueKey queueItemsKey inflightKey inflightDataKey queueId deadline items
            (ZREM queueKey messageId s)
      end
  end.

Definition claimMessageBatch (queueKey queueItemsKey inflightKey inflightDataKey queueId : string)
    (deadline maxCount : Z) (s : db) : list (string * V) * db :=
  claim_loop queueKey queueItemsKey inflightKey inflightDataKey queueId deadline
    (ZRANGE queueKey (maxCount - 1) s) s.

(** "Update tenant queue index (Level 2)", "Update dispatch index (Level 1)". *)
Definition relist (queueKey tenantQueueIndexKey dispatchKey queueId tenantId : string) (s : db) : db :=
  let s := rebalance_add tenantQueueIndexKey queueKey queueId s in
  rebalance_add dispatchKey tenantQueueIndexKey tenantId s.

(** A message leaves the in-flight set for its queue. *)
Definition release_one (inflightKey inflightDataKey queueKey queueItemsKey member messageId : string)
    (score : Z) (payload : V) (s : db) : db :=
  let s := ZREM inflightKey member s in
  let s := HDEL inflightDataKey messageId s in
  let s := ZADD queueKey score messageId s in
  HSET queueItemsKey messageId payload s.

Definition releaseMessage
    (inflightKey inflightDataKey queueKey queueItemsKey tenantQueueIndexKey dispatchKey
     member messageId : string) (score : Z) (queueId : string) (updatedData : option V)
    (tenantId : string) (s : db) : Z * db :=
  match HGET inflightDataKey messageId s with
  | None => (0, s)
  | Some payload =>
      let payload := default payload updatedData in
      let s := release_one inflightKey inflightDataKey queueKey queueItemsKey member messageId score
                 payload s in
      (1, relist queueKey tenantQueueIndexKey dispatchKey queueId tenantId s)
  end.

Fixpoint release_loop (inflightKey inflightDataKey queueKey queueItemsKey : string) (score : Z)
    (messages : list (string * string)) (s : db) : Z * db :=
  match messages with
  | [] => (0, s)
  | (member, messageId) :: messages =>
      match HGET inflightDataKey messageId s with
      | Some payload =>
          let s := release_one inflightKey inflightDataKey queueKey queueItemsKey member messageId
                     score payload s in
          let '(releasedCount, s) :=
            release_loop inflightKey inflightDataKey queueKey queueItemsKey score messages s in
          (releasedCount + 1, s)
      | None => release_loop inflightKey inflightDataKey queueKey queueItemsKey score messages s
      end
  end.

(** [messages] are the pairs of the members and message ids of [ARGV]. *)
Definition releaseMessageBatch
    (inflightKey inflightDataKey queueKey queueItemsKey tenantQueueIndexKey dispatchKey : string)
    (score : Z) (queueId tenantId : string) (messages : list (string * string)) (s : db) : Z * db :=
  let '(releasedCount, s) :=
    release_loop inflightKey inflightDataKey queueKey queueItemsKey score messages s in
  if 0 <? releasedCount
  then (releasedCount, relist queueKey tenantQueueIndexKey dispatchKey queueId tenantId s)
  else (releasedCount, s).

Definition heartbeatMessage (inflightKey member : string) (newDeadline : Z) (s : db) : Z * db :=
  match ZSCORE inflightKey member s with
  | None => (0, s)
  | Some _ => (1, ZADD_XX inflightKey newDeadline member s)
  end.

(** ** Enqueueing *)

Definition store_message (queueKey queueItemsKey messageId : string) (timestamp : Z) (payload : V)
    (s : db) : db :=
  HSET queueItemsKey messageId payload (ZADD queueKey timestamp messageId s).

(** The loop over the triples of [ARGV]. *)
Definition store_messages (queueKey queueItemsKey : string) (args : list (string * Z * V)) (s : db)
    : db :=
  foldl (λ s '(messageId, timestamp, payload),
           store_message queueKey queueItemsKey messageId timestamp payload s) s args.

Definition enqueueMessageAtomic (queueKey queueItemsKey masterQueueKey queueId messageId : string)
    (timestamp : Z) (payload : V) (s : db) : db :=
  rebalance_add masterQueueKey queueKey queueId
    (store_message queueKey queueItemsKey messageId timestamp payload s).

Definition enqueueBatchAtomic (queueKey queueItemsKey masterQueueKey queueId : string)
    (args : list (string * Z * V)) (s : db) : db :=
  rebalance_add masterQueueKey queueKey queueId (store_messages queueKey queueItemsKey args s).

Definition enqueueMessageAtomicV2
    (queueKey queueItemsKey tenantQueueIndexKey dispatchKey queueId messageId : string)
    (timestamp : Z) (payload : V) (tenantId : string) (s : db) : db :=
  relist queueKey tenantQueueIndexKey dispatchKey queueId tenantId
    (store_message queueKey queueItemsKey messageId timestamp payload s).

Definition enqueueBatchAtomicV2
    (queueKey queueItemsKey tenantQueueIndexKey dispatchKey queueId tenantId : string)
    (args : list (string * Z * V)) (s : db) : db :=
  relist queueKey tenantQueueIndexKey dispatchKey queueId tenantId
    (store_messages queueKey queueItemsKey args s).

(** ** Indexes *)

Definition updateMasterQueueIfEmpty (masterQueueKey queueKey queueId : string) (s : db) : Z * db :=
  if ZCARD queueKey s =? 0 then (1, ZREM masterQueueKey queueId s)
  else (0, ZREM masterQueueKey queueId s).

Definition updateDispatchIndexes (queueKey tenantQueueIndexKey dispatchKey queueId tenantId : string)
    (s : db) : Z * db :=
  if ZCARD queueKey s =? 0 then
    let s := ZREM tenantQueueIndexKey queueId s in
    if ZCARD tenantQueueIndexKey s =? 0 then (1, ZREM dispatchKey tenantId s)
    else (1, rebalance_add dispatchKey tenantQueueIndexKey tenantId s)
  else (0, relist queueKey tenantQueueIndexKey dispatchKey queueId tenantId s).

Definition addQueueIfNotEmpty (masterKey queueKey queueId : string) (s : db) : Z * db :=
  if ZCARD queueKey s =? 0 then (0, s)
  else
    match ZRANGE queueKey 0 s with
    | [] => (0, s)
    | (_, score) :: _ => (1, ZADD masterKey score queueId s)
    end.

Definition removeQueueIfEmpty (masterKey queueKey queueId : string) (s : db) : Z * db :=
  if 0 <? ZCARD queueKey s then (0, s) else (1, ZREM masterKey queueId s).

(** ** Concurrency *)

(** [groups] are the pairs of [KEYS] and limits. *)
Definition reserveConcurrency (groups : list (string * Z)) (messageId : string) (s : db) : Z * db :=
  if forallb (λ '(key, limit), SCARD key s <? limit) groups
  then (1, foldl (λ s '(key, _), SADD key messageId s) s groups)
  else (0, s).

(** ** Worker queues *)

Definition popWithLength (workerQueueKey : string) (s : db) : option (string * Z) * db :=
  match LALL workerQueueKey s with
  | [] => (None, s)
  | messageKey :: _ =>
      let s := LPOP workerQueueKey s in (Some (messageKey, LLEN workerQueueKey s), s)
  end.

(** ** Deficits *)

(** [HINCRBYFLOAT key field increment] on whole numbers. *)
Definition HINCRBY (k f : string) (n : Z) (s : db) : outcome fq_error Z * db :=
  match HGET k f s with
  | None => (Ok n, HSET k f (FNum n) s)
  | Some v =>
      match fq_number v with
      | Some m => (Ok (m + n), HSET k f (FNum (m + n)) s)
      | None => (Err NotANumber, s)
      end
  end.

Fixpoint drrAddQuantum (deficitKey : string) (quantum maxDeficit : Z) (tenantIds : list string)
    (s : db) : outcome fq_error (list Z) * db :=
  match tenantIds with
  | [] => (Ok [], s)
  | tenantId :: tenantIds =>
      match HINCRBY deficitKey tenantId quantum s with
      | (Err e, s) => (Err e, s)
      | (Ok newDeficit, s) =>
          let '(newDeficit, s) :=
            if maxDeficit <? newDeficit
            then (maxDeficit, HSET deficitKey tenantId (FNum maxDeficit) s)
            else (newDeficit, s) in
          match drrAddQuantum deficitKey quantum maxDeficit tenantIds s with
          | (Err e, s) => (Err e, s)
          | (Ok results, s) => (Ok (newDeficit :: results), s)
          end
      end
  end.

Definition drrDecrementDeficitBatch (deficitKey tenantId : string) (count : Z) (s : db)
    : outcome fq_error Z * db :=
  match HINCRBY deficitKey tenantId (- count) s with
  | (Err e, s) => (Err e, s)
  | (Ok newDeficit, s) =>
      if newDeficit <? 0 then (Ok 0, HSET deficitKey tenantId (FNum 0) s) else (Ok newDeficit, s)
  end.

Definition drrDecrementDeficit (deficitKey tenantId : string) (s : db) : outcome fq_error Z * db :=
  match HINCRBY deficitKey tenantId (-1) s with
  | (Err e, s) => (Err e, s)
  | (Ok newDeficit, s) =>
      if newDeficit <? 0 then (Ok 0, HSET deficitKey tenantId (FNum 0) s) else (Ok newDeficit, s)
  end.

End Scripts.
