(* ===== verification/FairRetry.v ===== *)
(** * FairRetry: the retry strategies of the fair queue
    (packages/redis-worker/src/fair-queue/retry.ts)

    [getNextDelay] takes the random number [Math.random] would return; its result is
    [None] for [null] (dead-letter the message), [Some None] for a delay that is not
    finite, and [Some (Some d)] for a delay. *)

From Stdlib Require Import SpecFloat.
From S2P Require Import Prelude Text Messages Retry.
Local Open Scope Z_scope.

Record RetryStrategy : Type := MkRetryStrategy {
  rs_maxAttempts : Z;
  getNextDelay : spec_float → Z → option (option Z);
}.

Section Exponential.
Context (pow : spec_float → spec_float → spec_float).

Definition exponential_options (o : RetryOptions) : RetryOptions :=
  MkRetryOptions (Some (default 12 (maxAttempts o))) (Some (default (double_of_Z 2) (factor o)))
    (Some (default 1000 (minTimeoutInMs o))) (Some (default 3600000 (maxTimeoutInMs o)))
    (Some (default true (randomize o))).

Definition ExponentialBackoffRetry (o : RetryOptions) : RetryStrategy :=
  let options := exponential_options o in
  let max := default 12 (maxAttempts options) in
  {| rs_maxAttempts := max;
     getNextDelay random attempt :=
       if max <=? attempt then None else calculateNextRetryDelay random pow options attempt |}.

End Exponential.

Definition FixedDelayRetry (maxAttempts delayMs : Z) : RetryStrategy :=
  {| rs_maxAttempts := maxAttempts;
     getNextDelay _ attempt := if maxAttempts <=? attempt then None else Some (Some delayMs) |}.

Definition LinearBackoffRetry (maxAttempts baseDelayMs : Z) (opt_maxDelayMs : option Z)
    : RetryStrategy :=
  let maxDelayMs := default (baseDelayMs * maxAttempts) opt_maxDelayMs in
  {| rs_maxAttempts := maxAttempts;
     getNextDelay _ attempt :=
       if maxAttempts <=? attempt then None
       else Some (Some (Z.min (baseDelayMs * attempt) maxDelayMs)) |}.

Definition NoRetry : RetryStrategy :=
  {| rs_maxAttempts := 1; getNextDelay _ _ := None |}.

Definition ImmediateRetry (maxAttempts : Z) : RetryStrategy :=
  {| rs_maxAttempts := maxAttempts;
     getNextDelay _ attempt := if maxAttempts <=? attempt then None else Some (Some 0) |}.

Definition CustomRetry (maxAttempts : Z) (calculateDelay : Z → option (option Z)) : RetryStrategy :=
  {| rs_maxAttempts := maxAttempts;
     getNextDelay _ attempt := if maxAttempts <=? attempt then None else calculateDelay attempt |}.

(** A strategy gives up once the attempts are used up. *)
Definition gives_up (r : RetryStrategy) : Prop :=
  ∀ random attempt, rs_maxAttempts r ≤ attempt → getNextDelay r random attempt = None.

Local Ltac by_max := intros random attempt H; simpl in *; by rewrite (proj2 (Z.leb_le _ _) H).

Lemma exponential_gives_up pow o : gives_up (ExponentialBackoffRetry pow o).
Proof. by_max. Qed.
Lemma fixed_gives_up n d : gives_up (FixedDelayRetry n d).
Proof. by_max. Qed.
Lemma linear_gives_up n b m : gives_up (LinearBackoffRetry n b m).
Proof. by_max. Qed.
Lemma none_gives_up : gives_up NoRetry.
Proof. done. Qed.
Lemma immediate_gives_up n : gives_up (ImmediateRetry n).
Proof. by_max. Qed.
Lemma custom_gives_up n f : gives_up (CustomRetry n f).
Proof. by_max. Qed.

(** Before that, the exponential strategy retries. *)
Lemma exponential_retries pow o random attempt :
  attempt < rs_maxAttempts (ExponentialBackoffRetry pow o) →
  getNextDelay (ExponentialBackoffRetry pow o) random attempt ≠ None.
Proof.
  destruct o as [[] [] [] [] []]; simpl; intros H;
    rewrite (proj2 (Z.leb_gt _ _)) by lia; unfold calculateNextRetryDelay; simpl;
    by rewrite (proj2 (Z.leb_gt _ _)) by lia.
Qed.
