(* ===== verification/FairWorld.v ===== *)
(** * FairWorld: what a method of the fair queue acts on

    The database, and the memory of the process: the cache of queue descriptors, the
    cool-off table and the memory of the scheduler ([S]).

    The database is shared with other processes and the memory with the other
    methods this process runs.  A method is a sequence of atomic commands, and others
    run while it awaits one: [fw_env] holds what they do, one entry before each
    command of the method.  A theorem on all worlds is one on all interleavings; with
    [fw_env = []] the method runs alone.

    A method reads the clock once: all its calls of [Date.now] give the same [now]. *)

From S2P Require Import Prelude Redis FairKeys FairScripts Effect.

(** [QueueCooloffState]. *)
Inductive QueueCooloffState : Type :=
| CoolNormal (consecutiveFailures : Z)
| CoolOff (expiresAt : Z).

Record fq_state (db S : Type) : Type := FqState {
  fw_redis : db;
  fw_descriptors : gmap string QueueDescriptor;
  fw_cooloff : gmap string QueueCooloffState;
  fw_sched : S;
}.
Arguments FqState {db S}.
Arguments fw_redis {db S}.
Arguments fw_descriptors {db S}.
Arguments fw_cooloff {db S}.
Arguments fw_sched {db S}.

Record fq_world (db S : Type) : Type := FqWorld {
  fw_state : fq_state db S;
  fw_env : list (fq_state db S → fq_state db S);
}.
Arguments FqWorld {db S}.
Arguments fw_state {db S}.
Arguments fw_env {db S}.

Definition FqM (db S A : Type) : Type := St (fq_world db S) fq_error A.

Section World.
Context {db S : Type}.

Definition with_redis (s : db) (w : fq_state db S) : fq_state db S :=
  FqState s (fw_descriptors w) (fw_cooloff w) (fw_sched w).
Definition with_descriptors (f : gmap string QueueDescriptor → gmap string QueueDescriptor)
    (w : fq_state db S) : fq_state db S :=
  FqState (fw_redis w) (f (fw_descriptors w)) (fw_cooloff w) (fw_sched w).
Definition with_cooloff (f : gmap string QueueCooloffState → gmap string QueueCooloffState)
    (w : fq_state db S) : fq_state db S :=
  FqState (fw_redis w) (fw_descriptors w) (f (fw_cooloff w)) (fw_sched w).
Definition with_sched (x : S) (w : fq_state db S) : fq_state db S :=
  FqState (fw_redis w) (fw_descriptors w) (fw_cooloff w) x.

(** The memory is read and written between two commands. *)
Definition q_mem {A} (f : fq_state db S → A) : FqM db S A := read (λ w, f (fw_state w)).

Definition q_upd {A} (f : fq_state db S → A * fq_state db S) : FqM db S A :=
  act (λ w, let '(a, st) := f (fw_state w) in (a, FqWorld st (fw_env w))).

Definition q_set (f : fq_state db S → fq_state db S) : FqM db S unit := q_upd (λ st, (tt, f st)).

(** What the others do before the next command. *)
Definition interfere (w : fq_world db S) : fq_world db S :=
  match fw_env w with
  | [] => w
  | f :: env => FqWorld (f (fw_state w)) env
  end.

(** A script that may raise. *)
Definition q_script {A} (f : db → outcome fq_error A * db) : FqM db S A :=
  λ w, let w := interfere w in
       let '(r, s) := f (fw_redis (fw_state w)) in
       (r, FqWorld (with_redis s (fw_state w)) (fw_env w)).

(** A read of the database. *)
Definition q_get {A} (f : db → A) : FqM db S A := q_script (λ s, (Ok (f s), s)).

(** A command or script with its reply. *)
Definition q_run {A} (f : db → A * db) : FqM db S A :=
  q_script (λ s, let '(a, s) := f s in (Ok a, s)).

Definition q_do (f : db → db) : FqM db S unit := q_script (λ s, (Ok tt, f s)).

End World.

(** ** Schedulers

    The interface the fair queue gives to a scheduler, and the one it expects. *)

Section Interfaces.
Context (db S : Type).

Record SchedulerContext : Type := MkSchedulerContext {
  ctx_getCurrentConcurrency : string → string → FqM db S Z;
  ctx_getConcurrencyLimit : string → string → FqM db S (option Z);   (* [None]: [Infinity] *)
  ctx_isAtCapacity : string → string → FqM db S bool;
  ctx_getQueueDescriptor : string → FqM db S QueueDescriptor;
  ctx_getQueuesForTenant : string → option Z → FqM db S (list QueueWithScore);
}.

(** The optional methods are [None] when the scheduler does not have them. *)
Record FairScheduler : Type := MkFairScheduler {
  sc_selectQueues : Z → string → string → SchedulerContext → FqM db S (list TenantQueues);
  sc_selectQueuesFromDispatch :
    option (Z → string → string → SchedulerContext → FqM db S (list TenantQueues));
  sc_recordProcessed : option (string → string → FqM db S unit);
  sc_recordProcessedBatch : option (string → string → Z → FqM db S unit);
}.

End Interfaces.
Arguments MkSchedulerContext {db S}.
Arguments ctx_getCurrentConcurrency {db S}.
Arguments ctx_getConcurrencyLimit {db S}.
Arguments ctx_isAtCapacity {db S}.
Arguments ctx_getQueueDescriptor {db S}.
Arguments ctx_getQueuesForTenant {db S}.
Arguments MkFairScheduler {db S}.
Arguments sc_selectQueues {db S}.
Arguments sc_selectQueuesFromDispatch {db S}.
Arguments sc_recordProcessed {db S}.
Arguments sc_recordProcessedBatch {db S}.
