(* ===== verification/FairManagers.v ===== *)
(** * FairManagers: the components the fair queue is composed of
    (fair-queue/visibility.ts, concurrency.ts, masterQueue.ts, tenantDispatch.ts,
    workerQueue.ts)

    One module per class, one definition per method. *)

From S2P Require Import Prelude Text Redis Listing JumpHash FairKeys FairScripts Effect FairWorld.
Local Open Scope Z_scope.
Local Open Scope effect_scope.

(** [DEL key] of a set, a sorted set, a hash and a list. *)
Section Delete.
Context {V db : Type} {R : Redis V db}.

Definition DEL_set (k : string) (s : db) : db :=
  foldr (SREM k) s (elements (SMEMBERS k s)).
Definition DEL_zset (k : string) (s : db) : db :=
  foldr (ZREM k) s (map_to_list (ZALL k s)).*1.
Definition DEL_hash (k : string) (s : db) : db :=
  foldr (HDEL k) s (map_to_list (HALL k s)).*1.
Definition DEL_list (k : string) (s : db) : db :=
  foldr (LREM k) s (LALL k s).

End Delete.

(** ** VisibilityManager *)

Module Visibility.
Section Visibility.
Context {P X db S : Type} {R : Redis (fq_value P X) db}.
Context (keys : FairQueueKeyProducer) (sha256 : string → list Z).
Context (shardCount defaultTimeoutMs : Z).
Local Notation M := (FqM db S).
Local Notation V := (fq_value P X).

Record InFlightMessage : Type := MkInFlight {
  if_messageId : string;
  if_queueId : string;
  if_payload : StoredMessage P;
  if_deadline : Z;
  if_consumerId : string;
}.

Record ReclaimedMessageInfo : Type := MkReclaimed {
  rc_messageId : string;
  rc_queueId : string;
  rc_tenantId : string;
  rc_metadata : option metadata;
}.

Definition getShardForQueue (queueId : string) : Z := jumpHash sha256 queueId shardCount.

Definition parseMember (member : string) : string * string :=
  match cut ":" member with
  | Some (messageId, queueId) => (messageId, queueId)
  | None => (member, "")
  end.

Definition removeFromInflight (shardId : Z) (messageId queueId : string) : M unit :=
  q_do (ZREM (inflightKey keys shardId) (makeMember messageId queueId)) ;;;
  q_do (HDEL (inflightDataKey keys shardId) messageId).

Definition claim (now : Z) (queueId queueKey queueItemsKey consumerId : string)
    (timeoutMs : option Z) : M (option InFlightMessage) :=
  let deadline := now + default defaultTimeoutMs timeoutMs in
  let shardId := getShardForQueue queueId in
  result <- q_run (claimMessage queueKey queueItemsKey (inflightKey keys shardId)
                     (inflightDataKey keys shardId) queueId deadline) ;;
  match result with
  | None => ret None
  | Some (messageId, payloadJson) =>
      match parse_message payloadJson with
      | Some payload => ret (Some (MkInFlight messageId queueId payload deadline consumerId))
      | None => removeFromInflight shardId messageId queueId ;;; ret None
      end
  end.

(** The loop over the claimed pairs. *)
Fixpoint parse_claimed (shardId : Z) (queueId consumerId : string) (deadline : Z)
    (result : list (string * V)) : M (list InFlightMessage) :=
  match result with
  | [] => ret []
  | (messageId, payloadJson) :: result =>
      if truthy messageId then
        match parse_message payloadJson with
        | Some payload =>
            messages <- parse_claimed shardId queueId consumerId deadline result ;;
            ret (MkInFlight messageId queueId payload deadline consumerId :: messages)
        | None =>
            removeFromInflight shardId messageId queueId ;;;
            parse_claimed shardId queueId consumerId deadline result
        end
      else parse_claimed shardId queueId consumerId deadline result
  end.

Definition claimBatch (now : Z) (queueId queueKey queueItemsKey consumerId : string)
    (maxCount : Z) (timeoutMs : option Z) : M (list InFlightMessage) :=
  let deadline := now + default defaultTimeoutMs timeoutMs in
  let shardId := getShardForQueue queueId in
  result <- q_run (claimMessageBatch queueKey queueItemsKey (inflightKey keys shardId)
                     (inflightDataKey keys shardId) queueId deadline maxCount) ;;
  parse_claimed shardId queueId consumerId deadline result.

Definition heartbeat (now : Z) (messageId queueId : string) (extendMs : Z) : M bool :=
  let shardId := getShardForQueue queueId in
  result <- q_run (heartbeatMessage (inflightKey keys shardId) (makeMember messageId queueId)
                     (now + extendMs)) ;;
  ret (result =? 1).

Definition complete (messageId queueId : string) : M unit :=
  removeFromInflight (getShardForQueue queueId) messageId queueId.

Definition release (now : Z)
    (messageId queueId queueKey queueItemsKey tenantQueueIndexKey dispatchKey tenantId : string)
    (score : option Z) (updatedData : option V) : M unit :=
  let shardId := getShardForQueue queueId in
  _ <- q_run (releaseMessage (inflightKey keys shardId) (inflightDataKey keys shardId) queueKey
                queueItemsKey tenantQueueIndexKey dispatchKey (makeMember messageId queueId) messageId
                (default now score) queueId updatedData tenantId) ;;
  ret tt.

(** [release] with a score that is not a number: the script raises at its [ZADD],
    after it took the message out of the in-flight set. *)
Definition release_raises (messageId queueId : string) : M unit :=
  let shardId := getShardForQueue queueId in
  payload <- q_get (HGET (inflightDataKey keys shardId) messageId) ;;
  match payload with
  | None => ret tt
  | Some _ => removeFromInflight shardId messageId queueId ;;; throw NotANumber
  end.

Definition releaseBatch (now : Z) (messages : list InFlightMessage)
    (queueId queueKey queueItemsKey tenantQueueIndexKey dispatchKey tenantId : string)
    (score : option Z) : M unit :=
  match messages with
  | [] => ret tt
  | _ =>
      let shardId := getShardForQueue queueId in
      _ <- q_run (releaseMessageBatch (inflightKey keys shardId) (inflightDataKey keys shardId)
                    queueKey queueItemsKey tenantQueueIndexKey dispatchKey (default now score)
                    queueId tenantId
                    ((λ m, (makeMember (if_messageId m) queueId, if_messageId m)) <$> messages)) ;;
      ret tt
  end.

(** The result of [getQueueKeys]. *)
Record queue_keys : Type := MkQueueKeys {
  k_queueKey : string;
  k_queueItemsKey : string;
  k_tenantQueueIndexKey : string;
  k_dispatchKey : string;
  k_tenantId : string;
}.

(** The body of the loop of [reclaimTimedOut]; its [try] block only catches errors
    of the connection. *)
Definition reclaim_one (now shardId : Z) (getQueueKeys : string → queue_keys) (member : string)
    : M ReclaimedMessageInfo :=
  let '(messageId, queueId) := parseMember member in
  let k := getQueueKeys queueId in
  dataJson <- q_get (HGET (inflightDataKey keys shardId) messageId) ;;
  let storedMessage := dataJson ≫= parse_message in
  let score := from_option sm_timestamp now storedMessage in
  _ <- q_run (releaseMessage (inflightKey keys shardId) (inflightDataKey keys shardId)
                (k_queueKey k) (k_queueItemsKey k) (k_tenantQueueIndexKey k) (k_dispatchKey k) member
                messageId score queueId None (k_tenantId k)) ;;
  match storedMessage with
  | Some m => ret (MkReclaimed messageId queueId (sm_tenantId m) (sm_metadata m))
  | None => ret (MkReclaimed messageId queueId (extractTenantId keys queueId) (Some ∅))
  end.

Definition reclaimTimedOut (now shardId : Z) (getQueueKeys : string → queue_keys)
    : M (list ReclaimedMessageInfo) :=
  timedOut <- q_get (ZRANGEBYSCORE (inflightKey keys shardId) now 100) ;;
  collect (reclaim_one now shardId getQueueKeys) (filter (λ m, truthy m = true) timedOut.*1).

Definition getInflightMessages (shardId : Z) : M (list (string * string * Z)) :=
  q_get (λ s, (λ '(member, deadline), (parseMember member, deadline)) <$>
                filter (λ p, truthy p.1 = true) (ZRANGE (inflightKey keys shardId) (-1) s)).

Definition getInflightCount (shardId : Z) : M Z := q_get (ZCARD (inflightKey keys shardId)).

Definition getTotalInflightCount : M Z :=
  q_get (λ s, foldr Z.add 0 ((λ i, ZCARD (inflightKey keys i) s) <$> seqZ 0 shardCount)).

End Visibility.
Arguments InFlightMessage P : clear implicits.
Arguments MkInFlight {P}.
Arguments if_messageId {P}.
Arguments if_queueId {P}.
Arguments if_payload {P}.
Arguments if_deadline {P}.
Arguments if_consumerId {P}.
End Visibility.

(** ** ConcurrencyManager *)

Module Concurrency.

Record ConcurrencyGroupConfig (db : Type) : Type := MkGroup {
  cg_name : string;
  cg_extractGroupId : QueueDescriptor → string;
  cg_getLimit : string → db → Z;
  cg_defaultLimit : Z;
}.
Arguments MkGroup {db}.
Arguments cg_name {db}.
Arguments cg_extractGroupId {db}.
Arguments cg_getLimit {db}.
Arguments cg_defaultLimit {db}.

Record ConcurrencyState : Type := MkConcurrencyState {
  cs_groupName : string;
  cs_groupId : string;
  cs_current : Z;
  cs_limit : Z;
}.

Section Concurrency.
Context {P X db S : Type} {R : Redis (fq_value P X) db}.
Context (keys : FairQueueKeyProducer) (groups : list (ConcurrencyGroupConfig db)).
Local Notation M := (FqM db S).

(** [groupsByName.get(name)]: the last group of that name. *)
Definition find_group (name : string) : option (ConcurrencyGroupConfig db) :=
  last (filter (λ g, cg_name g = name) groups).

(** [(await group.getLimit(groupId)) || group.defaultLimit]. *)
Definition group_limit (g : ConcurrencyGroupConfig db) (groupId : string) (s : db) : Z :=
  let limit := cg_getLimit g groupId s in
  if limit =? 0 then cg_defaultLimit g else limit.

Definition getCurrentConcurrency (groupName groupId : string) : M Z :=
  q_get (SCARD (concurrencyKey keys groupName groupId)).

Definition getConcurrencyLimit (groupName groupId : string) : M Z :=
  match find_group groupName with
  | None => throw (UnknownGroup groupName)
  | Some g => q_get (group_limit g groupId)
  end.

Definition isAtCapacity (groupName groupId : string) : M bool :=
  current <- getCurrentConcurrency groupName groupId ;;
  limit <- getConcurrencyLimit groupName groupId ;;
  ret (limit <=? current).

Definition getState (groupName groupId : string) : M ConcurrencyState :=
  current <- getCurrentConcurrency groupName groupId ;;
  limit <- getConcurrencyLimit groupName groupId ;;
  ret (MkConcurrencyState groupName groupId current limit).

(** [None]: allowed; [Some state]: blocked by the group in that state. *)
Fixpoint can_process (gs : list (ConcurrencyGroupConfig db)) (queue : QueueDescriptor)
    : M (option ConcurrencyState) :=
  match gs with
  | [] => ret None
  | g :: gs =>
      let groupId := cg_extractGroupId g queue in
      full <- isAtCapacity (cg_name g) groupId ;;
      if full : bool then
        state <- getState (cg_name g) groupId ;; ret (Some state)
      else can_process gs queue
  end.

Definition canProcess (queue : QueueDescriptor) : M (option ConcurrencyState) :=
  can_process groups queue.

(** The key of a message's slot in a group. *)
Definition slot_key (queue : QueueDescriptor) (g : ConcurrencyGroupConfig db) : string :=
  concurrencyKey keys (cg_name g) (cg_extractGroupId g queue).

Definition reserve (queue : QueueDescriptor) (messageId : string) : M bool :=
  groupData <- q_get (λ s,
    (λ g, (slot_key queue g, group_limit g (cg_extractGroupId g queue) s)) <$> groups) ;;
  result <- q_run (reserveConcurrency groupData messageId) ;;
  ret (result =? 1).

Definition release (queue : QueueDescriptor) (messageId : string) : M unit :=
  each (λ g, q_do (SREM (slot_key queue g) messageId)) groups.

Definition releaseBatch (messages : list (QueueDescriptor * string)) : M unit :=
  each (λ '(queue, messageId), release queue messageId) messages.

Definition getAvailableCapacity (queue : QueueDescriptor) : M Z :=
  match groups with
  | [] => ret 0
  | g :: gs =>
      currents <- q_get (λ s, (λ g, SCARD (slot_key queue g) s) <$> groups) ;;
      limits <- q_get (λ s, (λ g, group_limit g (cg_extractGroupId g queue) s) <$> groups) ;;
      let available := zip_with (λ limit current, Z.max 0 (limit - current)) limits currents in
      match available with
      | [] => ret 0
      | a :: l => ret (foldl Z.min a l)
      end
  end.

Definition getActiveMessages (groupName groupId : string) : M (gset string) :=
  q_get (SMEMBERS (concurrencyKey keys groupName groupId)).

Definition clearGroup (groupName groupId : string) : M unit :=
  q_do (DEL_set (concurrencyKey keys groupName groupId)).

Definition removeMessage (messageId : string) (queue : QueueDescriptor) : M unit :=
  release queue messageId.

Definition getGroupNames : list string := cg_name <$> groups.

End Concurrency.
End Concurrency.

(** ** MasterQueue *)

Module MasterQueue.
Section MasterQueue.
Context {P X db S : Type} {R : Redis (fq_value P X) db}.
Context (keys : FairQueueKeyProducer) (sha256 : string → list Z) (opt_shardCount : Z).
Local Notation M := (FqM db S).

Definition shardCount : Z := Z.max 1 opt_shardCount.

Definition getShardForQueue (queueId : string) : Z := jumpHash sha256 queueId shardCount.

Definition addQueue (queueId : string) (oldestMessageTimestamp : Z) : M unit :=
  q_do (ZADD (masterQueueKey keys (getShardForQueue queueId)) oldestMessageTimestamp queueId).

Definition updateQueueScore (queueId : string) (newOldestTimestamp : Z) : M unit :=
  q_do (ZADD (masterQueueKey keys (getShardForQueue queueId)) newOldestTimestamp queueId).

Definition removeQueue (queueId : string) : M unit :=
  q_do (ZREM (masterQueueKey keys (getShardForQueue queueId)) queueId).

Definition getQueuesFromShard (now shardId : Z) (limit maxScore : option Z)
    : M (list QueueWithScore) :=
  q_get (λ s,
    (λ '(queueId, score), MkQueueWithScore queueId score (extractTenantId keys queueId)) <$>
    filter (λ p, truthy p.1 = true)
      (ZRANGEBYSCORE (masterQueueKey keys shardId) (default now maxScore) (default 1000 limit) s)).

Definition getShardQueueCount (shardId : Z) : M Z := q_get (ZCARD (masterQueueKey keys shardId)).

Definition getTotalQueueCount : M Z :=
  q_get (λ s, foldr Z.add 0 ((λ i, ZCARD (masterQueueKey keys i) s) <$> seqZ 0 shardCount)).

Definition addQueueIfNotEmpty (queueId queueKey : string) : M bool :=
  result <- q_run (FairScripts.addQueueIfNotEmpty (masterQueueKey keys (getShardForQueue queueId))
                     queueKey queueId) ;;
  ret (result =? 1).

Definition removeQueueIfEmpty (queueId queueKey : string) : M bool :=
  result <- q_run (FairScripts.removeQueueIfEmpty (masterQueueKey keys (getShardForQueue queueId))
                     queueKey queueId) ;;
  ret (result =? 1).

End MasterQueue.
End MasterQueue.

(** ** TenantDispatch *)

Module TenantDispatch.
Section TenantDispatch.
Context {P X db S : Type} {R : Redis (fq_value P X) db}.
Context (keys : FairQueueKeyProducer) (sha256 : string → list Z) (opt_shardCount : Z).
Local Notation M := (FqM db S).

Definition shardCount : Z := Z.max 1 opt_shardCount.

Definition getShardForTenant (tenantId : string) : Z := jumpHash sha256 tenantId shardCount.

Definition getTenantsFromShard (now shardId : Z) (limit maxScore : option Z)
    : M (list (string * Z)) :=
  q_get (λ s, filter (λ p, truthy p.1 = true)
    (ZRANGEBYSCORE (dispatchKey keys shardId) (default now maxScore) (default 1000 limit) s)).

Definition getQueuesForTenant (now : Z) (tenantId : string) (limit maxScore : option Z)
    : M (list QueueWithScore) :=
  q_get (λ s,
    (λ '(queueId, score), MkQueueWithScore queueId score tenantId) <$>
    filter (λ p, truthy p.1 = true)
      (ZRANGEBYSCORE (tenantQueueIndexKey keys tenantId) (default now maxScore)
         (default 1000 limit) s)).

Definition getShardTenantCount (shardId : Z) : M Z := q_get (ZCARD (dispatchKey keys shardId)).

Definition getTotalTenantCount : M Z :=
  q_get (λ s, foldr Z.add 0 ((λ i, ZCARD (dispatchKey keys i) s) <$> seqZ 0 shardCount)).

Definition getTenantQueueCount (tenantId : string) : M Z :=
  q_get (ZCARD (tenantQueueIndexKey keys tenantId)).

Definition removeTenantFromShard (shardId : Z) (tenantId : string) : M unit :=
  q_do (ZREM (dispatchKey keys shardId) tenantId).

Definition addTenantToShard (shardId : Z) (tenantId : string) (score : Z) : M unit :=
  q_do (ZADD (dispatchKey keys shardId) score tenantId).

Definition removeQueueFromTenant (tenantId queueId : string) : M unit :=
  q_do (ZREM (tenantQueueIndexKey keys tenantId) queueId).

End TenantDispatch.
End TenantDispatch.

(** ** WorkerQueueManager *)

Module WorkerQueues.
Section WorkerQueues.
Context {P X db S : Type} {R : Redis (fq_value P X) db}.
Context (keys : FairQueueKeyProducer).
Local Notation M := (FqM db S).

Definition push (workerQueueId messageKey : string) : M unit :=
  q_do (RPUSH (workerQueueKey keys workerQueueId) messageKey).

(** [RPUSH] of all the keys is one command. *)
Definition pushBatch (workerQueueId : string) (messageKeys : list string) : M unit :=
  match messageKeys with
  | [] => ret tt
  | _ => q_do (λ s, foldl (λ s messageKey, RPUSH (workerQueueKey keys workerQueueId) messageKey s)
                      s messageKeys)
  end.

(** A pop that does not time out and is not aborted. *)
Definition blockingPop (workerQueueId : string) : M (option string) :=
  q_run (λ s, match LALL (workerQueueKey keys workerQueueId) s with
              | [] => (None, s)
              | messageKey :: _ => (Some messageKey, LPOP (workerQueueKey keys workerQueueId) s)
              end).

Definition pop (workerQueueId : string) : M (option (string * Z)) :=
  q_run (popWithLength (workerQueueKey keys workerQueueId)).

Definition getLength (workerQueueId : string) : M Z := q_get (LLEN (workerQueueKey keys workerQueueId)).

Definition peek (workerQueueId : string) : M (list string) :=
  q_get (LALL (workerQueueKey keys workerQueueId)).

Definition remove (workerQueueId messageKey : string) : M Z :=
  q_run (λ s, (Z.of_nat (length (filter (λ x, x = messageKey)
                                   (LALL (workerQueueKey keys workerQueueId) s))),
               LREM (workerQueueKey keys workerQueueId) messageKey s)).

Definition clear (workerQueueId : string) : M unit :=
  q_do (DEL_list (workerQueueKey keys workerQueueId)).

End WorkerQueues.
End WorkerQueues.
