(* ===== verification/FairSchedulers.v ===== *)
(** * FairSchedulers: the scheduling policies of the fair queue
    (fair-queue/scheduler.ts, schedulers/drr.ts, schedulers/roundRobin.ts)

    The quantum and the cap are whole numbers, and so are the deficits.
    [Array.prototype.sort] is stable; [sort_desc] is the stable sort by a descending
    key.  The weighted scheduler is in [FairWeighted]. *)

From Stdlib Require Import SpecFloat.
From S2P Require Import Prelude Text Redis Listing Messages Retry FairKeys FairScripts Effect.
From S2P Require Import FairWorld.
Local Open Scope Z_scope.
Local Open Scope effect_scope.

(** [l.sort((a, b) => key(b) - key(a))]. *)
Definition sort_desc {A} (key : A → Z) : list A → list A := sort_stable (λ x y, key y <? key x).

(** ** BaseScheduler *)

Definition groupQueuesByTenant (queues : list (string * string)) : list (string * list string) :=
  foldl (λ g '(queueId, tenantId), group_add tenantId queueId g) [] queues.

Definition toTenantQueuesArray (grouped : list (string * list string)) : list TenantQueues :=
  (λ '(tenantId, queues), MkTenantQueues tenantId queues) <$> grouped.

Section Schedulers.
Context {P X db S : Type} {R : Redis (fq_value P X) db}.
Context (keys : FairQueueKeyProducer).
Local Notation M := (FqM db S).
Local Notation SchedulerContext := (SchedulerContext db S).

(** [filterAtCapacity]. *)
Fixpoint filterAtCapacity (tenants : list TenantQueues) (context : SchedulerContext)
    (groupName : string) : M (list TenantQueues) :=
  match tenants with
  | [] => ret []
  | tenant :: tenants =>
      full <- ctx_isAtCapacity context groupName (tq_tenantId tenant) ;;
      filtered <- filterAtCapacity tenants context groupName ;;
      ret (if full : bool then filtered else tenant :: filtered)
  end.

(** [NoopScheduler]. *)
Definition NoopScheduler : FairScheduler db S :=
  MkFairScheduler (λ _ _ _ _, ret []) None (Some (λ _ _, ret tt)) (Some (λ _ _ _, ret tt)).

(** [#getQueuesFromShard], the same in the three schedulers. *)
Definition getQueuesFromShard (now : Z) (masterQueueLimit : Z) (shardKey : string)
    : M (list QueueWithScore) :=
  q_get (λ s,
    (λ '(queueId, score), MkQueueWithScore queueId score (extractTenantId keys queueId)) <$>
    filter (λ p, truthy p.1 = true) (ZRANGEBYSCORE shardKey now masterQueueLimit s)).

(** ** DRRScheduler *)

Section DRR.
Context (quantum maxDeficit : Z) (opt_masterQueueLimit : option Z).

Definition drr_masterQueueLimit : Z := default 1000 opt_masterQueueLimit.

Definition deficitKey : string :=
  default "" (head (split_char ":" (masterQueueKey keys 0))) +:+ ":drr:deficit".

Definition addQuantumToTenants (tenantIds : list string) : M (list Z) :=
  match tenantIds with
  | [] => ret []
  | _ => q_script (drrAddQuantum deficitKey quantum maxDeficit tenantIds)
  end.

Definition getTenantsFromDispatch (now : Z) (dispatchKey : string) : M (list (string * Z)) :=
  q_get (λ s, filter (λ p, truthy p.1 = true)
                (ZRANGEBYSCORE dispatchKey now drr_masterQueueLimit s)).

(** [l.map((x, index) => ({ x, deficit: deficits[index] ?? 0 }))]. *)
Definition with_deficits {A} (l : list A) (deficits : list Z) : list (A * Z) :=
  imap (λ i x, (x, default 0 (deficits !! i))) l.

Record tenant_data : Type := MkTenantData {
  td_tenantId : string;
  td_deficit : Z;
  td_queues : list string;
  td_isAtCapacity : bool;
}.

Definition drr_selectQueues (now : Z) (masterQueueShard consumerId : string)
    (context : SchedulerContext) : M (list TenantQueues) :=
  queues <- getQueuesFromShard now drr_masterQueueLimit masterQueueShard ;;
  match queues with
  | [] => ret []
  | _ =>
      let queuesByTenant :=
        groupQueuesByTenant ((λ q, (qs_queueId q, qs_tenantId q)) <$> queues) in
      deficits <- addQuantumToTenants queuesByTenant.*1 ;;
      tenantData <- collect (λ '(tenantId, qs, deficit),
        full <- ctx_isAtCapacity context "tenant" tenantId ;;
        ret (MkTenantData tenantId deficit qs full)) (with_deficits queuesByTenant deficits) ;;
      let eligibleTenants :=
        filter (λ t, negb (td_isAtCapacity t) && (1 <=? td_deficit t) = true) tenantData in
      ret ((λ t, MkTenantQueues (td_tenantId t) (td_queues t)) <$> sort_desc td_deficit eligibleTenants)
  end.

(** The loop over the candidates. *)
Fixpoint drr_pick (context : SchedulerContext) (candidates : list (string * Z))
    : M (list TenantQueues) :=
  match candidates with
  | [] => ret []
  | (tenantId, deficit) :: candidates =>
      full <- ctx_isAtCapacity context "tenant" tenantId ;;
      if full : bool then drr_pick context candidates
      else
        queues <- ctx_getQueuesForTenant context tenantId (Some deficit) ;;
        match queues with
        | [] => drr_pick context candidates
        | _ => ret [MkTenantQueues tenantId (qs_queueId <$> queues)]
        end
  end.

Definition drr_candidates (tenantIds : list string) (deficits : list Z) : list (string * Z) :=
  sort_desc snd (filter (λ t, 1 ≤ t.2) (with_deficits tenantIds deficits)).

Definition drr_selectQueuesFromDispatch (now : Z) (dispatchShardKey consumerId : string)
    (context : SchedulerContext) : M (list TenantQueues) :=
  tenants <- getTenantsFromDispatch now dispatchShardKey ;;
  match tenants with
  | [] => ret []
  | _ =>
      deficits <- addQuantumToTenants tenants.*1 ;;
      drr_pick context (drr_candidates tenants.*1 deficits)
  end.

Definition drr_recordProcessed (tenantId queueId : string) : M unit :=
  _ <- q_script (drrDecrementDeficit deficitKey tenantId) ;; ret tt.

Definition drr_recordProcessedBatch (tenantId queueId : string) (count : Z) : M unit :=
  _ <- q_script (drrDecrementDeficitBatch deficitKey tenantId count) ;; ret tt.

Definition getDeficit (tenantId : string) : M Z :=
  q_get (λ s, default 0 (HGET deficitKey tenantId s ≫= fq_number)).

Definition resetDeficit (tenantId : string) : M unit := q_do (HDEL deficitKey tenantId).

Definition getAllDeficits : M (gmap string Z) := q_get (λ s, omap fq_number (HALL deficitKey s)).

Definition DRRScheduler : FairScheduler db S :=
  MkFairScheduler drr_selectQueues (Some drr_selectQueuesFromDispatch)
    (Some drr_recordProcessed) (Some drr_recordProcessedBatch).

End DRR.

(** ** RoundRobinScheduler *)

Section RoundRobin.
Context (opt_masterQueueLimit : option Z).

Definition lastServedKey (shardKey : string) : string := shardKey +:+ ":rr:lastServed".

Definition getLastServedIndex (shardKey : string) : M Z :=
  q_get (λ s, default 0 (GET (lastServedKey shardKey) s ≫= fq_number)).

Definition setLastServedIndex (shardKey : string) (index : Z) : M unit :=
  q_do (SET (lastServedKey shardKey) (FNum index)).

Definition rotateArray {A} (array : list A) (startIndex : Z) : list A :=
  match array with
  | [] => []
  | _ =>
      let normalizedIndex := Z.to_nat (startIndex mod Z.of_nat (length array)) in
      drop normalizedIndex array ++ take normalizedIndex array
  end.

(** [array.indexOf(x)]. *)
Definition indexOf (x : string) (l : list string) : Z :=
  match list_find (λ y, y = x) l with Some (i, _) => Z.of_nat i | None => -1 end.

Definition rr_selectQueues (now : Z) (masterQueueShard consumerId : string)
    (context : SchedulerContext) : M (list TenantQueues) :=
  queues <- getQueuesFromShard now (default 1000 opt_masterQueueLimit) masterQueueShard ;;
  match queues with
  | [] => ret []
  | _ =>
      let queuesByTenant :=
        groupQueuesByTenant ((λ q, (qs_queueId q, qs_tenantId q)) <$> queues) in
      let tenantOrder := queuesByTenant.*1 in
      lastServedIndex <- getLastServedIndex masterQueueShard ;;
      let rotatedTenants := rotateArray tenantOrder lastServedIndex in
      eligibleTenants <- filterAtCapacity
        ((λ t, MkTenantQueues t (group_get t queuesByTenant)) <$> rotatedTenants) context "tenant" ;;
      match eligibleTenants with
      | [] => ret []
      | firstEligible :: _ =>
          setLastServedIndex masterQueueShard (indexOf (tq_tenantId firstEligible) tenantOrder + 1) ;;;
          ret eligibleTenants
      end
  end.

Definition RoundRobinScheduler : FairScheduler db S :=
  MkFairScheduler rr_selectQueues None (Some (λ _ _, ret tt)) (Some (λ _ _ _, ret tt)).

End RoundRobin.

End Schedulers.
