(* ===== verification/FairWeighted.v ===== *)
(** * FairWeighted: the weighted shuffle scheduler
    (fair-queue/schedulers/weighted.ts)

    Weights are IEEE doubles.  The random numbers come from the package
    [seedrandom]: [rng] takes a generator to a number and the next generator.
    [Math.pow] is an argument, as in [Retry].  The [id] of a snapshot, a random UUID
    that nothing reads, is left out. *)

From Stdlib Require Import SpecFloat.
From S2P Require Import Prelude Text Redis Messages Retry FairKeys FairScripts Effect.
From S2P Require Import FairWorld FairSchedulers.
Local Open Scope Z_scope.
Local Open Scope effect_scope.

(** ** Numbers *)

Definition d_sub : spec_float → spec_float → spec_float := SFsub 53 1024.
Definition d_div : spec_float → spec_float → spec_float := SFdiv 53 1024.

Definition d_zero : spec_float := S754_zero false.
Definition d_one : spec_float := double_of_Z 1.

(** [x === 0]. *)
Definition d_is_zero (x : spec_float) : bool := match x with S754_zero _ => true | _ => false end.

(** [Math.max(x, y)]; zeros are not told apart. *)
Definition d_max (x y : spec_float) : spec_float :=
  match x, y with
  | S754_nan, _ | _, S754_nan => S754_nan
  | _, _ => if d_ltb x y then y else x
  end.

(** [Math.max(...l)]. *)
Definition d_maximum (l : list spec_float) : spec_float := foldl d_max (S754_infinity true) l.

(** [l.reduce((sum, x) => sum + x, 0)]. *)
Definition d_sum (l : list spec_float) : spec_float := foldl d_add d_zero l.

(** [Math.floor(x)] as an array index: [None] for a number that is not one. *)
Definition d_index (x : spec_float) : option nat :=
  match lua_floor x with
  | Some z => if 0 <=? z then Some (Z.to_nat z) else None
  | None => None
  end.

(** ** The scheduler's memory *)

Record TenantSnapshot : Type := MkTenantSnapshot {
  ts_tenantId : string;
  ts_current : Z;
  ts_limit : option Z;                    (* [None]: [Infinity] *)
  ts_queues : list (string * Z);          (* queue and age *)
}.

Record QueueSnapshot : Type := MkQueueSnapshot {
  sn_tenants : list TenantSnapshot;       (* in insertion order *)
  sn_queues : list (string * string * Z); (* queue, tenant and age *)
}.

Record WeightedMemory (G : Type) : Type := MkWeightedMemory {
  wm_rng : G;
  wm_snapshotCache : gmap string (QueueSnapshot * Z);
}.
Arguments MkWeightedMemory {G}.
Arguments wm_rng {G}.
Arguments wm_snapshotCache {G}.

Record WeightedSchedulerBiases : Type := MkBiases {
  concurrencyLimitBias : spec_float;
  availableCapacityBias : spec_float;
  queueAgeRandomization : spec_float;
}.

Definition defaultBiases : WeightedSchedulerBiases := MkBiases d_zero d_zero d_zero.

(** ** Drawing

    The loop that the source writes three times: [draw_index] is the index of the
    element to take. *)

Section Draw.
Context {G : Type} (rng : G → spec_float * G).

Fixpoint draw_index (random : spec_float) (weights : list spec_float) : nat :=
  match weights with
  | [] => 0
  | weight :: weights =>
      if d_ltb d_zero random then Datatypes.S (draw_index (d_sub random weight) weights) else 0
  end.

(** One pass of the outer loop: what is taken, and what remains with its total. *)
Definition draw {A} (remaining : list (A * spec_float)) (totalWeight : spec_float) (g : G)
    : option A * list (A * spec_float) * spec_float * G :=
  let '(r, g) := rng g in
  let index := Nat.pred (draw_index (d_mul r totalWeight) remaining.*2) in
  match remaining !! index with
  | Some (selected, weight) => (Some selected, delete index remaining, d_sub totalWeight weight, g)
  | None => (None, remaining, totalWeight, g)
  end.

(** [count] passes, or fewer when nothing remains. *)
Fixpoint draws {A} (count : nat) (remaining : list (A * spec_float)) (totalWeight : spec_float)
    (g : G) : list A * G :=
  match count with
  | O => ([], g)
  | Datatypes.S count =>
      match remaining with
      | [] => ([], g)
      | _ =>
          let '(selected, remaining, totalWeight, g) := draw remaining totalWeight g in
          let '(result, g) := draws count remaining totalWeight g in
          (option_list selected ++ result, g)
      end
  end.

(** [#weightedShuffle]; every pass takes one element. *)
Definition weightedShuffle {A} (items : list (A * spec_float)) (g : G) : list A * G :=
  draws (length items) items (d_sum items.*2) g.

(** [#shuffle]: Fisher and Yates, from the last element down; an index out of range,
    which a random number below 1 does not give ([Doubles.floor_unit_mul]), swaps nothing. *)
Definition swap {A} (i j : nat) (l : list A) : list A :=
  match l !! i, l !! j with
  | Some temp, Some swapValue => <[j := temp]> (<[i := swapValue]> l)
  | _, _ => l
  end.

Fixpoint shuffle_from {A} (i : nat) (result : list A) (g : G) : list A * G :=
  match i with
  | O => (result, g)
  | Datatypes.S i' =>
      let '(r, g) := rng g in
      let result :=
        match d_index (d_mul r (double_of_Z (Z.of_nat i + 1))) with
        | Some j => swap i j result
        | None => result
        end in
      shuffle_from i' result g
  end.

Definition shuffle {A} (array : list A) (g : G) : list A * G :=
  shuffle_from (Nat.pred (length array)) array g.

End Draw.

(** ** WeightedScheduler *)

Section Weighted.
Context {P X db G : Type} {R : Redis (fq_value P X) db}.
Context (keys : FairQueueKeyProducer) (rng : G → spec_float * G).
Context (pow : spec_float → spec_float → spec_float).
Context (opt_biases : option WeightedSchedulerBiases).
Context (opt_masterQueueLimit opt_reuseSnapshotCount opt_maximumTenantCount : option Z).

Local Notation M := (FqM db (WeightedMemory G)).
Local Notation SchedulerContext := (SchedulerContext db (WeightedMemory G)).

Definition biases : WeightedSchedulerBiases := default defaultBiases opt_biases.
Definition w_masterQueueLimit : Z := default 100 opt_masterQueueLimit.
Definition reuseSnapshotCount : Z := default 0 opt_reuseSnapshotCount.
Definition maximumTenantCount : Z := default 0 opt_maximumTenantCount.

(** [#selectTopTenantQueues]. *)
Definition tenant_weights (queues : list QueueWithScore) : list (string * spec_float) :=
  let queuesByTenant := foldl (λ g q, group_add (qs_tenantId q) q g) [] queues in
  let tenantAges :=
    (λ '(tenantId, tQueues),
       (tenantId, d_div (d_sum ((λ q, double_of_Z (qs_score q)) <$> tQueues))
                    (double_of_Z (Z.of_nat (length tQueues))))) <$> queuesByTenant in
  let maxAge := d_maximum tenantAges.*2 in
  if d_is_zero maxAge
  then (λ t, (t.1, d_div d_one (double_of_Z (Z.of_nat (length tenantAges))))) <$> tenantAges
  else (λ t, (t.1, d_div t.2 maxAge)) <$> tenantAges.

Definition selectTopTenantQueues (queues : list QueueWithScore) (g : G)
    : list QueueWithScore * G :=
  let weightedTenants := tenant_weights queues in
  let '(selectedTenants, g) :=
    draws rng (Z.to_nat maximumTenantCount) weightedTenants (d_sum weightedTenants.*2) g in
  (filter (λ q, qs_tenantId q ∈ selectedTenants) queues, g).

(** [this.rng()] is read and written in the scheduler's memory. *)
Definition with_rng {A} (f : G → A * G) : M A :=
  q_upd (λ w, let '(a, g) := f (wm_rng (fw_sched w)) in
            (a, with_sched (MkWeightedMemory g (wm_snapshotCache (fw_sched w))) w)).

(** The tenants of the snapshot: those that are not at capacity. *)
Fixpoint snapshot_tenants (context : SchedulerContext)
    (queuesByTenant : list (string * list (string * Z))) : M (list TenantSnapshot) :=
  match queuesByTenant with
  | [] => ret []
  | (tenantId, queues) :: queuesByTenant =>
      current <- ctx_getCurrentConcurrency context "tenant" tenantId ;;
      limit <- ctx_getConcurrencyLimit context "tenant" tenantId ;;
      tenants <- snapshot_tenants context queuesByTenant ;;
      ret (if match limit with Some limit => limit <=? current | None => false end then tenants
           else MkTenantSnapshot tenantId current limit queues :: tenants)
  end.

Definition createSnapshot (now : Z) (masterQueueShard : string) (context : SchedulerContext)
    : M QueueSnapshot :=
  rawQueues <- getQueuesFromShard keys now w_masterQueueLimit masterQueueShard ;;
  match rawQueues with
  | [] => ret (MkQueueSnapshot [] [])
  | _ =>
      rawQueues <- (if 0 <? maximumTenantCount
                    then with_rng (selectTopTenantQueues rawQueues) else ret rawQueues) ;;
      let queuesByTenant :=
        foldl (λ g q, group_add (qs_tenantId q) (qs_queueId q, now - qs_score q) g) [] rawQueues in
      tenants <- snapshot_tenants context queuesByTenant ;;
      ret (MkQueueSnapshot tenants
        ((λ q, (qs_queueId q, qs_tenantId q, now - qs_score q)) <$>
         filter (λ q, qs_tenantId q ∈ ts_tenantId <$> tenants) rawQueues))
  end.

Definition cache_snapshot (cacheKey : string) (snapshot : QueueSnapshot) (reuseCount : Z) : M unit :=
  q_set (λ w, with_sched (MkWeightedMemory (wm_rng (fw_sched w))
    (<[cacheKey := (snapshot, reuseCount)]> (wm_snapshotCache (fw_sched w)))) w).

Definition getOrCreateSnapshot (now : Z) (masterQueueShard consumerId : string)
    (context : SchedulerContext) : M QueueSnapshot :=
  let cacheKey := masterQueueShard +:+ ":" +:+ consumerId in
  let fresh :=
    snapshot <- createSnapshot now masterQueueShard context ;;
    (if 0 <? reuseSnapshotCount then cache_snapshot cacheKey snapshot 0 else ret tt) ;;;
    ret snapshot in
  if 0 <? reuseSnapshotCount then
    cached <- q_mem (λ w, wm_snapshotCache (fw_sched w) !! cacheKey) ;;
    match cached with
    | Some (snapshot, reuseCount) =>
        if reuseCount <? reuseSnapshotCount
        then cache_snapshot cacheKey snapshot (reuseCount + 1) ;;; ret snapshot
        else fresh
    | None => fresh
    end
  else fresh.

Definition d_limit (limit : option Z) : spec_float :=
  match limit with Some limit => double_of_Z limit | None => S754_infinity false end.

Definition tenant_weight (maxLimit : spec_float) (tenant : TenantSnapshot) : spec_float :=
  let limit := d_limit (ts_limit tenant) in
  let weight := d_one in
  let weight :=
    if d_ltb d_zero (concurrencyLimitBias biases) then
      let normalizedLimit := if d_ltb d_zero maxLimit then d_div limit maxLimit else d_zero in
      d_mul weight (d_add d_one
        (pow (d_mul normalizedLimit (concurrencyLimitBias biases)) (double_of_Z 2)))
    else weight in
  if d_ltb d_zero (availableCapacityBias biases) then
    let usedPercentage :=
      if d_ltb d_zero limit then d_div (double_of_Z (ts_current tenant)) limit else d_one in
    let availableBonus := d_sub d_one usedPercentage in
    d_mul weight (d_add d_one (pow (d_mul availableBonus (availableCapacityBias biases)) (double_of_Z 2)))
  else weight.

Definition shuffleTenantsByWeight (snapshot : QueueSnapshot) (g : G) : list string * G :=
  let tenantIds := ts_tenantId <$> sn_tenants snapshot in
  match tenantIds with
  | [] => ([], g)
  | _ =>
      if d_is_zero (concurrencyLimitBias biases) && d_is_zero (availableCapacityBias biases)
      then shuffle rng tenantIds g
      else
        let maxLimit := d_maximum ((λ t, d_limit (ts_limit t)) <$> sn_tenants snapshot) in
        weightedShuffle rng
          ((λ t, (ts_tenantId t, tenant_weight maxLimit t)) <$> sn_tenants snapshot) g
  end.

Definition orderQueuesForTenant (snapshot : QueueSnapshot) (tenantId : string) (g : G)
    : list string * G :=
  match list_find (λ t, ts_tenantId t = tenantId) (sn_tenants snapshot) with
  | None => ([], g)
  | Some (_, tenant) =>
      match ts_queues tenant with
      | [] => ([], g)
      | queues =>
          if d_is_zero (queueAgeRandomization biases)
          then ((sort_desc snd queues).*1, g)
          else
            let maxAge := d_maximum ((λ q, double_of_Z q.2) <$> queues) in
            let ageDenom := if d_is_zero maxAge then d_one else maxAge in
            weightedShuffle rng
              ((λ q, (q.1, d_add d_one (d_mul (d_div (double_of_Z q.2) ageDenom)
                                         (queueAgeRandomization biases)))) <$> queues) g
      end
  end.

Fixpoint order_tenants (snapshot : QueueSnapshot) (tenants : list string) (g : G)
    : list TenantQueues * G :=
  match tenants with
  | [] => ([], g)
  | tenantId :: tenants =>
      let '(queues, g) := orderQueuesForTenant snapshot tenantId g in
      let '(result, g) := order_tenants snapshot tenants g in
      (MkTenantQueues tenantId queues :: result, g)
  end.

Definition w_selectQueues (now : Z) (masterQueueShard consumerId : string)
    (context : SchedulerContext) : M (list TenantQueues) :=
  snapshot <- getOrCreateSnapshot now masterQueueShard consumerId context ;;
  match sn_queues snapshot with
  | [] => ret []
  | _ =>
      shuffledTenants <- with_rng (shuffleTenantsByWeight snapshot) ;;
      with_rng (order_tenants snapshot shuffledTenants)
  end.

Definition WeightedScheduler : FairScheduler db (WeightedMemory G) :=
  MkFairScheduler w_selectQueues None (Some (λ _ _, ret tt)) (Some (λ _ _ _, ret tt)).

End Weighted.

(** ** Facts *)

Section DrawFacts.
Context {G : Type} (rng : G → spec_float * G).

Lemma draw_index_le random weights : (draw_index random weights ≤ length weights)%nat.
Proof.
  revert random. induction weights as [|w l IH]; intros r; cbn [draw_index length]; [done|].
  destruct (d_ltb d_zero r); [|lia]. specialize (IH (d_sub r w)). lia.
Qed.

(** A pass takes one of the elements. *)
Lemma draw_takes {A} (remaining : list (A * spec_float)) total g :
  remaining ≠ [] →
  ∃ a w rest total' g', draw rng remaining total g = (Some a, rest, total', g') ∧
    remaining ≡ₚ (a, w) :: rest.
Proof.
  intros Hne. unfold draw. destruct (rng g) as [r g'].
  pose proof (draw_index_le (d_mul r total) remaining.*2) as Hle. rewrite length_fmap in Hle.
  revert Hle. generalize (draw_index (d_mul r total) remaining.*2) as n. intros n Hle.
  assert (Nat.pred n < length remaining)%nat as Hlt by (destruct remaining; [done|simpl in *; lia]).
  destruct (lookup_lt_is_Some_2 _ _ Hlt) as [[a w] Ha]. rewrite Ha.
  do 5 eexists. split; [done|]. by apply delete_Permutation.
Qed.

Lemma draws_permutation {A} (remaining : list (A * spec_float)) total g :
  (draws rng (length remaining) remaining total g).1 ≡ₚ remaining.*1.
Proof.
  remember (length remaining) as n eqn:Hn. revert remaining total g Hn.
  induction n as [|n IH]; intros remaining total g Hn.
  { by destruct remaining. }
  destruct remaining as [|p rem]; [done|]. cbn [draws].
  destruct (draw_takes (p :: rem) total g ltac:(done)) as (a & w & rest & t' & g' & -> & Hp).
  assert (n = length rest) as Hr. { apply Permutation_length in Hp. simpl in *. lia. }
  specialize (IH rest t' g' Hr). destruct (draws rng n rest t' g') as [res g''].
  cbn [fst option_list app] in *. by rewrite IH, Hp.
Qed.

Lemma swap_permutation {A} i j (l : list A) : swap i j l ≡ₚ l.
Proof.
  unfold swap. destruct (l !! i) as [x|] eqn:Ei, (l !! j) as [y|] eqn:Ej; try done.
  destruct (decide (i = j)) as [->|Hij].
  { rewrite Ei in Ej. injection Ej as ->. by rewrite !list_insert_id by (by rewrite ?list_insert_id). }
  apply Permutation_inj. split.
  - by rewrite !length_insert.
  - exists (λ k, if decide (k = i) then j else if decide (k = j) then i else k). split.
    + intros k1 k2. repeat case_decide; congruence.
    + intros k. pose proof (lookup_lt_Some _ _ _ Ei). pose proof (lookup_lt_Some _ _ _ Ej).
      destruct (decide (k = j)) as [->|Hkj].
      * rewrite list_lookup_insert_eq by (rewrite length_insert; lia).
        repeat case_decide; congruence.
      * rewrite list_lookup_insert_ne by done. destruct (decide (k = i)) as [->|Hki].
        -- by rewrite list_lookup_insert_eq by lia.
        -- by rewrite list_lookup_insert_ne by done.
Qed.

Lemma shuffle_permutation {A} (l : list A) g : (shuffle rng l g).1 ≡ₚ l.
Proof.
  unfold shuffle. generalize (Nat.pred (length l)) as i. intros i. revert l g.
  induction i as [|i IH]; intros l g; [done|]. cbn [shuffle_from].
  destruct (rng g) as [r g']. rewrite IH. case_match; [apply swap_permutation|done].
Qed.

Lemma weightedShuffle_permutation {A} (items : list (A * spec_float)) g :
  (weightedShuffle rng items g).1 ≡ₚ items.*1.
Proof. apply draws_permutation. Qed.

End DrawFacts.
