(* ===== verification/FairSelection.v ===== *)
(** * FairSelection: which queues a consumer of the master queue looks at, in which order
    (run-queue/fairQueueSelectionStrategy.ts)

    Weights and random numbers are IEEE doubles, as in [FairWeighted], whose draws this
    strategy shares.  A call issues several Redis commands and other processes act
    between them: [views] gives the database each command meets.  The cache of limits is
    the package behind [@internal/cache]: [swr] takes a cache, a key and what the loader
    would read to the value of the cache.  A JavaScript object used as a record is a list
    of its entries in insertion order: environment ids are database ids, neither array
    indexes nor members of [Object.prototype].  A result [None] stands for an exception.  The random [id] of a snapshot, which
    nothing reads, is left out. *)

From Stdlib Require Import SpecFloat.
From S2P Require Import Prelude Text Redis KeyProducer Messages Retry FairSchedulers FairWeighted.
Local Open Scope Z_scope.

(** ** Numbers *)

(** [Math.floor(x)]. *)
Definition d_floor (x : spec_float) : spec_float :=
  match lua_floor x with Some z => double_of_Z z | None => x end.

(** [Number(value)] of a stored text. *)
Definition js_number (v : rq_value) : spec_float :=
  match v with
  | VText t => if truthy t then S754_nan else d_zero
  | _ => default S754_nan (todouble v)
  end.

(** A stored text that is not empty. *)
Definition js_truthy (v : rq_value) : bool := match v with VText t => truthy t | _ => true end.

(** ** Data *)

Record FairQueueSelectionStrategyBiases : Type := MkSelectionBiases {
  concurrencyLimitBias : spec_float;
  availableCapacityBias : spec_float;
  queueAgeRandomization : spec_float;
}.

(** [keyPrefix] of the Redis client, and the options that are read. *)
Record FairQueueSelectionStrategyOptions : Type := MkSelectionOptions {
  so_keyPrefix : string;
  so_defaultEnvConcurrencyLimit : option Z;
  so_parentQueueLimit : option Z;
  so_biases : option FairQueueSelectionStrategyBiases;
  so_reuseSnapshotCount : option Z;
  so_maximumEnvCount : option Z;
}.

Record FairQueueConcurrency : Type := MkConcurrency {
  fc_current : Z;
  fc_limit : spec_float;
}.

Record FairQueue : Type := MkFairQueue {
  fq_id : string;
  fq_age : Z;
  fq_org : string;
  fq_env : string;
  fq_project : string;
}.

Record FairQueueSnapshot : Type := MkFairQueueSnapshot {
  fs_envs : list (string * FairQueueConcurrency);
  fs_queues : list FairQueue;
}.

Definition emptyFairQueueSnapshot : FairQueueSnapshot := MkFairQueueSnapshot [] [].

Definition defaultBiases : FairQueueSelectionStrategyBiases := MkSelectionBiases d_zero d_zero d_zero.

(** [EnvQueues]: an environment and its queues. *)
Definition EnvQueues : Type := string * list string.

(** The commands of a call. *)
Inductive read : Type :=
| ReadQueues
| ReadCurrent (envId : string)
| ReadLimit (envId : string)
| ReadBurst (envId : string).

Section Orders.
Context {G : Type} (rng : G → spec_float * G) (pow : spec_float → spec_float → spec_float).
Context (opt_biases : option FairQueueSelectionStrategyBiases).

Definition biases : FairQueueSelectionStrategyBiases := default defaultBiases opt_biases.

(** [#shuffle]: Fisher and Yates, counting [currentIndex] down.  [None]: an index outside
    the array, where the source would read [undefined]; random numbers from 0 up to 1
    give none. *)
Fixpoint shuffle_down {A} (currentIndex : nat) (newArray : list A) (g : G) : option (list A) * G :=
  match currentIndex with
  | O => (Some newArray, g)
  | S index =>
      let '(r, g) := rng g in
      match d_index (d_mul r (double_of_Z (Z.of_nat currentIndex))) with
      | Some randomIndex =>
          if (randomIndex <? length newArray)%nat
          then shuffle_down index (swap index randomIndex newArray) g else (None, g)
      | None => (None, g)
      end
  end.

Definition shuffle {A} (array : list A) (g : G) : option (list A) * G :=
  shuffle_down (length array) array g.

(** [#weightedShuffle]: the total stays that of all the items, also of those that are
    gone. *)
Fixpoint weighted_passes (count : nat) (items : list (string * spec_float)) (totalWeight : spec_float)
    (g : G) : list string * G :=
  match count with
  | O => ([], g)
  | S count =>
      let '(selected, items, _, g) := draw rng items totalWeight g in
      let '(result, g) := weighted_passes count items totalWeight g in
      (option_list selected ++ result, g)
  end.

Definition weightedShuffle (weightedItems : list (string * spec_float)) (g : G) : list string * G :=
  weighted_passes (length weightedItems) weightedItems (d_sum weightedItems.*2) g.

(** [#weightedRandomQueueOrder]. *)
Definition queue_weight (maxAge : spec_float) (queue : FairQueue) : spec_float :=
  let normalizedAge := d_div (double_of_Z (fq_age queue)) maxAge in
  d_add d_one (d_mul normalizedAge (queueAgeRandomization biases)).

Definition weightedRandomQueueOrder (queues : list FairQueue) (g : G) : list FairQueue * G :=
  if (length queues <=? 1)%nat then (queues, g)
  else if d_is_zero (queueAgeRandomization biases) then (sort_desc fq_age queues, g)
  else
    let maxAge := d_maximum ((λ q, double_of_Z (fq_age q)) <$> queues) in
    FairWeighted.weightedShuffle rng ((λ q, (q, queue_weight maxAge q)) <$> queues) g.

(** The queues of each environment, in the order of their first queue. *)
Definition queues_by_env (queues : list FairQueue) : list (string * list FairQueue) :=
  foldl (λ acc queue, group_add (fq_env queue) queue acc) [] queues.

(** [#orderQueuesByEnvs]. *)
Fixpoint order_envs (queuesByEnv : list (string * list FairQueue)) (envs : list string) (g : G)
    : list EnvQueues * G :=
  match envs with
  | [] => ([], g)
  | envId :: envs =>
      match list_find (λ p, p.1 = envId) queuesByEnv with
      | Some (_, (_, queues)) =>
          let '(orderedQueues, g) := weightedRandomQueueOrder queues g in
          let '(result, g) := order_envs queuesByEnv envs g in
          (if (0 <? length orderedQueues)%nat then (envId, fq_id <$> orderedQueues) :: result
           else result, g)
      | None => order_envs queuesByEnv envs g
      end
  end.

Definition orderQueuesByEnvs (envs : list string) (snapshot : FairQueueSnapshot) (g : G)
    : list EnvQueues * G :=
  order_envs (queues_by_env (fs_queues snapshot)) envs g.

(** [#shuffleQueuesByEnv]. *)
Definition env_weight (maxLimit : spec_float) (concurrency : FairQueueConcurrency) : spec_float :=
  let weight := d_one in
  let weight :=
    if d_ltb d_zero (concurrencyLimitBias biases) then
      let normalizedLimit := d_div (fc_limit concurrency) maxLimit in
      d_mul weight (d_add d_one
        (pow (d_mul normalizedLimit (concurrencyLimitBias biases)) (double_of_Z 2)))
    else weight in
  if d_ltb d_zero (availableCapacityBias biases) then
    let usedCapacityPercentage := d_div (double_of_Z (fc_current concurrency)) (fc_limit concurrency) in
    let availableCapacityBonus := d_sub d_one usedCapacityPercentage in
    d_mul weight (d_add d_one
      (pow (d_mul availableCapacityBonus (availableCapacityBias biases)) (double_of_Z 2)))
  else weight.

Definition shuffleQueuesByEnv (snapshot : FairQueueSnapshot) (g : G) : option (list EnvQueues) * G :=
  let envs := (fs_envs snapshot).*1 in
  let '(shuffledEnvs, g) :=
    if d_is_zero (concurrencyLimitBias biases) && d_is_zero (availableCapacityBias biases)
    then shuffle envs g
    else
      let maxLimit := d_maximum ((λ env, fc_limit env.2) <$> fs_envs snapshot) in
      let '(shuffledEnvs, g) :=
        weightedShuffle ((λ env, (env.1, env_weight maxLimit env.2)) <$> fs_envs snapshot) g in
      (Some shuffledEnvs, g) in
  match shuffledEnvs with
  | Some shuffledEnvs =>
      let '(envQueues, g) := orderQueuesByEnvs shuffledEnvs snapshot g in (Some envQueues, g)
  | None => (None, g)
  end.

(** [#selectTopEnvs]. *)
Definition env_ages (queues : list FairQueue) : list (string * spec_float) :=
  (λ '(envId, envQueues),
     (envId, d_div (d_sum ((λ q, double_of_Z (fq_age q)) <$> envQueues))
               (double_of_Z (Z.of_nat (length envQueues))))) <$> queues_by_env queues.

Definition selectTopEnvs (queues : list FairQueue) (maximumEnvCount : Z) (g : G) : list string * G :=
  let envAverageAges := env_ages queues in
  let maxAge := d_maximum envAverageAges.*2 in
  let weightedEnvs := (λ env, (env.1, d_div env.2 maxAge)) <$> envAverageAges in
  draws rng (Z.to_nat maximumEnvCount) weightedEnvs (d_sum weightedEnvs.*2) g.

End Orders.

(** ** The strategy *)

Record StrategyMemory (G C : Type) : Type := MkStrategyMemory {
  sm_rng : G;
  sm_reusedSnapshotForConsumer : gmap string (FairQueueSnapshot * Z);
  sm_cache : C;
}.
Arguments MkStrategyMemory {G C}.
Arguments sm_rng {G C}.
Arguments sm_reusedSnapshotForConsumer {G C}.
Arguments sm_cache {G C}.

Section Strategy.
Context {db G C : Type} {R : Redis rq_value db}.
Context (rng : G → spec_float * G) (pow : spec_float → spec_float → spec_float).
Context (swr : C → string → spec_float → option spec_float * C).
Context (o : FairQueueSelectionStrategyOptions).
Local Notation memory := (StrategyMemory G C).
Implicit Types (views : read → db) (m : memory).

Definition defaultEnvConcurrencyLimit : Z := default 100 (so_defaultEnvConcurrencyLimit o).
Definition parentQueueLimit : Z := default 100 (so_parentQueueLimit o).

(** The client puts its prefix before every key. *)
Definition client_key (key : string) : string := so_keyPrefix o +:+ key.

Definition with_rng (g : G) m : memory := MkStrategyMemory g (sm_reusedSnapshotForConsumer m) (sm_cache m).
Definition with_reused (r : gmap string (FairQueueSnapshot * Z)) m : memory :=
  MkStrategyMemory (sm_rng m) r (sm_cache m).
Definition with_cache (c : C) m : memory :=
  MkStrategyMemory (sm_rng m) (sm_reusedSnapshotForConsumer m) c.

(** [#allChildQueuesByScore]; [None] when the name of a queue cannot be taken apart. *)
Definition fair_queue (now : Z) (entry : string * Z) : option FairQueue :=
  env ← envIdFromQueue entry.1;
  org ← orgIdFromQueue entry.1;
  project ← projectIdFromQueue entry.1;
  Some (MkFairQueue entry.1 (now - entry.2) org env project).

Definition allChildQueuesByScore views (now : Z) (parentQueue : string) : option (list FairQueue) :=
  mapM (fair_queue now)
    (ZRANGEBYSCORE (client_key parentQueue) now parentQueueLimit (views ReadQueues)).

(** [#envDescriptorFromFairQueue]. *)
Definition envDescriptorFromFairQueue (queue : FairQueue) : EnvDescriptor :=
  {| d_orgId := fq_org queue; d_projectId := fq_project queue; d_envId := fq_env queue |}.

Definition getEnvCurrentConcurrency views (env : EnvDescriptor) : Z :=
  SCARD (client_key (envCurrentConcurrencyKey (ByDescriptor env))) (views (ReadCurrent (d_envId env))).

Definition getEnvConcurrencyLimit views (env : EnvDescriptor) (c : C) : spec_float * C :=
  let key := envConcurrencyLimitKey (ByDescriptor env) in
  let loaded :=
    match GET (client_key key) (views (ReadLimit (d_envId env))) with
    | Some value => if js_truthy value then js_number value else double_of_Z defaultEnvConcurrencyLimit
    | None => double_of_Z defaultEnvConcurrencyLimit
    end in
  let '(val, c) := swr c key loaded in
  (default (double_of_Z defaultEnvConcurrencyLimit) val, c).

Definition getEnvConcurrencyLimitBurstFactor views (env : EnvDescriptor) : spec_float :=
  match GET (client_key (envConcurrencyLimitBurstFactorKey (ByDescriptor env)))
          (views (ReadBurst (d_envId env))) with
  | Some result => js_number result
  | None => d_one
  end.

Definition getEnvConcurrency views (env : EnvDescriptor) (c : C) : FairQueueConcurrency * C :=
  let currentValue := getEnvCurrentConcurrency views env in
  let '(limitValue, c) := getEnvConcurrencyLimit views env c in
  let limitBurstFactor := getEnvConcurrencyLimitBurstFactor views env in
  (MkConcurrency currentValue (d_floor (d_mul limitValue limitBurstFactor)), c).

(** The environments of the queues, in the order of their first queue, each with the
    descriptor of its last one; [None] is the error thrown for a missing descriptor. *)
Definition env_ids (queues : list FairQueue) : list string :=
  foldl (λ ids queue, if decide (fq_env queue ∈ ids) then ids else ids ++ [fq_env queue]) [] queues.

Definition env_descriptors (queues : list FairQueue) : gmap string EnvDescriptor :=
  foldl (λ ds queue, <[fq_env queue := envDescriptorFromFairQueue queue]> ds) ∅ queues.

Fixpoint env_concurrencies views (descriptors : gmap string EnvDescriptor) (envIds : list string) (c : C)
    : option (list (string * FairQueueConcurrency)) * C :=
  match envIds with
  | [] => (Some [], c)
  | envId :: envIds =>
      match descriptors !! envId with
      | None => (None, c)
      | Some descriptor =>
          let '(concurrency, c) := getEnvConcurrency views descriptor c in
          let '(envs, c) := env_concurrencies views descriptors envIds c in
          (envs ← envs; Some ((envId, concurrency) :: envs), c)
      end
  end.

Definition at_full_concurrency (concurrency : FairQueueConcurrency) : bool :=
  d_geb (double_of_Z (fc_current concurrency)) (fc_limit concurrency).

(** The snapshot of what Redis holds: the second half of [#createQueueSnapshot]. *)
Definition snapshot_of (queues : list FairQueue) (envs : list (string * FairQueueConcurrency))
    : FairQueueSnapshot :=
  let envIdsAtFullConcurrency := (filter (λ env, at_full_concurrency env.2 = true) envs).*1 in
  MkFairQueueSnapshot
    (filter (λ env, env.1 ∉ envIdsAtFullConcurrency) envs)
    (filter (λ queue, fq_env queue ∉ envIdsAtFullConcurrency) queues).

(** [typeof reuseSnapshotCount === "number" && reuseSnapshotCount > 0]. *)
Definition reuses : bool := match so_reuseSnapshotCount o with Some n => 0 <? n | None => false end.
Definition reuseSnapshotCount : Z := default 0 (so_reuseSnapshotCount o).

Definition snapshot_key (parentQueue consumerId : string) : string := parentQueue +:+ ":" +:+ consumerId.

(** [this._reusedSnapshotForConsumer.set(key, { snapshot, reuseCount })]. *)
Definition keep_snapshot (key : string) (snapshot : FairQueueSnapshot) (reuseCount : Z) m : memory :=
  with_reused (<[key := (snapshot, reuseCount)]> (sm_reusedSnapshotForConsumer m)) m.

(** [#createQueueSnapshot] without a snapshot to reuse; the empty one is not kept. *)
Definition fresh_snapshot views (now : Z) (parentQueue consumerId : string) m
    : option FairQueueSnapshot * memory :=
  match allChildQueuesByScore views now parentQueue with
  | None => (None, m)
  | Some [] => (Some emptyFairQueueSnapshot, m)
  | Some queues =>
      let '(queues, m) :=
        match so_maximumEnvCount o with
        | Some maximumEnvCount =>
            if 0 <? maximumEnvCount then
              let '(selectedEnvIds, g) := selectTopEnvs rng queues maximumEnvCount (sm_rng m) in
              (filter (λ queue, fq_env queue ∈ selectedEnvIds) queues, with_rng g m)
            else (queues, m)
        | None => (queues, m)
        end in
      let '(envs, c) := env_concurrencies views (env_descriptors queues) (env_ids queues) (sm_cache m) in
      let m := with_cache c m in
      match envs with
      | None => (None, m)
      | Some envs =>
          let snapshot := snapshot_of queues envs in
          (Some snapshot,
           if reuses then keep_snapshot (snapshot_key parentQueue consumerId) snapshot 0 m else m)
      end
  end.

(** [#createQueueSnapshot]. *)
Definition createQueueSnapshot views (now : Z) (parentQueue consumerId : string) m
    : option FairQueueSnapshot * memory :=
  let key := snapshot_key parentQueue consumerId in
  match (if reuses then sm_reusedSnapshotForConsumer m !! key else None) with
  | Some (snapshot, reuseCount) =>
      if reuseCount <? reuseSnapshotCount
      then (Some snapshot, keep_snapshot key snapshot (reuseCount + 1) m)
      else fresh_snapshot views now parentQueue consumerId
             (with_reused (delete key (sm_reusedSnapshotForConsumer m)) m)
  | None => fresh_snapshot views now parentQueue consumerId m
  end.

Definition distributeFairQueuesFromParentQueue views (now : Z) (parentQueue consumerId : string) m
    : option (list EnvQueues) * memory :=
  let '(snapshot, m) := createQueueSnapshot views now parentQueue consumerId m in
  match snapshot with
  | None => (None, m)
  | Some snapshot =>
      match fs_queues snapshot with
      | [] => (Some [], m)
      | _ =>
          let '(envQueues, g) := shuffleQueuesByEnv rng pow (so_biases o) snapshot (sm_rng m) in
          (envQueues, with_rng g m)
      end
  end.

End Strategy.

(** [NoopFairDequeuingStrategy]. *)
Definition noop_distributeFairQueuesFromParentQueue (parentQueue consumerId : string) : list EnvQueues :=
  [].
