(* ===== verification/FairQueue.v ===== *)
(** * FairQueue: the methods of the fair queue (fair-queue/index.ts)

    One definition per method of the class, over the world of [FairWorld].  The
    values the process draws from outside are arguments: [now] is [Date.now()],
    [nanoid] the fresh ids of [nanoid()], [random] the value of [Math.random()].
    Telemetry, logging and the timers of the loops are left out; the body of each
    loop is a definition. *)

From Stdlib Require Import SpecFloat.
From S2P Require Import Prelude Text Redis Listing JumpHash FairKeys FairScripts FairRetry Effect.
From S2P Require Import FairWorld FairManagers FairSchedulers.
Local Open Scope Z_scope.
Local Open Scope effect_scope.

(** ** Options *)

Record EnqueueOptions (P : Type) : Type := MkEnqueue {
  eo_queueId : string;
  eo_tenantId : string;
  eo_payload : P;
  eo_messageId : option string;
  eo_timestamp : option Z;
  eo_metadata : option metadata;
}.
Arguments MkEnqueue {P}.
Arguments eo_queueId {P}.
Arguments eo_tenantId {P}.
Arguments eo_payload {P}.
Arguments eo_messageId {P}.
Arguments eo_timestamp {P}.
Arguments eo_metadata {P}.

(** An element of [messages] of [EnqueueBatchOptions], with the id [nanoid] would
    give it. *)
Record BatchMessage (P : Type) : Type := MkBatchMessage {
  bm_nanoid : string;
  bm_payload : P;
  bm_messageId : option string;
  bm_timestamp : option Z;
}.
Arguments MkBatchMessage {P}.
Arguments bm_nanoid {P}.
Arguments bm_payload {P}.
Arguments bm_messageId {P}.
Arguments bm_timestamp {P}.

Record EnqueueBatchOptions (P : Type) : Type := MkEnqueueBatch {
  eb_queueId : string;
  eb_tenantId : string;
  eb_messages : list (BatchMessage P);
  eb_metadata : option metadata;
}.
Arguments MkEnqueueBatch {P}.
Arguments eb_queueId {P}.
Arguments eb_tenantId {P}.
Arguments eb_messages {P}.
Arguments eb_metadata {P}.

(** [FairQueueOptions].  [payloadSchema] is the test [safeParse(payload).success]. *)
Record FairQueueOptions (P db S : Type) : Type := MkFairQueueOptions {
  fo_keys : FairQueueKeyProducer;
  fo_scheduler : FairScheduler db S;
  fo_payloadSchema : option (P → bool);
  fo_validateOnEnqueue : option bool;
  fo_shardCount : option Z;
  fo_concurrencyGroups : list (Concurrency.ConcurrencyGroupConfig db);
  fo_resolveWorkerQueue : StoredMessage P → string;
  fo_retryStrategy : option RetryStrategy;
  fo_deadLetterQueue : option bool;
  fo_visibilityTimeoutMs : option Z;
  fo_heartbeatIntervalMs : option Z;
  fo_batchClaimSize : option Z;
  fo_cooloff_enabled : option bool;
  fo_cooloff_threshold : option Z;
  fo_cooloff_periodMs : option Z;
  fo_cooloff_maxStatesSize : option Z;
  fo_workerQueueMaxDepth : option Z;
  fo_workerQueueDepthCheckId : option string;
}.
Arguments MkFairQueueOptions {P db S}.
Arguments fo_keys {P db S}.
Arguments fo_scheduler {P db S}.
Arguments fo_payloadSchema {P db S}.
Arguments fo_validateOnEnqueue {P db S}.
Arguments fo_shardCount {P db S}.
Arguments fo_concurrencyGroups {P db S}.
Arguments fo_resolveWorkerQueue {P db S}.
Arguments fo_retryStrategy {P db S}.
Arguments fo_deadLetterQueue {P db S}.
Arguments fo_visibilityTimeoutMs {P db S}.
Arguments fo_heartbeatIntervalMs {P db S}.
Arguments fo_batchClaimSize {P db S}.
Arguments fo_cooloff_enabled {P db S}.
Arguments fo_cooloff_threshold {P db S}.
Arguments fo_cooloff_periodMs {P db S}.
Arguments fo_cooloff_maxStatesSize {P db S}.
Arguments fo_workerQueueMaxDepth {P db S}.
Arguments fo_workerQueueDepthCheckId {P db S}.

Section FairQueue.
Context {P X db S : Type} {R : Redis (fq_value P X) db}.
Context (sha256 : string → list Z) (options : FairQueueOptions P db S).
Local Notation M := (FqM db S).
Local Notation V := (fq_value P X).

(** ** Configuration (the constructor) *)

Definition keys : FairQueueKeyProducer := fo_keys options.
Definition scheduler : FairScheduler db S := fo_scheduler options.
Definition shardCount : Z := default 1 (fo_shardCount options).
Definition deadLetterQueueEnabled : bool := default true (fo_deadLetterQueue options).
Definition validateOnEnqueue : bool := default false (fo_validateOnEnqueue options).
Definition visibilityTimeoutMs : Z := default 30000 (fo_visibilityTimeoutMs options).

(** A third of the timeout, in whole milliseconds. *)
Definition heartbeatIntervalMs : Z :=
  default (visibilityTimeoutMs / 3) (fo_heartbeatIntervalMs options).
Definition batchClaimSize : Z := default 10 (fo_batchClaimSize options).
Definition cooloffEnabled : bool := default true (fo_cooloff_enabled options).
Definition cooloffThreshold : Z := default 10 (fo_cooloff_threshold options).
Definition cooloffPeriodMs : Z := default 10000 (fo_cooloff_periodMs options).
Definition maxCooloffStatesSize : Z := default 1000 (fo_cooloff_maxStatesSize options).
Definition workerQueueMaxDepth : Z := default 0 (fo_workerQueueMaxDepth options).

(** [this.concurrencyManager] is set when there are groups. *)
Definition concurrencyManager : option (list (Concurrency.ConcurrencyGroupConfig db)) :=
  match fo_concurrencyGroups options with [] => None | groups => Some groups end.

Definition if_managed {A} (f : list (Concurrency.ConcurrencyGroupConfig db) → M A) (otherwise : M A)
    : M A :=
  match concurrencyManager with Some groups => f groups | None => otherwise end.

Definition releaseConcurrency (descriptor : QueueDescriptor) (messageId : string) : M unit :=
  if_managed (λ groups, Concurrency.release keys groups descriptor messageId) (ret tt).

Definition isAtCapacity (groupName groupId : string) : M bool :=
  if_managed (λ groups, Concurrency.isAtCapacity keys groups groupName groupId) (ret false).

Definition getShardForTenant (tenantId : string) : Z :=
  TenantDispatch.getShardForTenant sha256 shardCount tenantId.

Definition getShardForQueue (queueId : string) : Z :=
  MasterQueue.getShardForQueue sha256 shardCount queueId.

Definition dispatchKeyOf (tenantId : string) : string := dispatchKey keys (getShardForTenant tenantId).

(** ** Enqueueing *)

Definition payload_ok (payload : P) : bool :=
  match fo_payloadSchema options with
  | Some success => negb validateOnEnqueue || success payload
  | None => true
  end.

Definition cache_descriptor (queueId tenantId : string) (md : option metadata) : M unit :=
  q_set (with_descriptors <[queueId := MkQueueDescriptor queueId tenantId (default ∅ md)]>).

(** [storedMessage], with the worker queue of the resolver. *)
Definition new_message (messageId queueId tenantId : string) (payload : P) (timestamp : Z)
    (md : option metadata) : StoredMessage P :=
  let message workerQueue :=
    MkStoredMessage messageId queueId tenantId payload timestamp 1 workerQueue md in
  message (Some (fo_resolveWorkerQueue options (message None))).

Definition enqueue (now : Z) (nanoid : string) (o : EnqueueOptions P) : M string :=
  let messageId := default nanoid (eo_messageId o) in
  let timestamp := default now (eo_timestamp o) in
  if payload_ok (eo_payload o) then
    cache_descriptor (eo_queueId o) (eo_tenantId o) (eo_metadata o) ;;;
    let storedMessage :=
      new_message messageId (eo_queueId o) (eo_tenantId o) (eo_payload o) timestamp (eo_metadata o) in
    q_do (enqueueMessageAtomicV2 (queueKey keys (eo_queueId o)) (queueItemsKey keys (eo_queueId o))
            (tenantQueueIndexKey keys (eo_tenantId o)) (dispatchKeyOf (eo_tenantId o)) (eo_queueId o)
            messageId timestamp (FMsg storedMessage) (eo_tenantId o)) ;;;
    ret messageId
  else throw ValidationFailed.

(** The loop over the messages: the arguments of the script. *)
Fixpoint batch_args (now : Z) (queueId tenantId : string) (md : option metadata)
    (messages : list (BatchMessage P)) : M (list (string * Z * V)) :=
  match messages with
  | [] => ret []
  | message :: messages =>
      let messageId := default (bm_nanoid message) (bm_messageId message) in
      let timestamp := default now (bm_timestamp message) in
      if payload_ok (bm_payload message) then
        args <- batch_args now queueId tenantId md messages ;;
        ret ((messageId, timestamp,
              FMsg (new_message messageId queueId tenantId (bm_payload message) timestamp md)) :: args)
      else throw ValidationFailed
  end.

Definition enqueueBatch (now : Z) (o : EnqueueBatchOptions P) : M (list string) :=
  cache_descriptor (eb_queueId o) (eb_tenantId o) (eb_metadata o) ;;;
  args <- batch_args now (eb_queueId o) (eb_tenantId o) (eb_metadata o) (eb_messages o) ;;
  q_do (enqueueBatchAtomicV2 (queueKey keys (eb_queueId o)) (queueItemsKey keys (eb_queueId o))
          (tenantQueueIndexKey keys (eb_tenantId o)) (dispatchKeyOf (eb_tenantId o)) (eb_queueId o)
          (eb_tenantId o) args) ;;;
  ret ((λ '(messageId, _, _), messageId) <$> args).

(** ** Dead letter queue *)

(** [if (!dataJson)]: a missing field or an empty text. *)
Definition nonempty (v : option V) : option V :=
  match v with Some (FText t) => if truthy t then v else None | _ => v end.

Fixpoint read_dead (dlqDataKey : string) (results : list (string * Z))
    : M (list (DeadLetterMessage P)) :=
  match results with
  | [] => ret []
  | (messageId, deadLetteredAt) :: results =>
      dataJson <- (if truthy messageId then q_get (HGET dlqDataKey messageId) else ret None) ;;
      messages <- read_dead dlqDataKey results ;;
      ret match dataJson ≫= parse_dead with
          | Some m =>
              MkDeadLetterMessage (dl_id m) (dl_queueId m) (dl_tenantId m) (dl_payload m)
                deadLetteredAt (dl_attempts m) (dl_lastError m) (dl_originalTimestamp m) :: messages
          | None => messages
          end
  end.

Definition getDeadLetterMessages (tenantId : string) (limit : option Z)
    : M (list (DeadLetterMessage P)) :=
  if deadLetterQueueEnabled then
    results <- q_get (ZRANGE (deadLetterQueueKey keys tenantId) (default 100 limit - 1)) ;;
    read_dead (deadLetterQueueDataKey keys tenantId) results
  else ret [].

Definition redriveMessage (now : Z) (nanoid tenantId messageId : string) : M bool :=
  if deadLetterQueueEnabled then
    let dlqKey := deadLetterQueueKey keys tenantId in
    let dlqDataKey := deadLetterQueueDataKey keys tenantId in
    dataJson <- q_get (HGET dlqDataKey messageId) ;;
    match nonempty dataJson with
    | None => ret false
    | Some v =>
        match parse_dead v with
        | None => throw ParseError
        | Some dlqMessage =>
            _ <- enqueue now nanoid
                   (MkEnqueue (dl_queueId dlqMessage) (dl_tenantId dlqMessage) (dl_payload dlqMessage)
                      (Some (dl_id dlqMessage)) (Some now) None) ;;
            q_do (ZREM dlqKey messageId) ;;;
            q_do (HDEL dlqDataKey messageId) ;;;
            ret true
        end
    end
  else ret false.

Definition redriveAll (now : Z) (nanoid tenantId : string) : M Z :=
  messages <- getDeadLetterMessages tenantId (Some 1000) ;;
  successes <- collect (λ m, redriveMessage now nanoid tenantId (dl_id m)) messages ;;
  ret (Z.of_nat (length (filter (λ b, b = true) successes))).

Definition purgeDeadLetterQueue (tenantId : string) : M Z :=
  if deadLetterQueueEnabled then
    count <- q_get (ZCARD (deadLetterQueueKey keys tenantId)) ;;
    q_do (DEL_zset (deadLetterQueueKey keys tenantId)) ;;;
    q_do (DEL_hash (deadLetterQueueDataKey keys tenantId)) ;;;
    ret count
  else ret 0.

Definition getDeadLetterQueueLength (tenantId : string) : M Z :=
  if deadLetterQueueEnabled then q_get (ZCARD (deadLetterQueueKey keys tenantId)) else ret 0.

(** ** Inspection *)

Definition getQueueDescriptorCacheSize : M Z := q_mem (λ w, Z.of_nat (size (fw_descriptors w))).
Definition getQueueCooloffStatesSize : M Z := q_mem (λ w, Z.of_nat (size (fw_cooloff w))).

Definition getQueueLength (queueId : string) : M Z := q_get (ZCARD (queueKey keys queueId)).

Definition getTotalQueueCount : M Z :=
  dispatchCount <- TenantDispatch.getTotalTenantCount keys shardCount ;;
  legacyCount <- MasterQueue.getTotalQueueCount keys shardCount ;;
  ret (dispatchCount + legacyCount).

Definition getTotalInflightCount : M Z := Visibility.getTotalInflightCount keys shardCount.

(** ** Cool-off *)

Definition isInCooloff (now : Z) (queueId : string) : M bool :=
  state <- q_mem (λ w, fw_cooloff w !! queueId) ;;
  match state with
  | Some (CoolOff expiresAt) =>
      if expiresAt <=? now then q_set (with_cooloff (delete queueId)) ;;; ret false else ret true
  | _ => ret false
  end.

Definition incrementCooloff (now : Z) (queueId : string) : M unit :=
  q_set (with_cooloff (λ states,
    let states := if maxCooloffStatesSize <=? Z.of_nat (size states) then ∅ else states in
    match default (CoolNormal 0) (states !! queueId) with
    | CoolNormal consecutiveFailures =>
        let newFailures := consecutiveFailures + 1 in
        if cooloffThreshold <=? newFailures
        then <[queueId := CoolOff (now + cooloffPeriodMs)]> states
        else <[queueId := CoolNormal newFailures]> states
    | CoolOff _ => states
    end)).

Definition resetCooloff (queueId : string) : M unit := q_set (with_cooloff (delete queueId)).

Definition forget_queue (queueId : string) : M unit :=
  q_set (with_descriptors (delete queueId)) ;;; q_set (with_cooloff (delete queueId)).

(** ** Indexes *)

Definition updateAllIndexesAfterDequeue (queueId tenantId : string) : M bool :=
  removedFromMaster <- q_run (updateMasterQueueIfEmpty
    (masterQueueKey keys (getShardForQueue queueId)) (queueKey keys queueId) queueId) ;;
  removedFromDispatch <- q_run (updateDispatchIndexes (queueKey keys queueId)
    (tenantQueueIndexKey keys tenantId) (dispatchKeyOf tenantId) queueId tenantId) ;;
  ret ((removedFromMaster =? 1) || (removedFromDispatch =? 1)).

Definition createSchedulerContext (now : Z) : SchedulerContext db S :=
  MkSchedulerContext
    (λ groupName groupId,
       if_managed (λ _, Concurrency.getCurrentConcurrency keys groupName groupId) (ret 0))
    (λ groupName groupId,
       if_managed (λ groups, limit <- Concurrency.getConcurrencyLimit groups groupName groupId ;;
                             ret (Some limit)) (ret None))
    isAtCapacity
    (λ queueId, q_mem (λ w,
       default (MkQueueDescriptor queueId (extractTenantId keys queueId) ∅)
         (fw_descriptors w !! queueId)))
    (λ tenantId limit, TenantDispatch.getQueuesForTenant keys now tenantId limit None).

(** ** Claiming *)

(** The loop over the claimed messages. *)
Fixpoint push_claimed (now : Z) (descriptor : QueueDescriptor) (queueId tenantId : string)
    (claimedMessages : list (Visibility.InFlightMessage P)) : M Z :=
  match claimedMessages with
  | [] => ret 0
  | message :: rest =>
      reserved <- if_managed (λ groups,
        Concurrency.reserve keys groups descriptor (Visibility.if_messageId message)) (ret true) ;;
      if reserved : bool then
        let workerQueueId := fo_resolveWorkerQueue options (Visibility.if_payload message) in
        WorkerQueues.push keys workerQueueId (makeMember (Visibility.if_messageId message) queueId) ;;;
        processedCount <- push_claimed now descriptor queueId tenantId rest ;;
        ret (processedCount + 1)
      else
        Visibility.releaseBatch keys sha256 shardCount now claimedMessages queueId
          (queueKey keys queueId) (queueItemsKey keys queueId) (tenantQueueIndexKey keys tenantId)
          (dispatchKeyOf tenantId) tenantId None ;;;
        ret 0
  end.

(** How many messages may be claimed; [None] where the method returns 0. *)
Definition claim_budget (descriptor : QueueDescriptor) : M (option Z) :=
  capacity <- if_managed (λ groups,
    availableCapacity <- Concurrency.getAvailableCapacity keys groups descriptor ;;
    ret (if availableCapacity =? 0 then None else Some (Z.min batchClaimSize availableCapacity)))
    (ret (Some batchClaimSize)) ;;
  match capacity, fo_workerQueueDepthCheckId options with
  | Some maxClaimCount, Some checkId =>
      if (0 <? workerQueueMaxDepth) && truthy checkId then
        depth <- WorkerQueues.getLength keys checkId ;;
        ret (if workerQueueMaxDepth <=? depth then None
             else Some (Z.min maxClaimCount (workerQueueMaxDepth - depth)))
      else ret (Some maxClaimCount)
  | _, _ => ret capacity
  end.

Definition claimAndPushToWorkerQueue (now : Z) (loopId queueId tenantId : string) : M Z :=
  descriptor <- q_mem (λ w,
    default (MkQueueDescriptor queueId tenantId ∅) (fw_descriptors w !! queueId)) ;;
  budget <- claim_budget descriptor ;;
  match budget with
  | None => ret 0
  | Some maxClaimCount =>
      claimedMessages <- Visibility.claimBatch keys sha256 shardCount visibilityTimeoutMs now queueId
        (queueKey keys queueId) (queueItemsKey keys queueId) loopId maxClaimCount
        (Some visibilityTimeoutMs) ;;
      match claimedMessages with
      | [] =>
          _ <- updateAllIndexesAfterDequeue queueId tenantId ;;
          forget_queue queueId ;;;
          ret 0
      | _ =>
          processedCount <- push_claimed now descriptor queueId tenantId claimedMessages ;;
          (if 0 <? processedCount then resetCooloff queueId else ret tt) ;;;
          ret processedCount
      end
  end.

(** [scheduler.recordProcessedBatch], or [recordProcessed] for each message. *)
Definition record_processed (tenantId queueId : string) (count : Z) : M unit :=
  match sc_recordProcessedBatch scheduler, sc_recordProcessed scheduler with
  | Some recordProcessedBatch, _ => recordProcessedBatch tenantId queueId count
  | None, Some recordProcessed => each (λ _, recordProcessed tenantId queueId) (seqZ 0 count)
  | None, None => ret tt
  end.

(** The inner loop, over the queues of a tenant: the messages processed. *)
Fixpoint process_queues (now : Z) (loopId tenantId : string) (queues : list string) : M Z :=
  match queues with
  | [] => ret 0
  | queueId :: queues =>
      cooloff <- (if cooloffEnabled then isInCooloff now queueId else ret false) ;;
      if cooloff : bool then process_queues now loopId tenantId queues
      else
        full <- isAtCapacity "tenant" tenantId ;;
        if full : bool then ret 0
        else
          processedFromQueue <- claimAndPushToWorkerQueue now loopId queueId tenantId ;;
          (if 0 <? processedFromQueue then record_processed tenantId queueId processedFromQueue
           else ret tt) ;;;
          processed <- process_queues now loopId tenantId queues ;;
          ret (processedFromQueue + processed)
  end.

Definition processSelectedQueues (now : Z) (loopId : string) (tenantQueues : list TenantQueues)
    : M bool :=
  processed <- collect (λ t, process_queues now loopId (tq_tenantId t) (tq_queues t)) tenantQueues ;;
  ret (0 <? foldr Z.add 0 processed).

(** ** Consumer loop *)

(** The tenants that are not at capacity. *)
Fixpoint with_capacity {A} (tenants : list (string * A)) : M (list (string * A)) :=
  match tenants with
  | [] => ret []
  | (tenantId, x) :: tenants =>
      atCapacity <- isAtCapacity "tenant" tenantId ;;
      rest <- with_capacity tenants ;;
      ret (if atCapacity : bool then rest else (tenantId, x) :: rest)
  end.

Fixpoint fallback_tenants (now : Z) (tenants : list (string * Z)) : M (list TenantQueues) :=
  match tenants with
  | [] => ret []
  | (tenantId, _) :: tenants =>
      atCapacity <- isAtCapacity "tenant" tenantId ;;
      if atCapacity : bool then fallback_tenants now tenants
      else
        queues <- TenantDispatch.getQueuesForTenant keys now tenantId None None ;;
        tenantQueues <- fallback_tenants now tenants ;;
        ret match queues with
            | [] => tenantQueues
            | _ => MkTenantQueues tenantId (qs_queueId <$> queues) :: tenantQueues
            end
  end.

Definition fallbackDispatchToLegacyScheduler (now shardId : Z) : M (list TenantQueues) :=
  tenants <- TenantDispatch.getTenantsFromShard keys now shardId None None ;;
  fallback_tenants now tenants.

Definition processDispatchShard (now : Z) (loopId : string) (shardId : Z) : M bool :=
  let schedulerContext := createSchedulerContext now in
  tenantQueues <- match sc_selectQueuesFromDispatch scheduler with
                  | Some selectQueuesFromDispatch =>
                      selectQueuesFromDispatch now (dispatchKey keys shardId) loopId schedulerContext
                  | None => fallbackDispatchToLegacyScheduler now shardId
                  end ;;
  match tenantQueues with
  | [] => ret false
  | _ => processSelectedQueues now loopId tenantQueues
  end.

Definition drainLegacyMasterQueueShard (now : Z) (loopId : string) (shardId : Z) : M bool :=
  results <- q_get (ZRANGEBYSCORE (masterQueueKey keys shardId) now 100) ;;
  let byTenant :=
    groupQueuesByTenant ((λ p, (p.1, extractTenantId keys p.1)) <$>
                           filter (λ p, truthy p.1 = true) results) in
  tenantQueues <- with_capacity byTenant ;;
  match tenantQueues with
  | [] => ret false
  | _ => processSelectedQueues now loopId (toTenantQueuesArray tenantQueues)
  end.

Definition processShardIteration (now : Z) (loopId : string) (shardId : Z) : M bool :=
  hadWork <- processDispatchShard now loopId shardId ;;
  legacyCount <- MasterQueue.getShardQueueCount keys shardId ;;
  if 0 <? legacyCount then
    drainHadWork <- drainLegacyMasterQueueShard now loopId shardId ;;
    ret (hadWork || drainHadWork)
  else ret hadWork.

(** One turn of [#runMasterQueueConsumerLoop]: an error is logged and the loop goes on. *)
Definition master_queue_turn (now : Z) (loopId : string) (shardId : Z) : M bool :=
  catch (processShardIteration now loopId shardId) (λ _, ret false).

(** ** Message lifecycle *)

Definition stored_message (messageId queueId : string) : M (option (StoredMessage P)) :=
  dataJson <- q_get (HGET (inflightDataKey keys (getShardForQueue queueId)) messageId) ;;
  ret (dataJson ≫= parse_message).

Definition getMessageData (messageId queueId : string) : M (option (StoredMessage P)) :=
  stored_message messageId queueId.

Definition heartbeatMessage (now : Z) (messageId queueId : string) : M bool :=
  Visibility.heartbeat keys sha256 shardCount now messageId queueId heartbeatIntervalMs.

(** The descriptor of a message in flight: the cached one, or one from the message. *)
Definition message_descriptor (queueId : string) (m : StoredMessage P) : M QueueDescriptor :=
  q_mem (λ w, default (MkQueueDescriptor queueId (sm_tenantId m) (default ∅ (sm_metadata m)))
               (fw_descriptors w !! queueId)).

Definition descriptor_of (queueId : string) (m : option (StoredMessage P)) : M QueueDescriptor :=
  match m with
  | Some m => message_descriptor queueId m
  | None => ret (MkQueueDescriptor queueId (extractTenantId keys queueId) ∅)
  end.

Definition completeMessage (messageId queueId : string) : M unit :=
  storedMessage <- stored_message messageId queueId ;;
  descriptor <- descriptor_of queueId storedMessage ;;
  Visibility.complete keys sha256 shardCount messageId queueId ;;;
  match storedMessage with
  | Some _ => releaseConcurrency descriptor messageId
  | None => ret tt
  end ;;;
  queueEmpty <- updateAllIndexesAfterDequeue queueId (qd_tenantId descriptor) ;;
  if queueEmpty : bool then forget_queue queueId else ret tt.

(** [visibilityManager.release] with the keys of the descriptor's tenant. *)
Definition release_to_queue (now : Z) (messageId queueId tenantId : string) (score : Z)
    (updatedData : option V) : M unit :=
  Visibility.release keys sha256 shardCount now messageId queueId (queueKey keys queueId)
    (queueItemsKey keys queueId) (tenantQueueIndexKey keys tenantId) (dispatchKeyOf tenantId) tenantId
    (Some score) updatedData.

Definition releaseMessage (now : Z) (messageId queueId : string) : M unit :=
  storedMessage <- stored_message messageId queueId ;;
  descriptor <- descriptor_of queueId storedMessage ;;
  release_to_queue now messageId queueId (qd_tenantId descriptor) now None ;;;
  match storedMessage with
  | Some _ => releaseConcurrency descriptor messageId
  | None => ret tt
  end.

Definition moveToDeadLetterQueue (now : Z) (m : StoredMessage P) (errorMessage : option string)
    : M unit :=
  if deadLetterQueueEnabled then
    let dlqMessage :=
      MkDeadLetterMessage (sm_id m) (sm_queueId m) (sm_tenantId m) (sm_payload m) now (sm_attempt m)
        errorMessage (sm_timestamp m) in
    Visibility.complete keys sha256 shardCount (sm_id m) (sm_queueId m) ;;;
    q_do (ZADD (deadLetterQueueKey keys (sm_tenantId m)) now (sm_id m)) ;;;
    q_do (HSET (deadLetterQueueDataKey keys (sm_tenantId m)) (sm_id m) (FDead dlqMessage))
  else Visibility.complete keys sha256 shardCount (sm_id m) (sm_queueId m).

(** [{ ...storedMessage, attempt: storedMessage.attempt + 1 }]. *)
Definition next_attempt (m : StoredMessage P) : StoredMessage P :=
  MkStoredMessage (sm_id m) (sm_queueId m) (sm_tenantId m) (sm_payload m) (sm_timestamp m)
    (sm_attempt m + 1) (sm_workerQueue m) (sm_metadata m).

Definition handleMessageFailure (now : Z) (random : spec_float) (m : StoredMessage P)
    (queueId : string) (descriptor : QueueDescriptor) (error : option string) : M unit :=
  match fo_retryStrategy options ≫= λ r, getNextDelay r random (sm_attempt m) with
  | Some nextDelay =>
      match nextDelay with
      | Some nextDelay =>
          release_to_queue now (sm_id m) queueId (qd_tenantId descriptor) (now + nextDelay)
            (Some (FMsg (next_attempt m)))
      | None => Visibility.release_raises keys sha256 shardCount (sm_id m) queueId
      end ;;;
      releaseConcurrency descriptor (sm_id m)
  | None =>
      moveToDeadLetterQueue now m error ;;;
      releaseConcurrency descriptor (sm_id m)
  end.

Definition failMessage (now : Z) (random : spec_float) (messageId queueId : string)
    (error : option string) : M unit :=
  storedMessage <- stored_message messageId queueId ;;
  match storedMessage with
  | None => ret tt
  | Some m =>
      descriptor <- message_descriptor queueId m ;;
      handleMessageFailure now random m queueId descriptor error
  end.

(** ** Reclaim loop *)

Definition getQueueKeys (queueId : string) : Visibility.queue_keys :=
  let tenantId := extractTenantId keys queueId in
  Visibility.MkQueueKeys (queueKey keys queueId) (queueItemsKey keys queueId)
    (tenantQueueIndexKey keys tenantId) (dispatchKeyOf tenantId) tenantId.

Definition reclaim_shard (now shardId : Z) : M Z :=
  reclaimedMessages <- Visibility.reclaimTimedOut keys now shardId getQueueKeys ;;
  match reclaimedMessages with
  | [] => ret tt
  | _ =>
      if_managed (λ groups,
        catch (Concurrency.releaseBatch keys groups
          ((λ msg, (MkQueueDescriptor (Visibility.rc_queueId msg) (Visibility.rc_tenantId msg)
                      (default ∅ (Visibility.rc_metadata msg)), Visibility.rc_messageId msg))
           <$> reclaimedMessages)) (λ _, ret tt)) (ret tt)
  end ;;;
  ret (Z.of_nat (length reclaimedMessages)).

Definition reclaimTimedOutMessages (now : Z) : M Z :=
  reclaimed <- collect (reclaim_shard now) (seqZ 0 shardCount) ;;
  ret (foldr Z.add 0 reclaimed).

(** One turn of [#runReclaimLoop]. *)
Definition reclaim_turn (now : Z) : M Z := catch (reclaimTimedOutMessages now) (λ _, ret 0).

End FairQueue.
