(* ===== verification/FairSystem.v ===== *)
(** * FairSystem: the fair queue as a transition system

    The state of a message ([mstate]) is where it waits, whether it is in flight and
    whether it is a dead letter.  [fq_step] is the step relation of the database: one
    rule per command or Lua script of the fair queue, labelled with what it does to
    messages ([mop]).  The refinement lemma shows that a script does to the state of
    every message what its label says, and nothing else; the invariants are proved
    on the rules.

    [home] is the queue of a message: ids are unique across the queues.  A message
    id has no ":" (the ids of [nanoid] have none), since members of the in-flight
    sets are split at the first ":". *)

From S2P Require Import Prelude Text Redis Listing FairKeys FairScripts.
Local Open Scope Z_scope.

#[export] Instance fz_eq_dec : EqDecision fz.
Proof. solve_decision. Defined.
#[export] Instance fh_eq_dec : EqDecision fh.
Proof. solve_decision. Defined.

(** ** Messages *)

Section Messages.
Context {V : Type}.

Record mstate : Type := MState {
  ms_wait : option Z;     (* the score in its queue *)
  ms_item : option V;     (* the payload in the hash of the queue *)
  ms_fly : option Z;      (* the deadline in the in-flight set *)
  ms_data : option V;     (* the payload in the in-flight hash *)
  ms_grave : option Z;    (* the score in the dead letter queue *)
  ms_dead : option V;     (* the dead letter *)
}.

Definition absent : mstate := MState None None None None None None.

(** What a command does to a message. *)
Inductive mop : Type :=
| Put (score : Z) (v : V)                    (* enqueued *)
| Claim (deadline : Z)                       (* taken from its queue *)
| Return (score : Z) (updated : option V)    (* put back into its queue *)
| Extend (deadline : Z)                      (* heartbeat *)
| Unlink                                     (* removed from the in-flight set *)
| Forget                                     (* removed from the in-flight hash *)
| Bury (score : Z)                           (* added to the dead letter queue *)
| Inter (v : V)                              (* written as a dead letter *)
| Exhume                                     (* removed from the dead letter queue *)
| Unearth.                                   (* removed from the dead letters *)

Definition mapply (o : mop) (σ : mstate) : mstate :=
  let 'MState w i f d g e := σ in
  match o with
  | Put z v => MState (Some z) (Some v) f d g e
  | Claim dl =>
      match i with
      | Some v => MState None None (Some dl) (Some v) g e
      | None => MState None None f d g e
      end
  | Return z u =>
      match d with
      | Some v => MState (Some z) (Some (default v u)) None None g e
      | None => σ
      end
  | Extend dl => MState w i ((λ _, dl) <$> f) d g e
  | Unlink => MState w i None d g e
  | Forget => MState w i f None g e
  | Bury z => MState w i f d (Some z) e
  | Inter v => MState w i f d g (Some v)
  | Exhume => MState w i f d None e
  | Unearth => MState w i f d g None
  end.

(** The effect of a labelled step on the message [m]. *)
Definition acts (m : string) (ops : list (string * mop)) (σ : mstate) : mstate :=
  foldl (λ σ p, if decide (p.1 = m) then mapply p.2 σ else σ) σ ops.

Lemma acts_cons m p ops σ :
  acts m (p :: ops) σ = acts m ops (if decide (p.1 = m) then mapply p.2 σ else σ).
Proof. done. Qed.

Lemma acts_then m p ops σ : acts m (p :: ops) σ = acts m ops (acts m [p] σ).
Proof. done. Qed.

Lemma acts_app m ops ops' σ : acts m (ops ++ ops') σ = acts m ops' (acts m ops σ).
Proof. apply foldl_app. Qed.

Lemma acts_notin m ops σ : m ∉ ops.*1 → acts m ops σ = σ.
Proof.
  revert σ. induction ops as [|[m' o] ops IH]; intros σ Hm; [done|]. cbn in Hm.
  apply not_elem_of_cons in Hm as [Hne Hm]. rewrite acts_cons. cbn [fst].
  rewrite decide_False by congruence. by apply IH.
Qed.

Lemma acts_in m o ops σ : NoDup ops.*1 → (m, o) ∈ ops → acts m ops σ = mapply o σ.
Proof.
  revert σ. induction ops as [|[m' o'] ops IH]; intros σ Hnd Hin; [by apply elem_of_nil in Hin|].
  cbn in Hnd. apply NoDup_cons in Hnd as [Hm Hnd]. rewrite acts_cons. cbn [fst snd].
  apply elem_of_cons in Hin as [[= <- <-]|Hin].
  - rewrite decide_True by done. by apply acts_notin.
  - rewrite decide_False; [by apply IH|]. intros ->. apply Hm. apply list_elem_of_fmap. by exists (m, o).
Qed.

(** A message that the queue will deliver, or deliver again. *)
Definition live (σ : mstate) : Prop :=
  (is_Some (ms_wait σ) ∧ is_Some (ms_item σ)) ∨ (is_Some (ms_fly σ) ∧ is_Some (ms_data σ)).

(** Operations that end the delivery of a message. *)
Definition ends (o : mop) : Prop := o = Unlink ∨ o = Forget.

Lemma live_mapply o σ : ¬ ends o → live σ → live (mapply o σ).
Proof.
  destruct σ as [w i f d g e]. unfold ends, live. intros Ho.
  destruct o; simpl; try naive_solver.
  - destruct i; simpl; naive_solver.
  - destruct d; simpl; naive_solver.
  - destruct f; simpl; naive_solver.
Qed.

Lemma live_acts m ops σ : Forall (λ p, p.1 = m → ¬ ends p.2) ops → live σ → live (acts m ops σ).
Proof.
  intros Hops. revert σ. induction Hops as [|p ops Hp _ IH]; intros σ Hσ; [done|].
  rewrite acts_cons. apply IH. case_decide; [by apply live_mapply, Hσ; auto|done].
Qed.

(** Deliveries: the claims that take a payload. *)
Definition delivers (o : mop) (σ : mstate) : bool :=
  match o with Claim _ => bool_decide (is_Some (ms_item σ)) | _ => false end.

Fixpoint deliveries (ops : list mop) (σ : mstate) : nat :=
  match ops with
  | [] => 0
  | o :: ops => (if delivers o σ then 1 else 0) + deliveries ops (mapply o σ)
  end.

(** The operations that make a message available. *)
Definition provides (o : mop) : bool := match o with Put _ _ | Return _ _ => true | _ => false end.

Definition on_message (m : string) (ops : list (string * mop)) : list mop :=
  snd <$> filter (λ p, p.1 = m) ops.

(** A message is delivered at most once per time it is made available. *)
Lemma deliveries_bound ops σ :
  (deliveries ops σ ≤ length (filter provides ops) +
                      (if bool_decide (is_Some (ms_item σ)) then 1 else 0))%nat.
Proof.
  revert σ. induction ops as [|o ops IH]; intros [w i f d g e]; [simpl; lia|].
  cbn [deliveries]. specialize (IH (mapply o (MState w i f d g e))). revert IH.
  rewrite filter_cons. destruct o; simpl; try (destruct d); try (destruct i); simpl; lia.
Qed.

End Messages.
Arguments mstate : clear implicits.
Arguments mop : clear implicits.

(** ** Views *)

(** What is known of the message of an id: its queue, and its payload. *)
Record homes (P : Type) : Type := MkHomes {
  home_of :> string → string;
  pay : string → P → Prop;
}.
Arguments MkHomes {P}.
Arguments home_of {P}.
Arguments pay {P}.

Section System.
Context {P X db : Type} {R : Redis (fq_value P X) db} {L : RedisLaws R}.
Context (K : FairQueueKeyProducer) {KL : FairKeyLaws K}.
Context (home : homes P) (shard shardT : string → Z).
Implicit Types (s t : db).
Local Notation V := (fq_value P X).
Local Notation tenant := (extractTenantId K).

Definition zv (z : fz) (s : db) : gmap string Z := ZALL (fz_key K z) s.
Definition hv (h : fh) (s : db) : gmap string V := HALL (fh_key K h) s.

Lemma zv_ZADD z z' x m s :
  zv z' (ZADD (fz_key K z) x m s) = if decide (z = z') then <[m := x]> (zv z' s) else zv z' s.
Proof.
  unfold zv. rewrite ZALL_ZADD. destruct (decide (z = z')) as [->|Hne];
    [by rewrite decide_True|by rewrite decide_False by (intros ?; apply Hne; by apply (inj (fz_key K)))].
Qed.

Lemma zv_ZREM z z' m s :
  zv z' (ZREM (fz_key K z) m s) = if decide (z = z') then delete m (zv z' s) else zv z' s.
Proof.
  unfold zv. rewrite ZALL_ZREM. destruct (decide (z = z')) as [->|Hne];
    [by rewrite decide_True|by rewrite decide_False by (intros ?; apply Hne; by apply (inj (fz_key K)))].
Qed.

Lemma zv_HSET k f v z s : zv z (HSET k f v s) = zv z s.
Proof. apply ZALL_HSET. Qed.
Lemma zv_HDEL k f z s : zv z (HDEL k f s) = zv z s.
Proof. apply ZALL_HDEL. Qed.
Lemma hv_ZADD k x m h s : hv h (ZADD k x m s) = hv h s.
Proof. apply HALL_ZADD. Qed.
Lemma hv_ZREM k m h s : hv h (ZREM k m s) = hv h s.
Proof. apply HALL_ZREM. Qed.

Lemma hv_HSET h h' f v s :
  hv h' (HSET (fh_key K h) f v s) = if decide (h = h') then <[f := v]> (hv h' s) else hv h' s.
Proof.
  unfold hv. rewrite HALL_HSET. destruct (decide (h = h')) as [->|Hne];
    [by rewrite decide_True|by rewrite decide_False by (intros ?; apply Hne; by apply (inj (fh_key K)))].
Qed.

Lemma hv_HDEL h h' f s :
  hv h' (HDEL (fh_key K h) f s) = if decide (h = h') then delete f (hv h' s) else hv h' s.
Proof.
  unfold hv. rewrite HALL_HDEL. destruct (decide (h = h')) as [->|Hne];
    [by rewrite decide_True|by rewrite decide_False by (intros ?; apply Hne; by apply (inj (fh_key K)))].
Qed.

(** ** Well-typed entries *)

(** Ids of messages. *)
Definition wf_id (m : string) : Prop := has_char ":" m = false ∧ truthy m = true.

Definition msg_ok (m : string) (v : V) : Prop :=
  ∃ sm, v = FMsg sm ∧ sm_id sm = m ∧ sm_queueId sm = home m ∧ sm_tenantId sm = tenant (home m) ∧
    1 ≤ sm_attempt sm ∧ pay home m (sm_payload sm).

Definition dead_ok (m : string) (v : V) : Prop :=
  ∃ d, v = FDead d ∧ dl_id d = m ∧ dl_queueId d = home m ∧ dl_tenantId d = tenant (home m) ∧
    pay home m (dl_payload d).

(** A member of the in-flight set, and of the worker queues. *)
Definition member_ok (e : string) : Prop := ∃ m, e = makeMember m (home m) ∧ wf_id m.

Definition z_ok (z : fz) (m : string) : Prop :=
  match z with
  | FzMaster _ => True
  | FzQueue q => home m = q ∧ wf_id m
  | FzInflight n => ∃ id, m = makeMember id (home id) ∧ wf_id id ∧ n = shard (home id)
  | FzDispatch n => n = shardT m
  | FzTenant t => tenant m = t
  | FzDead t => wf_id m ∧ tenant (home m) = t
  end.

Definition h_ok (h : fh) (m : string) (v : V) : Prop :=
  match h with
  | FhItems q => home m = q ∧ wf_id m ∧ msg_ok m v
  | FhData n => n = shard (home m) ∧ wf_id m ∧ msg_ok m v
  | FhDead t => tenant (home m) = t ∧ wf_id m ∧ dead_ok m v
  end.

Record typed (s : db) : Prop := Typed {
  typed_z z m x : zv z s !! m = Some x → z_ok z m;
  typed_h h m v : hv h s !! m = Some v → h_ok h m v;
  typed_l w e : e ∈ LALL (workerQueueKey K w) s → member_ok e;
}.

(** Commands on the sorted sets and hashes of the queue that keep them well typed. *)
Inductive write : db → db → Prop :=
| write_zadd z x m s : z_ok z m → write s (ZADD (fz_key K z) x m s)
| write_zrem z m s : write s (ZREM (fz_key K z) m s)
| write_hset h f v s : h_ok h f v → write s (HSET (fh_key K h) f v s)
| write_hdel h f s : write s (HDEL (fh_key K h) f s).

Definition writes : db → db → Prop := rtc write.

Lemma write_SMEMBERS s t k : write s t → SMEMBERS k t = SMEMBERS k s.
Proof. destruct 1; by redis_simpl. Qed.
Lemma write_LALL s t k : write s t → LALL k t = LALL k s.
Proof. destruct 1; by redis_simpl. Qed.
Lemma writes_SMEMBERS s t k : writes s t → SMEMBERS k t = SMEMBERS k s.
Proof. induction 1 as [|s t u H _ IH]; [done|]. by rewrite IH, (write_SMEMBERS _ _ _ H). Qed.
Lemma write_GET s t k : write s t → GET k t = GET k s.
Proof. destruct 1; by redis_simpl. Qed.
Lemma writes_GET s t k : writes s t → GET k t = GET k s.
Proof. induction 1 as [|s t u H _ IH]; [done|]. by rewrite IH, (write_GET _ _ _ H). Qed.
Lemma writes_LALL s t k : writes s t → LALL k t = LALL k s.
Proof. induction 1 as [|s t u H _ IH]; [done|]. by rewrite IH, (write_LALL _ _ _ H). Qed.

Lemma write_typed s t : write s t → typed s → typed t.
Proof.
  intros Hw Hs. pose proof (λ k, write_LALL _ _ k Hw) as Hl. split.
  - intros z m x. destruct Hw.
    + rewrite zv_ZADD. case_decide; [subst|by apply Hs].
      rewrite lookup_insert_Some. intros [[-> _]|[_ ?]]; [done|by eapply Hs].
    + rewrite zv_ZREM. case_decide; [rewrite lookup_delete_Some; intros [_ ?]|]; by eapply Hs.
    + rewrite zv_HSET. apply Hs.
    + rewrite zv_HDEL. apply Hs.
  - intros h m v. destruct Hw.
    + rewrite hv_ZADD. apply Hs.
    + rewrite hv_ZREM. apply Hs.
    + rewrite hv_HSET. case_decide; [subst|by apply Hs].
      rewrite lookup_insert_Some. intros [[<- <-]|[_ ?]]; [done|by eapply Hs].
    + rewrite hv_HDEL. case_decide; [rewrite lookup_delete_Some; intros [_ ?]|]; by eapply Hs.
  - intros w e. rewrite Hl. apply Hs.
Qed.

Lemma writes_typed s t : writes s t → typed s → typed t.
Proof. induction 1; eauto using write_typed. Qed.

End System.
