(* ===== verification/FairSteps.v ===== *)
(** * FairSteps: the scripts of the fair queue refine the states of messages

    [mview m s] is the state of the message [m] in the database [s].  For every
    script: what it does to every message, that its writes are well typed, and (in
    [FairLevels]) that the two index levels stay right. *)

From S2P Require Import Prelude Text Redis Listing SimpleQueue FairKeys FairScripts FairSystem.
Local Open Scope Z_scope.

(** Keys as values of [fz] and [fh]. *)
Ltac fold_keys K :=
  repeat match goal with
  | |- context [masterQueueKey K ?n] => change (masterQueueKey K n) with (fz_key K (FzMaster n))
  | |- context [queueKey K ?q] => change (queueKey K q) with (fz_key K (FzQueue q))
  | |- context [inflightKey K ?n] => change (inflightKey K n) with (fz_key K (FzInflight n))
  | |- context [dispatchKey K ?n] => change (dispatchKey K n) with (fz_key K (FzDispatch n))
  | |- context [tenantQueueIndexKey K ?t] =>
      change (tenantQueueIndexKey K t) with (fz_key K (FzTenant t))
  | |- context [deadLetterQueueKey K ?t] => change (deadLetterQueueKey K t) with (fz_key K (FzDead t))
  | |- context [queueItemsKey K ?q] => change (queueItemsKey K q) with (fh_key K (FhItems q))
  | |- context [inflightDataKey K ?n] => change (inflightDataKey K n) with (fh_key K (FhData n))
  | |- context [deadLetterQueueDataKey K ?t] =>
      change (deadLetterQueueDataKey K t) with (fh_key K (FhDead t))
  end.

(** Decide equalities of keys of different kinds, split on the others. *)
Ltac key_cases :=
  repeat match goal with
  | |- context [decide (?a = ?b)] =>
      first [ rewrite (decide_False (P := a = b)) by discriminate
            | rewrite (decide_True (P := a = b)) by reflexivity
            | destruct (decide (a = b)); simplify_eq ]
  end.

Section Steps.
Context {P X db : Type} {R : Redis (fq_value P X) db} {L : RedisLaws R}.
Context (K : FairQueueKeyProducer) {KL : FairKeyLaws K}.
Context (home : homes P) (shard shardT : string → Z).
Implicit Types (s : db).
Local Notation V := (fq_value P X).
Local Notation tenant := (extractTenantId K).
Local Notation zv := (zv K).
Local Notation hv := (hv K).

Definition mview (m : string) (s : db) : mstate V :=
  MState (zv (FzQueue (home m)) s !! m) (hv (FhItems (home m)) s !! m)
    (zv (FzInflight (shard (home m))) s !! makeMember m (home m))
    (hv (FhData (shard (home m))) s !! m)
    (zv (FzDead (tenant (home m))) s !! m) (hv (FhDead (tenant (home m))) s !! m).

Lemma makeMember_inj m q m' q' :
  wf_id m → wf_id m' → makeMember m q = makeMember m' q' → m = m' ∧ q = q'.
Proof. intros [Hm _] [Hm' _]. unfold makeMember. by apply sep_inj. Qed.

Local Ltac views :=
  fold_keys K;
  repeat first [ rewrite (zv_ZADD K) | rewrite (zv_ZREM K) | rewrite (zv_HSET K) | rewrite (zv_HDEL K)
               | rewrite (hv_ZADD K) | rewrite (hv_ZREM K) | rewrite (hv_HSET K) | rewrite (hv_HDEL K) ];
  key_cases.

Local Ltac look :=
  repeat first [ rewrite lookup_insert_eq | rewrite lookup_delete_eq
               | rewrite lookup_insert_ne by done | rewrite lookup_delete_ne by done ].

Lemma mview_store q m z v m' s :
  home m = q → wf_id m → wf_id m' →
  mview m' (store_message (queueKey K q) (queueItemsKey K q) m z v s) =
  acts m' [(m, Put z v)] (mview m' s).
Proof.
  intros Hq Hm Hm'. unfold acts, store_message, mview. simpl. views; look; done.
Qed.

Lemma mview_claim_one q m d v m' s :
  home m = q → wf_id m → wf_id m' → hv (FhItems q) s !! m = Some v →
  mview m' (claim_one (queueKey K q) (queueItemsKey K q) (inflightKey K (shard q))
              (inflightDataKey K (shard q)) q d m v s) =
  acts m' [(m, Claim d)] (mview m' s).
Proof.
  intros Hq Hm Hm' Hv. unfold acts, claim_one, mview. simpl.
  destruct (decide (m = m')) as [<-|Hne].
  - subst q. simpl. rewrite Hv. views; look; done.
  - assert (makeMember m q ≠ makeMember m' (home m')) by (by intros [? _]%makeMember_inj).
    views; look; done.
Qed.

Lemma mview_drop q m d m' s :
  home m = q → hv (FhItems q) s !! m = None →
  mview m' (ZREM (queueKey K q) m s) = acts m' [(m, Claim d)] (mview m' s).
Proof.
  intros Hq Hv. unfold acts, mview. simpl. destruct (decide (m = m')) as [<-|Hne].
  - subst q. simpl. rewrite Hv. views; look. by rewrite Hv.
  - views; look; done.
Qed.

Lemma mview_claim_loop q d items m' s :
  Forall (λ p, home p.1 = q ∧ wf_id p.1) items → wf_id m' →
  mview m' (claim_loop (queueKey K q) (queueItemsKey K q) (inflightKey K (shard q))
              (inflightDataKey K (shard q)) q d items s).2 =
  acts m' ((λ p, (p.1, Claim d)) <$> items) (mview m' s).
Proof.
  intros Hit Hm'. revert s. induction Hit as [|[m z] items [Hq Hm] _ IH]; intros s; [done|].
  rewrite fmap_cons, acts_then. cbn [fst].
  cbn [claim_loop]. destruct (HGET (queueItemsKey K q) m s) as [v|] eqn:E.
  - rewrite <- (mview_claim_one q m d v) by done. rewrite <- IH. by destruct (claim_loop _ _ _ _ _ _ _ _).
  - by rewrite <- (mview_drop q), <- IH.
Qed.

Lemma mview_release_one q m z v m' s :
  home m = q → wf_id m → wf_id m' →
  mview m' (release_one (inflightKey K (shard q)) (inflightDataKey K (shard q)) (queueKey K q)
              (queueItemsKey K q) (makeMember m q) m z v s) =
  if decide (m = m')
  then MState (Some z) (Some v) None None (ms_grave (mview m' s)) (ms_dead (mview m' s))
  else mview m' s.
Proof.
  intros Hq Hm Hm'. unfold release_one, mview. simpl.
  destruct (decide (m = m')) as [<-|Hne].
  - subst q. views; look; done.
  - assert (makeMember m q ≠ makeMember m' (home m')) by (by intros [? _]%makeMember_inj).
    views; look; done.
Qed.

Lemma mview_zadd_index z x n m s :
  (∃ tn, z = FzTenant tn) ∨ (∃ k, z = FzDispatch k) ∨ (∃ k, z = FzMaster k) →
  mview m (ZADD (fz_key K z) x n s) = mview m s.
Proof.
  intros Hz. unfold mview. destruct Hz as [[? ->]|[[? ->]|[? ->]]]; views; done.
Qed.

Lemma mview_zrem_index z n m s :
  (∃ tn, z = FzTenant tn) ∨ (∃ k, z = FzDispatch k) ∨ (∃ k, z = FzMaster k) →
  mview m (ZREM (fz_key K z) n s) = mview m s.
Proof.
  intros Hz. unfold mview. destruct Hz as [[? ->]|[[? ->]|[? ->]]]; views; done.
Qed.

Lemma mview_rebalance_add z c n m s :
  (∃ tn, z = FzTenant tn) ∨ (∃ k, z = FzDispatch k) ∨ (∃ k, z = FzMaster k) →
  mview m (rebalance_add (fz_key K z) c n s) = mview m s.
Proof.
  intros Hz. destruct (rebalance_add_cases (fz_key K z) c n s) as [[_ ->]|(p & _ & ->)]; [done|].
  by apply mview_zadd_index.
Qed.

Lemma mview_relist q tn n q' t' m s :
  mview m (relist (queueKey K q) (tenantQueueIndexKey K tn) (dispatchKey K n) q' t' s) = mview m s.
Proof. unfold relist. fold_keys K. rewrite !mview_rebalance_add; eauto. Qed.

(** ** Scripts *)

Lemma mview_store_messages q args m' s :
  Forall (λ '(m, _, _), home m = q ∧ wf_id m) args → wf_id m' →
  mview m' (store_messages (queueKey K q) (queueItemsKey K q) args s) =
  acts m' ((λ '(m, z, v), (m, Put z v)) <$> args) (mview m' s).
Proof.
  intros Ha Hm'. revert s. induction Ha as [|[[m z] v] args [Hq Hm] _ IH]; intros s; [done|].
  rewrite fmap_cons, acts_then. cbn [store_messages foldl].
  by rewrite <- (mview_store q m z v), <- IH.
Qed.

Lemma mview_releaseMessage q m z u tn n t' m' s :
  home m = q → wf_id m → wf_id m' →
  mview m' (releaseMessage (inflightKey K (shard q)) (inflightDataKey K (shard q)) (queueKey K q)
              (queueItemsKey K q) (tenantQueueIndexKey K tn) (dispatchKey K n) (makeMember m q) m z q u
              t' s).2 =
  acts m' [(m, Return z u)] (mview m' s).
Proof.
  intros Hq Hm Hm'. unfold releaseMessage, HGET.
  destruct (HALL _ s !! m) as [v|] eqn:E; cbn [snd].
  - rewrite mview_relist, mview_release_one by done. unfold acts. simpl.
    destruct (decide (m = m')) as [<-|]; [|done]. subst q. unfold mview, FairSystem.hv. simpl.
    by rewrite E.
  - unfold acts. simpl. destruct (decide (m = m')) as [<-|]; [|done]. subst q.
    unfold mview, FairSystem.hv. simpl. by rewrite E.
Qed.

Lemma mview_release_loop q z ms m' s :
  Forall (λ m, home m = q ∧ wf_id m) ms → wf_id m' →
  mview m' (release_loop (inflightKey K (shard q)) (inflightDataKey K (shard q)) (queueKey K q)
              (queueItemsKey K q) z ((λ m, (makeMember m q, m)) <$> ms) s).2 =
  acts m' ((λ m, (m, Return z None)) <$> ms) (mview m' s).
Proof.
  intros Hms Hm'. revert s. induction Hms as [|m ms [Hq Hm] _ IH]; intros s; [done|].
  rewrite !fmap_cons, acts_then. cbn [release_loop].
  destruct (HGET (inflightDataKey K (shard q)) m s) as [v|] eqn:E.
  - assert (acts m' [(m, Return z None)] (mview m' s) =
            mview m' (release_one (inflightKey K (shard q)) (inflightDataKey K (shard q)) (queueKey K q)
                        (queueItemsKey K q) (makeMember m q) m z v s)) as ->.
    { rewrite mview_release_one by done. unfold acts. simpl.
      destruct (decide (m = m')) as [<-|]; [|done]. subst q. unfold mview, FairSystem.hv. simpl. unfold HGET in E.
      by rewrite E. }
    rewrite <- IH. by destruct (release_loop _ _ _ _ _ _ _).
  - assert (acts m' [(m, Return z None)] (mview m' s) = mview m' s) as ->; [|by rewrite <- IH].
    unfold acts. simpl. destruct (decide (m = m')) as [<-|]; [|done]. subst q. unfold mview, FairSystem.hv. simpl.
    unfold HGET in E. by rewrite E.
Qed.

Lemma mview_releaseMessageBatch q z ms tn n t' m' s :
  Forall (λ m, home m = q ∧ wf_id m) ms → wf_id m' →
  mview m' (releaseMessageBatch (inflightKey K (shard q)) (inflightDataKey K (shard q)) (queueKey K q)
              (queueItemsKey K q) (tenantQueueIndexKey K tn) (dispatchKey K n) z q t'
              ((λ m, (makeMember m q, m)) <$> ms) s).2 =
  acts m' ((λ m, (m, Return z None)) <$> ms) (mview m' s).
Proof.
  intros Hms Hm'. rewrite <- (mview_release_loop q) by done. unfold releaseMessageBatch.
  destruct (release_loop _ _ _ _ _ _ _) as [c s']. case_match; cbn [snd]; [|done].
  by rewrite mview_relist.
Qed.

Lemma mview_heartbeat m d m' s :
  wf_id m → wf_id m' →
  mview m' (heartbeatMessage (inflightKey K (shard (home m))) (makeMember m (home m)) d s).2 =
  acts m' [(m, Extend d)] (mview m' s).
Proof.
  intros Hm Hm'. unfold heartbeatMessage, ZADD_XX, ZSCORE. unfold acts. simpl.
  destruct (ZALL _ s !! _) as [x|] eqn:E; cbn [snd]; destruct (decide (m = m')) as [<-|Hne].
  - unfold mview. simpl. views; look. unfold FairSystem.zv. simpl. by rewrite E.
  - assert (makeMember m (home m) ≠ makeMember m' (home m')) by (by intros [? _]%makeMember_inj).
    unfold mview. views; look; done.
  - unfold mview. simpl. unfold FairSystem.zv. simpl. by rewrite E.
  - done.
Qed.

Lemma mview_unlink m m' s :
  wf_id m → wf_id m' →
  mview m' (ZREM (inflightKey K (shard (home m))) (makeMember m (home m)) s) =
  acts m' [(m, Unlink)] (mview m' s).
Proof.
  intros Hm Hm'. unfold acts, mview. simpl. destruct (decide (m = m')) as [<-|Hne].
  - views; look; done.
  - assert (makeMember m (home m) ≠ makeMember m' (home m')) by (by intros [? _]%makeMember_inj).
    views; look; done.
Qed.

Lemma mview_forget m m' s :
  mview m' (HDEL (inflightDataKey K (shard (home m))) m s) = acts m' [(m, Forget)] (mview m' s).
Proof. unfold acts, mview. simpl. destruct (decide (m = m')) as [<-|Hne]; views; look; done. Qed.

Lemma mview_bury m z m' s :
  mview m' (ZADD (deadLetterQueueKey K (tenant (home m))) z m s) = acts m' [(m, Bury z)] (mview m' s).
Proof. unfold acts, mview. simpl. destruct (decide (m = m')) as [<-|Hne]; views; look; done. Qed.

Lemma mview_inter m v m' s :
  mview m' (HSET (deadLetterQueueDataKey K (tenant (home m))) m v s) =
  acts m' [(m, Inter v)] (mview m' s).
Proof. unfold acts, mview. simpl. destruct (decide (m = m')) as [<-|Hne]; views; look; done. Qed.

Lemma mview_exhume m m' s :
  mview m' (ZREM (deadLetterQueueKey K (tenant (home m))) m s) = acts m' [(m, Exhume)] (mview m' s).
Proof. unfold acts, mview. simpl. destruct (decide (m = m')) as [<-|Hne]; views; look; done. Qed.

Lemma mview_unearth m m' s :
  mview m' (HDEL (deadLetterQueueDataKey K (tenant (home m))) m s) =
  acts m' [(m, Unearth)] (mview m' s).
Proof. unfold acts, mview. simpl. destruct (decide (m = m')) as [<-|Hne]; views; look; done. Qed.

Lemma mview_updateMasterQueueIfEmpty n q m s :
  mview m (updateMasterQueueIfEmpty (masterQueueKey K n) (queueKey K q) q s).2 = mview m s.
Proof.
  unfold updateMasterQueueIfEmpty. fold_keys K. case_match; apply mview_zrem_index; eauto.
Qed.

Lemma mview_updateDispatchIndexes q tn n t' m s :
  mview m (updateDispatchIndexes (queueKey K q) (tenantQueueIndexKey K tn) (dispatchKey K n) q t' s).2 =
  mview m s.
Proof.
  unfold updateDispatchIndexes. repeat case_match; cbn [snd]; rewrite ?mview_relist; try done;
    fold_keys K; rewrite ?mview_rebalance_add, ?mview_zrem_index; eauto.
Qed.

End Steps.
