(* ===== verification/FairLevels.v ===== *)
(** * FairLevels: the two index levels of the fair queue

    Level 2 lists the queues of a tenant under a score that is at most the one of
    their oldest message; level 1 lists the tenants of a shard under the earliest
    score of their level 2 index.  The scripts keep both, and write well-typed
    entries only. *)

From S2P Require Import Prelude Text Redis Listing SimpleQueue FairKeys FairScripts FairSystem.
From S2P Require Import FairSteps.
Local Open Scope Z_scope.

Section Levels.
Context {P X db : Type} {R : Redis (fq_value P X) db} {L : RedisLaws R}.
Context (K : FairQueueKeyProducer) {KL : FairKeyLaws K}.
Context (home : homes P) (shard shardT : string → Z).
Implicit Types (s : db).
Local Notation V := (fq_value P X).
Local Notation tenant := (extractTenantId K).
Local Notation zv := (zv K).
Local Notation hv := (hv K).
Local Notation writes := (writes K home shard shardT).
Local Notation write := (write K home shard shardT).
Local Notation typed := (typed K home shard shardT).

(** The levels are right, but for the entry of the queue [q]. *)
Record levels_but (q0 : option string) (s : db) : Prop := LevelsBut {
  lv_queue q m z : Some q ≠ q0 → zv (FzQueue q) s !! m = Some z →
    ∃ y, zv (FzTenant (tenant q)) s !! q = Some y ∧ y ≤ z;
  lv_tenant tn : zv (FzDispatch (shardT tn)) s !! tn = snd <$> zmin (zv (FzTenant tn) s);
}.

Definition levels : db → Prop := levels_but None.

Lemma levels_levels_but q s : levels s → levels_but q s.
Proof. intros [H1 H2]. split; [|done]. intros q' m z _. by apply H1. Qed.

(** ** Views *)

Lemma zv_rebalance_add z c n z' s :
  zv z' (rebalance_add (fz_key K z) (fz_key K c) n s) =
  if decide (z = z')
  then partial_alter (λ old, from_option (Some ∘ snd) old (zmin (zv c s))) n (zv z' s) else zv z' s.
Proof.
  destruct (rebalance_add_cases (fz_key K z) (fz_key K c) n s) as [[Hz ->]|(p & Hz & ->)];
    unfold FairSystem.zv at 2; rewrite Hz; simpl.
  - case_decide; [|done]. apply map_eq. intros m. destruct (decide (m = n)) as [->|];
      [by rewrite lookup_partial_alter_eq|by rewrite lookup_partial_alter_ne].
  - rewrite (zv_ZADD K). case_decide; [|done]. apply map_eq. intros m.
    destruct (decide (m = n)) as [->|];
      [by rewrite lookup_partial_alter_eq, lookup_insert_eq
      |by rewrite lookup_partial_alter_ne, lookup_insert_ne].
Qed.

(** ** Keeping the levels *)

(** Queues that only lose messages. *)
Lemma fq_levels_shrink q0 s s' :
  levels_but q0 s →
  (∀ q m z, zv (FzQueue q) s' !! m = Some z → zv (FzQueue q) s !! m = Some z) →
  (∀ tn, zv (FzTenant tn) s' = zv (FzTenant tn) s) →
  (∀ n, zv (FzDispatch n) s' = zv (FzDispatch n) s) → levels_but q0 s'.
Proof.
  intros [H1 H2] Hq Ht Hn. split.
  - intros q m z Hne Hm. rewrite Ht. eauto.
  - intros tn. by rewrite Ht, Hn.
Qed.

(** The queue [q] changes in any way. *)
Lemma levels_but_change q s s' :
  levels_but (Some q) s →
  (∀ q', q' ≠ q → zv (FzQueue q') s' = zv (FzQueue q') s) →
  (∀ tn, zv (FzTenant tn) s' = zv (FzTenant tn) s) →
  (∀ n, zv (FzDispatch n) s' = zv (FzDispatch n) s) → levels_but (Some q) s'.
Proof.
  intros [H1 H2] Hq Ht Hn. split.
  - intros q' m z Hne. rewrite Ht, Hq by congruence. eauto.
  - intros tn. by rewrite Ht, Hn.
Qed.

Lemma levels_relist q s :
  levels_but (Some q) s →
  levels (relist (queueKey K q) (tenantQueueIndexKey K (tenant q))
            (dispatchKey K (shardT (tenant q))) q (tenant q) s).
Proof.
  intros [H1 H2]. unfold relist. fold_keys K. split.
  - intros q' m z _. rewrite !zv_rebalance_add. key_cases.
    + intros Hm. destruct (decide (q' = q)) as [->|Hne].
      * rewrite lookup_partial_alter_eq. destruct (zmin_lookup _ _ _ Hm) as (p & -> & Hp). by exists p.2.
      * rewrite lookup_partial_alter_ne by done. apply (H1 q' m); congruence.
    + intros Hm. apply (H1 q' m); congruence.
  - intros tn. rewrite !zv_rebalance_add. destruct (decide (tn = tenant q)) as [->|Hne].
    + key_cases. rewrite lookup_partial_alter_eq.
      set (i := partial_alter _ _ _). destruct (zmin i) as [p|] eqn:E; [done|]. simpl.
      rewrite H2. destruct (zmin (zv (FzTenant (tenant q)) s)) as [[n x]|] eqn:E2; [|done].
      apply zmin_None in E. apply zmin_Some in E2 as [E2 _].
      assert (i !! n = None) as Hn by by rewrite E. exfalso. revert Hn. unfold i.
      destruct (decide (n = q)) as [->|]; [|by rewrite lookup_partial_alter_ne, E2].
      rewrite lookup_partial_alter_eq, E2. by destruct (zmin _).
    + key_cases; rewrite ?lookup_partial_alter_ne by done; apply H2.
Qed.

Lemma levels_updateDispatchIndexes q s :
  levels s →
  levels (updateDispatchIndexes (queueKey K q) (tenantQueueIndexKey K (tenant q))
            (dispatchKey K (shardT (tenant q))) q (tenant q) s).2.
Proof.
  intros Hs. unfold updateDispatchIndexes. destruct (ZCARD (queueKey K q) s =? 0) eqn:Ez; cbn [snd];
    [|by apply levels_relist, levels_levels_but].
  apply Z.eqb_eq in Ez. unfold ZCARD in Ez.
  assert (zv (FzQueue q) s = ∅) as Hq. { apply map_size_empty_iff. unfold FairSystem.zv. simpl. lia. }
  clear Ez. destruct Hs as [H1 H2]. set (s1 := ZREM _ q s).
  assert (∀ q' m z, zv (FzQueue q') s1 !! m = Some z →
            ∃ y, zv (FzTenant (tenant q')) s1 !! q' = Some y ∧ y ≤ z) as H1'.
  { intros q' m z. unfold s1. fold_keys K. rewrite !(zv_ZREM K). key_cases; intros Hm; [|by apply (H1 q' m)].
    destruct (decide (q' = q)) as [->|]; [by rewrite Hq in Hm|].
    rewrite lookup_delete_ne by done. by apply (H1 q' m). }
  assert (∀ tn, tn ≠ tenant q → zv (FzDispatch (shardT tn)) s1 !! tn = snd <$> zmin (zv (FzTenant tn) s1))
    as H2'.
  { intros tn Hne. unfold s1. fold_keys K. rewrite !(zv_ZREM K). key_cases. apply H2. }
  destruct (ZCARD (tenantQueueIndexKey K (tenant q)) s1 =? 0) eqn:Ez; cbn [snd]; fold_keys K.
  - apply Z.eqb_eq in Ez. unfold ZCARD in Ez.
    assert (zv (FzTenant (tenant q)) s1 = ∅) as Ht.
    { apply map_size_empty_iff. unfold FairSystem.zv. simpl. lia. }
    split.
    + intros q' m z _. rewrite !(zv_ZREM K). key_cases. by apply H1'.
    + intros tn. rewrite !(zv_ZREM K). destruct (decide (tn = tenant q)) as [->|Hne].
      * key_cases. by rewrite lookup_delete_eq, Ht.
      * key_cases; rewrite ?lookup_delete_ne by done; by apply H2'.
  - apply Z.eqb_neq in Ez. unfold ZCARD in Ez. split.
    + intros q' m z _. rewrite !zv_rebalance_add. key_cases. by apply H1'.
    + intros tn. rewrite !zv_rebalance_add. destruct (decide (tn = tenant q)) as [->|Hne].
      * key_cases. rewrite lookup_partial_alter_eq.
        destruct (zmin (zv (FzTenant (tenant q)) s1)) as [p|] eqn:E; [done|].
        apply zmin_None in E. unfold FairSystem.zv in E. simpl in E. rewrite E in Ez.
        by rewrite map_size_empty in Ez.
      * key_cases; rewrite ?lookup_partial_alter_ne by done; by apply H2'.
Qed.

(** ** Well-typed writes *)

Local Ltac write_seq :=
  fold_keys K;
  repeat (eapply rtc_r; [|first [ apply write_zadd | apply write_zrem | apply write_hset
                                | apply write_hdel ]]);
  try apply rtc_refl.

Lemma writes_store q m z v s :
  home m = q → wf_id m → msg_ok K home m v →
  writes s (store_message (queueKey K q) (queueItemsKey K q) m z v s).
Proof. intros Hq Hm Hv. unfold store_message. write_seq; done. Qed.

Lemma writes_store_messages q args s :
  Forall (λ '(m, _, v), home m = q ∧ wf_id m ∧ msg_ok K home m v) args →
  writes s (store_messages (queueKey K q) (queueItemsKey K q) args s).
Proof.
  intros Ha. revert s. induction Ha as [|[[m z] v] args (Hq & Hm & Hv) _ IH]; intros s;
    [apply rtc_refl|]. cbn [store_messages foldl]. etrans; [by apply (writes_store q)|apply IH].
Qed.

Lemma writes_rebalance_add z c n s :
  z_ok K home shard shardT z n → writes s (rebalance_add (fz_key K z) c n s).
Proof.
  intros Hz. destruct (rebalance_add_cases (fz_key K z) c n s) as [[_ ->]|(p & _ & ->)];
    [apply rtc_refl|]. write_seq; done.
Qed.

Lemma writes_relist q c s :
  writes s (relist c (tenantQueueIndexKey K (tenant q)) (dispatchKey K (shardT (tenant q))) q
              (tenant q) s).
Proof. unfold relist. fold_keys K. etrans; by apply writes_rebalance_add. Qed.

Lemma writes_claim_one q d m v s :
  home m = q → wf_id m → msg_ok K home m v →
  writes s (claim_one (queueKey K q) (queueItemsKey K q) (inflightKey K (shard q))
              (inflightDataKey K (shard q)) q d m v s).
Proof. intros <- Hm Hv. unfold claim_one. write_seq; simpl; eauto. Qed.

Lemma writes_claim_loop q d items s :
  typed s → Forall (λ p, home p.1 = q ∧ wf_id p.1) items →
  writes s (claim_loop (queueKey K q) (queueItemsKey K q) (inflightKey K (shard q))
              (inflightDataKey K (shard q)) q d items s).2.
Proof.
  intros Hs Hit. revert s Hs. induction Hit as [|[m z] items [Hq Hm] _ IH]; intros s Hs;
    [apply rtc_refl|]. cbn [claim_loop].
  destruct (HGET (queueItemsKey K q) m s) as [v|] eqn:E.
  - set (s1 := claim_one _ _ _ _ _ _ _ _ s).
    assert (writes s s1) as H1.
    { apply writes_claim_one; try done. by apply (typed_h _ _ _ _ _ Hs (FhItems q) m v) in E as (_&_&?). }
    specialize (IH s1 (writes_typed _ _ _ _ _ _ H1 Hs)).
    destruct (claim_loop _ _ _ _ _ _ _ s1) as [res s2]. by etrans.
  - set (s1 := ZREM _ m s). assert (writes s s1) as H1 by (unfold s1; write_seq).
    etrans; [exact H1|]. apply IH. by eapply writes_typed.
Qed.

Lemma writes_release_one q m z v s :
  home m = q → wf_id m → msg_ok K home m v →
  writes s (release_one (inflightKey K (shard q)) (inflightDataKey K (shard q)) (queueKey K q)
              (queueItemsKey K q) (makeMember m q) m z v s).
Proof. intros <- Hm Hv. unfold release_one. write_seq; done. Qed.

Lemma writes_releaseMessage q m z u s :
  typed s → home m = q → wf_id m → from_option (msg_ok K home m) True u →
  writes s (releaseMessage (inflightKey K (shard q)) (inflightDataKey K (shard q)) (queueKey K q)
              (queueItemsKey K q) (tenantQueueIndexKey K (tenant q)) (dispatchKey K (shardT (tenant q)))
              (makeMember m q) m z q u (tenant q) s).2.
Proof.
  intros Hs Hq Hm Hu. unfold releaseMessage.
  destruct (HGET (inflightDataKey K (shard q)) m s) as [v|] eqn:E; [|apply rtc_refl]. cbn [snd].
  etrans; [|apply writes_relist]. apply writes_release_one; [done..|].
  destruct u as [u|]; [done|]. by apply (typed_h _ _ _ _ _ Hs (FhData (shard q)) m v) in E as (_&_&?).
Qed.

Lemma writes_release_loop q z ms s :
  typed s → Forall (λ m, home m = q ∧ wf_id m) ms →
  writes s (release_loop (inflightKey K (shard q)) (inflightDataKey K (shard q)) (queueKey K q)
              (queueItemsKey K q) z ((λ m, (makeMember m q, m)) <$> ms) s).2.
Proof.
  intros Hs Hms. revert s Hs. induction Hms as [|m ms [Hq Hm] _ IH]; intros s Hs; [apply rtc_refl|].
  rewrite fmap_cons. cbn [release_loop].
  destruct (HGET (inflightDataKey K (shard q)) m s) as [v|] eqn:E; [|by apply IH].
  set (s1 := release_one _ _ _ _ _ _ _ _ s).
  assert (writes s s1) as H1.
  { apply writes_release_one; try done.
    by apply (typed_h _ _ _ _ _ Hs (FhData (shard q)) m v) in E as (_&_&?). }
  specialize (IH s1 (writes_typed _ _ _ _ _ _ H1 Hs)).
  destruct (release_loop _ _ _ _ _ _ s1) as [c s2]. by etrans.
Qed.

Lemma writes_releaseMessageBatch q z ms s :
  typed s → Forall (λ m, home m = q ∧ wf_id m) ms →
  writes s (releaseMessageBatch (inflightKey K (shard q)) (inflightDataKey K (shard q)) (queueKey K q)
              (queueItemsKey K q) (tenantQueueIndexKey K (tenant q)) (dispatchKey K (shardT (tenant q)))
              z q (tenant q) ((λ m, (makeMember m q, m)) <$> ms) s).2.
Proof.
  intros Hs Hms. pose proof (writes_release_loop q z ms s Hs Hms) as Hw. unfold releaseMessageBatch.
  destruct (release_loop _ _ _ _ _ _ _) as [c s']. case_match; cbn [snd] in *; [|done].
  etrans; [exact Hw|apply writes_relist].
Qed.

Lemma writes_heartbeat m d s :
  wf_id m →
  writes s (heartbeatMessage (inflightKey K (shard (home m))) (makeMember m (home m)) d s).2.
Proof.
  intros Hm. unfold heartbeatMessage, ZADD_XX. destruct (ZSCORE _ _ s); [|apply rtc_refl].
  cbn [snd]. write_seq. by exists m.
Qed.

Lemma writes_updateMasterQueueIfEmpty n q c s :
  writes s (updateMasterQueueIfEmpty (masterQueueKey K n) c q s).2.
Proof. unfold updateMasterQueueIfEmpty. case_match; cbn [snd]; write_seq. Qed.

Lemma writes_updateDispatchIndexes q c s :
  writes s (updateDispatchIndexes c (tenantQueueIndexKey K (tenant q))
              (dispatchKey K (shardT (tenant q))) q (tenant q) s).2.
Proof.
  unfold updateDispatchIndexes. repeat case_match; cbn [snd]; [write_seq| |apply writes_relist].
  fold_keys K. etrans; [|by apply writes_rebalance_add]. write_seq.
Qed.

(** ** The levels after a script *)

Local Ltac views :=
  fold_keys K;
  repeat first [ rewrite (zv_ZADD K) | rewrite (zv_ZREM K) | rewrite (zv_HSET K)
               | rewrite (zv_HDEL K) ];
  repeat rewrite decide_False by congruence.

Lemma zv_store_messages q args z s :
  z ≠ FzQueue q → zv z (store_messages (queueKey K q) (queueItemsKey K q) args s) = zv z s.
Proof.
  intros Hz. revert s. induction args as [|[[m x] v] args IH]; intros s; [done|].
  cbn [store_messages foldl]. unfold store_messages in IH. rewrite IH. unfold store_message.
  by views.
Qed.

Lemma zv_claim_loop q d items z s :
  z ≠ FzQueue q → z ≠ FzInflight (shard q) →
  zv z (claim_loop (queueKey K q) (queueItemsKey K q) (inflightKey K (shard q))
          (inflightDataKey K (shard q)) q d items s).2 = zv z s.
Proof.
  intros Hz Hz'. revert s. induction items as [|[m x] items IH]; intros s; [done|]. cbn [claim_loop].
  destruct (HGET (queueItemsKey K q) m s) as [v|].
  - set (s1 := claim_one _ _ _ _ _ _ _ _ s). specialize (IH s1).
    destruct (claim_loop _ _ _ _ _ _ _ s1) as [res s2]. cbn [snd] in *. rewrite IH.
    unfold s1, claim_one. by views.
  - rewrite IH. by views.
Qed.

Lemma zv_claim_loop_sub q d items q' s m z :
  zv (FzQueue q') (claim_loop (queueKey K q) (queueItemsKey K q) (inflightKey K (shard q))
          (inflightDataKey K (shard q)) q d items s).2 !! m = Some z →
  zv (FzQueue q') s !! m = Some z.
Proof.
  revert s. induction items as [|[n x] items IH]; intros s; [done|]. cbn [claim_loop].
  assert (zv (FzQueue q') (ZREM (queueKey K q) n s) !! m = Some z → zv (FzQueue q') s !! m = Some z)
    as Hrem.
  { fold_keys K. rewrite (zv_ZREM K). case_decide; [|done]. by rewrite lookup_delete_Some; intros [_ ?]. }
  destruct (HGET (queueItemsKey K q) n s) as [v|].
  - set (s1 := claim_one _ _ _ _ _ _ _ _ s). specialize (IH s1).
    destruct (claim_loop _ _ _ _ _ _ _ s1) as [res s2]. cbn [snd] in *. intros H%IH.
    apply Hrem. revert H. unfold s1, claim_one. fold_keys K. by rewrite !(zv_HSET K), (zv_ZADD K), (zv_HDEL K).
  - intros H%IH. by apply Hrem.
Qed.

Lemma zv_release_loop q x ms z s :
  z ≠ FzQueue q → z ≠ FzInflight (shard q) →
  zv z (release_loop (inflightKey K (shard q)) (inflightDataKey K (shard q)) (queueKey K q)
          (queueItemsKey K q) x ms s).2 = zv z s.
Proof.
  intros Hz Hz'. revert s. induction ms as [|[e m] ms IH]; intros s; [done|]. cbn [release_loop].
  destruct (HGET (inflightDataKey K (shard q)) m s) as [v|]; [|apply IH].
  set (s1 := release_one _ _ _ _ _ _ _ _ s). specialize (IH s1).
  destruct (release_loop _ _ _ _ _ _ s1) as [c s2]. cbn [snd] in *. rewrite IH.
  unfold s1, release_one. by views.
Qed.

Lemma release_loop_nonneg k1 k2 k3 k4 x ms s : 0 ≤ (release_loop k1 k2 k3 k4 x ms s).1.
Proof.
  revert s. induction ms as [|[e m] ms IH]; intros s; [done|]. cbn [release_loop].
  destruct (HGET k2 m s) as [v|]; [|apply IH]. set (s1 := release_one _ _ _ _ _ _ _ _ s).
  specialize (IH s1). destruct (release_loop _ _ _ _ _ _ s1) as [c s2]. cbn [fst] in *. lia.
Qed.

(** Nothing released, nothing changed. *)
Lemma release_loop_zero k1 k2 k3 k4 x ms s :
  (release_loop k1 k2 k3 k4 x ms s).1 ≤ 0 → (release_loop k1 k2 k3 k4 x ms s).2 = s.
Proof.
  revert s. induction ms as [|[e m] ms IH]; intros s; [done|]. cbn [release_loop].
  destruct (HGET k2 m s) as [v|]; [|apply IH]. set (s1 := release_one _ _ _ _ _ _ _ _ s).
  pose proof (release_loop_nonneg k1 k2 k3 k4 x ms s1).
  destruct (release_loop _ _ _ _ _ _ s1) as [c s2]. cbn [fst snd] in *. lia.
Qed.

Lemma levels_enqueue q args s :
  levels s →
  levels (enqueueBatchAtomicV2 (queueKey K q) (queueItemsKey K q) (tenantQueueIndexKey K (tenant q))
            (dispatchKey K (shardT (tenant q))) q (tenant q) args s).
Proof.
  intros Hs. unfold enqueueBatchAtomicV2. apply levels_relist.
  eapply levels_but_change; [by apply levels_levels_but| | |]; intros; apply zv_store_messages; congruence.
Qed.

Lemma levels_claim q d n s :
  levels s →
  levels (claimMessageBatch (queueKey K q) (queueItemsKey K q) (inflightKey K (shard q))
            (inflightDataKey K (shard q)) q d n s).2.
Proof.
  intros Hs. unfold claimMessageBatch. eapply fq_levels_shrink; [done| | |]; intros.
  - by eapply zv_claim_loop_sub.
  - by apply zv_claim_loop.
  - by apply zv_claim_loop.
Qed.

Lemma levels_releaseMessage q m z u s :
  levels s →
  levels (releaseMessage (inflightKey K (shard q)) (inflightDataKey K (shard q)) (queueKey K q)
            (queueItemsKey K q) (tenantQueueIndexKey K (tenant q)) (dispatchKey K (shardT (tenant q)))
            (makeMember m q) m z q u (tenant q) s).2.
Proof.
  intros Hs. unfold releaseMessage.
  destruct (HGET (inflightDataKey K (shard q)) m s) as [v|]; [|done]. cbn [snd]. apply levels_relist.
  eapply levels_but_change; [by apply levels_levels_but| | |]; intros; unfold release_one; by views.
Qed.

Lemma levels_releaseMessageBatch q z ms s :
  levels s →
  levels (releaseMessageBatch (inflightKey K (shard q)) (inflightDataKey K (shard q)) (queueKey K q)
            (queueItemsKey K q) (tenantQueueIndexKey K (tenant q)) (dispatchKey K (shardT (tenant q)))
            z q (tenant q) ms s).2.
Proof.
  intros Hs. unfold releaseMessageBatch.
  pose proof (λ v, zv_release_loop q z ms v s) as Hv.
  pose proof (release_loop_zero (inflightKey K (shard q)) (inflightDataKey K (shard q)) (queueKey K q)
    (queueItemsKey K q) z ms s) as H0.
  destruct (release_loop _ _ _ _ _ _ _) as [c s']. destruct (0 <? c) eqn:E; cbn [fst snd] in *.
  - apply levels_relist. eapply levels_but_change; [by apply levels_levels_but| | |]; intros; apply Hv;
      congruence.
  - apply Z.ltb_ge in E. by rewrite (H0 E).
Qed.

(** Commands that leave queues and indexes alone. *)
Lemma levels_other s s' :
  (∀ z, match z with FzQueue _ | FzTenant _ | FzDispatch _ => zv z s' = zv z s | _ => True end) →
  levels s → levels s'.
Proof.
  intros H Hs. eapply fq_levels_shrink; [done| | |]; intros;
    [pose proof (H (FzQueue q))|apply (H (FzTenant tn))|apply (H (FzDispatch n))]. simpl in *. congruence.
Qed.

End Levels.
