(* ===== verification/FairInvariants.v ===== *)
(** * FairInvariants: the step relation of the fair queue and its invariants

    [fq_step ops s s']: a command or script takes the database from [s] to [s'] and
    does [ops] to messages.  [good] is the invariant: entries are well typed, the
    index levels are right, no concurrency group holds more than its bound.  The
    limits may depend on settings in the database ([bounds]). *)

From S2P Require Import Prelude Text Redis Listing SimpleQueue FairKeys FairScripts FairSystem.
From S2P Require Import FairSteps FairLevels.
Local Open Scope Z_scope.

(** A bound on the limits of each concurrency group, as long as what the client of the
    queue keeps in the database satisfies [settings], a property of the string keys
    and of the sets [client] of the client. *)
Record bounds {V db : Type} (R : Redis V db) : Type := MkBounds {
  bound_of :> string → string → Z;
  settings : db → Prop;
  client : string → Prop;
  settings_keep s s' : (∀ k, GET k s' = GET k s) →
    (∀ k, client k → SMEMBERS k s' = SMEMBERS k s) → settings s → settings s';
}.
Arguments MkBounds {V db R}.
Arguments bound_of {V db R}.
Arguments settings {V db R}.
Arguments client {V db R}.
Arguments settings_keep {V db R}.

(** Limits that depend on no setting. *)
Definition static {V db : Type} {R : Redis V db} (b : string → string → Z) : bounds R :=
  MkBounds b (λ _, True) (λ _, False) (λ _ _ _ _ H, H).

Section Invariants.
Context {P X db : Type} {R : Redis (fq_value P X) db} {L : RedisLaws R}.
Context (K : FairQueueKeyProducer) {KL : FairKeyLaws K}.
Context (home : homes P) (shard shardT : string → Z).

(** The names of the concurrency groups, and a bound on the limits of each group. *)
Context (names : list string) (bound : bounds R).
Implicit Types (s : db).
Local Notation V := (fq_value P X).
Local Notation tenant := (extractTenantId K).
Local Notation zv := (zv K).
Local Notation hv := (hv K).
Local Notation writes := (writes K home shard shardT).
Local Notation typed := (typed K home shard shardT).
Local Notation levels := (levels K shardT).
Local Notation mview := (mview K home shard).

(** ** The step relation *)

(** A command that touches nothing of the fair queue: a key of the scheduler or of
    the client. *)
Record same_queue (s s' : db) : Prop := SameQueue {
  same_z z : zv z s' = zv z s;
  same_h h : hv h s' = hv h s;
  same_l w : LALL (workerQueueKey K w) s' = LALL (workerQueueKey K w) s;
  same_s g i : g ∈ names →
    SMEMBERS (concurrencyKey K g i) s' = SMEMBERS (concurrencyKey K g i) s;
  same_settings : settings bound s → settings bound s';
}.

(** A slot of a group with the limit that is passed for it. *)
Definition slot_ok (p : string * Z) : Prop :=
  ∃ g i, g ∈ names ∧ p.1 = concurrencyKey K g i ∧ ¬ client bound p.1 ∧ p.2 ≤ bound g i.

Inductive fq_step : list (string * mop V) → db → db → Prop :=
| step_enqueue q args s :
    Forall (λ '(m, _, v), home m = q ∧ wf_id m ∧ msg_ok K home m v) args →
    fq_step ((λ '(m, z, v), (m, Put z v)) <$> args) s
      (enqueueBatchAtomicV2 (queueKey K q) (queueItemsKey K q) (tenantQueueIndexKey K (tenant q))
         (dispatchKey K (shardT (tenant q))) q (tenant q) args s)
| step_claim q d n s :
    fq_step ((λ p, (p.1, Claim d)) <$> ZRANGE (queueKey K q) (n - 1) s) s
      (claimMessageBatch (queueKey K q) (queueItemsKey K q) (inflightKey K (shard q))
         (inflightDataKey K (shard q)) q d n s).2
| step_return q m z u s :
    home m = q → wf_id m → from_option (msg_ok K home m) True u →
    fq_step [(m, Return z u)] s
      (releaseMessage (inflightKey K (shard q)) (inflightDataKey K (shard q)) (queueKey K q)
         (queueItemsKey K q) (tenantQueueIndexKey K (tenant q)) (dispatchKey K (shardT (tenant q)))
         (makeMember m q) m z q u (tenant q) s).2
| step_return_batch q z ms s :
    Forall (λ m, home m = q ∧ wf_id m) ms →
    fq_step ((λ m, (m, Return z None)) <$> ms) s
      (releaseMessageBatch (inflightKey K (shard q)) (inflightDataKey K (shard q)) (queueKey K q)
         (queueItemsKey K q) (tenantQueueIndexKey K (tenant q)) (dispatchKey K (shardT (tenant q)))
         z q (tenant q) ((λ m, (makeMember m q, m)) <$> ms) s).2
| step_extend m d s :
    wf_id m →
    fq_step [(m, Extend d)] s
      (heartbeatMessage (inflightKey K (shard (home m))) (makeMember m (home m)) d s).2
| step_unlink m s :
    wf_id m →
    fq_step [(m, Unlink)] s (ZREM (inflightKey K (shard (home m))) (makeMember m (home m)) s)
| step_forget m s :
    fq_step [(m, Forget)] s (HDEL (inflightDataKey K (shard (home m))) m s)
| step_bury m z s :
    wf_id m → fq_step [(m, Bury z)] s (ZADD (deadLetterQueueKey K (tenant (home m))) z m s)
| step_inter m v s :
    wf_id m → dead_ok K home m v →
    fq_step [(m, Inter v)] s (HSET (deadLetterQueueDataKey K (tenant (home m))) m v s)
| step_exhume m s :
    fq_step [(m, Exhume)] s (ZREM (deadLetterQueueKey K (tenant (home m))) m s)
| step_unearth m s :
    fq_step [(m, Unearth)] s (HDEL (deadLetterQueueDataKey K (tenant (home m))) m s)
| step_master n q s :
    fq_step [] s (updateMasterQueueIfEmpty (masterQueueKey K n) (queueKey K q) q s).2
| step_dispatch q s :
    fq_step [] s
      (updateDispatchIndexes (queueKey K q) (tenantQueueIndexKey K (tenant q))
         (dispatchKey K (shardT (tenant q))) q (tenant q) s).2
| step_reserve groups m s :
    Forall slot_ok groups → fq_step [] s (reserveConcurrency groups m s).2
| step_free k m s : ¬ client bound k → fq_step [] s (SREM k m s)
| step_push w e s : member_ok home e → fq_step [] s (RPUSH (workerQueueKey K w) e s)
| step_pop w s : fq_step [] s (LPOP (workerQueueKey K w) s)
| step_other s s' : same_queue s s' → fq_step [] s s'.

(** ** Refinement *)

Lemma reserve_views groups m s k :
  let s' := (reserveConcurrency groups m s).2 in
  ZALL k s' = ZALL k s ∧ HALL k s' = HALL k s ∧ LALL k s' = LALL k s ∧ GET k s' = GET k s.
Proof.
  unfold reserveConcurrency. case_match; [|done]. cbn [snd]. clear -L. revert s.
  induction groups as [|[k' lim] groups IH]; intros s; [done|]. cbn [foldl].
  destruct (IH (SADD k' m s)) as (-> & -> & -> & ->). repeat split; by redis_simpl.
Qed.

Lemma mview_views m s s' :
  (∀ z, zv z s' = zv z s) → (∀ h, hv h s' = hv h s) → mview m s' = mview m s.
Proof. intros Hz Hh. unfold FairSteps.mview. by rewrite !Hz, !Hh. Qed.

(** The messages a claim takes are messages of the queue. *)
Lemma claimable_ok q n s :
  typed s → Forall (λ p, home p.1 = q ∧ wf_id p.1) (ZRANGE (queueKey K q) n s).
Proof.
  intros Hs. apply Forall_forall. intros [m x] Hin.
  apply (typed_z _ _ _ _ _ Hs (FzQueue q) m x). apply elem_of_zsorted. unfold ZRANGE in Hin.
  by apply elem_of_take in Hin as (i & Hin%list_elem_of_lookup_2 & _).
Qed.

(** A step does to every message what its label says. *)
Lemma step_refines ops s s' m :
  typed s → fq_step ops s s' → wf_id m → mview m s' = acts m ops (mview m s).
Proof.
  intros Hs Hstep Hm. destruct Hstep.
  - unfold enqueueBatchAtomicV2. rewrite (mview_relist K). apply (mview_store_messages K); [|done..].
    eapply Forall_impl; [done|]. intros [[??]?]. naive_solver.
  - unfold claimMessageBatch. apply (mview_claim_loop K); [by apply claimable_ok|done].
  - by apply (mview_releaseMessage K).
  - by apply (mview_releaseMessageBatch K).
  - by apply (mview_heartbeat K).
  - by apply (mview_unlink K).
  - by apply (mview_forget K).
  - by apply (mview_bury K).
  - by apply (mview_inter K).
  - by apply (mview_exhume K).
  - by apply (mview_unearth K).
  - by apply (mview_updateMasterQueueIfEmpty K).
  - by apply (mview_updateDispatchIndexes K).
  - apply mview_views; intros; apply reserve_views.
  - apply mview_views; intros; unfold FairSystem.zv, FairSystem.hv; by redis_simpl.
  - apply mview_views; intros; unfold FairSystem.zv, FairSystem.hv; by redis_simpl.
  - apply mview_views; intros; unfold FairSystem.zv, FairSystem.hv; by redis_simpl.
  - apply mview_views; apply H.
Qed.

(** ** Invariants *)

Definition limits (s : db) : Prop :=
  ∀ g i, g ∈ names → SCARD (concurrencyKey K g i) s ≤ bound g i.

Record good (s : db) : Prop := Good {
  good_typed : typed s;
  good_levels : levels s;
  good_limits : limits s;
  good_settings : settings bound s;
}.

(** The names of the groups have no ":", so that groups have different keys. *)
Context (Hnames : Forall (λ g, has_char ":" g = false) names).

Lemma key_of_slot g i g' i' :
  g ∈ names → g' ∈ names → concurrencyKey K g i = concurrencyKey K g' i' → g = g' ∧ i = i'.
Proof. rewrite Forall_forall in Hnames. intros. apply (cc_inj g i g' i'); auto. Qed.

Lemma limits_sets s s' : (∀ k, SMEMBERS k s' ⊆ SMEMBERS k s) → limits s → limits s'.
Proof.
  intros Hk Hs g i Hg. specialize (Hs g i Hg). unfold SCARD in *.
  pose proof (subseteq_size _ _ (Hk (concurrencyKey K g i))). lia.
Qed.

Lemma SMEMBERS_sadd_all (groups : list (string * Z)) m k s :
  SMEMBERS k (foldl (λ s '(key, _), SADD key m s) s groups) ⊆ {[m]} ∪ SMEMBERS k s ∧
  (k ∉ groups.*1 → SMEMBERS k (foldl (λ s '(key, _), SADD key m s) s groups) = SMEMBERS k s).
Proof.
  revert s. induction groups as [|[k' lim] groups IH]; intros s; [simpl; set_solver|].
  cbn [foldl fmap list_fmap fst]. destruct (IH (SADD k' m s)) as [H1 H2]. split.
  - etrans; [exact H1|]. redis_simpl. case_decide; set_solver.
  - intros Hk. rewrite H2 by set_solver. redis_simpl. by rewrite decide_False by set_solver.
Qed.

Lemma limits_reserve groups m s :
  Forall slot_ok groups → limits s → limits (reserveConcurrency groups m s).2.
Proof.
  intros Hg Hs. unfold reserveConcurrency. case_match eqn:Hall; [|done]. cbn [snd].
  intros g i Hin. destruct (SMEMBERS_sadd_all groups m (concurrencyKey K g i) s) as [H1 H2].
  destruct (decide (concurrencyKey K g i ∈ groups.*1)) as [Hk|Hk].
  - apply list_elem_of_fmap in Hk as ([k lim] & Hk & Hl). cbn [fst] in Hk. subst k.
    rewrite Forall_forall in Hg. destruct (Hg _ Hl) as (g' & i' & Hg' & Heq & _ & Hle). cbn [fst snd] in *.
    apply key_of_slot in Heq as [<- <-]; [|done..].
    rewrite forallb_forall in Hall. specialize (Hall _ (proj1 (list_elem_of_In _ _) Hl)).
    cbn in Hall. apply Z.ltb_lt in Hall. unfold SCARD in *.
    pose proof (subseteq_size _ _ H1) as Hsz. pose proof (size_union_alt {[m]} (SMEMBERS (concurrencyKey K g i) s)) as Hu.
    pose proof (subseteq_size (SMEMBERS (concurrencyKey K g i) s ∖ {[m]}) (SMEMBERS (concurrencyKey K g i) s)
                  ltac:(set_solver)). rewrite size_singleton in Hu. lia.
  - unfold SCARD. rewrite H2 by done. by apply Hs.
Qed.

Lemma settings_reserve groups m s :
  Forall slot_ok groups → settings bound s → settings bound (reserveConcurrency groups m s).2.
Proof.
  intros Hg. apply settings_keep; intros k; [apply (reserve_views groups m s k)|]. intros Hk.
  unfold reserveConcurrency. case_match; [|done]. cbn [snd]. apply (SMEMBERS_sadd_all groups m k s).
  intros ([k' lim] & -> & Hin)%list_elem_of_fmap. rewrite Forall_forall in Hg.
  by destruct (Hg _ Hin) as (g & i & _ & _ & Hc & _).
Qed.

Lemma good_writes s s' : writes s s' → levels s' → good s → good s'.
Proof.
  intros Hw Hl [Ht _ Hs Hset]. split; [by eapply writes_typed|done| |].
  - eapply limits_sets; [|done]. intros k. by rewrite (writes_SMEMBERS _ _ _ _ _ _ k Hw).
  - eapply settings_keep; [| |done]; intros k.
    + apply (writes_GET _ _ _ _ _ _ k Hw).
    + intros _. apply (writes_SMEMBERS _ _ _ _ _ _ k Hw).
Qed.

(** A write to the in-flight sets, the hashes or the dead letters. *)
Lemma good_write s s' :
  write K home shard shardT s s' →
  (∀ z, match z with FzQueue _ | FzTenant _ | FzDispatch _ => zv z s' = zv z s | _ => True end) →
  good s → good s'.
Proof.
  intros Hw Hz Hs. apply (good_writes s); [by apply rtc_once| |done].
  apply (levels_other K shardT s); [done|apply Hs].
Qed.

(** Commands that leave the sorted sets and the hashes alone. *)
Lemma good_same s s' :
  (∀ z, zv z s' = zv z s) → (∀ h, hv h s' = hv h s) →
  (∀ w e, e ∈ LALL (workerQueueKey K w) s' → member_ok home e ∨ e ∈ LALL (workerQueueKey K w) s) →
  limits s' → (settings bound s → settings bound s') → good s → good s'.
Proof.
  intros Hz Hh Hl Hlim Hset [Ht Hv _ Hs]. split; [| |done|by apply Hset].
  - split; intros *; rewrite ?Hz, ?Hh; [apply Ht..|]. intros [?|?]%Hl; [done|by eapply Ht].
  - apply (levels_other K shardT s); [|done]. intros []; by rewrite ?Hz.
Qed.

Local Ltac quiet := intros; unfold FairSystem.zv, FairSystem.hv; by redis_simpl.

(** Every step keeps the invariant. *)
Lemma step_good ops s s' : fq_step ops s s' → good s → good s'.
Proof.
  intros Hstep Hs. pose proof Hs as [Ht Hv Hl _].
  destruct Hstep as [q args s Ha|q d n s|q m z u s Hq Hm Hu|q z ms s Hms|m d s Hm|m s Hm|m s|m z s Hm
                    |m v s Hm Hd|m s|m s|n q s|q s|groups m s Hg|k m s Hk|w e s He|w s|s s' [Hz Hh Hw Hset Hcfg]].
  - apply (good_writes s); [|by apply levels_enqueue|done].
    unfold enqueueBatchAtomicV2. etrans; [by apply (writes_store_messages K)|apply writes_relist].
  - apply (good_writes s); [|by apply levels_claim|done]. unfold claimMessageBatch.
    apply (writes_claim_loop K); [done|]. by apply claimable_ok.
  - apply (good_writes s); [by apply writes_releaseMessage|by apply levels_releaseMessage|done].
  - apply (good_writes s); [by apply writes_releaseMessageBatch|by apply levels_releaseMessageBatch|done].
  - apply (good_writes s); [by apply writes_heartbeat| |done]. apply (levels_other K shardT s); [|done].
    unfold heartbeatMessage, ZADD_XX. destruct (ZSCORE _ _ s); cbn [snd]; [|by intros []].
    fold_keys K. intros []; rewrite ?(zv_ZADD K); by key_cases.
  - fold_keys K. eapply good_write; [constructor| |done]. intros []; rewrite ?(zv_ZREM K); by key_cases.
  - fold_keys K. eapply good_write; [constructor| |done]. intros []; by rewrite ?(zv_HDEL K).
  - fold_keys K. eapply good_write; [by constructor| |done]. intros []; rewrite ?(zv_ZADD K); by key_cases.
  - fold_keys K. eapply good_write; [by constructor| |done]. intros []; by rewrite ?(zv_HSET K).
  - fold_keys K. eapply good_write; [constructor| |done]. intros []; rewrite ?(zv_ZREM K); by key_cases.
  - fold_keys K. eapply good_write; [constructor| |done]. intros []; by rewrite ?(zv_HDEL K).
  - apply (good_writes s); [apply writes_updateMasterQueueIfEmpty| |done]. apply (levels_other K shardT s); [|done].
    unfold updateMasterQueueIfEmpty. fold_keys K.
    case_match; cbn [snd]; intros []; rewrite ?(zv_ZREM K); by key_cases.
  - apply (good_writes s); [by apply writes_updateDispatchIndexes|by apply levels_updateDispatchIndexes|done].
  - apply (good_same s); try done; try (intros; apply reserve_views); [|by apply limits_reserve|].
    + intros w e. destruct (reserve_views groups m s (workerQueueKey K w)) as (_ & _ & -> & _). by right.
    + by apply settings_reserve.
  - apply (good_same s); try done; [quiet..| | |].
    + intros w e. redis_simpl. by right.
    + eapply limits_sets; [|done]. intros k'. redis_simpl. case_decide; set_solver.
    + apply settings_keep; [quiet|]. intros k' Hk'. assert (k ≠ k') by congruence. by redis_simpl.
  - apply (good_same s); try done; [quiet..| | |].
    + intros w' e'. redis_simpl. case_decide as Hk; [|by right].
      rewrite elem_of_app, list_elem_of_singleton. intros [?| ->]; [by right|by left].
    + eapply limits_sets; [|done]. intros k'. by redis_simpl.
    + apply settings_keep; quiet.
  - apply (good_same s); try done; [quiet..| | |].
    + intros w' e'. redis_simpl. case_decide as Hk; [|by right].
      intros He. right. destruct (LALL (workerQueueKey K w') s); [done|by right].
    + eapply limits_sets; [|done]. intros k'. by redis_simpl.
    + apply settings_keep; quiet.
  - apply (good_same s); try done.
    + intros w e. rewrite Hw. by right.
    + intros g i Hg. unfold SCARD. rewrite Hset by done. by apply Hl.
Qed.

End Invariants.
