(* ===== verification/FairTraces.v ===== *)
(** * FairTraces: methods that move along the steps of the fair queue

    [ok_method m φ]: the method [m], run while others act on the same database and in
    the same process ([fw_env]), moves the state along [fq_step]s only, and its
    results satisfy [φ].  It may end the delivery of the messages in [E] and of no
    other.  One rule per way methods are built. *)

From S2P Require Import Prelude Text Redis Listing SimpleQueue FairKeys FairScripts.
From S2P Require Import Effect FairWorld FairSystem FairSteps FairLevels FairInvariants.
Local Open Scope Z_scope.
Local Open Scope effect_scope.

Section Traces.
Context {P X db S : Type} {R : Redis (fq_value P X) db} {L : RedisLaws R}.
Context (K : FairQueueKeyProducer) {KL : FairKeyLaws K}.
Context (home : homes P) (shard shardT : string → Z).
Context (names : list string) (bound : bounds R).
Context (Hnames : Forall (λ g, has_char ":" g = false) names).
Context (E : string → Prop).
Local Notation V := (fq_value P X).
Local Notation tenant := (extractTenantId K).
Local Notation fq_step := (fq_step K home shard shardT names bound).
Local Notation good := (good K home shard shardT names bound).
Local Notation M := (FqM db S).

(** ** Traces *)

(** The step ends the delivery of messages of [E] only. *)
Definition allowed (p : string * mop V) : Prop := ends p.2 → E p.1.

(** The cached descriptors name the tenant of their queue. *)
Definition cache_ok (st : fq_state db S) : Prop :=
  ∀ q d, fw_descriptors st !! q = Some d → qd_id d = q ∧ qd_tenantId d = tenant q.

Definition st_ok (st : fq_state db S) : Prop := good (fw_redis st) ∧ cache_ok st.

Definition move (st st' : fq_state db S) : Prop :=
  (∃ ops, Forall allowed ops ∧ fq_step ops (fw_redis st) (fw_redis st')) ∧
  (cache_ok st → cache_ok st').

Definition moves : relation (fq_state db S) := rtc move.

Lemma moves_ok st st' : moves st st' → st_ok st → st_ok st'.
Proof.
  induction 1 as [|st st1 st2 [(ops & _ & Hop) Hc] _ IH]; [done|]. intros [Hg Hk].
  apply IH. split; [by eapply step_good|by apply Hc].
Qed.

(** The others move along steps too, and have more turns before than after. *)
Definition trace (w w' : fq_world db S) : Prop :=
  moves (fw_state w) (fw_state w') ∧ fw_env w' `suffix_of` fw_env w.

Definition w_ok (w : fq_world db S) : Prop :=
  st_ok (fw_state w) ∧ Forall (λ f, ∀ st, st_ok st → moves st (f st)) (fw_env w).

#[export] Instance trace_preorder : PreOrder trace.
Proof.
  split.
  - intros w. split; [apply rtc_refl|done].
  - intros w1 w2 w3 [H1 H2] [H3 H4]. split; by etrans.
Qed.

Lemma fq_trace_ok w w' : trace w w' → w_ok w → w_ok w'.
Proof.
  intros [Hm [l Hl]] [Hs He]. split; [by eapply moves_ok|]. rewrite Hl in He.
  by apply Forall_app in He as [_ ?].
Qed.

Lemma interfere_trace w : w_ok w → trace w (interfere w).
Proof.
  destruct w as [st [|f env]]; [done|]. intros [Hs He]. apply Forall_cons in He as [Hf _].
  split; [by apply Hf|]. apply suffix_cons_r. done.
Qed.

(** A method that moves along steps and whose results satisfy [φ]. *)
Definition ok_method {A} (m : M A) (φ : A → Prop) : Prop := tracked trace w_ok m φ.

(** ** Rules *)

Lemma ok_ret {A} (a : A) (φ : A → Prop) : φ a → ok_method (ret a) φ.
Proof. apply (tracked_ret trace w_ok). Qed.

Lemma ok_throw {A} e (φ : A → Prop) : ok_method (throw e) φ.
Proof. apply (tracked_throw trace w_ok). Qed.

Lemma ok_bind {A B} (m : M A) (f : A → M B) (φ : A → Prop) (ψ : B → Prop) :
  ok_method m φ → (∀ a, φ a → ok_method (f a) ψ) → ok_method (bind m f) ψ.
Proof. apply (tracked_bind trace w_ok fq_trace_ok). Qed.

Lemma ok_catch {A} (m : M A) h (φ : A → Prop) :
  ok_method m φ → (∀ e, ok_method (h e) φ) → ok_method (catch m h) φ.
Proof. apply (tracked_catch trace w_ok fq_trace_ok). Qed.

Lemma ok_weaken {A} (m : M A) (φ ψ : A → Prop) :
  (∀ a, φ a → ψ a) → ok_method m φ → ok_method m ψ.
Proof. apply (tracked_weaken trace w_ok). Qed.

Lemma ok_each {A} (body : A → M unit) (l : list A) :
  (∀ a, a ∈ l → ok_method (body a) anything) → ok_method (each body l) anything.
Proof. apply (tracked_each trace w_ok fq_trace_ok). Qed.

Lemma ok_collect {A B} (body : A → M B) (φ : B → Prop) (l : list A) :
  (∀ a, a ∈ l → ok_method (body a) φ) → ok_method (collect body l) (Forall φ).
Proof. apply (tracked_collect trace w_ok fq_trace_ok). Qed.

(** Steps of the database alone. *)
Definition db_moves : relation db := rtc (λ s s', ∃ ops, Forall allowed ops ∧ fq_step ops s s').

Lemma db_moves_moves s st :
  db_moves (fw_redis st) s → moves st (with_redis s st).
Proof.
  intros H. remember (fw_redis st) as s0 eqn:E0.
  assert (st = with_redis s0 st) as Hst by (subst; by destruct st).
  rewrite Hst at 1. clear Hst E0. induction H as [|s0 s1 s2 (ops & Ha & Hop) _ IH]; [apply rtc_refl|].
  eapply rtc_l; [|exact IH]. split; [by exists ops|done].
Qed.

(** A script that is a sequence of steps, after what the others did. *)
Lemma ok_script {A} (f : db → outcome fq_error A * db) (φ : A → Prop) :
  (∀ s, good s → db_moves s (f s).2 ∧ ∀ a, (f s).1 = Ok a → φ a) → ok_method (q_script f) φ.
Proof.
  intros Hf w Hw. unfold q_script. pose proof (interfere_trace _ Hw) as Ht.
  pose proof (fq_trace_ok _ _ Ht Hw) as Hw1. set (w1 := interfere w) in *.
  destruct (Hf (fw_redis (fw_state w1))) as [Hop Hφ]; [apply Hw1|].
  destruct (f _) as [r s]. split; [|exact Hφ]. etrans; [exact Ht|]. split; [|done].
  by apply db_moves_moves.
Qed.

Lemma same_queue_refl s : same_queue K names bound s s.
Proof. by split. Qed.

Lemma ok_get {A} (f : db → A) (φ : A → Prop) : (∀ s, good s → φ (f s)) → ok_method (q_get f) φ.
Proof.
  intros Hf. apply ok_script. intros s Hs. split; [|intros a [= <-]; by apply Hf].
  apply rtc_refl.
Qed.

Lemma ok_run {A} (f : db → A * db) (φ : A → Prop) :
  (∀ s, good s → (∃ ops, Forall allowed ops ∧ fq_step ops s (f s).2) ∧ φ (f s).1) →
  ok_method (q_run f) φ.
Proof.
  intros Hf. apply ok_script. intros s Hs. destruct (Hf s Hs) as [Hop Hφ]. destruct (f s).
  split; [by apply rtc_once|]. by intros ? [= <-].
Qed.

Lemma ok_dos (f : db → db) : (∀ s, good s → db_moves s (f s)) → ok_method (q_do f) anything.
Proof. intros Hf. apply ok_script. intros s Hs. split; [by apply Hf|done]. Qed.

Lemma ok_do (f : db → db) :
  (∀ s, good s → ∃ ops, Forall allowed ops ∧ fq_step ops s (f s)) → ok_method (q_do f) anything.
Proof. intros Hf. apply ok_dos. intros s Hs. by apply rtc_once, Hf. Qed.

Lemma ok_mem {A} (f : fq_state db S → A) (φ : A → Prop) :
  (∀ st, cache_ok st → φ (f st)) → ok_method (q_mem f) φ.
Proof. intros Hf. apply (tracked_read trace w_ok). intros w [[_ Hc] _]. by apply Hf. Qed.

Lemma ok_upd {A} (f : fq_state db S → A * fq_state db S) (φ : A → Prop) :
  (∀ st, cache_ok st → fw_redis (f st).2 = fw_redis st ∧ cache_ok (f st).2 ∧ φ (f st).1) →
  ok_method (q_upd f) φ.
Proof.
  intros Hf. apply (tracked_act trace w_ok). intros w [[Hg Hc] _].
  destruct (Hf (fw_state w) Hc) as (Hr & Hc' & Hφ). destruct (f (fw_state w)) as [a st']. cbn in *.
  split; [|done]. split; [|done]. apply rtc_once. split; [|done].
  exists []. split; [done|]. cbn. rewrite Hr. apply step_other, same_queue_refl.
Qed.

Lemma ok_set (f : fq_state db S → fq_state db S) :
  (∀ st, cache_ok st → fw_redis (f st) = fw_redis st ∧ cache_ok (f st)) →
  ok_method (q_set f) anything.
Proof. intros Hf. apply ok_upd. intros st Hc. by destruct (Hf st Hc). Qed.

End Traces.
