(* ===== verification/FairMethods.v ===== *)
(** * FairMethods: the methods of the fair queue are traces of steps

    Every method of the fair queue moves the database along the step relation of
    [FairInvariants], whatever the others do meanwhile.  The theorem is proved
    against the interface of the scheduler ([SchedulerLaws]); [FairPolicies] shows
    that [DRRScheduler] satisfies it. *)

From Stdlib Require Import SpecFloat.
From S2P Require Import Prelude Text Redis Listing JumpHash SimpleQueue FairKeys FairScripts FairRetry.
From S2P Require Import Effect FairWorld FairManagers FairSchedulers FairQueue FairSystem FairSteps.
From S2P Require Import FairLevels FairInvariants FairTraces.
Local Open Scope Z_scope.
Local Open Scope effect_scope.

(** ** The interface of a scheduler *)

Section Scheduler.
Context {P X db S : Type} {R : Redis (fq_value P X) db}.
Context (K : FairQueueKeyProducer) (home : homes P) (shard shardT : string → Z).
Context (names : list string) (bound : bounds R).

(** The queues selected for a tenant are queues of the tenant. *)
Definition owned (t : TenantQueues) : Prop :=
  Forall (λ q, extractTenantId K q = tq_tenantId t) (tq_queues t).

(** What the fair queue promises to the scheduler. *)
Record context_ok (E : string → Prop) (c : SchedulerContext db S) : Prop := {
  ctx_current_ok g i :
    ok_method K home shard shardT names bound E (ctx_getCurrentConcurrency c g i) anything;
  ctx_limit_ok g i :
    ok_method K home shard shardT names bound E (ctx_getConcurrencyLimit c g i) anything;
  ctx_capacity_ok g i :
    ok_method K home shard shardT names bound E (ctx_isAtCapacity c g i) anything;
  ctx_queues_ok t l :
    ok_method K home shard shardT names bound E (ctx_getQueuesForTenant c t l)
      (Forall (λ q, extractTenantId K (qs_queueId q) = t));
}.

(** What the scheduler promises to the fair queue. *)
Class SchedulerLaws (sched : FairScheduler db S) : Prop := {
  select_ok E f now n consumerId c :
    sc_selectQueuesFromDispatch sched = Some f → context_ok E c →
    ok_method K home shard shardT names bound E (f now (dispatchKey K n) consumerId c) (Forall owned);
  record_ok E f t q :
    sc_recordProcessed sched = Some f → ok_method K home shard shardT names bound E (f t q) anything;
  record_batch_ok E f t q n :
    sc_recordProcessedBatch sched = Some f →
    ok_method K home shard shardT names bound E (f t q n) anything;
}.

(** The keys of the groups are not keys of the client, and the bound holds for the
    limits as long as the settings hold. *)
Definition groups_bounded (groups : list (Concurrency.ConcurrencyGroupConfig db)) : Prop :=
  ∀ g i, g ∈ groups →
    ¬ client bound (concurrencyKey K (Concurrency.cg_name g) i) ∧
    ∀ s, settings bound s → Concurrency.group_limit g i s ≤ bound (Concurrency.cg_name g) i.

End Scheduler.

Section Methods.
Context {P X db S : Type} {R : Redis (fq_value P X) db} {L : RedisLaws R}.
Context (sha256 : string → list Z) (options : FairQueueOptions P db S).
Local Notation K := (fo_keys options).
Context {KL : FairKeyLaws K}.
Context (home : homes P) (bound : bounds R).
Local Notation shard := (getShardForQueue sha256 options).
Local Notation shardT := (getShardForTenant sha256 options).
Local Notation groups := (fo_concurrencyGroups options).
Local Notation names := (Concurrency.cg_name <$> groups).
Local Notation V := (fq_value P X).
Local Notation tenant := (extractTenantId K).
Local Notation M := (FqM db S).
Local Notation fq_step := (fq_step K home shard shardT names bound).
Local Notation good := (good K home shard shardT names bound).
Local Notation typed := (typed K home shard shardT).

Context (Hshards : 1 ≤ shardCount options).
Context (Hnames : Forall (λ g, has_char ":" g = false) names).
Context (Hbound : groups_bounded K bound groups).
Context {SL : SchedulerLaws K home shard shardT names bound (fo_scheduler options)}.

Section Parts.
Context (E : string → Prop).
Local Notation ok := (ok_method (S := S) K home shard shardT names bound E).
Local Notation allowed := (allowed (P := P) (X := X) E).
Local Notation r_bind := (ok_bind K home shard shardT names bound Hnames E).
Local Notation r_catch := (ok_catch K home shard shardT names bound Hnames E).
Local Notation r_each := (ok_each K home shard shardT names bound Hnames E).
Local Notation r_collect := (ok_collect K home shard shardT names bound Hnames E).
Local Notation r_ret := (ok_ret K home shard shardT names bound E).
Local Notation r_throw := (ok_throw K home shard shardT names bound E).
Local Notation r_weaken := (ok_weaken K home shard shardT names bound E).
Local Notation r_do := (ok_do K home shard shardT names bound Hnames E).
Local Notation r_dos := (ok_dos K home shard shardT names bound Hnames E).
Local Notation r_script := (ok_script K home shard shardT names bound Hnames E).
Local Notation r_run := (ok_run K home shard shardT names bound Hnames E).
Local Notation r_get := (ok_get K home shard shardT names bound Hnames E).
Local Notation r_mem := (ok_mem K home shard shardT names bound E).
Local Notation r_set := (ok_set K home shard shardT names bound E).

Lemma allowed_one m o : (ends o → E m) → Forall allowed [(m, o)].
Proof. intros H. by apply Forall_singleton. Qed.

(** Operations that end no delivery. *)
Lemma allowed_all {A} (f : A → string * mop V) l :
  (∀ a, ¬ ends (f a).2) → Forall allowed (f <$> l).
Proof. intros H. apply Forall_fmap, Forall_true. intros a Ha. by destruct (H a). Qed.

Lemma visibility_shard q : Visibility.getShardForQueue sha256 (shardCount options) q = shard q.
Proof.
  unfold Visibility.getShardForQueue, getShardForQueue, MasterQueue.getShardForQueue,
    MasterQueue.shardCount. by rewrite Z.max_r.
Qed.

(** ** Visibility *)

Lemma removeFromInflight_ok m :
  wf_id m → E m → ok (Visibility.removeFromInflight K (shard (home m)) m (home m)) anything.
Proof.
  intros Hm HE. unfold Visibility.removeFromInflight. eapply r_bind; [|intros _ _].
  - apply r_do. intros s _. exists [(m, Unlink)]. split; [by apply allowed_one|by constructor].
  - apply r_do. intros s _. exists [(m, Forget)]. split; [by apply allowed_one|by constructor].
Qed.

(** A claimed message is a message of its queue. *)
Definition claimed_ok (q : string) (p : string * V) : Prop :=
  home p.1 = q ∧ wf_id p.1 ∧ msg_ok K home p.1 p.2.

Lemma claim_results q d n s :
  typed s →
  Forall (claimed_ok q)
    (claimMessageBatch (queueKey K q) (queueItemsKey K q) (inflightKey K (shard q))
       (inflightDataKey K (shard q)) q d n s).1.
Proof.
  intros Hs. unfold claimMessageBatch. pose proof (claimable_ok K home shard shardT q (n - 1) s Hs) as Hit.
  revert s Hs Hit. generalize (ZRANGE (queueKey K q) (n - 1)) as it. intros it s Hs.
  generalize (it s) as items. clear it. intros items Hit. revert s Hs.
  induction Hit as [|[m z] items [Hq Hm] _ IH]; intros s Hs; [constructor|]. cbn [claim_loop].
  destruct (HGET (queueItemsKey K q) m s) as [v|] eqn:E'.
  - pose proof (typed_h _ _ _ _ _ Hs (FhItems q) m v E') as (_ & _ & Hv).
    set (s1 := claim_one _ _ _ _ _ _ _ _ s). assert (typed s1) as Hs1.
    { eapply (writes_typed K); [|done]. by apply writes_claim_one. }
    specialize (IH s1 Hs1). destruct (claim_loop _ _ _ _ _ _ _ s1) as [res s2]. by constructor.
  - apply IH. eapply (write_typed K); [|done].
    change (queueKey K q) with (fz_key K (FzQueue q)). constructor.
Qed.

Definition inflight_ok (q : string) (i : Visibility.InFlightMessage P) : Prop :=
  home (Visibility.if_messageId i) = q ∧ wf_id (Visibility.if_messageId i) ∧
  sm_id (Visibility.if_payload i) = Visibility.if_messageId i.

Lemma parse_claimed_ok n q c d result :
  Forall (claimed_ok q) result →
  ok (Visibility.parse_claimed K n q c d result) (Forall (inflight_ok q)).
Proof.
  induction 1 as [|[m v] result (Hq & Hm & Hv) _ IH]; cbn [Visibility.parse_claimed];
    [by apply r_ret|]. destruct Hm as [Hc Ht]. cbn [fst] in Ht. rewrite Ht.
  cbn [fst snd] in *. destruct Hv as (sm & -> & Hid & _). cbn [parse_message].
  eapply r_bind; [exact IH|]. intros ms Hms. apply r_ret. by constructor.
Qed.

Lemma claimBatch_ok now q c n t :
  ok (Visibility.claimBatch K sha256 (shardCount options) (visibilityTimeoutMs options) now q
        (queueKey K q) (queueItemsKey K q) c n t) (Forall (inflight_ok q)).
Proof.
  unfold Visibility.claimBatch. rewrite visibility_shard. eapply r_bind.
  - apply r_run. intros s Hs. split; [|apply claim_results, Hs].
    eexists. split; [|apply step_claim]. apply allowed_all. by intros a [|].
  - intros res Hres. by apply parse_claimed_ok.
Qed.

Lemma heartbeat_ok now m q x :
  home m = q → wf_id m →
  ok (Visibility.heartbeat K sha256 (shardCount options) now m q x) anything.
Proof.
  intros <- Hm. unfold Visibility.heartbeat. rewrite visibility_shard. eapply r_bind.
  - apply (r_run _ anything). intros s Hs. split; [|done]. eexists. split; [|by apply step_extend].
    apply allowed_one. by intros [|].
  - intros r _. by apply r_ret.
Qed.

Lemma complete_ok m q :
  home m = q → wf_id m → E m →
  ok (Visibility.complete K sha256 (shardCount options) m q) anything.
Proof.
  intros <- Hm HE. unfold Visibility.complete. rewrite visibility_shard. by apply removeFromInflight_ok.
Qed.

Lemma releaseMessage_step q m z u :
  home m = q → wf_id m → from_option (msg_ok K home m) True u →
  ok (q_run (FairScripts.releaseMessage (inflightKey K (shard q)) (inflightDataKey K (shard q))
        (queueKey K q) (queueItemsKey K q) (tenantQueueIndexKey K (tenant q))
        (dispatchKey K (shardT (tenant q))) (makeMember m q) m z q u (tenant q))) anything.
Proof.
  intros Hq Hm Hu. apply r_run. intros s Hs. split; [|done].
  eexists. split; [|by apply step_return]. apply allowed_one. by intros [|].
Qed.

Lemma release_to_queue_ok now m q t z u :
  home m = q → wf_id m → t = tenant q → from_option (msg_ok K home m) True u →
  ok (release_to_queue sha256 options now m q t z u) anything.
Proof.
  intros Hq Hm -> Hu. unfold release_to_queue, Visibility.release. rewrite visibility_shard.
  eapply r_bind; [by apply releaseMessage_step|]. intros _ _. by apply r_ret.
Qed.

Lemma release_raises_ok m q :
  home m = q → wf_id m → E m →
  ok (Visibility.release_raises K sha256 (shardCount options) m q) anything.
Proof.
  intros <- Hm HE. unfold Visibility.release_raises. rewrite visibility_shard.
  eapply r_bind; [by apply (r_get _ anything)|]. intros [v|] _; [|by apply r_ret].
  eapply r_bind; [by apply removeFromInflight_ok|]. intros _ _. apply r_throw.
Qed.

Lemma releaseBatch_ok now ms q :
  Forall (inflight_ok q) ms →
  ok (Visibility.releaseBatch K sha256 (shardCount options) now ms q (queueKey K q)
        (queueItemsKey K q) (tenantQueueIndexKey K (tenant q)) (dispatchKeyOf sha256 options (tenant q))
        (tenant q) None) anything.
Proof.
  intros Hms. unfold Visibility.releaseBatch. destruct ms as [|i ms]; [by apply r_ret|].
  set (l := i :: ms) in *. rewrite visibility_shard. eapply r_bind; [|intros _ _; by apply r_ret].
  apply (r_run _ anything). intros s Hs. split; [|done].
  assert ((λ m : Visibility.InFlightMessage P,
             (makeMember (Visibility.if_messageId m) q, Visibility.if_messageId m)) <$> l =
          (λ m, (makeMember m q, m)) <$> (Visibility.if_messageId <$> l)) as ->
    by by rewrite <- list_fmap_compose.
  eexists. split; [|apply step_return_batch].
  - apply allowed_all. by intros a [|].
  - apply Forall_fmap. eapply Forall_impl; [done|]. intros j (H1 & H2 & _). done.
Qed.

(** [parseMember] finds the message and the queue of a member. *)
Lemma cut_member m q : wf_id m → cut ":" (makeMember m q) = Some (m, q).
Proof.
  intros [Hm _]. unfold makeMember, cut.
  rewrite cut_where_app by done. change (":" +:+ q) with (":" ++ q)%string.
  rewrite cut_where_prefix by done. simpl. by rewrite string_app_nil_r.
Qed.

Lemma parseMember_ok m q : wf_id m → Visibility.parseMember (makeMember m q) = (m, q).
Proof. intros Hm. unfold Visibility.parseMember. by rewrite cut_member. Qed.

Lemma reclaim_one_ok now m :
  wf_id m →
  ok (Visibility.reclaim_one K now (shard (home m)) (getQueueKeys sha256 options)
        (makeMember m (home m))) anything.
Proof.
  intros Hm. unfold Visibility.reclaim_one. rewrite parseMember_ok by done.
  eapply r_bind; [by apply (r_get _ anything)|]. intros data _.
  eapply r_bind; [by apply releaseMessage_step|]. intros _ _. case_match; by apply r_ret.
Qed.

Lemma reclaimTimedOut_ok now n :
  ok (Visibility.reclaimTimedOut K now n (getQueueKeys sha256 options)) anything.
Proof.
  unfold Visibility.reclaimTimedOut.
  eapply r_bind.
  { apply (r_get _ (Forall (λ p, z_ok K home shard shardT (FzInflight n) p.1))). intros s Hs.
    apply Forall_forall. intros [e x] [He _]%ZRANGEBYSCORE_elem.
    apply (typed_z _ _ _ _ _ (good_typed _ _ _ _ _ _ _ Hs) (FzInflight n) e x He). }
  intros timedOut Ht. eapply r_weaken; [|apply (r_collect _ anything)]; [done|].
  intros e [_ He]%list_elem_of_filter. apply list_elem_of_fmap in He as (p & -> & Hp).
  rewrite Forall_forall in Ht. destruct (Ht p Hp) as (m & -> & Hm & ->). by apply reclaim_one_ok.
Qed.

(** ** Concurrency and worker queues *)

Lemma managed_ok {A} (f : list (Concurrency.ConcurrencyGroupConfig db) → M A) (otherwise : M A) φ :
  ok (f groups) φ → ok otherwise φ → ok (if_managed options f otherwise) φ.
Proof. intros Hf Ho. unfold if_managed, concurrencyManager. by destruct groups. Qed.

Lemma Concurrency_release_ok d m : ok (Concurrency.release K groups d m) anything.
Proof.
  apply r_each. intros g Hg. apply r_do. intros s _. exists []. split; [done|]. apply step_free.
  by apply Hbound.
Qed.

Lemma releaseConcurrency_ok d m : ok (releaseConcurrency options d m) anything.
Proof. apply managed_ok; [apply Concurrency_release_ok|by apply r_ret]. Qed.

Lemma isAtCapacity_ok g i : ok (isAtCapacity options g i) anything.
Proof.
  apply managed_ok; [|by apply r_ret]. unfold Concurrency.isAtCapacity.
  eapply r_bind; [by apply (r_get _ anything)|]. intros c _.
  eapply (r_bind _ _ anything); [|intros; by apply r_ret]. unfold Concurrency.getConcurrencyLimit.
  case_match; [by apply r_get|apply r_throw].
Qed.

Lemma reserve_ok d m : ok (Concurrency.reserve K groups d m) anything.
Proof.
  unfold Concurrency.reserve. eapply r_bind.
  { apply (r_get _ (Forall (slot_ok K names bound))). intros s Hs. apply Forall_fmap, Forall_forall.
    intros g Hg. exists (Concurrency.cg_name g), (Concurrency.cg_extractGroupId g d).
    destruct (Hbound g (Concurrency.cg_extractGroupId g d) Hg) as [Hc Hl].
    split; [by apply list_elem_of_fmap_2|]. split; [done|]. split; [done|]. apply Hl, Hs. }
  intros data Hd. eapply r_bind; [|intros; by apply r_ret]. apply (r_run _ anything). intros s _.
  split; [|done]. exists []. split; [done|by apply step_reserve].
Qed.

Lemma push_ok w m q : home m = q → wf_id m → ok (WorkerQueues.push K w (makeMember m q)) anything.
Proof.
  intros <- Hm. apply r_do. intros s _. exists []. split; [done|]. apply step_push. by exists m.
Qed.

(** ** Enqueueing *)

Lemma cache_descriptor_ok q t md : t = tenant q → ok (cache_descriptor q t md) anything.
Proof.
  intros ->. apply r_set. intros st Hc. split; [done|]. intros q' d. cbn.
  rewrite lookup_insert_Some. intros [[<- <-]|[_ ?]]; [done|by apply Hc].
Qed.

Lemma new_message_ok m q payload z md :
  home m = q → pay home m payload →
  msg_ok (X := X) K home m (FMsg (new_message options m q (tenant q) payload z md)).
Proof. intros <- Hp. by eexists. Qed.

Lemma enqueue_ok now nanoid (o : EnqueueOptions P) :
  let m := default nanoid (eo_messageId o) in
  home m = eo_queueId o → wf_id m → eo_tenantId o = tenant (eo_queueId o) → pay home m (eo_payload o) →
  ok (enqueue sha256 options now nanoid o) anything.
Proof.
  intros m Hq Hm Ht Hp. unfold enqueue. case_match; [|apply r_throw].
  eapply r_bind; [by apply cache_descriptor_ok|]. intros _ _. rewrite Ht.
  eapply r_bind; [|intros; by apply r_ret]. apply r_do. intros s _.
  eexists. split; [|apply (step_enqueue K home _ shardT names bound (eo_queueId o)
                             [(m, default now (eo_timestamp o), _)])].
  - apply allowed_one. by intros [|].
  - apply Forall_singleton. split; [done|]. split; [done|]. by apply new_message_ok.
Qed.

(** The ids, queue and tenant of a batch. *)
Definition batch_ok (q : string) (b : BatchMessage P) : Prop :=
  let m := default (bm_nanoid b) (bm_messageId b) in
  home m = q ∧ wf_id m ∧ pay home m (bm_payload b).

Lemma batch_args_ok now q md messages :
  Forall (batch_ok q) messages →
  ok (batch_args (X := X) options now q (tenant q) md messages)
    (Forall (λ '(m, _, v), home m = q ∧ wf_id m ∧ msg_ok K home m v)).
Proof.
  induction 1 as [|b messages (Hq & Hm & Hp) _ IH]; cbn [batch_args]; [by apply r_ret|].
  case_match; [|apply r_throw]. eapply r_bind; [exact IH|]. intros args Hargs. apply r_ret.
  constructor; [|done]. split; [done|]. split; [done|]. by apply new_message_ok.
Qed.

Lemma enqueueBatch_ok now (o : EnqueueBatchOptions P) :
  eb_tenantId o = tenant (eb_queueId o) → Forall (batch_ok (eb_queueId o)) (eb_messages o) →
  ok (enqueueBatch sha256 options now o) anything.
Proof.
  intros Ht Hb. unfold enqueueBatch. rewrite Ht.
  eapply r_bind; [by apply cache_descriptor_ok|]. intros _ _.
  eapply r_bind; [by apply batch_args_ok|]. intros args Ha.
  eapply r_bind; [|intros; by apply r_ret]. apply r_do. intros s _.
  eexists. split; [|by apply (step_enqueue K home _ shardT names bound (eb_queueId o))].
  apply allowed_all. by intros [[? ?] ?] [|].
Qed.

(** ** Dead letters *)

Lemma read_dead_ok t k results :
  k = deadLetterQueueDataKey K t → ok (read_dead k results) anything.
Proof.
  intros ->. induction results as [|[m z] results IH]; cbn [read_dead]; [by apply r_ret|].
  eapply r_bind; [|intros data _].
  { case_match; [by apply (r_get _ anything)|by apply r_ret]. }
  eapply r_bind; [exact IH|]. intros ms _. by apply r_ret.
Qed.

Lemma redriveMessage_ok now nanoid t m : ok (redriveMessage sha256 options now nanoid t m) anything.
Proof.
  unfold redriveMessage. case_match; [|by apply r_ret].
  eapply r_bind.
  { apply (r_get _ (λ o, ∀ v, o = Some v → h_ok K home shard (FhDead t) m v)). intros s Hs v Hv.
    by apply (typed_h _ _ _ _ _ (good_typed _ _ _ _ _ _ _ Hs) (FhDead t) m v). }
  intros [v|] Hv; [|by apply r_ret]. destruct (Hv v eq_refl) as (Ht & Hm & d & -> & Hid & Hq & Htn & Hp).
  cbn [nonempty parse_dead]. eapply (r_bind _ _ anything).
  { apply enqueue_ok; cbn; congruence || by rewrite Hid. }
  intros _ _. rewrite <- Ht. eapply r_bind; [|intros _ _].
  { apply r_do. intros s _. eexists. split; [|apply step_exhume]. apply allowed_one. by intros [|]. }
  eapply r_bind; [|intros; by apply r_ret]. apply r_do. intros s _.
  eexists. split; [|apply step_unearth]. apply allowed_one. by intros [|].
Qed.

Lemma redriveAll_ok now nanoid t : ok (redriveAll sha256 options now nanoid t) anything.
Proof.
  unfold redriveAll. eapply (r_bind _ _ anything).
  { unfold getDeadLetterMessages. case_match; [|by apply r_ret].
    eapply r_bind; [by apply (r_get _ anything)|]. intros results _. by eapply read_dead_ok. }
  intros ms _. eapply r_bind; [|intros; by apply r_ret]. apply (r_collect _ anything).
  intros d _. apply redriveMessage_ok.
Qed.

Lemma purgeDeadLetterQueue_ok t : ok (purgeDeadLetterQueue options t) anything.
Proof.
  unfold purgeDeadLetterQueue, keys. case_match; [|by apply r_ret].
  eapply r_bind; [by apply (r_get _ anything)|]. intros c _.
  eapply r_bind; [|intros _ _; eapply r_bind; [|intros; by apply r_ret]].
  - apply r_dos. intros s Hs. unfold DEL_zset.
    assert (Forall (λ m, tenant (home m) = t) (map_to_list (ZALL (deadLetterQueueKey K t) s)).*1) as Hl.
    { apply Forall_fmap, Forall_forall. intros [m x] Hm%elem_of_map_to_list.
      apply (typed_z _ _ _ _ _ (good_typed _ _ _ _ _ _ _ Hs) (FzDead t) m x Hm). }
    revert Hl. generalize ((map_to_list (ZALL (deadLetterQueueKey K t) s)).*1) as l. intros l Hl.
    induction Hl as [|m l <- _ IH]; [apply rtc_refl|]. cbn [foldr]. eapply rtc_r; [exact IH|].
    eexists. split; [|apply step_exhume]. apply allowed_one. by intros [|].
  - apply r_dos. intros s Hs. unfold DEL_hash.
    assert (Forall (λ m, tenant (home m) = t) (map_to_list (HALL (deadLetterQueueDataKey K t) s)).*1)
      as Hl.
    { apply Forall_fmap, Forall_forall. intros [m x] Hm%elem_of_map_to_list.
      apply (typed_h _ _ _ _ _ (good_typed _ _ _ _ _ _ _ Hs) (FhDead t) m x Hm). }
    revert Hl. generalize ((map_to_list (HALL (deadLetterQueueDataKey K t) s)).*1) as l. intros l Hl.
    induction Hl as [|m l <- _ IH]; [apply rtc_refl|]. cbn [foldr]. eapply rtc_r; [exact IH|].
    eexists. split; [|apply step_unearth]. apply allowed_one. by intros [|].
Qed.

(** ** Memory and indexes *)

Lemma resetCooloff_ok q : ok (resetCooloff q) anything.
Proof. by apply r_set. Qed.

Lemma isInCooloff_ok now q : ok (isInCooloff now q) anything.
Proof.
  unfold isInCooloff. eapply r_bind; [by apply (r_mem _ anything)|]. intros st _.
  repeat case_match; try by apply r_ret. eapply r_bind; [apply resetCooloff_ok|]. intros. by apply r_ret.
Qed.

Lemma forget_queue_ok q : ok (forget_queue q) anything.
Proof.
  unfold forget_queue. eapply r_bind; [|intros; by apply r_set]. apply r_set. intros st Hc.
  split; [done|]. intros q' d. cbn. rewrite lookup_delete_Some. intros [_ ?]. by apply Hc.
Qed.

Lemma updateAllIndexes_ok q t :
  t = tenant q → ok (updateAllIndexesAfterDequeue sha256 options q t) anything.
Proof.
  intros ->. unfold updateAllIndexesAfterDequeue. eapply r_bind; [|intros a _].
  { apply (r_run _ anything). intros s _. split; [|done]. exists []. split; [done|apply step_master]. }
  eapply r_bind; [|intros b _; by apply r_ret].
  apply (r_run _ anything). intros s _. split; [|done]. exists []. split; [done|apply step_dispatch].
Qed.

Lemma context_is_ok now : context_ok K home shard shardT names bound E (createSchedulerContext options now).
Proof.
  split; intros; cbn.
  - apply managed_ok; [by apply r_get|by apply r_ret].
  - apply managed_ok; [|by apply r_ret]. eapply (r_bind _ _ anything); [|intros; by apply r_ret].
    unfold Concurrency.getConcurrencyLimit. case_match; [by apply r_get|apply r_throw].
  - apply isAtCapacity_ok.
  - apply r_get. intros s Hs. apply Forall_fmap, Forall_forall.
    intros [q x] [_ [Hq _]%ZRANGEBYSCORE_elem]%list_elem_of_filter.
    apply (typed_z _ _ _ _ _ (good_typed _ _ _ _ _ _ _ Hs) (FzTenant t) q x Hq).
Qed.

(** ** Claiming *)

Lemma push_claimed_ok now d q t ms :
  t = tenant q → Forall (inflight_ok q) ms → ok (push_claimed sha256 options now d q t ms) anything.
Proof.
  intros ->. induction 1 as [|i ms Hi Hms IH]; cbn [push_claimed]; [by apply r_ret|].
  eapply (r_bind _ _ anything); [apply managed_ok; [apply reserve_ok|by apply r_ret]|].
  intros [|] _.
  - destruct Hi as (Hq & Hm & _). eapply r_bind; [by apply push_ok|]. intros _ _.
    eapply r_bind; [exact IH|]. intros. by apply r_ret.
  - eapply r_bind; [apply releaseBatch_ok; by constructor|]. intros. by apply r_ret.
Qed.

Lemma getAvailableCapacity_ok gs d : ok (Concurrency.getAvailableCapacity K gs d) anything.
Proof.
  unfold Concurrency.getAvailableCapacity. destruct gs; [by apply r_ret|].
  eapply r_bind; [by apply (r_get _ anything)|]. intros cs _.
  eapply r_bind; [by apply (r_get _ anything)|]. intros ls _. case_match; by apply r_ret.
Qed.

Lemma claim_budget_ok d : ok (claim_budget options d) anything.
Proof.
  unfold claim_budget. eapply (r_bind _ _ anything).
  { apply managed_ok; [|by apply r_ret]. eapply (r_bind _ _ anything); [|intros; by apply r_ret].
    apply getAvailableCapacity_ok. }
  intros c _. repeat case_match; try by apply r_ret.
  eapply r_bind; [by apply (r_get _ anything)|]. intros. by apply r_ret.
Qed.

Lemma claimAndPush_ok now loopId q t :
  t = tenant q → ok (claimAndPushToWorkerQueue sha256 options now loopId q t) anything.
Proof.
  intros Ht. unfold claimAndPushToWorkerQueue. eapply r_bind; [by apply (r_mem _ anything)|]. intros d _.
  eapply r_bind; [apply claim_budget_ok|]. intros [n|] _; [|by apply r_ret].
  eapply r_bind; [apply claimBatch_ok|]. intros [|i ms] Hms.
  - eapply r_bind; [by apply updateAllIndexes_ok|]. intros b _.
    eapply r_bind; [apply forget_queue_ok|]. intros. by apply r_ret.
  - eapply r_bind; [by apply push_claimed_ok|]. intros c _.
    eapply (r_bind _ _ anything); [|intros; by apply r_ret].
    case_match; [apply resetCooloff_ok|by apply r_ret].
Qed.

Lemma record_processed_ok t q n : ok (record_processed options t q n) anything.
Proof.
  unfold record_processed, scheduler. destruct (sc_recordProcessedBatch _) as [f|] eqn:E1.
  { by eapply record_batch_ok. }
  destruct (sc_recordProcessed _) as [f|] eqn:E2; [|by apply r_ret].
  apply r_each. intros a _. by eapply record_ok.
Qed.

Lemma process_queues_ok now loopId t qs :
  Forall (λ q, tenant q = t) qs → ok (process_queues sha256 options now loopId t qs) anything.
Proof.
  induction 1 as [|q qs Hq Hqs IH]; cbn [process_queues]; [by apply r_ret|].
  eapply (r_bind _ _ anything); [case_match; [apply isInCooloff_ok|by apply r_ret]|].
  intros [|] _; [exact IH|]. eapply r_bind; [apply isAtCapacity_ok|].
  intros [|] _; [by apply r_ret|]. eapply r_bind; [by apply claimAndPush_ok|]. intros n _.
  eapply (r_bind _ _ anything); [case_match; [apply record_processed_ok|by apply r_ret]|]. intros _ _.
  eapply r_bind; [exact IH|]. intros. by apply r_ret.
Qed.

Lemma processSelectedQueues_ok now loopId ts :
  Forall (owned K) ts → ok (processSelectedQueues sha256 options now loopId ts) anything.
Proof.
  intros Hts. unfold processSelectedQueues. eapply r_bind; [|intros; by apply r_ret].
  apply (r_collect _ anything). intros t Ht. rewrite Forall_forall in Hts.
  by apply process_queues_ok, Hts.
Qed.

(** ** Consumer loop *)

Lemma getQueuesForTenant_ok now t l :
  ok (TenantDispatch.getQueuesForTenant K now t l None)
    (Forall (λ q, tenant (qs_queueId q) = t)).
Proof. apply (ctx_queues_ok _ _ _ _ _ _ _ _ (context_is_ok now)). Qed.

Lemma fallback_tenants_ok now ts : ok (fallback_tenants options now ts) (Forall (owned K)).
Proof.
  induction ts as [|[t x] ts IH]; cbn [fallback_tenants]; [by apply r_ret|].
  eapply r_bind; [apply isAtCapacity_ok|]. intros [|] _; [exact IH|].
  eapply r_bind; [apply getQueuesForTenant_ok|]. intros qs Hqs.
  eapply r_bind; [exact IH|]. intros rest Hrest. apply r_ret. destruct qs as [|q qs]; [done|].
  constructor; [|done]. unfold owned. cbn [tq_queues tq_tenantId].
  by apply Forall_fmap.
Qed.

Lemma processDispatchShard_ok now loopId n :
  ok (processDispatchShard sha256 options now loopId n) anything.
Proof.
  unfold processDispatchShard, scheduler. eapply r_bind.
  { destruct (sc_selectQueuesFromDispatch _) as [f|] eqn:Ef.
    - eapply select_ok; [exact SL|done|apply context_is_ok].
    - unfold fallbackDispatchToLegacyScheduler. eapply r_bind; [by apply (r_get _ anything)|].
      intros ts _. apply fallback_tenants_ok. }
  intros [|t ts] Hts; [by apply r_ret|]. by apply processSelectedQueues_ok.
Qed.

(** Queues grouped by tenant are queues of the tenant. *)
Definition grouped (g : list (string * list string)) : Prop :=
  Forall (λ p, Forall (λ q, tenant q = p.1) p.2) g.

Lemma group_add_grouped q g : grouped g → grouped (group_add (tenant q) q g).
Proof.
  induction 1 as [|[t qs] g Hq Hg IH]; cbn [group_add]; [repeat constructor|].
  case_decide as Ht; [|by constructor]. constructor; [|done]. cbn in *.
  apply Forall_app. split; [done|]. by repeat constructor.
Qed.

Lemma groupQueues_grouped {A} (f : A → string) (l : list A) :
  grouped (groupQueuesByTenant ((λ a, (f a, tenant (f a))) <$> l)).
Proof.
  unfold groupQueuesByTenant. assert (grouped []) as H by constructor. revert H.
  generalize ([] : list (string * list string)) as g. induction l as [|a l IH]; intros g Hg; [done|].
  cbn. by apply IH, group_add_grouped.
Qed.

Lemma with_capacity_ok (g : list (string * list string)) :
  grouped g → ok (with_capacity options g) grouped.
Proof.
  induction 1 as [|[t qs] g Hq _ IH]; cbn [with_capacity]; [apply r_ret; constructor|].
  eapply r_bind; [apply isAtCapacity_ok|]. intros b _. eapply r_bind; [exact IH|]. intros rest Hr.
  apply r_ret. destruct b; [done|by constructor].
Qed.

Lemma drainLegacy_ok now loopId n : ok (drainLegacyMasterQueueShard sha256 options now loopId n) anything.
Proof.
  unfold drainLegacyMasterQueueShard. eapply r_bind; [by apply (r_get _ anything)|]. intros res _.
  eapply r_bind; [apply with_capacity_ok, groupQueues_grouped|]. intros [|t ts] Hts; [by apply r_ret|].
  apply processSelectedQueues_ok. unfold toTenantQueuesArray. apply Forall_fmap.
  eapply Forall_impl; [exact Hts|]. by intros [? ?].
Qed.

Lemma master_queue_turn_ok now loopId n : ok (master_queue_turn sha256 options now loopId n) anything.
Proof.
  unfold master_queue_turn. apply r_catch; [|intros; by apply r_ret]. unfold processShardIteration.
  eapply r_bind; [apply processDispatchShard_ok|]. intros b _.
  eapply r_bind; [by apply (r_get _ anything)|]. intros c _. case_match; [|by apply r_ret].
  eapply r_bind; [apply drainLegacy_ok|]. intros. by apply r_ret.
Qed.

(** ** Message lifecycle *)

Lemma stored_message_ok m q :
  home m = q →
  ok (stored_message sha256 options m q)
    (λ o, ∀ sm, o = Some sm → sm_id sm = m ∧ sm_queueId sm = q ∧ sm_tenantId sm = tenant q ∧
       1 ≤ sm_attempt sm ∧ pay home m (sm_payload sm)).
Proof.
  intros <-. unfold stored_message. eapply r_bind; [|intros o Ho; apply r_ret; exact Ho].
  apply r_get. intros s Hs sm. unfold HGET.
  destruct (HALL _ s !! m) as [v|] eqn:Ev; [|done]. cbn.
  destruct (typed_h _ _ _ _ _ (good_typed _ _ _ _ _ _ _ Hs) (FhData (shard (home m))) m v Ev)
    as (_ & _ & sm' & -> & ? & ? & ? & ? & ?). by intros [= <-].
Qed.

Lemma message_descriptor_ok q (sm : StoredMessage P) :
  sm_tenantId sm = tenant q →
  ok (message_descriptor q sm) (λ d, qd_tenantId d = tenant q).
Proof.
  intros Ht. apply r_mem. intros st Hc. destruct (fw_descriptors st !! q) as [d|] eqn:Ed; [|done].
  by destruct (Hc q d Ed).
Qed.

Lemma descriptor_of_ok q o :
  (∀ sm, o = Some sm → sm_tenantId sm = tenant q) →
  ok (descriptor_of options q o) (λ d, qd_tenantId d = tenant q).
Proof.
  intros Ho. destruct o as [sm|]; [by apply message_descriptor_ok, Ho|by apply r_ret].
Qed.

Lemma completeMessage_ok m q :
  home m = q → wf_id m → E m → ok (completeMessage sha256 options m q) anything.
Proof.
  intros Hq Hm HE. unfold completeMessage. eapply r_bind; [by apply stored_message_ok|]. intros o Ho.
  eapply r_bind; [apply descriptor_of_ok; naive_solver|]. intros d Hd.
  eapply r_bind; [by apply complete_ok|]. intros _ _.
  eapply (r_bind _ _ anything); [destruct o; [apply releaseConcurrency_ok|by apply r_ret]|]. intros _ _.
  eapply r_bind; [by apply updateAllIndexes_ok|]. intros [|] _; [apply forget_queue_ok|by apply r_ret].
Qed.

Lemma releaseMessage_ok now m q :
  home m = q → wf_id m → ok (FairQueue.releaseMessage sha256 options now m q) anything.
Proof.
  intros Hq Hm. unfold FairQueue.releaseMessage. eapply r_bind; [by apply stored_message_ok|]. intros o Ho.
  eapply r_bind; [apply descriptor_of_ok; naive_solver|]. intros d Hd.
  eapply r_bind; [by apply release_to_queue_ok|]. intros _ _.
  destruct o; [apply releaseConcurrency_ok|by apply r_ret].
Qed.

Lemma moveToDeadLetterQueue_ok now sm err :
  home (sm_id sm) = sm_queueId sm → sm_tenantId sm = tenant (sm_queueId sm) → wf_id (sm_id sm) →
  pay home (sm_id sm) (sm_payload sm) → E (sm_id sm) →
  ok (moveToDeadLetterQueue sha256 options now sm err) anything.
Proof.
  intros Hq Ht Hm Hp HE. unfold moveToDeadLetterQueue. case_match; [|by apply complete_ok].
  eapply r_bind; [by apply complete_ok|]. intros _ _. rewrite Ht, <- Hq.
  eapply r_bind; [|intros _ _].
  - apply r_do. intros s _. eexists. split; [|by apply step_bury]. apply allowed_one. by intros [|].
  - apply r_do. intros s _. eexists. split; [|apply step_inter]; [apply allowed_one; by intros [|]|done|].
    by eexists.
Qed.

Lemma failMessage_ok now random m q err :
  home m = q → wf_id m → E m → ok (failMessage sha256 options now random m q err) anything.
Proof.
  intros Hq Hm HE. unfold failMessage. eapply r_bind; [by apply stored_message_ok|].
  intros [sm|] Ho; [|by apply r_ret]. destruct (Ho sm eq_refl) as (Hid & Hsq & Hst & Ha & Hp). clear Ho.
  eapply r_bind; [by apply message_descriptor_ok|]. intros d Hd.
  unfold handleMessageFailure. rewrite Hid. case_match.
  - eapply (r_bind _ _ anything); [|intros; apply releaseConcurrency_ok].
    case_match; [|by apply release_raises_ok]. apply release_to_queue_ok; [done..|]. cbn.
    exists (next_attempt sm). cbn. subst. rewrite Hsq. split_and!; try done. lia.
  - eapply r_bind; [|intros; apply releaseConcurrency_ok]. apply moveToDeadLetterQueue_ok; congruence.
Qed.

(** ** Reclaim loop *)

Lemma reclaim_turn_ok now : ok (reclaim_turn sha256 options now) anything.
Proof.
  unfold reclaim_turn. apply r_catch; [|intros; by apply r_ret]. unfold reclaimTimedOutMessages.
  eapply r_bind; [|intros; by apply r_ret]. apply (r_collect _ anything). intros n _.
  unfold reclaim_shard. eapply r_bind; [apply reclaimTimedOut_ok|]. intros l _.
  eapply (r_bind _ _ anything); [|intros; by apply r_ret]. destruct l as [|i l]; [by apply r_ret|].
  apply managed_ok; [|by apply r_ret]. apply r_catch; [|intros; by apply r_ret].
  unfold Concurrency.releaseBatch. apply r_each. intros [d m] _. apply Concurrency_release_ok.
Qed.

End Parts.

(** ** Calls *)

(** The calls that change the state: the public methods and the turns of the loops. *)
Inductive fq_call : Type :=
| CallEnqueue (now : Z) (nanoid : string) (o : EnqueueOptions P)
| CallEnqueueBatch (now : Z) (o : EnqueueBatchOptions P)
| CallRedrive (now : Z) (nanoid tenantId messageId : string)
| CallRedriveAll (now : Z) (nanoid tenantId : string)
| CallPurge (tenantId : string)
| CallConsume (now : Z) (loopId : string) (shardId : Z)
| CallHeartbeat (now : Z) (messageId queueId : string)
| CallComplete (messageId queueId : string)
| CallRelease (now : Z) (messageId queueId : string)
| CallFail (now : Z) (random : spec_float) (messageId queueId : string) (error : option string)
| CallReclaim (now : Z).

(** The world after a call. *)
Definition after (c : fq_call) (w : fq_world db S) : fq_world db S :=
  match c with
  | CallEnqueue now nanoid o => (enqueue sha256 options now nanoid o w).2
  | CallEnqueueBatch now o => (enqueueBatch sha256 options now o w).2
  | CallRedrive now nanoid t m => (redriveMessage sha256 options now nanoid t m w).2
  | CallRedriveAll now nanoid t => (redriveAll sha256 options now nanoid t w).2
  | CallPurge t => (purgeDeadLetterQueue options t w).2
  | CallConsume now loopId n => (master_queue_turn sha256 options now loopId n w).2
  | CallHeartbeat now m q => (FairQueue.heartbeatMessage sha256 options now m q w).2
  | CallComplete m q => (completeMessage sha256 options m q w).2
  | CallRelease now m q => (FairQueue.releaseMessage sha256 options now m q w).2
  | CallFail now random m q err => (failMessage sha256 options now random m q err w).2
  | CallReclaim now => (reclaim_turn sha256 options now w).2
  end.

(** What a client respects: it enqueues a message to its home queue and to the
    tenant of the queue, and names messages with their queue. *)
Definition call_ok (c : fq_call) : Prop :=
  match c with
  | CallEnqueue _ nanoid o =>
      let m := default nanoid (eo_messageId o) in
      home m = eo_queueId o ∧ wf_id m ∧ eo_tenantId o = tenant (eo_queueId o) ∧ pay home m (eo_payload o)
  | CallEnqueueBatch _ o =>
      eb_tenantId o = tenant (eb_queueId o) ∧ Forall (batch_ok (eb_queueId o)) (eb_messages o)
  | CallHeartbeat _ m q | CallComplete m q | CallRelease _ m q | CallFail _ _ m q _ =>
      home m = q ∧ wf_id m
  | _ => True
  end.

(** The messages whose delivery a call may end. *)
Definition may_end (c : fq_call) (m : string) : Prop :=
  match c with CallComplete m' _ | CallFail _ _ m' _ _ => m = m' | _ => False end.

Lemma calls_are_traces (E : string → Prop) c w :
  call_ok c → (∀ m, may_end c m → E m) → w_ok K home shard shardT names bound E w →
  trace K home shard shardT names bound E w (after c w).
Proof.
  intros Hc HE Hw. destruct c; cbn [call_ok may_end after] in *.
  - destruct Hc as (? & ? & ? & ?). by apply enqueue_ok.
  - destruct Hc as (? & ?). by apply enqueueBatch_ok.
  - by apply redriveMessage_ok.
  - by apply redriveAll_ok.
  - by apply purgeDeadLetterQueue_ok.
  - by apply master_queue_turn_ok.
  - destruct Hc as (? & ?). by apply heartbeat_ok.
  - destruct Hc as (? & ?). by apply completeMessage_ok; auto.
  - destruct Hc as (? & ?). by apply releaseMessage_ok.
  - destruct Hc as (? & ?). by apply failMessage_ok; auto.
  - by apply reclaim_turn_ok.
Qed.

End Methods.
