(* ===== verification/FairPolicies.v ===== *)
(** * FairPolicies: what the schedulers promise

    Deficit round robin keeps every deficit between 0 and its cap and selects a
    tenant of highest deficit; round robin serves the tenants in turn; the weighted
    scheduler permutes.  All of them satisfy [SchedulerLaws], the interface the fair
    queue is verified against. *)

From Stdlib Require Import SpecFloat.
From S2P Require Import Prelude Text Redis Listing SimpleQueue FairKeys FairScripts FairRetry.
From S2P Require Import Effect FairWorld FairManagers FairSchedulers FairWeighted FairQueue FairSystem.
From S2P Require Import FairSteps FairLevels FairInvariants FairTraces FairMethods.
Local Open Scope Z_scope.
Local Open Scope effect_scope.

(** ** Stable sorting *)

Lemma sorted_lookup {A} (r : relation A) (l : list A) i j x y :
  StronglySorted r l → l !! i = Some x → l !! j = Some y → (i < j)%nat → r x y.
Proof.
  intros Hs Hi Hj Hij. rewrite <- (take_drop j l) in Hs.
  eapply StronglySorted_app_1_elem_of; [exact Hs| |].
  - apply elem_of_take. exists i. split; [done|lia].
  - apply (list_elem_of_lookup_2 _ 0). by rewrite lookup_drop, Nat.add_0_r.
Qed.

Section Sorting.
Context {A : Type} (key : A → Z).

Lemma sort_desc_perm (l : list A) : sort_desc key l ≡ₚ l.
Proof. apply sort_stable_perm. Qed.

Lemma sort_desc_sorted (l : list A) : StronglySorted (λ a b, key b ≤ key a) (sort_desc key l).
Proof. apply sort_stable_sorted; [intros x y z; lia|..]; intros x y; [rewrite Z.ltb_lt|rewrite Z.ltb_ge]; lia. Qed.

End Sorting.

(** ** Deficits *)

Section Deficits.
Context {P X db : Type} {R : Redis (fq_value P X) db} {L : RedisLaws R}.
Context (k : string) (quantum maxDeficit : Z).
Context (Hq : 0 ≤ quantum) (Hmax : 0 ≤ maxDeficit).
Implicit Types (s : db).

(** Every deficit is a number between 0 and the cap. *)
Definition deficits_ok (s : db) : Prop :=
  ∀ t v, HGET k t s = Some v → ∃ n, v = FNum n ∧ 0 ≤ n ≤ maxDeficit.

Definition deficit (t : string) (s : db) : Z := default 0 (HGET k t s ≫= fq_number).

Lemma deficit_bounds t s : deficits_ok s → 0 ≤ deficit t s ≤ maxDeficit.
Proof.
  intros Hs. unfold deficit. destruct (HGET k t s) as [v|] eqn:E; cbn; [|lia].
  destruct (Hs t v E) as (n & -> & ?). done.
Qed.

Lemma HGET_HSET_at t n t' s :
  HGET k t' (HSET k t (FNum n) s) = if decide (t = t') then Some (FNum n) else HGET k t' s.
Proof.
  unfold HGET. redis_simpl. case_decide as Ht; subst; [by rewrite lookup_insert_eq|].
  by rewrite lookup_insert_ne.
Qed.

Lemma deficits_ok_HSET t n s : deficits_ok s → 0 ≤ n ≤ maxDeficit → deficits_ok (HSET k t (FNum n) s).
Proof.
  intros Hs Hn t' v. rewrite HGET_HSET_at. case_decide; [|apply Hs]. intros [= <-]. eauto.
Qed.

Lemma deficit_HSET t n t' s :
  deficit t' (HSET k t (FNum n) s) = if decide (t = t') then n else deficit t' s.
Proof. unfold deficit. rewrite HGET_HSET_at. by case_decide. Qed.

(** [HINCRBYFLOAT] on a deficit. *)
Lemma HINCRBY_deficit t n s :
  deficits_ok s → HINCRBY k t n s = (Ok (deficit t s + n), HSET k t (FNum (deficit t s + n)) s).
Proof.
  intros Hs. unfold HINCRBY, deficit. destruct (HGET k t s) as [v|] eqn:E; cbn.
  - destruct (Hs t v E) as (m & -> & _). done.
  - done.
Qed.

(** The credit of a tenant after a round. *)
Definition credit (t : string) (s : db) : Z := Z.min maxDeficit (deficit t s + quantum).

Lemma HSET_HSET_views t n n' s :
  (∀ t', HGET k t' (HSET k t (FNum n') (HSET k t (FNum n) s)) = HGET k t' (HSET k t (FNum n') s)).
Proof. intros t'. rewrite !HGET_HSET_at. by case_decide. Qed.

Lemma drrAddQuantum_ok ts s :
  deficits_ok s → NoDup ts →
  let '(r, s') := drrAddQuantum k quantum maxDeficit ts s in
  r = Ok ((λ t, credit t s) <$> ts) ∧ deficits_ok s' ∧
  ∀ t, deficit t s' = if decide (t ∈ ts) then credit t s else deficit t s.
Proof.
  intros Hs Hnd. revert s Hs. induction Hnd as [|t ts Ht Hnd IH]; intros s Hs; [done|].
  cbn [drrAddQuantum]. rewrite HINCRBY_deficit by done.
  pose proof (deficit_bounds t s Hs) as Hb.
  set (s0 := HSET k t (FNum (deficit t s + quantum)) s).
  set (p := if maxDeficit <? deficit t s + quantum then _ else _).
  assert (∃ s1, p = (credit t s, s1) ∧ deficits_ok s1 ∧
            ∀ t', deficit t' s1 = if decide (t = t') then credit t s else deficit t' s) as (s1 & -> & H1 & H2).
  { unfold p, credit. destruct (maxDeficit <? deficit t s + quantum) eqn:E; reflect.
    - eexists. rewrite Z.min_l by lia. split; [done|]. split.
      + intros t' v. unfold s0. rewrite HSET_HSET_views. apply deficits_ok_HSET; [done|lia].
      + intros t'. unfold s0. rewrite !deficit_HSET. by case_decide.
    - eexists. rewrite Z.min_r by lia. split; [done|]. split.
      + apply deficits_ok_HSET; [done|lia].
      + intros t'. unfold s0. by rewrite deficit_HSET. }
  specialize (IH s1 H1). destruct (drrAddQuantum k quantum maxDeficit ts s1) as [r s'].
  destruct IH as (-> & H3 & H4). split; [|split; [done|]].
  - f_equal. cbn. f_equal. apply list_fmap_ext. intros i t' Ht'. unfold credit. rewrite H2.
    rewrite decide_False; [done|]. intros ->. apply Ht. by eapply list_elem_of_lookup_2.
  - intros t'. rewrite H4. unfold credit. rewrite !H2. destruct (decide (t = t')) as [<-|Hne].
    + rewrite (decide_False (P := t ∈ ts)) by done. by rewrite decide_True by (by left).
    + destruct (decide (t' ∈ ts)); [rewrite decide_True by (by right)|rewrite decide_False by set_solver];
        done.
Qed.

(** Serving takes credit away, down to 0. *)
Lemma drrDecrement_ok t n s :
  deficits_ok s → 0 ≤ n →
  let '(r, s') := drrDecrementDeficitBatch k t n s in
  r = Ok (Z.max 0 (deficit t s - n)) ∧ deficits_ok s' ∧
  ∀ t', deficit t' s' = if decide (t = t') then Z.max 0 (deficit t s - n) else deficit t' s.
Proof.
  intros Hs Hn. unfold drrDecrementDeficitBatch. rewrite HINCRBY_deficit by done.
  pose proof (deficit_bounds t s Hs). change (deficit t s + - n) with (deficit t s - n).
  destruct (deficit t s - n <? 0) eqn:E; reflect.
  - rewrite Z.max_l by lia. split; [done|]. split.
    + intros t' v. rewrite HSET_HSET_views. apply deficits_ok_HSET; [done|lia].
    + intros t'. rewrite !deficit_HSET. by case_decide.
  - rewrite Z.max_r by lia. split; [done|]. split; [apply deficits_ok_HSET; [done|lia]|].
    intros t'. by rewrite deficit_HSET.
Qed.

(** What the scheduler does to deficits: a round over distinct tenants, or messages
    of a tenant that were processed. *)
Inductive drr_op : Type :=
| Round (ts : list string)
| Served (t : string) (count : Z).

Definition drr_op_ok (o : drr_op) : Prop :=
  match o with Round ts => NoDup ts | Served _ count => 0 ≤ count end.

(** The operation, and whether it raised. *)
Definition drr_run (o : drr_op) (s : db) : bool * db :=
  match o with
  | Round ts =>
      let '(r, s) := drrAddQuantum k quantum maxDeficit ts s in
      (match r with Ok _ => true | Err _ => false end, s)
  | Served t count =>
      let '(r, s) := drrDecrementDeficitBatch k t count s in
      (match r with Ok _ => true | Err _ => false end, s)
  end.

Fixpoint drr_runs (ops : list drr_op) (s : db) : bool * db :=
  match ops with
  | [] => (true, s)
  | o :: ops =>
      let '(ok, s) := drr_run o s in
      let '(oks, s) := drr_runs ops s in (ok && oks, s)
  end.

(** Deficits stay between 0 and the cap through any sequence of rounds and
    processed messages, and no script raises. *)
Theorem drr_deficits_bounded ops s :
  deficits_ok s → Forall drr_op_ok ops →
  (drr_runs ops s).1 = true ∧ ∀ t, 0 ≤ deficit t (drr_runs ops s).2 ≤ maxDeficit.
Proof.
  intros Hs Hops. assert ((drr_runs ops s).1 = true ∧ deficits_ok (drr_runs ops s).2) as [H1 H2];
    [|split; [done|]; intros t; by apply deficit_bounds].
  revert s Hs. induction Hops as [|o ops Ho _ IH]; intros s Hs; [done|]. cbn [drr_runs].
  assert (∃ s1, drr_run o s = (true, s1) ∧ deficits_ok s1) as (s1 & -> & Hs1).
  { destruct o as [ts|t n]; cbn [drr_run].
    - pose proof (drrAddQuantum_ok ts s Hs Ho) as H. destruct (drrAddQuantum _ _ _ _ _) as [r s1].
      destruct H as (-> & ? & _). by eexists.
    - pose proof (drrDecrement_ok t n s Hs Ho) as H. destruct (drrDecrementDeficitBatch _ _ _ _) as [r s1].
      destruct H as (-> & ? & _). by eexists. }
  specialize (IH s1 Hs1). by destruct (drr_runs ops s1).
Qed.

End Deficits.

(** The deficit scripts only write fields of their hash. *)
Section Path.
Context {P X db : Type} {R : Redis (fq_value P X) db} {L : RedisLaws R}.
Context (k : string).
Implicit Types (s : db).

Definition hash_path : relation db := rtc (λ s s', ∃ t v, s' = HSET k t v s).

Lemma hash_path_GET s s' x : hash_path s s' → GET x s' = GET x s.
Proof. induction 1 as [|s1 s2 s3 (t & v & ->) _ IH]; [done|]. rewrite IH. by redis_simpl. Qed.

Lemma hash_path_views s s' x :
  hash_path s s' →
  ZALL x s' = ZALL x s ∧ SMEMBERS x s' = SMEMBERS x s ∧ LALL x s' = LALL x s ∧
  (x ≠ k → HALL x s' = HALL x s).
Proof.
  induction 1 as [|s s1 s2 (t & v & ->) _ (-> & -> & -> & Hh)]; [done|].
  repeat split; try (intros Hx; rewrite Hh by done); by redis_simpl.
Qed.

Lemma hash_path_HSET t v s : hash_path s (HSET k t v s).
Proof. apply rtc_once. by exists t, v. Qed.

Lemma HINCRBY_path t n s : hash_path s (HINCRBY k t n s).2.
Proof. unfold HINCRBY. repeat case_match; try apply rtc_refl; apply hash_path_HSET. Qed.

Lemma drrAddQuantum_path quantum maxDeficit ts s :
  hash_path s (drrAddQuantum k quantum maxDeficit ts s).2.
Proof.
  revert s. induction ts as [|t ts IH]; intros s; [apply rtc_refl|]. cbn [drrAddQuantum].
  pose proof (HINCRBY_path t quantum s) as H1. destruct (HINCRBY k t quantum s) as [[n|e] s1]; [|done].
  destruct (maxDeficit <? n).
  - specialize (IH (HSET k t (FNum maxDeficit) s1)).
    destruct (drrAddQuantum _ _ _ _ _) as [[r|e] s2]; (etrans; [exact H1|]; etrans; [apply hash_path_HSET|exact IH]).
  - specialize (IH s1). destruct (drrAddQuantum _ _ _ _ _) as [[r|e] s2]; by etrans.
Qed.

Lemma drrDecrementDeficitBatch_path t n s : hash_path s (drrDecrementDeficitBatch k t n s).2.
Proof.
  unfold drrDecrementDeficitBatch. pose proof (HINCRBY_path t (- n) s) as H1.
  destruct (HINCRBY k t (- n) s) as [[m|e] s1]; [|done]. case_match; [|done].
  etrans; [exact H1|apply hash_path_HSET].
Qed.

Lemma drrDecrementDeficit_path t s : hash_path s (drrDecrementDeficit k t s).2.
Proof.
  unfold drrDecrementDeficit. pose proof (HINCRBY_path t (-1) s) as H1.
  destruct (HINCRBY k t (-1) s) as [[m|e] s1]; [|done]. case_match; [|done].
  etrans; [exact H1|apply hash_path_HSET].
Qed.

End Path.

(** ** Methods that run alone *)

Section Alone.
Context {db S : Type}.
Implicit Types (w : fq_world db S) (st : fq_state db S).

Lemma with_redis_same st : with_redis (fw_redis st) st = st.
Proof. by destruct st. Qed.

Lemma alone_script {A} (f : db → outcome fq_error A * db) st :
  q_script f (FqWorld st []) =
  let '(r, s) := f (fw_redis st) in (r, FqWorld (with_redis s st) []).
Proof. done. Qed.

Lemma alone_get {A} (f : db → A) st : q_get f (FqWorld st []) = (Ok (f (fw_redis st)), FqWorld st []).
Proof. unfold q_get. rewrite alone_script. by rewrite with_redis_same. Qed.

Lemma alone_run {A} (f : db → A * db) st :
  q_run f (FqWorld st []) =
  (Ok (f (fw_redis st)).1, FqWorld (with_redis (f (fw_redis st)).2 st) []).
Proof. unfold q_run. rewrite alone_script. by destruct (f (fw_redis st)). Qed.

Lemma alone_do (f : db → db) st :
  q_do f (FqWorld st []) = (Ok tt, FqWorld (with_redis (f (fw_redis st)) st) []).
Proof. done. Qed.

Lemma alone_bind {A B} (m : FqM db S A) (f : A → FqM db S B) w a w' :
  m w = (Ok a, w') → bind m f w = f a w'.
Proof. intros H. unfold bind. by rewrite H. Qed.

End Alone.

(** ** Deficit round robin *)

Section Select.
Context {P X db S : Type} {R : Redis (fq_value P X) db} {L : RedisLaws R}.
Context (K : FairQueueKeyProducer) (quantum maxDeficit : Z) (opt_limit : option Z).
Context (Hq : 0 ≤ quantum) (Hmax : 0 ≤ maxDeficit).
Local Notation k := (deficitKey K).
Local Notation credit := (credit k quantum maxDeficit).

(** A context that answers from the database. *)
Context (c : SchedulerContext db S).
Context (full : string → db → bool) (due : string → Z → db → list QueueWithScore).
Context (Hfull : ∀ t st, ctx_isAtCapacity c "tenant" t (FqWorld st []) =
                         (Ok (full t (fw_redis st)), FqWorld st [])).
Context (Hdue : ∀ t n st, ctx_getQueuesForTenant c t (Some n) (FqWorld st []) =
                          (Ok (due t n (fw_redis st)), FqWorld st [])).

Lemma with_deficits_fmap {A} (f : A → Z) (l : list A) : with_deficits l (f <$> l) = (λ a, (a, f a)) <$> l.
Proof.
  unfold with_deficits. apply list_eq. intros i. rewrite list_lookup_imap, !list_lookup_fmap.
  by destruct (l !! i).
Qed.

(** The candidate can be served. *)
Definition serves (s : db) (p : string * Z) : bool :=
  negb (full p.1 s) && match due p.1 p.2 s with [] => false | _ => true end.

Lemma drr_pick_alone cands st :
  drr_pick c cands (FqWorld st []) =
  (Ok (match list_find (λ p, serves (fw_redis st) p = true) cands with
       | Some (_, (t, n)) => [MkTenantQueues t (qs_queueId <$> due t n (fw_redis st))]
       | None => []
       end), FqWorld st []).
Proof.
  induction cands as [|[t n] cands IH]; [done|]. cbn [drr_pick].
  rewrite (alone_bind _ _ _ _ _ (Hfull t st)).
  assert (∀ b, serves (fw_redis st) (t, n) = b →
    list_find (λ p, serves (fw_redis st) p = true) ((t, n) :: cands) =
    if b then Some (0%nat, (t, n)) else prod_map Datatypes.S id <$> list_find (λ p, serves (fw_redis st) p = true) cands)
    as Hcons.
  { intros b Hb. cbn [list_find]. rewrite Hb. by destruct b. }
  unfold serves in Hcons at 1. cbn [fst snd] in Hcons.
  destruct (full t (fw_redis st)) eqn:Ef.
  { rewrite IH, (Hcons false) by done. by destruct (list_find _ cands) as [[i [? ?]]|]. }
  rewrite (alone_bind _ _ _ _ _ (Hdue t n st)). destruct (due t n (fw_redis st)) as [|q qs] eqn:Ed.
  { rewrite IH, (Hcons false) by done. by destruct (list_find _ cands) as [[i [? ?]]|]. }
  rewrite (Hcons true) by done. cbn. by rewrite Ed.
Qed.

(** The tenants the scheduler reads from a dispatch shard. *)
Definition due_tenants (now : Z) (dispatch : string) (s : db) : list string :=
  (filter (λ p, truthy p.1 = true)
     (ZRANGEBYSCORE dispatch now (drr_masterQueueLimit opt_limit) s)).*1.

Lemma due_tenants_NoDup now d s : NoDup (due_tenants now d s).
Proof.
  unfold due_tenants. eapply NoDup_fst_sublist; [apply sublist_filter|]. apply ZRANGEBYSCORE_NoDup.
Qed.

(** What a selection returns, in the database [s'] after the round: a tenant with
    credit that can be served, and no tenant with more credit can be; or nothing,
    and no tenant with credit can be served. *)
Definition selection_ok (cr : string → Z) (ts : list string) (s' : db) (l : list TenantQueues) : Prop :=
  match l with
  | [] => ∀ t, t ∈ ts → 1 ≤ cr t → serves s' (t, cr t) = false
  | [tq] =>
      let t := tq_tenantId tq in
      t ∈ ts ∧ 1 ≤ cr t ∧ full t s' = false ∧
      tq_queues tq = qs_queueId <$> due t (cr t) s' ∧ tq_queues tq ≠ [] ∧
      ∀ t', t' ∈ ts → cr t < cr t' → serves s' (t', cr t') = false
  | _ => False
  end.

Lemma pick_selection_ok cr ts s' :
  selection_ok cr ts s'
    match list_find (λ p, serves s' p = true) (drr_candidates ts (cr <$> ts)) with
    | Some (_, (t, n)) => [MkTenantQueues t (qs_queueId <$> due t n s')]
    | None => []
    end.
Proof.
  unfold drr_candidates. rewrite with_deficits_fmap.
  set (cands := filter (λ t : string * Z, 1 ≤ t.2) ((λ t, (t, cr t)) <$> ts)).
  pose proof (sort_desc_sorted snd cands) as Hsort. pose proof (sort_desc_perm snd cands) as Hperm.
  assert (∀ t, t ∈ ts → 1 ≤ cr t → (t, cr t) ∈ sort_desc snd cands) as Hall.
  { intros t Ht Hc. rewrite Hperm. apply list_elem_of_filter. split; [done|].
    apply list_elem_of_fmap. by exists t. }
  assert (∀ t n, (t, n) ∈ sort_desc snd cands → t ∈ ts ∧ n = cr t ∧ 1 ≤ n) as Hin.
  { intros t n. rewrite Hperm. intros [Hn Ht]%list_elem_of_filter.
    apply list_elem_of_fmap in Ht as (t' & [= -> ->] & Ht'). done. }
  clear Hperm. revert Hsort Hall Hin. generalize (sort_desc snd cands) as l. clear cands.
  intros l Hsort Hall Hin.
  destruct (list_find _ l) as [[i [t n]]|] eqn:Ef.
  - apply list_find_Some in Ef as (Hi & Hserve & Hbefore).
    destruct (Hin t n) as (Ht & -> & Hn); [by eapply list_elem_of_lookup_2|].
    unfold serves in Hserve. cbn [fst snd] in Hserve. apply andb_true_iff in Hserve as [Hf Hd].
    apply negb_true_iff in Hf. unfold selection_ok. cbn [tq_tenantId tq_queues].
    repeat split; try done.
    { intros H%fmap_nil_inv. by rewrite H in Hd. }
    intros t' Ht' Hlt. destruct (proj1 (list_elem_of_lookup _ _) (Hall t' Ht' ltac:(lia))) as [j Hj].
    destruct (decide (j < i)%nat) as [Hji|Hji].
    { destruct (serves _ _) eqn:Es; [|done]. by destruct (Hbefore j _ Hj Hji). }
    assert (i < j)%nat as Hij. { destruct (decide (i = j)) as [<-|]; [|lia]. rewrite Hi in Hj. naive_solver lia. }
    pose proof (sorted_lookup _ _ _ _ _ _ Hsort Hi Hj Hij) as Hle. cbn in Hle. lia.
  - apply list_find_None in Ef. rewrite Forall_forall in Ef. intros t Ht Hc.
    destruct (serves _ _) eqn:Es; [|done]. by destruct (Ef _ (Hall t Ht Hc)).
Qed.

(** A round of deficit round robin credits every due tenant with the quantum, up to
    the cap, and selects a tenant whose credit is at least 1, that is below its
    concurrency limit and has due queues, with as many of them as it has credit; no
    tenant with more credit can be served.  It selects nothing only when no tenant
    with credit can be served.  Nothing but deficits is written. *)
Theorem drr_selects_highest now d consumerId st :
  let s := fw_redis st in let ts := due_tenants now d s in
  deficits_ok k maxDeficit s →
  ∃ l s',
    drr_selectQueuesFromDispatch K quantum maxDeficit opt_limit now d consumerId c (FqWorld st []) =
      (Ok l, FqWorld (with_redis s' st) []) ∧
    deficits_ok k maxDeficit s' ∧
    (∀ t, deficit k t s' = if decide (t ∈ ts) then credit t s else deficit k t s) ∧
    (∀ x, ZALL x s' = ZALL x s ∧ SMEMBERS x s' = SMEMBERS x s) ∧
    selection_ok (λ t, credit t s) ts s' l.
Proof.
  intros s ts Hs. unfold drr_selectQueuesFromDispatch, getTenantsFromDispatch.
  rewrite (alone_bind _ _ _ _ _ (alone_get _ st)). fold s.
  pose proof (due_tenants_NoDup now d s : NoDup ts) as Hnd. subst ts. unfold due_tenants in *.
  generalize dependent (filter (λ p, truthy p.1 = true)
    (ZRANGEBYSCORE d now (drr_masterQueueLimit opt_limit) s)). intros tenants Hnd.
  destruct tenants as [|p tenants].
  - exists [], s. unfold s. rewrite with_redis_same. repeat split; try done. by intros t Ht%elem_of_nil.
  - set (ts := (p :: tenants).*1) in *.
    assert (addQuantumToTenants K quantum maxDeficit ts (FqWorld st []) =
            q_script (drrAddQuantum k quantum maxDeficit ts) (FqWorld st [])) as Ha by done.
    pose proof (drrAddQuantum_ok k quantum maxDeficit Hq Hmax ts s Hs Hnd) as Hok.
    pose proof (drrAddQuantum_path k quantum maxDeficit ts s) as Hfr.
    rewrite alone_script in Ha. fold s in Ha. destruct (drrAddQuantum k quantum maxDeficit ts s) as [r s'].
    destruct Hok as (-> & Hok & Hdef). rewrite (alone_bind _ _ _ _ _ Ha), drr_pick_alone.
    eexists _, s'. split; [done|]. split; [done|]. split; [done|].
    split; [intros x; by destruct (hash_path_views k _ _ x Hfr) as (? & ? & _)|]. apply pick_selection_ok.
Qed.

End Select.

(** ** The schedulers satisfy the interface *)

Section Laws.
Context {P X db S : Type} {R : Redis (fq_value P X) db} {L : RedisLaws R}.
Context (K : FairQueueKeyProducer) {KL : FairKeyLaws K}.
Context (home : homes P) (shard shardT : string → Z).
Context (names : list string) (bound : bounds R).
Context (Hnames : Forall (λ g, has_char ":" g = false) names).
Local Notation laws := (SchedulerLaws (S := S) K home shard shardT names bound).

Section Drr.
Context (quantum maxDeficit : Z) (opt_limit : option Z).
Context (Hk : ∀ h, fh_key K h ≠ deficitKey K).

Lemma hash_path_same s s' : hash_path (deficitKey K) s s' → same_queue K names bound s s'.
Proof.
  intros H. split; intros.
  - unfold zv. by destruct (hash_path_views _ _ _ (fz_key K z) H).
  - unfold hv. destruct (hash_path_views _ _ _ (fh_key K h) H) as (_ & _ & _ & Hh). by apply Hh.
  - by destruct (hash_path_views _ _ _ (workerQueueKey K w) H) as (_ & _ & ? & _).
  - by destruct (hash_path_views _ _ _ (concurrencyKey K g i) H) as (_ & ? & _).
  - eapply settings_keep; [| |done]; intros k; [by apply (hash_path_GET (deficitKey K))|intros _].
    by destruct (hash_path_views _ _ _ k H) as (_ & ? & _).
Qed.

(** A script on the deficits is a step. *)
Lemma deficit_script_ok E {A} (f : db → outcome fq_error A * db) :
  (∀ s, hash_path (deficitKey K) s (f s).2) →
  ok_method (S := S) K home shard shardT names bound E (q_script f) anything.
Proof.
  intros Hf. apply (ok_script K home shard shardT names bound Hnames). intros s Hs. split; [|done].
  apply rtc_once. exists []. split; [done|]. by apply step_other, hash_path_same.
Qed.

#[export] Instance drr_laws : laws (DRRScheduler K quantum maxDeficit opt_limit).
Proof.
  split.
  - intros E f now n consumerId c [= <-] Hc. unfold drr_selectQueuesFromDispatch.
    eapply (ok_bind K home shard shardT names bound Hnames E).
    { by apply (ok_get K home shard shardT names bound Hnames E _ anything). }
    intros ts _. assert (∀ cands, ok_method K home shard shardT names bound E (drr_pick c cands)
                           (Forall (owned K))) as Hpick.
    { induction cands as [|[t d] cands IH]; cbn [drr_pick]; [by apply ok_ret|].
      eapply (ok_bind K home shard shardT names bound Hnames E); [apply Hc|].
      intros [|] _; [exact IH|].
      eapply (ok_bind K home shard shardT names bound Hnames E); [apply Hc|].
      intros qs Hqs. destruct qs as [|q qs]; [exact IH|]. apply ok_ret. constructor; [|constructor].
      unfold owned. cbn [tq_queues tq_tenantId]. by apply Forall_fmap. }
    destruct ts as [|p ts]; [by apply ok_ret|].
    eapply (ok_bind K home shard shardT names bound Hnames E); [|intros ds _; apply Hpick].
    apply deficit_script_ok. intros s. apply drrAddQuantum_path.
  - intros E f t q [= <-]. eapply (ok_bind K home shard shardT names bound Hnames E);
      [|intros; by apply ok_ret]. apply deficit_script_ok. intros s. apply drrDecrementDeficit_path.
  - intros E f t q n [= <-]. eapply (ok_bind K home shard shardT names bound Hnames E);
      [|intros; by apply ok_ret]. apply deficit_script_ok. intros s. apply drrDecrementDeficitBatch_path.
Qed.

End Drr.

(** The schedulers without a dispatch policy: the fair queue only records. *)
Lemma passive_laws (sched : FairScheduler db S) :
  sc_selectQueuesFromDispatch sched = None →
  sc_recordProcessed sched = Some (λ _ _, ret tt) →
  sc_recordProcessedBatch sched = Some (λ _ _ _, ret tt) → laws sched.
Proof.
  intros H1 H2 H3. split.
  - intros *. by rewrite H1.
  - intros E f t q. rewrite H2. intros [= <-]. by apply ok_ret.
  - intros E f t q n. rewrite H3. intros [= <-]. by apply ok_ret.
Qed.

#[export] Instance rr_laws lim : laws (RoundRobinScheduler K lim).
Proof. by apply passive_laws. Qed.

#[export] Instance noop_laws : laws NoopScheduler.
Proof. by apply passive_laws. Qed.

End Laws.

(** The deficits have a key of their own: the hashes of the queue have names that end
    in "items" or "data". *)
Fixpoint last_char (s : string) : option ascii :=
  match s with
  | "" => None
  | String c "" => Some c
  | String _ t => last_char t
  end.

Lemma last_char_app (a b : string) c : last_char b = Some c → last_char (a +:+ b) = Some c.
Proof.
  intros Hb. induction a as [|d a IH]; [done|]. rewrite string_app_cons. cbn [last_char].
  destruct (a +:+ b) as [|e t]; [done|exact IH].
Qed.

Lemma last_char_join sep l x c :
  last l = Some x → last_char x = Some c → last_char (join sep l) = Some c.
Proof.
  intros Hl Hx. induction l as [|y l IH]; [done|]. destruct l as [|z l]; [by injection Hl as ->|].
  cbn [join]. by apply last_char_app, last_char_app, IH.
Qed.

Lemma callback_deficitKey opt_prefix te ge h :
  let K := CallbackFairQueueKeyProducer opt_prefix None te ge in fh_key K h ≠ deficitKey K.
Proof.
  intros K Heq. assert (last_char (fh_key K h) = last_char (deficitKey K)) as H by by rewrite Heq.
  unfold deficitKey in H. rewrite (last_char_app _ ":drr:deficit" "t"%char eq_refl) in H.
  destruct h; cbn [fh_key K queueItemsKey inflightDataKey deadLetterQueueDataKey
    CallbackFairQueueKeyProducer] in H; unfold buildKey in H;
    (erewrite last_char_join in H; [|reflexivity|reflexivity]); discriminate H.
Qed.

(** ** Round robin *)

Lemma group_add_keys {A} t (q : A) g :
  (group_add t q g).*1 = if decide (t ∈ g.*1) then g.*1 else g.*1 ++ [t].
Proof.
  induction g as [|[t' qs] g IH]; [done|]. cbn [group_add fmap list_fmap fst].
  destruct (decide (t = t')) as [->|Hne].
  - by rewrite decide_True by (by left).
  - cbn. rewrite IH. destruct (decide (t ∈ g.*1)); [rewrite decide_True by (by right)|rewrite decide_False by set_solver];
      done.
Qed.

Lemma groupQueues_NoDup l : NoDup (groupQueuesByTenant l).*1.
Proof.
  unfold groupQueuesByTenant. assert (NoDup (([] : list (string * list string)).*1)) as H by constructor.
  revert H. generalize ([] : list (string * list string)) as g.
  induction l as [|[q t] l IH]; intros g Hg; [done|]. cbn [foldl]. apply IH. rewrite group_add_keys.
  case_decide; [done|]. apply NoDup_app. split; [done|]. split; [|apply NoDup_singleton]. set_solver.
Qed.

Lemma rotateArray_perm {A} (l : list A) i : rotateArray l i ≡ₚ l.
Proof.
  unfold rotateArray. destruct l as [|a l]; [done|]. rewrite Permutation_app_comm. by rewrite take_drop.
Qed.

Lemma rotateArray_head {A} (l : list A) i :
  head (rotateArray l i) = l !! Z.to_nat (i mod Z.of_nat (length l)).
Proof.
  unfold rotateArray. destruct l as [|a l]; [done|]. set (xs := a :: l).
  pose proof (Z.mod_pos_bound i (Z.of_nat (length xs)) ltac:(unfold xs; simpl; lia)) as Hb.
  set (n := Z.to_nat _). assert (n < length xs)%nat as Hn by (unfold n; lia).
  destruct (lookup_lt_is_Some_2 xs n Hn) as [x Hx]. rewrite Hx, (drop_S _ _ _ Hx). done.
Qed.

Lemma rotateArray_lookup {A} (l : list A) i k :
  (k < length l)%nat →
  rotateArray l i !! k = l !! Z.to_nat ((i + Z.of_nat k) mod Z.of_nat (length l)).
Proof.
  intros Hk. unfold rotateArray. destruct l as [|a l]; [done|]. set (xs := a :: l) in *.
  set (n := Z.of_nat (length xs)) in *. assert (0 < n) by (unfold n; lia).
  pose proof (Z.mod_pos_bound i n ltac:(done)) as Hb. rewrite <- Zplus_mod_idemp_l.
  set (j := i mod n) in *. destruct (decide (j + Z.of_nat k < n)) as [Hlt|Hge].
  - rewrite Z.mod_small by lia. rewrite lookup_app_l by (rewrite length_drop; lia).
    rewrite lookup_drop. f_equal. lia.
  - replace ((j + Z.of_nat k) mod n) with (j + Z.of_nat k - n)
      by (rewrite <- (Z.mod_small (j + Z.of_nat k - n) n) by lia;
          rewrite <- (Z.mod_add (j + Z.of_nat k - n) 1 n) by lia; f_equal; lia).
    rewrite lookup_app_r by (rewrite length_drop; lia). rewrite length_drop, lookup_take_lt by lia.
    f_equal. lia.
Qed.

Lemma indexOf_lookup (l : list string) i x :
  NoDup l → l !! i = Some x → indexOf x l = Z.of_nat i.
Proof.
  intros Hnd Hi. unfold indexOf. destruct (list_find (λ y, y = x) l) as [[j y]|] eqn:E.
  - apply list_find_Some in E as (Hj & -> & _). by rewrite (NoDup_lookup _ _ _ _ Hnd Hi Hj).
  - apply list_find_None in E. rewrite Forall_forall in E.
    destruct (E x); [by eapply list_elem_of_lookup_2|done].
Qed.

Section RoundRobin.
Context {P X db S : Type} {R : Redis (fq_value P X) db} {L : RedisLaws R}.
Context (K : FairQueueKeyProducer) (opt_limit : option Z) (now : Z) (shardKey consumerId : string).

(** A context in which no tenant is at capacity. *)
Context (c : SchedulerContext db S).
Context (Hfree : ∀ t st, ctx_isAtCapacity c "tenant" t (FqWorld st []) = (Ok false, FqWorld st [])).

Lemma filterAtCapacity_free ts st : filterAtCapacity ts c "tenant" (FqWorld st []) = (Ok ts, FqWorld st []).
Proof.
  induction ts as [|t ts IH]; [done|]. cbn [filterAtCapacity].
  rewrite (alone_bind _ _ _ _ _ (Hfree (tq_tenantId t) st)). by rewrite (alone_bind _ _ _ _ _ IH).
Qed.

(** The tenants of the shard, in the order of their oldest queue. *)
Definition rr_groups (s : db) : list (string * list string) :=
  groupQueuesByTenant
    ((λ p, (p.1, extractTenantId K p.1)) <$>
     filter (λ p, truthy p.1 = true) (ZRANGEBYSCORE shardKey now (default 1000 opt_limit) s)).

Definition rr_tenants (s : db) : list string := (rr_groups s).*1.

Definition last_served (s : db) : Z := default 0 (GET (lastServedKey shardKey) s ≫= fq_number).

Lemma rr_round st :
  let s := fw_redis st in
  let order := rr_tenants s in
  order ≠ [] →
  rr_selectQueues K opt_limit now shardKey consumerId c (FqWorld st []) =
    (Ok ((λ t, MkTenantQueues t (group_get t (rr_groups s))) <$> rotateArray order (last_served s)),
     FqWorld (with_redis (SET (lastServedKey shardKey)
                (FNum (last_served s mod Z.of_nat (length order) + 1)) s) st) []).
Proof.
  intros s order Hne. unfold rr_selectQueues, getQueuesFromShard.
  rewrite (alone_bind _ _ _ _ _ (alone_get _ st)). fold s.
  assert (groupQueuesByTenant ((λ q, (qs_queueId q, qs_tenantId q)) <$>
    ((λ '(queueId, score), MkQueueWithScore queueId score (extractTenantId K queueId)) <$>
     filter (λ p, truthy p.1 = true) (ZRANGEBYSCORE shardKey now (default 1000 opt_limit) s))) = rr_groups s)
    as Hg.
  { unfold rr_groups. f_equal. rewrite <- list_fmap_compose. apply list_fmap_ext. by intros i [q x]. }
  destruct (_ <$> filter _ _) as [|q qs]; [by destruct Hne; unfold order, rr_tenants; rewrite <- Hg|].
  rewrite Hg. change (rr_groups s).*1 with order. unfold getLastServedIndex. rewrite (alone_bind _ _ _ _ _ (alone_get _ st)).
  fold s. fold (last_served s).
  rewrite (alone_bind _ _ _ _ _ (filterAtCapacity_free _ st)).
  pose proof (rotateArray_head order (last_served s)) as Hh.
  pose proof (Z.mod_pos_bound (last_served s) (Z.of_nat (length order))
                ltac:(destruct order; [done|simpl; lia])) as Hb.
  destruct (lookup_lt_is_Some_2 order (Z.to_nat (last_served s mod Z.of_nat (length order))) ltac:(lia))
    as [t Ht]. rewrite Ht in Hh. destruct (rotateArray order (last_served s)) as [|t' rest]; [done|].
  injection Hh as ->. rewrite fmap_cons. cbn [tq_tenantId].
  rewrite (indexOf_lookup order _ t (groupQueues_NoDup _) Ht), Z2Nat.id by lia. done.
Qed.

(** The tenants served first in [n] rounds. *)
Fixpoint rr_rounds (n : nat) (w : fq_world db S) : list (option string) :=
  match n with
  | O => []
  | Datatypes.S n =>
      let '(r, w) := rr_selectQueues K opt_limit now shardKey consumerId c w in
      match r with Ok l => tq_tenantId <$> head l | Err _ => None end :: rr_rounds n w
  end.

Lemma rr_rounds_length n w : length (rr_rounds n w) = n.
Proof.
  revert w. induction n as [|n IH]; intros w; [done|]. cbn [rr_rounds].
  destruct (rr_selectQueues _ _ _ _ _ _ _). cbn. by rewrite IH.
Qed.

Lemma rr_rounds_lookup n st k :
  let order := rr_tenants (fw_redis st) in
  order ≠ [] → (k < n)%nat →
  rr_rounds n (FqWorld st []) !! k =
  Some (order !! Z.to_nat ((last_served (fw_redis st) + Z.of_nat k) mod Z.of_nat (length order))).
Proof.
  intros order Hne. revert st k order Hne. induction n as [|n IH]; intros st k order Hne Hk; [lia|].
  cbn [rr_rounds]. rewrite rr_round by done. fold order.
  set (s := fw_redis st). set (i := last_served s).
  set (s' := SET _ _ s). assert (rr_tenants s' = order) as Ho.
  { unfold order, rr_tenants, rr_groups, s', ZRANGEBYSCORE. by redis_simpl. }
  assert (last_served s' = i mod Z.of_nat (length order) + 1) as Hi.
  { unfold last_served, s'. redis_simpl. done. }
  assert (0 < Z.of_nat (length order)) by (destruct order; [done|simpl; lia]).
  destruct k as [|k].
  - cbn [lookup list_lookup]. rewrite Z.add_0_r, <- rotateArray_head. by destruct (rotateArray order _).
  - transitivity (rr_rounds n (FqWorld (with_redis s' st) []) !! k); [done|].
    specialize (IH (with_redis s' st) k). cbn zeta in IH. cbn [fw_redis with_redis] in IH.
    rewrite Ho, Hi in IH. rewrite IH by (done || lia). do 3 f_equal.
    rewrite <- Z.add_assoc, Zplus_mod_idemp_l. f_equal. lia.
Qed.

(** Round robin serves every tenant once per turn of the wheel: when no tenant is
    at capacity and nobody else writes, the tenants served first in as many rounds as
    there are tenants are all the tenants, each one once, in their order from the
    stored position on. *)
Theorem rr_serves_in_turn st :
  let order := rr_tenants (fw_redis st) in
  order ≠ [] →
  rr_rounds (length order) (FqWorld st []) =
    Some <$> rotateArray order (last_served (fw_redis st)) ∧
  rr_rounds (length order) (FqWorld st []) ≡ₚ Some <$> order.
Proof.
  intros order Hne. assert (rr_rounds (length order) (FqWorld st []) =
    Some <$> rotateArray order (last_served (fw_redis st))) as Heq; [|split; [done|]].
  - apply list_eq_same_length with (length order).
    + by rewrite length_fmap, rotateArray_perm.
    + apply rr_rounds_length.
    + intros k x y Hk. rewrite rr_rounds_lookup by done. fold order.
      rewrite list_lookup_fmap, rotateArray_lookup by done.
      destruct (order !! _) as [t|] eqn:E; [by intros [= <-] [= <-]|].
      exfalso. apply lookup_ge_None in E.
      pose proof (Z.mod_pos_bound (last_served (fw_redis st) + Z.of_nat k) (Z.of_nat (length order))). lia.
  - rewrite Heq. apply fmap_Permutation, rotateArray_perm.
Qed.

End RoundRobin.

(** ** Weighted shuffle *)

Section Weighted.
Context {G : Type} (rng : G → spec_float * G) (pow : spec_float → spec_float → spec_float).
Context (opt_biases : option WeightedSchedulerBiases).

Lemma shuffleTenants_permutation sn g :
  (shuffleTenantsByWeight rng pow opt_biases sn g).1 ≡ₚ ts_tenantId <$> sn_tenants sn.
Proof.
  unfold shuffleTenantsByWeight. destruct (ts_tenantId <$> sn_tenants sn) as [|t ts] eqn:E; [done|].
  case_match.
  - apply shuffle_permutation.
  - rewrite weightedShuffle_permutation, <- list_fmap_compose, <- E. done.
Qed.

Lemma orderQueues_permutation sn t g :
  NoDup (ts_tenantId <$> sn_tenants sn) → t ∈ sn_tenants sn →
  (orderQueuesForTenant rng opt_biases sn (ts_tenantId t) g).1 ≡ₚ (ts_queues t).*1.
Proof.
  intros Hnd Ht. unfold orderQueuesForTenant.
  destruct (list_find (λ t', ts_tenantId t' = ts_tenantId t) (sn_tenants sn)) as [[i t']|] eqn:Ef.
  - apply list_find_Some in Ef as (Hi & Heq & _). assert (t' = t) as ->.
    { apply list_elem_of_lookup in Ht as [j Hj].
      assert (i = j) as ->; [|congruence]. eapply (NoDup_lookup _ _ _ _ Hnd);
        rewrite list_lookup_fmap; [by rewrite Hi|by rewrite Hj; cbn; rewrite Heq]. }
    destruct (ts_queues t) as [|q qs]; [done|]. case_match.
    + cbn [fst]. apply fmap_Permutation, sort_desc_perm.
    + rewrite weightedShuffle_permutation, <- list_fmap_compose. done.
  - apply list_find_None in Ef. rewrite Forall_forall in Ef. by destruct (Ef t Ht).
Qed.

(** Whatever the random numbers are, the weighted scheduler returns every tenant of
    its snapshot exactly once and, for each of them, exactly its queues: shuffling
    loses and repeats nothing. *)
Theorem weighted_selection_permutes sn g :
  NoDup (ts_tenantId <$> sn_tenants sn) →
  let '(tenants, g) := shuffleTenantsByWeight rng pow opt_biases sn g in
  let '(selected, _) := order_tenants rng opt_biases sn tenants g in
  tq_tenantId <$> selected ≡ₚ ts_tenantId <$> sn_tenants sn ∧
  ∀ tq, tq ∈ selected → ∃ t, t ∈ sn_tenants sn ∧ ts_tenantId t = tq_tenantId tq ∧
    tq_queues tq ≡ₚ (ts_queues t).*1.
Proof.
  intros Hnd. pose proof (shuffleTenants_permutation sn g) as Hp.
  destruct (shuffleTenantsByWeight rng pow opt_biases sn g) as [tenants g1]. cbn [fst] in Hp.
  assert (∀ l g, Forall (λ x, x ∈ ts_tenantId <$> sn_tenants sn) l →
    let r := (order_tenants rng opt_biases sn l g).1 in
    tq_tenantId <$> r = l ∧
    ∀ tq, tq ∈ r → ∃ t, t ∈ sn_tenants sn ∧ ts_tenantId t = tq_tenantId tq ∧
      tq_queues tq ≡ₚ (ts_queues t).*1) as Hl.
  { clear Hp. induction l as [|x l IH]; intros g0 Hall; [split; [done|]; by intros tq ?%elem_of_nil|].
    apply Forall_cons in Hall as [Hx Hall]. cbn [order_tenants].
    apply list_elem_of_fmap in Hx as (t & -> & Ht).
    pose proof (orderQueues_permutation sn t g0 Hnd Ht) as Hq.
    destruct (orderQueuesForTenant rng opt_biases sn (ts_tenantId t) g0) as [qs g2].
    specialize (IH g2 Hall). destruct (order_tenants rng opt_biases sn l g2) as [r g3].
    destruct IH as [IH1 IH2]. split; [cbn in *; by rewrite IH1|].
    intros tq [->|?]%elem_of_cons; [by exists t|by apply IH2]. }
  assert (Forall (λ x, x ∈ ts_tenantId <$> sn_tenants sn) tenants) as Hall.
  { apply Forall_forall. intros x. by rewrite Hp. }
  specialize (Hl tenants g1 Hall). destruct (order_tenants rng opt_biases sn tenants g1) as [r g2].
  destruct Hl as [H1 H2]. cbn [fst] in *. rewrite H1. split; [done|exact H2].
Qed.

End Weighted.

Lemma weighted_laws {P X db G : Type} {R : Redis (fq_value P X) db} {L : RedisLaws R}
    K `{FairKeyLaws K} home shard shardT names bound (rng : G → spec_float * G) pow biases lim reuse tenants
    (Hnames : Forall (λ g, has_char ":" g = false) names) :
  SchedulerLaws K home shard shardT names bound (WeightedScheduler K rng pow biases lim reuse tenants).
Proof. by apply passive_laws. Qed.

(** ** Witnesses *)

Local Notation policy_db := (mem (fq_value unit unit)).

Definition policy_keys : FairQueueKeyProducer :=
  CallbackFairQueueKeyProducer (Some "fq") None (default_extractTenantId None)
    (default_extractGroupId None).

(** Two tenants with a due queue each, "acme" with the older one; "bolt" has credit left. *)
Definition policy_start : policy_db :=
  HSET (deficitKey policy_keys) "bolt" (FNum 3)
    (ZADD (masterQueueKey policy_keys 0) 2 "tenant:bolt:q"
      (ZADD (masterQueueKey policy_keys 0) 1 "tenant:acme:q"
        (ZADD (dispatchKey policy_keys 0) 2 "bolt"
          (ZADD (dispatchKey policy_keys 0) 1 "acme"
            (ZADD (tenantQueueIndexKey policy_keys "bolt") 2 "tenant:bolt:q"
              (ZADD (tenantQueueIndexKey policy_keys "acme") 1 "tenant:acme:q" (mem_empty (0, 0)))))))).

Definition policy_state : fq_state policy_db unit := FqState policy_start ∅ ∅ tt.

Definition policy_due (t : string) (n : Z) (s : policy_db) : list QueueWithScore :=
  (λ '(queueId, score), MkQueueWithScore queueId score t) <$>
    filter (λ p, truthy p.1 = true) (ZRANGEBYSCORE (tenantQueueIndexKey policy_keys t) 10 n s).

(** No tenant is at capacity. *)
Definition policy_context : SchedulerContext policy_db unit :=
  MkSchedulerContext (λ _ _, ret 0) (λ _ _, ret None) (λ _ _, ret false)
    (λ q, ret (MkQueueDescriptor q (extractTenantId policy_keys q) ∅))
    (λ t limit, TenantDispatch.getQueuesForTenant policy_keys 10 t limit None).

Lemma policy_deficits_ok : deficits_ok (deficitKey policy_keys) 50 policy_start.
Proof.
  apply deficits_ok_HSET; [|lia]. intros t v. unfold HGET. redis_simpl. cbn. by rewrite !lookup_empty.
Qed.

Lemma drr_deficits_bounded_witness :
  let ops := [Round ["acme"; "bolt"]; Served "acme" 9; Round ["acme"]] in
  (drr_runs (deficitKey policy_keys) 5 50 ops policy_start).1 = true ∧
  ∀ t, 0 ≤ deficit (deficitKey policy_keys) t (drr_runs (deficitKey policy_keys) 5 50 ops policy_start).2 ≤ 50.
Proof.
  apply (drr_deficits_bounded (deficitKey policy_keys) 5 50 ltac:(lia) ltac:(lia)); [apply policy_deficits_ok|].
  repeat (apply Forall_cons; split); [by apply (bool_decide_unpack _)|done|by apply (bool_decide_unpack _)|constructor].
Defined.

Lemma drr_selects_highest_witness :
  ∃ s', drr_selectQueuesFromDispatch policy_keys 5 50 None 10 (dispatchKey policy_keys 0) "loop" policy_context
    (FqWorld policy_state []) =
    (Ok [MkTenantQueues "bolt" ["tenant:bolt:q"]], FqWorld (with_redis s' policy_state) []) ∧
  deficit (deficitKey policy_keys) "bolt" s' = 8.
Proof.
  destruct (drr_selects_highest policy_keys 5 50 None ltac:(lia) ltac:(lia) policy_context (λ _ _, false) policy_due
    (λ t st, eq_refl) (λ t n st, alone_get _ st) 10 (dispatchKey policy_keys 0) "loop" policy_state
    policy_deficits_ok) as (l & s' & Hrun & _ & Hd & _).
  exists s'. assert (l = [MkTenantQueues "bolt" ["tenant:bolt:q"]]) as ->.
  { apply (f_equal fst) in Hrun. vm_compute in Hrun. by injection Hrun as <-. }
  split; [exact Hrun|]. rewrite Hd. by vm_compute.
Defined.

Lemma rr_serves_in_turn_witness :
  rr_rounds policy_keys None 10 (masterQueueKey policy_keys 0) "loop" policy_context 2 (FqWorld policy_state []) =
  [Some "acme"; Some "bolt"].
Proof.
  destruct (rr_serves_in_turn policy_keys None 10 (masterQueueKey policy_keys 0) "loop" policy_context
    (λ t st, eq_refl) policy_state) as [H _]; [by vm_compute|].
  etrans; [exact H|]. by vm_compute.
Defined.

Definition policy_snapshot : QueueSnapshot :=
  MkQueueSnapshot [MkTenantSnapshot "acme" 0 (Some 2) [("tenant:acme:q", 9)];
                   MkTenantSnapshot "bolt" 1 (Some 2) [("tenant:bolt:q", 8)]]
    [("tenant:acme:q", "acme", 9); ("tenant:bolt:q", "bolt", 8)].

Lemma weighted_selection_permutes_witness :
  NoDup (ts_tenantId <$> sn_tenants policy_snapshot) ∧
  let '(tenants, g) := shuffleTenantsByWeight (λ g : unit, (S754_zero false, g)) (λ _ _, S754_zero false) None
                         policy_snapshot tt in
  let '(selected, _) := order_tenants (λ g : unit, (S754_zero false, g)) None policy_snapshot tenants g in
  tq_tenantId <$> selected ≡ₚ ["acme"; "bolt"].
Proof.
  assert (NoDup (ts_tenantId <$> sn_tenants policy_snapshot)) as Hnd
    by (apply (bool_decide_unpack _); by vm_compute).
  split; [done|].
  pose proof (weighted_selection_permutes (λ g : unit, (S754_zero false, g)) (λ _ _, S754_zero false) None
    policy_snapshot tt Hnd) as H.
  destruct (shuffleTenantsByWeight _ _ _ _ _) as [tenants g]. destruct (order_tenants _ _ _ _ _) as [selected g'].
  by destruct H as [H _].
Defined.
