(* ===== verification/SelectionFacts.v ===== *)
(** * SelectionFacts: what the selection strategy hands out

    For any weights and any random numbers from 0 up to 1, the strategy hands out the
    environments it chose that have room, each once, and for each of them exactly its
    queues ([distribute_exact]); a kept snapshot serves a bounded number of calls
    ([snapshot_reuse_bounded]). *)

From Stdlib Require Import SpecFloat.
From S2P Require Import Prelude Text Redis KeyProducer Messages Retry Doubles FairSchedulers FairWeighted.
From S2P Require Import FairPolicies FairSelection.
Local Open Scope Z_scope.

(** ** Grouping *)

Lemma filter_none {A} (P : A → Prop) `{∀ x, Decision (P x)} (l : list A) :
  (∀ x, x ∈ l → ¬ P x) → filter P l = [].
Proof.
  induction l as [|x l IH]; intros Hl; [done|]. rewrite filter_cons, decide_False by (apply Hl; by left).
  apply IH. intros y Hy. apply Hl. by right.
Qed.

Lemma filter_all {A} (P : A → Prop) `{∀ x, Decision (P x)} (l : list A) :
  (∀ x, x ∈ l → P x) → filter P l = l.
Proof.
  induction l as [|x l IH]; intros Hl; [done|]. rewrite filter_cons, decide_True by (apply Hl; by left).
  f_equal. apply IH. intros y Hy. apply Hl. by right.
Qed.

Lemma env_ids_snoc queues q :
  env_ids (queues ++ [q]) =
  if decide (fq_env q ∈ env_ids queues) then env_ids queues else env_ids queues ++ [fq_env q].
Proof. unfold env_ids. by rewrite foldl_app. Qed.

Lemma elem_of_env_ids e queues : e ∈ env_ids queues ↔ e ∈ fq_env <$> queues.
Proof.
  induction queues as [|q queues IH] using rev_ind; [done|].
  rewrite env_ids_snoc, fmap_app. case_decide; set_solver.
Qed.

Lemma NoDup_env_ids queues : NoDup (env_ids queues).
Proof.
  induction queues as [|q queues IH] using rev_ind; [constructor|]. rewrite env_ids_snoc.
  case_decide; [done|]. apply NoDup_app. split; [done|]. split; [|apply NoDup_singleton]. set_solver.
Qed.

Lemma length_env_ids queues : (length (env_ids queues) ≤ length queues)%nat.
Proof.
  induction queues as [|q queues IH] using rev_ind; [done|]. rewrite env_ids_snoc, length_app. simpl.
  case_decide; [lia|]. rewrite length_app. simpl. lia.
Qed.

Lemma queues_by_env_snoc queues q :
  queues_by_env (queues ++ [q]) = group_add (fq_env q) q (queues_by_env queues).
Proof. unfold queues_by_env. by rewrite foldl_app. Qed.

(** The keys of the groups, and the members of each. *)
Lemma queues_by_env_keys queues : (queues_by_env queues).*1 = env_ids queues.
Proof.
  induction queues as [|q queues IH] using rev_ind; [done|].
  by rewrite queues_by_env_snoc, group_add_keys, env_ids_snoc, IH.
Qed.

Lemma group_add_elem {A} k (v : A) g k' vs :
  NoDup g.*1 → (k', vs) ∈ group_add k v g →
  ∃ vs0, vs = vs0 ++ (if decide (k = k') then [v] else []) ∧
    ((k', vs0) ∈ g ∨ (vs0 = [] ∧ k' = k ∧ k ∉ g.*1)).
Proof.
  induction g as [|[k1 vs1] g IH]; cbn [group_add fmap list_fmap fst].
  { intros _ [= -> ->]%list_elem_of_singleton. exists []. rewrite decide_True by done.
    split; [done|]. right. split_and!; [done..|]. apply not_elem_of_nil. }
  intros [Hk1 Hnd]%NoDup_cons. destruct (decide (k = k1)) as [->|Hne].
  - intros [[= -> ->]|Hin]%elem_of_cons.
    + exists vs1. rewrite decide_True by done. split; [done|left; by left].
    + exists vs. rewrite decide_False.
      { rewrite app_nil_r. split; [done|left; by right]. }
      intros ->. apply Hk1. by apply (list_elem_of_fmap_2' fst g (k', vs)).
  - intros [[= -> ->]|Hin]%elem_of_cons.
    + exists vs1. rewrite decide_False by done. rewrite app_nil_r. split; [done|left; by left].
    + destruct (IH Hnd Hin) as (vs0 & -> & Hor). exists vs0. split; [done|].
      destruct Hor as [?|(-> & -> & ?)]; [left; by right|right]. split_and!; [done..|]. set_solver.
Qed.

Lemma queues_by_env_elem queues e qs :
  (e, qs) ∈ queues_by_env queues → qs = filter (λ q, fq_env q = e) queues.
Proof.
  revert e qs. induction queues as [|q queues IH] using rev_ind; intros e qs.
  { by intros ?%elem_of_nil. }
  rewrite queues_by_env_snoc, filter_app.
  intros (vs0 & -> & Hor)%group_add_elem; [|rewrite queues_by_env_keys; apply NoDup_env_ids].
  rewrite filter_cons, filter_nil. f_equal.
  destruct Hor as [Hin|(-> & -> & Hno)]; [by apply IH|]. rewrite queues_by_env_keys, elem_of_env_ids in Hno.
  symmetry. apply filter_none. intros x Hx Heq. apply Hno. rewrite <- Heq. by apply list_elem_of_fmap_2.
Qed.

Lemma find_group queues e :
  e ∈ env_ids queues →
  ∃ i, list_find (λ p : string * list FairQueue, p.1 = e) (queues_by_env queues) =
    Some (i, (e, filter (λ q, fq_env q = e) queues)).
Proof.
  rewrite <- queues_by_env_keys. intros ((e' & qs) & -> & Hin)%list_elem_of_fmap.
  destruct (list_find_elem_of (λ p : string * list FairQueue, p.1 = e') _ _ Hin eq_refl) as [[i [e2 qs2]] Hf].
  exists i. cbn [fst]. rewrite Hf. apply list_find_Some in Hf as (Hi & Heq & _). simpl in Heq. subst e2.
  apply list_elem_of_lookup_2, queues_by_env_elem in Hi. by rewrite Hi.
Qed.

Lemma find_no_group queues e :
  e ∉ env_ids queues → list_find (λ p : string * list FairQueue, p.1 = e) (queues_by_env queues) = None.
Proof.
  intros Hno. apply list_find_None, Forall_forall. intros [e' qs] Hin Heq. simpl in Heq. subst e'.
  apply Hno. rewrite <- queues_by_env_keys. by apply (list_elem_of_fmap_2' fst _ (e, qs)).
Qed.

(** ** Orders *)

Section Orders.
Context {G : Type} (rng : G → spec_float * G) (pow : spec_float → spec_float → spec_float).
Context (opt_biases : option FairQueueSelectionStrategyBiases).
(** The package [seedrandom] gives doubles from 0 up to 1. *)
Context (Hrng : ∀ g, in_unit (rng g).1 = true).

Lemma random_index_in_range g n :
  (0 < n)%nat → Z.of_nat n < 2 ^ 53 →
  ∃ j, d_index (d_mul (rng g).1 (double_of_Z (Z.of_nat n))) = Some j ∧ (j < n)%nat.
Proof.
  intros Hn Hb. destruct (floor_unit_mul _ (Z.of_nat n) (Hrng g)) as (z & Hz & Hr); [lia|].
  unfold d_index. rewrite Hz, (proj2 (Z.leb_le 0 z)) by lia. eexists. split; [done|]. lia.
Qed.

Lemma shuffle_down_permutation {A} n (l : list A) g :
  (n ≤ length l)%nat → Z.of_nat (length l) < 2 ^ 53 →
  ∃ l' g', shuffle_down rng n l g = (Some l', g') ∧ l' ≡ₚ l.
Proof.
  revert l g. induction n as [|n IH]; intros l g Hn Hb; [by exists l, g|].
  cbn [shuffle_down]. destruct (random_index_in_range g (S n)) as (j & Hj & Hlt); [lia..|].
  destruct (rng g) as [r g1]. cbn [fst] in Hj. rewrite Hj, (proj2 (Nat.ltb_lt j (length l))) by lia.
  pose proof (swap_permutation n j l) as Hp. pose proof (Permutation_length Hp) as Hlen.
  destruct (IH (swap n j l) g1) as (l' & g' & -> & Hl'); [lia..|]. exists l', g'. split; [done|by rewrite Hl'].
Qed.

Lemma shuffle_permutes {A} (l : list A) g :
  Z.of_nat (length l) < 2 ^ 53 → ∃ l' g', shuffle rng l g = (Some l', g') ∧ l' ≡ₚ l.
Proof. by apply shuffle_down_permutation. Qed.

Lemma weighted_passes_permutation items total g :
  (weighted_passes rng (length items) items total g).1 ≡ₚ items.*1.
Proof.
  remember (length items) as n eqn:Hn. revert items g Hn.
  induction n as [|n IH]; intros items g Hn; [by destruct items|]. cbn [weighted_passes].
  destruct (draw_takes rng items total g) as (a & w & rest & t' & g' & -> & Hp); [by intros ->|].
  assert (n = length rest) as Hr. { apply Permutation_length in Hp. simpl in Hp. lia. }
  specialize (IH rest g' Hr). destruct (weighted_passes rng n rest total g') as [res g''].
  cbn [fst option_list app] in *. by rewrite IH, Hp.
Qed.

Lemma weightedShuffle_permutes items g : (weightedShuffle rng items g).1 ≡ₚ items.*1.
Proof. apply weighted_passes_permutation. Qed.

(** How the queues of one environment are ordered: a rearrangement, by age unless that
    is randomised. *)
Definition ordered_queues (queues result : list FairQueue) : Prop :=
  result ≡ₚ queues ∧
  (d_is_zero (queueAgeRandomization (biases opt_biases)) = true →
   StronglySorted (λ a b, fq_age b ≤ fq_age a) result).

Lemma weightedRandomQueueOrder_ordered queues g :
  ordered_queues queues (weightedRandomQueueOrder rng opt_biases queues g).1.
Proof.
  unfold ordered_queues, weightedRandomQueueOrder. destruct (length queues <=? 1)%nat eqn:E.
  { apply Nat.leb_le in E. split; [done|]. intros _. destruct queues as [|q [|]]; simpl in E; [constructor| |lia].
    repeat constructor. }
  destruct (d_is_zero _) eqn:Ez; cbn [fst].
  - split; [apply sort_desc_perm|intros _; apply sort_desc_sorted].
  - split; [|done]. rewrite weightedShuffle_permutation, <- list_fmap_compose. by rewrite list_fmap_id.
Qed.

(** What is handed out for an environment. *)
Definition handed_out (queues : list FairQueue) (env : EnvQueues) : Prop :=
  ∃ result, env.2 = fq_id <$> result ∧ ordered_queues (filter (λ q, fq_env q = env.1) queues) result.

Lemma order_envs_spec queues envs g :
  let l := (order_envs rng opt_biases (queues_by_env queues) envs g).1 in
  l.*1 = filter (λ e, e ∈ env_ids queues) envs ∧ Forall (handed_out queues) l.
Proof.
  revert g. induction envs as [|e envs IH]; intros g; [split; [done|constructor]|]. cbn [order_envs].
  rewrite filter_cons. destruct (decide (e ∈ env_ids queues)) as [He|He].
  - destruct (find_group queues e He) as [i ->].
    pose proof (weightedRandomQueueOrder_ordered (filter (λ q, fq_env q = e) queues) g) as Ho.
    destruct (weightedRandomQueueOrder _ _ _ _) as [ordered g1]. cbn [fst] in Ho.
    specialize (IH g1). destruct (order_envs _ _ _ envs g1) as [result g2]. cbn zeta in IH. cbn [fst] in IH.
    assert (0 < length ordered)%nat as Hpos.
    { destruct Ho as [Hp _]. rewrite Hp. apply elem_of_env_ids, list_elem_of_fmap in He as (q & -> & Hq).
      assert (q ∈ filter (λ q', fq_env q' = fq_env q) queues) as Hin by (by apply list_elem_of_filter).
      destruct (filter _ queues); [by apply elem_of_nil in Hin|simpl; lia]. }
    rewrite (proj2 (Nat.ltb_lt 0 (length ordered))) by done. cbn [fst].
    destruct IH as [IH1 IH2]. split; [cbn; by rewrite IH1|]. constructor; [|done]. by exists ordered.
  - rewrite (find_no_group _ _ He). apply IH.
Qed.

Lemma shuffleQueuesByEnv_spec sn g :
  NoDup (fs_envs sn).*1 → Z.of_nat (length (fs_envs sn)) < 2 ^ 53 →
  (∀ q, q ∈ fs_queues sn → fq_env q ∈ (fs_envs sn).*1) →
  ∃ l g', shuffleQueuesByEnv rng pow opt_biases sn g = (Some l, g') ∧
    l.*1 ≡ₚ env_ids (fs_queues sn) ∧ Forall (handed_out (fs_queues sn)) l.
Proof.
  intros Hnd Hlen Hin. unfold shuffleQueuesByEnv.
  set (shuffled := if _ && _ then _ else _).
  assert (∃ envs g1, shuffled = (Some envs, g1) ∧ envs ≡ₚ (fs_envs sn).*1) as (envs & g1 & -> & Hp).
  { unfold shuffled. destruct (_ && _); [apply shuffle_permutes; by rewrite length_fmap|].
    set (items := (λ env, _) <$> fs_envs sn). pose proof (weightedShuffle_permutes items g) as Hw.
    destruct (weightedShuffle rng items g) as [r g1]. exists r, g1. split; [done|]. cbn [fst] in Hw.
    unfold items in Hw. by rewrite <- list_fmap_compose in Hw. }
  unfold orderQueuesByEnvs. destruct (order_envs_spec (fs_queues sn) envs g1) as [Hk Hl].
  destruct (order_envs _ _ _ envs g1) as [l g2]. cbn [fst] in Hk, Hl. exists l, g2.
  split; [done|]. split; [|done]. rewrite Hk. apply NoDup_Permutation.
  - apply NoDup_filter. by rewrite Hp.
  - apply NoDup_env_ids.
  - intros e. rewrite list_elem_of_filter, Hp, elem_of_env_ids. split; [by intros [? _]|].
    intros He. split; [done|]. apply list_elem_of_fmap in He as (q & -> & Hq). by apply Hin.
Qed.

(** Some draws: as many as asked for, or all. *)
Lemma draws_takes {A} n (items : list (A * spec_float)) total g :
  ∃ rest, (draws rng n items total g).1 ++ rest ≡ₚ items.*1 ∧
    length (draws rng n items total g).1 = Nat.min n (length items).
Proof.
  revert items total g. induction n as [|n IH]; intros items total g; [by exists items.*1|].
  destruct items as [|p items]; [by exists []|]. cbn [draws].
  destruct (draw_takes rng (p :: items) total g) as (a & w & rest & t' & g' & -> & Hp); [done|].
  destruct (IH rest t' g') as (rest' & Hr & Hl). destruct (draws rng n rest t' g') as [res g''].
  cbn [fst option_list app length] in *. exists rest'. split; [rewrite Hp; cbn; by rewrite <- Hr|].
  apply Permutation_length in Hp. simpl in *. lia.
Qed.

Lemma selectTopEnvs_spec queues n g :
  let sel := (selectTopEnvs rng queues n g).1 in
  sel ⊆ env_ids queues ∧ NoDup sel ∧ length sel = Nat.min (Z.to_nat n) (length (env_ids queues)).
Proof.
  unfold selectTopEnvs. set (items := (λ env, _) <$> _).
  assert (items.*1 = env_ids queues) as Hi.
  { unfold items, env_ages. rewrite <- !list_fmap_compose, <- queues_by_env_keys. apply list_fmap_ext.
    by intros i [e qs]. }
  destruct (draws_takes (Z.to_nat n) items (d_sum items.*2) g) as (rest & Hp & Hl). rewrite Hi in Hp.
  rewrite <- (length_fmap fst items), Hi in Hl. cbn zeta. split_and!; [|..|done].
  - intros e He. rewrite <- Hp. apply elem_of_app. by left.
  - eapply (NoDup_app _ rest). rewrite Hp. apply NoDup_env_ids.
Qed.

End Orders.

(** ** The snapshot *)

Section Snapshots.
Context {db C : Type} {R : Redis rq_value db}.
Context (swr : C → string → spec_float → option spec_float * C).
Context (o : FairQueueSelectionStrategyOptions) (views : read → db).

(** What a call reads of an environment: [c] is the cache of limits then, reached from
    that at the begin of the call through the reads of other environments. *)
Definition cache_step : relation C := λ c c', ∃ d, c' = (getEnvConcurrency swr o views d c).2.

Definition saw (c0 : C) (queues : list FairQueue) (e : string) (seen : FairQueueConcurrency) : Prop :=
  ∃ q c, q ∈ queues ∧ fq_env q = e ∧ rtc cache_step c0 c ∧
    seen = (getEnvConcurrency swr o views (envDescriptorFromFairQueue q) c).1.

Lemma env_descriptors_spec queues e :
  e ∈ env_ids queues →
  ∃ q, q ∈ queues ∧ fq_env q = e ∧ env_descriptors queues !! e = Some (envDescriptorFromFairQueue q).
Proof.
  rewrite elem_of_env_ids. induction queues as [|q queues IH] using rev_ind; [by intros ?%elem_of_nil|].
  unfold env_descriptors. rewrite foldl_app, fmap_app. cbn [foldl].
  destruct (decide (fq_env q = e)) as [<-|Hne].
  - intros _. exists q. rewrite lookup_insert_eq. split; [set_solver|done].
  - intros [He|He]%elem_of_app; [|set_solver]. destruct (IH He) as (q' & ? & ? & Hd).
    exists q'. rewrite lookup_insert_ne by done. split; [set_solver|done].
Qed.

Lemma env_concurrencies_spec queues ids c :
  ids ⊆ env_ids queues →
  ∃ envs c', env_concurrencies swr o views (env_descriptors queues) ids c = (Some envs, c') ∧
    envs.*1 = ids ∧ ∀ env, env ∈ envs → saw c queues env.1 env.2.
Proof.
  revert c. induction ids as [|e ids IH]; intros c Hids.
  { exists [], c. split_and!; [done..|]. by intros env ?%elem_of_nil. }
  cbn [env_concurrencies]. destruct (env_descriptors_spec queues e) as (q & Hq & Heq & ->); [set_solver|].
  destruct (getEnvConcurrency swr o views (envDescriptorFromFairQueue q) c) as [conc c1] eqn:Ec.
  destruct (IH c1) as (envs & c2 & -> & Hk & Hs); [set_solver|]. cbn [mbind option_bind].
  exists ((e, conc) :: envs), c2. split_and!; [done|cbn; by rewrite Hk|].
  intros env [->|Hin]%elem_of_cons; [exists q, c; cbn; by rewrite Ec|].
  destruct (Hs env Hin) as (q' & c' & ? & ? & Hc' & ?). exists q', c'. split_and!; [done..| |done].
  eapply rtc_l; [|exact Hc']. exists (envDescriptorFromFairQueue q). by rewrite Ec.
Qed.

Lemma not_full_iff (envs : list (string * FairQueueConcurrency)) e :
  e ∉ (filter (λ env, at_full_concurrency env.2 = true) envs).*1 ↔
  ∀ conc, (e, conc) ∈ envs → at_full_concurrency conc = false.
Proof.
  split.
  - intros Hno conc Hc. apply not_true_is_false. intros Hf. apply Hno.
    apply (list_elem_of_fmap_2' fst _ (e, conc)); [|done]. by apply list_elem_of_filter.
  - intros Hr ((e' & conc) & -> & [Hf Hin]%list_elem_of_filter)%list_elem_of_fmap.
    specialize (Hr conc Hin). cbn in Hf. congruence.
Qed.

(** The environments and queues of a snapshot are those with room. *)
Lemma snapshot_of_spec queues envs :
  envs.*1 = env_ids queues →
  let sn := snapshot_of queues envs in
  let room e := ∀ conc, (e, conc) ∈ envs → at_full_concurrency conc = false in
  NoDup (fs_envs sn).*1 ∧ (length (fs_envs sn) ≤ length queues)%nat ∧
  (∀ q, q ∈ fs_queues sn ↔ q ∈ queues ∧ room (fq_env q)) ∧
  (∀ q, q ∈ fs_queues sn → fq_env q ∈ (fs_envs sn).*1).
Proof.
  intros Hk sn room. pose proof (NoDup_env_ids queues) as Hnd. rewrite <- Hk in Hnd.
  assert (∀ q, q ∈ fs_queues sn ↔ q ∈ queues ∧ room (fq_env q)) as Hq.
  { intros q. unfold sn, snapshot_of. cbn [fs_queues]. rewrite list_elem_of_filter, not_full_iff. tauto. }
  split_and!; [| |done|].
  - unfold sn, snapshot_of. cbn [fs_envs]. eapply sublist_NoDup; [exact Hnd|]. apply fmap_sublist, sublist_filter.
  - etrans; [|apply length_env_ids]. rewrite <- Hk, length_fmap. apply length_filter.
  - intros q [Hin Hr]%Hq. unfold sn, snapshot_of. cbn [fs_envs].
    assert (fq_env q ∈ envs.*1) as He by (rewrite Hk, elem_of_env_ids; by apply list_elem_of_fmap_2).
    apply list_elem_of_fmap in He as ((e & conc) & Heq & He). apply list_elem_of_fmap.
    exists (e, conc). split; [done|]. apply list_elem_of_filter. split; [|done]. cbn in *. subst e. by apply not_full_iff.
Qed.

End Snapshots.

(** ** A call *)

Section Calls.
Context {db G C : Type} {R : Redis rq_value db}.
Context (rng : G → spec_float * G) (pow : spec_float → spec_float → spec_float).
Context (swr : C → string → spec_float → option spec_float * C).
Context (o : FairQueueSelectionStrategyOptions).
Context (Hrng : ∀ g, in_unit (rng g).1 = true) (Hlimit : 0 ≤ parentQueueLimit o < 2 ^ 53).
Implicit Types (views : read → db) (m : StrategyMemory G C).

(** The due entries a call looks at. *)
Definition due_entries views (now : Z) (parentQueue : string) : list (string * Z) :=
  ZRANGEBYSCORE (client_key o parentQueue) now (parentQueueLimit o) (views ReadQueues).

(** The number of environments a call looks at, of those it found. *)
Definition env_count (found : nat) : nat :=
  match so_maximumEnvCount o with
  | Some n => if 0 <? n then Nat.min (Z.to_nat n) found else found
  | None => found
  end.

Lemma due_entries_length views now parentQueue :
  Z.of_nat (length (due_entries views now parentQueue)) < 2 ^ 53.
Proof. unfold due_entries, ZRANGEBYSCORE. rewrite length_take. lia. Qed.

(** The environments that were chosen. *)
Definition choice (queues : list FairQueue) (chosen : list string) : Prop :=
  chosen ⊆ env_ids queues ∧ NoDup chosen ∧ length chosen = env_count (length (env_ids queues)).

(** A snapshot of the queues of the chosen environments with room. *)
Definition snapshot_spec views (c0 : C) (queues : list FairQueue) (chosen : list string)
    (seen : string → FairQueueConcurrency) (sn : FairQueueSnapshot) : Prop :=
  (∀ e, e ∈ chosen → saw swr o views c0 queues e (seen e)) ∧
  NoDup (fs_envs sn).*1 ∧ (length (fs_envs sn) ≤ length queues)%nat ∧
  fs_queues sn = filter (λ q, fq_env q ∈ chosen ∧ at_full_concurrency (seen (fq_env q)) = false) queues ∧
  (∀ q, q ∈ fs_queues sn → fq_env q ∈ (fs_envs sn).*1).

(** The queues of the chosen environments. *)
Lemma env_ids_filter queues chosen :
  chosen ⊆ env_ids queues → NoDup chosen → env_ids (filter (λ q, fq_env q ∈ chosen) queues) ≡ₚ chosen.
Proof.
  intros Hsub Hnd. apply NoDup_Permutation; [apply NoDup_env_ids|done|]. intros e. rewrite elem_of_env_ids. split.
  - by intros (q & -> & [? _]%list_elem_of_filter)%list_elem_of_fmap.
  - intros He. pose proof (Hsub e He) as Hq. rewrite elem_of_env_ids in Hq.
    apply list_elem_of_fmap in Hq as (q & -> & Hq). apply list_elem_of_fmap_2. by apply list_elem_of_filter.
Qed.

Lemma snapshot_of_chosen views c0 queues chosen envs :
  chosen ⊆ env_ids queues → NoDup chosen →
  let qs := filter (λ q, fq_env q ∈ chosen) queues in
  envs.*1 = env_ids qs → (∀ env, env ∈ envs → saw swr o views c0 qs env.1 env.2) →
  ∃ seen, snapshot_spec views c0 queues chosen seen (snapshot_of qs envs).
Proof.
  intros Hsub Hnd qs Hk Hs. destruct (snapshot_of_spec qs envs Hk) as (H1 & H2 & H3 & H4).
  pose proof (env_ids_filter queues chosen Hsub Hnd) as Hp. fold qs in Hp. rewrite <- Hk in Hp.
  assert (NoDup envs.*1) as Hnde by by rewrite Hp.
  set (seen := λ e, default (MkConcurrency 0 d_zero) ((list_to_map envs : gmap string _) !! e)).
  assert (∀ e conc, (e, conc) ∈ envs → seen e = conc) as Hseen.
  { intros e conc Hin. unfold seen. by rewrite (elem_of_list_to_map_1 envs e conc Hnde Hin). }
  exists seen. split_and!; [|done| | |done].
  - intros e He. rewrite <- Hp in He. apply list_elem_of_fmap in He as ((e' & conc) & -> & Hin).
    cbn. rewrite (Hseen e' conc Hin). destruct (Hs _ Hin) as (q & c & Hq & ? & ? & ?). exists q, c.
    apply list_elem_of_filter in Hq as [_ Hq]. done.
  - etrans; [exact H2|]. apply length_filter.
  - unfold snapshot_of. cbn [fs_queues]. unfold qs. rewrite list_filter_filter. apply list_filter_iff.
    intros q. rewrite not_full_iff. split.
    + intros [Hr He]. split; [done|]. rewrite <- Hp in He.
      apply list_elem_of_fmap in He as ((e & conc) & Heq & Hin). cbn in Heq. subst e.
      rewrite (Hseen _ _ Hin). by apply Hr.
    + intros [He Hf]. split; [|done]. intros conc Hin. by rewrite (Hseen _ _ Hin) in Hf.
Qed.

(** Without a snapshot to reuse, a call takes one of the environments it chose. *)
Lemma fresh_snapshot_spec views now parentQueue consumerId m queues :
  mapM (fair_queue now) (due_entries views now parentQueue) = Some queues →
  ∃ chosen seen sn m', fresh_snapshot rng swr o views now parentQueue consumerId m = (Some sn, m') ∧
    choice queues chosen ∧ snapshot_spec views (sm_cache m) queues chosen seen sn.
Proof.
  intros Hqs. unfold fresh_snapshot, allChildQueuesByScore. fold (due_entries views now parentQueue).
  rewrite Hqs. destruct queues as [|q0 queues'].
  { exists [], (λ _, MkConcurrency 0 d_zero), emptyFairQueueSnapshot, m. unfold choice, env_count. cbn.
    split; [done|]. split.
    - split_and!; [done|by apply NoDup_nil|]. repeat case_match; lia.
    - split_and!; [by intros e ?%elem_of_nil|by apply NoDup_nil|done|done|by intros q ?%elem_of_nil]. }
  set (queues := q0 :: queues') in *.
  assert (∃ chosen m1, choice queues chosen ∧ sm_cache m1 = sm_cache m ∧
    match so_maximumEnvCount o with
    | Some n =>
        if 0 <? n then
          let '(sel, g) := selectTopEnvs rng queues n (sm_rng m) in
          (filter (λ q, fq_env q ∈ sel) queues, with_rng g m)
        else (queues, m)
    | None => (queues, m)
    end = (filter (λ q, fq_env q ∈ chosen) queues, m1)) as (chosen & m1 & Hc & Hcache & ->).
  { assert (queues = filter (λ q, fq_env q ∈ env_ids queues) queues) as Hall.
    { symmetry. apply filter_all. intros q Hq. rewrite elem_of_env_ids. by apply list_elem_of_fmap_2. }
    unfold choice, env_count. destruct (so_maximumEnvCount o) as [n|]; [destruct (0 <? n)|].
    - destruct (selectTopEnvs_spec rng queues n (sm_rng m)) as (? & ? & ?).
      destruct (selectTopEnvs rng queues n (sm_rng m)) as [sel g]. by exists sel, (with_rng g m).
    - exists (env_ids queues), m. rewrite <- Hall. split; [|done]. split_and!; [done|apply NoDup_env_ids|done].
    - exists (env_ids queues), m. rewrite <- Hall. split; [|done]. split_and!; [done|apply NoDup_env_ids|done]. }
  pose proof Hc as (Hsub & Hnd & _). set (qs := filter _ _).
  destruct (env_concurrencies_spec swr o views qs (env_ids qs) (sm_cache m1)) as (envs & c & -> & Hk & Hs); [done|].
  rewrite Hcache in Hs.
  destruct (snapshot_of_chosen views _ queues chosen envs Hsub Hnd Hk Hs) as [seen Hseen].
  exists chosen, seen. do 2 eexists. split; [done|]. done.
Qed.

(** What a snapshot is turned into. *)
Lemma snapshot_distributed views c0 queues chosen seen sn g :
  choice queues chosen → snapshot_spec views c0 queues chosen seen sn → Z.of_nat (length queues) < 2 ^ 53 →
  ∃ l g', shuffleQueuesByEnv rng pow (so_biases o) sn g = (Some l, g') ∧
    l.*1 ≡ₚ filter (λ e, at_full_concurrency (seen e) = false) chosen ∧
    Forall (handed_out (so_biases o) queues) l ∧ (fs_queues sn = [] → l = []).
Proof.
  intros (Hsub & Hnd & _) (_ & Hnde & Hlen & Hqs & Hin) Hb.
  destruct (shuffleQueuesByEnv_spec rng pow (so_biases o) Hrng sn g) as (l & g' & Hl & Hk & Hh); [done|lia|done|].
  exists l, g'. split; [done|].
  assert (∀ e, e ∈ env_ids (fs_queues sn) ↔ e ∈ chosen ∧ at_full_concurrency (seen e) = false) as Henv.
  { intros e. rewrite elem_of_env_ids, Hqs. split.
    - by intros (q & -> & [? _]%list_elem_of_filter)%list_elem_of_fmap.
    - intros [He Hf]. pose proof (Hsub e He) as Hq. rewrite elem_of_env_ids in Hq.
      apply list_elem_of_fmap in Hq as (q & -> & Hq). apply list_elem_of_fmap_2. by apply list_elem_of_filter. }
  split_and!.
  - rewrite Hk. apply NoDup_Permutation; [apply NoDup_env_ids|by apply NoDup_filter|]. intros e.
    rewrite Henv, list_elem_of_filter. tauto.
  - rewrite Forall_forall in Hh. apply Forall_forall. intros [e qs] He. destruct (Hh _ He) as (res & Hres & Ho).
    exists res. split; [done|]. cbn [fst] in *. rewrite Hqs, list_filter_filter_l in Ho; [done|].
    intros q <-. apply Henv. rewrite <- Hk. by apply (list_elem_of_fmap_2' fst _ (fq_env q, qs)).
  - intros E. rewrite E in Hk. apply Permutation_nil_r, fmap_nil_inv in Hk. done.
Qed.

(** C19. Which queues a consumer gets.  If every due entry of the master queue, up to the
    limit, names a queue, then for any weights, biases, random numbers and cache, a
    call without a snapshot to reuse succeeds.  It chooses environments of the entries,
    all of them or the configured number, and hands out those that it did not see at
    their limit, each exactly once, with exactly the queues of the entries that belong
    to the environment, the oldest first unless their order is randomised. *)
Theorem distribute_exact views now parentQueue consumerId m queues :
  mapM (fair_queue now) (due_entries views now parentQueue) = Some queues →
  (reuses o = true → sm_reusedSnapshotForConsumer m !! snapshot_key parentQueue consumerId = None) →
  ∃ chosen seen l m',
    distributeFairQueuesFromParentQueue rng pow swr o views now parentQueue consumerId m = (Some l, m') ∧
    choice queues chosen ∧ (∀ e, e ∈ chosen → saw swr o views (sm_cache m) queues e (seen e)) ∧
    l.*1 ≡ₚ filter (λ e, at_full_concurrency (seen e) = false) chosen ∧
    Forall (handed_out (so_biases o) queues) l.
Proof.
  intros Hqs Hno. unfold distributeFairQueuesFromParentQueue, createQueueSnapshot.
  assert ((if reuses o then sm_reusedSnapshotForConsumer m !! snapshot_key parentQueue consumerId else None)
    = None) as -> by (destruct (reuses o); [by apply Hno|done]).
  destruct (fresh_snapshot_spec views now parentQueue consumerId m queues Hqs)
    as (chosen & seen & sn & m1 & -> & Hc & Hsn).
  assert (Z.of_nat (length queues) < 2 ^ 53) as Hb.
  { rewrite <- (length_mapM _ _ _ Hqs). apply due_entries_length. }
  destruct (snapshot_distributed views _ queues chosen seen sn (sm_rng m1) Hc Hsn Hb) as (l & g & Hl & Hk & Hh & Hnil).
  exists chosen, seen. destruct (fs_queues sn) as [|q qs] eqn:Eq.
  - rewrite (Hnil eq_refl) in Hk, Hh. exists [], m1. split_and!; [done|done|apply Hsn|done|done].
  - exists l, (with_rng g m1). rewrite Hl. split_and!; [done|done|apply Hsn|done|done].
Qed.

(** ** Reuse of snapshots *)

Record selection_call : Type := MkCall {
  sc_views : read → db;
  sc_now : Z;
  sc_parentQueue : string;
  sc_consumerId : string;
}.

Definition sc_key (c : selection_call) : string := snapshot_key (sc_parentQueue c) (sc_consumerId c).

Definition call_fresh (c : selection_call) m : option FairQueueSnapshot * StrategyMemory G C :=
  fresh_snapshot rng swr o (sc_views c) (sc_now c) (sc_parentQueue c) (sc_consumerId c) m.

Definition call_snapshot (c : selection_call) m : option FairQueueSnapshot * StrategyMemory G C :=
  createQueueSnapshot rng swr o (sc_views c) (sc_now c) (sc_parentQueue c) (sc_consumerId c) m.

(** The memory of the strategy after some calls. *)
Definition after (calls : list selection_call) m : StrategyMemory G C :=
  foldl (λ m c, (distributeFairQueuesFromParentQueue rng pow swr o (sc_views c) (sc_now c)
                   (sc_parentQueue c) (sc_consumerId c) m).2) m calls.

(** A fresh snapshot does not depend on the kept ones. *)
Lemma call_fresh_reused c r m : (call_fresh c (with_reused r m)).1 = (call_fresh c m).1.
Proof.
  unfold call_fresh, fresh_snapshot. destruct (allChildQueuesByScore _ _ _ _) as [[|q qs]|]; [done| |done].
  destruct (so_maximumEnvCount o) as [n|]; [destruct (0 <? n)|]; cbn [sm_rng with_reused sm_cache];
    [destruct (selectTopEnvs _ _ _ _) as [sel g]|..]; cbn [sm_cache with_rng with_reused];
    by destruct (env_concurrencies _ _ _ _ _ _) as [[envs|] c'].
Qed.

Lemma call_fresh_keeps c m :
  sm_reusedSnapshotForConsumer (call_fresh c m).2 = sm_reusedSnapshotForConsumer m ∨
  (∃ sn, (call_fresh c m).1 = Some sn ∧ reuses o = true ∧
     sm_reusedSnapshotForConsumer (call_fresh c m).2 =
       <[sc_key c := (sn, 0)]> (sm_reusedSnapshotForConsumer m)).
Proof.
  unfold call_fresh, fresh_snapshot. destruct (allChildQueuesByScore _ _ _ _) as [[|q qs]|]; [by left| |by left].
  set (sel := match so_maximumEnvCount o with Some _ => _ | None => _ end).
  assert (sm_reusedSnapshotForConsumer sel.2 = sm_reusedSnapshotForConsumer m) as Hsel.
  { unfold sel. destruct (so_maximumEnvCount o) as [n|]; [destruct (0 <? n)|]; [|done..].
    by destruct (selectTopEnvs _ _ _ _). }
  destruct sel as [qs' m1]. cbn [snd] in Hsel.
  destruct (env_concurrencies _ _ _ _ _ _) as [[envs|] c']; [|by left].
  destruct (reuses o) eqn:Er; [right|left; done]. eexists. split; [done|]. split; [done|]. cbn. by rewrite Hsel.
Qed.

(** The kept snapshots after one call: the reused one is counted, a fresh one is kept
    with count 0, or the consumer has none. *)
Lemma call_snapshot_keeps c m k sn n :
  (reuses o = false → sm_reusedSnapshotForConsumer m = ∅) →
  sm_reusedSnapshotForConsumer (call_snapshot c m).2 !! k = Some (sn, n) →
  (k ≠ sc_key c ∧ sm_reusedSnapshotForConsumer m !! k = Some (sn, n)) ∨
  (k = sc_key c ∧ sm_reusedSnapshotForConsumer m !! k = Some (sn, n - 1)) ∨
  (k = sc_key c ∧ n = 0 ∧ (call_fresh c m).1 = Some sn).
Proof.
  intros Hoff. unfold call_snapshot, createQueueSnapshot. fold (sc_key c).
  assert (∀ r, r !! sc_key c = None → (∀ k', k' ≠ sc_key c → r !! k' = sm_reusedSnapshotForConsumer m !! k') →
    sm_reusedSnapshotForConsumer (call_fresh c (with_reused r m)).2 !! k = Some (sn, n) →
    (k ≠ sc_key c ∧ sm_reusedSnapshotForConsumer m !! k = Some (sn, n)) ∨
    (k = sc_key c ∧ n = 0 ∧ (call_fresh c m).1 = Some sn)) as Hfresh.
  { intros r Hr Hr'. pose proof (call_fresh_keeps c (with_reused r m)) as Hk.
    rewrite call_fresh_reused in Hk. cbn [sm_reusedSnapshotForConsumer with_reused] in Hk.
    destruct (decide (k = sc_key c)) as [->|Hne].
    - destruct Hk as [->|(sn' & Hs & _ & ->)]; [by rewrite Hr|]. rewrite lookup_insert_eq.
      intros [= -> <-]. by right.
    - intros Hl. left. split; [done|]. rewrite <- (Hr' k Hne).
      destruct Hk as [Hk|(sn' & _ & _ & Hk)]; rewrite Hk in Hl; [done|]. by rewrite lookup_insert_ne in Hl. }
  pose proof (Hfresh (sm_reusedSnapshotForConsumer m)) as Hsame.
  replace (with_reused (sm_reusedSnapshotForConsumer m) m) with m in Hsame by (by destruct m).
  destruct (reuses o) eqn:Er; cycle 1.
  { intros [?|?]%Hsame; [by left|by right; right|by rewrite Hoff by done|done]. }
  destruct (sm_reusedSnapshotForConsumer m !! sc_key c) as [[sn0 n0]|] eqn:El.
  - destruct (n0 <? reuseSnapshotCount o).
    + cbn [snd keep_snapshot sm_reusedSnapshotForConsumer with_reused].
      destruct (decide (k = sc_key c)) as [->|Hne].
      * rewrite lookup_insert_eq. intros [= -> <-]. right; left. split; [done|]. rewrite El. do 2 f_equal. lia.
      * rewrite lookup_insert_ne by done. by left.
    + intros [?|?]%Hfresh; [by left|by right; right|by rewrite lookup_delete_eq|].
      intros k' Hk'. by rewrite lookup_delete_ne.
  - intros [?|?]%Hsame; [by left|by right; right|done|done].
Qed.

Lemma after_snoc calls c m :
  sm_reusedSnapshotForConsumer (after (calls ++ [c]) m) =
  sm_reusedSnapshotForConsumer (call_snapshot c (after calls m)).2.
Proof.
  unfold after. rewrite foldl_app. cbn [foldl]. fold (after calls m).
  unfold distributeFairQueuesFromParentQueue. fold (call_snapshot c (after calls m)).
  destruct (call_snapshot c (after calls m)) as [[sn|] m1]; [|done].
  destruct (fs_queues sn); [done|]. by destruct (shuffleQueuesByEnv _ _ _ _ _).
Qed.

(** The calls for the snapshots of [k]. *)
Definition calls_of (k : string) (calls : list selection_call) : Z :=
  Z.of_nat (length (filter (λ c, sc_key c = k) calls)).

Lemma calls_of_snoc k calls c :
  calls_of k (calls ++ [c]) = calls_of k calls + (if decide (sc_key c = k) then 1 else 0).
Proof. unfold calls_of. rewrite filter_app, length_app, filter_cons, filter_nil. case_decide; cbn; lia. Qed.

(** The snapshot [sn] was fresh in an earlier call, [n] calls ago. *)
Definition taken_before m0 (calls : list selection_call) (k : string) (sn : FairQueueSnapshot) (n : Z) : Prop :=
  ∃ before c between, calls = before ++ c :: between ∧ sc_key c = k ∧
    (call_fresh c (after before m0)).1 = Some sn ∧ calls_of k between = n.

Lemma kept_taken_before m0 calls :
  sm_reusedSnapshotForConsumer m0 = ∅ →
  (reuses o = false → sm_reusedSnapshotForConsumer (after calls m0) = ∅) ∧
  ∀ k sn n, sm_reusedSnapshotForConsumer (after calls m0) !! k = Some (sn, n) → taken_before m0 calls k sn n.
Proof.
  intros H0. induction calls as [|c calls [IHoff IH]] using rev_ind.
  { split; [done|]. intros k sn n. cbn. by rewrite H0. }
  rewrite after_snoc. split.
  - intros Hoff. apply map_empty. intros k.
    destruct (sm_reusedSnapshotForConsumer (call_snapshot c _).2 !! k) as [[sn n]|] eqn:E; [|done].
    unfold call_snapshot, createQueueSnapshot in E. rewrite Hoff in E. fold (call_fresh c (after calls m0)) in E.
    destruct (call_fresh_keeps c (after calls m0)) as [Hk|(? & _ & ? & _)]; [|congruence].
    by rewrite Hk, IHoff in E.
  - intros k sn n [[Hne Hl]|[[-> Hl]|(-> & -> & Hf)]]%call_snapshot_keeps; [| | |done].
    + destruct (IH _ _ _ Hl) as (before & c' & between & -> & Hk & Hf & Hn).
      exists before, c', (between ++ [c]). rewrite <- app_assoc. split_and!; [done..|].
      rewrite calls_of_snoc, decide_False by done. lia.
    + destruct (IH _ _ _ Hl) as (before & c' & between & -> & Hk & Hf & Hn).
      exists before, c', (between ++ [c]). rewrite <- app_assoc. split_and!; [done..|].
      rewrite calls_of_snoc, decide_True by done. lia.
    + by exists calls, c, [].
Qed.

(** C24. How old a reused snapshot can be.  After any calls for any master queues and
    consumers, the snapshot a call works with is taken in this call, or it was taken in
    an earlier call under the same key (master queue and consumer), with fewer than
    [reuseSnapshotCount] calls under the key in between: a snapshot serves at most
    [reuseSnapshotCount] calls after the one that took it. *)
Theorem snapshot_reuse_bounded m0 calls c sn m' :
  sm_reusedSnapshotForConsumer m0 = ∅ →
  call_snapshot c (after calls m0) = (Some sn, m') →
  (call_fresh c (after calls m0)).1 = Some sn ∨
  ∃ n, taken_before m0 calls (sc_key c) sn n ∧ n < reuseSnapshotCount o.
Proof.
  intros H0. destruct (kept_taken_before m0 calls H0) as [_ Hk].
  unfold call_snapshot, createQueueSnapshot. fold (sc_key c).
  destruct (reuses o); [|intros Hf; left; unfold call_fresh; by rewrite Hf].
  destruct (sm_reusedSnapshotForConsumer (after calls m0) !! sc_key c) as [[sn0 n0]|] eqn:El;
    [|intros Hf; left; unfold call_fresh; by rewrite Hf].
  destruct (n0 <? reuseSnapshotCount o) eqn:Elt.
  - intros [= -> _]. right. exists n0. split; [by apply Hk|lia].
  - intros Hf. left. rewrite <- (call_fresh_reused c (delete (sc_key c) (sm_reusedSnapshotForConsumer (after calls m0)))).
    unfold call_fresh. by rewrite Hf.
Qed.

End Calls.

(** ** Witnesses *)

Definition sample_rng (g : unit) : spec_float * unit := (SFdiv 53 1024 (double_of_Z 1) (double_of_Z 2), g).
Definition sample_square (x _ : spec_float) : spec_float := d_mul x x.
(** A cache that keeps nothing. *)
Definition no_cache (c : unit) (_ : string) (loaded : spec_float) : option spec_float * unit := (Some loaded, c).

Lemma sample_rng_unit g : in_unit (sample_rng g).1 = true.
Proof. by vm_compute. Qed.

Definition sample_selection : FairQueueSelectionStrategyOptions :=
  MkSelectionOptions "rq:" (Some 10) None (Some (MkSelectionBiases d_one d_one d_zero)) (Some 1) (Some 2).

Definition sample_env (i : string) : env_obj := EnvObj i "proj" "org".
Definition sample_descriptor (i : string) : EnvDescriptor := MkEnvDescriptor "org" "proj" i.
Definition sample_parent : string := masterQueueKeyForShard 0.

(** Two environments have due queues; the second may run one task and does. *)
Definition sample_redis : mem rq_value :=
  SET ("rq:" +:+ envConcurrencyLimitKey (ByDescriptor (sample_descriptor "e2"))) (VNumber 1)
    (SADD ("rq:" +:+ envCurrentConcurrencyKey (ByDescriptor (sample_descriptor "e2"))) "run"
      (ZADD ("rq:" +:+ sample_parent) 3 (queueKey (sample_env "e1") "new" None)
        (ZADD ("rq:" +:+ sample_parent) 2 (queueKey (sample_env "e2") "full" None)
          (ZADD ("rq:" +:+ sample_parent) 1 (queueKey (sample_env "e1") "old" None) (mem_empty (0, 0)))))).

Definition sample_memory : StrategyMemory unit unit := MkStrategyMemory tt ∅ tt.

Definition sample_queues : list FairQueue :=
  [MkFairQueue (queueKey (sample_env "e1") "old" None) 9 "org" "e1" "proj";
   MkFairQueue (queueKey (sample_env "e2") "full" None) 8 "org" "e2" "proj";
   MkFairQueue (queueKey (sample_env "e1") "new" None) 7 "org" "e1" "proj"].

Lemma distribute_exact_witness :
  ∃ l m', distributeFairQueuesFromParentQueue sample_rng sample_square no_cache sample_selection
            (λ _, sample_redis) 10 sample_parent "loop" sample_memory = (Some l, m') ∧
    l = [("e1", [queueKey (sample_env "e1") "old" None; queueKey (sample_env "e1") "new" None])] ∧
    Forall (handed_out (so_biases sample_selection) sample_queues) l.
Proof.
  destruct (distribute_exact sample_rng sample_square no_cache sample_selection sample_rng_unit ltac:(by vm_compute)
    (λ _, sample_redis) 10 sample_parent "loop" sample_memory sample_queues ltac:(by vm_compute) ltac:(done))
    as (chosen & seen & l & m' & Hd & _ & _ & _ & Hh).
  exists l, m'. split; [exact Hd|]. split; [|exact Hh]. vm_compute in Hd. injection Hd as <- _. by vm_compute.
Defined.

Definition sample_call : selection_call := MkCall (λ _, sample_redis) 10 sample_parent "loop".

(** The second call reuses the snapshot of the first. *)
Lemma snapshot_reuse_bounded_witness :
  ∃ sn m', call_snapshot sample_rng no_cache sample_selection sample_call
             (after sample_rng sample_square no_cache sample_selection [sample_call] sample_memory) = (Some sn, m') ∧
  ((call_fresh sample_rng no_cache sample_selection sample_call
      (after sample_rng sample_square no_cache sample_selection [sample_call] sample_memory)).1 = Some sn ∨
   ∃ n, taken_before sample_rng sample_square no_cache sample_selection sample_memory [sample_call]
          (sc_key sample_call) sn n ∧ n < 1).
Proof.
  destruct (call_snapshot sample_rng no_cache sample_selection sample_call
    (after sample_rng sample_square no_cache sample_selection [sample_call] sample_memory)) as [[sn|] m'] eqn:E;
    [|vm_compute in E; discriminate E].
  exists sn, m'. split; [done|].
  exact (snapshot_reuse_bounded sample_rng sample_square no_cache sample_selection sample_memory [sample_call]
    sample_call sn m' eq_refl E).
Defined.
