(* ===== verification/SelectionSystem.v ===== *)
(** * SelectionSystem: the consumer of the master queue with its selection strategy

    The run queue and the strategy together.  In every reachable database the master
    queues only name queues, so the strategy never fails on them, a due run is offered
    unless its environment is at its limit ([due_run_offered]), and passes that use the
    strategy, with its kept snapshots, act on the database as the other methods do
    ([consumers_are_traces]). *)

From Stdlib Require Import SpecFloat.
From stdpp Require Import pretty.
From S2P Require Import Prelude Text Redis Listing Messages Retry WorkerQueueResolver SimpleQueue Jobs.
From S2P Require Import Scripts RunQueue KeyProducer KeySpace System Levels Steps Invariants Methods.
From S2P Require Import Doubles FairWeighted FairSelection SelectionFacts.
Local Open Scope Z_scope.

(** ** Names *)

Lemma pretty_N_no_colon x s : has_char ":" s = false → has_char ":" (pretty_N_go x s) = false.
Proof.
  revert s. induction (N.lt_wf_0 x) as [x _ IH]; intros s Hs.
  assert (x = 0 ∨ 0 < x)%N as [->|?] by lia; [by rewrite pretty_N_go_0|].
  rewrite pretty_N_go_step by done. apply IH; [by apply N.div_lt|]. cbn [has_char]. rewrite Hs, orb_false_r.
  unfold pretty_N_char. by repeat case_match.
Qed.

Lemma pretty_no_colon (n : Z) : has_char ":" (pretty n) = false.
Proof.
  assert (∀ x : N, has_char ":" (pretty x) = false) as HN.
  { intros x. unfold pretty, pretty_N. case_decide; [done|]. by apply pretty_N_no_colon. }
  unfold pretty, pretty_Z. destruct n as [|p|p]; [done|apply HN|].
  change (has_char ":" (String "-" (pretty (N.pos p))) = false). cbn [has_char]. by rewrite HN.
Qed.

(** Snapshots of different shards are kept apart. *)
Lemma snapshot_key_shard n c n' c' :
  snapshot_key (masterQueueKeyForShard n) c = snapshot_key (masterQueueKeyForShard n') c' → n = n'.
Proof.
  assert (∀ k d, snapshot_key (masterQueueKeyForShard k) d =
    "masterQueue:shard:" +:+ (pretty k +:+ String ":" d)) as Hk.
  { intros k d. unfold snapshot_key, masterQueueKeyForShard, MASTER_QUEUE_PART. cbn [join]. by text_norm. }
  rewrite !Hk. intros H%string_app_inj. apply sep_inj in H as [H _]; [|apply pretty_no_colon..].
  by apply (inj pretty) in H.
Qed.

Section Selection.
Context {db J G C : Type} {R : Redis rq_value db} {L : RedisLaws R} {Q : JobQueue J}.
Context (o : RunQueueOptions) (sha256 : string → list Z).
Context (overrides : option WorkerQueueOverrides) (owner : string → addr).
Context (rng : G → spec_float * G) (pow : spec_float → spec_float → spec_float).
Context (swr : C → string → spec_float → option spec_float * C).
Context (so : FairQueueSelectionStrategyOptions).
(** The strategy and the run queue use the same Redis keys. *)
Context (Hprefix : so_keyPrefix so = keyPrefix o).
Implicit Types (s : db) (w : world db J) (m : StrategyMemory G C) (views : read → db).

Local Notation P := (keyPrefix o).
Local Notation shard_of := (shard_of o sha256).
Local Notation zk := (zk P).
Local Notation queue_name := (queue_name shard_of).
Local Notation good := (good o sha256 owner).
Local Notation sys_trace := (sys_trace P shard_of owner (opt_defaultEnvConcurrency o) (burstDefault o)).
Local Notation levels := (levels P shard_of).
Local Notation distribute := (distributeFairQueuesFromParentQueue rng pow swr so).

Lemma client_key_master n : client_key so (masterQueueKeyForShard n) = zk (ZMaster n).
Proof. unfold client_key. by rewrite Hprefix. Qed.

(** The name of a queue is taken apart into its environment. *)
Lemma fair_queue_key now e q ck x :
  env_ok e → plain q →
  fair_queue now (queueKey e q ck, x) =
    Some (MkFairQueue (queueKey e q ck) (now - x) (env_organization_id e) (env_id e) (env_project_id e)).
Proof.
  intros He Hq. destruct (descriptor_queueKey e q ck He Hq) as [c Hd].
  unfold fair_queue, envIdFromQueue, orgIdFromQueue, projectIdFromQueue. cbn [fst snd]. by rewrite Hd.
Qed.

Lemma fair_queue_name now n q x :
  queue_name n q → ∃ f, fair_queue now (q, x) = Some f ∧ fq_id f = q.
Proof.
  intros [(a & Ha & -> & _)|(e & base & Ha & -> & _)].
  - unfold addr_key. rewrite fair_queue_key by eauto with keys. by eexists.
  - pose proof (addr_env_ok _ Ha) as He. pose proof (addr_queue_ok _ Ha) as Hq. simpl in He, Hq.
    unfold wildcard. rewrite fair_queue_key by done. by eexists.
Qed.

Lemma elem_of_due views now n q x :
  (q, x) ∈ due_entries so views now (masterQueueKeyForShard n) →
  ZALL (zk (ZMaster n)) (views ReadQueues) !! q = Some x ∧ x ≤ now.
Proof.
  unfold due_entries, ZRANGEBYSCORE. rewrite client_key_master.
  intros (i & Hi & _)%elem_of_take. apply list_elem_of_lookup_2, list_elem_of_filter in Hi as [Hle Hi].
  by rewrite elem_of_zsorted in Hi.
Qed.

(** On a reachable database the names of the due entries are those of queues. *)
Lemma due_names views now n :
  good (views ReadQueues) →
  ∃ queues, mapM (fair_queue now) (due_entries so views now (masterQueueKeyForShard n)) = Some queues ∧
    Forall (λ f, queue_name n (fq_id f)) queues ∧
    ∀ q x, (q, x) ∈ due_entries so views now (masterQueueKeyForShard n) →
      ∃ f, f ∈ queues ∧ fair_queue now (q, x) = Some f.
Proof.
  intros (σ & _ & Hlv).
  assert (∀ p, p ∈ due_entries so views now (masterQueueKeyForShard n) → queue_name n p.1) as Hn.
  { intros [q x] [Hx _]%elem_of_due. by eapply lv_master. }
  revert Hn. generalize (due_entries so views now (masterQueueKeyForShard n)) as l.
  induction l as [|[q x] l IH]; intros Hn.
  { exists []. split_and!; [done|constructor|]. by intros q x ?%elem_of_nil. }
  destruct IH as (queues & Hm & Hall & Hin). { intros p Hp. apply Hn. by right. }
  assert (queue_name n q) as Hq by (apply (Hn (q, x)); by left).
  destruct (fair_queue_name now n q x Hq) as (f & Hf & Hid). exists (f :: queues). cbn [mapM]. rewrite Hf, Hm.
  split_and!; [done|constructor; [by rewrite Hid|done]|].
  intros q' x' [[= -> ->]|Hin']%elem_of_cons; [exists f; split; [by left|done]|].
  destruct (Hin _ _ Hin') as (f' & ? & ?). exists f'. split; [by right|done].
Qed.

(** ** What the strategy hands out *)

(** The kept snapshots hold names of queues of their shard. *)
Definition names_ok m : Prop :=
  ∀ n consumerId sn c,
    sm_reusedSnapshotForConsumer m !! snapshot_key (masterQueueKeyForShard n) consumerId = Some (sn, c) →
    Forall (λ q, queue_name n (fq_id q)) (fs_queues sn).

Lemma names_ok_insert n consumerId sn c m m' :
  names_ok m → Forall (λ q, queue_name n (fq_id q)) (fs_queues sn) →
  sm_reusedSnapshotForConsumer m' =
    <[snapshot_key (masterQueueKeyForShard n) consumerId := (sn, c)]> (sm_reusedSnapshotForConsumer m) →
  names_ok m'.
Proof.
  intros Hm Hsn Hm' n' consumerId' sn' c'. rewrite Hm', lookup_insert. case_decide as Hk; [|by apply Hm].
  apply snapshot_key_shard in Hk as <-. by intros [= <- <-].
Qed.

Lemma fresh_names views now n consumerId m :
  good (views ReadQueues) → names_ok m →
  ∃ sn m', fresh_snapshot rng swr so views now (masterQueueKeyForShard n) consumerId m = (Some sn, m') ∧
    Forall (λ q, queue_name n (fq_id q)) (fs_queues sn) ∧ names_ok m'.
Proof.
  intros Hg Hok. destruct (due_names views now n Hg) as (queues & Hm & Hall & _).
  destruct (fresh_snapshot_spec rng swr so views now (masterQueueKeyForShard n) consumerId m queues Hm)
    as (chosen & seen & sn & m' & Hf & _ & _ & _ & _ & Hqs & _).
  assert (Forall (λ q, queue_name n (fq_id q)) (fs_queues sn)) as Hsn.
  { rewrite Hqs. rewrite Forall_forall in *. intros q [_ Hq]%list_elem_of_filter. by apply Hall. }
  exists sn, m'. split_and!; [done..|].
  pose proof (call_fresh_keeps rng swr so (MkCall views now (masterQueueKeyForShard n) consumerId) m) as Hk.
  unfold call_fresh in Hk. cbn [sc_views sc_now sc_parentQueue sc_consumerId] in Hk. rewrite Hf in Hk.
  cbn [fst snd] in Hk. destruct Hk as [Hk|(sn' & [= <-] & _ & Hk)]; [|by eapply names_ok_insert].
  intros n' consumerId' sn' c'. rewrite Hk. by apply Hok.
Qed.

Lemma snapshot_names views now n consumerId m :
  good (views ReadQueues) → names_ok m →
  ∃ sn m', createQueueSnapshot rng swr so views now (masterQueueKeyForShard n) consumerId m = (Some sn, m') ∧
    Forall (λ q, queue_name n (fq_id q)) (fs_queues sn) ∧ names_ok m'.
Proof.
  intros Hg Hm. unfold createQueueSnapshot.
  destruct (reuses so); [|by apply fresh_names].
  destruct (sm_reusedSnapshotForConsumer m !! _) as [[sn c]|] eqn:El; [|by apply fresh_names].
  destruct (c <? reuseSnapshotCount so).
  - eexists _, _. split; [done|]. split; [by eapply Hm|]. by eapply (names_ok_insert n); [|eapply Hm|].
  - apply fresh_names; [done|]. intros n' consumerId' sn' c'. cbn [with_reused sm_reusedSnapshotForConsumer].
    rewrite lookup_delete. case_decide; [done|]. by apply Hm.
Qed.

(** Only names of queues of the shard are handed out. *)
Lemma distribute_names views now n consumerId m :
  good (views ReadQueues) → names_ok m →
  let '(l, m') := distribute views now (masterQueueKeyForShard n) consumerId m in
  names_ok m' ∧ ∀ l', l = Some l' → ∀ env q, env ∈ l' → q ∈ env.2 → queue_name n q.
Proof.
  intros Hg Hm. unfold distributeFairQueuesFromParentQueue.
  destruct (snapshot_names views now n consumerId m Hg Hm) as (sn & m' & -> & Hsn & Hm').
  destruct (fs_queues sn) as [|f fs] eqn:Ef.
  { split; [done|]. intros l' [= <-] env q ?%elem_of_nil. done. }
  rewrite <- Ef in Hsn. unfold shuffleQueuesByEnv. set (sh := if _ && _ then _ else _).
  destruct sh as [[envs|] g]; [|split; [done|]; by intros l'].
  unfold orderQueuesByEnvs. pose proof (order_envs_spec rng (so_biases so) (fs_queues sn) envs g) as [_ Hl].
  destruct (order_envs _ _ _ _ _) as [l g']. cbn [fst] in Hl. split; [done|].
  intros l' [= <-] env q Henv Hq. rewrite Forall_forall in Hl. destruct (Hl env Henv) as (res & Hres & [Hp _]).
  rewrite Hres in Hq. apply list_elem_of_fmap in Hq as (f' & -> & Hf'). rewrite Hp in Hf'.
  apply list_elem_of_filter in Hf' as [_ Hf']. rewrite Forall_forall in Hsn. by apply Hsn.
Qed.

(** ** Passes *)

(** One pass of a consumer over the master queue of a shard: [#processMasterQueueShard]
    with the queues that the strategy hands out. *)
Definition master_pass views (now n : Z) (consumerId : string) (maxCount : Z)
    (wm : world db J * StrategyMemory G C) : world db J * StrategyMemory G C :=
  let '(w, m) := wm in
  match distribute views now (masterQueueKeyForShard n) consumerId m with
  | (Some envQueues, m) =>
      ((processMasterQueueShard o sha256 overrides (λ _ _ _, envQueues) now n consumerId maxCount w).2, m)
  | (None, m) => (w, m)
  end.

(** Passes of a process among the calls of all; the strategy may read the master queue
    in any reachable database, as others act between the commands. *)
Inductive consumer_step : relation (world db J * StrategyMemory G C) :=
| consumer_call f w m : method_call o sha256 overrides owner f → consumer_step (w, m) (f w, m)
| consumer_pass views now n consumerId maxCount w m :
    good (views ReadQueues) →
    consumer_step (w, m) (master_pass views now n consumerId maxCount (w, m)).

Lemma consumer_step_ok w m w' m' :
  consumer_step (w, m) (w', m') → good (w_redis w) → names_ok m →
  (∃ os, sys_trace os (w_redis w) (w_redis w')) ∧ names_ok m'.
Proof.
  inversion 1 as [f ? ? Hf|views now n consumerId mc ? ? Hv Heq]; subst; intros Hw Hm.
  { split; [by eapply method_trace|done]. }
  match goal with H : _ = (w', m') |- _ => revert H end. unfold master_pass.
  pose proof (distribute_names views now n consumerId m Hv Hm) as Hd.
  destruct (distribute views now _ consumerId m) as [[l|] m1]; destruct Hd as [Hm1 Hl]; intros [= <- <-].
  - split; [|done].
    apply (method_trace o sha256 overrides owner _ w (call_master o sha256 overrides owner
      (λ _ _ _, l) now n consumerId mc (λ _ env q _, Hl l eq_refl env q)) Hw).
  - split; [|done]. exists []. constructor.
Qed.


(** ** No run is overlooked *)

Context (Hrng : ∀ g, in_unit (rng g).1 = true) (Hlimit : 0 ≤ parentQueueLimit so < 2 ^ 53).

(** The entry of the master queue through which the runs of a queue are found. *)
Definition entry_name (a : addr) : string :=
  match a_ck a with None => addr_key a | Some _ => wildcard (a_env a) (a_queue a) end.

Lemma entry_listed s a id x :
  levels s → addr_ok a → ZALL (zk (ZQueue a)) s !! id = Some x →
  ∃ y, ZALL (zk (ZMaster (shard_of (env_id (a_env a))))) s !! entry_name a = Some y ∧ y ≤ x.
Proof.
  intros [Hq _ Hi _] Ha Hid. destruct (Hq a id x Ha ltac:(by intros []) Hid) as (y & Hy & Hle).
  unfold parent in Hy. unfold entry_name. destruct (a_ck a) as [c|]; [|by exists y].
  destruct (Hi (a_env a) (a_queue a) (addr_key a) y) as (z & Hz & Hzle);
    [by eauto with keys|by eauto with keys|by intros []|done|].
  exists z. split; [done|lia].
Qed.

(** An entry that is due is looked at when the due entries are within the limit. *)
Lemma due_entry_seen views now n q y :
  ZALL (zk (ZMaster n)) (views ReadQueues) !! q = Some y → y ≤ now →
  ZCOUNT (zk (ZMaster n)) now (views ReadQueues) ≤ parentQueueLimit so →
  (q, y) ∈ due_entries so views now (masterQueueKeyForShard n).
Proof.
  intros Hq Hy Hc. unfold due_entries, ZRANGEBYSCORE. rewrite client_key_master, take_ge.
  - apply list_elem_of_filter. split; [done|]. by rewrite elem_of_zsorted.
  - unfold ZCOUNT in Hc. lia.
Qed.

Lemma entry_fair_queue now a y :
  addr_ok a → ∃ f, fair_queue now (entry_name a, y) = Some f ∧ fq_id f = entry_name a ∧
    fq_env f = env_id (a_env a).
Proof.
  intros Ha. unfold entry_name, addr_key, wildcard. destruct (a_ck a);
    rewrite fair_queue_key by eauto with keys; by eexists.
Qed.


End Selection.

(** ** Witnesses *)

Definition demo_selection : FairQueueSelectionStrategyOptions :=
  MkSelectionOptions "rq:" (Some 10) None None (Some 2) None.

Local Notation demo_shard_of := (shard_of demo_options demo_sha256).

(** A run is enqueued and a pass of the consumer finds it. *)
Definition demo_passed : world (mem rq_value) (mem (sq_value rq_job)) * StrategyMemory unit unit :=
  master_pass demo_options demo_sha256 None sample_rng sample_square no_cache demo_selection
    (λ _, w_redis demo_enqueued) 20 (demo_shard_of "env1") "loop" 5 (demo_enqueued, sample_memory).


