(* ===== verification/FairSamples.v ===== *)
(** * FairSamples: a concrete fair queue the theorems are run on

    One tenant "acme" with the queue "tenant:acme:emails", deficit round robin, one
    concurrency group of limit 2, three attempts 100 ms apart. *)

From S2P Require Import Prelude Text Redis Listing JumpHash SimpleQueue FairKeys FairScripts FairRetry.
From S2P Require Import Effect FairWorld FairManagers FairSchedulers FairQueue FairSystem FairSteps.
From S2P Require Import FairLevels FairInvariants FairTraces FairMethods FairPolicies.
Local Open Scope Z_scope.

Notation demo_value := (fq_value string unit).
Notation demo_db := (mem demo_value).

Definition fq_keys : FairQueueKeyProducer :=
  CallbackFairQueueKeyProducer (Some "fq") None (default_extractTenantId None)
    (default_extractGroupId None).

Definition fq_group : Concurrency.ConcurrencyGroupConfig demo_db :=
  Concurrency.MkGroup "tenant" qd_tenantId (λ _ _, 2) 10.

Definition fq_options : FairQueueOptions string demo_db unit :=
  MkFairQueueOptions fq_keys (DRRScheduler fq_keys 5 50 None) None None (Some 1) [fq_group]
    (λ _, "main") (Some (FixedDelayRetry 3 100)) None None None None None None None None None None.

Definition fq_sha256 : string → list Z := λ _, [].

Definition fq_queue : string := "tenant:acme:emails".
Definition fq_home : homes string := MkHomes (λ _, fq_queue) (λ _ _, True).
Definition fq_bound : bounds (mem_redis demo_value) := static (λ _ _, 2).

Definition fq_empty : fq_state demo_db unit := FqState (mem_empty (0, 0)) ∅ ∅ tt.

Definition fq_enqueue (m : string) (z : Z) : EnqueueOptions string :=
  MkEnqueue fq_queue "acme" "hello" (Some m) (Some z) None.

Notation fq_shard := (getShardForQueue fq_sha256 fq_options).
Notation fq_shardT := (getShardForTenant fq_sha256 fq_options).
Notation fq_names := (Concurrency.cg_name <$> fo_concurrencyGroups fq_options).

Lemma fq_shards_ok : 1 ≤ shardCount fq_options.
Proof. done. Qed.

Lemma fq_names_ok : Forall (λ g, has_char ":" g = false) fq_names.
Proof. by repeat constructor. Qed.

Lemma fq_bound_ok : groups_bounded fq_keys fq_bound (fo_concurrencyGroups fq_options).
Proof. intros g i ->%list_elem_of_singleton. split; [by intros []|done]. Qed.

#[export] Instance fq_keys_laws : FairKeyLaws (fo_keys fq_options).
Proof. apply callback_laws. Qed.

#[export] Instance fq_scheduler_laws :
  SchedulerLaws (fo_keys fq_options) fq_home fq_shard fq_shardT fq_names fq_bound
    (fo_scheduler fq_options).
Proof.
  apply (drr_laws (KL := fq_keys_laws) fq_keys); [apply fq_names_ok|]. intros h. apply callback_deficitKey.
Qed.

(** The empty database satisfies the invariant. *)
Lemma good_empty {P X} (K : FairQueueKeyProducer) home shard shardT names
    (b : bounds (mem_redis (fq_value P X))) t :
  (∀ g i, 0 ≤ b g i) → settings b (mem_empty t) →
  good K home shard shardT names b (mem_empty t : mem (fq_value P X)).
Proof.
  intros Hb Hset. split.
  - split; intros *; unfold zv, hv; cbn; rewrite lookup_empty; cbn; try by rewrite lookup_empty.
    by intros ?%elem_of_nil.
  - split; intros *; unfold zv; cbn; rewrite ?lookup_empty; cbn; by rewrite ?lookup_empty.
  - intros g i _. unfold SCARD. cbn. rewrite lookup_empty. cbn. by rewrite size_empty.
  - done.
Qed.

(** Another client enqueues a message. *)
Definition fq_other_message (m : string) (z : Z) : demo_value :=
  FMsg (new_message fq_options m fq_queue "acme" "hi" z None).

Definition fq_other (m : string) (z : Z) (st : fq_state demo_db unit) : fq_state demo_db unit :=
  with_redis
    (enqueueBatchAtomicV2 (queueKey fq_keys fq_queue) (queueItemsKey fq_keys fq_queue)
       (tenantQueueIndexKey fq_keys (extractTenantId fq_keys fq_queue))
       (dispatchKey fq_keys (fq_shardT (extractTenantId fq_keys fq_queue))) fq_queue
       (extractTenantId fq_keys fq_queue) [(m, z, fq_other_message m z)] (fw_redis st)) st.

Lemma fq_other_moves E m z st :
  wf_id m →
  moves (fo_keys fq_options) fq_home fq_shard fq_shardT fq_names fq_bound E st (fq_other m z st).
Proof.
  intros Hm. apply rtc_once. split; [|done].
  eexists. split; [|apply (step_enqueue fq_keys fq_home fq_shard fq_shardT fq_names fq_bound fq_queue
                             [(m, z, fq_other_message m z)] (fw_redis st))].
  - apply Forall_singleton. by intros [|].
  - apply Forall_singleton. split; [done|]. split; [done|]. by eexists.
Qed.

(** Nothing is stored, and another client is about to enqueue "m2". *)
Definition fq_start : fq_world demo_db unit := FqWorld fq_empty [fq_other "m2" 3].

Lemma fq_start_ok E :
  w_ok (fo_keys fq_options) fq_home fq_shard fq_shardT fq_names fq_bound E fq_start.
Proof.
  split.
  - split; [by apply good_empty|]. intros q d. cbn. by rewrite lookup_empty.
  - apply Forall_singleton. intros st _. by apply fq_other_moves.
Qed.
