(* ===== verification/FairTheorems.v ===== *)
(** * FairTheorems: what the fair queue guarantees

    The properties hold for any sequence of calls of one process, whatever the other
    calls and processes do in between ([fw_env]): they are consequences of
    [calls_are_traces] and of the invariant. *)

From Stdlib Require Import SpecFloat.
From S2P Require Import Prelude Text Redis Listing JumpHash SimpleQueue FairKeys FairScripts FairRetry.
From S2P Require Import Effect FairWorld FairManagers FairSchedulers FairQueue FairSystem FairSteps.
From S2P Require Import FairLevels FairInvariants FairTraces FairMethods FairPolicies FairSamples.
Local Open Scope Z_scope.

Section Theorems.
Context {P X db S : Type} {R : Redis (fq_value P X) db} {L : RedisLaws R}.
Context (sha256 : string → list Z) (options : FairQueueOptions P db S).
Local Notation K := (fo_keys options).
Context {KL : FairKeyLaws K}.
Context (home : homes P) (bound : bounds R).
Local Notation shard := (getShardForQueue sha256 options).
Local Notation shardT := (getShardForTenant sha256 options).
Local Notation groups := (fo_concurrencyGroups options).
Local Notation names := (Concurrency.cg_name <$> groups).
Local Notation tenant := (extractTenantId K).
Local Notation good := (good K home shard shardT names bound).
Local Notation mview := (mview K home shard).
Local Notation w_ok := (w_ok (S := S) K home shard shardT names bound).

Context (Hshards : 1 ≤ shardCount options).
Context (Hnames : Forall (λ g, has_char ":" g = false) names).
Context (Hbound : groups_bounded K bound groups).
Context {SL : SchedulerLaws K home shard shardT names bound (fo_scheduler options)}.

(** The database of a world. *)
Definition db_of (w : fq_world db S) : db := fw_redis (fw_state w).

Definition run_calls (cs : list (fq_call (P := P))) (w : fq_world db S) : fq_world db S :=
  foldl (λ w c, after sha256 options c w) w cs.

(** The calls respect the contract, and end deliveries of messages of [E] only. *)
Definition calls_ok (E : string → Prop) (cs : list (fq_call (P := P))) : Prop :=
  Forall (λ c, call_ok options home c ∧ ∀ m, may_end c m → E m) cs.

Lemma run_calls_trace E cs w :
  calls_ok E cs → w_ok E w → trace K home shard shardT names bound E w (run_calls cs w).
Proof.
  intros Hcs. revert w. induction Hcs as [|c cs [Hc HE] _ IH]; intros w Hw; [reflexivity|].
  pose proof (calls_are_traces sha256 options home bound Hshards Hnames Hbound E c w Hc HE Hw) as Ht.
  etrans; [exact Ht|]. apply IH. by eapply (fq_trace_ok K).
Qed.

Lemma moves_refine E (st st' : fq_state db S) :
  moves K home shard shardT names bound E st st' → st_ok K home shard shardT names bound st →
  ∃ ops, Forall (allowed E) ops ∧
    ∀ m, wf_id m → mview m (fw_redis st') = acts m ops (mview m (fw_redis st)).
Proof.
  induction 1 as [st|st st1 st2 [(ops & Ha & Hop) Hc] _ IH]; intros Hst; [by exists []|].
  destruct Hst as [Hg Hk]. destruct IH as (ops' & Ha' & Hv).
  { split; [by eapply (step_good K)|by apply Hc]. }
  exists (ops ++ ops'). split; [by apply Forall_app|]. intros m Hm.
  rewrite Hv, acts_app by done. f_equal.
  apply (step_refines K home shard shardT names bound ops); [apply Hg|done|done].
Qed.

(** C7. Any sequence of calls, interleaved with anything the other calls and processes
    do, refines the transition system of messages: there is a sequence of operations
    on messages, of which only those on the messages of [E] end a delivery, that
    takes the state of every message to its state after the calls; and the invariant
    is kept. *)
Theorem fair_calls_refine_messages E cs w :
  calls_ok E cs → w_ok E w →
  w_ok E (run_calls cs w) ∧
  ∃ ops, Forall (allowed E) ops ∧
    ∀ m, wf_id m → mview m (db_of (run_calls cs w)) = acts m ops (mview m (db_of w)).
Proof.
  intros Hcs Hw. pose proof (run_calls_trace E cs w Hcs Hw) as Ht.
  split; [by eapply (fq_trace_ok K)|]. apply moves_refine; [apply Ht|apply Hw].
Qed.

(** C11. No message is lost: a message that waits in its queue, or is in flight with its
    payload, still is one or the other after any calls of this process and of the
    others, as long as none of them completes or fails that message. *)
Theorem fair_messages_not_lost E cs w m :
  calls_ok E cs → w_ok E w → wf_id m → ¬ E m →
  live (mview m (db_of w)) → live (mview m (db_of (run_calls cs w))).
Proof.
  intros Hcs Hw Hm HE Hl. pose proof (run_calls_trace E cs w Hcs Hw) as Ht.
  destruct (moves_refine E _ _ (proj1 Ht) (proj1 Hw)) as (ops & Ha & Hv). unfold db_of.
  rewrite Hv by done. apply live_acts; [|done]. eapply Forall_impl; [exact Ha|].
  intros [m' o] Ho <-. cbn. by intros ?%Ho.
Qed.

(** C15. A queued message stays visible to the scheduler: after any calls, the tenant of
    a queue that holds a due message is among the due tenants of its dispatch shard,
    and the queue among the due queues of the tenant. *)
Theorem fair_queued_stay_visible E cs w q m z now n :
  calls_ok E cs → w_ok E w →
  let s := db_of (run_calls cs w) in
  ZSCORE (queueKey K q) m s = Some z → z ≤ now →
  ZCARD (tenantQueueIndexKey K (tenant q)) s ≤ n →
  ZCARD (dispatchKey K (shardT (tenant q))) s ≤ n →
  q ∈ (ZRANGEBYSCORE (tenantQueueIndexKey K (tenant q)) now n s).*1 ∧
  tenant q ∈ (ZRANGEBYSCORE (dispatchKey K (shardT (tenant q))) now n s).*1.
Proof.
  intros Hcs Hw s Hm Hz Hn1 Hn2. pose proof (run_calls_trace E cs w Hcs Hw) as Ht.
  assert (good s) as Hs by (apply (fq_trace_ok K home shard shardT names bound Hnames E _ _ Ht Hw)).
  destruct (good_levels _ _ _ _ _ _ _ Hs) as [H1 H2].
  destruct (H1 q m z ltac:(done) Hm) as (y & Hy & Hle). split.
  - eapply ZRANGEBYSCORE_all; [exact Hy|lia|done].
  - specialize (H2 (tenant q)). destruct (zmin_lookup _ _ _ Hy) as ([q' y'] & Hmin & Hle').
    rewrite Hmin in H2. eapply ZRANGEBYSCORE_all; [exact H2|cbn in *; lia|done].
Qed.

(** C23. Concurrency limits are never exceeded: after any calls of this process and of
    the others, a concurrency group holds at most as many messages as the bound on
    its limit. *)
Theorem fair_limits_never_exceeded E cs w g i :
  calls_ok E cs → w_ok E w → g ∈ names →
  SCARD (concurrencyKey K g i) (db_of (run_calls cs w)) ≤ bound g i.
Proof.
  intros Hcs Hw Hg. pose proof (run_calls_trace E cs w Hcs Hw) as Ht.
  apply (good_limits K home shard shardT names bound); [|done].
  apply (fq_trace_ok K home shard shardT names bound Hnames E _ _ Ht Hw).
Qed.

End Theorems.

(** ** Witnesses *)

(** "m1" is enqueued while another client enqueues "m2"; then a consumer turn claims
    both. *)
Definition demo_calls : list (fq_call (P := string)) :=
  [CallEnqueue 5 "n" (fq_enqueue "m1" 1); CallConsume 10 "loop" 0].

Definition demo_end : string → Prop := λ m, m = "m9".

Lemma demo_calls_ok : calls_ok fq_options fq_home demo_end demo_calls.
Proof. by repeat constructor. Qed.

Lemma fair_calls_refine_messages_witness :
  let w := run_calls fq_sha256 fq_options demo_calls fq_start in
  (ms_fly (mview fq_keys fq_home fq_shard "m1" (db_of w)) = Some 30010 ∧
   ms_fly (mview fq_keys fq_home fq_shard "m2" (db_of w)) = Some 30010) ∧
  ∃ ops, Forall (allowed demo_end) ops ∧
    ∀ m, wf_id m → mview fq_keys fq_home fq_shard m (db_of w) =
                   acts m ops (mview fq_keys fq_home fq_shard m (db_of fq_start)).
Proof.
  split; [by vm_compute|].
  exact (proj2 (fair_calls_refine_messages fq_sha256 fq_options fq_home fq_bound fq_shards_ok fq_names_ok
    fq_bound_ok demo_end demo_calls fq_start demo_calls_ok (fq_start_ok demo_end))).
Defined.

(** The world after the calls of the first witness. *)
Definition demo_claimed : fq_world demo_db unit :=
  run_calls fq_sha256 fq_options demo_calls fq_start.

Lemma demo_claimed_ok :
  w_ok (fo_keys fq_options) fq_home fq_shard fq_shardT fq_names fq_bound demo_end demo_claimed.
Proof.
  eapply (fq_trace_ok (fo_keys fq_options)); [apply fq_names_ok| |apply (fq_start_ok demo_end)].
  apply (run_calls_trace fq_sha256 fq_options fq_home fq_bound fq_shards_ok fq_names_ok fq_bound_ok);
    [apply demo_calls_ok|apply fq_start_ok].
Qed.

Lemma fair_messages_not_lost_witness :
  live (mview fq_keys fq_home fq_shard "m1"
          (db_of (run_calls fq_sha256 fq_options [CallReclaim 40000] demo_claimed))).
Proof.
  refine (fair_messages_not_lost fq_sha256 fq_options fq_home fq_bound fq_shards_ok fq_names_ok
    fq_bound_ok demo_end [CallReclaim 40000] demo_claimed "m1" _ demo_claimed_ok _ _ _).
  - by repeat constructor.
  - done.
  - done.
  - right. split; vm_compute; by eexists.
Defined.

Lemma fair_queued_stay_visible_witness :
  let s := db_of (run_calls fq_sha256 fq_options [CallReclaim 40000] demo_claimed) in
  fq_queue ∈ (ZRANGEBYSCORE (tenantQueueIndexKey fq_keys "acme") 50000 10 s).*1 ∧
  "acme" ∈ (ZRANGEBYSCORE (dispatchKey fq_keys (fq_shardT "acme")) 50000 10 s).*1.
Proof.
  refine (fair_queued_stay_visible fq_sha256 fq_options fq_home fq_bound fq_shards_ok fq_names_ok
    fq_bound_ok demo_end [CallReclaim 40000] demo_claimed fq_queue "m1" 1 50000 10 _ demo_claimed_ok
    _ _ _ _).
  - by repeat constructor.
  - by vm_compute.
  - done.
  - by vm_compute.
  - by vm_compute.
Defined.

Lemma fair_limits_never_exceeded_witness :
  SCARD (concurrencyKey fq_keys "tenant" "acme") (db_of demo_claimed) = 2 ∧
  SCARD (concurrencyKey fq_keys "tenant" "acme")
    (db_of (run_calls fq_sha256 fq_options [CallConsume 20 "loop" 0] demo_claimed)) ≤ 2.
Proof.
  split; [by vm_compute|].
  refine (fair_limits_never_exceeded fq_sha256 fq_options fq_home fq_bound fq_shards_ok fq_names_ok
    fq_bound_ok demo_end [CallConsume 20 "loop" 0] demo_claimed "tenant" "acme" _ demo_claimed_ok _).
  - by repeat constructor.
  - apply list_elem_of_singleton. done.
Defined.
