(* ===== verification/FairOutcomes.v ===== *)
(** * FairOutcomes: what the methods of the fair queue return and do

    The outcome of a claim, of handing the claimed messages to the workers, of a failure
    and of a pass of the reclaim loop, when they run alone. *)

From Stdlib Require Import SpecFloat.
From S2P Require Import Prelude Text Redis Listing JumpHash SimpleQueue FairKeys FairScripts FairRetry.
From S2P Require Import Effect FairWorld FairManagers FairSchedulers FairQueue FairSystem FairSteps.
From S2P Require Import FairLevels FairInvariants FairTraces FairMethods FairPolicies FairSamples FairTheorems.
Local Open Scope Z_scope.
Local Open Scope effect_scope.

Section Claims.
Context {P X db : Type} {R : Redis (fq_value P X) db} {L : RedisLaws R}.
Context (K : FairQueueKeyProducer) {KL : FairKeyLaws K}.
Context (home : homes P) (shard shardT : string → Z).
Implicit Types (s : db).
Local Notation V := (fq_value P X).
Local Notation typed := (typed K home shard shardT).
Local Notation mview := (mview K home shard).
Local Notation claim q d := (claimMessageBatch (queueKey K q) (queueItemsKey K q) (inflightKey K (shard q))
  (inflightDataKey K (shard q)) q d).

(** The payload of a message that waits. *)
Definition payload_of (q : string) (s : db) (p : string * Z) : option (string * V) :=
  (λ v, (p.1, v)) <$> HGET (queueItemsKey K q) p.1 s.

Lemma claim_one_items q d m v s n :
  n ≠ m →
  hv K (FhItems q) (claim_one (queueKey K q) (queueItemsKey K q) (inflightKey K (shard q))
    (inflightDataKey K (shard q)) q d m v s) !! n = hv K (FhItems q) s !! n.
Proof.
  intros Hne. unfold claim_one. fold_keys K. rewrite !(hv_HSET K), (hv_ZADD K), (hv_HDEL K), !(hv_ZREM K).
  rewrite decide_False by done. rewrite decide_True by done. by rewrite lookup_delete_ne.
Qed.

Lemma claim_loop_result q d items s :
  NoDup items.*1 →
  (claim_loop (queueKey K q) (queueItemsKey K q) (inflightKey K (shard q))
     (inflightDataKey K (shard q)) q d items s).1 = omap (payload_of q s) items.
Proof.
  revert s. induction items as [|[m z] items IH]; intros s Hnd; [done|].
  apply NoDup_cons in Hnd as [Hm Hnd]. cbn [claim_loop omap list_omap].
  assert (∀ s', (∀ n, n ≠ m → hv K (FhItems q) s' !! n = hv K (FhItems q) s !! n) →
            omap (payload_of q s') items = omap (payload_of q s) items) as Hsame.
  { intros s' Hs'. clear IH Hnd. induction items as [|[n x] items IH]; [done|]. cbn [omap list_omap].
    cbn in Hm. apply not_elem_of_cons in Hm as [Hn Hm]. rewrite (IH Hm).
    unfold payload_of, HGET. cbn [fst]. specialize (Hs' n ltac:(done)). unfold hv in Hs'. cbn in Hs'.
    by rewrite Hs'. }
  unfold payload_of at 1. cbn [fst]. destruct (HGET (queueItemsKey K q) m s) as [v|]; cbn [fmap option_fmap option_map].
  - specialize (IH (claim_one (queueKey K q) (queueItemsKey K q) (inflightKey K (shard q))
                     (inflightDataKey K (shard q)) q d m v s) Hnd).
    destruct (claim_loop _ _ _ _ _ _ _ _) as [res s2]. cbn [fst] in *. rewrite IH. f_equal.
    apply Hsame. intros n Hn. by apply claim_one_items.
  - rewrite IH by done. apply Hsame. intros n Hn. fold_keys K. by rewrite (hv_ZREM K).
Qed.

(** The first [n] members of a sorted set. *)
Lemma ZRANGE_NoDup k n s : NoDup (ZRANGE k n s).*1.
Proof.
  apply (NoDup_fst_sublist _ (zsorted (ZALL k s))); [|apply NoDup_zsorted].
  unfold ZRANGE. apply sublist_take.
Qed.

(** A claim takes the first [n] messages of the queue by score: it returns them, in
    order, with their payloads, leaving out those without one; each of them is then in
    flight until the deadline with that payload and waits no more, so that no other
    claim can return it; all other messages are as before. *)
Theorem claim_exact q d n s :
  typed s →
  let first := ZRANGE (queueKey K q) (n - 1) s in
  let '(result, s') := claim q d n s in
  result = omap (payload_of q s) first ∧
  (∀ m v, (m, v) ∈ result →
     ms_wait (mview m s') = None ∧ ms_item (mview m s') = None ∧
     ms_fly (mview m s') = Some d ∧ ms_data (mview m s') = Some v) ∧
  (∀ m, wf_id m → m ∉ first.*1 → mview m s' = mview m s).
Proof.
  intros Hs first. pose proof (ZRANGE_NoDup (queueKey K q) (n - 1) s) as Hnd. fold first in Hnd.
  pose proof (claimable_ok K home shard shardT q (n - 1) s Hs) as Hok. fold first in Hok.
  pose proof (claim_loop_result q d first s Hnd) as Hres.
  pose proof (λ m, mview_claim_loop K home shard q d first m s Hok) as Hview.
  unfold claimMessageBatch. fold first. destruct (claim_loop _ _ _ _ _ _ _ s) as [result s'].
  cbn [fst snd] in *. subst result. split; [done|]. split.
  - intros m v ([m' z] & Hin & Hv)%list_elem_of_omap. unfold payload_of in Hv. cbn [fst] in Hv.
    destruct (HGET (queueItemsKey K q) m' s) as [v'|] eqn:E; [|done]. injection Hv as <- <-.
    rewrite Forall_forall in Hok. destruct (Hok _ Hin) as [Hq Hm]. cbn [fst] in *.
    rewrite Hview by done. rewrite (acts_in m' (Claim d)).
    + unfold FairSteps.mview. rewrite Hq. change (hv K (FhItems q) s !! m' = Some v') in E. cbn [mapply]. by rewrite E.
    + rewrite <- list_fmap_compose. done.
    + apply list_elem_of_fmap. by exists (m', z).
  - intros m Hm Hnot. rewrite Hview by done. apply acts_notin. by rewrite <- list_fmap_compose.
Qed.

End Claims.

(** ** Outcomes of the methods *)

Section Outcomes.
Context {P X db S : Type} {R : Redis (fq_value P X) db} {L : RedisLaws R}.
Context (sha256 : string → list Z) (options : FairQueueOptions P db S).
Local Notation K := (fo_keys options).
Context {KL : FairKeyLaws K}.
Context (home : homes P).
Local Notation shard := (getShardForQueue sha256 options).
Local Notation shardT := (getShardForTenant sha256 options).
Local Notation groups := (fo_concurrencyGroups options).
Local Notation V := (fq_value P X).
Local Notation tenant := (extractTenantId K).
Local Notation mview := (mview K home shard).
Context (Hshards : 1 ≤ shardCount options).

(** The slots of a message in every group are freed. *)
Definition free_slots (d : QueueDescriptor) (m : string) (s : db) : db :=
  foldl (λ s g, SREM (Concurrency.slot_key K d g) m s) s groups.

Lemma alone_each {A} (f : A → db → db) (l : list A) (st : fq_state db S) :
  each (λ a, q_do (f a)) l (FqWorld st []) =
  (Ok tt, FqWorld (with_redis (foldl (λ s a, f a s) (fw_redis st) l) st) []).
Proof.
  revert st. induction l as [|a l IH]; intros st; [by destruct st|]. cbn [each].
  rewrite (alone_bind _ _ _ _ _ (alone_do _ st)), IH. done.
Qed.

Lemma alone_releaseConcurrency d m (st : fq_state db S) :
  releaseConcurrency options d m (FqWorld st []) =
  (Ok tt, FqWorld (with_redis (free_slots d m (fw_redis st)) st) []).
Proof.
  unfold releaseConcurrency, if_managed, concurrencyManager, free_slots, Concurrency.release.
  destruct groups as [|g gs]; [by destruct st|]. apply alone_each.
Qed.

Lemma alone_then_release (step : FqM db S unit) d m s (st : fq_state db S) :
  step (FqWorld st []) = (Ok tt, FqWorld (with_redis s st) []) →
  (step ;;; releaseConcurrency options d m) (FqWorld st []) =
  (Ok tt, FqWorld (with_redis (free_slots d m s) st) []).
Proof. intros H. by rewrite (alone_bind _ _ _ _ _ H), alone_releaseConcurrency. Qed.

Lemma free_slots_views d m s x :
  ZALL x (free_slots d m s) = ZALL x s ∧ HALL x (free_slots d m s) = HALL x s ∧
  LALL x (free_slots d m s) = LALL x s.
Proof.
  unfold free_slots. revert s. induction groups as [|g gs IH]; intros s; [done|]. cbn [foldl].
  destruct (IH (SREM (Concurrency.slot_key K d g) m s)) as (-> & -> & ->). repeat split; by redis_simpl.
Qed.

Lemma mview_free_slots d m n s : mview n (free_slots d m s) = mview n s.
Proof.
  apply mview_views; intros; unfold zv, hv;
    [by destruct (free_slots_views d m s (fz_key K z))|by destruct (free_slots_views d m s (fh_key K h)) as (_ & ? & _)].
Qed.

Lemma free_slots_freed d m s g :
  g ∈ groups → m ∉ SMEMBERS (Concurrency.slot_key K d g) (free_slots d m s).
Proof.
  unfold free_slots. intros Hg. assert (∀ (s : db) k (gs : list (Concurrency.ConcurrencyGroupConfig db)), m ∉ SMEMBERS k s →
    m ∉ SMEMBERS k (foldl (λ s g, SREM (Concurrency.slot_key K d g) m s) s gs)) as Hkeep.
  { intros s0 k gs. revert s0. induction gs as [|g' gs IH]; intros s0 H0; [done|]. cbn [foldl].
    apply IH. redis_simpl. case_decide; set_solver. }
  revert s Hg. induction groups as [|g' gs IH]; intros s Hg; [by apply elem_of_nil in Hg|].
  cbn [foldl]. apply elem_of_cons in Hg as [->|Hg]; [|by apply IH]. apply Hkeep. redis_simpl. set_solver.
Qed.

(** The stored message and the descriptor the methods use. *)
Definition stored (m q : string) (s : db) : option (StoredMessage P) :=
  HGET (inflightDataKey K (shard q)) m s ≫= parse_message.

Definition descriptor (st : fq_state db S) (q : string) (sm : StoredMessage P) : QueueDescriptor :=
  default (MkQueueDescriptor q (sm_tenantId sm) (default ∅ (sm_metadata sm))) (fw_descriptors st !! q).

Lemma alone_stored m q (st : fq_state db S) :
  stored_message sha256 options m q (FqWorld st []) = (Ok (stored m q (fw_redis st)), FqWorld st []).
Proof. unfold stored_message. by rewrite (alone_bind _ _ _ _ _ (alone_get _ st)). Qed.

Lemma alone_descriptor q sm (st : fq_state db S) :
  message_descriptor q sm (FqWorld st []) = (Ok (descriptor st q sm), FqWorld st []).
Proof. done. Qed.

Lemma alone_complete m q (st : fq_state db S) :
  Visibility.complete K sha256 (shardCount options) m q (FqWorld st []) =
  (Ok tt, FqWorld (with_redis (HDEL (inflightDataKey K (shard q)) m
     (ZREM (inflightKey K (shard q)) (makeMember m q) (fw_redis st))) st) []).
Proof.
  unfold Visibility.complete, Visibility.removeFromInflight. rewrite (visibility_shard sha256 options Hshards).
  by rewrite (alone_bind _ _ _ _ _ (alone_do _ st)).
Qed.

(** What becomes of a message that fails: it is retried, or it is a dead letter. *)
Definition dead_letter (now : Z) (sm : StoredMessage P) (error : option string) : DeadLetterMessage P :=
  MkDeadLetterMessage (sm_id sm) (sm_queueId sm) (sm_tenantId sm) (sm_payload sm) now (sm_attempt sm)
    error (sm_timestamp sm).

(** What the retry strategy says of a failed message. *)
Definition next_delay (random : spec_float) (sm : StoredMessage P) : option (option Z) :=
  fo_retryStrategy options ≫= λ r, getNextDelay r random (sm_attempt sm).

Definition failed (now : Z) (next : option (option Z)) (sm : StoredMessage P) (error : option string)
    (σ : mstate V) : mstate V :=
  match next with
  | Some (Some delay) =>
      MState (Some (now + delay)) (Some (FMsg (next_attempt sm))) None None (ms_grave σ) (ms_dead σ)
  | Some None => MState (ms_wait σ) (ms_item σ) None None (ms_grave σ) (ms_dead σ)
  | None =>
      if deadLetterQueueEnabled options
      then MState (ms_wait σ) (ms_item σ) None None (Some now) (Some (FDead (dead_letter now sm error)))
      else MState (ms_wait σ) (ms_item σ) None None (ms_grave σ) (ms_dead σ)
  end.

(** The effect of [Visibility.complete] on the messages. *)
Lemma mview_complete m n s :
  wf_id m → wf_id n →
  mview n (HDEL (inflightDataKey K (shard (home m))) m
            (ZREM (inflightKey K (shard (home m))) (makeMember m (home m)) s)) =
  acts n [(m, Unlink); (m, Forget)] (mview n s).
Proof. intros Hm Hn. by rewrite mview_forget, mview_unlink, <- acts_then by done. Qed.

(** The database after the failure of a message, its slots apart. *)
Definition fail_db (now : Z) (next : option (option Z)) (sm : StoredMessage P) (error : option string)
    (tn : string) (s : db) : db :=
  let m := sm_id sm in
  let q := sm_queueId sm in
  let done := HDEL (inflightDataKey K (shard q)) m (ZREM (inflightKey K (shard q)) (makeMember m q) s) in
  match next with
  | Some (Some delay) =>
      (FairScripts.releaseMessage (inflightKey K (shard q)) (inflightDataKey K (shard q)) (queueKey K q)
         (queueItemsKey K q) (tenantQueueIndexKey K tn) (dispatchKey K (shardT tn)) (makeMember m q) m
         (now + delay) q (Some (FMsg (next_attempt sm))) tn s).2
  | Some None => done
  | None =>
      if deadLetterQueueEnabled options
      then HSET (deadLetterQueueDataKey K (sm_tenantId sm)) m (FDead (dead_letter now sm error))
             (ZADD (deadLetterQueueKey K (sm_tenantId sm)) now m done)
      else done
  end.

Lemma mview_fail_db now next sm error tn n s :
  home (sm_id sm) = sm_queueId sm → sm_tenantId sm = tenant (sm_queueId sm) →
  wf_id (sm_id sm) → wf_id n → stored (sm_id sm) (sm_queueId sm) s = Some sm →
  mview n (fail_db now next sm error tn s) =
  if decide (n = sm_id sm) then failed now next sm error (mview n s) else mview n s.
Proof.
  intros Hq Ht Hm Hn Hst.
  assert (∃ v, ms_data (mview (sm_id sm) s) = Some v) as [v Hv].
  { unfold stored in Hst. unfold FairSteps.mview. simpl. unfold FairSystem.hv. simpl. rewrite Hq.
    unfold HGET in Hst. destruct (HALL _ s !! _); [eauto|done]. }
  destruct sm as [m q t pl ts att wq md]. cbn [sm_id sm_queueId sm_tenantId] in *. subst q t.
  unfold fail_db, failed. cbn [sm_id sm_queueId sm_tenantId].
  destruct (decide (n = m)) as [->|Hne].
  - destruct next as [[delay|]|]; [rewrite mview_releaseMessage by done| |destruct (deadLetterQueueEnabled options)];
      rewrite ?mview_inter, ?mview_bury, ?mview_complete by done; unfold acts; cbn [foldl fst snd];
      rewrite !decide_True by done; destruct (mview m s); simpl in *; by subst.
  - destruct next as [[delay|]|]; [rewrite mview_releaseMessage by done| |destruct (deadLetterQueueEnabled options)];
      rewrite ?mview_inter, ?mview_bury, ?mview_complete by done; unfold acts; cbn [foldl fst snd];
      by rewrite !decide_False by done.
Qed.

Lemma alone_failMessage now random m q error sm (st : fq_state db S) :
  stored m q (fw_redis st) = Some sm → sm_id sm = m → sm_queueId sm = q →
  let d := descriptor st q sm in
  let s := fail_db now (next_delay random sm) sm error (qd_tenantId d) (fw_redis st) in
  failMessage sha256 options now random m q error (FqWorld st []) =
  match next_delay random sm with
  | Some None => (Err NotANumber, FqWorld (with_redis s st) [])
  | _ => (Ok tt, FqWorld (with_redis (free_slots d m s) st) [])
  end.
Proof.
  intros Hst <- <- d s. subst s. unfold failMessage.
  rewrite (alone_bind _ _ _ _ _ (alone_stored _ _ st)), Hst.
  rewrite (alone_bind _ _ _ _ _ (alone_descriptor _ _ st)). fold d.
  unfold handleMessageFailure. fold (next_delay random sm). unfold fail_db.
  destruct (next_delay random sm) as [[delay|]|].
  - apply alone_then_release.
    unfold release_to_queue, Visibility.release. rewrite (visibility_shard sha256 options Hshards).
    by rewrite (alone_bind _ _ _ _ _ (alone_run _ st)).
  - unfold Visibility.release_raises. rewrite (visibility_shard sha256 options Hshards). unfold bind at 1.
    rewrite (alone_bind _ _ _ _ _ (alone_get _ st)). unfold stored in Hst.
    by destruct (HGET _ _ _).
  - apply alone_then_release. unfold moveToDeadLetterQueue.
    destruct (deadLetterQueueEnabled options); [|by rewrite alone_complete].
    by rewrite (alone_bind _ _ _ _ _ (alone_complete _ _ st)).
Qed.

(** C25. What becomes of a message whose handler failed.  If the retry strategy gives a
    delay, the message waits in its queue again, with one attempt more and due after the
    delay; if it gives none, the message is a dead letter with its payload, its attempts
    and the error (or is dropped, if there is no dead letter queue); in both cases it is
    no longer in flight, it holds no slot of any concurrency group, and no other message
    changes.  A delay that is not a number is an error, and then the message is only
    taken out of flight. *)
Theorem fail_outcome now random m q error sm (st : fq_state db S) :
  home m = q → wf_id m → stored m q (fw_redis st) = Some sm →
  sm_id sm = m → sm_queueId sm = q → sm_tenantId sm = tenant q →
  ∃ r st', failMessage sha256 options now random m q error (FqWorld st []) = (r, FqWorld st' []) ∧
  mview m (fw_redis st') = failed now (next_delay random sm) sm error (mview m (fw_redis st)) ∧
  (∀ n, wf_id n → n ≠ m → mview n (fw_redis st') = mview n (fw_redis st)) ∧
  match next_delay random sm with
  | Some None => r = Err NotANumber
  | _ => r = Ok tt ∧ ∀ g, g ∈ groups →
           m ∉ SMEMBERS (Concurrency.slot_key K (descriptor st q sm) g) (fw_redis st')
  end.
Proof.
  intros Hq Hm Hst Hid Hqid Ht.
  pose proof (alone_failMessage now random m q error sm st Hst Hid Hqid) as Hrun.
  set (d := descriptor st q sm) in *. cbv zeta in Hrun.
  set (s := fail_db _ _ _ _ _ _) in Hrun.
  assert (∀ n, wf_id n → mview n s = if decide (n = m)
    then failed now (next_delay random sm) sm error (mview n (fw_redis st)) else mview n (fw_redis st)) as Hv.
  { intros n Hn. subst s. rewrite mview_fail_db by (by rewrite ?Hid, ?Hqid). by rewrite Hid. }
  destruct (next_delay random sm) as [[delay|]|]; rewrite Hrun; eexists _, _; (split; [done|]); cbn [fw_redis with_redis];
    (split; [rewrite ?mview_free_slots, Hv by done; by rewrite decide_True|]);
    (split; [intros n Hn Hne; rewrite ?mview_free_slots, Hv by done; by rewrite decide_False|]);
    try done; (split; [done|]); intros g Hg; by apply free_slots_freed.
Qed.

(** *** Completing *)

(** The database after a message is completed. *)
Definition complete_db (m q : string) (st : fq_state db S) : db :=
  let done := HDEL (inflightDataKey K (shard q)) m
                (ZREM (inflightKey K (shard q)) (makeMember m q) (fw_redis st)) in
  let '(freed, tn) :=
    match stored m q (fw_redis st) with
    | Some sm => let d := descriptor st q sm in (free_slots d m done, qd_tenantId d)
    | None => (done, tenant q)
    end in
  (updateDispatchIndexes (queueKey K q) (tenantQueueIndexKey K tn) (dispatchKey K (shardT tn)) q tn
     (updateMasterQueueIfEmpty (masterQueueKey K (shard q)) (queueKey K q) q freed).2).2.

Lemma alone_completeMessage m q (st : fq_state db S) :
  ∃ st', completeMessage sha256 options m q (FqWorld st []) = (Ok tt, FqWorld st' []) ∧
    fw_redis st' = complete_db m q st.
Proof.
  unfold completeMessage, complete_db. rewrite (alone_bind _ _ _ _ _ (alone_stored _ _ st)).
  assert (∀ (empty : bool) (st : fq_state db S), ∃ st',
    (if empty then forget_queue q else ret tt) (FqWorld st []) = (Ok tt, FqWorld st' []) ∧
    fw_redis st' = fw_redis st) as Hforget by (intros [] ?; by eexists).
  destruct (stored m q (fw_redis st)) as [sm|]; cbn [descriptor_of].
  - rewrite (alone_bind _ _ _ _ _ (alone_descriptor _ _ st)), (alone_bind _ _ _ _ _ (alone_complete _ _ st)).
    rewrite (alone_bind _ _ _ _ _ (alone_releaseConcurrency _ _ _)). unfold updateAllIndexesAfterDequeue.
    erewrite alone_bind; [|by rewrite (alone_bind _ _ _ _ _ (alone_run _ _)), (alone_bind _ _ _ _ _ (alone_run _ _))].
    edestruct Hforget as (st' & -> & Hst'). exists st'. split; [done|]. by rewrite Hst'.
  - erewrite alone_bind by done. rewrite (alone_bind _ _ _ _ _ (alone_complete _ _ st)).
    erewrite alone_bind by done. unfold updateAllIndexesAfterDequeue.
    erewrite alone_bind; [|by rewrite (alone_bind _ _ _ _ _ (alone_run _ _)), (alone_bind _ _ _ _ _ (alone_run _ _))].
    edestruct Hforget as (st' & -> & Hst'). exists st'. split; [done|]. by rewrite Hst'.
Qed.

Lemma mview_complete_db m n (st : fq_state db S) :
  wf_id m → wf_id n →
  mview n (complete_db m (home m) st) = acts n [(m, Unlink); (m, Forget)] (mview n (fw_redis st)).
Proof.
  intros Hm Hn. unfold complete_db. destruct (stored m (home m) (fw_redis st)); cbv zeta;
    rewrite mview_updateDispatchIndexes, mview_updateMasterQueueIfEmpty, ?mview_free_slots; try apply KL; by apply mview_complete.
Qed.

(** *** Reclaiming *)

(** The state of an overdue message after the pass: it waits at its first timestamp. *)
Definition reclaimed (σ : mstate V) : mstate V :=
  match ms_data σ with
  | Some v =>
      MState (from_option (λ sm, Some (sm_timestamp sm)) (ms_wait σ) (parse_message v)) (Some v) None None
        (ms_grave σ) (ms_dead σ)
  | None => σ
  end.

(** What the pass reports of a message. *)
Definition reclaim_info (m : string) (σ : mstate V) : Visibility.ReclaimedMessageInfo :=
  match ms_data σ ≫= parse_message with
  | Some sm => Visibility.MkReclaimed m (home m) (sm_tenantId sm) (sm_metadata sm)
  | None => Visibility.MkReclaimed m (home m) (tenant (home m)) (Some ∅)
  end.

(** The payload of a message in flight is a message. *)
Definition parses (m : string) (s : db) : Prop :=
  ∀ v, ms_data (mview m s) = Some v → is_Some (parse_message v).

Lemma alone_reclaim_one now m (st : fq_state db S) :
  wf_id m → parses m (fw_redis st) →
  ∃ s', Visibility.reclaim_one K now (shard (home m)) (getQueueKeys sha256 options)
    (makeMember m (home m)) (FqWorld st []) =
    (Ok (reclaim_info m (mview m (fw_redis st))), FqWorld (with_redis s' st) []) ∧
  ∀ n, wf_id n →
    mview n s' = if decide (n = m) then reclaimed (mview m (fw_redis st)) else mview n (fw_redis st).
Proof.
  intros Hm Hdata. unfold Visibility.reclaim_one. rewrite parseMember_ok by done.
  rewrite (alone_bind _ _ _ _ _ (alone_get _ st)), (alone_bind _ _ _ _ _ (alone_run _ st)).
  unfold parses, reclaim_info in *. set (s := fw_redis st) in *.
  change (HGET (inflightDataKey K (shard (home m))) m s) with (ms_data (mview m s)).
  set (score := from_option sm_timestamp now _).
  eexists. split; [by destruct (ms_data _ ≫= parse_message)|].
  subst score. intros n Hn. unfold getQueueKeys, dispatchKeyOf. cbn [Visibility.k_queueKey Visibility.k_queueItemsKey
    Visibility.k_tenantQueueIndexKey Visibility.k_dispatchKey]. rewrite mview_releaseMessage by done.
  destruct (decide (n = m)) as [->|Hne]; unfold acts; cbn [foldl fst snd].
  - rewrite decide_True by done. unfold reclaimed. change (keys options) with K.
    destruct (mview m s) as [w i f [v|] g e]; [|done]. cbn in *. by destruct (Hdata v eq_refl) as [sm ->].
  - by rewrite decide_False.
Qed.

Lemma alone_reclaim_each now n ms (st : fq_state db S) :
  NoDup ms → Forall (λ m, wf_id m ∧ shard (home m) = n ∧ parses m (fw_redis st)) ms →
  ∃ s', collect (Visibility.reclaim_one K now n (getQueueKeys sha256 options))
    ((λ m, makeMember m (home m)) <$> ms) (FqWorld st []) =
    (Ok ((λ m, reclaim_info m (mview m (fw_redis st))) <$> ms), FqWorld (with_redis s' st) []) ∧
  ∀ n, wf_id n →
    mview n s' = if decide (n ∈ ms) then reclaimed (mview n (fw_redis st)) else mview n (fw_redis st).
Proof.
  intros Hnd Hms. revert st Hms. induction Hnd as [|m ms Hm Hnd IH]; intros st Hms.
  { exists (fw_redis st). by destruct st. }
  apply Forall_cons in Hms as [(Hwf & <- & Hd) Hms].
  destruct (alone_reclaim_one now m st Hwf Hd) as (s1 & Hrun & Hv).
  assert (∀ k, k ∈ ms → wf_id k → mview k s1 = mview k (fw_redis st)) as Hsame.
  { intros k Hk Hw. rewrite Hv by done. apply decide_False. by intros ->. }
  destruct (IH (with_redis s1 st)) as (s2 & Hrest & Hv2).
  { apply Forall_forall. intros k Hk. destruct (proj1 (Forall_forall _ _) Hms k Hk) as (Hw & Hs & Hkd).
    split_and!; [done|done|]. unfold parses. cbn [fw_redis with_redis]. by rewrite Hsame. }
  exists s2. rewrite !fmap_cons. cbn [collect].
  rewrite (alone_bind _ _ _ _ _ Hrun), (alone_bind _ _ _ _ _ Hrest). split.
  { unfold ret. do 3 f_equal. apply list_fmap_ext. intros i k Hk%list_elem_of_lookup_2. cbn [fw_redis with_redis].
    rewrite Hsame; [done..|]. by apply (proj1 (Forall_forall _ _) Hms k Hk). }
  intros k Hk. rewrite Hv2 by done. cbn [fw_redis with_redis]. rewrite Hv by done.
  destruct (decide (k = m)) as [->|Hne]; [by rewrite decide_False, decide_True by set_solver|].
  destruct (decide (k ∈ ms)); [by rewrite decide_True by set_solver|by rewrite decide_False by set_solver].
Qed.

(** The slots of several messages. *)
Definition free_all (l : list (QueueDescriptor * string)) (s : db) : db :=
  foldl (λ s p, free_slots p.1 p.2 s) s l.

Lemma alone_releaseBatch l (st : fq_state db S) :
  Concurrency.releaseBatch K groups l (FqWorld st []) =
  (Ok tt, FqWorld (with_redis (free_all l (fw_redis st)) st) []).
Proof.
  revert st. unfold Concurrency.releaseBatch. induction l as [|[d m] l IH]; intros st; [by destruct st|].
  cbn [each]. erewrite alone_bind; [|by apply alone_each]. by rewrite IH.
Qed.

Lemma mview_free_all l n s : mview n (free_all l s) = mview n s.
Proof.
  revert s. unfold free_all. induction l as [|p l IH]; intros s; [done|]. cbn [foldl].
  by rewrite IH, mview_free_slots.
Qed.

Lemma free_slots_keeps d m n k s : n ∉ SMEMBERS k s → n ∉ SMEMBERS k (free_slots d m s).
Proof.
  unfold free_slots. revert s. induction groups as [|g' gs IH]; intros s Hs; [done|]. cbn [foldl].
  apply IH. redis_simpl. case_decide; set_solver.
Qed.

Lemma free_all_freed d m l s g :
  (d, m) ∈ l → g ∈ groups → m ∉ SMEMBERS (Concurrency.slot_key K d g) (free_all l s).
Proof.
  unfold free_all. intros Hl Hg.
  assert (∀ l s, m ∉ SMEMBERS (Concurrency.slot_key K d g) s →
    m ∉ SMEMBERS (Concurrency.slot_key K d g) (foldl (λ s p, free_slots p.1 p.2 s) s l)) as Hkeep.
  { clear l Hl s. intros l. induction l as [|p l IH]; intros s Hs; [done|]. cbn [foldl]. by apply IH, free_slots_keeps. }
  revert s. induction l as [|p l IH]; intros s; [by apply elem_of_nil in Hl|]. cbn [foldl].
  apply elem_of_cons in Hl as [<-|Hl]; [|by apply IH]. apply Hkeep. by apply free_slots_freed.
Qed.

Lemma typed_parses m s : typed K home shard shardT s → parses m s.
Proof.
  intros Hty v Hv. destruct (typed_h _ _ _ _ _ Hty (FhData (shard (home m))) m v Hv) as (_ & _ & sm & -> & _).
  by exists sm.
Qed.

Lemma typed_members n (l : list (string * Z)) s :
  typed K home shard shardT s → Forall (λ p, zv K (FzInflight n) s !! p.1 = Some p.2) l →
  ∃ ms, l.*1 = (λ m, makeMember m (home m)) <$> ms ∧ Forall (λ m, wf_id m ∧ shard (home m) = n) ms.
Proof.
  intros Hty. induction 1 as [|[e x] l He _ (ms & IH & Hms)]; [by exists []|].
  cbn [fst snd] in He. destruct (typed_z _ _ _ _ _ Hty _ _ _ He) as (m & -> & ? & ->).
  exists (m :: ms). rewrite !fmap_cons, IH. split; [done|]. by constructor.
Qed.

Lemma makeMember_truthy m q : wf_id m → truthy (makeMember m q) = true.
Proof. intros [_ Hm]. by destruct m. Qed.

(** The overdue messages of a shard, as the pass reads them. *)
Lemma overdue_members now n s :
  typed K home shard shardT s → ZCOUNT (inflightKey K n) now s ≤ 100 →
  ∃ ms, NoDup ms ∧
  filter (λ m, truthy m = true) (ZRANGEBYSCORE (inflightKey K n) now 100 s).*1 =
    (λ m, makeMember m (home m)) <$> ms ∧
  Z.of_nat (length ms) = ZCOUNT (inflightKey K n) now s ∧
  Forall (λ m, wf_id m ∧ shard (home m) = n ∧ parses m s) ms ∧
  ∀ m, wf_id m → m ∈ ms ↔ shard (home m) = n ∧ ∃ d, ms_fly (mview m s) = Some d ∧ d ≤ now.
Proof.
  intros Hty Hc. pose proof (ZRANGEBYSCORE_NoDup (inflightKey K n) now 100 s) as Hnd.
  assert (ZRANGEBYSCORE (inflightKey K n) now 100 s =
          filter (λ p, p.2 ≤ now) (zsorted (ZALL (inflightKey K n) s))) as Hall.
  { unfold ZRANGEBYSCORE. apply take_ge. unfold ZCOUNT in Hc. lia. }
  rewrite Hall in *. assert (∀ e x, (e, x) ∈ filter (λ p, p.2 ≤ now) (zsorted (ZALL (inflightKey K n) s)) ↔
    zv K (FzInflight n) s !! e = Some x ∧ x ≤ now) as Hin.
  { intros e x. rewrite list_elem_of_filter, elem_of_zsorted. unfold FairSystem.zv. simpl. tauto. }
  unfold ZCOUNT. clear Hc Hall.
  generalize dependent (filter (λ p : string * Z, p.2 ≤ now) (zsorted (ZALL (inflightKey K n) s))).
  intros l Hnd Hin.
  destruct (typed_members n l s Hty) as (ms & Hms & Hwf).
  { apply Forall_forall. intros [e x] [He _]%Hin. done. }
  exists ms. rewrite Hms in *. split; [by apply NoDup_fmap_1 in Hnd|]. split.
  { clear -Hwf. induction Hwf as [|m ms [Hm _] _ IH]; [done|]. rewrite fmap_cons, filter_cons_True, IH; [done|].
    by apply makeMember_truthy. }
  split; [by rewrite <- (length_fmap fst l), Hms, length_fmap|]. split.
  { eapply Forall_impl; [exact Hwf|]. intros m [? ?]. split_and!; [done..|by apply typed_parses]. }
  intros m Hm. split.
  - intros Hin'. destruct (proj1 (Forall_forall _ _) Hwf m Hin') as [_ Hs]. split; [done|].
    assert (makeMember m (home m) ∈ l.*1) as ([e x] & He & Hl)%list_elem_of_fmap
      by (rewrite Hms; apply list_elem_of_fmap; by exists m).
    cbn [fst] in He. subst e n. apply Hin in Hl as [Hl ?]. exists x. done.
  - intros (<- & d & Hd & Hle). assert (makeMember m (home m) ∈ l.*1) as Hl.
    { apply list_elem_of_fmap. exists (makeMember m (home m), d). split; [done|]. by apply Hin. }
    rewrite Hms in Hl. apply list_elem_of_fmap in Hl as (m' & Heq & Hm').
    apply makeMember_inj in Heq as [-> _]; [done|done|]. by apply (proj1 (Forall_forall _ _) Hwf m' Hm').
Qed.

(** The slots the pass frees. *)
Definition reclaimed_slots (infos : list Visibility.ReclaimedMessageInfo) : list (QueueDescriptor * string) :=
  (λ msg, (MkQueueDescriptor (Visibility.rc_queueId msg) (Visibility.rc_tenantId msg)
             (default ∅ (Visibility.rc_metadata msg)), Visibility.rc_messageId msg)) <$> infos.

Lemma free_all_unmanaged l s : groups = [] → free_all l s = s.
Proof.
  intros Hg. revert s. unfold free_all, free_slots. rewrite Hg.
  induction l as [|p l IH]; intros s; [done|]. apply IH.
Qed.

Lemma alone_free_reclaimed infos (st : fq_state db S) :
  if_managed options (λ groups,
    catch (Concurrency.releaseBatch K groups (reclaimed_slots infos)) (λ _, ret tt)) (ret tt) (FqWorld st []) =
  (Ok tt, FqWorld (with_redis (free_all (reclaimed_slots infos) (fw_redis st)) st) []).
Proof.
  pose proof (alone_releaseBatch (reclaimed_slots infos) st) as Hrel.
  pose proof (free_all_unmanaged (reclaimed_slots infos) (fw_redis st)) as Hnone.
  unfold if_managed, concurrencyManager, catch. destruct groups as [|g gs]; [|by rewrite Hrel].
  rewrite Hnone by done. by destruct st.
Qed.

(** A pass of the reclaim loop over a shard with at most 100 overdue messages: every
    message whose deadline has passed is in its queue again, with the payload it was
    claimed with and at the place of its first timestamp, is no longer in flight and holds
    no slot of any concurrency group; no other message changes; the pass reports as many
    messages as were overdue. *)
Theorem reclaim_outcome now n (st : fq_state db S) :
  typed K home shard shardT (fw_redis st) → ZCOUNT (inflightKey K n) now (fw_redis st) ≤ 100 →
  ∃ st', reclaim_shard sha256 options now n (FqWorld st []) =
    (Ok (ZCOUNT (inflightKey K n) now (fw_redis st)), FqWorld st' []) ∧
  (∀ m d sm, wf_id m → shard (home m) = n →
     ms_fly (mview m (fw_redis st)) = Some d → d ≤ now →
     ms_data (mview m (fw_redis st)) = Some (FMsg sm) →
     mview m (fw_redis st') = MState (Some (sm_timestamp sm)) (Some (FMsg sm)) None None
       (ms_grave (mview m (fw_redis st))) (ms_dead (mview m (fw_redis st))) ∧
     ∀ g, g ∈ groups → m ∉ SMEMBERS (Concurrency.slot_key K
       (MkQueueDescriptor (home m) (sm_tenantId sm) (default ∅ (sm_metadata sm))) g) (fw_redis st')) ∧
  (∀ m, wf_id m →
     (∀ d, shard (home m) = n → ms_fly (mview m (fw_redis st)) = Some d → now < d) →
     mview m (fw_redis st') = mview m (fw_redis st)).
Proof.
  intros Hty Hc. set (s := fw_redis st) in *.
  destruct (overdue_members now n s Hty Hc) as (ms & Hnd & Hread & Hlen & Hwf & Hin).
  destruct (alone_reclaim_each now n ms st Hnd Hwf) as (s1 & Hrun & Hv). fold s in Hrun, Hv.
  set (infos := (λ m, reclaim_info m (mview m s)) <$> ms) in *.
  assert (Z.of_nat (length infos) = ZCOUNT (inflightKey K n) now s) as Hcount
    by (rewrite <- Hlen; unfold infos; by rewrite length_fmap).
  exists (with_redis (free_all (reclaimed_slots infos) s1) st). split; [|split].
  - unfold reclaim_shard. erewrite alone_bind.
    2: { unfold Visibility.reclaimTimedOut. rewrite (alone_bind _ _ _ _ _ (alone_get _ st)). fold s.
         change (keys options) with K. rewrite Hread. exact Hrun. }
    erewrite alone_bind; [by rewrite Hcount|].
    pose proof (alone_free_reclaimed infos (with_redis s1 st)) as Hf. clearbody infos.
    destruct infos; [done|exact Hf].
  - intros m d sm Hm Hs Hd Hle Hdata. cbn [fw_redis with_redis]. rewrite mview_free_all, Hv by done.
    assert (m ∈ ms) as Hms by (apply Hin; eauto). rewrite decide_True by done. unfold reclaimed. rewrite Hdata.
    split; [done|]. intros g Hg. apply free_all_freed; [|done]. apply list_elem_of_fmap.
    exists (reclaim_info m (mview m s)). split; [unfold reclaim_info; by rewrite Hdata|].
    apply list_elem_of_fmap. by exists m.
  - intros m Hm Hlate. cbn [fw_redis with_redis]. rewrite mview_free_all, Hv by done. apply decide_False.
    intros (Hs & d & Hd & Hle)%Hin; [|done]. specialize (Hlate d Hs Hd). lia.
Qed.

(** *** Pushing claimed messages *)

Local Notation id_of := (@Visibility.if_messageId P).

(** The entries of the list [key] for the messages [l] of the queue [q]. *)
Definition pushed_to (q key : string) (l : list (Visibility.InFlightMessage P)) : list string :=
  (λ i, makeMember (id_of i) q) <$>
    filter (λ i, workerQueueKey K (fo_resolveWorkerQueue options (Visibility.if_payload i)) = key) l.

(** The first messages are handed to the worker queues with their slots, the others are
    returned to the queue. *)
Record split_at (now : Z) (d : QueueDescriptor) (q : string)
    (l given back : list (Visibility.InFlightMessage P)) (s s' : db) : Prop := SplitAt {
  split_list : l = given ++ back;
  split_kept n : wf_id n → n ∉ id_of <$> back → mview n s' = mview n s;
  split_back n : n ∈ id_of <$> back → mview n s' = mapply (Return now None) (mview n s);
  split_slots n g : n ∈ id_of <$> given → g ∈ groups → n ∈ SMEMBERS (Concurrency.slot_key K d g) s';
  split_grow k : SMEMBERS k s ⊆ SMEMBERS k s';
  split_lists key : LALL key s' = LALL key s ++ pushed_to q key given;
}.

(** One message reserved and pushed. *)
Definition take_slots (d : QueueDescriptor) (m : string) (s : db) : db :=
  foldl (λ s g, SADD (Concurrency.slot_key K d g) m s) s groups.

Lemma take_all d m (lim : Concurrency.ConcurrencyGroupConfig db → Z) gs s :
  foldl (λ s '(key, _), SADD key m s) s ((λ g, (Concurrency.slot_key K d g, lim g)) <$> gs) =
  foldl (λ s g, SADD (Concurrency.slot_key K d g) m s) s gs.
Proof. revert s. induction gs as [|g gs IH]; intros s; [done|]. apply IH. Qed.

Lemma alone_reserve d m (st : fq_state db S) :
  ∃ b : bool, if_managed options (λ groups, Concurrency.reserve K groups d m) (ret true) (FqWorld st []) =
  (Ok b, FqWorld (if b then with_redis (take_slots d m (fw_redis st)) st else st) []).
Proof.
  unfold if_managed, concurrencyManager, take_slots. destruct groups as [|g gs]; [exists true; by destruct st|].
  unfold Concurrency.reserve. rewrite (alone_bind _ _ _ _ _ (alone_get _ st)), (alone_bind _ _ _ _ _ (alone_run _ st)).
  unfold reserveConcurrency. destruct (forallb _ _).
  - exists true. cbn [fst snd]. by rewrite take_all.
  - exists false. cbn [fst snd]. by rewrite with_redis_same.
Qed.

Lemma take_slots_views d m s x :
  ZALL x (take_slots d m s) = ZALL x s ∧ HALL x (take_slots d m s) = HALL x s ∧
  LALL x (take_slots d m s) = LALL x s ∧ SMEMBERS x s ⊆ SMEMBERS x (take_slots d m s).
Proof.
  unfold take_slots. revert s. induction groups as [|g gs IH]; intros s; [done|]. cbn [foldl].
  destruct (IH (SADD (Concurrency.slot_key K d g) m s)) as (-> & -> & -> & Hs). split_and!; [by redis_simpl..|].
  etrans; [|exact Hs]. redis_simpl. case_decide; set_solver.
Qed.

Lemma take_slots_taken d m s g : g ∈ groups → m ∈ SMEMBERS (Concurrency.slot_key K d g) (take_slots d m s).
Proof.
  unfold take_slots. assert (∀ (gs : list (Concurrency.ConcurrencyGroupConfig db)) s k, m ∈ SMEMBERS k s →
    m ∈ SMEMBERS k (foldl (λ s g, SADD (Concurrency.slot_key K d g) m s) s gs)) as Hkeep.
  { clear -L. intros gs. induction gs as [|g gs IH]; intros s k Hs; [done|]. cbn [foldl]. apply IH. redis_simpl.
    case_decide; set_solver. }
  revert s. induction groups as [|g' gs IH]; intros s Hg; [by apply elem_of_nil in Hg|]. cbn [foldl].
  apply elem_of_cons in Hg as [->|Hg]; [|by apply IH]. apply Hkeep. redis_simpl. set_solver.
Qed.

(** The database after the message [i] was reserved and pushed. *)
Definition give (d : QueueDescriptor) (q : string) (i : Visibility.InFlightMessage P) (s : db) : db :=
  RPUSH (workerQueueKey K (fo_resolveWorkerQueue options (Visibility.if_payload i))) (makeMember (id_of i) q)
    (take_slots d (id_of i) s).

Lemma mview_give d q i n s : mview n (give d q i s) = mview n s.
Proof.
  unfold give. apply mview_views; intros; unfold zv, hv; redis_simpl;
    by destruct (take_slots_views d (id_of i) s (fz_key K z)) + destruct (take_slots_views d (id_of i) s (fh_key K h)) as (_ & ? & _).
Qed.

Lemma typed_give d q i s :
  inflight_ok home q i → typed K home shard shardT s → typed K home shard shardT (give d q i s).
Proof.
  intros (Hq & Hm & _) [Hz Hh Hl]. unfold give. split.
  - intros z m x. unfold zv. redis_simpl. destruct (take_slots_views d (id_of i) s (fz_key K z)) as (-> & _). apply Hz.
  - intros h m v. unfold hv. redis_simpl. destruct (take_slots_views d (id_of i) s (fh_key K h)) as (_ & -> & _). apply Hh.
  - intros w e. redis_simpl. destruct (take_slots_views d (id_of i) s (workerQueueKey K w)) as (_ & _ & -> & _).
    case_decide; [|apply Hl]. rewrite elem_of_app, list_elem_of_singleton. intros [He| ->]; [by eapply Hl|].
    exists (id_of i). by rewrite Hq.
Qed.

(** Returning the messages that found no slot. *)
Lemma alone_give_back now d q l (st : fq_state db S) :
  l ≠ [] → NoDup (id_of <$> l) → Forall (inflight_ok home q) l → typed K home shard shardT (fw_redis st) →
  ∃ s', Visibility.releaseBatch K sha256 (shardCount options) now l q (queueKey K q) (queueItemsKey K q)
    (tenantQueueIndexKey K (tenant q)) (dispatchKeyOf sha256 options (tenant q)) (tenant q) None (FqWorld st []) =
    (Ok tt, FqWorld (with_redis s' st) []) ∧
  split_at now d q l [] l (fw_redis st) s'.
Proof.
  intros Hne Hnd Hl Hty. unfold Visibility.releaseBatch. destruct l as [|i l0]; [done|].
  set (l := i :: l0) in *. clearbody l. rewrite (visibility_shard sha256 options Hshards).
  assert (Forall (λ m, home m = q ∧ wf_id m) (id_of <$> l)) as Hids
    by (apply Forall_fmap; eapply Forall_impl; [exact Hl|]; by intros ? (? & ? & _)).
  assert ((λ m, (makeMember (id_of m) q, id_of m)) <$> l = (λ m, (makeMember m q, m)) <$> (id_of <$> l)) as ->
    by by rewrite <- list_fmap_compose.
  rewrite (alone_bind _ _ _ _ _ (alone_run _ st)). eexists. split; [done|].
  pose proof (writes_releaseMessageBatch K home shard shardT q now _ _ Hty Hids) as Hw.
  pose proof (λ n, mview_releaseMessageBatch K home shard q now (id_of <$> l) (tenant q) (shardT (tenant q))
    (tenant q) n (fw_redis st) Hids) as Hv.
  assert (((λ m, (m, Return now None)) <$> (id_of <$> l) : list (string * mop V)).*1 = id_of <$> l) as Hfst
    by by rewrite <- list_fmap_compose, list_fmap_id.
  split.
  - done.
  - intros n Hn Hback. etrans; [by apply Hv|]. apply acts_notin. by rewrite Hfst.
  - intros n Hback. etrans; [apply Hv; by apply (proj1 (Forall_forall _ _) Hids n Hback)|].
    apply acts_in; [by rewrite Hfst|]. apply list_elem_of_fmap. by exists n.
  - intros n g Hn. by apply elem_of_nil in Hn.
  - intros k. rewrite <- (writes_SMEMBERS K home shard shardT _ _ k Hw). reflexivity.
  - intros k. rewrite <- (writes_LALL K home shard shardT _ _ k Hw), app_nil_r. reflexivity.
Qed.

Lemma split_give now d q i l given back s s' :
  NoDup (id_of <$> i :: l) → split_at now d q l given back (give d q i s) s' →
  split_at now d q (i :: l) (i :: given) back s s'.
Proof.
  intros Hnd [Hl Hk Hb Hs Hg Hp]. split.
  - by rewrite Hl.
  - intros n Hn Hback. by rewrite Hk, mview_give.
  - intros n Hback. by rewrite Hb, mview_give.
  - intros n g Hn Hgr. rewrite fmap_cons in Hn. apply elem_of_cons in Hn as [->|Hn]; [|by apply Hs].
    apply Hg. unfold give. redis_simpl. by apply take_slots_taken.
  - intros k. etrans; [|apply Hg]. unfold give. redis_simpl. apply take_slots_views.
  - intros key. rewrite Hp. unfold give, pushed_to. redis_simpl.
    destruct (take_slots_views d (id_of i) s key) as (_ & _ & -> & _).
    rewrite filter_cons. repeat case_decide; try done. by rewrite <- app_assoc.
Qed.

(** Handing claimed messages to workers: the messages of the batch are split in two,
    in order.  Each message of the first part has a slot in every concurrency group and is
    appended to the worker queue its payload selects, and stays in flight; every message
    of the second part is back in its queue, due now, with its payload, and is no longer
    in flight; the number returned is the length of the first part, and nothing else
    changes. *)
Theorem push_outcome now d q l (st : fq_state db S) :
  NoDup (id_of <$> l) → Forall (inflight_ok home q) l → typed K home shard shardT (fw_redis st) →
  ∃ given back s', push_claimed sha256 options now d q (tenant q) l (FqWorld st []) =
    (Ok (Z.of_nat (length given)), FqWorld (with_redis s' st) []) ∧
  split_at now d q l given back (fw_redis st) s'.
Proof.
  revert st. induction l as [|i l IH]; intros st Hnd Hl Hty; cbn [push_claimed].
  { exists [], [], (fw_redis st). split; [by destruct st|]. split; try done; try (by intros ? ?%elem_of_nil).
    - by intros ? ? ?%elem_of_nil.
    - intros key. by rewrite app_nil_r. }
  destruct (alone_reserve d (id_of i) st) as ([|] & Hres); rewrite (alone_bind _ _ _ _ _ Hres).
  - unfold WorkerQueues.push. rewrite (alone_bind _ _ _ _ _ (alone_do _ _)).
    apply Forall_cons in Hl as [Hi Hl]. pose proof Hnd as Hnd'. apply NoDup_cons in Hnd as [_ Hnd].
    destruct (IH (with_redis (give d q i (fw_redis st)) st) Hnd Hl) as (given & back & s' & Hrun & Hsplit).
    { by apply typed_give. }
    erewrite alone_bind by exact Hrun. exists (i :: given), back, s'. split; [|by apply split_give].
    cbn [length]. unfold ret. do 2 f_equal. lia.
  - destruct (alone_give_back now d q (i :: l) st) as (s' & Hrun & Hsplit); try done.
    erewrite alone_bind by exact Hrun. by exists [], (i :: l), s'.
Qed.

End Outcomes.

(** ** Witnesses *)

Local Notation demo_view := (mview (fo_keys fq_options) fq_home fq_shard).

(** The messages "m1" and "m2" are in flight. *)
Definition demo_state : fq_state demo_db unit := fw_state demo_claimed.

Lemma demo_state_typed : typed fq_keys fq_home fq_shard fq_shardT (fw_redis demo_state).
Proof. apply (good_typed _ _ _ _ fq_names fq_bound), demo_claimed_ok. Qed.

(** The same messages, back in their queue. *)
Definition demo_waiting : demo_db :=
  db_of (run_calls fq_sha256 fq_options [CallReclaim 40000] demo_claimed).

Lemma demo_waiting_typed : typed fq_keys fq_home fq_shard fq_shardT demo_waiting.
Proof.
  apply (good_typed _ _ _ _ fq_names fq_bound).
  assert (w_ok (fo_keys fq_options) fq_home fq_shard fq_shardT fq_names fq_bound demo_end
    (run_calls fq_sha256 fq_options [CallReclaim 40000] demo_claimed)) as [[Hg _] _]; [|exact Hg].
  eapply (fq_trace_ok (fo_keys fq_options)); [apply fq_names_ok| |apply demo_claimed_ok].
  apply (run_calls_trace fq_sha256 fq_options fq_home fq_bound fq_shards_ok fq_names_ok fq_bound_ok);
    [by repeat constructor|apply demo_claimed_ok].
Qed.

Lemma claim_exact_witness :
  let '(result, s') := claimMessageBatch (queueKey fq_keys fq_queue) (queueItemsKey fq_keys fq_queue)
    (inflightKey fq_keys (fq_shard fq_queue)) (inflightDataKey fq_keys (fq_shard fq_queue)) fq_queue 70000 1
    demo_waiting in
  result.*1 = ["m1"] ∧
  ∀ m, wf_id m → m ∉ ["m1"] → demo_view m s' = demo_view m demo_waiting.
Proof.
  pose proof (claim_exact fq_keys fq_home fq_shard fq_shardT fq_queue 70000 1 demo_waiting demo_waiting_typed) as H.
  cbv zeta in H. destruct (claimMessageBatch _ _ _ _ _ _ _ _) as [result s'].
  destruct H as (-> & _ & H). split; [by vm_compute|].
  intros m Hm Hn. apply H; [done|]. by vm_compute in Hn |- *.
Defined.

Definition demo_message : StoredMessage string :=
  new_message fq_options "m1" fq_queue "acme" "hello" 1 None.

Lemma fail_outcome_witness :
  ∃ r st', failMessage fq_sha256 fq_options 50 (S754_zero false) "m1" fq_queue (Some "boom")
    (FqWorld demo_state []) = (r, FqWorld st' []) ∧
  ms_wait (demo_view "m1" (fw_redis st')) = Some 150 ∧
  ms_item (demo_view "m1" (fw_redis st')) = Some (FMsg (next_attempt demo_message)) ∧
  demo_view "m2" (fw_redis st') = demo_view "m2" (fw_redis demo_state) ∧ r = Ok tt.
Proof.
  destruct (fail_outcome fq_sha256 fq_options fq_home fq_shards_ok 50 (S754_zero false) "m1" fq_queue (Some "boom")
    demo_message demo_state eq_refl) as (r & st' & Hrun & Hv & Hother & Hr & _);
    [done|by vm_compute|done..|].
  exists r, st'. split; [exact Hrun|]. rewrite Hv. clear Hrun Hv.
  split_and!; [by vm_compute|by vm_compute| |exact Hr].
  exact (Hother "m2" (conj eq_refl eq_refl) ltac:(discriminate)).
Defined.

Lemma reclaim_outcome_witness :
  ∃ st', reclaim_shard fq_sha256 fq_options 40000 (fq_shard fq_queue) (FqWorld demo_state []) =
    (Ok 2, FqWorld st' []) ∧
  ms_wait (demo_view "m1" (fw_redis st')) = Some 1.
Proof.
  destruct (reclaim_outcome fq_sha256 fq_options fq_home fq_shards_ok 40000 (fq_shard fq_queue) demo_state
    demo_state_typed) as (st' & Hrun & Hv & _); [by vm_compute|].
  exists st'. split; [rewrite Hrun; vm_compute; reflexivity|]. clear Hrun.
  destruct (Hv "m1" 30010 demo_message) as [-> _];
    [by split|reflexivity|vm_compute; reflexivity|lia|vm_compute; reflexivity|reflexivity].
Defined.

(** Both slots of the tenant are taken, so that the two messages go back. *)
Definition demo_claims : list (Visibility.InFlightMessage string) :=
  [Visibility.MkInFlight "m1" fq_queue demo_message 30010 "loop";
   Visibility.MkInFlight "m2" fq_queue (new_message fq_options "m2" fq_queue "acme" "hi" 3 None) 30010 "loop"].

Lemma push_outcome_witness :
  ∃ s', push_claimed fq_sha256 fq_options 60 (MkQueueDescriptor fq_queue "acme" ∅) fq_queue "acme"
    demo_claims (FqWorld demo_state []) = (Ok 0, FqWorld (with_redis s' demo_state) []) ∧
  ms_wait (demo_view "m1" s') = Some 60 ∧ ms_wait (demo_view "m2" s') = Some 60.
Proof.
  destruct (push_outcome fq_sha256 fq_options fq_home fq_shards_ok 60 (MkQueueDescriptor fq_queue "acme" ∅) fq_queue
    demo_claims demo_state) as (given & back & s' & Hrun & Hsplit).
  - apply (bool_decide_unpack _). by vm_compute.
  - by repeat constructor.
  - apply demo_state_typed.
  - assert (given = []) as ->.
    { clear Hsplit. destruct given as [|i given]; [reflexivity|]. apply (f_equal fst) in Hrun.
      vm_compute in Hrun. discriminate. }
    exists s'. split; [exact Hrun|]. clear Hrun. destruct Hsplit as [Hl _ Hb _ _ _]. cbn in Hl. subst back.
    rewrite (Hb "m1"), (Hb "m2") by (cbn; set_solver +). vm_compute. split; reflexivity.
Defined.
