(* ===== verification/BatchTracker.v ===== *)
(** * BatchTracker: the completion tracker of the batch queue
    (batch-queue/types.ts, batch-queue/completionTracker.ts)

    What a batch is made of, and the counters and logs that tell when all of its items
    have been processed.  [J] is the type of the JSON values the queue passes on
    without looking at them; [stringify] and [parse] are [JSON.stringify] and
    [JSON.parse] on failures, which Redis keeps in a list of texts. *)

From stdpp Require Import pretty.
From S2P Require Import Prelude Text Redis FairKeys FairScripts Effect FairWorld FairManagers.
Local Open Scope Z_scope.
Local Open Scope effect_scope.

(** ** Data (types.ts) *)

(** A JSON value that is not [null]: a text or something else. *)
Inductive json (J : Type) : Type :=
| JText (t : string)
| JValue (j : J).
Arguments JText {J}.
Arguments JValue {J}.

Record BatchItem (J : Type) : Type := MkBatchItem {
  bi_task : string;
  bi_payload : option (json J);       (* [None]: [undefined] or [null] *)
  bi_payloadType : option string;
  bi_options : option J;
}.
Arguments MkBatchItem {J}.
Arguments bi_task {J}.
Arguments bi_payload {J}.
Arguments bi_payloadType {J}.
Arguments bi_options {J}.

Record BatchMeta (J : Type) : Type := MkBatchMeta {
  me_batchId : string;
  me_friendlyId : string;
  me_environmentId : string;
  me_environmentType : string;
  me_organizationId : string;
  me_projectId : string;
  me_runCount : Z;
  me_createdAt : Z;
  me_parentRunId : option string;
  me_resumeParentOnCompletion : option bool;
  me_triggerVersion : option string;
  me_traceContext : option J;
  me_spanParentAsLink : option bool;
  me_realtimeStreamsVersion : option string;
  me_idempotencyKey : option string;
  me_processingConcurrency : option Z;
  me_planType : option string;
  me_triggerSource : option string;
}.
Arguments MkBatchMeta {J}.
Arguments me_batchId {J}.
Arguments me_friendlyId {J}.
Arguments me_environmentId {J}.
Arguments me_environmentType {J}.
Arguments me_organizationId {J}.
Arguments me_projectId {J}.
Arguments me_runCount {J}.
Arguments me_createdAt {J}.
Arguments me_parentRunId {J}.
Arguments me_resumeParentOnCompletion {J}.
Arguments me_triggerVersion {J}.
Arguments me_traceContext {J}.
Arguments me_spanParentAsLink {J}.
Arguments me_realtimeStreamsVersion {J}.
Arguments me_idempotencyKey {J}.
Arguments me_processingConcurrency {J}.
Arguments me_planType {J}.
Arguments me_triggerSource {J}.

Record BatchItemFailure (J : Type) : Type := MkFailure {
  fa_index : Z;
  fa_taskIdentifier : string;
  fa_payload : option string;
  fa_options : option J;
  fa_error : string;
  fa_errorCode : option string;
  fa_timestamp : Z;
}.
Arguments MkFailure {J}.
Arguments fa_index {J}.
Arguments fa_taskIdentifier {J}.
Arguments fa_payload {J}.
Arguments fa_options {J}.
Arguments fa_error {J}.
Arguments fa_errorCode {J}.
Arguments fa_timestamp {J}.

Record CompleteBatchResult (J : Type) : Type := MkResult {
  cr_batchId : string;
  cr_runIds : list string;
  cr_successfulRunCount : Z;
  cr_failedRunCount : Z;
  cr_failures : list (BatchItemFailure J);
}.
Arguments MkResult {J}.
Arguments cr_batchId {J}.
Arguments cr_runIds {J}.
Arguments cr_successfulRunCount {J}.
Arguments cr_failedRunCount {J}.
Arguments cr_failures {J}.

Record BatchItemPayload (J : Type) : Type := MkPayload {
  bp_batchId : string;
  bp_friendlyId : string;
  bp_itemIndex : Z;
  bp_item : BatchItem J;
}.
Arguments MkPayload {J}.
Arguments bp_batchId {J}.
Arguments bp_friendlyId {J}.
Arguments bp_itemIndex {J}.
Arguments bp_item {J}.

(** ** Keys *)

Definition KEY_PREFIX : string := "batch".

Definition tracker_key (batchId suffix : string) : string := join ":" [KEY_PREFIX; batchId; suffix].

Definition metaKey (batchId : string) : string := tracker_key batchId "meta".
Definition runsKey (batchId : string) : string := tracker_key batchId "runs".
Definition failuresKey (batchId : string) : string := tracker_key batchId "failures".
Definition processedCountKey (batchId : string) : string := tracker_key batchId "processed".
Definition processedItemsKey (batchId : string) : string := tracker_key batchId "processed_items".
Definition enqueuedItemsKey (batchId : string) : string := tracker_key batchId "enqueued_items".

(** ** Commands *)

Section Commands.
Context {P X db : Type} {R : Redis (fq_value P X) db}.
Local Notation V := (fq_value P X).

(** [INCR key]. *)
Definition INCR (k : string) (s : db) : outcome fq_error Z * db :=
  match GET k s with
  | None => (Ok 1, SET k (FNum 1) s)
  | Some v =>
      match fq_number v with
      | Some n => (Ok (n + 1), SET k (FNum (n + 1)) s)
      | None => (Err NotANumber, s)
      end
  end.

(** The end of both scripts with [parseInt] of the reply; [None] is [NaN]. *)
Definition read_count (processedKey : string) (s : db) : option Z :=
  match GET processedKey s with Some v => fq_number v | None => Some 0 end.

Definition recordSuccessIdempotent
    (processedItemsKey runsKey processedKey itemKey runId : string) (itemScore : Z) (s : db)
    : outcome fq_error (option Z) * db :=
  if bool_decide (itemKey ∈ SMEMBERS processedItemsKey s) then (Ok (read_count processedKey s), s)
  else
    let s := SADD processedItemsKey itemKey s in
    let s := ZADD runsKey itemScore runId s in
    match INCR processedKey s with
    | (Ok _, s) => (Ok (read_count processedKey s), s)
    | (Err e, s) => (Err e, s)
    end.

Definition recordFailureIdempotent
    (processedItemsKey failuresKey processedKey itemKey failureJson : string) (s : db)
    : outcome fq_error (option Z) * db :=
  if bool_decide (itemKey ∈ SMEMBERS processedItemsKey s) then (Ok (read_count processedKey s), s)
  else
    let s := SADD processedItemsKey itemKey s in
    let s := RPUSH failuresKey failureJson s in
    match INCR processedKey s with
    | (Ok _, s) => (Ok (read_count processedKey s), s)
    | (Err e, s) => (Err e, s)
    end.

(** [DEL] of all the keys of a batch. *)
Definition cleanup_db (batchId : string) (s : db) : db :=
  let s := DEL (metaKey batchId) s in
  let s := DEL_zset (runsKey batchId) s in
  let s := DEL_list (failuresKey batchId) s in
  let s := DEL (processedCountKey batchId) s in
  let s := DEL_set (processedItemsKey batchId) s in
  DEL_set (enqueuedItemsKey batchId) s.

End Commands.

(** ** BatchCompletionTracker *)

Section Tracker.
Context {J P db S : Type} {R : Redis (fq_value P (BatchMeta J)) db}.
Context (stringify : BatchItemFailure J → string) (parse : string → option (BatchItemFailure J)).
Local Notation M := (FqM db S).

Definition storeMeta (batchId : string) (meta : BatchMeta J) : M unit :=
  q_do (SET (metaKey batchId) (FOther meta)).

Definition getMeta (batchId : string) : M (option (BatchMeta J)) :=
  q_script (λ s, (match GET (metaKey batchId) s with
                  | None => Ok None
                  | Some (FOther meta) => Ok (Some meta)
                  | Some _ => Err ParseError
                  end, s)).

Definition recordSuccess (batchId runId : string) (itemIndex : option Z) : M (option Z) :=
  q_script (recordSuccessIdempotent (processedItemsKey batchId) (runsKey batchId)
              (processedCountKey batchId) (from_option pretty runId itemIndex) runId
              (default 0 itemIndex)).

(** [failure] comes without its timestamp. *)
Definition recordFailure (now : Z) (batchId : string) (failure : Z → BatchItemFailure J) : M (option Z) :=
  let failureRecord := failure now in
  q_script (recordFailureIdempotent (processedItemsKey batchId) (failuresKey batchId)
              (processedCountKey batchId) (pretty (fa_index failureRecord)) (stringify failureRecord)).

Definition getSuccessfulRuns (batchId : string) : M (list string) :=
  q_get (λ s, (ZRANGE (runsKey batchId) (-1) s).*1).

Definition getFailures (batchId : string) : M (list (BatchItemFailure J)) :=
  failureJsons <- q_get (LALL (failuresKey batchId)) ;;
  match mapM parse failureJsons with
  | Some failures => ret failures
  | None => throw ParseError
  end.

Definition getProcessedCount (batchId : string) : M (option Z) :=
  q_get (read_count (processedCountKey batchId)).

Definition isComplete (batchId : string) : M bool :=
  meta <- getMeta batchId ;;
  match meta with
  | None => ret false
  | Some meta =>
      processedCount <- getProcessedCount batchId ;;
      ret (match processedCount with Some n => me_runCount meta <=? n | None => false end)
  end.

Definition isItemEnqueued (batchId : string) (itemIndex : Z) : M bool :=
  q_get (λ s, bool_decide (pretty itemIndex ∈ SMEMBERS (enqueuedItemsKey batchId) s)).

Definition markItemEnqueued (batchId : string) (itemIndex : Z) : M bool :=
  q_run (λ s, (negb (bool_decide (pretty itemIndex ∈ SMEMBERS (enqueuedItemsKey batchId) s)),
               SADD (enqueuedItemsKey batchId) (pretty itemIndex) s)).

Definition getEnqueuedCount (batchId : string) : M Z := q_get (SCARD (enqueuedItemsKey batchId)).

Definition getCompletionResult (batchId : string) : M (CompleteBatchResult J) :=
  runIds <- getSuccessfulRuns batchId ;;
  failures <- getFailures batchId ;;
  ret (MkResult batchId runIds (Z.of_nat (length runIds)) (Z.of_nat (length failures)) failures).

Definition cleanup (batchId : string) : M unit := q_do (cleanup_db batchId).

End Tracker.
