(* ===== verification/BatchCounting.v ===== *)
(** * BatchCounting: the completion tracker counts every item once

    The abstract tracker is a log: which item was recorded, with which result, in
    order, each item at most once.  The scripts of the tracker, in any order and on
    any batches, implement it, and the count they reply is the length of the log. *)

From stdpp Require Import pretty.
From S2P Require Import Prelude Text Redis FairKeys FairScripts Effect FairWorld FairManagers.
From S2P Require Import BatchTracker.
Local Open Scope Z_scope.

(** ** Deleting keys *)

Section Delete.
Context {V db : Type} {R : Redis V db} {L : RedisLaws R}.
Implicit Types (s : db).

(** What [DEL] of a set, a sorted set or a list does to the other data types. *)
Lemma foldr_same {A B} (view : db → B) (f : A → db → db) l s :
  (∀ a s, view (f a s) = view s) → view (foldr f s l) = view s.
Proof. intros H. induction l as [|a l IH]; [done|]. cbn [foldr]. by rewrite H. Qed.

Lemma SMEMBERS_DEL_set k k' s :
  SMEMBERS k' (DEL_set k s) = if decide (k = k') then ∅ else SMEMBERS k' s.
Proof.
  unfold DEL_set. case_decide as Hk.
  - subst k'. assert (∀ l s, SMEMBERS k (foldr (SREM k) s l) = SMEMBERS k s ∖ list_to_set l) as ->.
    { clear s. induction l as [|m l IH]; intros s; cbn [foldr list_to_set]; [set_solver|].
      redis_simpl. rewrite IH. set_solver. }
    set_solver.
  - apply foldr_same. intros m s0. by redis_simpl.
Qed.

Lemma ZALL_DEL_zset k k' s : ZALL k' (DEL_zset k s) = if decide (k = k') then ∅ else ZALL k' s.
Proof.
  unfold DEL_zset. case_decide as Hk.
  - subst k'. assert (∀ l s m, ZALL k (foldr (ZREM k) s l) !! m =
      if decide (m ∈ l) then None else ZALL k s !! m) as H.
    { clear s. induction l as [|m l IH]; intros s m'; cbn [foldr]; [by rewrite decide_False by set_solver|].
      redis_simpl. destruct (decide (m = m')) as [<-|Hne].
      - rewrite lookup_delete_eq. by rewrite decide_True by set_solver.
      - rewrite lookup_delete_ne by done. rewrite IH. destruct (decide (m' ∈ l));
          [by rewrite decide_True by set_solver|by rewrite decide_False by set_solver]. }
    apply map_eq. intros m. rewrite H, lookup_empty. case_decide as Hm; [done|].
    destruct (ZALL k s !! m) as [x|] eqn:E; [|done]. exfalso. apply Hm. apply list_elem_of_fmap.
    exists (m, x). split; [done|]. by apply elem_of_map_to_list.
  - apply foldr_same. intros m s0. by redis_simpl.
Qed.

Lemma LALL_DEL_list k k' s : LALL k' (DEL_list k s) = if decide (k = k') then [] else LALL k' s.
Proof.
  unfold DEL_list. case_decide as Hk.
  - subst k'. assert (∀ l s, LALL k (foldr (LREM k) s l) = filter (λ x, x ∉ l) (LALL k s)) as ->.
    { clear s. induction l as [|v l IH]; intros s; cbn [foldr].
      - induction (LALL k s) as [|x r IHr]; [done|]. rewrite filter_cons_True by set_solver. by rewrite <- IHr.
      - redis_simpl. rewrite IH, list_filter_filter. apply list_filter_iff. set_solver. }
    apply elem_of_nil_inv. intros x [Hx Hin]%list_elem_of_filter. done.
  - apply foldr_same. intros m s0. by redis_simpl.
Qed.

End Delete.

(** The views of a deleted key that hold another data type. *)
Section Frame.
Context {V db : Type} {R : Redis V db} {L : RedisLaws R}.
Implicit Types (s : db).

Lemma DEL_set_other k k' s :
  GET k' (DEL_set k s) = GET k' s ∧ ZALL k' (DEL_set k s) = ZALL k' s ∧
  LALL k' (DEL_set k s) = LALL k' s ∧ HALL k' (DEL_set k s) = HALL k' s.
Proof. unfold DEL_set. split_and!; apply foldr_same; intros; by redis_simpl. Qed.

Lemma DEL_zset_other k k' s :
  GET k' (DEL_zset k s) = GET k' s ∧ SMEMBERS k' (DEL_zset k s) = SMEMBERS k' s ∧
  LALL k' (DEL_zset k s) = LALL k' s ∧ HALL k' (DEL_zset k s) = HALL k' s.
Proof. unfold DEL_zset. split_and!; apply foldr_same; intros; by redis_simpl. Qed.

Lemma DEL_list_other k k' s :
  GET k' (DEL_list k s) = GET k' s ∧ ZALL k' (DEL_list k s) = ZALL k' s ∧
  SMEMBERS k' (DEL_list k s) = SMEMBERS k' s ∧ HALL k' (DEL_list k s) = HALL k' s.
Proof. unfold DEL_list. split_and!; apply foldr_same; intros; by redis_simpl. Qed.

End Frame.

(** Compute views of a database after deletions. *)
Ltac del_simpl :=
  repeat match goal with
  | |- context [SMEMBERS _ (DEL_set _ _)] => rewrite SMEMBERS_DEL_set
  | |- context [ZALL _ (DEL_zset _ _)] => rewrite ZALL_DEL_zset
  | |- context [LALL _ (DEL_list _ _)] => rewrite LALL_DEL_list
  | |- context [?v ?k (DEL_set ?k' ?s)] =>
      destruct (DEL_set_other k' k s) as (? & ? & ? & ?);
      replace (v k (DEL_set k' s)) with (v k s) by (symmetry; assumption)
  | |- context [?v ?k (DEL_zset ?k' ?s)] =>
      destruct (DEL_zset_other k' k s) as (? & ? & ? & ?);
      replace (v k (DEL_zset k' s)) with (v k s) by (symmetry; assumption)
  | |- context [?v ?k (DEL_list ?k' ?s)] =>
      destruct (DEL_list_other k' k s) as (? & ? & ? & ?);
      replace (v k (DEL_list k' s)) with (v k s) by (symmetry; assumption)
  | _ => progress redis_simpl
  end.

(** ** The abstract tracker *)

Inductive item_result (J : Type) : Type :=
| Succeeded (runId : string)
| Failed (f : BatchItemFailure J).
Arguments Succeeded {J}.
Arguments Failed {J}.

(** A batch identifier without ":", so that batches have different keys. *)
Definition wf_batch (b : string) : Prop := has_char ":" b = false.

Lemma tracker_key_inj b x b' x' :
  wf_batch b → wf_batch b' → tracker_key b x = tracker_key b' x' → b = b' ∧ x = x'.
Proof.
  intros Hb Hb'. unfold tracker_key. cbn [join]. intros H%string_app_inj%string_app_inj.
  by apply sep_inj in H.
Qed.

Section Counting.
Context {J P db : Type} {R : Redis (fq_value P (BatchMeta J)) db} {L : RedisLaws R}.
Context (stringify : BatchItemFailure J → string).
Implicit Types (s : db).
Local Notation log := (list (Z * item_result J)).

(** The runs of a log with their index, the last item of a run first. *)
Definition runs_of (l : log) : gmap string Z :=
  foldl (λ m p, match p.2 with Succeeded r => <[r := p.1]> m | Failed _ => m end) ∅ l.

Definition failures_of (l : log) : list (BatchItemFailure J) :=
  omap (λ p, match p.2 with Failed f => Some f | Succeeded _ => None end) l.

(** The database holds the log of the batch [b]. *)
Record tracks (b : string) (s : db) (l : log) : Prop := Tracks {
  tr_nodup : NoDup l.*1;
  tr_items : SMEMBERS (processedItemsKey b) s = list_to_set (pretty <$> l.*1);
  tr_count : GET (processedCountKey b) s =
    match l with [] => None | _ => Some (FNum (Z.of_nat (length l))) end;
  tr_runs : ZALL (runsKey b) s = runs_of l;
  tr_failures : LALL (failuresKey b) s = stringify <$> failures_of l;
}.

(** The atomic commands of the tracker. *)
Inductive tracker_op : Type :=
| RecordSuccess (b runId : string) (i : Z)
| RecordFailure (b : string) (f : BatchItemFailure J)
| MarkEnqueued (b : string) (i : Z)
| StoreMeta (b : string) (meta : BatchMeta J)
| Cleanup (b : string).

Definition op_batch (o : tracker_op) : string :=
  match o with
  | RecordSuccess b _ _ | RecordFailure b _ | MarkEnqueued b _ | StoreMeta b _ | Cleanup b => b
  end.

(** The reply of a recording, and the database. *)
Definition run_op (o : tracker_op) (s : db) : option (outcome fq_error (option Z)) * db :=
  match o with
  | RecordSuccess b r i =>
      let '(reply, s) := recordSuccessIdempotent (processedItemsKey b) (runsKey b) (processedCountKey b)
                           (pretty i) r i s in (Some reply, s)
  | RecordFailure b f =>
      let '(reply, s) := recordFailureIdempotent (processedItemsKey b) (failuresKey b) (processedCountKey b)
                           (pretty (fa_index f)) (stringify f) s in (Some reply, s)
  | MarkEnqueued b i => (None, SADD (enqueuedItemsKey b) (pretty i) s)
  | StoreMeta b meta => (None, SET (metaKey b) (FOther meta) s)
  | Cleanup b => (None, cleanup_db b s)
  end.

(** What a recording adds to the log of its batch. *)
Definition entry_of (o : tracker_op) : option (Z * item_result J) :=
  match o with
  | RecordSuccess _ r i => Some (i, Succeeded r)
  | RecordFailure _ f => Some (fa_index f, Failed f)
  | _ => None
  end.

Definition add_entry (e : Z * item_result J) (l : log) : log :=
  if decide (e.1 ∈ l.*1) then l else l ++ [e].

Definition log_after (o : tracker_op) (b : string) (l : log) : log :=
  if decide (op_batch o = b) then
    match o with
    | Cleanup _ => []
    | _ => match entry_of o with Some e => add_entry e l | None => l end
    end
  else l.

(** Keys of the tracker: another batch or another kind. *)
Local Ltac tkey b b' :=
  let H := fresh in intros H; apply (tracker_key_inj b _ b' _) in H as [??]; [congruence|done..].

Lemma processed_elem i (l : log) :
  pretty i ∈@{gset string} list_to_set (pretty <$> l.*1) ↔ i ∈ l.*1.
Proof.
  rewrite elem_of_list_to_set, list_elem_of_fmap. split; [|by exists i].
  by intros (j & <-%(inj pretty) & ?).
Qed.

Lemma runs_of_snoc l i r : runs_of (l ++ [(i, Succeeded r)]) = <[r := i]> (runs_of l).
Proof. unfold runs_of. by rewrite foldl_app. Qed.
Lemma runs_of_failed l i f : runs_of (l ++ [(i, Failed f)]) = runs_of l.
Proof. unfold runs_of. by rewrite foldl_app. Qed.

Lemma INCR_count b (l : log) s :
  GET (processedCountKey b) s = match l with [] => None | _ => Some (FNum (Z.of_nat (length l))) end →
  INCR (processedCountKey b) s =
  (Ok (Z.of_nat (length l) + 1), SET (processedCountKey b) (FNum (Z.of_nat (length l) + 1)) s).
Proof. intros H. unfold INCR. rewrite H. by destruct l. Qed.

(** The log only depends on four keys. *)
Lemma tracks_same b s s' l :
  SMEMBERS (processedItemsKey b) s' = SMEMBERS (processedItemsKey b) s →
  GET (processedCountKey b) s' = GET (processedCountKey b) s →
  ZALL (runsKey b) s' = ZALL (runsKey b) s → LALL (failuresKey b) s' = LALL (failuresKey b) s →
  tracks b s l → tracks b s' l.
Proof. intros H1 H2 H3 H4 [Hn Hi Hc Hr Hf]. split; congruence. Qed.

(** A recording of a new item. *)
Lemma tracks_new b s s' l e :
  tracks b s l → e.1 ∉ l.*1 →
  SMEMBERS (processedItemsKey b) s' = {[pretty e.1]} ∪ SMEMBERS (processedItemsKey b) s →
  GET (processedCountKey b) s' = Some (FNum (Z.of_nat (length l) + 1)) →
  ZALL (runsKey b) s' = runs_of (l ++ [e]) → LALL (failuresKey b) s' = stringify <$> failures_of (l ++ [e]) →
  tracks b s' (l ++ [e]).
Proof.
  intros [Hn Hi Hc Hr Hf] He H1 H2 H3 H4. split; [| | |done..].
  - rewrite fmap_app. apply NoDup_app. split; [done|]. split; [|apply NoDup_singleton].
    intros x Hx ->%list_elem_of_singleton. done.
  - rewrite H1, Hi, !fmap_app, list_to_set_app_L. cbn. set_solver.
  - rewrite H2. destruct (l ++ [e]) eqn:E; [by destruct l|]. rewrite <- E, length_app. cbn. do 2 f_equal. lia.
Qed.

Lemma read_count_tracks b s l : tracks b s l → read_count (processedCountKey b) s = Some (Z.of_nat (length l)).
Proof. intros [_ _ Hc _ _]. unfold read_count. rewrite Hc. by destruct l. Qed.

(** The two scripts on the log of their batch. *)
Lemma record_success_tracks b r i s l :
  wf_batch b → tracks b s l →
  let '(reply, s') := recordSuccessIdempotent (processedItemsKey b) (runsKey b) (processedCountKey b)
                        (pretty i) r i s in
  tracks b s' (add_entry (i, Succeeded r) l) ∧
  reply = Ok (Some (Z.of_nat (length (add_entry (i, Succeeded r) l)))).
Proof.
  intros Hb Ht. pose proof Ht as [Hn Hi Hc Hr Hf]. unfold recordSuccessIdempotent, add_entry. cbn [fst].
  rewrite Hi. destruct (decide (i ∈ l.*1)) as [Hin|Hin].
  - rewrite bool_decide_true by (by apply processed_elem). split; [done|]. f_equal. by apply read_count_tracks.
  - rewrite bool_decide_false by (by rewrite processed_elem).
    rewrite (INCR_count b l) by (by redis_simpl).
    assert (tracks b (SET (processedCountKey b) (FNum (Z.of_nat (length l) + 1))
      (ZADD (runsKey b) i r (SADD (processedItemsKey b) (pretty i) s))) (l ++ [(i, Succeeded r)])) as Ht'.
    { apply (tracks_new b s); try done; redis_simpl; [done..| |].
      - by rewrite runs_of_snoc, Hr.
      - rewrite Hf. unfold failures_of. by rewrite omap_app, app_nil_r. }
    split; [done|]. f_equal. by apply read_count_tracks.
Qed.

Lemma record_failure_tracks b f s l :
  wf_batch b → tracks b s l →
  let '(reply, s') := recordFailureIdempotent (processedItemsKey b) (failuresKey b) (processedCountKey b)
                        (pretty (fa_index f)) (stringify f) s in
  tracks b s' (add_entry (fa_index f, Failed f) l) ∧
  reply = Ok (Some (Z.of_nat (length (add_entry (fa_index f, Failed f) l)))).
Proof.
  intros Hb Ht. pose proof Ht as [Hn Hi Hc Hr Hf]. unfold recordFailureIdempotent, add_entry. cbn [fst].
  rewrite Hi. destruct (decide (fa_index f ∈ l.*1)) as [Hin|Hin].
  - rewrite bool_decide_true by (by apply processed_elem). split; [done|]. f_equal. by apply read_count_tracks.
  - rewrite bool_decide_false by (by rewrite processed_elem).
    rewrite (INCR_count b l) by (by redis_simpl).
    assert (tracks b (SET (processedCountKey b) (FNum (Z.of_nat (length l) + 1))
      (RPUSH (failuresKey b) (stringify f) (SADD (processedItemsKey b) (pretty (fa_index f)) s)))
      (l ++ [(fa_index f, Failed f)])) as Ht'.
    { apply (tracks_new b s); try done; redis_simpl; [done..| |].
      - by rewrite runs_of_failed.
      - rewrite Hf. unfold failures_of. by rewrite omap_app, fmap_app. }
    split; [done|]. f_equal. by apply read_count_tracks.
Qed.

(** The kinds of keys of a batch. *)
Definition kinds : list string :=
  ["meta"; "runs"; "failures"; "processed"; "processed_items"; "enqueued_items"].

(** A command on a batch leaves all keys alone but those of the batch. *)
Lemma run_op_other o k s :
  (∀ y, y ∈ kinds → tracker_key (op_batch o) y ≠ k) →
  SMEMBERS k (run_op o s).2 = SMEMBERS k s ∧ GET k (run_op o s).2 = GET k s ∧
  ZALL k (run_op o s).2 = ZALL k s ∧ LALL k (run_op o s).2 = LALL k s.
Proof.
  intros Hk. pose proof (Hk "meta" ltac:(set_solver)) as K1. pose proof (Hk "runs" ltac:(set_solver)) as K2.
  pose proof (Hk "failures" ltac:(set_solver)) as K3. pose proof (Hk "processed" ltac:(set_solver)) as K4.
  pose proof (Hk "processed_items" ltac:(set_solver)) as K5. pose proof (Hk "enqueued_items" ltac:(set_solver)) as K6.
  clear Hk. destruct o as [b' r i|b' f|b' i|b' meta|b']; cbn [op_batch run_op] in *;
    unfold recordSuccessIdempotent, recordFailureIdempotent, INCR, cleanup_db;
    unfold processedItemsKey, runsKey, failuresKey, processedCountKey, enqueuedItemsKey, metaKey in *.
  - repeat case_match; simplify_eq; cbn [snd]; by redis_simpl.
  - repeat case_match; simplify_eq; cbn [snd]; by redis_simpl.
  - cbn [snd]. by redis_simpl.
  - cbn [snd]. by redis_simpl.
  - cbn [snd]. split_and!; del_simpl; done.
Qed.

Lemma run_op_HALL o k s : HALL k (run_op o s).2 = HALL k s.
Proof.
  destruct o as [b' r i|b' f|b' i|b' meta|b']; cbn [run_op];
    unfold recordSuccessIdempotent, recordFailureIdempotent, INCR, cleanup_db;
    repeat case_match; simplify_eq; cbn [snd]; del_simpl; done.
Qed.

(** The commands on one batch leave the keys of the others alone. *)
Lemma run_op_frame o b x s :
  wf_batch b → wf_batch (op_batch o) → op_batch o ≠ b →
  SMEMBERS (tracker_key b x) (run_op o s).2 = SMEMBERS (tracker_key b x) s ∧
  GET (tracker_key b x) (run_op o s).2 = GET (tracker_key b x) s ∧
  ZALL (tracker_key b x) (run_op o s).2 = ZALL (tracker_key b x) s ∧
  LALL (tracker_key b x) (run_op o s).2 = LALL (tracker_key b x) s.
Proof.
  intros Hb Ho Hne. apply run_op_other. intros y _ H. by apply tracker_key_inj in H as [? _].
Qed.

Lemma tracks_cleanup b s l : wf_batch b → tracks b s l → tracks b (cleanup_db b s) [].
Proof.
  intros Hb _. assert (∀ x y, x ≠ y → tracker_key b x ≠ tracker_key b y) as Hk.
  { intros x y Hxy H. by apply tracker_key_inj in H as [_ ?]. }
  pose proof (Hk "enqueued_items" "processed_items" ltac:(done)).
  pose proof (Hk "meta" "processed" ltac:(done)).
  unfold cleanup_db, processedItemsKey, runsKey, failuresKey, processedCountKey, enqueuedItemsKey, metaKey.
  split; [constructor|..]; unfold processedItemsKey, processedCountKey, runsKey, failuresKey; del_simpl; done.
Qed.

Lemma cleanup_meta b s : wf_batch b → GET (metaKey b) (cleanup_db b s) = None.
Proof.
  intros Hb. assert (tracker_key b "processed" ≠ tracker_key b "meta") by (intros H; by apply tracker_key_inj in H as [_ ?]).
  unfold cleanup_db, metaKey, processedCountKey. del_simpl; done.
Qed.

Lemma tracks_op o b s l :
  wf_batch b → wf_batch (op_batch o) → tracks b s l →
  tracks b (run_op o s).2 (log_after o b l) ∧
  (op_batch o = b → ∀ e, entry_of o = Some e →
    (run_op o s).1 = Some (Ok (Some (Z.of_nat (length (add_entry e l)))))).
Proof.
  intros Hb Ho Ht. unfold log_after. destruct (decide (op_batch o = b)) as [Heq|Hne]; [|split; [|done]].
  - destruct o as [b' r i|b' f|b' i|b' meta|b']; cbn [op_batch run_op entry_of] in *; subst b'.
    + pose proof (record_success_tracks b r i s l Hb Ht) as H. destruct (recordSuccessIdempotent _ _ _ _ _ _ _).
      destruct H as [? ->]. split; [done|]. by intros _ e [= <-].
    + pose proof (record_failure_tracks b f s l Hb Ht) as H. destruct (recordFailureIdempotent _ _ _ _ _ _).
      destruct H as [? ->]. split; [done|]. by intros _ e [= <-].
    + split; [|done]. apply (tracks_same b s); cbn [snd]; redis_simpl; try done. rewrite decide_False; [done|].
      intros H. by apply tracker_key_inj in H as [_ ?].
    + split; [|done]. apply (tracks_same b s); cbn [snd]; redis_simpl; try done. rewrite decide_False; [done|].
      intros H. by apply tracker_key_inj in H as [_ ?].
    + split; [|done]. by apply (tracks_cleanup b s l).
  - apply (tracks_same b s); [..|done]; by apply (run_op_frame o b).
Qed.

(** The commands in turn; for each recording, whether its item was new and the reply. *)
Fixpoint run_ops (ops : list tracker_op) (s : db) : db :=
  match ops with [] => s | o :: ops => run_ops ops (run_op o s).2 end.

(** C10. The tracker counts every item once: whatever commands run on whatever batches, in
    any order (successes, failures, repeated deliveries of one item, clean-ups of other
    batches), the keys of a batch hold the log of its items in which the first result
    recorded for an item stands, and the count is the length of the log. *)
Theorem tracker_refines_log ops b s l :
  wf_batch b → Forall (λ o, wf_batch (op_batch o)) ops → tracks b s l →
  let l' := foldl (λ l o, log_after o b l) l ops in
  tracks b (run_ops ops s) l' ∧
  read_count (processedCountKey b) (run_ops ops s) = Some (Z.of_nat (length l')).
Proof.
  intros Hb Hops Ht. cbv zeta. assert (tracks b (run_ops ops s) (foldl (λ l o, log_after o b l) l ops)) as H;
    [|split; [done|by apply read_count_tracks]].
  revert s l Ht. induction Hops as [|o ops Ho _ IH]; intros s l Ht; [done|]. cbn [run_ops foldl].
  apply IH. by apply tracks_op.
Qed.

(** The recording counts an item that was not counted before, and replies [n]. *)
Definition counts_to (n : Z) (o : tracker_op) (s : db) : bool :=
  match entry_of o, (run_op o s).1 with
  | Some e, Some (Ok (Some c)) =>
      negb (bool_decide (pretty e.1 ∈ SMEMBERS (processedItemsKey (op_batch o)) s)) && (c =? n)
  | _, _ => false
  end.

Fixpoint counted_to (n : Z) (ops : list tracker_op) (s : db) : nat :=
  match ops with
  | [] => 0
  | o :: ops => (if counts_to n o s then 1 else 0) + counted_to n ops (run_op o s).2
  end.

Lemma counts_to_log n o b s l e :
  wf_batch b → tracks b s l → op_batch o = b → entry_of o = Some e →
  counts_to n o s = bool_decide (e.1 ∉ l.*1 ∧ Z.of_nat (length l) + 1 = n).
Proof.
  intros Hb Ht Ho He. destruct (tracks_op o b s l Hb) as [_ Hr]; [by rewrite Ho|done|].
  unfold counts_to. rewrite He, (Hr Ho e He), Ho. rewrite (tr_items b s l Ht).
  rewrite (bool_decide_ext _ _ (processed_elem e.1 l)). unfold add_entry. destruct (decide (e.1 ∈ l.*1)).
  - rewrite bool_decide_true by done. cbn. symmetry. apply bool_decide_eq_false. tauto.
  - rewrite bool_decide_false by done. cbn [negb andb]. rewrite length_app. cbn [length].
    destruct (Z.eqb_spec (Z.of_nat (length l + 1)) n); symmetry;
      [apply bool_decide_eq_true; split; [done|lia]|apply bool_decide_eq_false; intros [_ ?]; lia].
Qed.

(** Recordings of [b]. *)
Local Notation recordings b := (Forall (λ o, op_batch o = b ∧ is_Some (entry_of o))).

Lemma log_after_entry o b l e :
  op_batch o = b → entry_of o = Some e → log_after o b l = add_entry e l.
Proof. intros Ho He. unfold log_after. rewrite decide_True by done. rewrite He. by destruct o. Qed.

Lemma log_grows b ops l :
  recordings b ops → (length l ≤ length (foldl (λ l o, log_after o b l) l ops))%nat.
Proof.
  intros Hops. revert l. induction Hops as [|o ops [Ho [e He]] _ IH]; intros l; [done|]. cbn [foldl].
  etrans; [|apply IH]. rewrite (log_after_entry o b l e) by done. unfold add_entry. case_decide; [done|].
  rewrite length_app. lia.
Qed.

Lemma counted_past n b ops s l :
  wf_batch b → recordings b ops → tracks b s l → n ≤ Z.of_nat (length l) → counted_to n ops s = 0%nat.
Proof.
  intros Hb Hops. revert s l. induction Hops as [|o ops [Ho [e He]] Hops IH]; intros s l Ht Hn; [done|].
  cbn [counted_to]. rewrite (counts_to_log n o b s l e) by done. rewrite bool_decide_false by lia.
  destruct (tracks_op o b s l Hb) as [Ht' _]; [by rewrite Ho|done|]. apply (IH _ _ Ht').
  pose proof (log_grows b [o] l) as Hg. cbn [foldl] in Hg. rewrite Forall_singleton in Hg.
  specialize (Hg (conj Ho (mk_is_Some _ _ He))). lia.
Qed.

(** C22. The end of a batch is noticed once: however the results of the items of a batch
    are recorded, with any number of repetitions, exactly one of the recordings that
    count a new item replies the number of items of the batch, namely when that many
    items have been counted; none does before. *)
Theorem final_count_seen_once n ops b s l :
  wf_batch b → Forall (λ o, op_batch o = b ∧ is_Some (entry_of o)) ops → tracks b s l →
  Z.of_nat (length l) < n →
  let l' := foldl (λ l o, log_after o b l) l ops in
  counted_to n ops s = if n <=? Z.of_nat (length l') then 1%nat else 0%nat.
Proof.
  intros Hb Hops. cbv zeta. revert s l. induction Hops as [|o ops [Ho [e He]] Hops IH]; intros s l Ht Hn.
  { cbn. by rewrite (proj2 (Z.leb_gt _ _) Hn). }
  cbn [counted_to foldl]. rewrite (counts_to_log n o b s l e) by done.
  destruct (tracks_op o b s l Hb) as [Ht' _]; [by rewrite Ho|done|].
  rewrite (log_after_entry o b l e) in * by done. unfold add_entry in *. destruct (decide (e.1 ∈ l.*1)) as [Hin|Hin].
  { rewrite bool_decide_false by tauto. by apply IH. }
  pose proof (log_grows b ops (l ++ [e]) Hops) as Hg. rewrite length_app in Hg. cbn [length] in Hg.
  destruct (decide (Z.of_nat (length l) + 1 = n)) as [Heq|Hne].
  - rewrite bool_decide_true by done. rewrite (counted_past n b ops _ _ Hb Hops Ht') by (rewrite length_app; cbn; lia).
    rewrite (proj2 (Z.leb_le _ _)); [done|lia].
  - rewrite bool_decide_false by tauto. apply (IH _ _ Ht'). rewrite length_app. cbn. lia.
Qed.

End Counting.
