(* ===== verification/BatchQueue.v ===== *)
(** * BatchQueue: the methods of the batch queue (batch-queue/index.ts)

    A client of the fair queue: every batch is a queue of its environment, and the
    items are processed by one worker queue.  The completion tracker counts the
    results, in the same database.

    [processItemCallback] and [completionCallback] are methods of the client, which
    may do anything and throw; [None] when they are not set.  [stringify_value] is
    [JSON.stringify] on payloads, [runtime_message] the message of an error that
    neither the queue nor a callback made.  Metrics, spans and logging are left out. *)

From Stdlib Require Import SpecFloat.
From S2P Require Import Prelude Text Redis Listing JumpHash Messages Retry FairKeys FairScripts FairRetry.
From S2P Require Import Effect FairWorld FairManagers FairSchedulers FairQueue BatchTracker.
Local Open Scope Z_scope.
Local Open Scope effect_scope.

(** ** Options *)

(** [retry] of [BatchQueueOptions]. *)
Record BatchRetryOptions : Type := MkBatchRetry {
  br_maxAttempts : Z;
  br_minTimeoutInMs : option Z;
  br_maxTimeoutInMs : option Z;
  br_factor : option spec_float;
  br_randomize : option bool;
}.

Record BatchQueueOptions : Type := MkBatchQueueOptions {
  bo_quantum : Z;                     (* drr *)
  bo_maxDeficit : Z;
  bo_masterQueueLimit : option Z;
  bo_shardCount : option Z;
  bo_defaultConcurrency : option Z;
  bo_workerQueueMaxDepth : option Z;
  bo_retry : option BatchRetryOptions;
}.

Record InitializeBatchOptions (J : Type) : Type := MkInitialize {
  io_batchId : string;
  io_friendlyId : string;
  io_environmentId : string;
  io_environmentType : string;
  io_organizationId : string;
  io_projectId : string;
  io_runCount : Z;
  io_parentRunId : option string;
  io_resumeParentOnCompletion : option bool;
  io_triggerVersion : option string;
  io_traceContext : option J;
  io_spanParentAsLink : option bool;
  io_realtimeStreamsVersion : option string;
  io_idempotencyKey : option string;
  io_processingConcurrency : option Z;
  io_planType : option string;
  io_triggerSource : option string;
}.
Arguments MkInitialize {J}.
Arguments io_batchId {J}.
Arguments io_friendlyId {J}.
Arguments io_environmentId {J}.
Arguments io_environmentType {J}.
Arguments io_organizationId {J}.
Arguments io_projectId {J}.
Arguments io_runCount {J}.
Arguments io_parentRunId {J}.
Arguments io_resumeParentOnCompletion {J}.
Arguments io_triggerVersion {J}.
Arguments io_traceContext {J}.
Arguments io_spanParentAsLink {J}.
Arguments io_realtimeStreamsVersion {J}.
Arguments io_idempotencyKey {J}.
Arguments io_processingConcurrency {J}.
Arguments io_planType {J}.
Arguments io_triggerSource {J}.

(** The argument and the result of [ProcessBatchItemCallback]. *)
Record ProcessParams (J : Type) : Type := MkParams {
  pp_batchId : string;
  pp_friendlyId : string;
  pp_itemIndex : Z;
  pp_item : BatchItem J;
  pp_meta : BatchMeta J;
  pp_attempt : Z;
  pp_isFinalAttempt : bool;
}.
Arguments MkParams {J}.
Arguments pp_batchId {J}.
Arguments pp_friendlyId {J}.
Arguments pp_itemIndex {J}.
Arguments pp_item {J}.
Arguments pp_meta {J}.
Arguments pp_attempt {J}.
Arguments pp_isFinalAttempt {J}.

Inductive item_reply : Type :=
| ItemSuccess (runId : string)
| ItemFailure (error : string) (errorCode : option string) (skipRetries : option bool).

(** ** Keys *)

Definition ENV_CONCURRENCY_KEY_PREFIX : string := "batch:env_concurrency".
Definition BATCH_WORKER_QUEUE_ID : string := "batch-worker-queue".

Definition envConcurrencyKey (envId : string) : string := ENV_CONCURRENCY_KEY_PREFIX +:+ ":" +:+ envId.

(** [extractTenantId] and [extractGroupId] of the key producer. *)
Definition batch_extractTenantId (queueId : string) : string :=
  match js_split ":" queueId with
  | p0 :: p1 :: _ => if bool_decide (p0 = "env") && truthy p1 then p1 else queueId
  | _ => queueId
  end.

Definition batch_extractGroupId (groupName queueId : string) : string :=
  match js_split ":" queueId with
  | p0 :: p1 :: _ =>
      if bool_decide (groupName = "tenant") && bool_decide (p0 = "env") && truthy p1 then p1 else ""
  | _ => ""
  end.

Definition keyProducer : FairQueueKeyProducer :=
  CallbackFairQueueKeyProducer (Some "batch") None batch_extractTenantId batch_extractGroupId.

Definition makeQueueId (envId batchId : string) : string :=
  "env:" +:+ envId +:+ ":batch:" +:+ batchId.

(** [payloadStr]. *)
Definition payload_text {J} (stringify_value : J → string) (payload : option (json J)) : string :=
  match payload with
  | None => "{}"
  | Some (JText t) => t
  | Some (JValue j) => stringify_value j
  end.

(** ** BatchQueue *)

Section BatchQueue.
Context {J db S : Type} {R : Redis (fq_value (BatchItemPayload J) (BatchMeta J)) db}.
Local Notation P := (BatchItemPayload J).
Local Notation M := (FqM db S).
Context (sha256 : string → list Z) (pow : spec_float → spec_float → spec_float).
Context (stringify : BatchItemFailure J → string) (parse : string → option (BatchItemFailure J)).
Context (stringify_value : J → string) (runtime_message : fq_error → string).
Context (options : BatchQueueOptions).
Context (processItemCallback : option (ProcessParams J → M item_reply)).
Context (completionCallback : option (CompleteBatchResult J → M unit)).

Definition defaultConcurrency : Z := default 10 (bo_defaultConcurrency options).

(** [this.maxAttempts]. *)
Definition batch_maxAttempts : Z := from_option br_maxAttempts 1 (bo_retry options).

(** *** Limits of the environments *)

Definition storeEnvConcurrency (envId : string) (concurrency : Z) : M unit :=
  q_do (SET (envConcurrencyKey envId) (FNum concurrency)).

(** A read, as the concurrency manager awaits it among its own. *)
Definition getEnvConcurrency (envId : string) (s : db) : Z :=
  match GET (envConcurrencyKey envId) s ≫= fq_number with
  | Some limit => if 0 <? limit then limit else defaultConcurrency
  | None => defaultConcurrency
  end.

(** *** The fair queue *)

Definition batch_retryStrategy : option RetryStrategy :=
  (λ retry, ExponentialBackoffRetry pow
     (MkRetryOptions (Some (br_maxAttempts retry))
        (Some (default (double_of_Z 2) (br_factor retry)))
        (Some (default 1000 (br_minTimeoutInMs retry)))
        (Some (default 30000 (br_maxTimeoutInMs retry)))
        (Some (default true (br_randomize retry))))) <$> bo_retry options.

Definition tenant_group : Concurrency.ConcurrencyGroupConfig db :=
  Concurrency.MkGroup "tenant" qd_tenantId getEnvConcurrency defaultConcurrency.

Definition fairQueueOptions : FairQueueOptions P db S := {|
  fo_keys := keyProducer;
  fo_scheduler := DRRScheduler keyProducer (bo_quantum options) (bo_maxDeficit options)
                    (bo_masterQueueLimit options);
  fo_payloadSchema := Some (λ _, true);
  fo_validateOnEnqueue := Some false;
  fo_shardCount := Some (default 1 (bo_shardCount options));
  fo_concurrencyGroups := [tenant_group];
  fo_resolveWorkerQueue _ := BATCH_WORKER_QUEUE_ID;
  fo_retryStrategy := batch_retryStrategy;
  fo_deadLetterQueue := (λ _, false) <$> bo_retry options;
  fo_visibilityTimeoutMs := Some 60000;
  fo_heartbeatIntervalMs := None;
  fo_batchClaimSize := None;
  fo_cooloff_enabled := Some false;
  fo_cooloff_threshold := None;
  fo_cooloff_periodMs := None;
  fo_cooloff_maxStatesSize := None;
  fo_workerQueueMaxDepth := bo_workerQueueMaxDepth options;
  fo_workerQueueDepthCheckId := Some BATCH_WORKER_QUEUE_ID;
|}.

(** *** Enqueueing *)

(** [planType] is not copied. *)
Definition batch_meta (now : Z) (o : InitializeBatchOptions J) : BatchMeta J := {|
  me_batchId := io_batchId o;
  me_friendlyId := io_friendlyId o;
  me_environmentId := io_environmentId o;
  me_environmentType := io_environmentType o;
  me_organizationId := io_organizationId o;
  me_projectId := io_projectId o;
  me_runCount := io_runCount o;
  me_createdAt := now;
  me_parentRunId := io_parentRunId o;
  me_resumeParentOnCompletion := io_resumeParentOnCompletion o;
  me_triggerVersion := io_triggerVersion o;
  me_traceContext := io_traceContext o;
  me_spanParentAsLink := io_spanParentAsLink o;
  me_realtimeStreamsVersion := io_realtimeStreamsVersion o;
  me_idempotencyKey := io_idempotencyKey o;
  me_processingConcurrency := io_processingConcurrency o;
  me_planType := None;
  me_triggerSource := io_triggerSource o;
|}.

Definition initializeBatch (now : Z) (o : InitializeBatchOptions J) : M unit :=
  storeMeta (io_batchId o) (batch_meta now o) ;;;
  match io_processingConcurrency o with
  | Some concurrency => storeEnvConcurrency (io_environmentId o) concurrency
  | None => ret tt
  end.

(** What [enqueueBatchItem] passes to the fair queue. *)
Definition item_options (meta : BatchMeta J) (batchId envId : string) (itemIndex : Z)
    (item : BatchItem J) : EnqueueOptions P :=
  MkEnqueue (makeQueueId envId batchId) envId
    (MkPayload batchId (me_friendlyId meta) itemIndex item) None
    (Some (me_createdAt meta + itemIndex))
    (Some {["batchId" := batchId; "friendlyId" := me_friendlyId meta; "envId" := envId]}).

(** The result is [enqueued]. *)
Definition enqueueBatchItem (now : Z) (nanoid batchId envId : string) (itemIndex : Z)
    (item : BatchItem J) : M bool :=
  meta <- getMeta batchId ;;
  match meta with
  | None => throw (BatchNotFound batchId)
  | Some meta =>
      isNewItem <- markItemEnqueued batchId itemIndex ;;
      if isNewItem : bool then
        _ <- enqueue sha256 fairQueueOptions now nanoid (item_options meta batchId envId itemIndex item) ;;
        ret true
      else ret false
  end.

(** *** Queries *)

Definition getBatchMeta (batchId : string) : M (option (BatchMeta J)) := getMeta batchId.

(** [None] is [NaN]. *)
Definition getBatchRemainingCount (batchId : string) : M (option Z) :=
  meta <- getMeta batchId ;;
  match meta with
  | None => ret (Some 0)
  | Some meta =>
      processedCount <- getProcessedCount batchId ;;
      ret ((λ n, Z.max 0 (me_runCount meta - n)) <$> processedCount)
  end.

Definition getBatchRuns (batchId : string) : M (list string) := getSuccessfulRuns batchId.

Definition getBatchFailures (batchId : string) : M (list (BatchItemFailure J)) :=
  getFailures parse batchId.

Definition getBatchProcessedCount (batchId : string) : M (option Z) := getProcessedCount batchId.

(** Success, failure and processed counts. *)
Definition getBatchProgress (batchId : string) : M (Z * Z * option Z) :=
  successfulRuns <- getSuccessfulRuns batchId ;;
  failures <- getFailures parse batchId ;;
  processedCount <- getProcessedCount batchId ;;
  ret (Z.of_nat (length successfulRuns), Z.of_nat (length failures), processedCount).

(** *** Processing *)

(** [error.message]. *)
Definition error_message (e : fq_error) : string :=
  match e with
  | CallbackError message => message
  | BatchNotFound batchId => "Batch " +:+ batchId +:+ " not found or not initialized"
  | _ => runtime_message e
  end.

Definition item_failure (p : P) (error : string) (errorCode : option string) (timestamp : Z)
    : BatchItemFailure J :=
  MkFailure (bp_itemIndex p) (bi_task (bp_item p))
    (Some (payload_text stringify_value (bi_payload (bp_item p)))) (bi_options (bp_item p))
    error errorCode timestamp.

(** The [try] block of [#handleMessage]: the count after the result is recorded, or
    [None] when the item is retried. *)
Definition process_item (now : Z) (random : spec_float) (messageId queueId : string) (p : P)
    (meta : BatchMeta J) (attempt : Z) (callback : ProcessParams J → M item_reply)
    : M (option (option Z)) :=
  let isFinalAttempt := batch_maxAttempts <=? attempt in
  result <- callback (MkParams (bp_batchId p) (bp_friendlyId p) (bp_itemIndex p) (bp_item p) meta
                        attempt isFinalAttempt) ;;
  match result with
  | ItemSuccess runId =>
      processedCount <- recordSuccess (bp_batchId p) runId (Some (bp_itemIndex p)) ;;
      ret (Some processedCount)
  | ItemFailure error errorCode skipRetries =>
      if negb isFinalAttempt && negb (bool_decide (skipRetries = Some true)) then
        failMessage sha256 fairQueueOptions now random messageId queueId (Some error) ;;;
        ret None
      else
        processedCount <- recordFailure stringify now (bp_batchId p) (item_failure p error errorCode) ;;
        ret (Some processedCount)
  end.

(** The [catch] block. *)
Definition unexpected_error (now : Z) (random : spec_float) (messageId queueId : string) (p : P)
    (attempt : Z) (e : fq_error) : M (option (option Z)) :=
  if attempt <? batch_maxAttempts then
    failMessage sha256 fairQueueOptions now random messageId queueId (Some (error_message e)) ;;;
    ret None
  else
    processedCount <- recordFailure stringify now (bp_batchId p)
                        (item_failure p (error_message e) (Some "UNEXPECTED_ERROR")) ;;
    ret (Some processedCount).

Definition finalizeBatch (batchId : string) : M unit :=
  result <- getCompletionResult parse batchId ;;
  match completionCallback with
  | Some callback => callback result ;;; cleanup batchId
  | None => cleanup batchId
  end.

Definition batch_completeMessage (messageId queueId : string) : M unit :=
  completeMessage sha256 fairQueueOptions messageId queueId.

(** After the item is recorded. *)
Definition finish_item (messageId queueId batchId : string) (meta : BatchMeta J)
    (processedCount : option Z) : M unit :=
  batch_completeMessage messageId queueId ;;;
  if bool_decide (processedCount = Some (me_runCount meta)) then finalizeBatch batchId else ret tt.

Definition handleMessage (now : Z) (random : spec_float) (messageId queueId : string) : M unit :=
  storedMessage <- getMessageData sha256 fairQueueOptions messageId queueId ;;
  match storedMessage with
  | None => batch_completeMessage messageId queueId
  | Some storedMessage =>
      let p := sm_payload storedMessage in
      match processItemCallback with
      | None => batch_completeMessage messageId queueId
      | Some callback =>
          meta <- getMeta (bp_batchId p) ;;
          match meta with
          | None => batch_completeMessage messageId queueId
          | Some meta =>
              let attempt := sm_attempt storedMessage in
              recorded <- catch (process_item now random messageId queueId p meta attempt callback)
                            (unexpected_error now random messageId queueId p attempt) ;;
              match recorded with
              | None => ret tt
              | Some processedCount => finish_item messageId queueId (bp_batchId p) meta processedCount
              end
          end
      end
  end.

(** One turn of [#runWorkerQueueConsumerLoop], once the rate limiter allows it; an
    error is logged and the loop goes on.  The result tells whether there was work. *)
Definition worker_turn (now : Z) (random : spec_float) : M bool :=
  match processItemCallback with
  | None => ret false
  | Some _ =>
      catch (
        messageKey <- WorkerQueues.blockingPop keyProducer BATCH_WORKER_QUEUE_ID ;;
        match messageKey with
        | None => ret false
        | Some messageKey =>
            match cut ":" messageKey with
            | None => ret false
            | Some (messageId, queueId) => handleMessage now random messageId queueId ;;; ret true
            end
        end) (λ _, ret false)
  end.

End BatchQueue.
