(* ===== verification/BatchTraces.v ===== *)
(** * BatchTraces: the batch queue moves along the steps of the fair queue

    The keys of the completion tracker and the limits of the environments are keys of
    a client of the fair queue: the commands on them are steps that leave the queue
    alone.  So every method of the batch queue is a trace of [fq_step]s, and the
    invariant of the fair queue holds for the batch queue. *)

From Stdlib Require Import SpecFloat.
From stdpp Require Import pretty.
From S2P Require Import Prelude Text Redis Listing JumpHash SimpleQueue FairKeys FairScripts FairRetry.
From S2P Require Import Effect FairWorld FairManagers FairSchedulers FairQueue FairSystem FairSteps.
From S2P Require Import FairLevels FairInvariants FairTraces FairMethods FairPolicies.
From S2P Require Import BatchTracker BatchCounting BatchQueue.
Local Open Scope Z_scope.
Local Open Scope effect_scope.

(** ** Identifiers *)

(** The words that follow "batch:" in the keys of the fair queue and of the limits. *)
Definition reserved : list string :=
  ["master"; "queue"; "concurrency"; "inflight"; "worker"; "dispatch"; "tenantq"; "dlq"; "env_concurrency"].

Definition wf_batch_id (b : string) : Prop := wf_batch b ∧ b ∉ reserved.

(** An environment id that [extractTenantId] finds in the id of a queue. *)
Definition wf_env (e : string) : Prop := has_char ":" e = false ∧ truthy e = true.

Lemma makeQueueId_tenant e b : wf_env e → extractTenantId keyProducer (makeQueueId e b) = e.
Proof.
  intros [He Ht]. cbn. unfold batch_extractTenantId, js_split, makeQueueId.
  change ("env:" +:+ e +:+ ":batch:" +:+ b) with ("env" +:+ String ":" (e +:+ String ":" ("batch:" +:+ b))).
  rewrite (split_char_app ":" "env"), split_char_sep by done. rewrite (split_char_app ":" e), split_char_sep by done.
  cbn [hd_app]. rewrite !string_app_nil_r. rewrite bool_decide_true by done. cbn [andb]. by rewrite Ht.
Qed.

(** A key of the tracker is not a key that starts with another word. *)
Lemma tracker_key_word b x w rest :
  wf_batch_id b → w ∈ reserved → tracker_key b x ≠ "batch:" +:+ w +:+ String ":" rest.
Proof.
  intros [Hb Hr] Hw H. unfold tracker_key in H. cbn [join] in H.
  change (KEY_PREFIX +:+ ":" +:+ ?y) with ("batch:" +:+ y) in H. apply string_app_inj in H.
  apply sep_inj in H as [-> _]; [by apply Hr|done|]. clear -Hw. unfold reserved in Hw.
  repeat (apply elem_of_cons in Hw as [->|Hw]; [done|]). by apply elem_of_nil in Hw.
Qed.

#[export] Instance keyProducer_laws : FairKeyLaws keyProducer.
Proof. apply callback_laws. Qed.

(** ** Settings *)

Section Settings.
Context {J db : Type} {R : Redis (fq_value (BatchItemPayload J) (BatchMeta J)) db} {L : RedisLaws R}.
Context (stringify : BatchItemFailure J → string).
Context (options : BatchQueueOptions) (limit : string → Z).
Implicit Types (s : db).
Local Notation K := keyProducer.

(** The item is recorded, or its batch is finalized: no metadata are left. *)
Definition settled (b : string) (i : Z) (s : db) : Prop :=
  pretty i ∈ SMEMBERS (processedItemsKey b) s ∨ GET (metaKey b) s = None.

(** The limits of the environments are bounded; the item [kept], if any, is settled. *)
Definition batch_settings (kept : option (string * Z)) (s : db) : Prop :=
  (∀ e, getEnvConcurrency options e s ≤ limit e) ∧
  from_option (λ p, settled p.1 p.2 s) True kept.

Lemma batch_settings_keep kept s s' :
  (∀ k, GET k s' = GET k s) →
  (∀ k, from_option (λ p, k = processedItemsKey p.1) False kept → SMEMBERS k s' = SMEMBERS k s) →
  batch_settings kept s → batch_settings kept s'.
Proof.
  intros Hg Hs [Hl Hk]. split.
  - intros e. specialize (Hl e). unfold getEnvConcurrency in *. by rewrite Hg.
  - destruct kept as [[b i]|]; [|done]. unfold settled in *. cbn in *. by rewrite Hg, (Hs _ eq_refl).
Qed.

Definition batch_bound (kept : option (string * Z)) : bounds R :=
  MkBounds (λ _ e, limit e) (batch_settings kept)
    (λ k, from_option (λ p, k = processedItemsKey p.1) False kept) (batch_settings_keep kept).

(** [b] is not the batch of the item. *)
Definition other_batch (b : string) (kept : option (string * Z)) : Prop :=
  ∀ p, kept = Some p → p.1 ≠ b.

Definition wf_kept (kept : option (string * Z)) : Prop := from_option (λ p, wf_batch_id p.1) True kept.

(** Recordings and clean-ups keep an item settled. *)
Lemma settled_op (o : tracker_op (J := J)) b i s :
  wf_batch b → wf_batch (op_batch o) → (∀ meta, o ≠ StoreMeta b meta) →
  settled b i s → settled b i (run_op stringify o s).2.
Proof.
  intros Hb Ho Hm. unfold settled. destruct (decide (op_batch o = b)) as [<-|Hne].
  2: { destruct (run_op_frame stringify o b "processed_items" s) as (H1 & _); [done..|].
       destruct (run_op_frame stringify o b "meta" s) as (_ & H2 & _); [done..|].
       unfold processedItemsKey, metaKey. by rewrite H1, H2. }
  assert (∀ x y, x ≠ y → tracker_key (op_batch o) x ≠ tracker_key (op_batch o) y) as Hk.
  { intros x y Hxy H. by apply tracker_key_inj in H as [_ ?]. }
  pose proof (Hk "enqueued_items" "processed_items" ltac:(done)). pose proof (Hk "processed" "meta" ltac:(done)).
  clear Hk. destruct o as [b' r j|b' f|b' j|b' meta|b']; cbn [op_batch run_op] in *;
    unfold recordSuccessIdempotent, recordFailureIdempotent, INCR;
    unfold processedItemsKey, runsKey, failuresKey, processedCountKey, enqueuedItemsKey, metaKey in *.
  - repeat case_match; simplify_eq; cbn [snd]; redis_simpl; set_solver.
  - repeat case_match; simplify_eq; cbn [snd]; redis_simpl; set_solver.
  - cbn [snd]. by redis_simpl.
  - by destruct (Hm meta).
  - intros _. right. cbn [snd]. by apply cleanup_meta.
Qed.

Lemma batch_settings_op kept (o : tracker_op (J := J)) s :
  wf_kept kept → wf_batch_id (op_batch o) → (∀ b meta, o = StoreMeta b meta → other_batch b kept) →
  batch_settings kept s → batch_settings kept (run_op stringify o s).2.
Proof.
  intros Hk [Ho Hr] Hm [Hl Hs]. split.
  - intros e. specialize (Hl e). unfold getEnvConcurrency in *.
    destruct (run_op_other stringify o (envConcurrencyKey e) s) as (_ & -> & _); [|done].
    intros y _. apply (tracker_key_word _ _ "env_concurrency"); [by split|set_solver].
  - destruct kept as [[b i]|]; [|done]. cbn in *. apply settled_op; [apply Hk|done| |done].
    intros meta ->. by apply (Hm b meta eq_refl (b, i)).
Qed.

(** A command of the tracker leaves the queue alone. *)
Lemma tracker_same kept (o : tracker_op (J := J)) s :
  wf_kept kept → wf_batch_id (op_batch o) → (∀ b meta, o = StoreMeta b meta → other_batch b kept) →
  same_queue K ["tenant"] (batch_bound kept) s (run_op stringify o s).2.
Proof.
  intros Hk Ho Hm. assert (∀ k w rest, k = "batch:" +:+ w +:+ String ":" rest → w ∈ reserved →
    ∀ y, y ∈ kinds → tracker_key (op_batch o) y ≠ k) as Hkey.
  { intros k w rest -> Hw y _. by apply tracker_key_word. }
  split.
  - intros z. unfold zv. apply (run_op_other stringify o).
    destruct z; eapply Hkey; try reflexivity; set_solver.
  - intros h. unfold hv. apply run_op_HALL.
  - intros w. apply (run_op_other stringify o). eapply Hkey; [reflexivity|set_solver].
  - intros g i _. apply (run_op_other stringify o). eapply Hkey; [reflexivity|set_solver].
  - by apply batch_settings_op.
Qed.

(** The bound holds for the group of the environments. *)
Lemma batch_groups_bounded kept :
  wf_kept kept → (∀ e, defaultConcurrency options ≤ limit e) →
  groups_bounded K (batch_bound kept) [tenant_group (db := db) options].
Proof.
  intros Hk Hd g e ->%list_elem_of_singleton. split.
  - destruct kept as [[b i]|]; [|by intros []]. cbn. intros H. symmetry in H. revert H.
    apply (tracker_key_word b "processed_items" "concurrency"); [done|set_solver].
  - intros s [Hl _]. unfold Concurrency.group_limit. cbn. case_match; [apply Hd|apply Hl].
Qed.

(** A limit that is stored. *)
Lemma env_same kept e n s :
  n ≤ limit e → (∀ e, defaultConcurrency options ≤ limit e) → wf_kept kept →
  same_queue K ["tenant"] (batch_bound kept) s (SET (envConcurrencyKey e) (FNum n) s).
Proof.
  intros Hn Hd Hk. split; [intros; unfold zv, hv; by redis_simpl..|]. cbn.
  intros [Hl Hs]. split.
  - intros e'. specialize (Hl e'). unfold getEnvConcurrency in *. redis_simpl. case_decide as He; [|exact Hl].
    cbn -[Z.ltb]. apply string_app_inj in He. apply (string_app_inj ":") in He as <-. destruct (0 <? n); [done|apply Hd].
  - destruct kept as [[b i]|]; [|done]. unfold settled in *. cbn in *. redis_simpl. rewrite decide_False; [done|].
    intros H. symmetry in H. revert H. apply (tracker_key_word b "meta" "env_concurrency"); [done|set_solver].
Qed.

End Settings.

(** ** Methods *)

(** The queue of a message and the item it carries. *)
Definition item_home {J} (queue : string → string) (item : string → string * Z) : homes (BatchItemPayload J) :=
  MkHomes queue (λ m p, item m = (bp_batchId p, bp_itemIndex p) ∧ wf_batch_id (bp_batchId p)).

Section Methods.
Context {J db S : Type} {R : Redis (fq_value (BatchItemPayload J) (BatchMeta J)) db} {L : RedisLaws R}.
Context (sha256 : string → list Z) (pow : spec_float → spec_float → spec_float).
Context (stringify : BatchItemFailure J → string) (parse : string → option (BatchItemFailure J)).
Context (stringify_value : J → string) (runtime_message : fq_error → string).
Context (options : BatchQueueOptions).
Context (processItemCallback : option (ProcessParams J → FqM db S item_reply)).
Context (completionCallback : option (CompleteBatchResult J → FqM db S unit)).
Local Notation P := (BatchItemPayload J).
Local Notation M := (FqM db S).
Local Notation K := keyProducer.
Local Notation fo := (fairQueueOptions (S := S) pow options).
Local Notation shard := (getShardForQueue sha256 fo).
Local Notation shardT := (getShardForTenant sha256 fo).

(** A bound on the limits of the environments; the queues and the items of messages. *)
Context (limit : string → Z) (queue : string → string) (item : string → string * Z).
Local Notation home := (item_home (J := J) queue item).
Context (Hshards : 1 ≤ shardCount fo) (Hdefault : ∀ e, defaultConcurrency options ≤ limit e).

Section Parts.
Context (kept : option (string * Z)) (Hkept : wf_kept kept) (E : string → Prop).
Local Notation bound := (batch_bound options limit kept).
Local Notation ok := (ok_method (S := S) K home shard shardT ["tenant"] bound E).

Lemma tenant_names : Forall (λ g, has_char ":" g = false) ["tenant"].
Proof. by repeat constructor. Qed.

Local Notation r_bind := (ok_bind K home shard shardT ["tenant"] bound tenant_names E).
Local Notation r_catch := (ok_catch K home shard shardT ["tenant"] bound tenant_names E).
Local Notation r_ret := (ok_ret K home shard shardT ["tenant"] bound E).
Local Notation r_throw := (ok_throw K home shard shardT ["tenant"] bound E).
Local Notation r_script := (ok_script K home shard shardT ["tenant"] bound tenant_names E).
Local Notation r_get := (ok_get K home shard shardT ["tenant"] bound tenant_names E).
Local Notation r_weaken := (ok_weaken K home shard shardT ["tenant"] bound E).

#[local] Instance batch_scheduler_laws :
  SchedulerLaws K home shard shardT ["tenant"] bound (fo_scheduler fo).
Proof.
  apply (drr_laws (KL := keyProducer_laws) K); [apply tenant_names|]. intros h. apply callback_deficitKey.
Qed.

Lemma batch_bounded : groups_bounded K bound (fo_concurrencyGroups fo).
Proof. by apply batch_groups_bounded. Qed.

(** What the theorems of the fair queue ask of its options. *)
Local Ltac fq_laws := first [exact Hshards|apply tenant_names|apply batch_bounded|apply batch_scheduler_laws|idtac].

(** A script that leaves the queue alone. *)
Lemma same_ok {A} (f : db → outcome fq_error A * db) :
  (∀ s, same_queue K ["tenant"] bound s (f s).2) → ok (q_script f) anything.
Proof.
  intros Hf. apply r_script. intros s _. split; [|done]. apply rtc_once. exists []. split; [done|].
  apply step_other, Hf.
Qed.

(** The scripts of the tracker. *)
Lemma tracker_ok {A} (o : tracker_op (J := J)) (f : db → outcome fq_error A * db) :
  (∀ s, (f s).2 = (run_op stringify o s).2) → wf_batch_id (op_batch o) →
  (∀ b meta, o = StoreMeta b meta → other_batch b kept) → ok (q_script f) anything.
Proof. intros Hf Ho Hm. apply same_ok. intros s. rewrite Hf. by apply tracker_same. Qed.

Lemma storeMeta_ok b meta : wf_batch_id b → other_batch b kept → ok (storeMeta b meta) anything.
Proof. intros Hb Hk. by apply (tracker_ok (StoreMeta b meta)); [|done|intros ? ? [= <- _]]. Qed.

Lemma getMeta_ok b : ok (getMeta b) anything.
Proof. apply same_ok. intros s. apply same_queue_refl. Qed.

Lemma recordSuccess_ok b r i : wf_batch_id b → ok (recordSuccess b r (Some i)) anything.
Proof.
  intros Hb. apply (tracker_ok (RecordSuccess b r i)); [|done..]. intros s. cbn.
  by destruct (recordSuccessIdempotent _ _ _ _ _ _ s).
Qed.

Lemma recordFailure_ok now b f : wf_batch_id b → ok (recordFailure stringify now b f) anything.
Proof.
  intros Hb. apply (tracker_ok (RecordFailure b (f now))); [|done..]. intros s. cbn.
  by destruct (recordFailureIdempotent _ _ _ _ _ s).
Qed.

Lemma markItemEnqueued_ok b i : wf_batch_id b → ok (markItemEnqueued b i) anything.
Proof. intros Hb. by apply (tracker_ok (MarkEnqueued b i)). Qed.

Lemma cleanup_ok b : wf_batch_id b → ok (cleanup b) anything.
Proof. intros Hb. by apply (tracker_ok (Cleanup b)). Qed.

Lemma getCompletionResult_ok b : ok (getCompletionResult parse b) anything.
Proof.
  unfold getCompletionResult. eapply r_bind; [by apply (r_get _ anything)|]. intros runs _.
  eapply (r_bind _ _ anything); [|intros; by apply r_ret]. unfold getFailures.
  eapply r_bind; [by apply (r_get _ anything)|]. intros fs _. case_match; [by apply r_ret|apply r_throw].
Qed.

(** *** Calls *)

Lemma initializeBatch_ok now (o : InitializeBatchOptions J) :
  wf_batch_id (io_batchId o) → other_batch (io_batchId o) kept →
  (∀ n, io_processingConcurrency o = Some n → n ≤ limit (io_environmentId o)) →
  ok (initializeBatch now o) anything.
Proof.
  intros Hb Hk Hn. unfold initializeBatch. eapply r_bind; [by apply storeMeta_ok|]. intros _ _.
  destruct (io_processingConcurrency o) as [n|]; [|by apply r_ret].
  apply same_ok. intros s. by apply env_same; [apply Hn|..].
Qed.

Lemma enqueueBatchItem_ok now nanoid b e i it :
  queue nanoid = makeQueueId e b → item nanoid = (b, i) → wf_id nanoid → wf_env e → wf_batch_id b →
  ok (enqueueBatchItem sha256 pow options now nanoid b e i it) anything.
Proof.
  intros Hq Hi Hn He Hb. unfold enqueueBatchItem. eapply r_bind; [apply getMeta_ok|].
  intros [meta|] _; [|apply r_throw]. eapply r_bind; [by apply markItemEnqueued_ok|].
  intros [|] _; [|by apply r_ret]. eapply (r_bind _ _ anything); [|intros; by apply r_ret].
  apply (enqueue_ok sha256 fo home bound); cbn; try done; [apply tenant_names|].
  symmetry. by apply makeQueueId_tenant.
Qed.

(** The callbacks move along steps too. *)
Definition callbacks_ok : Prop :=
  (∀ f, processItemCallback = Some f → ∀ params, ok (f params) anything) ∧
  (∀ f, completionCallback = Some f → ∀ result, ok (f result) anything).

Context (Hcallbacks : callbacks_ok).

Lemma finalizeBatch_ok b : wf_batch_id b → ok (finalizeBatch parse completionCallback b) anything.
Proof.
  intros Hb. unfold finalizeBatch. eapply r_bind; [apply getCompletionResult_ok|]. intros r _.
  destruct completionCallback as [f|] eqn:Ef; [|by apply cleanup_ok].
  eapply r_bind; [by apply (proj2 Hcallbacks f)|]. intros _ _. by apply cleanup_ok.
Qed.

Lemma batch_complete_ok m q :
  queue m = q → wf_id m → E m → ok (batch_completeMessage sha256 pow options m q) anything.
Proof. intros. by apply (completeMessage_ok sha256 fo home bound); fq_laws. Qed.

Lemma batch_fail_ok now random m q err :
  queue m = q → wf_id m → E m → ok (failMessage sha256 fo now random m q err) anything.
Proof. intros. by apply (failMessage_ok sha256 fo home bound); fq_laws. Qed.

Lemma finish_item_ok m q b meta c :
  queue m = q → wf_id m → E m → wf_batch_id b →
  ok (finish_item sha256 pow parse options completionCallback m q b meta c) anything.
Proof.
  intros Hq Hm HE Hb. unfold finish_item. eapply r_bind; [by apply batch_complete_ok|]. intros _ _.
  case_match; [by apply finalizeBatch_ok|by apply r_ret].
Qed.

Lemma unexpected_error_ok now random m q p attempt e :
  queue m = q → wf_id m → E m → wf_batch_id (bp_batchId p) →
  ok (unexpected_error sha256 pow stringify stringify_value runtime_message options now random m q p attempt e)
    anything.
Proof.
  intros Hq Hm HE Hb. unfold unexpected_error. case_match; (eapply r_bind; [|intros; by apply r_ret]);
    [by apply batch_fail_ok|by apply recordFailure_ok].
Qed.

Lemma handleMessage_ok now random m q :
  queue m = q → wf_id m → E m →
  ok (handleMessage sha256 pow stringify parse stringify_value runtime_message options
        processItemCallback completionCallback now random m q) anything.
Proof.
  intros Hq Hm HE. unfold handleMessage. eapply r_bind.
  { by apply (stored_message_ok sha256 fo home bound); [apply tenant_names|]. }
  intros [sm|] Hsm; [|by apply batch_complete_ok]. destruct (Hsm sm eq_refl) as (_ & _ & _ & _ & _ & Hb). clear Hsm.
  destruct processItemCallback as [f|] eqn:Ef; [|by apply batch_complete_ok].
  eapply r_bind; [apply getMeta_ok|]. intros [meta|] _; [|by apply batch_complete_ok].
  eapply (r_bind _ _ anything); [apply r_catch|intros [c|] _; [by apply finish_item_ok|by apply r_ret]].
  - unfold process_item. eapply r_bind; [by apply (proj1 Hcallbacks f)|]. intros [r|err code skip] _.
    + eapply r_bind; [by apply recordSuccess_ok|]. intros; by apply r_ret.
    + case_match; (eapply r_bind; [|intros; by apply r_ret]); [by apply batch_fail_ok|by apply recordFailure_ok].
  - intros e. by apply unexpected_error_ok.
Qed.

Lemma blockingPop_ok :
  ok (WorkerQueues.blockingPop K BATCH_WORKER_QUEUE_ID) (λ o, ∀ e, o = Some e → member_ok home e).
Proof.
  apply (ok_run K home shard shardT ["tenant"] bound tenant_names E). intros s Hs. split.
  - exists []. split; [done|]. destruct (LALL _ s) as [|e l] eqn:El; [apply step_other, same_queue_refl|apply step_pop].
  - destruct (LALL _ s) as [|e l] eqn:El; [done|]. intros e' [= <-].
    apply (typed_l _ _ _ _ _ (good_typed _ _ _ _ _ _ _ Hs) BATCH_WORKER_QUEUE_ID). rewrite El. by left.
Qed.

Lemma worker_turn_ok now random :
  (∀ m, wf_id m → E m) →
  ok (worker_turn sha256 pow stringify parse stringify_value runtime_message options
        processItemCallback completionCallback now random) anything.
Proof.
  intros HE. unfold worker_turn. destruct processItemCallback as [f|] eqn:Ef; [|by apply r_ret].
  rewrite <- Ef. clear f Ef. apply r_catch; [|intros; by apply r_ret]. eapply r_bind; [apply blockingPop_ok|].
  intros [e|] He; [|by apply r_ret]. destruct (He e eq_refl) as (m & -> & Hm).
  rewrite cut_member by done.
  eapply r_bind; [|intros; by apply r_ret]. by apply handleMessage_ok; [..|apply HE].
Qed.

Lemma batch_consume_ok now loopId n : ok (master_queue_turn sha256 fo now loopId n) anything.
Proof. by apply (master_queue_turn_ok sha256 fo home bound); fq_laws. Qed.

Lemma batch_reclaim_ok now : ok (reclaim_turn sha256 fo now) anything.
Proof. by apply (reclaim_turn_ok sha256 fo home bound); fq_laws. Qed.

End Parts.
End Methods.
