(* ===== verification/BatchAccounting.v ===== *)
(** * BatchAccounting: no item of a batch is forgotten

    An item that is enqueued waits in its queue or is in flight until its result is
    recorded in the completion tracker, whatever calls follow, one after the other. *)

From Stdlib Require Import SpecFloat.
From stdpp Require Import pretty.
From S2P Require Import Prelude Text Redis Listing JumpHash SimpleQueue FairKeys FairScripts FairRetry.
From S2P Require Import Effect FairWorld FairManagers FairSchedulers FairQueue FairSystem FairSteps.
From S2P Require Import FairLevels FairInvariants FairTraces FairMethods FairPolicies FairTheorems.
From S2P Require Import FairOutcomes BatchTracker BatchCounting BatchQueue BatchTraces BatchTheorems.
Local Open Scope Z_scope.
Local Open Scope effect_scope.

Section Accounting.
Context {J db S : Type} {R : Redis (fq_value (BatchItemPayload J) (BatchMeta J)) db} {L : RedisLaws R}.
Context (sha256 : string → list Z) (pow : spec_float → spec_float → spec_float).
Context (stringify : BatchItemFailure J → string) (parse : string → option (BatchItemFailure J)).
Context (stringify_value : J → string) (runtime_message : fq_error → string).
Context (options : BatchQueueOptions).
Context (processItemCallback : option (ProcessParams J → FqM db S item_reply)).
Context (completionCallback : option (CompleteBatchResult J → FqM db S unit)).
Local Notation P := (BatchItemPayload J).
Local Notation M := (FqM db S).
Local Notation K := keyProducer.
Local Notation fo := (fairQueueOptions (S := S) pow options).
Local Notation shard := (getShardForQueue sha256 fo).
Local Notation shardT := (getShardForTenant sha256 fo).
Context (limit : string → Z) (queue : string → string) (item : string → string * Z).
Local Notation home := (item_home (J := J) queue item).
Local Notation bound kept := (batch_bound options limit kept).
Context (Hshards : 1 ≤ shardCount fo) (Hdefault : ∀ e, defaultConcurrency options ≤ limit e).
Local Notation ok kept E := (ok_method (S := S) K home shard shardT ["tenant"] (bound kept) E).
Local Notation st_fine kept := (st_ok (S := S) K home shard shardT ["tenant"] (bound kept)).
Local Notation mview := (mview K home shard).

(** ** Accounted messages *)

(** The item of the message [m] is still delivered, or settled. *)
Definition accounted (m : string) (s : db) : Prop :=
  live (mview m s) ∨ settled (item m).1 (item m).2 s.

(** The callbacks act outside the database and the process. *)
Definition quiet_callbacks : Prop :=
  (∀ f, processItemCallback = Some f → ∀ params w, (f params w).2 = w) ∧
  (∀ f, completionCallback = Some f → ∀ result w, (f result w).2 = w).

Lemma st_fine_settled b i (st : fq_state db S) :
  st_fine (Some (b, i)) st ↔ st_fine None st ∧ settled b i (fw_redis st).
Proof.
  split.
  - intros [[Ht Hl Hm [He Hs]] Hc]. split; [|done]. split; [|done]. by split.
  - intros [[[Ht Hl Hm [He _]] Hc] Hs]. split; [|done]. by split.
Qed.

Lemma alone_ok kept E (st : fq_state db S) :
  st_fine kept st → w_ok K home shard shardT ["tenant"] (bound kept) E (FqWorld st []).
Proof. by split. Qed.

(** A method that runs alone, on a settled item. *)
Lemma settled_method {A} (mt : M A) b i E st :
  ok (Some (b, i)) E mt anything → st_fine None st → settled b i (fw_redis st) →
  settled b i (fw_redis (fw_state (mt (FqWorld st [])).2)).
Proof.
  intros Hm Hst Hs. assert (st_fine (Some (b, i)) st) as Hf by (by apply st_fine_settled).
  destruct (Hm _ (alone_ok _ E _ Hf)) as [Ht _].
  pose proof (fq_trace_ok K home shard shardT ["tenant"] _ tenant_names E _ _ Ht (alone_ok _ E _ Hf)) as [Hw _].
  by apply st_fine_settled in Hw as [_ ?].
Qed.

(** A method that runs alone, and the state after it. *)
Lemma alone_method {A} (mt : M A) E st :
  ok None E mt anything → st_fine None st →
  fw_env (mt (FqWorld st [])).2 = [] ∧ st_fine None (fw_state (mt (FqWorld st [])).2) ∧
  ∀ m, wf_id m → ¬ E m → live (mview m (fw_redis st)) → live (mview m (fw_redis (fw_state (mt (FqWorld st [])).2))).
Proof.
  intros Hm Hst. destruct (Hm _ (alone_ok _ E _ Hst)) as [Ht _].
  pose proof (fq_trace_ok K home shard shardT ["tenant"] _ tenant_names E _ _ Ht (alone_ok _ E _ Hst)) as [Hw _].
  destruct Ht as [Hmoves Hsuf]. split; [by apply suffix_nil_inv in Hsuf|]. split; [done|]. intros m Hwf HE Hl.
  destruct (moves_refine sha256 fo home (bound None) tenant_names E _ _ Hmoves Hst) as (ops & Ha & Hv).
  cbn [fo_keys fairQueueOptions fw_state] in Hv. rewrite Hv by done. apply live_acts; [|done].
  eapply Forall_impl; [exact Ha|]. intros [m' o] Ho <-. cbn. by intros ?%Ho.
Qed.

(** A method that does not end the delivery of [m] keeps it accounted. *)
Lemma accounted_method {A} (mt : M A) m E st :
  ok None E mt anything → ok (Some (item m)) E mt anything → wf_id m → ¬ E m →
  st_fine None st → accounted m (fw_redis st) → accounted m (fw_redis (fw_state (mt (FqWorld st [])).2)).
Proof.
  intros H1 H2 Hm HE Hst [Hl|Hs].
  - left. by apply (alone_method mt E st).
  - right. destruct (item m) as [b i]. by apply (settled_method mt b i E).
Qed.

(** ** Enqueueing an item *)

(** The database after a new item is marked and enqueued. *)
Definition enqueue_db (nanoid : string) (o : EnqueueOptions P) (s : db) : db :=
  let q := eo_queueId o in
  let tn := eo_tenantId o in
  let z := default 0 (eo_timestamp o) in
  enqueueMessageAtomicV2 (queueKey K q) (queueItemsKey K q) (tenantQueueIndexKey K tn)
    (dispatchKey K (shardT tn)) q nanoid z
    (FMsg (new_message fo nanoid q tn (eo_payload o) z (eo_metadata o))) tn s.

Lemma mview_enqueue_db nanoid meta b e i it n s :
  queue nanoid = makeQueueId e b → item nanoid = (b, i) → wf_id nanoid → wf_id n → wf_env e → wf_batch_id b →
  typed K home shard shardT s →
  let o := item_options meta b e i it in
  mview n (enqueue_db nanoid o s) =
  acts n [(nanoid, Put (me_createdAt meta + i)
             (FMsg (new_message fo nanoid (makeQueueId e b) e (eo_payload o) (me_createdAt meta + i) (eo_metadata o))))]
    (mview n s).
Proof.
  intros Hq Hi Hm Hn He Hb Hs o. pose proof (makeQueueId_tenant e b He) as Ht.
  apply (step_refines K home shard shardT ["tenant"] (bound None) _ s); [done| |done].
  set (v := FMsg _) at 1.
  pose proof (step_enqueue K home shard shardT ["tenant"] (bound None) (makeQueueId e b)
    [(nanoid, me_createdAt meta + i, v)] s) as H. rewrite Ht in H. apply H.
  apply Forall_singleton. split; [done|]. split; [done|]. eexists. split; [done|].
  change (home nanoid) with (queue nanoid). rewrite Hq, Ht. by split_and!.
Qed.

Lemma SMEMBERS_enqueue_db nanoid o k s : SMEMBERS k (enqueue_db nanoid o s) = SMEMBERS k s.
Proof.
  unfold enqueue_db, enqueueMessageAtomicV2, relist, store_message, rebalance_add. cbv zeta.
  repeat case_match; by redis_simpl.
Qed.

(** Marking an item leaves the messages alone. *)
Lemma mview_mark b (i : Z) n s : wf_batch_id b → mview n (SADD (enqueuedItemsKey b) (pretty i) s) = mview n s.
Proof.
  intros Hb. destruct (tracker_same stringify options limit None (MarkEnqueued b i) s) as [Hz Hh _ _ _]; [done..|].
  by apply mview_views.
Qed.

Lemma alone_getMeta b (st : fq_state db S) :
  getMeta b (FqWorld st []) =
  (match GET (metaKey b) (fw_redis st) with
   | None => Ok None
   | Some (FOther meta) => Ok (Some meta)
   | Some _ => Err ParseError
   end, FqWorld st []).
Proof. unfold getMeta. by rewrite alone_script, with_redis_same. Qed.

(** An item is enqueued: the steps of the method, on its own. *)
Lemma alone_enqueueBatchItem now nanoid b e i it (st : fq_state db S) :
  let s := SADD (enqueuedItemsKey b) (pretty i) (fw_redis st) in
  match GET (metaKey b) (fw_redis st) with
  | None => enqueueBatchItem sha256 pow options now nanoid b e i it (FqWorld st []) =
              (Err (BatchNotFound b), FqWorld st [])
  | Some (FOther meta) =>
      if bool_decide (pretty i ∈ SMEMBERS (enqueuedItemsKey b) (fw_redis st))
      then enqueueBatchItem sha256 pow options now nanoid b e i it (FqWorld st []) =
             (Ok false, FqWorld (with_redis s st) [])
      else ∃ st', enqueueBatchItem sha256 pow options now nanoid b e i it (FqWorld st []) =
             (Ok true, FqWorld st' []) ∧ fw_redis st' = enqueue_db nanoid (item_options meta b e i it) s
  | Some _ => enqueueBatchItem sha256 pow options now nanoid b e i it (FqWorld st []) =
                (Err ParseError, FqWorld st [])
  end.
Proof.
  intros s. pose proof (alone_getMeta b st) as Hmeta.
  destruct (GET (metaKey b) (fw_redis st)) as [[| | |meta|]|]; cbv beta iota in Hmeta;
    try (by unfold enqueueBatchItem, bind at 1; rewrite Hmeta).
  unfold enqueueBatchItem. rewrite (alone_bind _ _ _ _ _ Hmeta). unfold markItemEnqueued.
  rewrite (alone_bind _ _ _ _ _ (alone_run _ st)). cbn [fst snd].
  case_bool_decide; cbn [negb]; [done|]. eexists. split; [reflexivity|]. done.
Qed.

(** Enqueueing an item of a batch.  For a batch that is not initialised the call throws
    and changes nothing.  Otherwise the item is marked; if it was marked before, no message
    is added or changed and the result says so; if not, exactly one message is added, with
    the item as its payload, due at the creation time of the batch plus the index of the
    item, so that the items are delivered in order. *)
Theorem enqueue_item_outcome now nanoid b e i it (st : fq_state db S) :
  queue nanoid = makeQueueId e b → item nanoid = (b, i) → wf_id nanoid → wf_env e → wf_batch_id b →
  st_fine None st →
  let s := fw_redis st in
  let '(r, w) := enqueueBatchItem sha256 pow options now nanoid b e i it (FqWorld st []) in
  let s' := db_of w in
  match GET (metaKey b) s with
  | None => r = Err (BatchNotFound b) ∧ w = FqWorld st []
  | Some (FOther meta) =>
      pretty i ∈ SMEMBERS (enqueuedItemsKey b) s' ∧
      if bool_decide (pretty i ∈ SMEMBERS (enqueuedItemsKey b) s)
      then r = Ok false ∧ ∀ n, mview n s' = mview n s
      else r = Ok true ∧ ms_wait (mview nanoid s') = Some (me_createdAt meta + i) ∧
           (∃ m, ms_item (mview nanoid s') = Some (FMsg m) ∧
                 sm_payload m = MkPayload b (me_friendlyId meta) i it ∧ sm_attempt m = 1 ∧ sm_tenantId m = e) ∧
           ∀ n, wf_id n → n ≠ nanoid → mview n s' = mview n s
  | Some _ => r = Err ParseError ∧ w = FqWorld st []
  end.
Proof.
  intros Hq Hi Hm He Hb Hst s. pose proof (alone_enqueueBatchItem now nanoid b e i it st) as Hrun. cbv zeta in Hrun.
  fold s in Hrun. destruct (GET (metaKey b) s) as [[| | |meta|]|]; try (by rewrite Hrun).
  assert (typed K home shard shardT (SADD (enqueuedItemsKey b) (pretty i) s)) as Hs.
  { apply (step_good K home shard shardT ["tenant"] (bound None) tenant_names [] s); [|apply Hst].
    by apply step_other, (tracker_same stringify options limit None (MarkEnqueued b i) s). }
  case_bool_decide as Hin.
  { rewrite Hrun. unfold db_of. cbn [fw_state fw_redis with_redis]. redis_simpl. split; [set_solver|].
    split; [done|]. intros n. by apply mview_mark. }
  destruct Hrun as (st' & -> & Hst'). unfold db_of. cbn [fw_state]. rewrite Hst', SMEMBERS_enqueue_db. redis_simpl.
  split; [set_solver|]. split; [done|].
  pose proof (λ n Hn, mview_enqueue_db nanoid meta b e i it n _ Hq Hi Hm Hn He Hb Hs) as Hv. cbv zeta in Hv.
  rewrite (Hv nanoid Hm). unfold acts at 1 2. cbn [foldl fst snd]. rewrite !decide_True by done.
  split; [by destruct (mview nanoid _)|]. split; [by destruct (mview nanoid _); eexists|].
  intros n Hn Hne. rewrite (Hv n Hn). unfold acts. cbn [foldl fst snd]. rewrite decide_False by done. by apply mview_mark.
Qed.

(** ** Handling a message *)

Context (Hquiet : quiet_callbacks).

Lemma quiet_ok kept E :
  callbacks_ok sha256 pow options processItemCallback completionCallback limit queue item kept E.
Proof.
  destruct Hquiet as [H1 H2]. split; intros f Hf x w Hw.
  - split; [|done]. rewrite (H1 f Hf). reflexivity.
  - split; [|done]. rewrite (H2 f Hf). reflexivity.
Qed.

Lemma recordSuccess_settles b r i (st : fq_state db S) :
  settled b i (fw_redis (fw_state (recordSuccess b r (Some i) (FqWorld st [])).2)).
Proof.
  unfold recordSuccess. rewrite alone_script. cbn [from_option default]. unfold recordSuccessIdempotent, INCR.
  left. case_bool_decide; [done|]. repeat case_match; simplify_eq; cbn [snd fw_state fw_redis with_redis];
    redis_simpl; set_solver.
Qed.

Lemma recordFailure_settles now b (f : Z → BatchItemFailure J) (st : fq_state db S) :
  settled b (fa_index (f now)) (fw_redis (fw_state (recordFailure stringify now b f (FqWorld st [])).2)).
Proof.
  unfold recordFailure. rewrite alone_script. unfold recordFailureIdempotent, INCR.
  left. case_bool_decide; [done|]. repeat case_match; simplify_eq; cbn [snd fw_state fw_redis with_redis];
    redis_simpl; set_solver.
Qed.

(** The delays of retries are numbers. *)
Definition finite_delays (random : spec_float) : Prop :=
  ∀ r attempt, batch_retryStrategy pow options = Some r → getNextDelay r random attempt ≠ Some None.

Lemma batch_retry_delay random attempt :
  finite_delays random → 1 ≤ attempt < batch_maxAttempts options →
  ∃ d, (batch_retryStrategy pow options ≫= λ r, getNextDelay r random attempt) = Some (Some d).
Proof.
  unfold finite_delays, batch_maxAttempts, batch_retryStrategy. intros Hfin Ha.
  destruct (bo_retry options) as [r|]; [|cbn in Ha; lia]. cbn [fmap option_fmap option_map mbind option_bind from_option] in *.
  set (o := Retry.MkRetryOptions _ _ _ _ _) in *. specialize (Hfin _ attempt eq_refl).
  pose proof (exponential_retries pow o random attempt ltac:(apply Ha)) as Hne.
  by destruct (getNextDelay _ random attempt) as [[d|]|]; [exists d|..].
Qed.

(** What is known of a message in flight. *)
Lemma stored_facts m sm (st : fq_state db S) :
  st_fine None st → stored sha256 fo m (queue m) (fw_redis st) = Some sm →
  sm_id sm = m ∧ sm_queueId sm = queue m ∧ sm_tenantId sm = extractTenantId K (queue m) ∧
  1 ≤ sm_attempt sm ∧ item m = (bp_batchId (sm_payload sm), bp_itemIndex (sm_payload sm)) ∧
  wf_batch_id (bp_batchId (sm_payload sm)).
Proof.
  intros Hok Hst.
  destruct (stored_message_ok sha256 fo home (bound None) tenant_names (λ _, True) m (queue m) eq_refl
              (FqWorld st []) (alone_ok _ _ st Hok)) as [_ H].
  rewrite (alone_stored sha256 fo) in H. rewrite Hst in H. by destruct (H _ eq_refl sm eq_refl) as (? & ? & ? & ? & ? & ?).
Qed.

(** Before the last attempt, a failed message waits in its queue again. *)
Lemma failMessage_retries now random m err sm (st : fq_state db S) :
  wf_id m → st_fine None st → finite_delays random →
  stored sha256 fo m (queue m) (fw_redis st) = Some sm → sm_attempt sm < batch_maxAttempts options →
  ∃ st', failMessage sha256 fo now random m (queue m) err (FqWorld st []) = (Ok tt, FqWorld st' []) ∧
    live (mview m (fw_redis st')).
Proof.
  intros Hm Hok Hfin Hst Ha. destruct (stored_facts m sm st Hok Hst) as (Hid & Hq & Ht & H1 & _).
  pose proof (alone_failMessage sha256 fo Hshards now random m (queue m) err sm st Hst Hid Hq) as Hrun.
  assert (∃ d, next_delay fo random sm = Some (Some d)) as [d Hd].
  { unfold next_delay. cbn [fo_retryStrategy fairQueueOptions]. apply batch_retry_delay; [done|lia]. }
  rewrite Hd in Hrun. eexists. split; [exact Hrun|]. cbn [fw_redis with_redis].
  rewrite (mview_free_slots sha256 fo home). rewrite (mview_fail_db sha256 fo home) by (by rewrite ?Hid, ?Hq).
  rewrite decide_True by done. left. by split.
Qed.

(** The rest of a method, from a state in which the item is settled. *)
Lemma settled_rest {A} (mt : M A) m E st :
  ok (Some (item m)) E mt anything → st_fine None st → settled (item m).1 (item m).2 (fw_redis st) →
  accounted m (fw_redis (fw_state (mt (FqWorld st [])).2)).
Proof. intros Hm Hst Hs. right. destruct (item m) as [b i]. by apply (settled_method mt b i E). Qed.

(** A completion of a message whose payload is gone. *)
Lemma complete_accounts m (st : fq_state db S) :
  wf_id m → stored sha256 fo m (queue m) (fw_redis st) = None → st_fine None st →
  live (mview m (fw_redis st)) →
  live (mview m (fw_redis (fw_state (batch_completeMessage sha256 pow options m (queue m) (FqWorld st [])).2))).
Proof.
  intros Hm Hnone [Hg _] Hl. unfold batch_completeMessage.
  destruct (alone_completeMessage sha256 fo Hshards m (queue m) st) as (st' & -> & Hst'). cbn [snd fw_state].
  rewrite Hst'. pose proof (mview_complete_db sha256 fo home m m st Hm Hm) as Hv. cbn [home_of item_home] in Hv.
  cbn [fo_keys fairQueueOptions] in *. rewrite Hv. unfold acts. cbn [foldl fst snd]. rewrite !decide_True by done.
  destruct Hl as [Hw|[_ [v Hd]]].
  - left. by destruct (mview m (fw_redis st)).
  - exfalso. unfold stored in Hnone. cbn in Hd, Hnone. unfold hv, HGET in *. cbn in Hd, Hnone. rewrite Hd in Hnone.
    destruct (typed_h _ _ _ _ _ (good_typed _ _ _ _ _ _ _ Hg) (FhData (shard (queue m))) m v Hd) as (_ & _ & sm & -> & _).
    done.
Qed.

(** What follows the [try] block of [handleMessage]. *)
Local Notation finish m p meta :=
  (λ recorded, match recorded with
               | None => ret tt
               | Some c => finish_item sha256 pow parse options completionCallback m (queue m)
                             (bp_batchId p) meta c
               end).
Local Notation unexpected now random m p attempt :=
  (unexpected_error sha256 pow stringify stringify_value runtime_message options now random m (queue m) p attempt).
Local Notation only m := (λ x, x = m).

Lemma finish_ok m (p : P) meta kept recorded :
  wf_id m → wf_kept kept → wf_batch_id (bp_batchId p) →
  ok kept (only m) (finish m p meta recorded) anything.
Proof.
  intros Hm Hk Hb. destruct recorded as [c|]; [|by apply (ok_ret K home shard shardT ["tenant"] (bound kept) (only m))].
  by eapply (finish_item_ok sha256 pow stringify parse); try apply quiet_ok.
Qed.

(** After a recording the item is settled, whatever the recording replies. *)
Lemma record_then_finish now random m (p : P) meta attempt (rec : M (option Z)) (st : fq_state db S) :
  wf_id m → item m = (bp_batchId p, bp_itemIndex p) → wf_batch_id (bp_batchId p) → st_fine None st →
  ok None (only m) rec anything →
  settled (bp_batchId p) (bp_itemIndex p) (fw_redis (fw_state (rec (FqWorld st [])).2)) →
  accounted m (fw_redis (fw_state
    (bind (catch (c <- rec ;; ret (Some c)) (unexpected now random m p attempt)) (finish m p meta) (FqWorld st [])).2)).
Proof.
  intros Hm Hi Hb Hst Hrec Hs. destruct (alone_method rec (only m) st Hrec Hst) as (Henv & Hst1 & _).
  unfold bind at 1, catch. unfold bind at 1. destruct (rec (FqWorld st [])) as [[c|e] [st1 env]]; cbn in Henv, Hs, Hst1; subst env.
  - apply (settled_rest (finish m p meta (Some c)) m (only m) st1); [|done|by rewrite Hi].
    apply (finish_ok m p meta (Some (item m)) (Some c)); [done|by rewrite Hi|done].
  - apply (settled_rest (bind (unexpected now random m p attempt e) (finish m p meta)) m (only m) st1);
      [|done|by rewrite Hi].
    eapply (ok_bind K home shard shardT ["tenant"] _ tenant_names); 
      [|intros a _; apply (finish_ok m p meta (Some (item m)) a); [done|by rewrite Hi|done]].
    apply (unexpected_error_ok sha256 pow stringify stringify_value); try done. by rewrite Hi.
Qed.

Lemma record_or_raise m (p : P) meta (rec : M (option Z)) (st : fq_state db S) :
  wf_id m → item m = (bp_batchId p, bp_itemIndex p) → wf_batch_id (bp_batchId p) → st_fine None st →
  ok None (only m) rec anything →
  settled (bp_batchId p) (bp_itemIndex p) (fw_redis (fw_state (rec (FqWorld st [])).2)) →
  accounted m (fw_redis (fw_state (bind (c <- rec ;; ret (Some c)) (finish m p meta) (FqWorld st [])).2)).
Proof.
  intros Hm Hi Hb Hst Hrec Hs. destruct (alone_method rec (only m) st Hrec Hst) as (Henv & Hst1 & _).
  unfold bind at 1. unfold bind at 1. destruct (rec (FqWorld st [])) as [[c|e] [st1 env]]; cbn in Henv, Hs, Hst1; subst env.
  - apply (settled_rest (finish m p meta (Some c)) m (only m) st1); [|done|by rewrite Hi].
    apply (finish_ok m p meta (Some (item m)) (Some c)); [done|by rewrite Hi|done].
  - right. by rewrite Hi.
Qed.

(** The retry and the last failure of a message in flight. *)
Lemma unexpected_accounts now random m sm meta e (st : fq_state db S) :
  wf_id m → st_fine None st → finite_delays random →
  stored sha256 fo m (queue m) (fw_redis st) = Some sm →
  accounted m (fw_redis (fw_state
    (bind (unexpected now random m (sm_payload sm) (sm_attempt sm) e) (finish m (sm_payload sm) meta) (FqWorld st [])).2)).
Proof.
  intros Hm Hst Hfin Hsm. destruct (stored_facts m sm st Hst Hsm) as (_ & _ & _ & _ & Hi & Hb).
  unfold unexpected_error. destruct (Z.ltb_spec (sm_attempt sm) (batch_maxAttempts options)) as [Ha|Ha].
  - destruct (failMessage_retries now random m (Some (error_message runtime_message e)) sm st) as (st' & Hrun & Hl); try done.
    unfold bind at 1. rewrite (alone_bind _ _ _ _ _ Hrun). by left.
  - apply record_or_raise; try done; [by apply (recordFailure_ok sha256 pow stringify options)|].
    apply (recordFailure_settles now (bp_batchId (sm_payload sm)) (item_failure stringify_value (sm_payload sm) _ _) st).
Qed.

(** A [try] block that starts with a call that leaves the world alone. *)
Lemma try_call {A B C} (c : M A) (k : A → M B) h (fin : B → M C) w r :
  c w = (r, w) →
  bind (catch (bind c k) h) fin w =
  match r with Ok a => bind (catch (k a) h) fin w | Err e => bind (h e) fin w end.
Proof. intros H. unfold bind, catch. rewrite H. by destruct r. Qed.

(** Handling a message in flight. *)
Lemma handle_accounts now random m (st : fq_state db S) :
  wf_id m → wf_batch_id (item m).1 → st_fine None st → finite_delays random → is_Some processItemCallback →
  accounted m (fw_redis st) →
  accounted m (fw_redis (fw_state
    (handleMessage sha256 pow stringify parse stringify_value runtime_message options
       processItemCallback completionCallback now random m (queue m) (FqWorld st [])).2)).
Proof.
  intros Hm Hwf Hst Hfin [f Hf] [Hl|Hs].
  2: { right. destruct (item m) as [b i] eqn:Hi. apply (settled_method _ b i (only m)); [|done..].
       apply (handleMessage_ok sha256 pow stringify parse); try done. apply quiet_ok. }
  unfold handleMessage, getMessageData. rewrite (alone_bind _ _ _ _ _ (alone_stored sha256 fo _ _ st)).
  destruct (stored sha256 fo m (queue m) (fw_redis st)) as [sm|] eqn:Hsm; [|left; by apply complete_accounts].
  destruct (stored_facts m sm st Hst Hsm) as (_ & _ & _ & _ & Hi & Hb). rewrite Hf.
  unfold bind at 1, getMeta. rewrite alone_script, with_redis_same.
  destruct (GET (metaKey (bp_batchId (sm_payload sm))) (fw_redis st)) as [v|] eqn:Hmeta.
  2: { apply (settled_rest (batch_completeMessage sha256 pow options m (queue m)) m (only m)); [|done|].
       - by apply (batch_complete_ok sha256 pow options).
       - rewrite Hi. by right. }
  destruct v as [| | |meta|]; try (left; exact Hl). unfold process_item.
  match goal with |- context [f ?x] => set (params := x) end.
  destruct (f params (FqWorld st [])) as [r w] eqn:Hcall.
  assert (w = FqWorld st []) as -> by (pose proof (proj1 Hquiet f Hf params (FqWorld st [])) as H; by rewrite Hcall in H).
  rewrite (try_call _ _ _ _ _ r Hcall). clear Hcall params.
  destruct r as [[runId|err code skip]|e]; [| |by apply unexpected_accounts].
  - apply record_then_finish; try done; [by apply (recordSuccess_ok sha256 pow stringify options)|].
    apply recordSuccess_settles.
  - destruct (negb _ && _) eqn:Hretry.
    + apply andb_true_iff in Hretry as [Hfinal _]. apply negb_true_iff, Z.leb_gt in Hfinal.
      destruct (failMessage_retries now random m (Some err) sm st) as (st' & Hrun & Hlive); try done.
      unfold bind at 1, catch. rewrite (alone_bind _ _ _ _ _ Hrun). by left.
    + apply record_then_finish; try done; [by apply (recordFailure_ok sha256 pow stringify options)|].
      apply (recordFailure_settles now (bp_batchId (sm_payload sm)) (item_failure stringify_value (sm_payload sm) _ _) st).
Qed.

(** ** Calls *)

Local Notation worker := (worker_turn sha256 pow stringify parse stringify_value runtime_message options
  processItemCallback completionCallback).

(** What a turn of a worker does to the state. *)
Lemma worker_turn_state now random (st : fq_state db S) :
  st_fine None st →
  fw_state (worker now random (FqWorld st [])).2 = st ∨
  ∃ m st1, wf_id m ∧ is_Some processItemCallback ∧
    WorkerQueues.blockingPop K BATCH_WORKER_QUEUE_ID (FqWorld st []) =
      (Ok (Some (makeMember m (queue m))), FqWorld st1 []) ∧
    fw_state (worker now random (FqWorld st [])).2 =
    fw_state (handleMessage sha256 pow stringify parse stringify_value runtime_message options
       processItemCallback completionCallback now random m (queue m) (FqWorld st1 [])).2.
Proof.
  intros Hst. unfold worker_turn. destruct processItemCallback as [f|] eqn:Ef; [|by left]. rewrite <- Ef.
  destruct (blockingPop_ok sha256 pow options limit queue item None (λ _, False) (FqWorld st []) (alone_ok _ _ st Hst))
    as [_ Hok].
  unfold catch. destruct (WorkerQueues.blockingPop K BATCH_WORKER_QUEUE_ID (FqWorld st [])) as [r w] eqn:Hpop.
  assert ((r = Ok None ∧ w = FqWorld st []) ∨ ∃ e st1, r = Ok (Some e) ∧ w = FqWorld st1 []) as [[-> ->]|(e & st1 & -> & ->)].
  { revert Hpop. unfold WorkerQueues.blockingPop. rewrite alone_run.
    destruct (LALL _ (fw_redis st)) as [|e l]; intros [= <- <-]; [left; by destruct st|right; by eexists _, _]. }
  { rewrite (alone_bind _ _ _ _ _ Hpop). by left. }
  right. destruct (Hok _ eq_refl e eq_refl) as (m & -> & Hm). exists m, st1. split; [done|].
  split; [by rewrite Ef|]. split; [done|]. rewrite (alone_bind _ _ _ _ _ Hpop), cut_member by done.
  cbn [home_of item_home]. unfold bind. by destruct (handleMessage _ _ _ _ _ _ _ _ _ _ _ _ _ _) as [[]].
Qed.

Lemma worker_accounts now random n (st : fq_state db S) :
  wf_id n → wf_batch_id (item n).1 → st_fine None st → finite_delays random →
  accounted n (fw_redis st) → accounted n (fw_redis (fw_state (worker now random (FqWorld st [])).2)).
Proof.
  intros Hn Hwf Hst Hfin Hacc. destruct (worker_turn_state now random st Hst) as [->|(m & st1 & Hm & Hf & Hpop & ->)]; [done|].
  pose proof (ok_weaken K home shard shardT ["tenant"] (bound None) (λ _, False) _ _ anything ltac:(done)
    (blockingPop_ok sha256 pow options limit queue item None (λ _, False))) as Hok.
  pose proof (ok_weaken K home shard shardT ["tenant"] (bound (Some (item n))) (λ _, False) _ _ anything ltac:(done)
    (blockingPop_ok sha256 pow options limit queue item (Some (item n)) (λ _, False))) as Hok'.
  pose proof (accounted_method _ n _ st Hok Hok' Hn (λ H : False, H) Hst Hacc) as Hacc1.
  destruct (alone_method _ _ st Hok Hst) as (_ & Hst1 & _). rewrite Hpop in Hacc1, Hst1. cbn [snd fw_state] in *.
  destruct (decide (n = m)) as [->|Hne]; [by apply handle_accounts|].
  apply (accounted_method _ n (only m)); try done;
    apply (handleMessage_ok sha256 pow stringify parse); try done; apply quiet_ok.
Qed.

Local Notation after :=
  (batch_after sha256 pow stringify parse stringify_value runtime_message options processItemCallback
     completionCallback).
Local Notation run :=
  (run_batch sha256 pow stringify parse stringify_value runtime_message options processItemCallback
     completionCallback).

(** What the client respects, as far as the message [n] is concerned: its batch is not
    initialised again, and the delays of retries are numbers. *)
Definition fair_call (n : string) (c : batch_call (J := J)) : Prop :=
  batch_call_ok limit queue item (Some (item n)) c ∧
  match c with CallWorker _ random => finite_delays random | _ => True end.

Lemma call_alone c (st : fq_state db S) :
  batch_call_ok limit queue item None c → st_fine None st →
  fw_env (after c (FqWorld st [])) = [] ∧ st_fine None (fw_state (after c (FqWorld st []))).
Proof.
  intros Hc Hst. assert (trace K home shard shardT ["tenant"] (bound None) (λ _, True) (FqWorld st []) (after c (FqWorld st [])))
    as Ht.
  { apply batch_call_trace; try done. destruct c; try done. split; [done|apply quiet_ok]. }
  split; [by apply suffix_nil_inv; apply Ht|].
  by apply (fq_trace_ok K home shard shardT ["tenant"] (bound None) tenant_names _ _ _ Ht (alone_ok _ _ _ Hst)).
Qed.

Lemma call_ok_any kept (c : batch_call (J := J)) :
  batch_call_ok limit queue item kept c → batch_call_ok limit queue item None c.
Proof. destruct c; try done. cbn. intros (? & _ & ?). by split_and!. Qed.

(** A method that ends no delivery. *)
Lemma accounted_safe {A} (mt : M A) n st :
  wf_id n → wf_batch_id (item n).1 → st_fine None st → accounted n (fw_redis st) →
  (∀ kept, wf_kept kept → kept = None ∨ kept = Some (item n) → ok kept (λ _, False) mt anything) →
  accounted n (fw_redis (fw_state (mt (FqWorld st [])).2)).
Proof.
  intros Hn Hwf Hst Hacc Hok. apply (accounted_method mt n (λ _, False)); [..|exact (λ H, H)|done|done].
  - apply Hok; [done|by left].
  - apply Hok; [done|by right].
  - done.
Qed.

Lemma call_accounts c n (st : fq_state db S) :
  wf_id n → wf_batch_id (item n).1 → fair_call n c → st_fine None st →
  accounted n (fw_redis st) → accounted n (fw_redis (fw_state (after c (FqWorld st [])))).
Proof.
  intros Hn Hwf [Hc Hfin] Hst Hacc.
  destruct c; cbn [batch_after]; [| | | |by apply worker_accounts]; apply accounted_safe; try done; intros kept Hk Hkept.
  - destruct Hc as (Hb & Ho & Hp). apply (initializeBatch_ok sha256 pow stringify); try done.
    + by destruct Hkept as [->| ->].
    + intros k Ek. by rewrite Ek in Hp.
  - destruct Hc as (? & ? & ? & ? & ?). by apply (enqueueBatchItem_ok sha256 pow stringify).
  - by apply (batch_consume_ok sha256 pow options limit queue item).
  - by apply (batch_reclaim_ok sha256 pow options limit queue item).
Qed.

(** C6. No item of a batch is forgotten.  Once an item is enqueued, whatever calls follow
    one after the other (more items and batches, consumer turns, time-outs, workers whose
    callback succeeds, fails or throws), its message waits in its queue or is in flight
    with its payload, or its result is recorded, or the batch is finalized.  So a message
    is completed only after its result is recorded. *)
Theorem batch_items_accounted cs n (st : fq_state db S) :
  wf_id n → wf_batch_id (item n).1 → Forall (fair_call n) cs → st_fine None st →
  accounted n (fw_redis st) → accounted n (db_of (run cs (FqWorld st []))).
Proof.
  intros Hn Hwf Hcs. revert st. induction Hcs as [|c cs Hc _ IH]; intros st Hst Hacc; [done|].
  destruct (call_alone c st (call_ok_any _ _ (proj1 Hc)) Hst) as [He Hst'].
  pose proof (call_accounts c n st Hn Hwf Hc Hst Hacc) as Hacc'. unfold run_batch. cbn [foldl].
  destruct (after c (FqWorld st [])) as [st' env]. cbn in He, Hst', Hacc'. subst env. by apply IH.
Qed.

End Accounting.
