(* ===== verification/BatchOutcomes.v ===== *)
(** * BatchOutcomes: what handling an item and finishing a batch do

    The batch queue on its own: a recorded item is in the log of the tracker and its
    message is completed, the item that reaches the count finalizes the batch, and the
    result that the completion callback receives. *)

From Stdlib Require Import SpecFloat.
From stdpp Require Import pretty.
From S2P Require Import Prelude Text Redis Listing JumpHash SimpleQueue FairKeys FairScripts FairRetry.
From S2P Require Import Effect FairWorld FairManagers FairSchedulers FairQueue FairSystem FairSteps.
From S2P Require Import FairLevels FairInvariants FairTraces FairMethods FairPolicies FairTheorems.
From S2P Require Import FairOutcomes BatchTracker BatchCounting BatchQueue BatchTraces BatchTheorems.
From S2P Require Import BatchAccounting.
Local Open Scope Z_scope.
Local Open Scope effect_scope.

(** ** The completion result *)

Section Result.
Context {J P db S : Type} {R : Redis (fq_value P (BatchMeta J)) db} {L : RedisLaws R}.
Context (stringify : BatchItemFailure J → string) (parse : string → option (BatchItemFailure J)).
Implicit Types (s : db).
Local Notation log := (list (Z * item_result J)).

(** The runs of a log, item by item. *)
Definition run_ids (l : log) : list string :=
  omap (λ p, match p.2 with Succeeded r => Some r | Failed _ => None end) l.

Lemma log_split (l : log) : length l = (length (run_ids l) + length (failures_of l))%nat.
Proof. induction l as [|[i [r|f]] l IH]; cbn; [done|..]; unfold run_ids, failures_of in IH; lia. Qed.

Lemma runs_of_dom (l : log) r : r ∈ dom (runs_of l) ↔ r ∈ run_ids l.
Proof.
  induction l as [|[i e] l IH] using rev_ind; [set_solver|]. unfold run_ids in *. rewrite omap_app, elem_of_app.
  destruct e as [r'|f]; [rewrite runs_of_snoc, dom_insert|rewrite runs_of_failed]; cbn; set_solver.
Qed.

(** The runs that Redis keeps are at most the successful items, and as many when no two
    items have the same run. *)
Lemma runs_of_size (l : log) :
  (size (runs_of l) ≤ length (run_ids l))%nat ∧
  (size (runs_of l) = length (run_ids l) ↔ NoDup (run_ids l)).
Proof.
  assert (size (runs_of l) = size (list_to_set (C := gset string) (run_ids l))) as ->.
  { rewrite <- (size_dom (D := gset string)). f_equal. apply set_eq. intros r.
    by rewrite runs_of_dom, elem_of_list_to_set. }
  induction (run_ids l) as [|r rs [IH1 IH2]]; [split; [done|]; split; [constructor|done]|].
  cbn [list_to_set length]. rewrite NoDup_cons. destruct (decide (r ∈ rs)) as [Hin|Hin].
  - replace ({[r]} ∪ list_to_set rs) with (list_to_set (C := gset string) rs) by set_solver.
    split; [lia|]. split; [lia|]. by intros [? _].
  - rewrite size_union, size_singleton by set_solver. split; [lia|]. rewrite <- IH2. split; [split; [done|lia]|lia].
Qed.

Lemma ZRANGE_whole k s : ZRANGE k (-1) s = zsorted (ZALL k s).
Proof. unfold ZRANGE. apply take_ge. change (-1 <? 0) with true. cbv iota. lia. Qed.

Lemma ZRANGE_members k s r : r ∈ (ZRANGE k (-1) s).*1 ↔ r ∈ dom (ZALL k s).
Proof.
  rewrite ZRANGE_whole, list_elem_of_fmap, elem_of_dom. split.
  - intros ([r' x] & -> & Hin%elem_of_zsorted). by exists x.
  - intros [x Hx]. exists (r, x). split; [done|]. by apply elem_of_zsorted.
Qed.

(** The result of a batch whose log is [l]. *)
Lemma alone_getCompletionResult b l (st : fq_state db S) :
  (∀ f, parse (stringify f) = Some f) → tracks stringify b (fw_redis st) l →
  ∃ runs, getCompletionResult parse b (FqWorld st []) =
    (Ok (MkResult b runs (Z.of_nat (length runs)) (Z.of_nat (length (failures_of l))) (failures_of l)), FqWorld st []) ∧
    NoDup runs ∧ (∀ r, r ∈ runs ↔ r ∈ run_ids l) ∧ length runs = size (runs_of l).
Proof.
  intros Hparse [_ _ _ Hr Hf]. exists ((ZRANGE (runsKey b) (-1) (fw_redis st)).*1). split_and!.
  - unfold getCompletionResult, getSuccessfulRuns, getFailures.
    rewrite (alone_bind _ _ _ _ _ (alone_get _ st)). erewrite alone_bind; [reflexivity|].
    rewrite (alone_bind _ _ _ _ _ (alone_get _ st)), Hf.
    assert (mapM parse (stringify <$> failures_of l) = Some (failures_of l)) as ->; [|done].
    clear -Hparse. induction (failures_of l) as [|x xs IH]; [done|]. cbn. rewrite Hparse. cbn. by rewrite IH.
  - rewrite ZRANGE_whole. apply NoDup_zsorted.
  - intros r. by rewrite ZRANGE_members, Hr, runs_of_dom.
  - by rewrite ZRANGE_whole, length_fmap, length_zsorted, Hr.
Qed.

(** The result of a batch counts every item once: the failures are those of the log, in
    order, the runs are those of the successful items; the two counts add up to the number
    of items that were processed exactly when no two items were given the same run, and to
    less otherwise. *)
Theorem completion_result_counts b l (st : fq_state db S) :
  (∀ f, parse (stringify f) = Some f) → tracks stringify b (fw_redis st) l →
  ∃ r, getCompletionResult parse b (FqWorld st []) = (Ok r, FqWorld st []) ∧
    cr_batchId r = b ∧ cr_failures r = failures_of l ∧
    (∀ run, run ∈ cr_runIds r ↔ run ∈ run_ids l) ∧ NoDup (cr_runIds r) ∧
    cr_successfulRunCount r + cr_failedRunCount r ≤ Z.of_nat (length l) ∧
    (cr_successfulRunCount r + cr_failedRunCount r = Z.of_nat (length l) ↔ NoDup (run_ids l)).
Proof.
  intros Hparse Ht. destruct (alone_getCompletionResult b l st Hparse Ht) as (runs & Hrun & Hnd & Hin & Hlen).
  eexists. split; [exact Hrun|]. cbn [cr_batchId cr_failures cr_runIds cr_successfulRunCount cr_failedRunCount].
  rewrite Hlen, log_split. destruct (runs_of_size l) as [H1 H2]. rewrite <- H2. split_and!; try done; lia.
Qed.

End Result.

(** ** Handling an item *)

Section Handle.
Context {J db S : Type} {R : Redis (fq_value (BatchItemPayload J) (BatchMeta J)) db} {L : RedisLaws R}.
Context (sha256 : string → list Z) (pow : spec_float → spec_float → spec_float).
Context (stringify : BatchItemFailure J → string) (parse : string → option (BatchItemFailure J)).
Context (stringify_value : J → string) (runtime_message : fq_error → string).
Context (options : BatchQueueOptions).
Context (callback : ProcessParams J → FqM db S item_reply).
Context (completionCallback : option (CompleteBatchResult J → FqM db S unit)).
Local Notation P := (BatchItemPayload J).
Local Notation K := keyProducer.
Local Notation fo := (fairQueueOptions (S := S) pow options).
Local Notation shard := (getShardForQueue sha256 fo).
Local Notation shardT := (getShardForTenant sha256 fo).
Context (limit : string → Z) (queue : string → string) (item : string → string * Z).
Local Notation home := (item_home (J := J) queue item).
Local Notation st_fine := (st_ok (S := S) K home shard shardT ["tenant"] (batch_bound options limit None)).
Local Notation mview := (mview K home shard).
Context (Hshards : 1 ≤ shardCount fo).

(** The keys of the tracker are no keys of the fair queue. *)
Lemma tracker_key_fz b x z : wf_batch_id b → fz_key K z ≠ tracker_key b x.
Proof.
  intros Hb H. symmetry in H. revert H.
  destruct z; cbn; unfold buildKey; cbn; eapply tracker_key_word; done || set_solver.
Qed.

Lemma tracker_key_slot b x e : wf_batch_id b → concurrencyKey K "tenant" e ≠ tracker_key b x.
Proof. intros Hb H. symmetry in H. revert H. apply (tracker_key_word b x "concurrency"); [done|set_solver]. Qed.

Lemma complete_db_tracker b x m q (st : fq_state db S) :
  wf_batch_id b →
  let s' := complete_db sha256 fo m q st in let k := tracker_key b x in
  SMEMBERS k s' = SMEMBERS k (fw_redis st) ∧ GET k s' = GET k (fw_redis st) ∧
  ZALL k s' = ZALL k (fw_redis st) ∧ LALL k s' = LALL k (fw_redis st).
Proof.
  intros Hb s' k. subst s'. unfold complete_db. destruct (match stored _ _ _ _ _ with Some _ => _ | None => _ end) as [freed tn] eqn:Ef.
  pose proof (tracker_key_fz b x (FzInflight (shard q)) Hb) as K1. pose proof (tracker_key_fz b x (FzMaster (shard q)) Hb) as K2.
  pose proof (tracker_key_fz b x (FzTenant tn) Hb) as K3. pose proof (tracker_key_fz b x (FzDispatch (shardT tn)) Hb) as K4.
  fold k in K1, K2, K3, K4. cbn [fz_key] in K1, K2, K3, K4. change (fo_keys fo) with K in *.
  assert (SMEMBERS k freed = SMEMBERS k (fw_redis st) ∧ GET k freed = GET k (fw_redis st) ∧
    ZALL k freed = ZALL k (fw_redis st) ∧ LALL k freed = LALL k (fw_redis st)) as (<- & <- & <- & <-).
  { destruct (stored _ _ _ _ _) as [sm|]; injection Ef as <- _; [|split_and!; by redis_simpl].
    unfold free_slots. cbn [fo_concurrencyGroups fairQueueOptions foldl]. unfold Concurrency.slot_key.
    cbn [Concurrency.cg_name Concurrency.cg_extractGroupId tenant_group].
    pose proof (tracker_key_slot b x (qd_tenantId (descriptor st q sm)) Hb) as K5. fold k in K5. split_and!; by redis_simpl. }
  clear Ef. unfold updateDispatchIndexes, updateMasterQueueIfEmpty, relist, rebalance_add. cbv zeta.
  split_and!; repeat case_match; cbn [snd]; by redis_simpl.
Qed.

Lemma tracks_complete b l m q (st : fq_state db S) :
  wf_batch_id b → tracks stringify b (fw_redis st) l → tracks stringify b (complete_db sha256 fo m q st) l.
Proof. intros Hb. apply tracks_same; by apply complete_db_tracker. Qed.

(** What is recorded of a reply of the callback, unless the item is retried. *)
Definition recorded_result (now : Z) (p : P) (reply : item_reply) : item_result J :=
  match reply with
  | ItemSuccess runId => Succeeded runId
  | ItemFailure error errorCode _ => Failed (item_failure stringify_value p error errorCode now)
  end.

Definition is_recorded (attempt : Z) (reply : item_reply) : bool :=
  match reply with
  | ItemSuccess _ => true
  | ItemFailure _ _ skipRetries => (batch_maxAttempts options <=? attempt) || bool_decide (skipRetries = Some true)
  end.

(** The [try] block on a reply that is recorded. *)
Lemma alone_process_item now random m q (p : P) meta attempt reply l (st : fq_state db S) :
  wf_batch_id (bp_batchId p) → tracks stringify (bp_batchId p) (fw_redis st) l →
  callback (MkParams (bp_batchId p) (bp_friendlyId p) (bp_itemIndex p) (bp_item p) meta attempt
              (batch_maxAttempts options <=? attempt)) (FqWorld st []) = (Ok reply, FqWorld st []) →
  is_recorded attempt reply = true →
  let l' := add_entry (bp_itemIndex p, recorded_result now p reply) l in
  ∃ s1, process_item sha256 pow stringify stringify_value options now random m q p meta attempt callback
          (FqWorld st []) = (Ok (Some (Some (Z.of_nat (length l')))), FqWorld (with_redis s1 st) []) ∧
    tracks stringify (bp_batchId p) s1 l' ∧ ∀ n, mview n s1 = mview n (fw_redis st).
Proof.
  intros Hb Ht Hcall Hrec l'. unfold process_item. rewrite (alone_bind _ _ _ _ _ Hcall).
  assert (∀ o s1, s1 = (run_op stringify o (fw_redis st)).2 → op_batch o = bp_batchId p → (∀ b meta, o ≠ StoreMeta b meta) →
    ∀ n, mview n s1 = mview n (fw_redis st)) as Hview.
  { intros o s1 -> Ho Hm n. destruct (tracker_same stringify options limit None o (fw_redis st)) as [Hz Hh _ _ _];
      [done|by rewrite Ho|intros ? ? ?; exfalso; by eapply Hm|]. by apply mview_views. }
  destruct reply as [runId|error code skip]; cbn [recorded_result] in l'.
  - pose proof (record_success_tracks stringify (bp_batchId p) runId (bp_itemIndex p) (fw_redis st) l (proj1 Hb) Ht) as H.
    unfold recordSuccess. unfold bind at 1. rewrite alone_script. cbn [from_option default id].
    pose proof (Hview (RecordSuccess (bp_batchId p) runId (bp_itemIndex p))) as Hv. cbn [run_op op_batch] in Hv.
    destruct (recordSuccessIdempotent _ _ _ _ _ _ _) as [r s1]. destruct H as [Ht1 ->]. exists s1. by split; [|split; [|apply Hv]].
  - cbn [is_recorded] in Hrec. rewrite <- negb_orb, Hrec. cbn [negb].
    set (f := item_failure stringify_value p error code now) in *.
    pose proof (record_failure_tracks stringify (bp_batchId p) f (fw_redis st) l (proj1 Hb) Ht) as H.
    unfold recordFailure. unfold bind at 1. rewrite alone_script. fold f.
    pose proof (Hview (RecordFailure (bp_batchId p) f)) as Hv. cbn [run_op op_batch] in Hv.
    destruct (recordFailureIdempotent _ _ _ _ _ _) as [r s1]. destruct H as [Ht1 ->]. exists s1. by split; [|split; [|apply Hv]].
Qed.

Local Notation handle :=
  (handleMessage sha256 pow stringify parse stringify_value runtime_message options (Some callback)
     completionCallback).

Lemma alone_handle_recorded now random m sm meta reply l (st : fq_state db S) :
  let p := sm_payload sm in
  wf_id m → st_fine st → stored sha256 fo m (queue m) (fw_redis st) = Some sm →
  GET (metaKey (bp_batchId p)) (fw_redis st) = Some (FOther meta) →
  tracks stringify (bp_batchId p) (fw_redis st) l →
  callback (MkParams (bp_batchId p) (bp_friendlyId p) (bp_itemIndex p) (bp_item p) meta (sm_attempt sm)
              (batch_maxAttempts options <=? sm_attempt sm)) (FqWorld st []) = (Ok reply, FqWorld st []) →
  is_recorded (sm_attempt sm) reply = true →
  let l' := add_entry (bp_itemIndex p, recorded_result now p reply) l in
  ∃ st1, tracks stringify (bp_batchId p) (fw_redis st1) l' ∧
    (∀ n, wf_id n → mview n (fw_redis st1) = acts n [(m, Unlink); (m, Forget)] (mview n (fw_redis st))) ∧
    handle now random m (queue m) (FqWorld st []) =
      if Z.of_nat (length l') =? me_runCount meta
      then finalizeBatch parse completionCallback (bp_batchId p) (FqWorld st1 [])
      else (Ok tt, FqWorld st1 []).
Proof.
  intros p Hm Hst Hsm Hmeta Ht Hcall Hrec l'.
  destruct (stored_facts sha256 pow options limit queue item m sm st Hst Hsm) as (_ & _ & _ & _ & _ & Hb).
  destruct (alone_process_item now random m (queue m) p meta (sm_attempt sm) reply l st Hb Ht Hcall Hrec)
    as (s1 & Hproc & Ht1 & Hv1). cbv zeta in Hproc. fold l' in Hproc, Ht1.
  destruct (alone_completeMessage sha256 fo Hshards m (queue m) (with_redis s1 st)) as (st1 & Hdone & Hst1).
  exists st1. split; [rewrite Hst1; by apply tracks_complete|]. split.
  { intros n Hn. rewrite Hst1. pose proof (mview_complete_db sha256 fo home m n (with_redis s1 st) Hm Hn) as Hv.
    cbn [home_of item_home] in Hv. etrans; [exact Hv|]. cbn [fw_redis with_redis]. by rewrite <- (Hv1 n). }
  unfold handleMessage, getMessageData. rewrite (alone_bind _ _ _ _ _ (alone_stored sha256 fo _ _ st)), Hsm.
  pose proof (alone_getMeta (bp_batchId p) st) as Hm1. rewrite Hmeta in Hm1. fold p.
  rewrite (alone_bind _ _ _ _ _ Hm1). erewrite alone_bind; [|unfold catch; by rewrite Hproc].
  unfold finish_item, batch_completeMessage. rewrite (alone_bind _ _ _ _ _ Hdone).
  destruct (Z.eqb_spec (Z.of_nat (length l')) (me_runCount meta)); [by rewrite bool_decide_true by congruence|].
  by rewrite bool_decide_false by congruence.
Qed.

(** Handling an item whose result is final (a run was created, the attempts are used up,
    or the callback said not to retry).  The result is recorded once in the log of the
    batch, the message is no longer in flight and no other message changes; nothing more
    happens unless the batch is now complete. *)
Theorem handled_item_recorded now random m sm meta reply l (st : fq_state db S) :
  let p := sm_payload sm in
  wf_id m → st_fine st → stored sha256 fo m (queue m) (fw_redis st) = Some sm →
  GET (metaKey (bp_batchId p)) (fw_redis st) = Some (FOther meta) →
  tracks stringify (bp_batchId p) (fw_redis st) l →
  callback (MkParams (bp_batchId p) (bp_friendlyId p) (bp_itemIndex p) (bp_item p) meta (sm_attempt sm)
              (batch_maxAttempts options <=? sm_attempt sm)) (FqWorld st []) = (Ok reply, FqWorld st []) →
  is_recorded (sm_attempt sm) reply = true →
  let l' := add_entry (bp_itemIndex p, recorded_result now p reply) l in
  Z.of_nat (length l') ≠ me_runCount meta →
  ∃ st1, handle now random m (queue m) (FqWorld st []) = (Ok tt, FqWorld st1 []) ∧
    tracks stringify (bp_batchId p) (fw_redis st1) l' ∧
    ms_fly (mview m (fw_redis st1)) = None ∧ ms_data (mview m (fw_redis st1)) = None ∧
    ∀ n, wf_id n → n ≠ m → mview n (fw_redis st1) = mview n (fw_redis st).
Proof.
  intros p Hm Hst Hsm Hmeta Ht Hcall Hrec l' Hne.
  destruct (alone_handle_recorded now random m sm meta reply l st Hm Hst Hsm Hmeta Ht Hcall Hrec) as (st1 & Ht1 & Hv & Hrun).
  exists st1. cbv zeta in Hrun. fold p in Hrun. fold l' in Hrun.
  rewrite (proj2 (Z.eqb_neq _ _) Hne) in Hrun. split; [exact Hrun|]. clear Hrun. split; [done|].
  rewrite (Hv m Hm). unfold acts at 1 2. cbn [foldl fst snd]. rewrite !decide_True by done.
  split; [by destruct (mview m _)|]. split; [by destruct (mview m _)|]. intros n Hn Hnm. rewrite (Hv n Hn).
  unfold acts. cbn [foldl fst snd]. by rewrite !decide_False by done.
Qed.

(** C12. The item that completes a batch: once its result is recorded and its message is
    completed, the completion callback is called with the result of the whole batch (every
    failure in order, and the runs of the successful items), and when it succeeds the keys
    of the batch are removed. *)
Theorem last_item_completes now random m sm meta reply l g (st : fq_state db S) :
  let p := sm_payload sm in let b := bp_batchId p in
  wf_id m → st_fine st → stored sha256 fo m (queue m) (fw_redis st) = Some sm →
  GET (metaKey b) (fw_redis st) = Some (FOther meta) → tracks stringify b (fw_redis st) l →
  callback (MkParams b (bp_friendlyId p) (bp_itemIndex p) (bp_item p) meta (sm_attempt sm)
              (batch_maxAttempts options <=? sm_attempt sm)) (FqWorld st []) = (Ok reply, FqWorld st []) →
  is_recorded (sm_attempt sm) reply = true → completionCallback = Some g → (∀ f, parse (stringify f) = Some f) →
  let l' := add_entry (bp_itemIndex p, recorded_result now p reply) l in
  Z.of_nat (length l') = me_runCount meta →
  ∃ st1 r, handle now random m (queue m) (FqWorld st []) = bind (g r) (λ _, cleanup b) (FqWorld st1 []) ∧
    cr_batchId r = b ∧ cr_failures r = failures_of l' ∧ (∀ run, run ∈ cr_runIds r ↔ run ∈ run_ids l') ∧
    (g r (FqWorld st1 []) = (Ok tt, FqWorld st1 []) →
     ∃ st2, handle now random m (queue m) (FqWorld st []) = (Ok tt, FqWorld st2 []) ∧
       GET (metaKey b) (fw_redis st2) = None ∧ tracks stringify b (fw_redis st2) []).
Proof.
  intros p b Hm Hst Hsm Hmeta Ht Hcall Hrec Hg Hparse l' Heq.
  destruct (stored_facts sha256 pow options limit queue item m sm st Hst Hsm) as (_ & _ & _ & _ & _ & Hb).
  destruct (alone_handle_recorded now random m sm meta reply l st Hm Hst Hsm Hmeta Ht Hcall Hrec) as (st1 & Ht1 & _ & Hrun).
  cbv zeta in Hrun. fold p in Hrun. fold l' in Hrun. rewrite Heq, Z.eqb_refl in Hrun.
  destruct (alone_getCompletionResult stringify parse b l' st1 Hparse Ht1) as (runs & Hres & _ & Hin & _).
  unfold finalizeBatch in Hrun. rewrite (alone_bind _ _ _ _ _ Hres), Hg in Hrun.
  rewrite Hg. eexists st1, _. split; [exact Hrun|]. split; [done|]. split; [done|]. split; [done|]. intros Hcb.
  rewrite (alone_bind _ _ _ _ _ Hcb) in Hrun. exists (with_redis (cleanup_db b (fw_redis st1)) st1).
  split; [exact Hrun|]. clear Hrun. cbn [fw_redis with_redis]. split; [|by apply (tracks_cleanup stringify b _ l'); [apply Hb|]].
  apply cleanup_meta, Hb.
Qed.

End Handle.
