(* ===== verification/BatchSamples.v ===== *)
(** * BatchSamples: a concrete batch queue the theorems are run on

    The batch "b1" of the environment "prod" with two items, three attempts per item, an
    empty database.  The failures are written as the digits of a number that encodes them. *)

From Stdlib Require Import SpecFloat.
From stdpp Require Import pretty.
From S2P Require Import Prelude Text Redis Listing JumpHash Messages SimpleQueue FairKeys FairScripts FairRetry.
From S2P Require Import Effect FairWorld FairManagers FairSchedulers FairQueue FairSystem FairSteps.
From S2P Require Import FairLevels FairInvariants FairTraces FairMethods FairPolicies FairSamples FairTheorems.
From S2P Require Import FairOutcomes BatchTracker BatchCounting BatchQueue BatchTraces BatchTheorems.
From S2P Require Import BatchAccounting BatchOutcomes.
Local Open Scope Z_scope.
Local Open Scope effect_scope.

(** ** Failures as texts *)

Fixpoint digits (p : positive) : string :=
  match p with xH => "" | xO p => String "0" (digits p) | xI p => String "1" (digits p) end.

Fixpoint number (t : string) : positive :=
  match t with
  | EmptyString => xH
  | String c t => if bool_decide (c = "0"%char) then xO (number t) else xI (number t)
  end.

Lemma number_digits p : number (digits p) = p.
Proof. induction p as [p IH|p IH|]; cbn [digits number]; [| |done]; by rewrite IH. Qed.

Definition failure_fields (f : BatchItemFailure unit) :=
  (fa_index f, fa_taskIdentifier f, fa_payload f, fa_options f, fa_error f, fa_errorCode f, fa_timestamp f).

Definition sample_stringify (f : BatchItemFailure unit) : string := digits (encode (failure_fields f)).

Definition sample_parse (t : string) : option (BatchItemFailure unit) :=
  (λ '(i, task, pl, o, e, c, z), MkFailure i task pl o e c z) <$> decode (number t).

Lemma sample_roundtrip f : sample_parse (sample_stringify f) = Some f.
Proof. unfold sample_parse, sample_stringify. rewrite number_digits, decode_encode. by destruct f. Qed.

(** ** The queue *)

Notation sample_payload := (BatchItemPayload unit).
Notation sample_value := (fq_value sample_payload (BatchMeta unit)).
Notation sample_db := (mem sample_value).
Notation sample_world := (fq_world sample_db unit).

Definition sample_retry : BatchRetryOptions :=
  MkBatchRetry 3 (Some 100) (Some 1000) None (Some false).

Definition sample_options : BatchQueueOptions :=
  MkBatchQueueOptions 5 50 None (Some 1) None None (Some sample_retry).

Definition sample_pow : spec_float → spec_float → spec_float := λ _ _, double_of_Z 1.

(** The callback creates the run "run-i" for the item [i], and fails for negative items. *)
Definition sample_process (params : ProcessParams unit) : FqM sample_db unit item_reply :=
  if pp_itemIndex params <? 0 then ret (ItemFailure "no such item" None None)
  else ret (ItemSuccess ("run-" +:+ pretty (pp_itemIndex params))).

Definition sample_complete (r : CompleteBatchResult unit) : FqM sample_db unit unit := ret tt.

Definition sample_queue : string → string := λ _, makeQueueId "prod" "b1".

Definition sample_item : string → string * Z := λ m, ("b1", if bool_decide (m = "m1") then 0 else 1).

Definition sample_limit : string → Z := λ _, 10.

Notation sample_fo := (fairQueueOptions (S := unit) (db := sample_db) sample_pow sample_options).
Notation sample_home := (item_home (J := unit) sample_queue sample_item).
Notation sample_shard := (getShardForQueue fq_sha256 sample_fo).
Notation sample_shardT := (getShardForTenant fq_sha256 sample_fo).

Lemma sample_shards : 1 ≤ shardCount sample_fo.
Proof. done. Qed.

Lemma sample_default e : defaultConcurrency sample_options ≤ sample_limit e.
Proof. done. Qed.

(** The callbacks leave the world alone. *)
Lemma sample_quiet : quiet_callbacks (Some sample_process) (Some sample_complete).
Proof.
  split; intros f [= <-]; [|done]. intros params w. unfold sample_process. by case_match.
Qed.

Definition sample_empty : fq_state sample_db unit := FqState (mem_empty (0, 0)) ∅ ∅ tt.

Lemma sample_empty_ok kept :
  from_option (λ p, settled p.1 p.2 (fw_redis sample_empty)) True kept →
  st_ok keyProducer sample_home sample_shard sample_shardT ["tenant"]
    (batch_bound sample_options sample_limit kept) sample_empty.
Proof.
  intros Hk. split; [|intros q d; cbn; by rewrite lookup_empty]. apply good_empty; [done|]. split; [|done].
  intros e. unfold getEnvConcurrency. cbn. by rewrite lookup_empty.
Qed.

(** ** Calls *)

Definition sample_initialize (n : Z) : InitializeBatchOptions unit :=
  MkInitialize "b1" "batch_1" "prod" "PRODUCTION" "org" "proj" n None None None None None None None
    (Some 3) None None.

Definition sample_task : BatchItem unit := MkBatchItem "send-email" (Some (JText "hello")) None None.

(** A batch with two items: both are enqueued and dispatched to the worker queue, and the
    first is processed. *)
Definition sample_calls : list (batch_call (J := unit)) :=
  [CallInitialize 100 (sample_initialize 2); CallItem 101 "m1" "b1" "prod" 0 sample_task;
   CallItem 102 "m2" "b1" "prod" 1 sample_task; CallDispatch 200 "loop" 0;
   CallWorker 300 (S754_zero false)].

Notation sample_run :=
  (run_batch fq_sha256 sample_pow sample_stringify sample_parse (λ _, "") (λ _, "") sample_options
     (Some sample_process) (Some sample_complete)).

Lemma sample_wf_batch : wf_batch_id "b1".
Proof. split; [done|]. unfold reserved. by repeat (apply not_elem_of_cons; split; [done|]); apply not_elem_of_nil. Qed.

Lemma sample_calls_ok : Forall (batch_call_ok sample_limit sample_queue sample_item None) sample_calls.
Proof.
  pose proof sample_wf_batch. repeat constructor; cbn; try done; by apply H.
Qed.

(** ** Witnesses *)

(** Item 0 is delivered twice, item 1 fails. *)
Definition sample_failure : BatchItemFailure unit := MkFailure 1 "send-email" None None "boom" None 7.

Definition sample_ops : list (tracker_op (J := unit)) :=
  [RecordSuccess "b1" "run-0" 0; RecordSuccess "b1" "run-9" 0; RecordFailure "b1" sample_failure].

Lemma sample_tracks_empty : tracks sample_stringify "b1" (fw_redis sample_empty) [].
Proof. split; [constructor|..]; cbn; by rewrite ?lookup_empty. Qed.

Lemma tracker_refines_log_witness :
  tracks sample_stringify "b1" (run_ops sample_stringify sample_ops (fw_redis sample_empty))
    [(0, Succeeded "run-0"); (1, Failed sample_failure)] ∧
  read_count (processedCountKey "b1") (run_ops sample_stringify sample_ops (fw_redis sample_empty)) = Some 2.
Proof.
  exact (tracker_refines_log sample_stringify sample_ops "b1" (fw_redis sample_empty) [] eq_refl
    ltac:(by repeat constructor) sample_tracks_empty).
Defined.

Lemma final_count_seen_once_witness :
  counted_to sample_stringify 2 sample_ops (fw_redis sample_empty) = 1%nat.
Proof.
  exact (final_count_seen_once sample_stringify 2 sample_ops "b1" (fw_redis sample_empty) [] eq_refl
    ltac:(by repeat constructor) sample_tracks_empty ltac:(done)).
Defined.


(** The state after the first [n] calls. *)
Definition sample_state (n : nat) : fq_state sample_db unit :=
  fw_state (sample_run (take n sample_calls) (FqWorld sample_empty [])).

Lemma sample_state_ok n :
  st_ok keyProducer sample_home sample_shard sample_shardT ["tenant"]
    (batch_bound sample_options sample_limit None) (sample_state n).
Proof.
  pose proof (run_batch_trace fq_sha256 sample_pow sample_stringify sample_parse (λ _, "") (λ _, "") sample_options
    (Some sample_process) (Some sample_complete) sample_limit sample_queue sample_item sample_shards sample_default
    (take n sample_calls) (FqWorld sample_empty [])) as Ht.
  eapply (moves_ok keyProducer); [apply tenant_names| |by apply sample_empty_ok].
  apply Ht; [apply quiet_ok, sample_quiet|apply Forall_take, sample_calls_ok|]. split; [by apply sample_empty_ok|done].
Qed.

Lemma enqueue_item_outcome_witness :
  let '(r, w) := enqueueBatchItem fq_sha256 sample_pow sample_options 103 "m3" "b1" "prod" 1 sample_task
                   (FqWorld (sample_state 2) []) in
  r = Ok true ∧ ms_wait (mview keyProducer sample_home sample_shard "m3" (db_of w)) = Some 101 ∧
  mview keyProducer sample_home sample_shard "m1" (db_of w) =
  mview keyProducer sample_home sample_shard "m1" (fw_redis (sample_state 2)).
Proof.
  pose proof (enqueue_item_outcome fq_sha256 sample_pow sample_stringify sample_parse sample_options sample_limit
    sample_queue sample_item sample_shards sample_default 103 "m3" "b1" "prod" 1 sample_task (sample_state 2) eq_refl eq_refl
    (conj eq_refl eq_refl) (conj eq_refl eq_refl) sample_wf_batch (sample_state_ok 2)) as H. cbv zeta in H.
  assert (∃ meta, GET (metaKey "b1") (fw_redis (sample_state 2)) = Some (FOther meta) ∧ me_createdAt meta = 100) as (meta & Hm & Hc)
    by (eexists; vm_compute; split; reflexivity).
  rewrite Hm, bool_decide_false in H by (apply (bool_decide_eq_false (pretty 1 ∈ _)); by vm_compute). destruct (enqueueBatchItem _ _ _ _ _ _ _ _ _ _) as [r w]. destruct H as (_ & Hr & Hw & _ & Ho).
  split; [exact Hr|]. split; [by rewrite Hw, Hc|]. exact (Ho "m1" (conj eq_refl eq_refl) ltac:(discriminate)).
Defined.

(** The delays of this queue are numbers. *)
Lemma sample_finite random : finite_delays sample_pow sample_options random.
Proof.
  intros r attempt [= <-]. cbn [getNextDelay ExponentialBackoffRetry]. case_match; [done|].
  unfold Retry.calculateNextRetryDelay. cbn [Retry.merge_options Retry.with_default exponential_options Retry.maxAttempts
    Retry.factor Retry.minTimeoutInMs Retry.maxTimeoutInMs Retry.randomize default from_option].
  case_match; [done|]. intros Hd. vm_compute in Hd. discriminate Hd.
Qed.

(** Both items are dispatched and a worker processes the first. *)
Lemma batch_items_accounted_witness :
  accounted (S := unit) fq_sha256 sample_pow sample_options sample_queue sample_item "m2"
    (db_of (sample_run [CallDispatch 200 "loop" 0; CallWorker 300 (S754_zero false)] (FqWorld (sample_state 3) []))).
Proof.
  refine (batch_items_accounted fq_sha256 sample_pow sample_stringify sample_parse (λ _, "") (λ _, "") sample_options
    (Some sample_process) (Some sample_complete) sample_limit sample_queue sample_item sample_shards sample_default
    sample_quiet [CallDispatch 200 "loop" 0; CallWorker 300 (S754_zero false)] "m2" (sample_state 3)
    (conj eq_refl eq_refl) sample_wf_batch _ (sample_state_ok 3) _).
  - repeat constructor. apply sample_finite.
  - left. left. split; vm_compute; by eexists.
Defined.

Lemma completion_result_counts_witness :
  ∃ r, getCompletionResult sample_parse "b1"
    (FqWorld (with_redis (run_ops sample_stringify sample_ops (fw_redis sample_empty)) sample_empty) []) =
    (Ok r, FqWorld (with_redis (run_ops sample_stringify sample_ops (fw_redis sample_empty)) sample_empty) []) ∧
    cr_failures r = [sample_failure] ∧ cr_successfulRunCount r + cr_failedRunCount r = 2.
Proof.
  destruct (completion_result_counts sample_stringify sample_parse "b1" [(0, Succeeded "run-0"); (1, Failed sample_failure)]
    (with_redis (run_ops sample_stringify sample_ops (fw_redis sample_empty)) sample_empty) sample_roundtrip)
    as (r & Hrun & _ & Hf & _ & _ & _ & Hc).
  { split; vm_compute; try reflexivity. repeat constructor; [|set_solver]. by intros ?%list_elem_of_singleton. }
  exists r. split; [exact Hrun|]. split; [exact Hf|]. apply Hc. apply NoDup_singleton.
Defined.

Definition sample_stored (m : string) (i : Z) : StoredMessage sample_payload :=
  new_message sample_fo m (makeQueueId "prod" "b1") "prod" (MkPayload "b1" "batch_1" i sample_task) (100 + i)
    (Some {["batchId" := "b1"; "friendlyId" := "batch_1"; "envId" := "prod"]}).

Notation sample_handle :=
  (handleMessage fq_sha256 sample_pow sample_stringify sample_parse (λ _, "") (λ _, "") sample_options
     (Some sample_process) (Some sample_complete)).

Lemma handled_item_recorded_witness :
  ∃ st1, sample_handle 300 (S754_zero false) "m1" (sample_queue "m1") (FqWorld (sample_state 4) []) = (Ok tt, FqWorld st1 []) ∧
    tracks sample_stringify "b1" (fw_redis st1) [(0, Succeeded "run-0")] ∧
    mview keyProducer sample_home sample_shard "m2" (fw_redis st1) =
    mview keyProducer sample_home sample_shard "m2" (fw_redis (sample_state 4)).
Proof.
  destruct (handled_item_recorded fq_sha256 sample_pow sample_stringify sample_parse (λ _, "") (λ _, "") sample_options
    sample_process (Some sample_complete) sample_limit sample_queue sample_item sample_shards 300 (S754_zero false) "m1"
    (sample_stored "m1" 0) (batch_meta 100 (sample_initialize 2)) (ItemSuccess "run-0") [] (sample_state 4)
    (conj eq_refl eq_refl) (sample_state_ok 4)) as (st1 & Hrun & Ht & _ & _ & Ho).
  - by vm_compute.
  - by vm_compute.
  - split; [constructor|..]; by vm_compute.
  - reflexivity.
  - reflexivity.
  - by vm_compute.
  - exists st1. split; [exact Hrun|]. split; [exact Ht|]. exact (Ho "m2" (conj eq_refl eq_refl) ltac:(discriminate)).
Defined.

Lemma last_item_completes_witness :
  ∃ st2, sample_handle 400 (S754_zero false) "m2" (sample_queue "m2") (FqWorld (sample_state 5) []) = (Ok tt, FqWorld st2 []) ∧
    GET (metaKey "b1") (fw_redis st2) = None.
Proof.
  destruct (last_item_completes fq_sha256 sample_pow sample_stringify sample_parse (λ _, "") (λ _, "") sample_options
    sample_process (Some sample_complete) sample_limit sample_queue sample_item sample_shards 400 (S754_zero false) "m2"
    (sample_stored "m2" 1) (batch_meta 100 (sample_initialize 2)) (ItemSuccess "run-1") [(0, Succeeded "run-0")]
    sample_complete (sample_state 5) (conj eq_refl eq_refl) (sample_state_ok 5)) as (st1 & r & Hrun & _ & _ & _ & Hend).
  - by vm_compute.
  - by vm_compute.
  - split; [apply NoDup_singleton|..]; by vm_compute.
  - reflexivity.
  - reflexivity.
  - reflexivity.
  - exact sample_roundtrip.
  - by vm_compute.
  - destruct (Hend eq_refl) as (st2 & H2 & Hm & _). exists st2. split; [exact H2|exact Hm].
Defined.
