(* ===== verification/BatchDivergences.v ===== *)
(** * BatchDivergences: where the batch queue loses an item

    An interleaving in which a worker completes a message that another delivery owns. *)

From Stdlib Require Import SpecFloat.
From stdpp Require Import pretty.
From S2P Require Import Prelude Text Redis Listing JumpHash Messages SimpleQueue FairKeys FairScripts FairRetry.
From S2P Require Import Effect FairWorld FairManagers FairSchedulers FairQueue FairSystem FairSteps.
From S2P Require Import FairLevels FairInvariants FairTraces FairMethods FairPolicies FairSamples FairTheorems.
From S2P Require Import FairOutcomes BatchTracker BatchCounting BatchQueue BatchTraces BatchTheorems.
From S2P Require Import BatchAccounting BatchOutcomes BatchSamples.
Local Open Scope Z_scope.

(** A batch of one item: it is enqueued at 101, dispatched at 200, and its visibility
    timeout passes before a worker takes it from the worker queue. *)
Definition late_calls : list (batch_call (J := unit)) :=
  [CallInitialize 100 (sample_initialize 1); CallItem 101 "m1" "b1" "prod" 0 sample_task;
   CallDispatch 200 "loop" 0; CallTimeouts 70000].

Definition late_state : fq_state sample_db unit := fw_state (sample_run late_calls (FqWorld sample_empty [])).

(** A consumer of another process has its turn. *)
Definition other_consumer (st : fq_state sample_db unit) : fq_state sample_db unit :=
  fw_state (sample_run [CallDispatch 70001 "loop" 0] (FqWorld st [])).

(** The worker takes the message, and finds no data in flight; before its next command the
    other consumer claims the message again. *)
Definition late_worker : fq_state sample_db unit :=
  fw_state (sample_run [CallWorker 70000 (S754_zero false)] (FqWorld late_state [id; id; other_consumer])).

