(* ===== verification/EngineErrors.v ===== *)
(** * EngineErrors: the errors of runs and what becomes of a failed attempt

    The statuses of a run (engine/statuses.ts), the errors a run fails with and the
    tests on them (packages/core/src/v3/errors.ts), the final status of a failed run
    (engine/errors.ts) and the decision between a retry and a failure
    (engine/retrying.ts).

    [retryOutcomeFromCompletion] reads the row of the run; the row is an argument
    here, [None] when there is none.  Links shown next to an error are left out. *)

From Stdlib Require Import SpecFloat.
From S2P Require Import Prelude Text Messages Retry.
Local Open Scope Z_scope.

(** ** Statuses *)

(** [TaskRunStatus]: what a user sees. *)
Inductive TaskRunStatus : Type :=
| Run_DELAYED | Run_PENDING | Run_PENDING_VERSION | Run_WAITING_FOR_DEPLOY | Run_DEQUEUED
| Run_EXECUTING | Run_WAITING_TO_RESUME | Run_RETRYING_AFTER_FAILURE | Run_PAUSED
| Run_CANCELED | Run_INTERRUPTED | Run_COMPLETED_SUCCESSFULLY | Run_COMPLETED_WITH_ERRORS
| Run_SYSTEM_FAILURE | Run_CRASHED | Run_EXPIRED | Run_TIMED_OUT.

(** [TaskRunExecutionStatus]: the state of the engine. *)
Inductive TaskRunExecutionStatus : Type :=
| Exec_RUN_CREATED | Exec_DELAYED | Exec_QUEUED | Exec_QUEUED_EXECUTING | Exec_PENDING_EXECUTING
| Exec_EXECUTING | Exec_EXECUTING_WITH_WAITPOINTS | Exec_SUSPENDED | Exec_PENDING_CANCEL
| Exec_FINISHED.

#[export] Instance run_status_eq_dec : EqDecision TaskRunStatus.
Proof. solve_decision. Defined.
#[export] Instance environment_type_eq_dec : EqDecision RuntimeEnvironmentType.
Proof. solve_decision. Defined.
#[export] Instance exec_status_eq_dec : EqDecision TaskRunExecutionStatus.
Proof. solve_decision. Defined.

Definition isDequeueableExecutionStatus (status : TaskRunExecutionStatus) : bool :=
  bool_decide (status ∈ [Exec_QUEUED; Exec_QUEUED_EXECUTING]).

Definition isExecuting (status : TaskRunExecutionStatus) : bool :=
  bool_decide (status ∈ [Exec_EXECUTING; Exec_EXECUTING_WITH_WAITPOINTS]).

Definition isPendingExecuting (status : TaskRunExecutionStatus) : bool :=
  bool_decide (status ∈ [Exec_PENDING_EXECUTING]).

Definition isCheckpointable (status : TaskRunExecutionStatus) : bool :=
  bool_decide (status ∈ [Exec_RUN_CREATED; Exec_QUEUED; Exec_EXECUTING;
                         Exec_EXECUTING_WITH_WAITPOINTS; Exec_QUEUED_EXECUTING]).

Definition isFinishedOrPendingFinished (status : TaskRunExecutionStatus) : bool :=
  bool_decide (status ∈ [Exec_FINISHED; Exec_PENDING_CANCEL]).

Definition isInitialState (status : TaskRunExecutionStatus) : bool :=
  bool_decide (status ∈ [Exec_RUN_CREATED; Exec_DELAYED]).

Definition finalStatuses : list TaskRunStatus :=
  [Run_CANCELED; Run_INTERRUPTED; Run_COMPLETED_SUCCESSFULLY; Run_COMPLETED_WITH_ERRORS;
   Run_SYSTEM_FAILURE; Run_CRASHED; Run_EXPIRED; Run_TIMED_OUT].

Definition isFinalRunStatus (status : TaskRunStatus) : bool := bool_decide (status ∈ finalStatuses).

(** ** Errors *)

(** [TaskRunInternalError.code]. *)
Inductive TaskRunErrorCode : Type :=
| COULD_NOT_FIND_EXECUTOR | COULD_NOT_FIND_TASK | COULD_NOT_IMPORT_TASK | CONFIGURED_INCORRECTLY
| TASK_ALREADY_RUNNING | TASK_EXECUTION_FAILED | TASK_EXECUTION_ABORTED
| TASK_PROCESS_EXITED_WITH_NON_ZERO_CODE | TASK_PROCESS_SIGKILL_TIMEOUT | TASK_PROCESS_SIGSEGV
| TASK_PROCESS_SIGTERM | TASK_PROCESS_OOM_KILLED | TASK_PROCESS_MAYBE_OOM_KILLED
| TASK_RUN_CANCELLED | TASK_INPUT_ERROR | TASK_OUTPUT_ERROR | TASK_MIDDLEWARE_ERROR
| HANDLE_ERROR_ERROR | GRACEFUL_EXIT_TIMEOUT | TASK_RUN_HEARTBEAT_TIMEOUT | TASK_RUN_CRASHED
| MAX_DURATION_EXCEEDED | DISK_SPACE_EXCEEDED | POD_EVICTED | POD_UNKNOWN_ERROR
| TASK_HAS_N0_EXECUTION_SNAPSHOT | TASK_DEQUEUED_INVALID_STATE | TASK_DEQUEUED_QUEUE_NOT_FOUND
| TASK_RUN_DEQUEUED_MAX_RETRIES | TASK_RUN_STALLED_EXECUTING
| TASK_RUN_STALLED_EXECUTING_WITH_WAITPOINTS | OUTDATED_SDK_VERSION | TASK_DID_CONCURRENT_WAIT
| RECURSIVE_WAIT_DEADLOCK | BATCH_ITEM_COULD_NOT_TRIGGER | PAYLOAD_TOO_LARGE | UNSPECIFIED_ERROR.

#[export] Instance error_code_eq_dec : EqDecision TaskRunErrorCode.
Proof. solve_decision. Defined.

(** [TaskRunError]. *)
Inductive TaskRunError : Type :=
| BUILT_IN_ERROR (name message stackTrace : string)
| CUSTOM_ERROR (raw : string)
| STRING_ERROR (raw : string)
| INTERNAL_ERROR (code : TaskRunErrorCode) (message stackTrace : option string).

(** [text.replace(/\0/g, "")]. *)
Fixpoint strip_nul (s : string) : string :=
  match s with
  | EmptyString => EmptyString
  | String c s =>
      if bool_decide (c = Ascii.zero) then strip_nul s else String c (strip_nul s)
  end.

Definition sanitizeError (error : TaskRunError) : TaskRunError :=
  match error with
  | BUILT_IN_ERROR name message stackTrace =>
      BUILT_IN_ERROR (strip_nul name) (strip_nul message) (strip_nul stackTrace)
  | STRING_ERROR raw => STRING_ERROR (strip_nul raw)
  | CUSTOM_ERROR raw => CUSTOM_ERROR (strip_nul raw)
  | INTERNAL_ERROR code message stackTrace =>
      INTERNAL_ERROR code (strip_nul <$> message) (strip_nul <$> stackTrace)
  end.

Definition MANUAL_OOM_KILL_ERROR_MESSAGE : string := "MANUAL_OOM_KILL_ERROR".

Definition isManualOutOfMemoryError (error : TaskRunError) : bool :=
  match error with
  | BUILT_IN_ERROR _ message _ => bool_decide (message = MANUAL_OOM_KILL_ERROR_MESSAGE)
  | _ => false
  end.

Definition oomIndicators : list string :=
  ["JavaScript heap out of memory"; "Reached heap limit";
   "FATAL ERROR: Reached heap limit Allocation failed"].

Definition isOOMRunError (error : TaskRunError) : bool :=
  match error with
  | INTERNAL_ERROR code message stackTrace =>
      bool_decide (code = TASK_PROCESS_OOM_KILLED) ||
      bool_decide (code = TASK_PROCESS_MAYBE_OOM_KILLED) ||
      (bool_decide (code = TASK_PROCESS_EXITED_WITH_NON_ZERO_CODE) &&
       match message with
       | Some message =>
           includes "-1" message &&
           (includes "SIGKILL" message ||
            (includes "SIGABRT" message &&
             match stackTrace with
             | Some trace => existsb (λ i, includes i trace) oomIndicators
             | None => false
             end))
       | None => false
       end)
  | BUILT_IN_ERROR _ message _ =>
      includes "ffmpeg was killed with signal SIGKILL" message || isManualOutOfMemoryError error
  | _ => false
  end.

(** [findSignalInMessage]: the first of the signals named in the first 100 characters. *)
Definition findSignalInMessage (message : option string) : option string :=
  message ← message;
  let trunc := String.substring 0 100 message in
  if includes "SIGTERM" trunc then Some "SIGTERM"
  else if includes "SIGSEGV" trunc then Some "SIGSEGV"
  else if includes "SIGKILL" trunc then Some "SIGKILL"
  else if includes "SIGABRT" trunc then Some "SIGABRT"
  else None.

(** The messages of [prettyInternalErrors]. *)
Definition prettyInternalErrors (code : TaskRunErrorCode) : option string :=
  match code with
  | TASK_PROCESS_OOM_KILLED | TASK_PROCESS_MAYBE_OOM_KILLED =>
      Some "Your run was terminated due to exceeding the machine's memory limit. Try increasing the machine preset in your task options or replay using a larger machine."
  | TASK_PROCESS_SIGSEGV =>
      Some "Your task crashed with a segmentation fault (SIGSEGV). Most likely there's a bug in a package or binary you're using. If this keeps happening and you're unsure why, please get in touch."
  | TASK_PROCESS_SIGTERM =>
      Some "Your task exited after receiving SIGTERM but we don't know why. If this keeps happening, please get in touch so we can investigate."
  | OUTDATED_SDK_VERSION =>
      Some "Your task is using an outdated version of the SDK. Please upgrade to the latest version."
  | TASK_DID_CONCURRENT_WAIT =>
      Some "Parallel waits are not supported, e.g. using Promise.all() around our wait functions."
  | RECURSIVE_WAIT_DEADLOCK =>
      Some "This run will never execute because it was triggered recursively and the task has no remaining concurrency available."
  | _ => None
  end.

Definition getPrettyTaskRunError (code : TaskRunErrorCode) : TaskRunError :=
  INTERNAL_ERROR code (prettyInternalErrors code) None.

(** The error for a process that ended with a signal, or with a code. *)
Definition signal_error (signal : option string) (message stackTrace : option string) : TaskRunError :=
  match signal with
  | Some "SIGTERM" => getPrettyTaskRunError TASK_PROCESS_SIGTERM
  | Some "SIGSEGV" => getPrettyTaskRunError TASK_PROCESS_SIGSEGV
  | Some "SIGKILL" | Some "SIGABRT" => getPrettyTaskRunError TASK_PROCESS_MAYBE_OOM_KILLED
  | _ => INTERNAL_ERROR TASK_PROCESS_EXITED_WITH_NON_ZERO_CODE message stackTrace
  end.

Definition taskRunErrorEnhancer (error : TaskRunError) : TaskRunError :=
  match error with
  | BUILT_IN_ERROR name message stackTrace =>
      if bool_decide (name = "UnexpectedExitError") &&
         starts_with "Unexpected exit with code -1" message
      then signal_error (findSignalInMessage (Some stackTrace)) (Some message) (Some stackTrace)
      else if bool_decide (name = "Error") &&
              bool_decide (message = "ffmpeg was killed with signal SIGKILL")
      then getPrettyTaskRunError TASK_PROCESS_OOM_KILLED
      else if isManualOutOfMemoryError error then getPrettyTaskRunError TASK_PROCESS_OOM_KILLED
      else if bool_decide (name = "TriggerApiError") && starts_with "Deadlock detected:" message
      then BUILT_IN_ERROR "Concurrency Deadlock Error" message ""
      else error
  | STRING_ERROR _ | CUSTOM_ERROR _ => error
  | INTERNAL_ERROR code message stackTrace =>
      if bool_decide (code = TASK_PROCESS_EXITED_WITH_NON_ZERO_CODE)
      then signal_error (findSignalInMessage message) message stackTrace
      else INTERNAL_ERROR code (with_default message (prettyInternalErrors code)) stackTrace
  end.

Definition shouldRetryError (error : TaskRunError) : bool :=
  match error with
  | INTERNAL_ERROR code _ _ =>
      match code with
      | COULD_NOT_FIND_EXECUTOR | COULD_NOT_FIND_TASK | COULD_NOT_IMPORT_TASK
      | CONFIGURED_INCORRECTLY | TASK_ALREADY_RUNNING | TASK_PROCESS_SIGKILL_TIMEOUT
      | TASK_PROCESS_SIGSEGV | TASK_PROCESS_OOM_KILLED | TASK_PROCESS_MAYBE_OOM_KILLED
      | TASK_RUN_CANCELLED | MAX_DURATION_EXCEEDED | DISK_SPACE_EXCEEDED | OUTDATED_SDK_VERSION
      | TASK_RUN_HEARTBEAT_TIMEOUT | TASK_DID_CONCURRENT_WAIT | RECURSIVE_WAIT_DEADLOCK
      | TASK_DEQUEUED_INVALID_STATE | TASK_DEQUEUED_QUEUE_NOT_FOUND
      | TASK_HAS_N0_EXECUTION_SNAPSHOT | TASK_RUN_DEQUEUED_MAX_RETRIES
      | BATCH_ITEM_COULD_NOT_TRIGGER | PAYLOAD_TOO_LARGE | UNSPECIFIED_ERROR => false
      | TASK_RUN_STALLED_EXECUTING | TASK_RUN_STALLED_EXECUTING_WITH_WAITPOINTS
      | GRACEFUL_EXIT_TIMEOUT | HANDLE_ERROR_ERROR | TASK_INPUT_ERROR | TASK_OUTPUT_ERROR
      | TASK_MIDDLEWARE_ERROR | POD_EVICTED | POD_UNKNOWN_ERROR | TASK_EXECUTION_ABORTED
      | TASK_EXECUTION_FAILED | TASK_RUN_CRASHED | TASK_PROCESS_EXITED_WITH_NON_ZERO_CODE
      | TASK_PROCESS_SIGTERM => true
      end
  | STRING_ERROR _ | BUILT_IN_ERROR _ _ _ | CUSTOM_ERROR _ => true
  end.

Definition shouldLookupRetrySettings (error : TaskRunError) : bool :=
  match error with
  | INTERNAL_ERROR code _ _ =>
      bool_decide (code ∈ [TASK_PROCESS_EXITED_WITH_NON_ZERO_CODE; TASK_PROCESS_SIGTERM;
                           TASK_PROCESS_SIGSEGV])
  | _ => false
  end.

(** [runStatusFromError]. *)
Definition runStatusFromError (error : TaskRunError) (environmentType : RuntimeEnvironmentType)
    : TaskRunStatus :=
  match error with
  | INTERNAL_ERROR code _ _ =>
      match code with
      | RECURSIVE_WAIT_DEADLOCK | TASK_INPUT_ERROR | TASK_OUTPUT_ERROR | TASK_MIDDLEWARE_ERROR =>
          Run_COMPLETED_WITH_ERRORS
      | TASK_RUN_CANCELLED => Run_CANCELED
      | MAX_DURATION_EXCEEDED => Run_TIMED_OUT
      | TASK_RUN_STALLED_EXECUTING | TASK_RUN_STALLED_EXECUTING_WITH_WAITPOINTS =>
          if bool_decide (environmentType = DEVELOPMENT) then Run_CANCELED
          else Run_COMPLETED_WITH_ERRORS
      | TASK_PROCESS_OOM_KILLED | TASK_PROCESS_MAYBE_OOM_KILLED | TASK_PROCESS_SIGSEGV
      | DISK_SPACE_EXCEEDED | OUTDATED_SDK_VERSION | HANDLE_ERROR_ERROR | TASK_RUN_CRASHED
      | TASK_PROCESS_EXITED_WITH_NON_ZERO_CODE => Run_CRASHED
      | _ => Run_SYSTEM_FAILURE
      end
  | _ => Run_COMPLETED_WITH_ERRORS
  end.

(** ** Retry or failure *)

Definition MAX_TASK_RUN_ATTEMPTS : Z := 250.

(** [TaskRunExecutionRetry]. *)
Record TaskRunExecutionRetry : Type := MkRetry {
  retry_timestamp : Z;
  retry_delay : Z;
}.

(** A column that holds [RetryOptions] as JSON: absent, not parsable as such, [null], or
    the options with the machine for retries after an out-of-memory error. *)
Inductive retry_config : Type :=
| ConfigInvalid
| ConfigNull
| ConfigOptions (options : RetryOptions) (outOfMemory_machine : option string).

(** What is read of the row of the run. *)
Record retry_run : Type := MkRetryRun {
  rr_maxAttempts : option Z;
  rr_lockedRetryConfig : option retry_config;
  rr_usageDurationMs : Z;
  rr_costInCents : spec_float;
  rr_machinePreset : option string;
}.

Inductive retry_method : Type := RetryQueue | RetryImmediate.

(** [RetryOutcome]; the last case has the current usage of the run. *)
Inductive RetryOutcome : Type :=
| cancel_run (reason : option string)
| fail_run (sanitizedError : TaskRunError) (wasOOMError : bool)
| retry (method : retry_method) (settings : TaskRunExecutionRetry) (machine : option string)
    (wasOOMError : bool) (usageDurationMs : Z) (costInCents : spec_float)
    (machinePreset : option string).

(** A number that is neither 0 nor [NaN], or a text that is not empty. *)
Definition nonzero (n : option Z) : option Z := n ← n; if n =? 0 then None else Some n.
Definition nonempty_text (t : option string) : option string :=
  t ← t; if truthy t then Some t else None.

(** [retryOOMOnMachine]: the machine and the options to retry with. *)
Definition retryOOMOnMachine (run : option retry_run) : option (string * RetryOptions * retry_run) :=
  run ← run;
  config ← rr_lockedRetryConfig run;
  machinePreset ← nonempty_text (rr_machinePreset run);
  match config with
  | ConfigOptions options machine =>
      retryMachine ← nonempty_text machine;
      if bool_decide (machinePreset = retryMachine) then None else Some (retryMachine, options, run)
  | _ => None
  end.

Section RetryOutcome.
Context (random : spec_float) (pow : spec_float → spec_float → spec_float).

(** [calculateNextRetryDelay(...)], as a number that is not 0. *)
Definition next_delay (options : RetryOptions) (attemptNumber : option Z) : option Z :=
  nonzero (default None (calculateNextRetryDelay random pow options (default 1 attemptNumber))).

(** The reason of an error that says the run was cancelled. *)
Definition cancelled (error : TaskRunError) : option (option string) :=
  match error with
  | INTERNAL_ERROR code message _ =>
      if bool_decide (code = TASK_RUN_CANCELLED) then Some message else None
  | _ => None
  end.

(** After an out-of-memory error: a retry on a larger machine, or failure. *)
Definition oom_outcome (now : Z) (run : option retry_run) (attemptNumber : option Z)
    (sanitizedError : TaskRunError) : RetryOutcome :=
  match retryOOMOnMachine run with
  | None => fail_run sanitizedError true
  | Some (machine, options, run) =>
      match next_delay options attemptNumber with
      | None => fail_run sanitizedError true
      | Some delay =>
          retry RetryQueue (MkRetry (now + delay) delay) (Some machine) true
            (rr_usageDurationMs run) (rr_costInCents run) (rr_machinePreset run)
      end
  end.

(** The method and the time of a retry of [run], if there is to be one. *)
Definition retry_settings (now : Z) (run : retry_run) (attemptNumber : option Z)
    (enhancedError : TaskRunError) (retryUsingQueue : bool)
    (retrySettings : option TaskRunExecutionRetry) : option (retry_method * TaskRunExecutionRetry) :=
  match retrySettings with
  | Some settings => Some (if retryUsingQueue then RetryQueue else RetryImmediate, settings)
  | None =>
      if negb (shouldLookupRetrySettings enhancedError) then None
      else
        match rr_lockedRetryConfig run with
        | Some (ConfigOptions options _) =>
            delay ← next_delay options attemptNumber;
            Some (RetryQueue, MkRetry (now + delay) delay)
        | _ => None
        end
  end.

(** [attemptNumber !== null && attemptNumber > n]. *)
Definition attempt_above (n : Z) (attemptNumber : option Z) : bool :=
  match attemptNumber with Some a => n <? a | None => false end.

(** [retryOutcomeFromCompletion]; the result is [None] when it throws "Run not found". *)
Definition retryOutcomeFromCompletion (now : Z) (run : option retry_run)
    (attemptNumber : option Z) (error : TaskRunError) (retryUsingQueue : bool)
    (retrySettings : option TaskRunExecutionRetry) : option RetryOutcome :=
  match cancelled error with
  | Some reason => Some (cancel_run reason)
  | None =>
      let sanitizedError := sanitizeError error in
      let failure := Some (fail_run sanitizedError false) in
      if isOOMRunError error then Some (oom_outcome now run attemptNumber sanitizedError)
      else if negb (shouldRetryError (taskRunErrorEnhancer error)) then failure
      else if attempt_above MAX_TASK_RUN_ATTEMPTS attemptNumber then failure
      else
        run ← run;
        match nonzero (rr_maxAttempts run) with
        | None => failure
        | Some maxAttempts =>
            if attempt_above (maxAttempts - 1) attemptNumber then failure
            else
              match retry_settings now run attemptNumber (taskRunErrorEnhancer error) retryUsingQueue
                      retrySettings with
              | None => failure
              | Some (method, settings) =>
                  Some (retry method settings None false (rr_usageDurationMs run)
                          (rr_costInCents run) (rr_machinePreset run))
              end
        end
  end.

End RetryOutcome.
