(* ===== verification/EngineProg.v ===== *)
(** * EngineProg: methods of many processes on shared stores

    A method of the run engine is a sequence of statements (a query, a command, a call of
    the job queue), each of which acts on the shared state at once; between two of them
    the statements of other methods run, in this process and in others.  [prog] is such a
    sequence, in which what follows a statement depends on its reply.

    [run_pool] runs a pool of methods by a schedule, a list of turns: a turn lets time
    pass and runs the next statement of one method.  A theorem on all schedules is one on
    all interleavings.

    The second half is a rely-guarantee logic.  Every thread [i] has a ghost value, and a
    thread may only move along [act i]; [safe i p Q x] says that [p], run by thread [i]
    from [x] while the others move, moves along [act i], keeps the invariant, and ends in
    [Q]; time passes before each statement.  [pool_safe] composes the threads. *)

From stdpp Require Import relations.
From S2P Require Import Prelude.

(** ** Programs *)

Section Prog.
Context {S E : Type}.

Inductive prog (A : Type) : Type :=
| Ret (a : A)
| Throw (e : E)
| Stmt {B : Type} (f : S → B * S) (k : B → prog A).
Arguments Ret {A}.
Arguments Throw {A}.
Arguments Stmt {A B}.

Fixpoint pbind {A B} (p : prog A) (f : A → prog B) : prog B :=
  match p with
  | Ret a => f a
  | Throw e => Throw e
  | Stmt g k => Stmt g (λ b, pbind (k b) f)
  end.

(** [try { p } catch (e) { h(e) }]. *)
Fixpoint pcatch {A} (p : prog A) (h : E → prog A) : prog A :=
  match p with
  | Ret a => Ret a
  | Throw e => h e
  | Stmt g k => Stmt g (λ b, pcatch (k b) h)
  end.

(** The outcome of [p] as a value. *)
Fixpoint ptry {A} (p : prog A) : prog (outcome E A) :=
  match p with
  | Ret a => Ret (Ok a)
  | Throw e => Ret (Err e)
  | Stmt g k => Stmt g (λ b, ptry (k b))
  end.

Definition of_outcome {A} (r : outcome E A) : prog A :=
  match r with Ok a => Ret a | Err e => Throw e end.

(** [p] run from its start to its end with nothing in between. *)
Fixpoint run_alone {A} (p : prog A) (s : S) : outcome E A * S :=
  match p with
  | Ret a => (Ok a, s)
  | Throw e => (Err e, s)
  | Stmt f k => let '(b, s) := f s in run_alone (k b) s
  end.

Lemma run_alone_bind {A B} (p : prog A) (f : A → prog B) s :
  run_alone (pbind p f) s =
  match run_alone p s with
  | (Ok a, s) => run_alone (f a) s
  | (Err e, s) => (Err e, s)
  end.
Proof. revert s. induction p; intros s; cbn; [done|done|]. destruct (f0 s). apply H. Qed.

Lemma run_alone_try {A} (p : prog A) s :
  run_alone (ptry p) s = let '(r, s) := run_alone p s in (Ok r, s).
Proof. revert s. induction p; intros s; cbn; [done|done|]. destruct (f s). apply H. Qed.

(** ** Pools *)

Definition ended {A} (p : prog A) : bool :=
  match p with Stmt _ _ => false | _ => true end.

Context (elapse : nat → S → S).

(** A turn [(i, d)]: [d] units of time pass, then thread [i] runs its next statement. *)
Definition turn {A} (t : nat * nat) (x : list (prog A) * S) : list (prog A) * S :=
  let s := elapse t.2 x.2 in
  match x.1 !! t.1 with
  | Some (Stmt f k) => let '(b, s) := f s in (<[t.1 := k b]> x.1, s)
  | _ => (x.1, s)
  end.

Definition run_pool {A} (schedule : list (nat * nat)) (x : list (prog A) * S) : list (prog A) * S :=
  foldl (λ x t, turn t x) x schedule.

(** [p] does not throw an error of [P], whatever its statements reply. *)
Fixpoint never {A} (P : E → Prop) (p : prog A) : Prop :=
  match p with
  | Ret _ => True
  | Throw e => ¬ P e
  | Stmt _ k => ∀ b, never P (k b)
  end.

Lemma never_bind {A B} P (p : prog A) (f : A → prog B) :
  never P p → (∀ a, never P (f a)) → never P (pbind p f).
Proof. intros Hp Hf. induction p; cbn in *; auto. Qed.

Lemma never_catch {A} P (p : prog A) (h : E → prog A) :
  never P p → (∀ e, never P (h e)) → never P (pcatch p h).
Proof. intros Hp Hf. induction p; cbn in *; auto. Qed.

(** A program that ends with the outcome of [p]. *)
Lemma never_try_bind {A B} P (p : prog A) (f : outcome E A → prog B) :
  never P p → (∀ a, never P (f (Ok a))) → (∀ e, ¬ P e → never P (f (Err e))) →
  never P (pbind (ptry p) f).
Proof. intros Hp Ha He. induction p; cbn in *; auto. Qed.

Lemma never_turn {A} P t (ps : list (prog A)) s i :
  (∀ p, ps !! i = Some p → never P p) →
  ∀ p, (turn t (ps, s)).1 !! i = Some p → never P p.
Proof.
  intros H p. unfold turn. cbn. destruct (ps !! t.1) as [[a|e|B f k]|] eqn:Hp; try by apply H.
  destruct (f (elapse t.2 s)) as [b s']. cbn. destruct (decide (i = t.1)) as [->|Hi].
  - rewrite list_lookup_insert_eq; [|by eapply lookup_lt_Some]. intros [= <-].
    apply (H (Stmt f k) Hp).
  - rewrite list_lookup_insert_ne by done. apply H.
Qed.

Lemma never_pool {A} P schedule (ps : list (prog A)) s i :
  (∀ p, ps !! i = Some p → never P p) →
  ∀ p, (run_pool schedule (ps, s)).1 !! i = Some p → never P p.
Proof.
  revert ps s. induction schedule as [|t schedule IH]; intros ps s H p; cbn; [apply H|].
  destruct (turn t (ps, s)) as [ps' s'] eqn:Ht. apply IH. intros q Hq.
  apply (never_turn P t ps s i H). by rewrite Ht.
Qed.

(** [p] only returns values of [P], whatever the states are in which its statements run. *)
Fixpoint yields {A} (P : A → Prop) (p : prog A) : Prop :=
  match p with
  | Ret a => P a
  | Throw _ => True
  | Stmt f k => ∀ s, yields P (k (f s).1)
  end.

Lemma yields_bind {A B} (P : A → Prop) (R : B → Prop) (p : prog A) (f : A → prog B) :
  yields P p → (∀ a, P a → yields R (f a)) → yields R (pbind p f).
Proof. intros Hp Hf. induction p; cbn in *; auto. Qed.

Lemma yields_turn {A} (P : A → Prop) t (ps : list (prog A)) s i :
  (∀ p, ps !! i = Some p → yields P p) →
  ∀ p, (turn t (ps, s)).1 !! i = Some p → yields P p.
Proof.
  intros H p. unfold turn. cbn. destruct (ps !! t.1) as [[a|e|B f k]|] eqn:Hp; try by apply H.
  destruct (f (elapse t.2 s)) as [b s'] eqn:Hf. cbn. destruct (decide (i = t.1)) as [->|Hi].
  - rewrite list_lookup_insert_eq; [|by eapply lookup_lt_Some]. intros [= <-].
    pose proof (H (Stmt f k) Hp (elapse t.2 s)) as Hy. by rewrite Hf in Hy.
  - rewrite list_lookup_insert_ne by done. apply H.
Qed.

(** So it does in every pool. *)
Lemma yields_pool {A} (P : A → Prop) schedule (ps : list (prog A)) s i p a :
  ps !! i = Some p → yields P p → (run_pool schedule (ps, s)).1 !! i = Some (Ret a) → P a.
Proof.
  intros Hp Hy. cut (∀ p, ps !! i = Some p → yields P p); [|intros q Hq; congruence]. clear p Hp Hy.
  revert ps s. induction schedule as [|t schedule IH]; intros ps s H; cbn; [by intros ?%H|].
  destruct (turn t (ps, s)) as [ps' s'] eqn:Ht. apply IH. intros q Hq.
  apply (yields_turn P t ps s i H). by rewrite Ht.
Qed.

(** ** The logic *)

Context {G : Type}.
Local Notation cfg := (S * (nat → G))%type.
Implicit Types (x y : cfg).

(** What is kept, and what a thread may do in one statement; letting time pass is
    allowed to everyone. *)
Context (inv : cfg → Prop) (act : nat → relation cfg).
Context (act_elapse : ∀ i d s γ, inv (s, γ) → inv (elapse d s, γ) ∧ act i (s, γ) (elapse d s, γ)).

(** The others move. *)
Definition other (i : nat) : relation cfg := λ x y, (∃ j, j ≠ i ∧ act j x y) ∧ inv y.
Definition rely (i : nat) : relation cfg := rtc (other i).

(** Thread [i] sets its ghost value. *)
Definition set_ghost (i : nat) (g : G) (γ : nat → G) : nat → G :=
  λ j, if decide (j = i) then g else γ j.

Fixpoint safe {A} (i : nat) (p : prog A) (Q : outcome E A → cfg → Prop) (x : cfg) : Prop :=
  ∀ y, rely i x y → inv y →
  match p with
  | Ret a => Q (Ok a) y
  | Throw e => Q (Err e) y
  | Stmt f k =>
      ∀ d, let s := elapse d y.1 in
      ∃ g, let y' := ((f s).2, set_ghost i g y.2) in
        act i (s, y.2) y' ∧ inv y' ∧ safe i (k (f s).1) Q y'
  end.

Lemma safe_rely {A} i (p : prog A) Q x y : rely i x y → safe i p Q x → safe i p Q y.
Proof.
  intros Hxy. destruct p; cbn; intros Hs z Hyz; apply Hs; (etrans; [exact Hxy|exact Hyz]).
Qed.

(** Safety is a property of the states others can reach. *)
Lemma safe_intro {A} i (p : prog A) Q x :
  (∀ y, rely i x y → inv y → safe i p Q y) → safe i p Q x.
Proof.
  intros H. destruct p; cbn in *; intros y Hxy Hy;
    (apply (H y Hxy Hy y); [reflexivity|exact Hy]).
Qed.

Lemma safe_bind {A B} i (p : prog A) (f : A → prog B) Q Q' x :
  safe i p Q x →
  (∀ a y, inv y → Q (Ok a) y → safe i (f a) Q' y) →
  (∀ e y, inv y → Q (Err e) y → Q' (Err e) y) →
  safe i (pbind p f) Q' x.
Proof.
  intros Hp Hf He. revert x Hp. induction p as [a|e|C g k IH]; intros x Hp; cbn in *.
  - apply safe_intro. intros y Hxy Hy. apply Hf; [done|]. by apply Hp.
  - intros y Hxy Hy. apply He; [done|]. by apply Hp.
  - intros y Hxy Hy d. destruct (Hp y Hxy Hy d) as (g' & Ha & Hi & Hs). exists g'.
    split; [done|]. split; [done|]. by apply IH.
Qed.

Lemma safe_catch {A} i (p : prog A) (h : E → prog A) Q Q' x :
  safe i p Q x →
  (∀ a y, inv y → Q (Ok a) y → Q' (Ok a) y) →
  (∀ e y, inv y → Q (Err e) y → safe i (h e) Q' y) →
  safe i (pcatch p h) Q' x.
Proof.
  intros Hp Hf He. revert x Hp. induction p as [a|e|C g k IH]; intros x Hp; cbn in *.
  - intros y Hxy Hy. apply Hf; [done|]. by apply Hp.
  - apply safe_intro. intros y Hxy Hy. apply He; [done|]. by apply Hp.
  - intros y Hxy Hy d. destruct (Hp y Hxy Hy d) as (g' & Ha & Hi & Hs). exists g'.
    split; [done|]. split; [done|]. by apply IH.
Qed.

Lemma safe_try {A} i (p : prog A) Q Q' x :
  safe i p Q x → (∀ r y, inv y → Q r y → Q' (Ok r) y) → safe i (ptry p) Q' x.
Proof.
  intros Hp Hf. revert x Hp. induction p as [a|e|C g k IH]; intros x Hp; cbn in *.
  - intros y Hxy Hy. apply Hf; [done|]. by apply Hp.
  - intros y Hxy Hy. apply Hf; [done|]. by apply Hp.
  - intros y Hxy Hy d. destruct (Hp y Hxy Hy d) as (g' & Ha & Hi & Hs). exists g'.
    split; [done|]. split; [done|]. by apply IH.
Qed.

Lemma safe_mono {A} i (p : prog A) Q Q' x :
  safe i p Q x → (∀ r y, inv y → Q r y → Q' r y) → safe i p Q' x.
Proof.
  intros Hp Hf. revert x Hp. induction p as [a|e|C g k IH]; intros x Hp; cbn in *;
    intros y Hxy Hy; [by apply Hf, Hp|by apply Hf, Hp|].
  intros d. destruct (Hp y Hxy Hy d) as (g' & Ha & Hi & Hs). exists g'.
  split; [done|]. split; [done|]. by apply IH.
Qed.

(** ** Assertions *)

(** An assertion of thread [i] that the others do not falsify. *)
Definition stable (i : nat) (P : cfg → Prop) : Prop :=
  ∀ j x y, j ≠ i → act j x y → inv y → P x → P y.

Lemma stable_rely i P x y : stable i P → rely i x y → P x → P y.
Proof. intros HP. induction 1 as [|x y z [(j & Hj & Ha) Hi] _ IH]; [done|]. eauto. Qed.

Lemma stable_elapse i P d s γ : stable i P → inv (s, γ) → P (s, γ) → P (elapse d s, γ).
Proof.
  intros HP Hi. destruct (act_elapse (Datatypes.S i) d s γ Hi) as [Hi' Ha].
  apply (HP (Datatypes.S i)); [lia|done|done].
Qed.

(** One statement of thread [i], run at a time later than all before, from [P] to [R]. *)
Definition step {B} (i : nat) (f : S → B * S) (P : cfg → Prop) (R : B → cfg → Prop) : Prop :=
  ∀ d s γ, inv (s, γ) → inv (elapse d s, γ) → P (elapse d s, γ) →
  ∃ g, let y' := ((f (elapse d s)).2, set_ghost i g γ) in
    act i (elapse d s, γ) y' ∧ inv y' ∧ R (f (elapse d s)).1 y'.

Lemma step_mono {B} i (f : S → B * S) (P : cfg → Prop) (R R' : B → cfg → Prop) :
  step i f P R → (∀ b y, R b y → R' b y) → step i f P R'.
Proof. intros Hf HR d s γ H1 H2 H3. destruct (Hf d s γ H1 H2 H3) as (g & ? & ? & ?). exists g. auto. Qed.

Lemma safe_step {A B} i (f : S → B * S) (k : B → prog A) P R Q x :
  stable i P → P x → step i f P R →
  (∀ b y, inv y → R b y → safe i (k b) Q y) →
  safe i (Stmt f k) Q x.
Proof.
  intros HP Hx Hf Hk y Hxy Hy d. destruct y as [s γ]. cbn.
  assert (P (s, γ)) as HPy by by eapply stable_rely.
  destruct (Hf d s γ Hy) as (g & Ha & Hi & HR).
  - by apply (act_elapse 0).
  - by apply (stable_elapse i).
  - exists g. split; [exact Ha|]. split; [exact Hi|]. by apply Hk.
Qed.

Lemma safe_ret {A} i (a : A) (Q : outcome E A → cfg → Prop) x :
  stable i (Q (Ok a)) → Q (Ok a) x → safe i (Ret a) Q x.
Proof. intros HQ Hx y Hxy _. by eapply stable_rely. Qed.

Lemma safe_throw {A} i e (Q : outcome E A → cfg → Prop) x :
  stable i (Q (Err e)) → Q (Err e) x → safe i (Throw e) Q x.
Proof. intros HQ Hx y Hxy _. by eapply stable_rely. Qed.

(** What no thread falsifies holds to the end. *)
Lemma safe_frame {A} i (p : prog A) (Q : outcome E A → cfg → Prop) (P : cfg → Prop) x :
  (∀ j x y, act j x y → inv y → P x → P y) →
  P x → safe i p Q x → safe i p (λ r y, Q r y ∧ P y) x.
Proof.
  intros HP Hx Hs. assert (Hst : stable i P) by (intros j y z _; apply HP).
  revert x Hx Hs. induction p as [a|e|B f k IH]; intros x Hx Hs; cbn in *; intros y Hxy Hy.
  - split; [by apply Hs|by eapply stable_rely].
  - split; [by apply Hs|by eapply stable_rely].
  - intros d. destruct (Hs y Hxy Hy d) as (g & Ha & Hi & Hk). exists g.
    split; [done|]. split; [done|]. apply IH; [|done]. apply (HP i _ _ Ha Hi).
    destruct y as [s γ]. apply (stable_elapse i); [done|done|]. by eapply stable_rely.
Qed.

(** A program that does not throw ends with a value. *)
Lemma safe_never {A} i (p : prog A) (Q : outcome E A → cfg → Prop) x :
  never (λ _, True) p → safe i p Q x → safe i p (λ r y, Q r y ∧ ∃ a, r = Ok a) x.
Proof.
  revert x. induction p as [a|e|B f k IH]; intros x Hn Hs; cbn in *; intros y Hxy Hy.
  - split; [by apply Hs|by exists a].
  - by destruct Hn.
  - intros d. destruct (Hs y Hxy Hy d) as (g & Ha & Hi & Hk). exists g. auto.
Qed.

(** ** Soundness *)

(** The threads [ps] are safe from [x]. *)
Definition all_safe {A} (Q : nat → outcome E A → cfg → Prop) (ps : list (prog A)) (x : cfg) : Prop :=
  inv x ∧ ∀ i p, ps !! i = Some p → safe i p (Q i) x.

Lemma all_safe_elapse {A} (Q : nat → outcome E A → cfg → Prop) ps d s γ :
  all_safe Q ps (s, γ) → all_safe Q ps (elapse d s, γ).
Proof.
  intros [Hi Hs]. destruct (act_elapse 0 d s γ Hi) as [Hi' _]. split; [done|]. intros i p Hp.
  apply (safe_rely i p _ (s, γ)); [|by apply Hs]. apply rtc_once. split; [|done].
  exists (Datatypes.S i). split; [lia|]. by apply act_elapse.
Qed.

Lemma all_safe_turn {A} (Q : nat → outcome E A → cfg → Prop) ps t s γ :
  all_safe Q ps (s, γ) →
  ∃ γ', all_safe Q (turn t (ps, s)).1 ((turn t (ps, s)).2, γ') ∧
        length (turn t (ps, s)).1 = length ps ∧ ∀ j, (length ps ≤ j)%nat → γ' j = γ j.
Proof.
  intros Hs. pose proof (all_safe_elapse Q ps t.2 s γ Hs) as [Hi' Hs']. unfold turn. cbn.
  destruct (ps !! t.1) as [[a|e|B f k]|] eqn:Hp; [by exists γ| by exists γ| |by exists γ].
  destruct Hs as [Hi Hs].
  destruct (Hs t.1 _ Hp (s, γ) ltac:(reflexivity) Hi t.2) as (g & Ha & Hi'' & Hk). cbn in *.
  set (s' := elapse t.2 s) in *. apply lookup_lt_Some in Hp as Hlt.
  destruct (f s') as [b s''] eqn:Hf. cbn in *. exists (set_ghost t.1 g γ).
  rewrite length_insert. split; [|split; [done|]].
  - split; [done|]. intros j p. destruct (decide (j = t.1)) as [->|Hj].
    + rewrite list_lookup_insert_eq by done. by intros [= <-].
    + rewrite list_lookup_insert_ne by done. intros Hpj.
      apply (safe_rely j p _ (s', γ)); [|by apply Hs']. apply rtc_once. split; [|done].
      exists t.1. split; [done|exact Ha].
  - intros j Hj. unfold set_ghost. rewrite decide_False; [done|lia].
Qed.

(** Safe threads stay safe under every schedule; there are no others. *)
Lemma pool_safe {A} (Q : nat → outcome E A → cfg → Prop) schedule ps s γ :
  all_safe Q ps (s, γ) →
  ∃ γ', all_safe Q (run_pool schedule (ps, s)).1 ((run_pool schedule (ps, s)).2, γ') ∧
        length (run_pool schedule (ps, s)).1 = length ps ∧ ∀ j, (length ps ≤ j)%nat → γ' j = γ j.
Proof.
  revert ps s γ. induction schedule as [|t schedule IH]; intros ps s γ Hs; [by exists γ|]. cbn.
  destruct (all_safe_turn Q ps t s γ Hs) as (γ' & Hs' & Hl & Hγ). destruct (turn t (ps, s)) as [ps' s'].
  cbn in *. destruct (IH ps' s' γ' Hs') as (γ'' & Hs'' & Hl' & Hγ'). exists γ''. split; [done|].
  split; [by etrans|]. intros j Hj. rewrite Hγ', Hγ; [done|lia|lia].
Qed.

(** What a thread that has ended established still holds. *)
Lemma all_safe_ended {A} (Q : nat → outcome E A → cfg → Prop) ps x i p :
  all_safe Q ps x → ps !! i = Some p →
  match p with Ret a => Q i (Ok a) x | Throw e => Q i (Err e) x | Stmt _ _ => True end.
Proof.
  intros [Hi Hs] Hp. specialize (Hs i p Hp). destruct p; cbn in Hs; [| |done];
    by apply (Hs x).
Qed.

End Prog.
Arguments prog : clear implicits.
Arguments Ret {S E A}.
Arguments Throw {S E A}.
Arguments Stmt {S E A B}.
