(* ===== verification/EngineData.v ===== *)
(** * EngineData: the stores of the run engine

    The rows of the PostgreSQL tables the engine works on (internal-packages/database/
    prisma/schema.prisma), the tables as an interface ([Table], with laws and a concrete
    instance), the jobs of the engine's background worker (engine/workerCatalog.ts) and the
    worker's queue as an interface ([Worker]), the run queue as an interface
    ([EngineQueue]), and the shared state all methods act on.

    Columns that no decision depends on and that are only copied (trace contexts,
    metadata, tags) are left out of the rows.  The environment of a run, a row of its own
    reached by a foreign key, is part of the row of the run. *)

From Stdlib Require Import SpecFloat.
From coqutil Require Export Datatypes.RecordSetters.
From S2P Require Import Prelude Text Messages Retry KeyProducer RunQueue EngineErrors.
Export DoubleBraceUpdate.
Local Open Scope Z_scope.

(** ** Rows *)

(** [TaskRun]. *)
Record TaskRun : Type := MkTaskRun {
  tr_status : TaskRunStatus;
  tr_statusReason : option string;
  tr_env : MinimalAuthenticatedEnvironment;
  tr_organizationId : option string;
  tr_taskIdentifier : string;
  tr_queue : string;
  tr_concurrencyKey : option string;
  tr_workerQueue : string;
  tr_priorityMs : Z;
  tr_ttl : option string;
  tr_parentTaskRunId : option string;
  tr_batchId : option string;
  tr_createdAt : Z;
  tr_queueTimestamp : option Z;
  tr_delayUntil : option Z;
  tr_queuedAt : option Z;
  tr_lockedAt : option Z;
  tr_lockedById : option string;
  tr_lockedRetryConfig : option retry_config;
  tr_startedAt : option Z;
  tr_executedAt : option Z;
  tr_completedAt : option Z;
  tr_expiredAt : option Z;
  tr_attemptNumber : option Z;
  tr_maxAttempts : option Z;
  tr_machinePreset : option string;
  tr_usageDurationMs : Z;
  tr_costInCents : spec_float;
  tr_output : option string;
  tr_outputType : string;
  tr_error : option TaskRunError;
  tr_bulkActionGroupIds : list string;
  tr_lockedToVersionId : option string;
  tr_lockedQueueId : option string;
  tr_maxDurationInSeconds : option Z;
  tr_planType : option string;
}.

(** [WaitpointType] and [WaitpointStatus]. *)
Inductive WaitpointType : Type := Wait_RUN | Wait_DATETIME | Wait_MANUAL | Wait_BATCH.
Inductive WaitpointStatus : Type := Wait_PENDING | Wait_COMPLETED.

#[export] Instance waitpoint_type_eq_dec : EqDecision WaitpointType.
Proof. solve_decision. Defined.
#[export] Instance waitpoint_status_eq_dec : EqDecision WaitpointStatus.
Proof. solve_decision. Defined.

(** [Waitpoint]. *)
Record Waitpoint : Type := MkWaitpoint {
  wp_type : WaitpointType;
  wp_status : WaitpointStatus;
  wp_completedAt : option Z;
  wp_idempotencyKey : string;
  wp_userProvidedIdempotencyKey : bool;
  wp_idempotencyKeyExpiresAt : option Z;
  wp_inactiveIdempotencyKey : option string;
  wp_completedByTaskRunId : option string;
  wp_completedByBatchId : option string;
  wp_completedAfter : option Z;
  wp_output : option string;
  wp_outputType : string;
  wp_outputIsError : bool;
  wp_projectId : string;
  wp_environmentId : string;
  wp_tags : list string;
}.

(** [TaskRunWaitpoint]: a run is blocked by a waitpoint. *)
Record TaskRunWaitpoint : Type := MkTaskRunWaitpoint {
  tw_taskRunId : string;
  tw_waitpointId : string;
  tw_projectId : string;
  tw_spanIdToComplete : option string;
  tw_batchId : option string;
  tw_batchIndex : option Z;
}.

(** [TaskRunExecutionSnapshot]; the completed waitpoints are a join table. *)
Record TaskRunExecutionSnapshot : Type := MkSnapshot {
  sn_runId : string;
  sn_executionStatus : TaskRunExecutionStatus;
  sn_description : string;
  sn_isValid : bool;
  sn_error : option string;
  sn_previousSnapshotId : option string;
  sn_runStatus : TaskRunStatus;
  sn_attemptNumber : option Z;
  sn_batchId : option string;
  sn_environmentId : string;
  sn_environmentType : RuntimeEnvironmentType;
  sn_projectId : string;
  sn_organizationId : string;
  sn_completedWaitpoints : list string;
  sn_completedWaitpointOrder : list string;
  sn_checkpointId : option string;
  sn_workerId : option string;
  sn_runnerId : option string;
  sn_createdAt : Z;
}.

(** [TaskRunCheckpoint]. *)
Record TaskRunCheckpoint : Type := MkCheckpoint {
  cp_type : string;
  cp_location : string;
  cp_imageRef : option string;
  cp_reason : option string;
}.

(** [BatchTaskRun]; the status is COMPLETED or another one. *)
Record BatchTaskRun : Type := MkBatchTaskRun {
  bt_completed : bool;
  bt_runtimeEnvironmentId : string;
  bt_processingJobsCount : Z;
  bt_runCount : Z;
  bt_batchVersion : string;
  bt_successfulRunCount : option Z;
  bt_failedRunCount : option Z;
}.

(** ** Tables

    A table maps primary keys to rows.  A query that does not ask for an order gets its
    rows in an order of the server's choice. *)

Class Table (T : Type → Type) : Type := {
  t_find {R : Type} : string → T R → option R;
  t_put {R : Type} : string → R → T R → T R;
  t_delete {R : Type} : string → T R → T R;
  t_rows {R : Type} : T R → list (string * R);
}.

Class TableLaws (T : Type → Type) {TB : Table T} : Prop := {
  t_find_put {R} k (r : R) t : t_find k (t_put k r t) = Some r;
  t_find_put_ne {R} k k' (r : R) t : k ≠ k' → t_find k' (t_put k r t) = t_find k' t;
  t_find_delete {R} k (t : T R) : t_find k (t_delete k t) = None;
  t_find_delete_ne {R} k k' (t : T R) : k ≠ k' → t_find k' (t_delete k t) = t_find k' t;
  t_rows_find {R} k (r : R) t : (k, r) ∈ t_rows t ↔ t_find k t = Some r;
  t_rows_nodup {R} (t : T R) : NoDup (t_rows t).*1;
}.

(** A table as a finite map. *)
Definition map_table (R : Type) : Type := gmap string R.

#[export] Instance map_table_ops : Table map_table := {|
  t_find _ k t := (t : gmap _ _) !! k;
  t_put _ k r t := <[k := r]> (t : gmap _ _);
  t_delete _ k t := delete k (t : gmap _ _);
  t_rows _ t := map_to_list (t : gmap _ _);
|}.

#[export] Instance map_table_laws : TableLaws map_table.
Proof.
  split; cbn; intros R.
  - intros k r t. apply lookup_insert_eq.
  - intros k k' r t. apply lookup_insert_ne.
  - intros k t. apply lookup_delete_eq.
  - intros k k' t. apply lookup_delete_ne.
  - intros k r t. apply elem_of_map_to_list.
  - intros t. apply NoDup_fst_map_to_list.
Qed.

(** ** Jobs *)

(** The jobs of [workerCatalog], with their payloads. *)
Inductive engine_job : Type :=
| Job_finishWaitpoint (waitpointId : string) (error : option string)
| Job_heartbeatSnapshot (runId snapshotId : string) (restartAttempt : option Z)
| Job_repairSnapshot (runId snapshotId : string) (executionStatus : TaskRunExecutionStatus)
| Job_expireRun (runId : string)
| Job_cancelRun (runId : string) (completedAt : Z) (reason : option string)
| Job_queueRunsPendingVersion (backgroundWorkerId : string)
| Job_tryCompleteBatch (batchId : string)
| Job_continueRunIfUnblocked (runId : string)
| Job_enqueueDelayedRun (runId : string).

(** A job as it is stored. *)
Record job_item : Type := MkJob {
  ji_job : engine_job;
  ji_attempt : Z;
  ji_key : option string;
}.

(** Does the deduplication key given with an acknowledgement reject the stored job? *)
Definition key_rejects (key stored : option string) : bool :=
  match nonempty_text key, stored with
  | Some k, Some k' => negb (bool_decide (k' = k))
  | _, _ => false
  end.

(** The queue of the worker: [worker_items] are the jobs that wait or are being run, by
    id, [worker_dead] those that were given up. *)
Class Worker (J : Type) : Type := {
  worker_items : J → gmap string job_item;
  worker_dead : J → gmap string job_item;
  (** [enqueue({ id, job, attempt, availableAt })] at time [now] with the new
      deduplication key [key]. *)
  worker_enqueue (now : Z) (key id : string) (job : engine_job) (attempt availableAt : option Z)
    : J → J;
  worker_ack (id : string) (key : option string) : J → J;
  worker_reschedule (id : string) (availableAt : Z) : J → J;
  (** [dequeue] of one job that is due; it is hidden for a while, but kept. *)
  worker_take (now : Z) : J → option (string * job_item) * J;
  worker_bury (id errorMessage : string) : J → J;
}.

Class WorkerLaws (J : Type) {W : Worker J} : Prop := {
  items_enqueue now key id job attempt at_ j :
    worker_items (worker_enqueue now key id job attempt at_ j) =
    <[id := MkJob job (default 0 attempt) (Some key)]> (worker_items j);
  items_ack id key j :
    worker_items (worker_ack id key j) =
    match worker_items j !! id with
    | Some it => if key_rejects key (ji_key it) then worker_items j else delete id (worker_items j)
    | None => worker_items j
    end;
  items_reschedule id at_ j : worker_items (worker_reschedule id at_ j) = worker_items j;
  items_take now j : worker_items (worker_take now j).2 = worker_items j;
  take_item now j id it :
    (worker_take now j).1 = Some (id, it) → worker_items j !! id = Some it;
  items_bury id e j : worker_items (worker_bury id e j) = delete id (worker_items j);
  dead_bury id e j :
    worker_dead (worker_bury id e j) =
    match worker_items j !! id with
    | Some it => <[id := it]> (worker_dead j)
    | None => worker_dead j
    end;
  dead_enqueue now key id job attempt at_ j :
    worker_dead (worker_enqueue now key id job attempt at_ j) = worker_dead j;
  dead_ack id key j : worker_dead (worker_ack id key j) = worker_dead j;
  dead_reschedule id at_ j : worker_dead (worker_reschedule id at_ j) = worker_dead j;
  dead_take now j : worker_dead (worker_take now j).2 = worker_dead j;
}.

(** ** The run queue

    What the engine calls of the run queue; each call is one statement here (the
    interleavings of its commands are the subject of [Methods]). *)

Class EngineQueue (Q : Type) : Type := {
  queue_enqueueMessage (now : Z) (nonce : string) (env : MinimalAuthenticatedEnvironment)
    (message : InputPayload) (workerQueue : string) (enableFastPath : bool)
    : Q → outcome rq_error unit * Q;
  queue_acknowledgeMessage (now : Z) (nonce orgId messageId : string) (removeFromWorkerQueue : bool)
    : Q → outcome rq_error unit * Q;
  (** The random number is for the retry delay; [None] and [Some false] are falsy. *)
  queue_nackMessage (now : Z) (nonce : string) (random : spec_float) (orgId messageId : string)
    (retryAt : option Z) : Q → outcome rq_error (option bool) * Q;
  queue_releaseAllConcurrency (orgId messageId : string) : Q → outcome rq_error unit * Q;
  queue_clearMessageFromConcurrencySets (runId orgId queue : string) (env : env_obj)
    : Q → outcome rq_error unit * Q;
  queue_dequeueMessageFromWorkerQueue (workerQueue : string) (blockingPop : option bool)
    : Q → outcome rq_error (option DequeuedMessage) * Q;
}.

(** The run queue of [RunQueue] behind this interface. *)
Section RunQueueInstance.
Context {db J : Type} {R : Redis.Redis rq_value db} {JQ : Jobs.JobQueue J}.
Context (o : RunQueueOptions) (sha256 : string → list Z).
Context (overrides : option WorkerQueueResolver.WorkerQueueOverrides).
Context (pow : spec_float → spec_float → spec_float).

Definition run_queue : EngineQueue (world db J) := {|
  queue_enqueueMessage now nonce env message workerQueue enableFastPath :=
    enqueueMessage o sha256 now nonce env message workerQueue false enableFastPath;
  queue_acknowledgeMessage now nonce orgId messageId removeFromWorkerQueue :=
    acknowledgeMessage o sha256 overrides now nonce orgId messageId false removeFromWorkerQueue;
  queue_nackMessage now nonce random orgId messageId retryAt :=
    nackMessage o sha256 overrides now nonce random pow orgId messageId retryAt true false;
  queue_releaseAllConcurrency orgId messageId := releaseAllConcurrency o orgId messageId;
  queue_clearMessageFromConcurrencySets runId orgId queue env :=
    clearMessageFromConcurrencySets o runId orgId queue env;
  queue_dequeueMessageFromWorkerQueue workerQueue blockingPop :=
    dequeueMessageFromWorkerQueue o workerQueue blockingPop;
|}.

End RunQueueInstance.

(** ** The shared state *)

Record tables (T : Type → Type) : Type := MkTables {
  taskRun : T TaskRun;
  waitpoint : T Waitpoint;
  taskRunWaitpoint : T TaskRunWaitpoint;
  taskRunExecutionSnapshot : T TaskRunExecutionSnapshot;
  taskRunCheckpoint : T TaskRunCheckpoint;
  batchTaskRun : T BatchTaskRun;
}.
Arguments MkTables {T}.
Arguments taskRun {T}.
Arguments waitpoint {T}.
Arguments taskRunWaitpoint {T}.
Arguments taskRunExecutionSnapshot {T}.
Arguments taskRunCheckpoint {T}.
Arguments batchTaskRun {T}.

(** The tables, the worker, the run queue, the run locks that are held, the clock and the
    number of ids generated so far. *)
Record engine_state (T : Type → Type) (J Q : Type) : Type := MkState {
  es_tables : tables T;
  es_worker : J;
  es_queue : Q;
  es_locks : gset string;
  es_clock : Z;
  es_ids : nat;
}.
Arguments MkState {T J Q}.
Arguments es_tables {T J Q}.
Arguments es_worker {T J Q}.
Arguments es_queue {T J Q}.
Arguments es_locks {T J Q}.
Arguments es_clock {T J Q}.
Arguments es_ids {T J Q}.

(** Every turn takes at least a unit of time, so rows created one after the other have
    different times. *)
Definition elapse {T J Q} (d : nat) (s : engine_state T J Q) : engine_state T J Q :=
  s {{ es_clock := es_clock s + 1 + Z.of_nat d }}.
