(* ===== verification/Duration.v ===== *)
(** * Duration: durations written in words
    (packages/core/src/v3/isomorphic/duration.ts)

    A duration is a sequence of numbers with a unit (w, d, hr, h, m, s); only the first
    number of each unit counts.  Numbers are exact. *)

From S2P Require Import Prelude Text.
Local Open Scope Z_scope.

Inductive unit_of_time : Type := Weeks | Days | Hours | Minutes | Seconds.

#[export] Instance unit_of_time_eq_dec : EqDecision unit_of_time.
Proof. solve_decision. Defined.

Definition digit (c : ascii) : option Z :=
  let n := Z.of_nat (nat_of_ascii c) - 48 in
  if (0 <=? n) && (n <=? 9) then Some n else None.

(** The parts of a text that matches [/^(\d+(?:w|d|hr|h|m|s))+$/]; [number] is the number
    read so far. *)
Fixpoint duration_parts (number : option Z) (s : string) : option (list (Z * unit_of_time)) :=
  match s with
  | EmptyString => match number with None => Some [] | Some _ => None end
  | String c s =>
      match digit c, number with
      | Some d, _ => duration_parts (Some (default 0 number * 10 + d)) s
      | None, None => None
      | None, Some n =>
          if bool_decide (c = "w"%char) then (cons (n, Weeks)) <$> duration_parts None s
          else if bool_decide (c = "d"%char) then (cons (n, Days)) <$> duration_parts None s
          else if bool_decide (c = "h"%char) then
            match s with
            | String c' s' =>
                if bool_decide (c' = "r"%char) then (cons (n, Hours)) <$> duration_parts None s'
                else (cons (n, Hours)) <$> duration_parts None s
            | EmptyString => (cons (n, Hours)) <$> duration_parts None s
            end
          else if bool_decide (c = "m"%char) then (cons (n, Minutes)) <$> duration_parts None s
          else if bool_decide (c = "s"%char) then (cons (n, Seconds)) <$> duration_parts None s
          else None
      end
  end.

Definition unit_ms (u : unit_of_time) : Z :=
  match u with
  | Weeks => 7 * 24 * 60 * 60 * 1000
  | Days => 24 * 60 * 60 * 1000
  | Hours => 60 * 60 * 1000
  | Minutes => 60 * 1000
  | Seconds => 1000
  end.

(** The contribution of the first part with this unit. *)
Definition unit_total (parts : list (Z * unit_of_time)) (u : unit_of_time) : Z :=
  match list_find (λ p, p.2 = u) parts with
  | Some (_, (n, _)) => n * unit_ms u
  | None => 0
  end.

Definition parseNaturalLanguageDurationInMs (duration : string) : option Z :=
  if 100 <? Z.of_nat (String.length duration) then None
  else
    parts ← duration_parts None duration;
    match parts with
    | [] => None
    | _ => Some (unit_total parts Weeks + unit_total parts Days + unit_total parts Hours +
                 unit_total parts Minutes + unit_total parts Seconds)
    end.

(** [parseNaturalLanguageDuration] at time [now]. *)
Definition parseNaturalLanguageDuration (now : Z) (duration : string) : option Z :=
  ms ← parseNaturalLanguageDurationInMs duration; Some (now + ms).
