(* ===== verification/EngineSystems.v ===== *)
(** * EngineSystems: snapshots, waitpoints and batches
    (engine/systems/executionSnapshotSystem.ts, enqueueSystem.ts, waitpointSystem.ts,
    batchSystem.ts, and engine/locking.ts)

    One definition per method, in the monad [M]: a program over the shared state that
    knows the innermost run lock it runs under.  A query, a write or a transaction is one
    statement; so are a call of the worker and one of the run queue.  The database and
    the worker do not fail, except as the code provokes it (a row that is not found, a
    unique key that is taken).

    Left out: log messages, spans, events and notifications to workers. *)

From Stdlib Require Import SpecFloat.
From S2P Require Import Prelude Text Messages Retry KeyProducer RunQueue EngineErrors EngineProg.
From S2P Require Import EngineData Duration.
Local Open Scope Z_scope.

(** ** Errors *)

Inductive engine_error : Type :=
| ServiceValidationError (message : string) (status : option Z)
| PlainError (message : string)
| NotImplementedError (message : string)
| LockAcquisitionTimeoutError (resource : string)
| RecordNotFound                         (* Prisma P2025 *)
| UniqueViolation                        (* Prisma P2002 *)
| QueueError (e : rq_error)
| Unended.                               (* the fuel of the model ran out *)

(** ** The monad *)

(** [option string] is the resource of the innermost lock ([asyncLocalStorage]). *)
Definition M (T : Type → Type) (J Q A : Type) : Type :=
  option string → prog (engine_state T J Q) engine_error A.

Section Monad.
Context {T : Type → Type} {J Q : Type}.
Local Notation state := (engine_state T J Q).

Definition e_ret {A} (a : A) : M T J Q A := λ _, Ret a.
Definition e_throw {A} (e : engine_error) : M T J Q A := λ _, Throw e.
Definition e_bind {A B} (m : M T J Q A) (f : A → M T J Q B) : M T J Q B :=
  λ c, pbind (m c) (λ a, f a c).
Definition e_catch {A} (m : M T J Q A) (h : engine_error → M T J Q A) : M T J Q A :=
  λ c, pcatch (m c) (λ e, h e c).

(** One statement. *)
Definition stmt {A} (f : state → A * state) : M T J Q A := λ _, Stmt f Ret.

(** A statement that fails without an effect when [f] gives nothing. *)
Definition stmt_or {A} (e : engine_error) (f : state → option (A * state)) : M T J Q A :=
  λ _, Stmt (λ s, match f s with Some (a, s) => (Some a, s) | None => (None, s) end)
         (λ r, match r with Some a => Ret a | None => Throw e end).

(** A query. *)
Definition query {A} (f : tables T → A) : M T J Q A := stmt (λ s, (f (es_tables s), s)).

(** [new Date()]. *)
Definition current_time : M T J Q Z := stmt (λ s, (es_clock s, s)).

(** A call of the worker. *)
Definition on_worker (f : J → J) : M T J Q unit :=
  stmt (λ s, (tt, s {{ es_worker := f (es_worker s) }})).

(** [for (const a of l) await body(a)]. *)
Fixpoint e_each {A} (body : A → M T J Q unit) (l : list A) : M T J Q unit :=
  match l with
  | [] => e_ret tt
  | a :: l => e_bind (body a) (λ _, e_each body l)
  end.

(** ** Run locks (engine/locking.ts)

    The retries of an acquisition are not modelled: a method whose turn comes when the
    lock is taken gives up.  A lock is held until it is released: its automatic extension
    does not fail. *)

Definition acquire (r : string) (s : state) : bool * state :=
  if decide (r ∈ es_locks s) then (false, s) else (true, s {{ es_locks := {[r]} ∪ es_locks s }}).

Definition release (r : string) (s : state) : unit * state :=
  (tt, s {{ es_locks := es_locks s ∖ {[r]} }}).

(** [runLock.lock(name, [r], routine)]: nested locks on one resource are one. *)
Definition lock {A} (r : string) (routine : M T J Q A) : M T J Q A :=
  λ c, if decide (c = Some r) then routine c
       else
         Stmt (acquire r) (λ acquired : bool,
           if acquired then
             pbind (ptry (routine (Some r))) (λ result, Stmt (release r) (λ _, of_outcome result))
           else Throw (LockAcquisitionTimeoutError r)).

(** [runLock.lockIf(condition, ...)]. *)
Definition lockIf {A} (condition : bool) (r : string) (routine : M T J Q A) : M T J Q A :=
  if condition then lock r routine else routine.

End Monad.

Declare Scope engine_scope.
Delimit Scope engine_scope with engine.
Notation "x <- m ;; k" := (e_bind m (λ x, k))
  (at level 100, m at next level, right associativity) : engine_scope.
Notation "m ;;; k" := (e_bind m (λ _, k)) (at level 100, right associativity) : engine_scope.
Local Open Scope engine_scope.

(** ** Options *)

(** [HeartbeatTimeouts]. *)
Record HeartbeatTimeouts : Type := MkHeartbeatTimeouts {
  timeout_PENDING_EXECUTING : Z;
  timeout_PENDING_CANCEL : Z;
  timeout_EXECUTING : Z;
  timeout_EXECUTING_WITH_WAITPOINTS : Z;
  timeout_SUSPENDED : Z;
}.

(** [suspendedHeartbeatRetriesConfig]. *)
Record suspended_retries : Type := MkSuspendedRetries {
  sr_maxCount : option Z;
  sr_initialDelayMs : option Z;
  sr_maxDelayMs : option Z;
  sr_factor : option spec_float;
}.

(** The part of [RunEngineOptions] that is used here; [machines] gives the cents per
    millisecond of a machine preset. *)
Record EngineOptions : Type := MkEngineOptions {
  eo_heartbeatTimeouts : HeartbeatTimeouts;
  eo_retryWarmStartThresholdMs : option Z;
  eo_machines : gmap string spec_float;
  eo_defaultMachine : string;
  eo_treatProductionExecutionStallsAsOOM : bool;
  eo_suspendedHeartbeatRetriesConfig : option suspended_retries;
  eo_defaultMaxTtl : option string;
}.

Section Systems.
Context {T : Type → Type} {J Q : Type} {TB : Table T} {W : Worker J} {EQ : EngineQueue Q}.
Context (gen : nat → string) (options : EngineOptions).
(** [JSON.stringify] of an error of a run and of [timeoutError(timeout)]. *)
Context (stringify_error : TaskRunError → string) (stringify_timeout : Z → string).
Local Notation state := (engine_state T J Q).
Local Notation M := (M T J Q).
Local Notation tables := (tables T).

(** ** Statements *)

(** The id of the next row. *)
Definition next_id (s : state) : string := gen (es_ids s).
Definition take_id (s : state) : state := s {{ es_ids := S (es_ids s) }}.

(** A call of the run queue, with the time and a fresh id. *)
Definition on_queue {A} (f : Z → string → Q → outcome rq_error A * Q) : M A :=
  λ _, Stmt (λ s, let '(r, q) := f (es_clock s) (next_id s) (es_queue s) in
                  (r, (take_id s) {{ es_queue := q }}))
         (λ r, match r with Ok a => Ret a | Err e => Throw (QueueError e) end).

(** The first row that satisfies [p]. *)
Definition find_row {R} (p : R → bool) (t : T R) : option (string * R) :=
  snd <$> list_find (λ kr, p kr.2 = true) (t_rows t).

Definition select {R} (p : R → bool) (t : T R) : list (string * R) :=
  base.filter (λ kr, p kr.2 = true) (t_rows t).

Definition put_run (id : string) (r : TaskRun) (t : tables) : tables :=
  t {{ taskRun := t_put id r (taskRun t) }}.
Definition put_waitpoint (id : string) (w : Waitpoint) (t : tables) : tables :=
  t {{ waitpoint := t_put id w (waitpoint t) }}.
Definition put_blocker (id : string) (b : TaskRunWaitpoint) (t : tables) : tables :=
  t {{ taskRunWaitpoint := t_put id b (taskRunWaitpoint t) }}.
Definition delete_blocker (id : string) (t : tables) : tables :=
  t {{ taskRunWaitpoint := t_delete id (taskRunWaitpoint t) }}.
Definition put_snapshot (id : string) (sn : TaskRunExecutionSnapshot) (t : tables) : tables :=
  t {{ taskRunExecutionSnapshot := t_put id sn (taskRunExecutionSnapshot t) }}.
Definition put_checkpoint (id : string) (c : TaskRunCheckpoint) (t : tables) : tables :=
  t {{ taskRunCheckpoint := t_put id c (taskRunCheckpoint t) }}.
Definition put_batch (id : string) (b : BatchTaskRun) (t : tables) : tables :=
  t {{ batchTaskRun := t_put id b (batchTaskRun t) }}.

(** [worker.enqueue({ id, job, availableAt })]; [at_] computes the time. *)
Definition enqueue_job (id : string) (job : engine_job) (at_ : Z → option Z) : M unit :=
  stmt (λ s, (tt, (take_id s) {{ es_worker :=
    worker_enqueue (es_clock s) (next_id s) id job None (at_ (es_clock s)) (es_worker s) }})).

Definition ack_job (id : string) : M unit := on_worker (worker_ack id None).

Definition reschedule_job (id : string) (at_ : Z → Z) : M unit :=
  stmt (λ s, (tt, s {{ es_worker := worker_reschedule id (at_ (es_clock s)) (es_worker s) }})).

(** [taskRun.update({ where: { id }, data })]; the row after the update. *)
Definition update_run (id : string) (f : Z → TaskRun → TaskRun) : M TaskRun :=
  stmt_or RecordNotFound (λ s,
    run ← t_find id (taskRun (es_tables s));
    let run := f (es_clock s) run in
    Some (run, s {{ es_tables := put_run id run (es_tables s) }})).

(** [run.associatedWaitpoint]. *)
Definition associatedWaitpoint (runId : string) (t : tables) : option (string * Waitpoint) :=
  find_row (λ w, bool_decide (wp_completedByTaskRunId w = Some runId)) (waitpoint t).

Definition find_run (runId : string) : M (option TaskRun) := query (λ t, t_find runId (taskRun t)).

(** ** ExecutionSnapshotSystem *)

(** [EnhancedExecutionSnapshot]: the row, its id, and its completed waitpoints with the
    places they have in the order. *)
Record CompletedWaitpoint : Type := MkCompletedWaitpoint {
  cw_id : string;
  cw_index : option Z;
  cw_waitpoint : Waitpoint;
}.

Record EnhancedExecutionSnapshot : Type := MkEnhanced {
  snapshot_id : string;
  snapshot_row :> TaskRunExecutionSnapshot;
  snapshot_completedWaitpoints : list CompletedWaitpoint;
}.

(** The places of [w] in the order. *)
Fixpoint indexes_of (w : string) (i : Z) (order : list string) : list Z :=
  match order with
  | [] => []
  | w' :: order =>
      if decide (w' = w) then i :: indexes_of w (i + 1) order else indexes_of w (i + 1) order
  end.

Definition enhanceExecutionSnapshotWithWaitpoints (id : string) (snapshot : TaskRunExecutionSnapshot)
    (waitpoints : list (string * Waitpoint)) (completedWaitpointOrder : list string)
    : EnhancedExecutionSnapshot :=
  MkEnhanced id snapshot
    (waitpoints ≫= λ '(wid, w),
       match indexes_of wid 0 completedWaitpointOrder with
       | [] => [MkCompletedWaitpoint wid None w]
       | indexes => (λ i, MkCompletedWaitpoint wid (Some i) w) <$> indexes
       end).

(** The rows behind a list of waitpoint ids. *)
Definition waitpoints_of (t : tables) (ids : list string) : list (string * Waitpoint) :=
  omap (λ id, w ← t_find id (waitpoint t); Some (id, w)) ids.

Definition enhanceExecutionSnapshot (t : tables) (id : string) (snapshot : TaskRunExecutionSnapshot)
    : EnhancedExecutionSnapshot :=
  enhanceExecutionSnapshotWithWaitpoints id snapshot
    (waitpoints_of t (sn_completedWaitpoints snapshot)) (sn_completedWaitpointOrder snapshot).

(** [orderBy: { createdAt: "desc" }]: the first of the rows with the latest time. *)
Definition later (x y : string * TaskRunExecutionSnapshot) : string * TaskRunExecutionSnapshot :=
  if sn_createdAt x.2 <? sn_createdAt y.2 then y else x.

Definition valid_snapshots (runId : string) (t : tables) : list (string * TaskRunExecutionSnapshot) :=
  select (λ sn, bool_decide (sn_runId sn = runId) && sn_isValid sn) (taskRunExecutionSnapshot t).

Definition latest_snapshot (runId : string) (t : tables) : option (string * TaskRunExecutionSnapshot) :=
  match valid_snapshots runId t with
  | [] => None
  | x :: l => Some (foldl later x l)
  end.

Definition latest_enhanced (runId : string) (t : tables) : option EnhancedExecutionSnapshot :=
  match latest_snapshot runId t with
  | Some (id, sn) => Some (enhanceExecutionSnapshot t id sn)
  | None => None
  end.

Definition getLatestExecutionSnapshot (runId : string) : M EnhancedExecutionSnapshot :=
  snapshot <- query (latest_enhanced runId) ;;
  match snapshot with
  | Some snapshot => e_ret snapshot
  | None => e_throw (PlainError ("No execution snapshot found for TaskRun " +:+ runId))
  end.

(** [#getHeartbeatIntervalMs]. *)
Definition getHeartbeatIntervalMs (status : TaskRunExecutionStatus) : option Z :=
  let timeouts := eo_heartbeatTimeouts options in
  match status with
  | Exec_PENDING_EXECUTING => Some (timeout_PENDING_EXECUTING timeouts)
  | Exec_PENDING_CANCEL => Some (timeout_PENDING_CANCEL timeouts)
  | Exec_EXECUTING => Some (timeout_EXECUTING timeouts)
  | Exec_EXECUTING_WITH_WAITPOINTS => Some (timeout_EXECUTING_WITH_WAITPOINTS timeouts)
  | Exec_SUSPENDED => Some (timeout_SUSPENDED timeouts)
  | _ => None
  end.

(** The argument of [createExecutionSnapshot]. *)
Record snapshot_input : Type := MkSnapshotInput {
  si_runId : string;
  si_runStatus : TaskRunStatus;
  si_attemptNumber : option Z;
  si_executionStatus : TaskRunExecutionStatus;
  si_description : string;
  si_previousSnapshotId : option string;
  si_batchId : option string;
  si_environmentId : string;
  si_environmentType : RuntimeEnvironmentType;
  si_projectId : string;
  si_organizationId : string;
  si_checkpointId : option string;
  si_workerId : option string;
  si_runnerId : option string;
  si_completedWaitpoints : list (string * option Z);
  si_error : option string;
}.

(** The waitpoints that have an index, by index. *)
Definition completed_order (completedWaitpoints : list (string * option Z)) : list string :=
  fst <$> sort_stable (λ x y : string * Z, x.2 <? y.2)
            (omap (λ '(id, index), (λ i, (id, i)) <$> index) completedWaitpoints).

(** The row that is inserted. *)
Definition snapshot_data (now : Z) (si : snapshot_input) : TaskRunExecutionSnapshot :=
  MkSnapshot (si_runId si) (si_executionStatus si) (si_description si)
    (negb (truthy_opt (si_error si))) (si_error si) (si_previousSnapshotId si)
    (if bool_decide (si_runStatus si = Run_DEQUEUED) then Run_PENDING else si_runStatus si)
    (si_attemptNumber si) (si_batchId si) (si_environmentId si) (si_environmentType si)
    (si_projectId si) (si_organizationId si) (remove_dups (fst <$> si_completedWaitpoints si))
    (completed_order (si_completedWaitpoints si)) (si_checkpointId si) (si_workerId si)
    (si_runnerId si) now.

(** [createExecutionSnapshot]: the row is inserted, then the heartbeat is set. *)
Definition heartbeat_job (runId : string) : string := "heartbeatSnapshot." +:+ runId.

Definition insert_snapshot (si : snapshot_input)
    : M (string * TaskRunExecutionSnapshot) :=
  stmt (λ s,
    let row := snapshot_data (es_clock s) si in
    ((next_id s, row), (take_id s) {{ es_tables := put_snapshot (next_id s) row (es_tables s) }})).

(** The heartbeat of a new snapshot. *)
Definition set_heartbeat (id : string) (si : snapshot_input) : M unit :=
  if truthy_opt (si_error si) then e_ret tt
  else
    match getHeartbeatIntervalMs (si_executionStatus si) with
    | None => e_ret tt
    | Some intervalMs =>
        enqueue_job (heartbeat_job (si_runId si))
          (Job_heartbeatSnapshot (si_runId si) id None) (λ now, Some (now + intervalMs))
    end.

Definition createExecutionSnapshot (si : snapshot_input) : M (string * TaskRunExecutionSnapshot) :=
  newSnapshot <- insert_snapshot si ;;
  set_heartbeat newSnapshot.1 si ;;;
  e_ret newSnapshot.

(** [ExecutionResult]: the id and the status of a snapshot, and the run as it shows it. *)
Record ExecutionResult : Type := MkExecutionResult {
  er_snapshotId : string;
  er_executionStatus : TaskRunExecutionStatus;
  er_runId : string;
  er_runStatus : TaskRunStatus;
  er_attemptNumber : option Z;
}.

Definition executionResultFromSnapshot (id : string) (snapshot : TaskRunExecutionSnapshot)
    : ExecutionResult :=
  MkExecutionResult id (sn_executionStatus snapshot) (sn_runId snapshot) (sn_runStatus snapshot)
    (sn_attemptNumber snapshot).

Definition heartbeatRun (runId snapshotId : string) : M ExecutionResult :=
  latestSnapshot <- getLatestExecutionSnapshot runId ;;
  if negb (bool_decide (snapshot_id latestSnapshot = snapshotId))
  then e_ret (executionResultFromSnapshot (snapshot_id latestSnapshot) latestSnapshot)
  else
    match getHeartbeatIntervalMs (sn_executionStatus latestSnapshot) with
    | Some intervalMs => reschedule_job (heartbeat_job runId) (λ now, now + intervalMs)
    | None => e_ret tt
    end ;;;
    e_ret (executionResultFromSnapshot (snapshot_id latestSnapshot) latestSnapshot).

Definition restartHeartbeatForRun (runId : string) (delayMs restartAttempt : Z) : M ExecutionResult :=
  latestSnapshot <- getLatestExecutionSnapshot runId ;;
  enqueue_job (heartbeat_job runId)
    (Job_heartbeatSnapshot runId (snapshot_id latestSnapshot) (Some restartAttempt))
    (λ now, Some (now + delayMs)) ;;;
  e_ret (executionResultFromSnapshot (snapshot_id latestSnapshot) latestSnapshot).

(** A new snapshot of a run that is otherwise like [snapshot]. *)
Definition next_of (snapshot : EnhancedExecutionSnapshot) (runStatus : TaskRunStatus)
    (attemptNumber : option Z) (executionStatus : TaskRunExecutionStatus) (description : string)
    (workerId runnerId : option string) : snapshot_input :=
  MkSnapshotInput (sn_runId snapshot) runStatus attemptNumber executionStatus description
    (Some (snapshot_id snapshot)) None (sn_environmentId snapshot) (sn_environmentType snapshot)
    (sn_projectId snapshot) (sn_organizationId snapshot) None workerId runnerId [] None.

(** The completed waitpoints of a snapshot, for the next one. *)
Definition completed_of (snapshot : EnhancedExecutionSnapshot) : list (string * option Z) :=
  (λ w, (cw_id w, cw_index w)) <$> snapshot_completedWaitpoints snapshot.

(** ** EnqueueSystem *)

Record enqueue_options : Type := MkEnqueueOptions {
  eq_status : TaskRunExecutionStatus;         (* QUEUED or QUEUED_EXECUTING *)
  eq_description : string;
  eq_previousSnapshotId : option string;
  eq_batchId : option string;
  eq_checkpointId : option string;
  eq_completedWaitpoints : list (string * option Z);
  eq_workerId : option string;
  eq_runnerId : option string;
  eq_skipRunLock : bool;
  eq_includeTtl : bool;
  eq_enableFastPath : bool;
}.

(** The options that are not given. *)
Definition default_enqueue : enqueue_options :=
  MkEnqueueOptions Exec_QUEUED "Run was QUEUED" None None None [] None None false false false.

(** The snapshot of a run that goes to the queue. *)
Definition enqueue_input (runId : string) (run : TaskRun) (opts : enqueue_options) : snapshot_input :=
  let env := tr_env run in
  MkSnapshotInput runId (tr_status run) (tr_attemptNumber run) (eq_status opts)
    (eq_description opts) (eq_previousSnapshotId opts) (eq_batchId opts)
    (env_id (ae_env env)) (ae_type env) (env_project_id (ae_env env))
    (env_organization_id (ae_env env)) (eq_checkpointId opts) (eq_workerId opts)
    (eq_runnerId opts) (eq_completedWaitpoints opts) None.

(** Its message. *)
Definition enqueue_message (runId : string) (run : TaskRun) (opts : enqueue_options) : M unit :=
  let env := tr_env run in
  let workerQueue :=
    if bool_decide (ae_type env = DEVELOPMENT) then env_id (ae_env env) else tr_workerQueue run in
  let timestamp := default (tr_createdAt run) (tr_queueTimestamp run) - tr_priorityMs run in
  let message now :=
    MkInputPayload runId (tr_taskIdentifier run) (env_organization_id (ae_env env))
      (env_project_id (ae_env env)) (env_id (ae_env env)) (ae_type env) (tr_queue run)
      (tr_concurrencyKey run) timestamp 0
      (if eq_includeTtl opts
       then ttl ← nonempty_text (tr_ttl run); parseNaturalLanguageDuration now ttl
       else None) in
  on_queue (λ now nonce, queue_enqueueMessage now nonce env (message now) workerQueue
                           (eq_enableFastPath opts)).

Definition enqueueRun (runId : string) (run : TaskRun) (opts : enqueue_options)
    : M (string * TaskRunExecutionSnapshot) :=
  lockIf (negb (eq_skipRunLock opts)) runId (
    newSnapshot <- createExecutionSnapshot (enqueue_input runId run opts) ;;
    enqueue_message runId run opts ;;;
    e_ret newSnapshot).

(** ** WaitpointSystem *)

Definition clearBlockingWaitpoints (runId : string) : M Z :=
  stmt (λ s,
    let deleted := select (λ b, bool_decide (tw_taskRunId b = runId)) (taskRunWaitpoint (es_tables s)) in
    (Z.of_nat (length deleted),
     s {{ es_tables := foldl (λ t b, delete_blocker b.1 t) (es_tables s) deleted }})).

(** The output a waitpoint is completed with. *)
Record waitpoint_output : Type := MkOutput {
  wo_value : string;
  wo_type : option string;
  wo_isError : bool;
}.

(** [waitpoint.updateMany({ where: { id, status: "PENDING" }, ... })]. *)
Definition complete_row (id : string) (output : option waitpoint_output) (s : state) : state :=
  match t_find id (waitpoint (es_tables s)) with
  | Some w =>
      if bool_decide (wp_status w = Wait_PENDING) then
        s {{ es_tables := put_waitpoint id
           (w {{ wp_status := Wait_COMPLETED;
                 wp_completedAt := Some (es_clock s);
                 wp_output := with_default (wp_output w) (wo_value <$> output);
                 wp_outputType := default (wp_outputType w) (output ≫= wo_type);
                 wp_outputIsError := default (wp_outputIsError w) (wo_isError <$> output) }})
           (es_tables s) }}
      else s
  | None => s
  end.

Definition complete_pending (id : string) (output : option waitpoint_output) : M unit :=
  stmt (λ s, (tt, complete_row id output s)).

Definition continue_job (runId : string) : string := "continueRunIfUnblocked:" +:+ runId.

(** Schedule [continueRunIfUnblocked]. *)
Definition schedule_continue (runId : string) : M unit :=
  enqueue_job (continue_job runId) (Job_continueRunIfUnblocked runId) (λ now, Some (now + 50)).

Definition completeWaitpoint (id : string) (output : option waitpoint_output) : M Waitpoint :=
  complete_pending id output ;;;
  found <- query (λ t, t_find id (waitpoint t)) ;;
  match found with
  | None => e_throw (PlainError "Waitpoint not found")
  | Some w =>
      if negb (bool_decide (wp_status w = Wait_COMPLETED))
      then e_throw (PlainError "Waitpoint not completed")
      else
        affectedTaskRuns <- query (λ t,
          select (λ b, bool_decide (tw_waitpointId b = id)) (taskRunWaitpoint t)) ;;
        e_each (λ b, schedule_continue (tw_taskRunId b.2)) affectedTaskRuns ;;;
        e_ret w
  end.

(** The waitpoint with an idempotency key of an environment. *)
Definition find_idempotent (environmentId idempotencyKey : string) (t : tables)
    : option (string * Waitpoint) :=
  find_row (λ w, bool_decide (wp_environmentId w = environmentId) &&
                 bool_decide (wp_idempotencyKey w = idempotencyKey)) (waitpoint t).

(** A waitpoint that waits for nothing yet. *)
Definition new_waitpoint (type : WaitpointType) (idempotencyKey : string) (userProvided : bool)
    (expiresAt : option Z) (environmentId projectId : string) (completedAfter : option Z)
    (tags : list string) : Waitpoint :=
  MkWaitpoint type Wait_PENDING None idempotencyKey userProvided expiresAt None None None completedAfter
    None "application/json" false projectId environmentId tags.

(** The existing waitpoint with a given key: it is returned, unless its key has expired,
    in which case it gets another one. *)
Definition reuse_waitpoint (environmentId : string) (idempotencyKey : option string)
    : M (option (string * Waitpoint)) :=
  match nonempty_text idempotencyKey with
  | None => e_ret None
  | Some key =>
      existing <- query (find_idempotent environmentId key) ;;
      match existing with
      | None => e_ret None
      | Some (id, w) =>
          now <- current_time ;;
          if match wp_idempotencyKeyExpiresAt w with Some e => e <? now | None => false end
          then
            stmt_or RecordNotFound (λ s,
              current ← t_find id (waitpoint (es_tables s));
              Some (None, (take_id s) {{ es_tables := put_waitpoint id
                (current {{ wp_idempotencyKey := next_id s;
                            wp_inactiveIdempotencyKey := Some (wp_idempotencyKey w) }})
                (es_tables s) }}))
          else e_ret (Some (id, w))
      end
  end.

(** [waitpoint.upsert({ where: { environmentId_idempotencyKey }, create, update: {} })];
    a key that is not given is generated.  The upsert is one statement, so the conflict
    after which the source tries again does not arise. *)
Definition upsert_waitpoint (environmentId : string) (idempotencyKey : option string)
    (create : string → Waitpoint) : M (string * Waitpoint) :=
  stmt (λ s,
    let key := default (next_id s) idempotencyKey in
    match find_idempotent environmentId key (es_tables s) with
    | Some found => (found, take_id s)
    | None =>
        let id := gen (S (es_ids s)) in
        let w := create key in
        ((id, w), (take_id (take_id s)) {{ es_tables := put_waitpoint id w (es_tables s) }})
    end).

Definition finish_job (waitpointId : string) : string := "finishWaitpoint." +:+ waitpointId.

Definition createDateTimeWaitpoint (projectId environmentId : string) (completedAfter : Z)
    (idempotencyKey : option string) (idempotencyKeyExpiresAt : option Z)
    : M (string * Waitpoint * bool) :=
  existing <- reuse_waitpoint environmentId idempotencyKey ;;
  match existing with
  | Some w => e_ret (w, true)
  | None =>
      w <- upsert_waitpoint environmentId idempotencyKey (λ key,
             new_waitpoint Wait_DATETIME key (truthy_opt idempotencyKey) idempotencyKeyExpiresAt
               environmentId projectId (Some completedAfter) []) ;;
      enqueue_job (finish_job w.1) (Job_finishWaitpoint w.1 None) (λ _, Some completedAfter) ;;;
      e_ret (w, false)
  end.

Definition createManualWaitpoint (environmentId projectId : string) (idempotencyKey : option string)
    (idempotencyKeyExpiresAt timeout : option Z) (tags : list string)
    : M (string * Waitpoint * bool) :=
  existing <- reuse_waitpoint environmentId idempotencyKey ;;
  match existing with
  | Some w => e_ret (w, true)
  | None =>
      w <- upsert_waitpoint environmentId idempotencyKey (λ key,
             new_waitpoint Wait_MANUAL key (truthy_opt idempotencyKey) idempotencyKeyExpiresAt
               environmentId projectId timeout tags) ;;
      match timeout with
      | Some at_ =>
          enqueue_job (finish_job w.1) (Job_finishWaitpoint w.1 (Some (stringify_timeout at_)))
            (λ _, Some at_)
      | None => e_ret tt
      end ;;;
      e_ret (w, false)
  end.

(** The row a run is blocked with. *)
Definition blocker (runId waitpointId projectId : string) (spanIdToComplete : option string)
    (batch : option (string * option Z)) : TaskRunWaitpoint :=
  MkTaskRunWaitpoint runId waitpointId projectId spanIdToComplete (fst <$> batch) (batch ≫= snd).

(** [ON CONFLICT DO NOTHING]: the run, the waitpoint and the index in the batch are
    unique. *)
Definition insert_blocker (id : string) (b : TaskRunWaitpoint) (t : tables) : tables :=
  match find_row (λ b', bool_decide (tw_taskRunId b' = tw_taskRunId b) &&
                        bool_decide (tw_waitpointId b' = tw_waitpointId b) &&
                        bool_decide (tw_batchIndex b' = tw_batchIndex b)) (taskRunWaitpoint t) with
  | Some _ => t
  | None => put_blocker id b t
  end.

(** The statement with the common table expressions: for every given waitpoint that
    exists, the run is blocked by it.  (The historical connections are not modelled.) *)
Fixpoint insert_blockers (runId projectId : string) (spanIdToComplete : option string)
    (batch : option (string * option Z)) (ws : list string) (s : state) : state :=
  match ws with
  | [] => s
  | w :: ws =>
      insert_blockers runId projectId spanIdToComplete batch ws
        match t_find w (waitpoint (es_tables s)) with
        | Some _ =>
            (take_id s) {{ es_tables := insert_blocker (next_id s)
               (blocker runId w projectId spanIdToComplete batch) (es_tables s) }}
        | None => s
        end
  end.

Definition block_statement (runId projectId : string) (spanIdToComplete : option string)
    (batch : option (string * option Z)) (ws : list string) : M unit :=
  stmt (λ s, (tt, insert_blockers runId projectId spanIdToComplete batch (remove_dups ws) s)).

(** The number of the given waitpoints that are pending. *)
Definition pending_count (ws : list string) (t : tables) : Z :=
  Z.of_nat (length (base.filter (λ w, from_option wp_status Wait_COMPLETED (t_find w (waitpoint t)) = Wait_PENDING)
                      (remove_dups ws))).

(** The jobs that complete the waitpoints at the timeout. *)
Definition schedule_timeouts (ws : list string) (timeout : option Z) : M unit :=
  match timeout with
  | None => e_ret tt
  | Some at_ =>
      e_each (λ w, enqueue_job (finish_job w) (Job_finishWaitpoint w (Some (stringify_timeout at_)))
                     (λ _, Some at_)) ws
  end.

Definition blockRunWithWaitpoint (runId : string) (waitpoints : list string)
    (projectId organizationId : string) (timeout : option Z) (spanIdToComplete : option string)
    (batch : option (string * option Z)) (workerId runnerId : option string) : M unit :=
  lock runId (
    snapshot <- getLatestExecutionSnapshot runId ;;
    block_statement runId projectId spanIdToComplete batch waitpoints ;;;
    pendingCount <- query (pending_count waitpoints) ;;
    let isRunBlocked := 0 <? pendingCount in
    let newStatus :=
      if bool_decide (sn_executionStatus snapshot = Exec_EXECUTING) ||
         bool_decide (sn_executionStatus snapshot = Exec_EXECUTING_WITH_WAITPOINTS)
      then Exec_EXECUTING_WITH_WAITPOINTS else Exec_SUSPENDED in
    (if negb (bool_decide (newStatus = sn_executionStatus snapshot)) then
       createExecutionSnapshot
         (MkSnapshotInput (sn_runId snapshot) (sn_runStatus snapshot) (sn_attemptNumber snapshot)
            newStatus "Run was blocked by a waitpoint." (Some (snapshot_id snapshot)) (fst <$> batch)
            (sn_environmentId snapshot) (sn_environmentType snapshot) (sn_projectId snapshot)
            organizationId None workerId runnerId [] None) ;;;
       e_ret tt
     else e_ret tt) ;;;
    schedule_timeouts waitpoints timeout ;;;
    if negb isRunBlocked then schedule_continue runId else e_ret tt).

(** [blockRunWithWaitpointLockless]. *)
Definition blockRunWithWaitpointLockless (runId : string) (waitpoints : list string)
    (projectId : string) (timeout : option Z) (spanIdToComplete : option string)
    (batch : string * option Z) : M unit :=
  block_statement runId projectId spanIdToComplete (Some batch) waitpoints ;;;
  schedule_timeouts waitpoints timeout.

Definition blockRunAndCompleteWaitpoint (runId waitpointId : string) (output : waitpoint_output)
    (projectId organizationId : string) (batch : option (string * option Z)) : M unit :=
  blockRunWithWaitpoint runId [waitpointId] projectId organizationId None None batch None None ;;;
  completeWaitpoint waitpointId (Some output) ;;;
  e_ret tt.

(** [WaitpointContinuationResult]. *)
Inductive WaitpointContinuationResult : Type :=
| unblocked (waitpoints : list (string * Waitpoint))
| skipped (reason : string)
| blocked (waitpoints : list (string * Waitpoint)).

(** The blockers of a run with their waitpoints (a foreign key: there is one). *)
Definition blockers_of (runId : string) (t : tables) : list (string * TaskRunWaitpoint * Waitpoint) :=
  omap (λ '(id, b), w ← t_find (tw_waitpointId b) (waitpoint t); Some (id, b, w))
    (select (λ b, bool_decide (tw_taskRunId b = runId)) (taskRunWaitpoint t)).

(** [taskRunWaitpoint.deleteMany({ where: { taskRunId, id: { in: ids } } })]. *)
Definition delete_blockers (runId : string) (ids : list string) : M unit :=
  stmt (λ s, (tt, s {{ es_tables := foldl (λ t id,
    match t_find id (taskRunWaitpoint t) with
    | Some b => if bool_decide (tw_taskRunId b = runId) then delete_blocker id t else t
    | None => t
    end) (es_tables s) ids }})).

Definition continueRunIfUnblocked (runId : string) : M WaitpointContinuationResult :=
  lock runId (
    blockingWaitpoints <- query (blockers_of runId) ;;
    let waitpoints := (λ '(_, b, w), (tw_waitpointId b, w)) <$> blockingWaitpoints in
    let completed := (λ '(_, b, _), (tw_waitpointId b, tw_batchIndex b)) <$> blockingWaitpoints in
    if existsb (λ '(_, _, w), negb (bool_decide (wp_status w = Wait_COMPLETED))) blockingWaitpoints
    then e_ret (blocked waitpoints)
    else
      run <- find_run runId ;;
      match run with
      | None => e_throw (PlainError ("continueRunIfUnblocked: run not found: " +:+ runId))
      | Some run =>
          snapshot <- getLatestExecutionSnapshot runId ;;
          let finish :=
            (if (length blockingWaitpoints =? 0)%nat then e_ret tt
             else delete_blockers runId ((λ '(id, _, _), id) <$> blockingWaitpoints)) ;;;
            e_ret (unblocked waitpoints) in
          match sn_executionStatus snapshot with
          | Exec_RUN_CREATED => e_ret (skipped "run is already executing")
          | Exec_DELAYED => e_ret (skipped "run is delayed")
          | Exec_QUEUED => e_ret (skipped "run is already queued")
          | Exec_PENDING_EXECUTING => e_ret (skipped "run is already pending executing")
          | Exec_QUEUED_EXECUTING => e_ret (skipped "run is already queued executing")
          | Exec_EXECUTING => e_ret (skipped "run is already executing")
          | Exec_PENDING_CANCEL | Exec_FINISHED => e_ret (skipped "run is finished")
          | Exec_EXECUTING_WITH_WAITPOINTS =>
              createExecutionSnapshot
                (MkSnapshotInput runId (sn_runStatus snapshot) (sn_attemptNumber snapshot)
                   Exec_EXECUTING "Run was continued, whilst still executing."
                   (Some (snapshot_id snapshot)) (sn_batchId snapshot) (sn_environmentId snapshot)
                   (sn_environmentType snapshot) (sn_projectId snapshot) (sn_organizationId snapshot)
                   None None None completed None) ;;;
              finish
          | Exec_SUSPENDED =>
              match nonempty_text (sn_checkpointId snapshot) with
              | None =>
                  e_throw (PlainError
                    ("continueRunIfUnblocked: run is suspended, but has no checkpoint: " +:+ runId))
              | Some checkpointId =>
                  enqueueRun runId run
                    (default_enqueue {{
                       eq_description := "Run was QUEUED, because all waitpoints are completed";
                       eq_batchId := sn_batchId snapshot;
                       eq_completedWaitpoints := completed;
                       eq_checkpointId := Some checkpointId }}) ;;;
                  finish
              end
          end
      end).

(** [buildRunAssociatedWaitpoint], with the key that is generated. *)
Definition buildRunAssociatedWaitpoint (key projectId environmentId : string) : Waitpoint :=
  new_waitpoint Wait_RUN key false None environmentId projectId None [].

(** [#buildWaitpointOutputFromRun]; the text for a missing error is [JSON.stringify({})]. *)
Definition buildWaitpointOutputFromRun (run : TaskRun) : option waitpoint_output :=
  if bool_decide (tr_status run = Run_COMPLETED_SUCCESSFULLY) then
    output ← tr_output run; Some (MkOutput output (Some (tr_outputType run)) false)
  else if isFinalRunStatus (tr_status run) then
    Some (MkOutput (from_option stringify_error "{}" (tr_error run)) None true)
  else None.

(** A run with its waitpoint. *)
Definition run_and_waitpoint (runId : string) (t : tables)
    : option (TaskRun * option (string * Waitpoint)) :=
  run ← t_find runId (taskRun t); Some (run, associatedWaitpoint runId t).

Definition getOrCreateRunWaitpoint (runId projectId environmentId : string) : M (string * Waitpoint) :=
  run <- query (run_and_waitpoint runId) ;;
  match run with
  | None => e_throw (PlainError ("Run not found: " +:+ runId))
  | Some (_, Some w) => e_ret w
  | Some (_, None) =>
      lock runId (
        runAfterLock <- query (run_and_waitpoint runId) ;;
        match runAfterLock with
        | None => e_throw (PlainError ("Run not found: " +:+ runId))
        | Some (_, Some w) => e_ret w
        | Some (runAfterLock, None) =>
            snapshot <- getLatestExecutionSnapshot runId ;;
            w <- stmt (λ s,
                   let w := (buildRunAssociatedWaitpoint (next_id s) projectId environmentId)
                              {{ wp_completedByTaskRunId := Some runId }} in
                   let id := gen (S (es_ids s)) in
                   ((id, w), (take_id (take_id s))
                               {{ es_tables := put_waitpoint id w (es_tables s) }})) ;;
            if bool_decide (sn_executionStatus snapshot = Exec_FINISHED) then
              completed <- completeWaitpoint w.1 (buildWaitpointOutputFromRun runAfterLock) ;;
              e_ret (w.1, completed)
            else e_ret w
        end)
  end.

(** ** BatchSystem *)

Definition scheduleCompleteBatch (batchId : string) : M unit :=
  enqueue_job ("tryCompleteBatch:" +:+ batchId) (Job_tryCompleteBatch batchId)
    (λ now, Some (now + 200)).

(** The number of items of a batch that became a run or failed to. *)
Definition processedRunCount (batch : BatchTaskRun) : Z :=
  if bool_decide (bt_batchVersion batch = "runengine:v2")
  then default 0 (bt_successfulRunCount batch) + default 0 (bt_failedRunCount batch)
  else bt_processingJobsCount batch.

(** The runs of a batch. *)
Definition runs_of_batch (batchId environmentId : string) (t : tables) : list (string * TaskRun) :=
  select (λ r, bool_decide (tr_batchId r = Some batchId) &&
               bool_decide (env_id (ae_env (tr_env r)) = environmentId)) (taskRun t).

(** [#tryCompleteBatch], which [performCompleteBatch] calls. *)
Definition performCompleteBatch (batchId : string) : M unit :=
  batch <- query (λ t, t_find batchId (batchTaskRun t)) ;;
  match batch with
  | None => e_ret tt
  | Some batch =>
      if bt_completed batch then e_ret tt
      else if processedRunCount batch <? bt_runCount batch then e_ret tt
      else
        runs <- query (runs_of_batch batchId (bt_runtimeEnvironmentId batch)) ;;
        if forallb (λ r, isFinalRunStatus (tr_status r.2)) runs then
          stmt_or RecordNotFound (λ s,
            b ← t_find batchId (batchTaskRun (es_tables s));
            Some (tt, s {{ es_tables :=
              put_batch batchId (b {{ bt_completed := true }}) (es_tables s) }})) ;;;
          found <- query (λ t,
            find_row (λ w, bool_decide (wp_completedByBatchId w = Some batchId)) (waitpoint t)) ;;
          match found with
          | None => e_ret tt
          | Some (id, _) =>
              completeWaitpoint id (Some (MkOutput "Batch waitpoint completed" None false)) ;;;
              e_ret tt
          end
        else e_ret tt
  end.

End Systems.
