(* ===== verification/EngineAttempts.v ===== *)
(** * EngineAttempts: the attempts of a run and how a run ends
    (engine/systems/runAttemptSystem.ts, checkpointSystem.ts, delayedRunSystem.ts,
    ttlSystem.ts)

    The description of the task, queue, machine and deployment that [startRunAttempt]
    returns to the worker is not modelled; neither are events. *)

From Stdlib Require Import SpecFloat.
From S2P Require Import Prelude Text Messages Retry KeyProducer RunQueue EngineErrors EngineProg.
From S2P Require Import EngineData Duration EngineSystems.
Local Open Scope Z_scope.
Local Open Scope engine_scope.

(** ** Usage *)

(** The largest [int4] of PostgreSQL. *)
Definition MAX_INT4 : Z := 2147483647.

Section Attempts.
Context {T : Type → Type} {J Q : Type} {TB : Table T} {W : Worker J} {EQ : EngineQueue Q}.
Context (gen : nat → string) (options : EngineOptions).
Context (stringify_error : TaskRunError → string) (stringify_timeout : Z → string).
(** [Math.random], by the fresh id of each use, and [Math.pow]. *)
Context (random : string → spec_float) (pow : spec_float → spec_float → spec_float).
Local Notation M := (M T J Q).
Local Notation tables := (tables T).
Local Notation createExecutionSnapshot := (createExecutionSnapshot gen options).
Local Notation completeWaitpoint := (completeWaitpoint gen).

(** [#calculateUpdatedUsage]. *)
Definition calculateUpdatedUsage (currentUsageDurationMs : Z) (currentCostInCents : spec_float)
    (attemptDurationMs : Z) (machinePresetName : option string)
    (environmentType : RuntimeEnvironmentType) : Z * spec_float :=
  let usageDurationMs := Z.min MAX_INT4 (currentUsageDurationMs + attemptDurationMs) in
  if bool_decide (environmentType = DEVELOPMENT) then (usageDurationMs, currentCostInCents)
  else
    let name := default (eo_defaultMachine options) (nonempty_text machinePresetName) in
    let centsPerMs := default S754_nan (eo_machines options !! name) in
    (usageDurationMs, d_add currentCostInCents (d_mul (double_of_Z attemptDurationMs) centsPerMs)).

(** [#truncateTaskRunError]. *)
Definition truncateTaskRunError (error : TaskRunError) : TaskRunError :=
  match error with
  | BUILT_IN_ERROR name message stackTrace =>
      BUILT_IN_ERROR (String.substring 0 1024 name) (String.substring 0 (1024 * 16) message)
        (String.substring 0 (1024 * 16) stackTrace)
  | _ => error
  end.

(** ** The result of an attempt *)

(** [TaskRunSuccessfulExecutionResult] and [TaskRunFailedExecutionResult]. *)
Record success_completion : Type := MkSuccess {
  sc_output : option string;
  sc_outputType : string;
  sc_durationMs : option Z;
}.

Record failure_completion : Type := MkFailure {
  fc_error : TaskRunError;
  fc_retry : option TaskRunExecutionRetry;
  fc_durationMs : option Z;
}.

(** [CompleteRunAttemptResult]. *)
Inductive attempt_status : Type :=
| RUN_FINISHED | RUN_PENDING_CANCEL | RETRY_QUEUED | RETRY_IMMEDIATELY.

Definition CompleteRunAttemptResult : Type := attempt_status * ExecutionResult.

(** [#finalizeRun]. *)
Definition finalizeRun (runId : string) (batchId : option string) : M unit :=
  match nonempty_text batchId with
  | Some batchId => scheduleCompleteBatch gen batchId
  | None => e_ret tt
  end ;;;
  ack_job (heartbeat_job runId).

(** A run as an update of it returns it, with the relations the update selects. *)
Record updated_run : Type := MkUpdatedRun {
  ur_run :> TaskRun;
  ur_associatedWaitpoint : option string;
  ur_childRuns : list string;
}.

(** The children of a run. *)
Definition childRuns (runId : string) (t : tables) : list string :=
  fst <$> select (λ r, bool_decide (tr_parentTaskRunId r = Some runId)) (taskRun t).

Definition select_run (runId : string) (run : TaskRun) (t : tables) : updated_run :=
  MkUpdatedRun run (fst <$> associatedWaitpoint runId t) (childRuns runId t).

(** [taskRun.update({ data, select })]. *)
Definition update_select (runId : string) (f : Z → TaskRun → TaskRun) : M updated_run :=
  stmt_or RecordNotFound (λ s,
    run ← t_find runId (taskRun (es_tables s));
    let run := f (es_clock s) run in
    let t := put_run runId run (es_tables s) in
    Some (select_run runId run t, s {{ es_tables := t }})).

(** A snapshot created as part of the update of a run: no heartbeat is set. *)
Definition nested_snapshot (now : Z) (runId : string) (snapshot : TaskRunExecutionSnapshot)
    (executionStatus : TaskRunExecutionStatus) (description : string) (runStatus : TaskRunStatus)
    (attemptNumber : option Z) (workerId runnerId : option string) : TaskRunExecutionSnapshot :=
  MkSnapshot runId executionStatus description true None None runStatus attemptNumber None
    (sn_environmentId snapshot) (sn_environmentType snapshot) (sn_projectId snapshot)
    (sn_organizationId snapshot) [] [] None workerId runnerId now.

(** [taskRun.update({ data: { ..., executionSnapshots: { create } }, select })]. *)
Definition update_with_snapshot (runId : string) (f : Z → TaskRun → TaskRun)
    (snapshot : Z → TaskRunExecutionSnapshot) : M updated_run :=
  stmt_or RecordNotFound (λ s,
    run ← t_find runId (taskRun (es_tables s));
    let run := f (es_clock s) run in
    let t := put_snapshot (next_id gen s) (snapshot (es_clock s)) (put_run runId run (es_tables s)) in
    Some (select_run runId run t, (take_id s) {{ es_tables := t }})).

(** Complete the waitpoint of a run, if it has one. *)
Definition complete_associated (run : updated_run) (output : option waitpoint_output) : M unit :=
  match ur_associatedWaitpoint run with
  | Some id => completeWaitpoint id output ;;; e_ret tt
  | None => e_ret tt
  end.

(** The result that is made of a snapshot and of the row of the run. *)
Definition result_of_run (runId : string) (run : TaskRun) (id : string)
    (snapshot : TaskRunExecutionSnapshot) : ExecutionResult :=
  MkExecutionResult id (sn_executionStatus snapshot) runId (tr_status run) (tr_attemptNumber run).

(** ** Succeeding *)

(** The test of [attemptSucceeded] and [attemptFailed] on the latest snapshot. *)
Definition check_latest (latestSnapshot : EnhancedExecutionSnapshot) (snapshotId : string) : M unit :=
  if negb (bool_decide (snapshot_id latestSnapshot = snapshotId))
  then e_throw (ServiceValidationError "Snapshot ID doesn't match the latest snapshot" (Some 400))
  else if bool_decide (sn_executionStatus latestSnapshot = Exec_FINISHED)
  then e_throw (ServiceValidationError "Run is already finished" (Some 400))
  else e_ret tt.

Definition attemptSucceeded (runId snapshotId : string) (completion : success_completion)
    (workerId runnerId : option string) : M CompleteRunAttemptResult :=
  lock runId (
    latestSnapshot <- getLatestExecutionSnapshot runId ;;
    check_latest latestSnapshot snapshotId ;;;
    completedAt <- current_time ;;
    currentRun <- find_run runId ;;
    match currentRun with
    | None => e_throw (ServiceValidationError "Run not found" (Some 404))
    | Some currentRun =>
        let '(usageDurationMs, costInCents) :=
          calculateUpdatedUsage (tr_usageDurationMs currentRun) (tr_costInCents currentRun)
            (default 0 (sc_durationMs completion)) (tr_machinePreset currentRun)
            (sn_environmentType latestSnapshot) in
        run <- update_with_snapshot runId
          (λ _ r, r {{ tr_status := Run_COMPLETED_SUCCESSFULLY;
                       tr_completedAt := Some completedAt;
                       tr_output := with_default (tr_output r) (sc_output completion);
                       tr_outputType := sc_outputType completion;
                       tr_usageDurationMs := usageDurationMs;
                       tr_costInCents := costInCents }})
          (λ now, nested_snapshot now runId latestSnapshot Exec_FINISHED "Task completed successfully"
                    Run_COMPLETED_SUCCESSFULLY (sn_attemptNumber latestSnapshot) workerId runnerId) ;;
        newSnapshot <- getLatestExecutionSnapshot runId ;;
        on_queue gen (λ now nonce, queue_acknowledgeMessage now nonce
          (env_organization_id (ae_env (tr_env run))) runId false) ;;;
        complete_associated run
          (output ← nonempty_text (sc_output completion);
           Some (MkOutput output (Some (sc_outputType completion)) false)) ;;;
        finalizeRun runId (tr_batchId run) ;;;
        e_ret (RUN_FINISHED, result_of_run runId run (snapshot_id newSnapshot) newSnapshot)
    end).

(** ** Cancelling *)

(** The error of a cancelled run. *)
Definition cancel_error (reason : option string) : TaskRunError :=
  STRING_ERROR (default "Canceled by user" reason).

Definition preventDelayedRunFromBeingEnqueued (runId : string) : M unit :=
  ack_job ("enqueueDelayedRun:" +:+ runId).

(** The update of the usage of a run that is cancelled. *)
Definition cancel_usage (runId : string) (environmentType : RuntimeEnvironmentType)
    (attemptDurationMs : option Z) : M (option (Z * spec_float)) :=
  match attemptDurationMs with
  | None => e_ret None
  | Some ms =>
      currentRun <- find_run runId ;;
      match currentRun with
      | None => e_throw (ServiceValidationError "Run not found" (Some 404))
      | Some r =>
          e_ret (Some (calculateUpdatedUsage (tr_usageDurationMs r) (tr_costInCents r) ms
                         (tr_machinePreset r) environmentType))
      end
  end.

(** [cancelRun]; the result also says whether the run had already finished. *)
Definition cancelRun (runId : string) (workerId runnerId : option string) (completedAt : option Z)
    (reason : option string) (finalize : bool) (bulkActionId : option string)
    (attemptDurationMs : option Z) : M (ExecutionResult * bool) :=
  lock runId (
    latestSnapshot <- getLatestExecutionSnapshot runId ;;
    let result id sn := executionResultFromSnapshot id sn in
    if bool_decide (sn_executionStatus latestSnapshot = Exec_FINISHED) then
      match nonempty_text bulkActionId with
      | Some id =>
          update_run runId (λ _ r, r {{ tr_bulkActionGroupIds := tr_bulkActionGroupIds r ++ [id] }}) ;;;
          e_ret tt
      | None => e_ret tt
      end ;;;
      e_ret (result (snapshot_id latestSnapshot) latestSnapshot, true)
    else if bool_decide (sn_executionStatus latestSnapshot = Exec_PENDING_CANCEL) && negb finalize then
      e_ret (result (snapshot_id latestSnapshot) latestSnapshot, false)
    else
      let error := cancel_error reason in
      usage <- cancel_usage runId (sn_environmentType latestSnapshot) attemptDurationMs ;;
      run <- update_select runId (λ now r,
        r {{ tr_status := Run_CANCELED;
             tr_completedAt :=
               (if finalize then Some (default now completedAt)
                else with_default (tr_completedAt r) completedAt);
             tr_error := Some error;
             tr_bulkActionGroupIds :=
               (match nonempty_text bulkActionId with
                | Some id => tr_bulkActionGroupIds r ++ [id]
                | None => tr_bulkActionGroupIds r
                end);
             tr_usageDurationMs := default (tr_usageDurationMs r) (fst <$> usage);
             tr_costInCents := default (tr_costInCents r) (snd <$> usage) }}) ;;
      (if isInitialState (sn_executionStatus latestSnapshot) && bool_decide (is_Some (tr_delayUntil run))
       then preventDelayedRunFromBeingEnqueued runId else e_ret tt) ;;;
      on_queue gen (λ now nonce, queue_acknowledgeMessage now nonce
        (env_organization_id (ae_env (tr_env run))) runId true) ;;;
      if (isExecuting (sn_executionStatus latestSnapshot) ||
          isPendingExecuting (sn_executionStatus latestSnapshot)) && negb finalize
      then
        newSnapshot <- createExecutionSnapshot
          (next_of latestSnapshot (tr_status run) (tr_attemptNumber run) Exec_PENDING_CANCEL
             "Run was cancelled" workerId runnerId) ;;
        e_ret (result newSnapshot.1 newSnapshot.2, false)
      else
        newSnapshot <- createExecutionSnapshot
          (next_of latestSnapshot (tr_status run) (tr_attemptNumber run) Exec_FINISHED
             "Run was cancelled, not finished" workerId runnerId) ;;
        complete_associated run (Some (MkOutput (stringify_error error) None true)) ;;;
        finalizeRun runId (tr_batchId run) ;;;
        e_each (λ child,
          now <- current_time ;;
          enqueue_job gen ("cancelRun:" +:+ child)
            (Job_cancelRun child (default now (tr_completedAt run))
               (Some (default "Canceled by user" reason))) (λ _, None)) (ur_childRuns run) ;;;
        e_ret (result newSnapshot.1 newSnapshot.2, false)).

(** ** Failing *)

Definition permanentlyFailRun (runId : string) (latestSnapshot : EnhancedExecutionSnapshot)
    (failedAt : Z) (error : TaskRunError) (workerId runnerId : option string)
    (attemptDurationMs : option Z) : M CompleteRunAttemptResult :=
  let status := runStatusFromError error (sn_environmentType latestSnapshot) in
  let truncatedError := truncateTaskRunError error in
  currentRun <- find_run runId ;;
  match currentRun with
  | None => e_throw (ServiceValidationError "Run not found" (Some 404))
  | Some currentRun =>
      let '(usageDurationMs, costInCents) :=
        calculateUpdatedUsage (tr_usageDurationMs currentRun) (tr_costInCents currentRun)
          (default 0 attemptDurationMs) (tr_machinePreset currentRun)
          (sn_environmentType latestSnapshot) in
      run <- update_select runId (λ _ r,
        r {{ tr_status := status;
             tr_completedAt := Some failedAt;
             tr_error := Some truncatedError;
             tr_usageDurationMs := usageDurationMs;
             tr_costInCents := costInCents }}) ;;
      let env := tr_env run in
      newSnapshot <- createExecutionSnapshot
        ((next_of latestSnapshot (tr_status run) (tr_attemptNumber run) Exec_FINISHED "Run failed"
            workerId runnerId)
           {{ si_runId := runId;
              si_environmentId := env_id (ae_env env);
              si_environmentType := ae_type env;
              si_projectId := env_project_id (ae_env env);
              si_organizationId := env_organization_id (ae_env env) }}) ;;
      on_queue gen (λ now nonce, queue_acknowledgeMessage now nonce
        (env_organization_id (ae_env env)) runId true) ;;;
      complete_associated run (Some (MkOutput (stringify_error truncatedError) None true)) ;;;
      finalizeRun runId (tr_batchId run) ;;;
      e_ret (RUN_FINISHED, result_of_run runId run newSnapshot.1 newSnapshot.2)
  end.

(** What [retryOutcomeFromCompletion] reads, the time, and a random number. *)
Definition retry_row (r : TaskRun) : retry_run :=
  MkRetryRun (tr_maxAttempts r) (tr_lockedRetryConfig r) (tr_usageDurationMs r) (tr_costInCents r)
    (tr_machinePreset r).

Definition retry_view (runId : string) : M (option retry_run * Z * spec_float) :=
  stmt (λ s,
    (option_map retry_row (t_find runId (taskRun (es_tables s))), es_clock s,
     random (next_id gen s), take_id s)).

(** The arguments of [tryNackAndRequeue]. *)
Record requeue_options : Type := MkRequeue {
  rq_environmentId : string;
  rq_environmentType : RuntimeEnvironmentType;
  rq_orgId : string;
  rq_projectId : string;
  rq_timestamp : option Z;
  rq_failure : TaskRunError;
  rq_workerId : option string;
  rq_runnerId : option string;
  rq_checkpointId : option string;
  rq_completedWaitpoints : list (string * option Z);
  rq_batchId : option string;
}.

(** Its result: the run is in the queue again, or what became of it. *)
Inductive nack_result : Type :=
| Requeued (result : ExecutionResult)
| NotRequeued (result : CompleteRunAttemptResult).

(** [attemptFailed], [systemFailure] and [tryNackAndRequeue] call each other;
    [attemptFailed_again] is the inner [attemptFailed]. *)
Section Recursion.
Context (attemptFailed_again : string → string → failure_completion → M CompleteRunAttemptResult).

Definition systemFailure_with (runId : string) (error : TaskRunError) : M CompleteRunAttemptResult :=
  latestSnapshot <- getLatestExecutionSnapshot runId ;;
  if bool_decide (sn_executionStatus latestSnapshot = Exec_FINISHED)
  then e_ret (RUN_FINISHED, executionResultFromSnapshot (snapshot_id latestSnapshot) latestSnapshot)
  else attemptFailed_again runId (snapshot_id latestSnapshot) (MkFailure error None None).

Definition tryNackAndRequeue_with (runId : string) (o : requeue_options) : M nack_result :=
  lock runId (
    gotRequeued <- on_queue gen (λ now nonce,
      queue_nackMessage now nonce (random nonce) (rq_orgId o) runId (rq_timestamp o)) ;;
    if negb (default false gotRequeued) then
      result <- systemFailure_with runId (rq_failure o) ;;
      e_ret (NotRequeued result)
    else
      requeuedRun <- update_run runId (λ _ r, r {{ tr_status := Run_PENDING }}) ;;
      newSnapshot <- createExecutionSnapshot
        (MkSnapshotInput runId (tr_status requeuedRun) (tr_attemptNumber requeuedRun) Exec_QUEUED
           "Requeued the run after a failure" None (rq_batchId o) (rq_environmentId o)
           (rq_environmentType o) (rq_projectId o) (rq_orgId o) (rq_checkpointId o)
           (rq_workerId o) (rq_runnerId o) (rq_completedWaitpoints o) None) ;;
      e_ret (Requeued (executionResultFromSnapshot newSnapshot.1 newSnapshot.2))).

(** The options [attemptFailed] requeues a run with. *)
Definition requeue_after_failure (run : TaskRun) (retryAt : Z) : requeue_options :=
  let env := tr_env run in
  MkRequeue (env_id (ae_env env)) (ae_type env) (env_organization_id (ae_env env))
    (env_project_id (ae_env env)) (Some retryAt)
    (INTERNAL_ERROR TASK_RUN_DEQUEUED_MAX_RETRIES
       (Some "We tried to dequeue the run the maximum number of times but it wouldn't start executing")
       None)
    None None None [] None.

(** The test for a retry through the queue. *)
Definition retries_in_queue (forceRequeue : bool) (method : retry_method) (delay : Z) : bool :=
  forceRequeue || match method with RetryQueue => true | RetryImmediate => false end ||
  match eo_retryWarmStartThresholdMs options with Some n => n <=? delay | None => false end.

Definition attemptFailed_with (runId snapshotId : string) (workerId runnerId : option string)
    (completion : failure_completion) (forceRequeue : bool) : M CompleteRunAttemptResult :=
  lock runId (
    latestSnapshot <- getLatestExecutionSnapshot runId ;;
    check_latest latestSnapshot snapshotId ;;;
    clearBlockingWaitpoints runId ;;;
    failedAt <- current_time ;;
    view <- retry_view runId ;;
    let '(row, now, rnd) := view in
    match retryOutcomeFromCompletion rnd pow now row (sn_attemptNumber latestSnapshot)
            (fc_error completion) forceRequeue (fc_retry completion) with
    | None => e_throw (ServiceValidationError "Run not found" (Some 404))
    | Some retryResult =>
        (if forceRequeue then
           minimalRun <- find_run runId ;;
           match minimalRun with
           | None => e_throw (ServiceValidationError "Run not found" (Some 404))
           | Some _ => e_ret tt
           end
         else e_ret tt) ;;;
        match retryResult with
        | cancel_run reason =>
            result <- cancelRun runId None None (Some failedAt) reason true None
                        (fc_durationMs completion) ;;
            e_ret (if bool_decide (er_executionStatus result.1 = Exec_PENDING_CANCEL)
                   then RUN_PENDING_CANCEL else RUN_FINISHED, result.1)
        | fail_run sanitizedError _ =>
            permanentlyFailRun runId latestSnapshot failedAt sanitizedError workerId runnerId
              (fc_durationMs completion)
        | retry method settings machine _ currentUsageDurationMs currentCostInCents machinePreset =>
            let '(usageDurationMs, costInCents) :=
              calculateUpdatedUsage currentUsageDurationMs currentCostInCents
                (default 0 (fc_durationMs completion)) machinePreset
                (sn_environmentType latestSnapshot) in
            run <- update_run runId (λ _ r,
              r {{ tr_machinePreset := with_default (tr_machinePreset r) machine;
                   tr_usageDurationMs := usageDurationMs;
                   tr_costInCents := costInCents }}) ;;
            if retries_in_queue forceRequeue method (retry_delay settings) then
              nackResult <- tryNackAndRequeue_with runId
                              (requeue_after_failure run (retry_timestamp settings)) ;;
              e_ret (match nackResult with
                     | Requeued result => (RETRY_QUEUED, result)
                     | NotRequeued result => result
                     end)
            else
              newSnapshot <- createExecutionSnapshot
                (next_of latestSnapshot (tr_status run) (tr_attemptNumber run) Exec_EXECUTING
                   "Attempt failed with a short delay, starting a new attempt" workerId runnerId) ;;
              e_ret (RETRY_IMMEDIATELY, executionResultFromSnapshot newSnapshot.1 newSnapshot.2)
        end
    end).

End Recursion.

(** [fuel] bounds the depth of the recursion. *)
Fixpoint attemptFailed_fuel (fuel : nat) (runId snapshotId : string)
    (workerId runnerId : option string) (completion : failure_completion) (forceRequeue : bool)
    : M CompleteRunAttemptResult :=
  match fuel with
  | O => e_throw Unended
  | S fuel =>
      attemptFailed_with (λ r s c, attemptFailed_fuel fuel r s None None c false)
        runId snapshotId workerId runnerId completion forceRequeue
  end.

(** An inner failure is never retried, so two levels are all there are. *)
Definition attemptFailed := attemptFailed_fuel 2.
Definition systemFailure :=
  systemFailure_with (λ r s c, attemptFailed_fuel 2 r s None None c false).
Definition tryNackAndRequeue :=
  tryNackAndRequeue_with (λ r s c, attemptFailed_fuel 2 r s None None c false).

(** [completeRunAttempt]: one completion or the other. *)
Definition completeRunAttempt (runId snapshotId : string)
    (completion : success_completion + failure_completion) (workerId runnerId : option string)
    : M CompleteRunAttemptResult :=
  match completion with
  | inl completion => attemptSucceeded runId snapshotId completion workerId runnerId
  | inr completion => attemptFailed runId snapshotId workerId runnerId completion false
  end.

(** ** Starting *)

(** The update of [startRunAttempt]. *)
Definition started (now nextAttemptNumber : Z) (first : bool) (r : TaskRun) : TaskRun :=
  r {{ tr_status := Run_EXECUTING;
       tr_attemptNumber := Some nextAttemptNumber;
       tr_executedAt := if first then Some now else tr_executedAt r }}.

(** The transaction of [startRunAttempt]: the run and the snapshot, under the id [id] and
    with the times [now] they were written, become visible when it commits, after the
    calls of the worker it makes. *)
Definition commit_start (runId id : string) (now nextAttemptNumber : Z) (first : bool)
    (si : snapshot_input) : M (TaskRun * TaskRunExecutionSnapshot) :=
  stmt_or (ServiceValidationError "Failed to update task run and execution snapshot" (Some 500)) (λ s,
    run ← t_find runId (taskRun (es_tables s));
    let run := started now nextAttemptNumber first run in
    let row := snapshot_data now si in
    Some ((run, row), s {{ es_tables := put_snapshot id row (put_run runId run (es_tables s)) }})).

(** The writes of the transaction before it commits. *)
Definition begin_start (runId : string) (nextAttemptNumber : Z) (first : bool)
    : M (TaskRun * string * Z) :=
  stmt_or (ServiceValidationError "Failed to update task run and execution snapshot" (Some 500)) (λ s,
    run ← t_find runId (taskRun (es_tables s));
    Some ((started (es_clock s) nextAttemptNumber first run, next_id gen s, es_clock s), take_id s)).

Definition startRunAttempt (runId snapshotId : string) (workerId runnerId : option string)
    (isWarmStart : bool) : M (TaskRun * (string * TaskRunExecutionSnapshot)) :=
  lock runId (
    latestSnapshot <- getLatestExecutionSnapshot runId ;;
    if negb (bool_decide (snapshot_id latestSnapshot = snapshotId))
    then e_throw (ServiceValidationError "Snapshot changed inside startRunAttempt" (Some 409))
    else
      found <- find_run runId ;;
      match found with
      | None => e_throw (ServiceValidationError "Task run not found" (Some 404))
      | Some taskRun =>
          if isFinishedOrPendingFinished (sn_executionStatus latestSnapshot)
          then e_throw (ServiceValidationError "Task run is already finished" (Some 400))
          else if negb (truthy_opt (tr_lockedById taskRun))
          then e_throw (ServiceValidationError "Task run is not locked" (Some 400))
          else
            let nextAttemptNumber := default 0 (tr_attemptNumber taskRun) + 1 in
            if MAX_TASK_RUN_ATTEMPTS <? nextAttemptNumber then
              attemptFailed runId snapshotId None None
                (MkFailure (INTERNAL_ERROR TASK_RUN_CRASHED (Some "Max attempts reached.") None)
                   None None) false ;;;
              e_throw (ServiceValidationError "Max attempts reached" (Some 400))
            else
              let first := bool_decide (tr_attemptNumber taskRun = None) in
              begun <- begin_start runId nextAttemptNumber first ;;
              let '(run, id, now) := begun in
              let si :=
                (next_of latestSnapshot (tr_status run) (tr_attemptNumber run) Exec_EXECUTING
                   ("Attempt created, starting execution" +:+
                      (if isWarmStart then " (warm start)" else "")) workerId runnerId)
                  {{ si_runId := runId;
                     si_batchId := sn_batchId latestSnapshot;
                     si_completedWaitpoints := completed_of latestSnapshot }} in
              set_heartbeat gen options id si ;;;
              (if truthy_opt (tr_ttl taskRun) then ack_job ("expireRun:" +:+ runId) else e_ret tt) ;;;
              result <- commit_start runId id now nextAttemptNumber first si ;;
              e_ret (result.1, (id, result.2))
      end).

End Attempts.
