(* ===== verification/EngineLifecycle.v ===== *)
(** * EngineLifecycle: checkpoints, delayed runs, expiry, and the jobs of the engine
    (engine/systems/checkpointSystem.ts, delayedRunSystem.ts, ttlSystem.ts, and the
    handlers of engine/index.ts)

    Events and notifications to workers are left out, as in [EngineSystems]. *)

From Stdlib Require Import SpecFloat.
From S2P Require Import Prelude Text Messages Retry KeyProducer RunQueue EngineErrors EngineProg.
From S2P Require Import EngineData Duration EngineSystems EngineAttempts.
Local Open Scope Z_scope.
Local Open Scope engine_scope.

Section Lifecycle.
Context {T : Type → Type} {J Q : Type} {TB : Table T} {W : Worker J} {EQ : EngineQueue Q}.
Context (gen : nat → string) (options : EngineOptions).
Context (stringify_error : TaskRunError → string).
Local Notation M := (M T J Q).
Local Notation tables := (tables T).
Local Notation createExecutionSnapshot := (createExecutionSnapshot gen options).
Local Notation enqueueRun := (enqueueRun gen options).

(** ** CheckpointSystem *)

(** Why a checkpoint is discarded. *)
Inductive checkpoint_error : Type :=
| NotTheLatestSnapshot
| StatusNotCheckpointable (status : TaskRunExecutionStatus).

(** The id of the checkpoint comes with the result. *)
Definition CreateCheckpointResult : Type := checkpoint_error + ExecutionResult * string.

(** [taskRunCheckpoint.create]. *)
Definition insert_checkpoint (checkpoint : TaskRunCheckpoint) : M string :=
  stmt (λ s, (next_id gen s,
    (take_id s) {{ es_tables := put_checkpoint (next_id gen s) checkpoint (es_tables s) }})).

(** [if (run.organizationId) await runQueue.releaseAllConcurrency(...)]. *)
Definition release_concurrency (runId : string) (run : TaskRun) : M unit :=
  match nonempty_text (tr_organizationId run) with
  | Some orgId => on_queue gen (λ _ _, queue_releaseAllConcurrency orgId runId)
  | None => e_ret tt
  end.

Definition createCheckpoint (runId snapshotId : string) (checkpoint : TaskRunCheckpoint)
    (workerId runnerId : option string) : M CreateCheckpointResult :=
  lock runId (
    snapshot <- getLatestExecutionSnapshot runId ;;
    let isValidSnapshot :=
      bool_decide (snapshot_id snapshot = snapshotId) ||
      (bool_decide (sn_previousSnapshotId snapshot = Some snapshotId) &&
       bool_decide (sn_executionStatus snapshot = Exec_QUEUED_EXECUTING)) in
    if negb isValidSnapshot then e_ret (inl NotTheLatestSnapshot)
    else if negb (isCheckpointable (sn_executionStatus snapshot))
    then e_ret (inl (StatusNotCheckpointable (sn_executionStatus snapshot)))
    else
      run <- update_run runId (λ _ r, r {{ tr_status := Run_WAITING_TO_RESUME }}) ;;
      checkpointId <- insert_checkpoint checkpoint ;;
      newSnapshot <-
        (if bool_decide (sn_executionStatus snapshot = Exec_QUEUED_EXECUTING) then
           enqueueRun runId run
             (default_enqueue
                {{ eq_description :=
                     "Run was QUEUED, because it was queued and executing and a checkpoint was created";
                   eq_previousSnapshotId := Some (snapshot_id snapshot);
                   eq_batchId := sn_batchId snapshot;
                   eq_completedWaitpoints := completed_of snapshot;
                   eq_checkpointId := Some checkpointId }})
         else
           createExecutionSnapshot
             ((next_of snapshot (tr_status run) (tr_attemptNumber run) Exec_SUSPENDED
                 "Run was suspended after creating a checkpoint." workerId runnerId)
                {{ si_runId := runId;
                   si_batchId := sn_batchId snapshot;
                   si_completedWaitpoints := completed_of snapshot;
                   si_checkpointId := Some checkpointId }})) ;;
      release_concurrency runId run ;;;
      e_ret (inr (executionResultFromSnapshot newSnapshot.1 newSnapshot.2, checkpointId))).

Definition continueRunExecution (runId snapshotId : string) (workerId runnerId : option string)
    : M ExecutionResult :=
  lock runId (
    snapshot <- getLatestExecutionSnapshot runId ;;
    if negb (bool_decide (snapshot_id snapshot = snapshotId))
    then e_throw (ServiceValidationError
           "Snapshot ID doesn't match the latest snapshot in continueRunExecution" (Some 400))
    else if negb (isPendingExecuting (sn_executionStatus snapshot))
    then e_throw (ServiceValidationError
           "Snapshot is not in a valid state to continue in continueRunExecution" (Some 400))
    else
      run <- update_run runId (λ _ r, r {{ tr_status := Run_EXECUTING }}) ;;
      newSnapshot <- createExecutionSnapshot
        ((next_of snapshot (tr_status run) (tr_attemptNumber run) Exec_EXECUTING
            "Run was continued after being suspended" workerId runnerId)
           {{ si_runId := runId;
              si_batchId := sn_batchId snapshot;
              si_completedWaitpoints := completed_of snapshot }}) ;;
      e_ret (executionResultFromSnapshot newSnapshot.1 newSnapshot.2)).

(** ** DelayedRunSystem *)

(** A run that has not been put into the queue yet. *)
Definition still_delayed (status : TaskRunExecutionStatus) : bool :=
  bool_decide (status = Exec_DELAYED) || bool_decide (status = Exec_RUN_CREATED).

Definition delayed_job (runId : string) : string := "enqueueDelayedRun:" +:+ runId.

Definition rescheduleDelayedRun (runId : string) (delayUntil : Z) : M TaskRun :=
  lock runId (
    snapshot <- getLatestExecutionSnapshot runId ;;
    if negb (still_delayed (sn_executionStatus snapshot))
    then e_throw (ServiceValidationError "Cannot reschedule a run that is not delayed" None)
    else
      updatedRun <- update_with_snapshot gen runId
        (λ _ r, r {{ tr_delayUntil := Some delayUntil }})
        (λ now, nested_snapshot now runId snapshot Exec_DELAYED
                  "Delayed run was rescheduled to a future date" Run_DELAYED None None None) ;;
      reschedule_job (delayed_job runId) (λ _, delayUntil) ;;;
      e_ret (ur_run updatedRun)).

(** [worker.enqueue({ id: `expireRun:...` })], if the time to live can be parsed. *)
Definition scheduleExpireRun (runId ttl : string) : M unit :=
  now <- current_time ;;
  match parseNaturalLanguageDuration now ttl with
  | Some expireAt =>
      enqueue_job gen ("expireRun:" +:+ runId) (Job_expireRun runId) (λ _, Some expireAt)
  | None => e_ret tt
  end.

Definition enqueueDelayedRun (runId : string) : M unit :=
  lock runId (
    snapshot <- getLatestExecutionSnapshot runId ;;
    if negb (still_delayed (sn_executionStatus snapshot)) then e_ret tt
    else
      found <- find_run runId ;;
      match found with
      | None => e_throw (PlainError ("#enqueueDelayedRun: run not found: " +:+ runId))
      | Some run =>
          now <- current_time ;;
          if match tr_delayUntil run with Some d => now <? d | None => false end then e_ret tt
          else
            enqueueRun runId run
              (default_enqueue {{ eq_batchId := tr_batchId run; eq_skipRunLock := true }}) ;;;
            queuedAt <- current_time ;;
            update_run runId (λ _ r,
              r {{ tr_status := Run_PENDING; tr_queuedAt := Some queuedAt }}) ;;;
            match nonempty_text (tr_ttl run) with
            | Some ttl => scheduleExpireRun runId ttl
            | None => e_ret tt
            end
      end).

Definition scheduleDelayedRunEnqueuing (runId : string) (delayUntil : Z) : M unit :=
  enqueue_job gen (delayed_job runId) (Job_enqueueDelayedRun runId) (λ _, Some delayUntil).

(** ** TtlSystem *)

(** [`Run expired because the TTL (${run.ttl}) was reached`]. *)
Definition ttl_error (ttl : option string) : TaskRunError :=
  STRING_ERROR ("Run expired because the TTL (" +:+ default "null" ttl +:+ ") was reached").

Definition expireRun (runId : string) : M unit :=
  lock runId (
    snapshot <- getLatestExecutionSnapshot runId ;;
    if isExecuting (sn_executionStatus snapshot) then e_ret tt
    else
      found <- find_run runId ;;
      match found with
      | None => e_ret tt
      | Some run =>
          if negb (bool_decide (tr_status run = Run_PENDING)) then e_ret tt
          else if bool_decide (is_Some (tr_lockedAt run)) then e_ret tt
          else
            let error := ttl_error (tr_ttl run) in
            updatedRun <- update_with_snapshot gen runId
              (λ now r, r {{ tr_status := Run_EXPIRED;
                             tr_completedAt := Some now;
                             tr_expiredAt := Some now;
                             tr_error := Some error }})
              (λ now, nested_snapshot now runId snapshot Exec_FINISHED
                        "Run was expired because the TTL was reached" Run_EXPIRED None None None) ;;
            on_queue gen (λ now nonce, queue_acknowledgeMessage now nonce
              (env_organization_id (ae_env (tr_env updatedRun))) runId true) ;;;
            complete_associated gen updatedRun (Some (MkOutput (stringify_error error) None true))
      end).

(** The runs [expireRunsBatch] reads, with their waitpoints. *)
Definition runs_to_check (runIds : list string) (t : tables) : list (string * updated_run) :=
  (λ kr, (kr.1, select_run kr.1 kr.2 t)) <$>
  base.filter (λ kr, kr.1 ∈ runIds) (t_rows (taskRun t)).

Inductive skip_reason : Type := Skip_status (status : TaskRunStatus) | Skip_locked | Skip_not_found.

Definition skip_run (r : TaskRun) : option skip_reason :=
  if negb (bool_decide (tr_status r = Run_PENDING)) then Some (Skip_status (tr_status r))
  else if bool_decide (is_Some (tr_lockedAt r)) then Some Skip_locked
  else None.

(** The error of a run of the batch, and its update. *)
Definition batch_ttl_error : TaskRunError := STRING_ERROR "Run expired because the TTL was reached".

Definition expire_row (now : Z) (r : TaskRun) : TaskRun :=
  r {{ tr_status := Run_EXPIRED; tr_completedAt := Some now; tr_expiredAt := Some now;
       tr_error := Some batch_ttl_error }}.

(** [UPDATE "TaskRun" SET ... WHERE "id" IN (...)]. *)
Definition expire_rows (now : Z) (ids : list string) : M unit :=
  stmt (λ s, (tt, s {{ es_tables :=
    foldl (λ t id, match t_find id (taskRun t) with
                   | Some r => put_run id (expire_row now r) t
                   | None => t
                   end) (es_tables s) ids }})).

(** The runs are handled one after the other. *)
Fixpoint finish_expired (runs : list (string * updated_run)) : M (list string) :=
  match runs with
  | [] => e_ret []
  | (id, run) :: runs =>
      match ur_associatedWaitpoint run with
      | Some w => enqueue_job gen ("finishWaitpoint.ttl." +:+ w)
                    (Job_finishWaitpoint w (Some (stringify_error batch_ttl_error))) (λ _, None)
      | None => e_ret tt
      end ;;;
      expired <- finish_expired runs ;;
      e_ret (if truthy_opt (tr_organizationId run) then id :: expired else expired)
  end.

Definition expireRunsBatch (runIds : list string)
    : M (list string * list (string * skip_reason)) :=
  if bool_decide (runIds = []) then e_ret ([], [])
  else
    runs <- query (runs_to_check runIds) ;;
    let skipped :=
      omap (λ kr : string * updated_run, (λ why, (kr.1, why)) <$> skip_run kr.2) runs ++
      ((λ id, (id, Skip_not_found)) <$> base.filter (λ id, id ∉ runs.*1) runIds) in
    let runsToExpire := base.filter (λ kr : string * updated_run, skip_run kr.2 = None) runs in
    if bool_decide (runsToExpire.*1 = []) then e_ret ([], skipped)
    else
      now <- current_time ;;
      expire_rows now (runsToExpire.*1) ;;;
      expired <- finish_expired runsToExpire ;;
      e_ret (expired, skipped).

(** [#resolveMaxTtl]. *)
Definition resolveMaxTtl (ttl : option string) : option string :=
  match nonempty_text (eo_defaultMaxTtl options) with
  | None => ttl
  | Some maxTtl =>
      match nonempty_text ttl with
      | None => Some maxTtl
      | Some t =>
          match parseNaturalLanguageDurationInMs maxTtl, parseNaturalLanguageDurationInMs t with
          | None, _ => Some t
          | _, None => Some maxTtl
          | Some maxTtlMs, Some ttlMs => if ttlMs <=? maxTtlMs then Some t else Some maxTtl
          end
      end
  end.

End Lifecycle.
