(* ===== verification/EngineHandlers.v ===== *)
(** * EngineHandlers: the jobs of the engine's worker
    (the handlers of engine/index.ts and processItem of packages/redis-worker/src/worker.ts)

    [humanize] is the library that prints a duration; it is used in error messages only. *)

From Stdlib Require Import SpecFloat.
From S2P Require Import Prelude Text Messages Retry KeyProducer RunQueue EngineErrors EngineProg.
From S2P Require Import EngineData Duration EngineSystems EngineAttempts EngineLifecycle.
Local Open Scope Z_scope.
Local Open Scope engine_scope.

Section Handlers.
Context {T : Type → Type} {J Q : Type} {TB : Table T} {W : Worker J} {EQ : EngineQueue Q}.
Context (gen : nat → string) (options : EngineOptions).
Context (stringify_error : TaskRunError → string) (humanize : Z → string).
Context (random : string → spec_float) (pow : spec_float → spec_float → spec_float).
Local Notation M := (M T J Q).

(** ** Stalled snapshots *)

(** The delay before the heartbeat of a suspended run is restarted, and the number of the
    restart; [None] when it is not. *)
Definition restart_delay (restartAttempt : option Z) (waitpoints : list (string * Waitpoint))
    : option (Z * Z) :=
  config ← eo_suspendedHeartbeatRetriesConfig options;
  if negb (existsb (λ w, bool_decide (wp_type w.2 = Wait_RUN) || bool_decide (wp_type w.2 = Wait_BATCH))
             waitpoints)
  then None
  else
    let initialDelayMs := default 60000 (sr_initialDelayMs config) in
    let attempt := default 0 restartAttempt + 1 in
    let maxDelayMs := default (60000 * 60 * 6) (sr_maxDelayMs config) in
    let factor := default (double_of_Z 2) (sr_factor config) in
    let maxCount := default 12 (sr_maxCount config) in
    if maxCount <=? attempt then None
    else
      delayMs ← lua_floor (d_min (d_mul (double_of_Z initialDelayMs)
                                    (pow factor (double_of_Z (attempt - 1))))
                             (double_of_Z maxDelayMs));
      Some (delayMs, attempt).

(** The error of a run that stalled while it executed. *)
Definition stalled_error (latestSnapshot : EnhancedExecutionSnapshot) : TaskRunError :=
  let executing := bool_decide (sn_executionStatus latestSnapshot = Exec_EXECUTING) in
  let timeoutDuration :=
    humanize (if executing then timeout_EXECUTING (eo_heartbeatTimeouts options)
              else timeout_EXECUTING_WITH_WAITPOINTS (eo_heartbeatTimeouts options)) in
  let development := bool_decide (sn_environmentType latestSnapshot = DEVELOPMENT) in
  let errorMessage :=
    "Run timed out after " +:+ timeoutDuration +:+
    " due to missing heartbeats (sent every 30s). " +:+
    (if development
     then "Check if your `trigger.dev dev` CLI is still running, or if CPU-heavy work is blocking the main thread."
     else "This typically happens when CPU-heavy work blocks the main thread.") in
  if negb development && eo_treatProductionExecutionStallsAsOOM options
  then INTERNAL_ERROR TASK_PROCESS_OOM_KILLED
         (Some "Run was terminated due to running out of memory") None
  else INTERNAL_ERROR (if executing then TASK_RUN_STALLED_EXECUTING
                       else TASK_RUN_STALLED_EXECUTING_WITH_WAITPOINTS) (Some errorMessage) None.

Definition no_heartbeat (status : string) : M unit :=
  e_throw (NotImplementedError ("There shouldn't be a heartbeat for " +:+ status)).

Definition handleStalledSnapshot (runId snapshotId : string) (restartAttempt : option Z) : M unit :=
  lock runId (
    latestSnapshot <- getLatestExecutionSnapshot runId ;;
    if negb (bool_decide (snapshot_id latestSnapshot = snapshotId)) then e_ret tt
    else
      match sn_executionStatus latestSnapshot with
      | Exec_RUN_CREATED => no_heartbeat "RUN_CREATED"
      | Exec_QUEUED => no_heartbeat "QUEUED"
      | Exec_QUEUED_EXECUTING => no_heartbeat "QUEUED_EXECUTING"
      | Exec_FINISHED => no_heartbeat "FINISHED"
      | Exec_DELAYED => no_heartbeat "DELAYED"
      | Exec_PENDING_EXECUTING =>
          run <- find_run runId ;;
          match run with
          | None => e_throw (PlainError ("Run " +:+ runId +:+ " not found"))
          | Some _ =>
              tryNackAndRequeue gen options stringify_error random pow runId
                (MkRequeue (sn_environmentId latestSnapshot) (sn_environmentType latestSnapshot)
                   (sn_organizationId latestSnapshot) (sn_projectId latestSnapshot) None
                   (INTERNAL_ERROR TASK_RUN_DEQUEUED_MAX_RETRIES
                      (Some "Trying to create an attempt failed multiple times, exceeding how many times we retry.")
                      None)
                   None None (sn_checkpointId latestSnapshot) (completed_of latestSnapshot)
                   (sn_batchId latestSnapshot)) ;;;
              e_ret tt
          end
      | Exec_EXECUTING | Exec_EXECUTING_WITH_WAITPOINTS =>
          now <- current_time ;;
          attemptFailed gen options stringify_error random pow runId (snapshot_id latestSnapshot)
            None None
            (MkFailure (stalled_error latestSnapshot)
               (if bool_decide (sn_environmentType latestSnapshot = DEVELOPMENT) then None
                else Some (MkRetry (now + 250) 250)) None) true ;;;
          e_ret tt
      | Exec_SUSPENDED =>
          result <- continueRunIfUnblocked gen options runId ;;
          match result with
          | blocked waitpoints =>
              match restart_delay restartAttempt waitpoints with
              | Some (delayMs, attempt) =>
                  restartHeartbeatForRun gen runId delayMs attempt ;;; e_ret tt
              | None => e_ret tt
              end
          | _ => e_ret tt
          end
      | Exec_PENDING_CANCEL =>
          cancelRun gen options stringify_error (sn_runId latestSnapshot) None None None None true
            None None ;;;
          e_ret tt
      end).

(** ** Repairs *)

Definition handleRepairSnapshot (runId snapshotId : string) : M unit :=
  lock runId (
    latestSnapshot <- getLatestExecutionSnapshot runId ;;
    if negb (bool_decide (snapshot_id latestSnapshot = snapshotId)) then e_ret tt
    else
      match sn_executionStatus latestSnapshot with
      | Exec_QUEUED =>
          on_queue gen (λ now nonce, queue_nackMessage now nonce (random nonce)
            (sn_organizationId latestSnapshot) runId None) ;;;
          e_ret tt
      | Exec_FINISHED | Exec_SUSPENDED =>
          found <- find_run runId ;;
          match found with
          | None => e_ret tt
          | Some run =>
              on_queue gen (λ _ _, queue_clearMessageFromConcurrencySets runId
                (sn_organizationId latestSnapshot) (tr_queue run)
                (EnvObj (sn_environmentId latestSnapshot) (sn_projectId latestSnapshot)
                   (sn_organizationId latestSnapshot)))
          end
      | _ => e_ret tt
      end).

(** ** The handlers of the jobs *)

(** The handler of a job; that of [queueRunsPendingVersion] is in [EngineDequeue], which
    has the handlers of all jobs. *)
Definition job_handler (job : engine_job) : option (M unit) :=
  match job with
  | Job_finishWaitpoint waitpointId error =>
      Some (completeWaitpoint gen waitpointId
              (option_map (λ e, MkOutput e None true) (nonempty_text error)) ;;; e_ret tt)
  | Job_heartbeatSnapshot runId snapshotId restartAttempt =>
      Some (handleStalledSnapshot runId snapshotId restartAttempt)
  | Job_repairSnapshot runId snapshotId _ => Some (handleRepairSnapshot runId snapshotId)
  | Job_expireRun runId => Some (expireRun gen stringify_error runId)
  | Job_cancelRun runId completedAt reason =>
      Some (cancelRun gen options stringify_error runId None None (Some completedAt) reason false
              None None ;;; e_ret tt)
  | Job_queueRunsPendingVersion _ => None
  | Job_tryCompleteBatch batchId => Some (performCompleteBatch gen batchId ;;; e_ret tt)
  | Job_continueRunIfUnblocked runId =>
      Some (continueRunIfUnblocked gen options runId ;;; e_ret tt)
  | Job_enqueueDelayedRun runId => Some (enqueueDelayedRun gen options runId)
  end.

(** ** processItem *)

(** [defaultRetrySettings]; no job of the catalog has settings of its own. *)
Definition defaultRetrySettings : RetryOptions :=
  MkRetryOptions (Some 12) (Some (double_of_Z 2)) (Some 1000) (Some 3600000) (Some true).

(** The text of an error is only stored. *)
Definition processItem (handler : M unit) (errorMessage : engine_error → string) (id : string)
    (it : job_item) : M unit :=
  e_catch
    (handler ;;; on_worker (worker_ack id (ji_key it)))
    (λ e,
       let newAttempt := ji_attempt it + 1 in
       rnd <- stmt (λ s, (random (next_id gen s), take_id s)) ;;
       match nonzero (default None (calculateNextRetryDelay rnd pow defaultRetrySettings newAttempt)) with
       | None => on_worker (worker_bury id (errorMessage e))
       | Some retryDelay =>
           stmt (λ s, (tt, (take_id s) {{ es_worker :=
             worker_enqueue (es_clock s) (next_id gen s) id (ji_job it) (Some newAttempt)
               (Some (es_clock s + retryDelay)) (es_worker s) }}))
       end).

(** What the loop of a worker does with one item: it is dequeued, and processed if there
    is a handler for it.  (No job of the engine is a batch job.) *)
Definition dequeue_item : M (option (string * job_item)) :=
  stmt (λ s, ((worker_take (es_clock s) (es_worker s)).1,
              s {{ es_worker := (worker_take (es_clock s) (es_worker s)).2 }})).

Definition work_item (errorMessage : engine_error → string) : M unit :=
  item <- dequeue_item ;;
  match item with
  | None => e_ret tt
  | Some (id, it) =>
      match job_handler (ji_job it) with
      | None => e_ret tt
      | Some handler => processItem handler errorMessage id it
      end
  end.

End Handlers.
