(* ===== verification/EngineDequeue.v ===== *)
(** * EngineDequeue: handing runs to workers
    (engine/systems/dequeueSystem.ts, pendingVersionSystem.ts, engine/machinePresets.ts,
    core's isomorphic/maxDuration.ts)

    A worker takes a run from a worker queue; the engine looks up the version of the code
    that executes it, locks the run to it, and hands the run over, or lets it wait for a
    deployment.

    The tables of background workers and deployments are written by other parts of the
    platform: [catalog] gives what they hold at each time.  The tasks and queues of a
    background worker, rows of their own, are part of its row.  Ids are ordered as texts.
    The plan of an organisation comes from [getCurrentPlan], a cache in front of the
    billing service ([None]: it failed or has no value); it only marks the result.
    A configuration of retries that cannot be parsed is not an empty or falsy value.

    The runs that wait for a version are read from a replica of the database; here they
    are read from the database.

    Left out: log messages, spans, events and notifications; columns that are only copied
    (versions of the SDK and the CLI, trace contexts, annotations). *)

From Stdlib Require Import SpecFloat.
From S2P Require Import Prelude Text Messages Retry KeyProducer RunQueue EngineErrors EngineProg.
From S2P Require Import EngineData Duration EngineSystems EngineAttempts EngineLifecycle EngineHandlers.
Local Open Scope Z_scope.
Local Open Scope engine_scope.

(** ** Machines *)

Record MachinePreset : Type := MkMachinePreset {
  mp_name : string;
  mp_cpu : spec_float;
  mp_memory : spec_float;
}.

(** [MachinePresetName]. *)
Definition machinePresetNames : list string :=
  ["micro"; "small-1x"; "small-2x"; "medium-1x"; "medium-2x"; "large-1x"; "large-2x"].

(** A column that holds a [MachineConfig] as JSON, or something else; the numbers the schema
    allows are not zero. *)
Inductive machine_config : Type :=
| MachineInvalid
| MachineConfig (preset : option string) (cpu memory : option spec_float).

(** [machines] as its entries; a name without an entry gives an empty object. *)
Definition machinePresetFromName (machines : list (string * MachinePreset)) (name : string)
    : option MachinePreset :=
  (λ p, p.2.2) <$> list_find (λ p : string * MachinePreset, p.1 = name) machines.

Definition derivePresetNameFromValues (machines : list (string * MachinePreset))
    (cpu memory : spec_float) : option string :=
  (λ p, p.2.1) <$>
  list_find (λ p : string * MachinePreset,
    d_geb (mp_cpu p.2) cpu && d_geb (mp_memory p.2) memory = true) machines.

Definition getMachinePreset (defaultMachine : string) (machines : list (string * MachinePreset))
    (config : machine_config) (machinePreset : option string) : option MachinePreset :=
  match nonempty_text machinePreset with
  | Some name =>
      machinePresetFromName machines (if decide (name ∈ machinePresetNames) then name else defaultMachine)
  | None =>
      match config with
      | MachineInvalid => machinePresetFromName machines "small-1x"
      | MachineConfig (Some preset) _ _ => machinePresetFromName machines preset
      | MachineConfig None (Some cpu) (Some memory) =>
          machinePresetFromName machines
            (default defaultMachine (derivePresetNameFromValues machines cpu memory))
      | MachineConfig None _ _ => machinePresetFromName machines "small-1x"
      end
  end.

(** ** Durations *)

Definition MINIMUM_MAX_DURATION : Z := 5.
Definition MAXIMUM_MAX_DURATION : Z := 2147483647.

Definition clampMaxDuration (maxDuration : Z) : Z :=
  Z.min (Z.max maxDuration MINIMUM_MAX_DURATION) MAXIMUM_MAX_DURATION.

Definition getMaxDuration (maxDuration defaultMaxDuration : option Z) : option Z :=
  match nonzero maxDuration with
  | None => defaultMaxDuration
  | Some d => if d =? MAXIMUM_MAX_DURATION then None else Some d
  end.

(** ** Background workers and deployments *)

Record BackgroundWorkerTask : Type := MkTask {
  bk_id : string;
  bk_slug : string;
  bk_projectId : string;
  bk_runtimeEnvironmentId : string;
  bk_createdAt : Z;
  bk_retryConfig : option retry_config;
  bk_machineConfig : option machine_config;
  bk_maxDurationInSeconds : option Z;
}.

Record TaskQueue : Type := MkTaskQueue {
  tq_id : string;
  tq_name : string;
}.

Record BackgroundWorker : Type := MkBackgroundWorker {
  bw_version : string;
  bw_projectId : string;
  bw_runtimeEnvironmentId : string;
  bw_tasks : list BackgroundWorkerTask;
  bw_queues : list TaskQueue;
}.

Inductive WorkerDeploymentType : Type := Deploy_MANAGED | Deploy_UNMANAGED | Deploy_V1.

Record WorkerDeployment : Type := MkDeployment {
  wd_type : WorkerDeploymentType;
  wd_environmentId : string;
  wd_workerId : option string;
  wd_imageReference : option string;
}.

Record WorkerDeploymentPromotion : Type := MkPromotion {
  pr_environmentId : string;
  pr_label : string;
  pr_deploymentId : string;
}.

(** What these tables hold, and the environments that are archived. *)
Record worker_catalog (T : Type → Type) : Type := MkCatalog {
  backgroundWorker : T BackgroundWorker;
  workerDeployment : T WorkerDeployment;
  workerDeploymentPromotion : T WorkerDeploymentPromotion;
  archived : gset string;
}.
Arguments MkCatalog {T}.
Arguments backgroundWorker {T}.
Arguments workerDeployment {T}.
Arguments workerDeploymentPromotion {T}.
Arguments archived {T}.

Definition CURRENT_DEPLOYMENT_LABEL : string := "current".

(** A worker with its id, and its deployment with its own. *)
Record WorkerDeploymentWithWorkerTasks : Type := MkWorkerWithTasks {
  ww_id : string;
  ww_worker : BackgroundWorker;
  ww_deployment : option (string * WorkerDeployment);
}.

(** The codes of a failed look-up. *)
Inductive lookup_code : Type :=
| NO_WORKER | TASK_NOT_IN_LATEST | TASK_NEVER_REGISTERED | BACKGROUND_WORKER_MISMATCH
| QUEUE_NOT_FOUND | RUN_ENVIRONMENT_ARCHIVED.

Definition code_text (code : lookup_code) : string :=
  match code with
  | NO_WORKER => "NO_WORKER"
  | TASK_NOT_IN_LATEST => "TASK_NOT_IN_LATEST"
  | TASK_NEVER_REGISTERED => "TASK_NEVER_REGISTERED"
  | BACKGROUND_WORKER_MISMATCH => "BACKGROUND_WORKER_MISMATCH"
  | QUEUE_NOT_FOUND => "QUEUE_NOT_FOUND"
  | RUN_ENVIRONMENT_ARCHIVED => "RUN_ENVIRONMENT_ARCHIVED"
  end.

Definition execution_status_text (status : TaskRunExecutionStatus) : string :=
  match status with
  | Exec_RUN_CREATED => "RUN_CREATED"
  | Exec_DELAYED => "DELAYED"
  | Exec_QUEUED => "QUEUED"
  | Exec_QUEUED_EXECUTING => "QUEUED_EXECUTING"
  | Exec_PENDING_EXECUTING => "PENDING_EXECUTING"
  | Exec_EXECUTING => "EXECUTING"
  | Exec_EXECUTING_WITH_WAITPOINTS => "EXECUTING_WITH_WAITPOINTS"
  | Exec_SUSPENDED => "SUSPENDED"
  | Exec_PENDING_CANCEL => "PENDING_CANCEL"
  | Exec_FINISHED => "FINISHED"
  end.

Inductive RunWithBackgroundWorkerTasksResult : Type :=
| NO_RUN
| lookup_failed (code : lookup_code) (message : string)
| lookup_found (run : TaskRun) (worker : WorkerDeploymentWithWorkerTasks)
    (task : BackgroundWorkerTask) (queue : TaskQueue).

(** [DequeuedMessage] of the engine: what the worker is told. *)
Record dequeued_run : Type := MkDequeuedRun {
  dr_runId : string;
  dr_snapshotId : string;
  dr_image : option string;
  dr_checkpointId : option string;
  dr_completedWaitpoints : list (string * option Z);
  dr_workerId : string;
  dr_workerVersion : string;
  dr_deploymentId : option string;
  dr_machine : option MachinePreset;
  dr_attemptNumber : Z;
  dr_workerQueue : string;
  dr_environmentId : string;
  dr_environmentType : RuntimeEnvironmentType;
  dr_organizationId : string;
  dr_hasPrivateLink : option bool;
  dr_projectId : string;
  dr_isPaying : bool;
}.

Section Dequeue.
Context {T : Type → Type} {J Q : Type} {TB : Table T} {W : Worker J} {EQ : EngineQueue Q}.
Context (gen : nat → string) (options : EngineOptions).
Context (stringify_error : TaskRunError → string) (humanize : Z → string).
Context (random : string → spec_float) (pow : spec_float → spec_float → spec_float).
Context (catalog : Z → worker_catalog T) (machines : list (string * MachinePreset)).
Context (getCurrentPlan : Z → string → option (bool * option bool)).
Context (queueRunsPendingVersionBatchSize : option Z).
Local Notation state := (engine_state T J Q).
Local Notation M := (M T J Q).

(** ** Looking up the worker *)

Definition query_catalog {A} (f : worker_catalog T → A) : M A :=
  stmt (λ s, (f (catalog (es_clock s)), s)).

(** [orderBy: { id: "desc" }]: the row with the greatest id. *)
Definition greatest_id {R} (rows : list (string * R)) : option (string * R) :=
  foldl (λ best row, match best with
                     | Some b => if decide (String.le row.1 b.1) then Some b else Some row
                     | None => Some row
                     end) None rows.

(** [worker.deployment]. *)
Definition deployment_of (workerId : string) (c : worker_catalog T)
    : option (string * WorkerDeployment) :=
  find_row (λ d, bool_decide (wd_workerId d = Some workerId)) (workerDeployment c).

Definition worker_row (deployed : bool) (workerId : string) (c : worker_catalog T)
    : option WorkerDeploymentWithWorkerTasks :=
  worker ← t_find workerId (backgroundWorker c);
  Some (MkWorkerWithTasks workerId worker (if deployed then deployment_of workerId c else None)).

(** [#getWorkerDeploymentFromWorker] and [#getWorkerById]. *)
Definition getWorkerDeploymentFromWorker (workerId : string)
    : M (option WorkerDeploymentWithWorkerTasks) := query_catalog (worker_row true workerId).
Definition getWorkerById (workerId : string) : M (option WorkerDeploymentWithWorkerTasks) :=
  query_catalog (worker_row true workerId).

(** [#getMostRecentWorker]. *)
Definition most_recent_worker (environmentId : string) (c : worker_catalog T)
    : option WorkerDeploymentWithWorkerTasks :=
  '(id, worker) ← greatest_id (select (λ w, bool_decide (bw_runtimeEnvironmentId w = environmentId))
                                (backgroundWorker c));
  Some (MkWorkerWithTasks id worker None).

Definition getMostRecentWorker (environmentId : string) : M (option WorkerDeploymentWithWorkerTasks) :=
  query_catalog (most_recent_worker environmentId).

(** The worker of a deployment. *)
Definition deployed_worker (id : string) (d : WorkerDeployment) (c : worker_catalog T)
    : option WorkerDeploymentWithWorkerTasks :=
  workerId ← wd_workerId d;
  worker ← t_find workerId (backgroundWorker c);
  Some (MkWorkerWithTasks workerId worker (Some (id, d))).

(** [#getManagedWorkerFromCurrentlyPromotedDeployment]. *)
Definition promoted_worker (environmentId : string) (c : worker_catalog T)
    : option (WorkerDeploymentType * WorkerDeploymentWithWorkerTasks) :=
  '(_, promotion) ← find_row (λ p, bool_decide (pr_environmentId p = environmentId) &&
                              bool_decide (pr_label p = CURRENT_DEPLOYMENT_LABEL))
                     (workerDeploymentPromotion c);
  d ← t_find (pr_deploymentId promotion) (workerDeployment c);
  worker ← deployed_worker (pr_deploymentId promotion) d c;
  Some (wd_type d, worker).

Definition is_managed (t : WorkerDeploymentType) : bool :=
  match t with Deploy_MANAGED => true | _ => false end.

Definition latest_managed (environmentId : string) (c : worker_catalog T)
    : option WorkerDeploymentWithWorkerTasks :=
  '(id, d) ← greatest_id (select (λ d, bool_decide (wd_environmentId d = environmentId) &&
                                 is_managed (wd_type d)) (workerDeployment c));
  deployed_worker id d c.

Definition getManagedWorkerFromCurrentlyPromotedDeployment (environmentId : string)
    : M (option WorkerDeploymentWithWorkerTasks) :=
  promotion <- query_catalog (promoted_worker environmentId) ;;
  match promotion with
  | None => e_ret None
  | Some (type, worker) =>
      if is_managed type then e_ret (Some worker)
      else query_catalog (latest_managed environmentId)
  end.

(** The worker that last registered a task in the environment of a run. *)
Definition registered_task (run : TaskRun) (c : worker_catalog T) : option BackgroundWorker :=
  let env := ae_env (tr_env run) in
  let registered :=
    t_rows (backgroundWorker c) ≫= λ '(_, worker),
      (λ task, (worker, task)) <$>
      base.filter (λ task, bk_slug task = tr_taskIdentifier run ∧ bk_projectId task = env_project_id env ∧
                           bk_runtimeEnvironmentId task = env_id env) (bw_tasks worker) in
  fst <$> head (sort_stable (λ x y : BackgroundWorker * BackgroundWorkerTask,
                               bk_createdAt y.2 <? bk_createdAt x.2) registered).

(** The worker a run is to be executed by. *)
Definition find_worker (run : TaskRun) (workerId : option string)
    : M (option WorkerDeploymentWithWorkerTasks) :=
  let environmentId := env_id (ae_env (tr_env run)) in
  if bool_decide (ae_type (tr_env run) = DEVELOPMENT) then
    match nonempty_text workerId with
    | Some workerId => getWorkerById workerId
    | None => getMostRecentWorker environmentId
    end
  else
    match nonempty_text workerId with
    | Some workerId => getWorkerDeploymentFromWorker workerId
    | None => getManagedWorkerFromCurrentlyPromotedDeployment environmentId
    end.

Definition find_task (run : TaskRun) (worker : WorkerDeploymentWithWorkerTasks)
    : option BackgroundWorkerTask :=
  snd <$> list_find (λ task, bk_slug task = tr_taskIdentifier run) (bw_tasks (ww_worker worker)).

Definition find_queue (run : TaskRun) (worker : WorkerDeploymentWithWorkerTasks) : option TaskQueue :=
  snd <$> list_find (λ queue, match nonempty_text (tr_lockedQueueId run) with
                              | Some id => bool_decide (tq_id queue = id)
                              | None => bool_decide (tq_name queue = tr_queue run)
                              end = true) (bw_queues (ww_worker worker)).

(** The run, and whether its environment is archived. *)
Definition find_run_environment (runId : string) : M (option (TaskRun * bool)) :=
  stmt (λ s,
    (option_map (λ run, (run, bool_decide (env_id (ae_env (tr_env run)) ∈ archived (catalog (es_clock s)))))
       (t_find runId (taskRun (es_tables s))), s)).

(** [#getRunWithBackgroundWorkerTasks]. *)
Definition getRunWithBackgroundWorkerTasks (runId : string) (backgroundWorkerId : option string)
    : M RunWithBackgroundWorkerTasksResult :=
  found <- find_run_environment runId ;;
  match found with
  | None => e_ret NO_RUN
  | Some (_, true) =>
      e_ret (lookup_failed RUN_ENVIRONMENT_ARCHIVED ("Run is on an archived environment: " +:+ runId))
  | Some (run, false) =>
      let workerId := with_default backgroundWorkerId (tr_lockedToVersionId run) in
      workerWithTasks <- find_worker run workerId ;;
      match workerWithTasks with
      | None => e_ret (lookup_failed NO_WORKER ("No worker found for run: " +:+ runId))
      | Some worker =>
          if match nonempty_text backgroundWorkerId with
             | Some id => negb (bool_decide (id = ww_id worker))
             | None => false
             end
          then e_ret (lookup_failed BACKGROUND_WORKER_MISMATCH
                        ("Background worker mismatch for run: " +:+ runId))
          else
            match find_task run worker with
            | None =>
                nonCurrentTask <- query_catalog (registered_task run) ;;
                match nonCurrentTask with
                | Some other =>
                    e_ret (lookup_failed TASK_NOT_IN_LATEST
                      ("Task not found in latest version: " +:+ tr_taskIdentifier run +:+
                       ". Found in " +:+ bw_version other))
                | None =>
                    e_ret (lookup_failed TASK_NEVER_REGISTERED
                      ("Task has never been registered (in dev or deployed): " +:+ tr_taskIdentifier run))
                end
            | Some task =>
                match find_queue run worker with
                | None => e_ret (lookup_failed QUEUE_NOT_FOUND ("Queue not found for run: " +:+ runId))
                | Some queue => e_ret (lookup_found run worker task queue)
                end
            end
      end
  end.

(** ** Waiting for a version *)

Definition acknowledge (orgId runId : string) : M unit :=
  on_queue gen (λ now nonce, queue_acknowledgeMessage now nonce orgId runId false).

(** [#pendingVersion]. *)
Definition pendingVersion (orgId runId reason statusReason : string) : M unit :=
  lock runId (
    run <- update_run runId (λ _ r,
      r {{ tr_status := Run_PENDING_VERSION; tr_statusReason := Some statusReason }}) ;;
    let env := tr_env run in
    createExecutionSnapshot gen options
      (MkSnapshotInput runId (tr_status run) (tr_attemptNumber run) Exec_RUN_CREATED reason None None
         (env_id (ae_env env)) (ae_type env) (env_project_id (ae_env env))
         (env_organization_id (ae_env env)) None None None [] None) ;;;
    acknowledge orgId runId).

(** ** Handing a run over *)

(** The attempts a task configures. *)
Definition config_attempts (config : option retry_config) : option Z :=
  match config with Some (ConfigOptions o _) => maxAttempts o | _ => None end.

(** A configuration that is there and not [null]. *)
Definition some_config (config : option retry_config) : option retry_config :=
  match config with Some ConfigNull => None | _ => config end.

(** The update that locks a run to a version. *)
Definition locked_run (lockedAt : Z) (run : TaskRun) (worker : WorkerDeploymentWithWorkerTasks)
    (task : BackgroundWorkerTask) (queue : TaskQueue) (machine : option MachinePreset) (r : TaskRun)
    : TaskRun :=
  r {{ tr_lockedAt := Some lockedAt;
       tr_lockedById := Some (bk_id task);
       tr_lockedToVersionId := Some (ww_id worker);
       tr_lockedQueueId := Some (tq_id queue);
       tr_lockedRetryConfig :=
         with_default (tr_lockedRetryConfig r)
           (match some_config (tr_lockedRetryConfig run) with
            | Some _ => None
            | None => some_config (bk_retryConfig task)
            end);
       tr_status := Run_DEQUEUED;
       tr_startedAt := Some (default lockedAt (tr_startedAt run));
       tr_machinePreset := with_default (tr_machinePreset r) (mp_name <$> machine);
       tr_maxDurationInSeconds :=
         with_default (tr_maxDurationInSeconds r)
           (getMaxDuration (tr_maxDurationInSeconds run) (bk_maxDurationInSeconds task));
       tr_maxAttempts :=
         with_default (tr_maxAttempts r)
           (with_default (config_attempts (bk_retryConfig task)) (nonzero (tr_maxAttempts run))) }}.

(** Whether the organisation pays, and has a private link. *)
Definition plan_of (orgId : string) (run : TaskRun) : M (bool * option bool) :=
  stmt (λ s, (match getCurrentPlan (es_clock s) orgId with
              | Some plan => plan
              | None => (negb (bool_decide (default "free" (tr_planType run) = "free")), None)
              end, s)).

(** The snapshot with which a run is handed over, and what the worker is told. *)
Definition handed_input (runId : string) (workerId runnerId : option string)
    (snapshot : EnhancedExecutionSnapshot) (lockedTaskRun : TaskRun) : snapshot_input :=
  (next_of snapshot (tr_status lockedTaskRun) (tr_attemptNumber lockedTaskRun)
     Exec_PENDING_EXECUTING "Run was dequeued for execution" workerId runnerId)
    {{ si_runId := runId;
       si_checkpointId := sn_checkpointId snapshot;
       si_batchId := sn_batchId snapshot;
       si_completedWaitpoints := completed_of snapshot }}.

Definition handed_message (orgId runId : string) (snapshot : EnhancedExecutionSnapshot)
    (worker : WorkerDeploymentWithWorkerTasks) (machine : option MachinePreset)
    (lockedTaskRun : TaskRun) (plan : bool * option bool)
    (newSnapshot : string * TaskRunExecutionSnapshot) : dequeued_run :=
  let env := tr_env lockedTaskRun in
  MkDequeuedRun runId newSnapshot.1 (ww_deployment worker ≫= λ d, wd_imageReference d.2)
    (sn_checkpointId newSnapshot.2) (completed_of snapshot) (ww_id worker)
    (bw_version (ww_worker worker)) (fst <$> ww_deployment worker) machine
    (default 0 (tr_attemptNumber lockedTaskRun) + 1) (tr_workerQueue lockedTaskRun)
    (env_id (ae_env env)) (ae_type env) orgId plan.2 (env_project_id (ae_env env)) plan.1.

Definition hand_over (orgId runId : string) (workerId runnerId : option string)
    (snapshot : EnhancedExecutionSnapshot) (run : TaskRun) (worker : WorkerDeploymentWithWorkerTasks)
    (task : BackgroundWorkerTask) (queue : TaskQueue) : M (option dequeued_run) :=
  let machine := getMachinePreset (eo_defaultMachine options) machines
                   (default (MachineConfig None None None) (bk_machineConfig task))
                   (tr_machinePreset run) in
  lockedAt <- current_time ;;
  lockedTaskRun <- update_run runId (λ _, locked_run lockedAt run worker task queue machine) ;;
  plan <- plan_of orgId lockedTaskRun ;;
  newSnapshot <- createExecutionSnapshot gen options
                   (handed_input runId workerId runnerId snapshot lockedTaskRun) ;;
  e_ret (Some (handed_message orgId runId snapshot worker machine lockedTaskRun plan newSnapshot)).

(** A run that is not to be dequeued. *)
Definition reject_dequeue (orgId runId : string) (workerId runnerId : option string)
    (snapshot : EnhancedExecutionSnapshot) : M unit :=
  if bool_decide (sn_executionStatus snapshot = Exec_PENDING_EXECUTING) then acknowledge orgId runId
  else
    createExecutionSnapshot gen options
      ((next_of snapshot (sn_runStatus snapshot) None (sn_executionStatus snapshot)
          "Tried to dequeue a run that is not in a valid state to be dequeued." workerId runnerId)
         {{ si_checkpointId := sn_checkpointId snapshot;
            si_completedWaitpoints := completed_of snapshot;
            si_error := Some "Tried to dequeue a run that is not in a valid state to be dequeued." }}) ;;;
    systemFailure gen options stringify_error random pow runId
      (INTERNAL_ERROR TASK_DEQUEUED_INVALID_STATE
         (Some ("Task was in the " +:+ execution_status_text (sn_executionStatus snapshot) +:+
                " state when it was dequeued for execution.")) None) ;;;
    e_ret tt.

(** A run that executes while it waits in the queue goes on. *)
Definition continue_executing (runId : string) (snapshot : EnhancedExecutionSnapshot) : M unit :=
  createExecutionSnapshot gen options
    ((next_of snapshot (sn_runStatus snapshot) (sn_attemptNumber snapshot) Exec_EXECUTING
        "Run was continued, whilst still executing." None None)
       {{ si_runId := runId;
          si_batchId := sn_batchId snapshot;
          si_completedWaitpoints := completed_of snapshot }}) ;;;
  e_ret tt.

(** Is there an image to run, where one is needed? *)
Definition deployable (run : TaskRun) (worker : WorkerDeploymentWithWorkerTasks) : bool :=
  bool_decide (ae_type (tr_env run) = DEVELOPMENT) ||
  match nonempty_text (ww_deployment worker ≫= λ d, wd_imageReference d.2) with
  | Some _ => true
  | None => false
  end.

(** What is done with a run that was found, or was not. *)
Definition resolve (orgId runId : string) (workerId runnerId : option string)
    (snapshot : EnhancedExecutionSnapshot) (result : RunWithBackgroundWorkerTasksResult)
    : M (option dequeued_run) :=
  match result with
  | NO_RUN | lookup_failed RUN_ENVIRONMENT_ARCHIVED _ => acknowledge orgId runId ;;; e_ret None
  | lookup_failed BACKGROUND_WORKER_MISMATCH _ =>
      on_queue gen (λ now nonce, queue_nackMessage now nonce (random nonce) orgId runId None) ;;;
      e_ret None
  | lookup_failed code message =>
      pendingVersion orgId runId message (code_text code) ;;; e_ret None
  | lookup_found run worker task queue =>
      if deployable run worker
      then hand_over orgId runId workerId runnerId snapshot run worker task queue
      else
        pendingVersion orgId runId "No deployment or deployment image reference found for deployed run"
          "NO_DEPLOYMENT" ;;;
        e_ret None
  end.

(** The body of the lock of [dequeueFromWorkerQueue]. *)
Definition dequeue_locked (orgId runId : string) (backgroundWorkerId workerId runnerId : option string)
    : M (option dequeued_run) :=
  snapshot <- getLatestExecutionSnapshot runId ;;
  if negb (isDequeueableExecutionStatus (sn_executionStatus snapshot)) then
    reject_dequeue orgId runId workerId runnerId snapshot ;;; e_ret None
  else if bool_decide (sn_executionStatus snapshot = Exec_QUEUED_EXECUTING) then
    continue_executing runId snapshot ;;; e_ret None
  else
    result <- getRunWithBackgroundWorkerTasks runId backgroundWorkerId ;;
    resolve orgId runId workerId runnerId snapshot result.

(** The handler of an error: the run is tried again. *)
Definition requeue_dequeued (orgId runId : string) : M (option dequeued_run) :=
  found <- find_run runId ;;
  match found with
  | None =>
      on_queue gen (λ now nonce, queue_nackMessage now nonce (random nonce) orgId runId None) ;;;
      e_ret None
  | Some run =>
      let env := tr_env run in
      tryNackAndRequeue gen options stringify_error random pow runId
        (MkRequeue (env_id (ae_env env)) (ae_type env) orgId (env_project_id (ae_env env)) None
           (INTERNAL_ERROR TASK_RUN_DEQUEUED_MAX_RETRIES
              (Some "We tried to dequeue the run the maximum number of times but it wouldn't start executing")
              None)
           None None None [] None) ;;;
      e_ret None
  end.

(** What follows the dequeue of a message. *)
Definition dequeue_message (orgId runId : string) (backgroundWorkerId workerId runnerId : option string)
    : M (option dequeued_run) :=
  e_catch (lock runId (dequeue_locked orgId runId backgroundWorkerId workerId runnerId))
    (λ _, requeue_dequeued orgId runId).

Definition dequeueFromWorkerQueue (workerQueue : string)
    (backgroundWorkerId workerId runnerId : option string) (blockingPop : option bool)
    : M (option dequeued_run) :=
  message <- on_queue gen (λ _ _, queue_dequeueMessageFromWorkerQueue workerQueue blockingPop) ;;
  match message with
  | None => e_ret None
  | Some message =>
      dequeue_message (orgId (dm_message message)) (dm_messageId message) backgroundWorkerId workerId
        runnerId
  end.

(** ** PendingVersionSystem *)

(** The worker makes up an id for the job. *)
Definition scheduleResolvePendingVersionRuns (backgroundWorkerId : string) : M unit :=
  stmt (λ s, (tt, (take_id (take_id s)) {{ es_worker :=
    worker_enqueue (es_clock s) (gen (S (es_ids s))) (next_id gen s)
      (Job_queueRunsPendingVersion backgroundWorkerId) None None (es_worker s) }})).

(** Does the run wait for what the worker has? *)
Definition awaits (worker : BackgroundWorker) (r : TaskRun) : bool :=
  bool_decide (env_id (ae_env (tr_env r)) = bw_runtimeEnvironmentId worker) &&
  bool_decide (env_project_id (ae_env (tr_env r)) = bw_projectId worker) &&
  bool_decide (tr_status r = Run_PENDING_VERSION) &&
  bool_decide (tr_taskIdentifier r ∈ bk_slug <$> bw_tasks worker) &&
  bool_decide (tr_queue r ∈ tq_name <$> bw_queues worker).

Definition pending_runs (worker : BackgroundWorker) (take : Z) (t : tables T)
    : list (string * TaskRun) :=
  firstn (Z.to_nat take)
    (sort_stable (λ x y : string * TaskRun, tr_createdAt x.2 <? tr_createdAt y.2)
       (select (awaits worker) (taskRun t))).

(** The transaction for one of them.  The environment of the worker is that of the run.
    The writes of the transaction become visible when it commits, after the lock of the
    run is released and the message is in the queue; the row of the run, which the
    database locks meanwhile, is then written as it is at that time. *)
Definition enqueue_pending (runId : string) : M unit :=
  updatedRun <- stmt_or RecordNotFound (λ s,
    run ← t_find runId (taskRun (es_tables s));
    Some (run {{ tr_status := Run_PENDING }}, s)) ;;
  newSnapshot <- lock runId (
    let si := enqueue_input runId updatedRun default_enqueue in
    newSnapshot <- stmt (λ s, ((next_id gen s, snapshot_data (es_clock s) si), take_id s)) ;;
    set_heartbeat gen options newSnapshot.1 si ;;;
    enqueue_message gen runId updatedRun default_enqueue ;;;
    e_ret newSnapshot) ;;
  stmt_or RecordNotFound (λ s,
    run ← t_find runId (taskRun (es_tables s));
    Some (tt, s {{ es_tables := put_snapshot newSnapshot.1 newSnapshot.2
                     (put_run runId (run {{ tr_status := Run_PENDING }}) (es_tables s)) }})).

Definition enqueueRunsForBackgroundWorker (backgroundWorkerId : string) : M unit :=
  let maxCount := default 200 queueRunsPendingVersionBatchSize in
  backgroundWorker <- query_catalog (λ c, t_find backgroundWorkerId (backgroundWorker c)) ;;
  match backgroundWorker with
  | None => e_ret tt
  | Some worker =>
      pendingRuns <- query (pending_runs worker (maxCount + 1)) ;;
      match pendingRuns with
      | [] => e_ret tt
      | _ =>
          e_each (λ run : string * TaskRun, enqueue_pending run.1) pendingRuns ;;;
          if maxCount <? Z.of_nat (length pendingRuns)
          then scheduleResolvePendingVersionRuns backgroundWorkerId
          else e_ret tt
      end
  end.

(** The handlers of all jobs. *)
Definition engine_job_handler (job : engine_job) : option (M unit) :=
  match job with
  | Job_queueRunsPendingVersion backgroundWorkerId =>
      Some (enqueueRunsForBackgroundWorker backgroundWorkerId)
  | _ => job_handler gen options stringify_error humanize random pow job
  end.

End Dequeue.
