(* ===== verification/EngineOutcomes.v ===== *)
(** * EngineOutcomes: what the decisions of the run engine guarantee

    Retries stay within their limits, the recursion between a failed attempt and the
    requeueing of its run ends, the usage of a run stays within its column, the order of
    completed waitpoints survives the snapshot, and a time to live is clamped. *)

From Stdlib Require Import SpecFloat.
From S2P Require Import Prelude Text Messages Retry KeyProducer RunQueue EngineErrors EngineProg.
From S2P Require Import EngineData Duration EngineSystems EngineAttempts EngineLifecycle.
From S2P Require Import EngineHandlers.
Local Open Scope Z_scope.

(** ** Retries *)

(** A failure is retried on another machine, or within the attempts of the run. *)
Definition retry_allowed (run : option retry_run) (attemptNumber : option Z) (error : TaskRunError)
    (machine : option string) (wasOOMError : bool) : Prop :=
  match run with
  | None => False
  | Some run =>
      if wasOOMError
      then isOOMRunError error = true ∧ is_Some machine ∧ machine ≠ rr_machinePreset run
      else shouldRetryError (taskRunErrorEnhancer error) = true ∧ machine = None ∧
           ∃ m, rr_maxAttempts run = Some m ∧
                ∀ n, attemptNumber = Some n → n < m ∧ n ≤ MAX_TASK_RUN_ATTEMPTS
  end.

Lemma nonempty_text_Some t x : nonempty_text t = Some x → t = Some x.
Proof. destruct t as [t|]; cbn; [|done]. by destruct (truthy t); [intros [= ->]|]. Qed.

Lemma nonzero_Some n x : nonzero n = Some x → n = Some x ∧ x ≠ 0.
Proof.
  destruct n as [n|]; cbn; [|done]. destruct (Z.eqb_spec n 0); [done|]. by intros [= ->].
Qed.

Lemma retryOOM_machine run m options run' :
  retryOOMOnMachine run = Some (m, options, run') →
  run = Some run' ∧ rr_machinePreset run' ≠ Some m.
Proof.
  destruct run as [run|]; cbn; [|done]. destruct (rr_lockedRetryConfig run) as [c|]; cbn; [|done].
  destruct (nonempty_text (rr_machinePreset run)) as [p|] eqn:Hp; cbn; [|done].
  apply nonempty_text_Some in Hp.
  destruct c as [| |o machine]; cbn; try done.
  destruct (nonempty_text machine) as [rm|]; cbn; [|done].
  case_bool_decide; [done|]. intros [= <- <- <-]. rewrite Hp. split; [done|congruence].
Qed.


(** ** The recursion of a failed attempt *)

Section Ends.
Context {T : Type → Type} {J Q : Type} {TB : Table T} {W : Worker J} {EQ : EngineQueue Q}.
Context (gen : nat → string) (options : EngineOptions) (stringify_error : TaskRunError → string).
Context (random : string → spec_float) (pow : spec_float → spec_float → spec_float).
Local Notation M := (M T J Q).

(** [m] ends, whatever its statements reply, without the error of the model's own. *)
Definition ends {A} (m : M A) : Prop := ∀ c, never (.= Unended) (m c).

Lemma ends_ret {A} (a : A) : ends (e_ret a).
Proof. done. Qed.
Lemma ends_throw {A} e : e ≠ Unended → ends (A := A) (e_throw e).
Proof. by intros He c. Qed.
Lemma ends_bind {A B} (m : M A) (f : A → M B) : ends m → (∀ a, ends (f a)) → ends (e_bind m f).
Proof. intros Hm Hf c. apply never_bind; [apply Hm|]. intros a. apply Hf. Qed.
Lemma ends_stmt {A} (f : engine_state T J Q → A * engine_state T J Q) : ends (stmt f).
Proof. done. Qed.
Lemma ends_stmt_or {A} e (f : engine_state T J Q → option (A * engine_state T J Q)) :
  e ≠ Unended → ends (stmt_or e f).
Proof. by intros He c [b|]. Qed.
Lemma ends_on_queue {A} (f : Z → string → Q → outcome rq_error A * Q) : ends (on_queue gen f).
Proof. by intros c [b|e]. Qed.
Lemma ends_lock {A} r (m : M A) : ends m → ends (lock r m).
Proof.
  intros Hm c. unfold lock. case_decide; [apply Hm|]. intros [|]; [|done].
  apply never_try_bind; [apply Hm| |]; cbn; auto.
Qed.
Lemma ends_each {A} (body : A → M unit) l : (∀ a, ends (body a)) → ends (e_each body l).
Proof. intros H. induction l; cbn; [apply ends_ret|]. by apply ends_bind. Qed.

End Ends.

Create HintDb ends.
#[export] Hint Resolve ends_ret ends_stmt ends_on_queue : ends.
#[export] Hint Extern 1 (_ ≠ Unended) => discriminate : ends.

(** Follow a method through its statements and branches. *)
Ltac follow :=
  repeat first
    [ progress eauto with ends nocore
    | progress intros
    | apply ends_bind
    | apply ends_lock
    | apply ends_each
    | apply ends_throw; discriminate
    | apply ends_stmt_or; discriminate
    | case_match ].

Section Recursion.
Context {T : Type → Type} {J Q : Type} {TB : Table T} {W : Worker J} {EQ : EngineQueue Q}.
Context (gen : nat → string) (options : EngineOptions) (stringify_error : TaskRunError → string).
Context (random : string → spec_float) (pow : spec_float → spec_float → spec_float).
Local Notation M := (M T J Q).
Local Notation state := (engine_state T J Q).
Local Notation ends := (ends (T := T) (J := J) (Q := Q)).

Lemma ends_latest r : ends (getLatestExecutionSnapshot r).
Proof. unfold getLatestExecutionSnapshot, query. follow. Qed.

Lemma ends_snapshot si : ends (createExecutionSnapshot gen options si).
Proof. unfold createExecutionSnapshot, insert_snapshot, set_heartbeat, enqueue_job. follow. Qed.

Lemma ends_complete id output : ends (completeWaitpoint gen id output).
Proof.
  unfold completeWaitpoint, complete_pending, query, schedule_continue, enqueue_job. follow.
Qed.

Lemma ends_complete_associated run output : ends (complete_associated gen run output).
Proof. unfold complete_associated. follow. Qed.

Lemma ends_finalize r b : ends (finalizeRun gen r b).
Proof. unfold finalizeRun, scheduleCompleteBatch, enqueue_job, ack_job, on_worker. follow. Qed.

Hint Resolve ends_latest ends_snapshot ends_complete_associated ends_finalize : ends.

Lemma ends_cancel r w n at_ reason fin bulk ms :
  ends (cancelRun gen options stringify_error r w n at_ reason fin bulk ms).
Proof.
  unfold cancelRun, cancel_usage, update_run, update_select, preventDelayedRunFromBeingEnqueued,
    ack_job, on_worker, find_run, query, current_time, enqueue_job. follow.
Qed.

Lemma ends_permanent r sn at_ error w n ms :
  ends (permanentlyFailRun gen options stringify_error r sn at_ error w n ms).
Proof. unfold permanentlyFailRun, update_select, find_run, query. follow. Qed.

Hint Resolve ends_cancel ends_permanent : ends.

(** A run that cannot be requeued is not retried. *)
Lemma max_retries_fails rnd now run attemptNumber message b :
  retryOutcomeFromCompletion rnd pow now run attemptNumber
    (INTERNAL_ERROR TASK_RUN_DEQUEUED_MAX_RETRIES message None) b None =
  Some (fail_run (sanitizeError (INTERNAL_ERROR TASK_RUN_DEQUEUED_MAX_RETRIES message None)) false).
Proof. done. Qed.

Section With.
Context (again : string → string → failure_completion → M CompleteRunAttemptResult).

(** A failed attempt ends, if the inner call does. *)
Lemma ends_failed r id w n c force :
  (∀ id', ends (again r id' (MkFailure
     (INTERNAL_ERROR TASK_RUN_DEQUEUED_MAX_RETRIES
        (Some "We tried to dequeue the run the maximum number of times but it wouldn't start executing")
        None) None None))) →
  ends (attemptFailed_with gen options stringify_error random pow again r id w n c force).
Proof.
  intros H.
  unfold attemptFailed_with, check_latest, clearBlockingWaitpoints, current_time, retry_view,
    find_run, query, update_run. follow.
Qed.

(** An inner failure makes no further call. *)
Lemma ends_failed_inner r id message :
  ends (attemptFailed_with gen options stringify_error random pow again r id None None
          (MkFailure (INTERNAL_ERROR TASK_RUN_DEQUEUED_MAX_RETRIES message None) None None) false).
Proof.
  unfold attemptFailed_with, check_latest, clearBlockingWaitpoints, current_time, retry_view.
  apply ends_lock, ends_bind; [apply ends_latest|intros sn]. cbn [fc_error fc_retry].
  apply ends_bind; [follow|intros _]. do 2 (apply ends_bind; [apply ends_stmt|intros ?]).
  apply ends_bind; [apply ends_stmt|intros [[row now] rnd]]. rewrite max_retries_fails. follow.
Qed.

End With.

Lemma ends_attemptFailed r id w n c force :
  ends (attemptFailed gen options stringify_error random pow r id w n c force).
Proof. apply ends_failed. intros id'. apply ends_failed_inner. Qed.

(** The recursion between a failed attempt, a requeueing and a system failure ends at
    its second level: whatever the failure, and however the statements of [attemptFailed]
    interleave with those of any other methods, the method never runs out of the two
    levels of recursion it is modelled with. *)
Theorem attempt_failure_ends schedule (ps : list (prog state engine_error CompleteRunAttemptResult))
    s i r id w n c force ctx :
  ps !! i = Some (attemptFailed gen options stringify_error random pow r id w n c force ctx) →
  (run_pool elapse schedule (ps, s)).1 !! i ≠ Some (Throw Unended).
Proof.
  intros Hi Hend. refine (never_pool elapse (.= Unended) schedule ps s i _ _ Hend eq_refl).
  intros p. rewrite Hi. intros [= <-]. apply ends_attemptFailed.
Qed.

End Recursion.

(** ** Usage *)

(** The duration a run has used, once it is in the range of its 32-bit column, stays in
    it and does not decrease, whatever the length of an attempt. *)
Theorem usage_stays_in_range options used cost ms machine environmentType :
  0 ≤ used ≤ MAX_INT4 → 0 ≤ ms →
  used ≤ (calculateUpdatedUsage options used cost ms machine environmentType).1 ≤ MAX_INT4.
Proof. intros Hu Hm. unfold calculateUpdatedUsage. case_bool_decide; cbn; lia. Qed.

(** ** The order of completed waitpoints *)

Section Order.
Context {T : Type → Type} {TB : Table T}.

Lemma elem_of_indexes w i order j :
  j ∈ indexes_of w i order ↔ i ≤ j ∧ order !! Z.to_nat (j - i) = Some w.
Proof.
  revert i. induction order as [|w' order IH]; intros i; cbn.
  { rewrite elem_of_nil, lookup_nil. split; [done|]. by intros []. }
  assert (Hstep : i + 1 ≤ j → (w' :: order) !! Z.to_nat (j - i) = order !! Z.to_nat (j - (i + 1))).
  { intros Hj. replace (Z.to_nat (j - i)) with (S (Z.to_nat (j - (i + 1)))) by lia. done. }
  assert (Hhd : ∀ k, k = i → (w' :: order) !! Z.to_nat (k - i) = Some w').
  { intros k ->. by rewrite Z.sub_diag. }
  case_decide as Hw.
  - rewrite elem_of_cons, IH. split.
    + intros [->|[Hj Ho]]; [split; [lia|]; rewrite Hhd by done; by subst|].
      rewrite Hstep by lia. split; [lia|done].
    + intros [Hj Ho]. destruct (decide (j = i)); [by left|right]. rewrite <- Hstep by lia.
      split; [lia|done].
  - rewrite IH. split.
    + intros [Hj Ho]. rewrite Hstep by lia. split; [lia|done].
    + intros [Hj Ho]. destruct (decide (j = i)) as [->|].
      { rewrite Hhd in Ho by done. congruence. }
      rewrite <- Hstep by lia. split; [lia|done].
Qed.

(** The waitpoints with an index. *)
Definition indexed (l : list (string * option Z)) : list (string * Z) :=
  omap (λ '(id, index), (λ i, (id, i)) <$> index) l.

Lemma elem_of_indexed l w i : (w, i) ∈ indexed l ↔ (w, Some i) ∈ l.
Proof.
  unfold indexed. rewrite list_elem_of_omap. split.
  - intros ([w' [i'|]] & Hin & Heq); cbn in Heq; [|done]. by injection Heq as <- <-.
  - intros Hin. by exists (w, Some i).
Qed.

Lemma seqZ_sorted m n : StronglySorted Z.le (seqZ m n).
Proof.
  unfold seqZ. generalize 0%nat as k. induction (Z.to_nat n) as [|c IH]; intros k; cbn; constructor.
  - apply IH.
  - apply Forall_fmap, Forall_forall. intros j. rewrite elem_of_seq. cbn. lia.
Qed.

(** Indexes that are 0, 1, 2, ... are the places in the order. *)
Lemma order_places l (n : Z) (w : string) (j : nat) :
  (indexed l).*2 ≡ₚ seqZ 0 n →
  completed_order l !! j = Some w ↔ (w, Some (Z.of_nat j)) ∈ l.
Proof.
  intros Hn. change (completed_order l) with
    (fst <$> sort_stable (λ x y : string * Z, x.2 <? y.2) (indexed l)).
  set (l' := sort_stable _ (indexed l)).
  assert (Hp : l' ≡ₚ indexed l) by apply sort_stable_perm.
  assert (Hsort : StronglySorted (λ x y : string * Z, x.2 ≤ y.2) l').
  { apply sort_stable_sorted; [intros x y z; lia|..]; intros x y;
      [rewrite Z.ltb_lt|rewrite Z.ltb_ge]; lia. }
  assert (Hseq : l'.*2 = seqZ 0 n).
  { apply (StronglySorted_unique Z.le); [|apply seqZ_sorted|by rewrite Hp].
    clear -Hsort. induction Hsort as [|x l' Hl IH Hx]; cbn; constructor; [done|].
    apply Forall_fmap. eapply Forall_impl; [exact Hx|done]. }
  rewrite <- elem_of_indexed, <- Hp, list_lookup_fmap, list_elem_of_lookup. split.
  - intros ([w' i] & Hl & [= <-])%fmap_Some. exists j. rewrite Hl.
    assert (l'.*2 !! j = Some i) as Hi by by rewrite list_lookup_fmap, Hl.
    rewrite Hseq in Hi. apply lookup_seqZ in Hi as [-> _]. done.
  - intros [i Hl]. assert (l'.*2 !! i = Some (Z.of_nat j)) as Hi by by rewrite list_lookup_fmap, Hl.
    rewrite Hseq in Hi. apply lookup_seqZ in Hi as [Hi _].
    assert (i = j) as -> by lia. by rewrite Hl.
Qed.

Lemma elem_of_waitpoints (t : tables T) ids w row :
  (w, row) ∈ waitpoints_of t ids ↔ w ∈ ids ∧ t_find w (waitpoint t) = Some row.
Proof.
  unfold waitpoints_of. rewrite list_elem_of_omap. split.
  - intros (w' & Hin & Hf). destruct (t_find w' (waitpoint t)) eqn:E; cbn in Hf; [|done].
    by injection Hf as <- <-.
  - intros [Hin Hf]. exists w. by rewrite Hf.
Qed.

(** The completed waitpoints as they are read back. *)
Lemma elem_of_enhanced (t : tables T) id sn w i :
  (w, i) ∈ completed_of (enhanceExecutionSnapshot t id sn) ↔
  w ∈ sn_completedWaitpoints sn ∧ is_Some (t_find w (waitpoint t)) ∧
  match i with
  | Some i => i ∈ indexes_of w 0 (sn_completedWaitpointOrder sn)
  | None => indexes_of w 0 (sn_completedWaitpointOrder sn) = []
  end.
Proof.
  unfold completed_of, enhanceExecutionSnapshot, enhanceExecutionSnapshotWithWaitpoints. cbn.
  rewrite list_elem_of_fmap. setoid_rewrite list_elem_of_bind. split.
  - intros (c & [= -> ->] & [w' row] & Hc & (Hin & Hf)%elem_of_waitpoints).
    destruct (indexes_of w' 0 _) as [|j js] eqn:E; revert Hc.
    + intros ->%list_elem_of_singleton. cbn. by rewrite Hf, E.
    + rewrite <- (fmap_cons (λ i, MkCompletedWaitpoint w' (Some i) row)).
      intros (j' & -> & Hj)%list_elem_of_fmap. cbn. rewrite Hf, E. split; [done|]. by split.
  - intros (Hin & [row Hf] & Hi). exists (MkCompletedWaitpoint w i row). split; [done|].
    exists (w, row). split; [|by apply elem_of_waitpoints]. destruct i as [i|].
    + destruct (indexes_of w 0 _) as [|j js]; [by apply elem_of_nil in Hi|].
      rewrite <- (fmap_cons (λ i, MkCompletedWaitpoint w (Some i) row)).
      apply list_elem_of_fmap. by exists i.
    + rewrite Hi. by apply list_elem_of_singleton.
Qed.


End Order.

(** ** Time to live *)

(** With a maximum time to live that can be parsed, every run gets a time to live that
    can be parsed and is at most the maximum, whatever was asked for; a shorter one that
    was asked for is kept. *)
Theorem ttl_clamped options maxTtl maxMs ttl :
  eo_defaultMaxTtl options = Some maxTtl → truthy maxTtl = true →
  parseNaturalLanguageDurationInMs maxTtl = Some maxMs →
  ∃ t ms, resolveMaxTtl options ttl = Some t ∧ parseNaturalLanguageDurationInMs t = Some ms ∧
          ms ≤ maxMs ∧
          ∀ asked askedMs, nonempty_text ttl = Some asked →
            parseNaturalLanguageDurationInMs asked = Some askedMs → askedMs ≤ maxMs → t = asked.
Proof.
  intros Hm Ht Hp. unfold resolveMaxTtl. rewrite Hm. cbn. rewrite Ht. cbn.
  destruct (nonempty_text ttl) as [asked|]; [|by exists maxTtl, maxMs]. rewrite Hp.
  destruct (parseNaturalLanguageDurationInMs asked) as [askedMs|] eqn:Ha.
  - destruct (Z.leb_spec askedMs maxMs).
    + exists asked, askedMs. do 3 (split; [done|]). by intros ?? [= <-].
    + exists maxTtl, maxMs. do 3 (split; [done|]). intros ?? [= <-]. rewrite Ha. intros [= <-]. lia.
  - exists maxTtl, maxMs. do 3 (split; [done|]). intros ?? [= <-]. by rewrite Ha.
Qed.

(** ** Witnesses *)

Definition sample_timeouts : HeartbeatTimeouts := MkHeartbeatTimeouts 60000 60000 60000 60000 600000.
Definition sample_engine : EngineOptions :=
  MkEngineOptions sample_timeouts (Some 30000) {["small-1x" := double_of_Z 1]} "small-1x" false None
    (Some "14d").

Lemma ttl_clamped_witness :
  ∃ t ms, resolveMaxTtl sample_engine (Some "30d") = Some t ∧
          parseNaturalLanguageDurationInMs t = Some ms ∧ ms ≤ 1209600000 ∧
          ∀ asked askedMs, nonempty_text (Some "30d") = Some asked →
            parseNaturalLanguageDurationInMs asked = Some askedMs → askedMs ≤ 1209600000 → t = asked.
Proof. apply (ttl_clamped sample_engine "14d" 1209600000); vm_compute; reflexivity. Defined.

Lemma usage_stays_in_range_witness :
  MAX_INT4 - 5 ≤
  (calculateUpdatedUsage sample_engine (MAX_INT4 - 5) (double_of_Z 0) 1000 None PRODUCTION).1 ≤ MAX_INT4.
Proof. apply usage_stays_in_range; [split|]; vm_compute; discriminate. Defined.

(** A run that may be tried three times, retried after its first attempt. *)
Definition sample_retry_run : retry_run :=
  MkRetryRun (Some 3) None 0 (double_of_Z 0) (Some "small-1x").

