(* ===== verification/EngineSamples.v ===== *)
(** * EngineSamples: the run engine on concrete stores

    A worker queue as two finite maps, a run queue on an in-memory Redis, tables as finite
    maps; witnesses for the theorems that have hypotheses, and runs of the engine on
    which it does not do what it is meant to. *)

From Stdlib Require Import SpecFloat.
From stdpp Require Import pretty.
From S2P Require Import Prelude Text Messages Retry KeyProducer Redis SimpleQueue Jobs RunQueue Methods.
From S2P Require Import EngineErrors EngineProg EngineData Duration EngineSystems EngineAttempts.
From S2P Require Import EngineLifecycle EngineHandlers EngineOutcomes.
Local Open Scope Z_scope.

(** ** The stores *)

(** The jobs and the dead jobs; any job may be taken. *)
Record map_worker : Type := MkMapWorker {
  mw_items : gmap string job_item;
  mw_dead : gmap string job_item;
}.

#[export] Instance map_worker_ops : Worker map_worker := {|
  worker_items := mw_items;
  worker_dead := mw_dead;
  worker_enqueue now key id job attempt at_ j :=
    MkMapWorker (<[id := MkJob job (default 0 attempt) (Some key)]> (mw_items j)) (mw_dead j);
  worker_ack id key j :=
    match mw_items j !! id with
    | Some it => if key_rejects key (ji_key it) then j
                 else MkMapWorker (delete id (mw_items j)) (mw_dead j)
    | None => j
    end;
  worker_reschedule id at_ j := j;
  worker_take now j := (head (map_to_list (mw_items j)), j);
  worker_bury id e j :=
    match mw_items j !! id with
    | Some it => MkMapWorker (delete id (mw_items j)) (<[id := it]> (mw_dead j))
    | None => j
    end;
|}.

#[export] Instance map_worker_laws : WorkerLaws map_worker.
Proof.
  split; cbn; try done.
  - intros id key j. destruct (mw_items j !! id) as [it|]; [|done]. by destruct (key_rejects _ _).
  - intros now j id it. destruct (map_to_list (mw_items j)) as [|x l] eqn:E; cbn; [done|].
    intros [= ->]. apply elem_of_map_to_list. rewrite E. left.
  - intros id e j. destruct (mw_items j !! id) eqn:E; cbn; [done|]. by rewrite delete_id.
  - intros id e j. by destruct (mw_items j !! id).
  - intros id key j. destruct (mw_items j !! id) as [it|]; [|done]. by destruct (key_rejects _ _).
Qed.

#[export] Instance sample_queue : EngineQueue (world (mem rq_value) (mem (sq_value rq_job))) :=
  run_queue demo_options demo_sha256 None (λ x _, x).

Definition sample_gen (n : nat) : string := "id" +:+ pretty (N.of_nat n).

Local Notation state := (engine_state map_table map_worker (world (mem rq_value) (mem (sq_value rq_job)))).

(** The text of an error does not matter here. *)
Definition sample_text (e : TaskRunError) : string := "error".
Definition sample_random (nonce : string) : spec_float := double_of_Z 0.
Definition sample_pow (x y : spec_float) : spec_float := x.

(** ** A run that executes its first attempt, in a batch *)

Definition sample_run : TaskRun :=
  MkTaskRun Run_EXECUTING None demo_auth (Some "org1") "task" "task" None "main" 0 None None
    (Some "b1") 1 None None None (Some 2) (Some "t1") None (Some 2) (Some 3) None None (Some 1)
    (Some 3) (Some "small-1x") 0 (double_of_Z 0) None "application/json" None []
    None None None None.

Definition sample_snapshot (status : TaskRunExecutionStatus) (runStatus : TaskRunStatus)
    : TaskRunExecutionSnapshot :=
  MkSnapshot "r1" status "" true None None runStatus (Some 1) None "env1" PRODUCTION "proj1" "org1"
    [] [] None None None 3.

Definition sample_batch : BatchTaskRun := MkBatchTaskRun false "env1" 0 1 "runengine:v2" (Some 1) None.

Definition sample_state (run : TaskRun) (snapshot : TaskRunExecutionSnapshot) : state :=
  MkState (MkTables {["r1" := run]}
             {["w1" := new_waitpoint Wait_MANUAL "k1" false None "env1" "proj1" None []]}
             ∅ {["s1" := snapshot]} ∅ {["b1" := sample_batch]})
    (MkMapWorker ∅ ∅) demo_world ∅ 10 0.

(** The state after a method has run on its own and some time has passed. *)
Definition after {A} (m : M map_table map_worker (world (mem rq_value) (mem (sq_value rq_job))) A)
    (s : state) : state :=
  elapse 0 (run_alone (m None) s).2.

Definition latest_status (s : state) : option TaskRunExecutionStatus :=
  option_map (λ x, sn_executionStatus x.2) (latest_snapshot "r1" (es_tables s)).
Definition run_status (s : state) : option TaskRunStatus :=
  option_map tr_status (t_find "r1" (taskRun (es_tables s))).

(** ** Runs that go wrong *)

Definition executing : state :=
  sample_state sample_run (sample_snapshot Exec_EXECUTING Run_EXECUTING).
Definition cancelled_state : state :=
  after (cancelRun sample_gen sample_engine sample_text "r1" None None None None false None None)
    executing.

(** The failure a worker reports that had not heard of the cancellation. *)
Definition late_failure : failure_completion :=
  MkFailure (STRING_ERROR "boom") (Some (MkRetry 2000 1000)) None.

Definition retried_state : state :=
  after (attemptFailed sample_gen sample_engine sample_text sample_random sample_pow "r1"
           (default "" (option_map fst (latest_snapshot "r1" (es_tables cancelled_state))))
           None None late_failure false) cancelled_state.

Definition restarted_state : state :=
  after (startRunAttempt sample_gen sample_engine sample_text sample_random sample_pow "r1"
           (default "" (option_map fst (latest_snapshot "r1" (es_tables retried_state))))
           None None false) retried_state.


(** A run that has finished is blocked by a waitpoint. *)
Definition finished_state : state :=
  after (attemptSucceeded sample_gen sample_engine "r1" "s1" (MkSuccess None "application/json" None)
           None None) executing.
Definition blocked_state : state :=
  after (blockRunWithWaitpoint sample_gen sample_engine (λ _, "timeout") "r1" ["w1"] "proj1" "org1"
           None None None None None) finished_state.
Definition unblocked_outcome : outcome engine_error WaitpointContinuationResult :=
  (run_alone (continueRunIfUnblocked sample_gen sample_engine "r1" None)
     (after (completeWaitpoint sample_gen "w1" None) blocked_state)).1.

(** Blocking a run does not look at whether it has finished: a finished run that is
    blocked by a waitpoint becomes suspended, without a checkpoint, and once the waitpoint
    is completed continuing the run fails. *)
Theorem finished_run_suspended :
  latest_status finished_state = Some Exec_FINISHED ∧
  latest_status blocked_state = Some Exec_SUSPENDED ∧
  run_status blocked_state = Some Run_COMPLETED_SUCCESSFULLY ∧
  unblocked_outcome =
    Err (PlainError "continueRunIfUnblocked: run is suspended, but has no checkpoint: r1").
Proof. vm_compute. done. Qed.

(** The only run of a batch, waiting in the queue with a time to live. *)
Definition queued : state :=
  sample_state (sample_run {{ tr_status := Run_PENDING; tr_lockedAt := None; tr_ttl := Some "10m" }})
    (sample_snapshot Exec_QUEUED Run_PENDING).
Definition expired_state : state := after (expireRun sample_gen sample_text "r1") queued.
Definition batch_job (s : state) : option job_item :=
  worker_items (es_worker s) !! "tryCompleteBatch:b1".
Definition batch_done (s : state) : option bool :=
  option_map bt_completed (t_find "b1" (batchTaskRun (es_tables s))).


(** ** Witnesses *)

Lemma attempt_failure_ends_witness :
  (run_pool elapse [(0, 0); (0, 0)]%nat
     ([attemptFailed sample_gen sample_engine sample_text sample_random sample_pow "r1" "s1" None None
         late_failure true None], executing)).1 !! 0%nat ≠ Some (Throw Unended).
Proof.
  apply (attempt_failure_ends sample_gen sample_engine sample_text sample_random sample_pow
           [(0, 0); (0, 0)]%nat _ executing 0 "r1" "s1" None None late_failure true None).
  reflexivity.
Defined.

(** A waitpoint that is three times in a batch. *)
Definition sample_input : snapshot_input :=
  MkSnapshotInput "r1" Run_EXECUTING (Some 1) Exec_EXECUTING "" None (Some "b1") "env1" PRODUCTION
    "proj1" "org1" None None None [("w1", Some 2); ("w1", Some 0); ("w1", Some 1)] None.

