(* ===== verification/EngineDequeueFacts.v ===== *)
(** * EngineDequeueFacts: the version a run is handed over with, and runs that wait for one

    Whatever happens to the tables meanwhile, the worker that is found for a run is the
    one the run is locked to or asked for, and has the task and the queue of the run; the
    job that resolves the runs waiting for a version leaves none behind; and two runs of
    the engine on which a run is handed on although it should not, or with less than it
    had. *)

From Stdlib Require Import SpecFloat.
From S2P Require Import Prelude Text Messages Retry KeyProducer Redis SimpleQueue Jobs RunQueue KeySpace System Invariants Methods.
From S2P Require Import EngineErrors EngineProg EngineData Duration EngineSystems EngineAttempts.
From S2P Require Import EngineLifecycle EngineHandlers EngineDequeue EngineOutcomes EngineSamples.
Local Open Scope Z_scope.

(** ** The worker of a run *)

Section Selected.
Context {T : Type → Type} {J Q : Type} {TB : Table T} {TL : TableLaws T}.
Context (catalog : Z → worker_catalog T).
Local Notation M := (M T J Q).

(** The greatest id. *)
Lemma greatest_id_from {R} (rows : list (string * R)) best x :
  foldl (λ best row, match best with
                     | Some b => if decide (String.le row.1 b.1) then Some b else Some row
                     | None => Some row
                     end) best rows = Some x →
  (best = Some x ∨ x ∈ rows) ∧ (∀ b, best = Some b → String.le b.1 x.1) ∧
  ∀ row, row ∈ rows → String.le row.1 x.1.
Proof.
  revert best. induction rows as [|row rows IH]; intros best; cbn.
  { intros ->. split; [by left|]. split; [by intros b [= ->]|]. by intros row ?%elem_of_nil. }
  set (best' := match best with Some _ => _ | None => _ end). intros (Hin & Hb & Hrows)%IH.
  assert (Hrow : String.le row.1 x.1 ∧ ∀ b, best = Some b → String.le b.1 x.1).
  { subst best'. destruct best as [b|]; [|split; [by apply Hb|done]]. case_decide as Hle.
    - split; [|intros ? [= <-]; by apply Hb]. etrans; [exact Hle|by apply Hb].
    - split; [by apply Hb|]. intros ? [= <-]. destruct (total String.le row.1 b.1) as [?|Hle']; [done|].
      etrans; [exact Hle'|by apply Hb]. }
  destruct Hrow as [Hrow Hbest]. split; [|split; [done|]].
  - destruct Hin as [Hx|Hx]; [|right; by right]. subst best'. destruct best as [b|].
    + case_decide; injection Hx as <-; [by left|right; left].
    + injection Hx as <-. right. left.
  - intros r [->|Hr]%elem_of_cons; [done|by apply Hrows].
Qed.

Lemma greatest_id_max {R} (rows : list (string * R)) x :
  greatest_id rows = Some x → x ∈ rows ∧ ∀ row, row ∈ rows → String.le row.1 x.1.
Proof. intros (Hin & _ & Hmax)%greatest_id_from. destruct Hin as [?|?]; [done|by split]. Qed.

Lemma elem_of_select {R} (p : R → bool) (t : T R) k (r : R) :
  (k, r) ∈ select p t ↔ t_find k t = Some r ∧ p r = true.
Proof. unfold select. rewrite list_elem_of_filter, t_rows_find. cbn. tauto. Qed.

(** The version a run gets when it is locked to none and the caller asks for none: the
    newest one of a development environment; otherwise that of the promoted deployment,
    or, if that is not managed, of the newest managed one. *)
Definition default_version (c c' : worker_catalog T) (run : TaskRun)
    (worker : WorkerDeploymentWithWorkerTasks) : Prop :=
  let env := env_id (ae_env (tr_env run)) in
  if decide (ae_type (tr_env run) = DEVELOPMENT) then
    bw_runtimeEnvironmentId (ww_worker worker) = env ∧
    ∀ id w, t_find id (backgroundWorker c') = Some w → bw_runtimeEnvironmentId w = env →
            String.le id (ww_id worker)
  else
    ∃ id d pid p d', ww_deployment worker = Some (id, d) ∧ t_find id (workerDeployment c') = Some d ∧
      wd_workerId d = Some (ww_id worker) ∧ wd_type d = Deploy_MANAGED ∧
      t_find pid (workerDeploymentPromotion c) = Some p ∧ pr_environmentId p = env ∧
      pr_label p = CURRENT_DEPLOYMENT_LABEL ∧ t_find (pr_deploymentId p) (workerDeployment c) = Some d' ∧
      (id = pr_deploymentId p ∧ d = d' ∨
       wd_type d' ≠ Deploy_MANAGED ∧ wd_environmentId d = env ∧
       ∀ id' d'', t_find id' (workerDeployment c') = Some d'' → wd_environmentId d'' = env →
                  wd_type d'' = Deploy_MANAGED → String.le id' id).

(** What is found; the times are those at which the tables are read. *)
Definition selected (backgroundWorkerId : option string) (run : TaskRun)
    (worker : WorkerDeploymentWithWorkerTasks) (task : BackgroundWorkerTask) (queue : TaskQueue) : Prop :=
  (∃ t, t_find (ww_id worker) (backgroundWorker (catalog t)) = Some (ww_worker worker)) ∧
  (∀ v, nonempty_text (tr_lockedToVersionId run) = Some v → ww_id worker = v) ∧
  (∀ v, nonempty_text backgroundWorkerId = Some v → ww_id worker = v) ∧
  (nonempty_text (tr_lockedToVersionId run) = None → nonempty_text backgroundWorkerId = None →
     ∃ t t', default_version (catalog t) (catalog t') run worker) ∧
  task ∈ bw_tasks (ww_worker worker) ∧ bk_slug task = tr_taskIdentifier run ∧
  queue ∈ bw_queues (ww_worker worker) ∧
  match nonempty_text (tr_lockedQueueId run) with
  | Some id => tq_id queue = id
  | None => tq_name queue = tr_queue run
  end.

(** What the look-up of a worker returns. *)
Definition found_worker (run : TaskRun) (workerId : option string)
    (o : option WorkerDeploymentWithWorkerTasks) : Prop :=
  ∀ worker, o = Some worker →
    (∃ t, t_find (ww_id worker) (backgroundWorker (catalog t)) = Some (ww_worker worker)) ∧
    match nonempty_text workerId with
    | Some v => ww_id worker = v
    | None => ∃ t t', default_version (catalog t) (catalog t') run worker
    end.

Lemma worker_row_found deployed id (c : worker_catalog T) worker :
  worker_row deployed id c = Some worker →
  ww_id worker = id ∧ t_find id (backgroundWorker c) = Some (ww_worker worker).
Proof. unfold worker_row. destruct (t_find id (backgroundWorker c)); [|done]. by intros [= <-]. Qed.

Lemma deployed_worker_found id d (c : worker_catalog T) worker :
  deployed_worker id d c = Some worker →
  ww_deployment worker = Some (id, d) ∧ wd_workerId d = Some (ww_id worker) ∧
  t_find (ww_id worker) (backgroundWorker c) = Some (ww_worker worker).
Proof.
  unfold deployed_worker. destruct (wd_workerId d) as [w|]; [|done]. cbn.
  destruct (t_find w (backgroundWorker c)) eqn:E; [|done]. by intros [= <-].
Qed.

Lemma is_managed_spec t : is_managed t = true ↔ t = Deploy_MANAGED.
Proof. by destruct t. Qed.

Lemma recent_default run (c c' : worker_catalog T) worker :
  ae_type (tr_env run) = DEVELOPMENT →
  most_recent_worker (env_id (ae_env (tr_env run))) c' = Some worker →
  t_find (ww_id worker) (backgroundWorker c') = Some (ww_worker worker) ∧ default_version c c' run worker.
Proof.
  intros Hdev. unfold most_recent_worker. destruct (greatest_id _) as [[id w]|] eqn:E; [|done]. cbn.
  intros [= <-]. apply greatest_id_max in E as [[Hf He]%elem_of_select Hmax].
  apply bool_decide_eq_true in He. split; [done|]. unfold default_version. rewrite decide_True by done.
  split; [done|]. intros id' w' Hw' He'. apply (Hmax (id', w')), elem_of_select.
  by rewrite bool_decide_eq_true_2.
Qed.

Lemma find_row_found {R} (p : R → bool) (t : T R) k (r : R) :
  find_row p t = Some (k, r) → t_find k t = Some r ∧ p r = true.
Proof.
  unfold find_row. destruct (list_find _ _) as [[i kr]|] eqn:E; [|done]. cbn. intros [= ->].
  apply list_find_Some in E as (Hi & Hp & _). split; [|done].
  apply t_rows_find. by eapply list_elem_of_lookup_2.
Qed.

(** The promoted deployment. *)
Lemma promoted_found env (c : worker_catalog T) type worker :
  promoted_worker env c = Some (type, worker) →
  ∃ pid p d, t_find pid (workerDeploymentPromotion c) = Some p ∧ pr_environmentId p = env ∧
    pr_label p = CURRENT_DEPLOYMENT_LABEL ∧ t_find (pr_deploymentId p) (workerDeployment c) = Some d ∧
    wd_type d = type ∧ deployed_worker (pr_deploymentId p) d c = Some worker.
Proof.
  unfold promoted_worker. destruct (find_row _ _) as [[pid p]|] eqn:E; [|done]. cbn.
  apply find_row_found in E as [Hp [He%bool_decide_eq_true Hl%bool_decide_eq_true]%andb_true_iff].
  destruct (t_find (pr_deploymentId p) _) as [d|] eqn:Ed; [|done]. cbn.
  destruct (deployed_worker _ _ _) as [w|] eqn:Ew; [|done]. cbn. intros [= <- <-].
  by exists pid, p, d.
Qed.

Lemma promoted_default run (c : worker_catalog T) worker :
  ae_type (tr_env run) ≠ DEVELOPMENT →
  promoted_worker (env_id (ae_env (tr_env run))) c = Some (Deploy_MANAGED, worker) →
  t_find (ww_id worker) (backgroundWorker c) = Some (ww_worker worker) ∧ default_version c c run worker.
Proof.
  intros Hdev (pid & p & d & Hp & He & Hl & Hd & Ht & Hw)%promoted_found.
  apply deployed_worker_found in Hw as (Hdep & Hwid & Hf). split; [done|].
  unfold default_version. rewrite decide_False by done.
  exists (pr_deploymentId p), d, pid, p, d. naive_solver.
Qed.

Lemma latest_default run (c c' : worker_catalog T) type worker worker' :
  ae_type (tr_env run) ≠ DEVELOPMENT → type ≠ Deploy_MANAGED →
  promoted_worker (env_id (ae_env (tr_env run))) c = Some (type, worker') →
  latest_managed (env_id (ae_env (tr_env run))) c' = Some worker →
  t_find (ww_id worker) (backgroundWorker c') = Some (ww_worker worker) ∧ default_version c c' run worker.
Proof.
  intros Hdev Hty (pid & p & d' & Hp & He & Hl & Hd & Ht & _)%promoted_found. unfold latest_managed.
  destruct (greatest_id _) as [[id d]|] eqn:E; [|done]. cbn.
  apply greatest_id_max in E as [[Hf [Hde%bool_decide_eq_true Hm%is_managed_spec]%andb_true_iff]%elem_of_select
    Hmax].
  intros (Hdep & Hwid & Hw)%deployed_worker_found. split; [done|].
  unfold default_version. rewrite decide_False by done. exists id, d, pid, p, d'.
  do 8 (split; [done|]). right. split; [congruence|]. split; [done|]. intros id' d'' Hf' He' Hm'.
  apply (Hmax (id', d'')), elem_of_select. by rewrite bool_decide_eq_true_2, Hm'.
Qed.

(** Finding the worker, whatever happens between two reads. *)
Lemma yields_find_worker run workerId c :
  yields (found_worker run workerId) ((find_worker catalog run workerId : M _) c).
Proof.
  unfold find_worker, found_worker. case_bool_decide as Hdev; destruct (nonempty_text workerId) as [v|].
  - intros s worker [<- Hf]%worker_row_found. eauto.
  - intros s worker [Hf Hd]%(recent_default _ (catalog 0)); [|done]. eauto.
  - intros s worker [<- Hf]%worker_row_found. eauto.
  - intros s. cbn. destruct (promoted_worker _ _) as [[type worker']|] eqn:Hp; [|done].
    destruct (is_managed type) eqn:Hm.
    + apply is_managed_spec in Hm as ->. intros worker [= <-].
      apply promoted_default in Hp as [Hf Hd]; [|done]. eauto.
    + intros s' worker Hl.
      destruct (latest_default run (catalog (es_clock s)) (catalog (es_clock s')) type worker worker')
        as [Hf Hd]; [done| |done|done|eauto]. intros ->. done.
Qed.

Lemma find_task_found run worker task :
  find_task run worker = Some task →
  task ∈ bw_tasks (ww_worker worker) ∧ bk_slug task = tr_taskIdentifier run.
Proof.
  unfold find_task. destruct (list_find _ _) as [[i task']|] eqn:E; [|done]. cbn. intros [= <-].
  apply list_find_Some in E as (Hi & Hp & _). split; [by eapply list_elem_of_lookup_2|done].
Qed.

Lemma find_queue_found run worker queue :
  find_queue run worker = Some queue →
  queue ∈ bw_queues (ww_worker worker) ∧
  match nonempty_text (tr_lockedQueueId run) with
  | Some id => tq_id queue = id
  | None => tq_name queue = tr_queue run
  end.
Proof.
  unfold find_queue. destruct (list_find _ _) as [[i queue']|] eqn:E; [|done]. cbn. intros [= <-].
  apply list_find_Some in E as (Hi & Hp & _). split; [by eapply list_elem_of_lookup_2|].
  destruct (nonempty_text (tr_lockedQueueId run)); by apply bool_decide_eq_true in Hp.
Qed.

(** A run that is found is found with its version, task and queue. *)
Definition found_selected (bw : option string) (result : RunWithBackgroundWorkerTasksResult) : Prop :=
  match result with
  | lookup_found run worker task queue => selected bw run worker task queue
  | _ => True
  end.

Lemma yields_lookup runId bw c :
  yields (found_selected bw) ((getRunWithBackgroundWorkerTasks catalog runId bw : M _) c).
Proof.
  intros s. cbn [fst]. destruct (t_find runId _) as [run|]; cbn [option_map]; [|done].
  case_bool_decide as Har; [done|].
  apply (yields_bind (found_worker run (with_default bw (tr_lockedToVersionId run))));
    [apply yields_find_worker|]. intros [worker|] Hfw; [|done].
  destruct (Hfw worker eq_refl) as [Hf Hv]. clear Hfw.
  destruct (match nonempty_text bw with Some _ => _ | None => _ end) eqn:Hbw; [done|].
  assert (Hasked : ∀ v, nonempty_text bw = Some v → ww_id worker = v).
  { intros v Hbv. rewrite Hbv in Hbw. by apply negb_false_iff, bool_decide_eq_true in Hbw. }
  destruct (find_task run worker) as [task|] eqn:Ht; [|by intros s'; destruct (registered_task _ _)].
  destruct (find_queue run worker) as [queue|] eqn:Hq; [|done].
  apply find_task_found in Ht as [Ht Hslug]. apply find_queue_found in Hq as [Hq Hname].
  split; [done|]. split; [|split; [done|split; [|done]]].
  - intros v Hl. destruct (tr_lockedToVersionId run) as [l|]; [|done].
    cbn [with_default] in Hv. by rewrite Hl in Hv.
  - intros Hl Hb. destruct (tr_lockedToVersionId run) as [l|]; cbn [with_default] in Hv.
    + by rewrite Hl in Hv.
    + by rewrite Hb in Hv.
Qed.

(** C20. The version a run is executed with.  Whatever else happens to the tables between
    the statements of the look-up: the worker that is found for a run exists; it is the one
    the run is locked to, and the one the caller asks for; if there is neither, it is the
    newest worker of a development environment, or that of the deployment promoted to
    current, or of the newest managed deployment when the promoted one is of another type;
    and the task and the queue that are returned are its own, with the identifier of the
    run's task, and the id the run is locked to or the name of the run's queue. *)
Theorem worker_selected schedule (ps : list (prog (engine_state T J Q) engine_error _)) s i c
    runId backgroundWorkerId run worker task queue :
  ps !! i = Some (getRunWithBackgroundWorkerTasks catalog runId backgroundWorkerId c) →
  (run_pool elapse schedule (ps, s)).1 !! i = Some (Ret (lookup_found run worker task queue)) →
  selected backgroundWorkerId run worker task queue.
Proof.
  intros Hi Hend. exact (yields_pool elapse (found_selected backgroundWorkerId) schedule ps s i _ _ Hi
    (yields_lookup runId backgroundWorkerId c) Hend).
Qed.

End Selected.

(** ** Runs that wait for a version *)

Section Pending.
Context {T : Type → Type} {J Q : Type} {TB : Table T} {TL : TableLaws T}.
Context {W : Worker J} {WL : WorkerLaws J} {EQ : EngineQueue Q}.
Context (gen : nat → string) {gen_inj : Inj (=) (=) gen} (options : EngineOptions).
Context (catalog : Z → worker_catalog T) (batchSize : option Z).
Local Notation state := (engine_state T J Q).
Local Notation M := (M T J Q).
Implicit Types (s : state) (r : string) (run : TaskRun).

(** The run queue takes the message of a run. *)
Definition accepted r run : Prop :=
  ∀ s : state, (run_alone (enqueue_message gen r run default_enqueue None) s).1 = Ok tt.

Definition released run : TaskRun := run {{ tr_status := Run_PENDING }}.

(** [r] has a valid snapshot, under the [n]-th id, in which it is queued. *)
Definition queued_as s r (n : nat) : Prop :=
  ∃ sn, t_find (gen n) (taskRunExecutionSnapshot (es_tables s)) = Some sn ∧
        sn_runId sn = r ∧ sn_executionStatus sn = Exec_QUEUED ∧ sn_isValid sn = true.

(** What the transactions leave as it is. *)
Record grows s s' : Prop := {
  gr_worker : es_worker s' = es_worker s;
  gr_locks r : r ∉ es_locks s → r ∉ es_locks s';
  gr_ids : (es_ids s ≤ es_ids s')%nat;
  gr_snaps n : (n < es_ids s)%nat →
    t_find (gen n) (taskRunExecutionSnapshot (es_tables s')) =
    t_find (gen n) (taskRunExecutionSnapshot (es_tables s));
}.

Lemma grows_refl s : grows s s.
Proof. by split. Qed.

Lemma grows_trans s1 s2 s3 : grows s1 s2 → grows s2 s3 → grows s1 s3.
Proof.
  intros [Hw Hl Hi Hs] [Hw' Hl' Hi' Hs']. split; [congruence|auto|lia|].
  intros n Hn. rewrite Hs', Hs by lia. done.
Qed.

(** The statement that puts the message into the queue. *)
Lemma enqueue_message_alone r run s c :
  accepted r run →
  ∃ q, run_alone (enqueue_message gen r run default_enqueue c) s =
       (Ok tt, (take_id s) {{ es_queue := q }}).
Proof.
  intros Ha. specialize (Ha s). unfold enqueue_message, on_queue in *. cbn in *.
  destruct (queue_enqueueMessage _ _ _ _ _ _ _) as [[[]|e] q]; [by exists q|done].
Qed.

(** A method under a lock that is free. *)
Lemma run_alone_lock {A} r (m : M A) s :
  r ∉ es_locks s →
  run_alone (lock r m None) s =
  let '(o, s1) := run_alone (m (Some r)) (s {{ es_locks := {[r]} ∪ es_locks s }}) in
  (o, s1 {{ es_locks := es_locks s1 ∖ {[r]} }}).
Proof.
  intros Hl. unfold lock. rewrite decide_False by done. cbn [run_alone]. unfold acquire.
  rewrite decide_False by done. rewrite run_alone_bind, run_alone_try.
  destruct (run_alone (m (Some r)) _) as [[a|e] s1]; done.
Qed.

(** The part of a transaction that is under the lock. *)
Lemma enqueue_locked_alone s r run (si := enqueue_input r run default_enqueue) :
  accepted r run →
  ∃ q, run_alone ((newSnapshot <- stmt (λ s, ((next_id gen s, snapshot_data (es_clock s) si), take_id s)) ;;
                   set_heartbeat gen options newSnapshot.1 si ;;;
                   enqueue_message gen r run default_enqueue ;;;
                   e_ret newSnapshot)%engine (Some r)) s =
       (Ok (gen (es_ids s), snapshot_data (es_clock s) si), s {{ es_ids := S (S (es_ids s)); es_queue := q }}).
Proof.
  intros Ha. unfold e_bind, stmt. cbn [pbind run_alone fst].
  change (set_heartbeat gen options (next_id gen s) si (Some r)) with (Ret (S := state) (E := engine_error) tt).
  cbn [pbind]. rewrite run_alone_bind.
  destruct (enqueue_message_alone r run (take_id s) (Some r) Ha) as [q ->]. by exists q.
Qed.

(** The commit. *)
Lemma commit_pending_alone s r run id sn :
  t_find r (taskRun (es_tables s)) = Some run →
  run_alone ((stmt_or RecordNotFound (λ s,
    run ← t_find r (taskRun (es_tables s));
    Some (tt, s {{ es_tables := put_snapshot id sn (put_run r (released run) (es_tables s)) }})) : M unit) None) s =
  (Ok tt, s {{ es_tables := put_snapshot id sn (put_run r (released run) (es_tables s)) }}).
Proof. intros Hf. unfold stmt_or. cbn [run_alone]. by rewrite Hf. Qed.

(** One transaction. *)
Lemma enqueue_pending_alone s r run :
  t_find r (taskRun (es_tables s)) = Some run → r ∉ es_locks s → accepted r (released run) →
  ∃ s', run_alone (enqueue_pending gen options r None) s = (Ok tt, s') ∧ grows s s' ∧
    taskRun (es_tables s') = t_put r (released run) (taskRun (es_tables s)) ∧
    ∃ n, (es_ids s ≤ n < es_ids s')%nat ∧ queued_as s' r n.
Proof.
  intros Hf Hl Ha. unfold enqueue_pending. unfold e_bind at 1. rewrite run_alone_bind.
  unfold stmt_or at 1. cbn [run_alone]. rewrite Hf. cbn [mbind option_bind run_alone].
  unfold e_bind at 1. rewrite run_alone_bind, run_alone_lock by done. cbv zeta.
  destruct (enqueue_locked_alone (s {{ es_locks := {[r]} ∪ es_locks s }}) r (released run) Ha) as [q Hq].
  unfold released in Hq at 1 2 3 4. rewrite Hq. clear Hq.
  set (s1 := s {{ es_locks := _; es_ids := _; es_queue := _; es_locks := _ }}).
  eexists. split; [by apply (commit_pending_alone s1 r run)|]. set (s2 := s1 {{ es_tables := _ }}).
  assert (Hsn : taskRunExecutionSnapshot (es_tables s2) = t_put (gen (es_ids s))
    (snapshot_data (es_clock s) (enqueue_input r (released run) default_enqueue))
    (taskRunExecutionSnapshot (es_tables s))) by done.
  assert (Hids : es_ids s2 = S (S (es_ids s))) by done.
  assert (Hlocks : es_locks s2 = ({[r]} ∪ es_locks s) ∖ {[r]}) by done.
  assert (Hruns : taskRun (es_tables s2) = t_put r (released run) (taskRun (es_tables s))) by done.
  assert (Hw : es_worker s2 = es_worker s) by done. clearbody s2. clear s1.
  split; [|split; [done|]].
  - split; [done|rewrite Hlocks; set_solver|lia|]. intros n Hn. rewrite Hsn, t_find_put_ne; [done|].
    intros E%(inj gen). lia.
  - exists (es_ids s). split; [lia|]. eexists. rewrite Hsn, t_find_put. split; [done|]. by cbn.
Qed.

(** All of them. *)
Lemma enqueue_all_alone (l : list (string * TaskRun)) s :
  NoDup l.*1 →
  (∀ r run, (r, run) ∈ l → t_find r (taskRun (es_tables s)) = Some run ∧ r ∉ es_locks s ∧
                           accepted r (released run)) →
  ∃ s', run_alone (e_each (λ run : string * TaskRun, enqueue_pending gen options run.1) l None) s = (Ok tt, s') ∧
    grows s s' ∧
    (∀ r, r ∉ l.*1 → t_find r (taskRun (es_tables s')) = t_find r (taskRun (es_tables s))) ∧
    ∀ r run, (r, run) ∈ l → t_find r (taskRun (es_tables s')) = Some (released run) ∧
                            ∃ n, (n < es_ids s')%nat ∧ queued_as s' r n.
Proof.
  revert s. induction l as [|[r run] l IH]; intros s Hnd Hl.
  { exists s. split; [done|]. split; [apply grows_refl|]. split; [done|]. by intros ? ? ?%elem_of_nil. }
  rewrite fmap_cons, NoDup_cons in Hnd. destruct Hnd as [Hr Hnd].
  destruct (Hl r run ltac:(left)) as (Hf & Hlk & Ha). cbn [fst] in *.
  destruct (enqueue_pending_alone s r run Hf Hlk Ha) as (s1 & H1 & Hg1 & Hruns & n & Hn & Hq).
  destruct (IH s1) as (s2 & H2 & Hg2 & Hother & Hall); [done| |].
  { intros r' run' Hin. destruct (Hl r' run' ltac:(by right)) as (Hf' & Hlk' & Ha').
    assert (r' ≠ r) by (intros ->; apply Hr; apply list_elem_of_fmap; by exists (r, run')).
    rewrite Hruns, t_find_put_ne by done. split; [done|]. split; [by apply Hg1|done]. }
  exists s2. split; [|split; [by eapply grows_trans|split]].
  - cbn [e_each]. unfold e_bind. rewrite run_alone_bind. cbn [fst]. by rewrite H1.
  - intros r'. rewrite fmap_cons, not_elem_of_cons. intros [Hne Hni].
    rewrite Hother by done. by rewrite Hruns, t_find_put_ne.
  - intros r' run' [[= -> ->]|Hin]%elem_of_cons; [|by apply Hall].
    rewrite Hother by done. rewrite Hruns, t_find_put. split; [done|]. exists n.
    destruct Hg2 as [_ _ Hids Hsn], Hq as (sn & Hsn' & ?). split; [lia|]. exists sn.
    by rewrite Hsn by lia.
Qed.

(** The runs that are taken are the first of those that wait. *)
Lemma elem_of_pending worker take s r run :
  (r, run) ∈ pending_runs worker take (es_tables s) →
  t_find r (taskRun (es_tables s)) = Some run ∧ awaits worker run = true.
Proof.
  unfold pending_runs. intros (i & Hi%list_elem_of_lookup_2 & _)%elem_of_take.
  rewrite sort_stable_perm in Hi. by apply elem_of_select.
Qed.

Lemma pending_length worker take s :
  length (pending_runs worker take (es_tables s)) =
  Nat.min (Z.to_nat take) (length (select (awaits worker) (taskRun (es_tables s)))).
Proof.
  unfold pending_runs. rewrite length_take. f_equal. apply Permutation_length, sort_stable_perm.
Qed.

Lemma pending_nodup worker take s : NoDup (pending_runs worker take (es_tables s)).*1.
Proof.
  unfold pending_runs. rewrite fmap_take. eapply sublist_NoDup; [|apply sublist_take].
  rewrite sort_stable_perm. eapply sublist_NoDup;
    [apply (t_rows_nodup (taskRun (es_tables s)))|unfold select; apply fmap_sublist, sublist_filter].
Qed.

(** A run that waits and is not taken shows that the batch was full. *)
Lemma pending_full worker take s r run :
  t_find r (taskRun (es_tables s)) = Some run → awaits worker run = true →
  r ∉ (pending_runs worker take (es_tables s)).*1 →
  length (pending_runs worker take (es_tables s)) = Z.to_nat take.
Proof.
  intros Hf Ha Hn. rewrite pending_length.
  destruct (decide (Z.to_nat take ≤ length (select (awaits worker) (taskRun (es_tables s))))%nat); [lia|].
  destruct Hn. apply list_elem_of_fmap. exists (r, run). split; [done|]. unfold pending_runs.
  rewrite take_ge; [|rewrite (Permutation_length (sort_stable_perm _ _)); lia].
  rewrite sort_stable_perm. by apply elem_of_select.
Qed.

(** A run that was taken does not wait any more. *)
Lemma released_done worker run : awaits worker (released run) = false.
Proof. unfold awaits. cbn. unfold constant. by rewrite andb_false_r. Qed.

(** If some run still waits when those of a batch are done, the batch was full. *)
Lemma batch_full worker take s s' r run (taken := pending_runs worker take (es_tables s)) :
  (∀ r, r ∉ taken.*1 → t_find r (taskRun (es_tables s')) = t_find r (taskRun (es_tables s))) →
  (∀ r run, (r, run) ∈ taken → t_find r (taskRun (es_tables s')) = Some (released run) ∧
                               ∃ n, (n < es_ids s')%nat ∧ queued_as s' r n) →
  0 ≤ take → t_find r (taskRun (es_tables s')) = Some run → awaits worker run = true →
  Z.of_nat (length taken) = take.
Proof.
  intros Hother Hall Hpos Hf Ha. destruct (decide (r ∈ taken.*1)) as [Hin|Hni].
  - apply list_elem_of_fmap in Hin as ([r' run'] & -> & Hin). destruct (Hall r' run' Hin) as [Hf' _].
    cbn in Hf. rewrite Hf in Hf'. injection Hf' as ->. by rewrite released_done in Ha.
  - rewrite Hother in Hf by done. unfold taken. rewrite (pending_full worker take s r run) by done. lia.
Qed.

(** The job for the next batch. *)
Lemma schedule_next_alone s id c :
  ∃ s', run_alone (scheduleResolvePendingVersionRuns gen id c) s = (Ok tt, s') ∧
    es_tables s' = es_tables s ∧
    ∃ jid it, worker_items (es_worker s') !! jid = Some it ∧ ji_job it = Job_queueRunsPendingVersion id.
Proof.
  eexists. split; [done|]. split; [done|]. eexists (gen (es_ids s)), _. cbn. unfold constant.
  by rewrite items_enqueue, lookup_insert_eq.
Qed.


End Pending.

(** ** Samples *)

Local Notation state :=
  (engine_state map_table map_worker (world (mem rq_value) (mem (sq_value rq_job)))).

Definition sample_task : BackgroundWorkerTask := MkTask "t1" "task" "proj1" "env1" 1 None None None.
Definition sample_worker : BackgroundWorker :=
  MkBackgroundWorker "v1" "proj1" "env1" [sample_task] [MkTaskQueue "q1" "task"].
Definition sample_deployment : WorkerDeployment :=
  MkDeployment Deploy_MANAGED "env1" (Some "bw1") (Some "image").
Definition sample_catalog (now : Z) : worker_catalog map_table :=
  MkCatalog {["bw1" := sample_worker]} {["d1" := sample_deployment]}
    {["p1" := MkPromotion "env1" "current" "d1"]} ∅.

(** The run, not yet locked to a version. *)
Definition new_run (status : TaskRunStatus) : TaskRun :=
  sample_run {{ tr_status := status; tr_lockedAt := None; tr_lockedById := None; tr_startedAt := None;
                tr_executedAt := None; tr_attemptNumber := None; tr_machinePreset := None }}.

Definition ready : state :=
  sample_state (new_run Run_PENDING) (sample_snapshot Exec_QUEUED Run_PENDING).

Lemma worker_selected_witness :
  selected sample_catalog None (new_run Run_PENDING)
    (MkWorkerWithTasks "bw1" sample_worker (Some ("d1", sample_deployment))) sample_task
    (MkTaskQueue "q1" "task").
Proof.
  refine (worker_selected sample_catalog [(0, 0); (0, 0)]%nat
    [getRunWithBackgroundWorkerTasks sample_catalog "r1" None None] ready 0 None "r1" None
    (new_run Run_PENDING) _ sample_task _ eq_refl _).
  vm_compute. reflexivity.
Defined.

(** A run that waits for a version. *)
Definition waiting_version : state :=
  sample_state (new_run Run_PENDING_VERSION) (sample_snapshot Exec_RUN_CREATED Run_PENDING_VERSION).

Lemma sample_accepted : accepted sample_gen "r1" (released (new_run Run_PENDING_VERSION)) (T := map_table)
  (J := map_worker) (Q := world (mem rq_value) (mem (sq_value rq_job))).
Proof. intros s. vm_compute. reflexivity. Qed.

#[export] Instance sample_gen_inj : Inj (=) (=) sample_gen.
Proof. intros n m H. unfold sample_gen in H. by apply (inj _), (inj _), (inj _) in H. Qed.

Lemma waiting_version_only r run :
  t_find r (taskRun (es_tables waiting_version)) = Some run → r = "r1" ∧ run = new_run Run_PENDING_VERSION.
Proof. cbn. by intros [<- <-]%lookup_singleton_Some. Qed.


(** ** Runs that go wrong *)

Local Notation P := (prog state engine_error unit).

(** The job reads the runs that wait; then the run is cancelled; then the job goes on. *)
Definition release_job : P :=
  enqueueRunsForBackgroundWorker sample_gen sample_engine sample_catalog None "bw1" None.
Definition cancel_call : P :=
  e_bind (cancelRun sample_gen sample_engine sample_text "r1" None None None None false None None)
    (λ _, e_ret tt) None.

Definition turns (i n : nat) : list (nat * nat) := repeat (i, 0%nat) n.

Definition cancelled_first := run_pool elapse (turns 0 2 ++ turns 1 20) ([release_job; cancel_call], waiting_version).
Definition released_after := run_pool elapse (turns 0 20) cancelled_first.

(** The score of the run in its queue. *)
Definition in_queue (s : state) : option Z :=
  Redis.ZALL ("rq:" +:+ addr_key demo_addr) (w_redis (es_queue s)) !! "r1".


(** A run that was suspended and goes on: it is in the worker queue, with a checkpoint and
    the waitpoint that was completed. *)
Definition resumed_snapshot : TaskRunExecutionSnapshot :=
  (sample_snapshot Exec_QUEUED Run_PENDING)
    {{ sn_checkpointId := Some "c1"; sn_completedWaitpoints := ["w1"]; sn_completedWaitpointOrder := ["w1"] }}.

Definition in_worker_queue : world (mem rq_value) (mem (sq_value rq_job)) :=
  (enqueueMessage demo_options demo_sha256 5 "n1" demo_auth demo_input "main" false true demo_world).2.

Definition resumed : state :=
  (sample_state (new_run Run_PENDING) resumed_snapshot) {{ es_queue := in_worker_queue }}.

Definition sample_dequeue : M map_table map_worker _ (option dequeued_run) :=
  dequeueFromWorkerQueue sample_gen sample_engine sample_text sample_random sample_pow sample_catalog []
    (λ _ _, None) "main" None None None None.

(** What the latest snapshot has. *)
Definition latest_resume (s : state) : option (TaskRunExecutionStatus * option string * list string) :=
  option_map (λ x, (sn_executionStatus x.2, sn_checkpointId x.2, sn_completedWaitpoints x.2))
    (latest_snapshot "r1" (es_tables s)).

(** Another method has the lock of the run while the dequeue asks for it. *)
Definition dequeue_disturbed :=
  run_pool elapse (turns 1 1 ++ turns 0 3 ++ turns 1 5 ++ turns 0 20)
    ([e_bind sample_dequeue (λ _, e_ret tt) None : P;
      handleStalledSnapshot sample_gen sample_engine sample_text (λ _, "") sample_random sample_pow
        "r1" "s0" None None], resumed).

