(* ===== verification/EngineWakeups.v ===== *)
(** * EngineWakeups: what keeps a blocked run from being forgotten

    A run that is blocked by waitpoints goes on when the worker runs its
    [continueRunIfUnblocked] job after the last of them was completed.  The completion,
    the blocking and the continuation of a run are sequences of statements of different
    processes.  This file states what each of them may do in one statement ([act]) and
    what they keep ([inv]): a run that waits and whose waitpoints are all completed is
    _covered_: its job is there, or a method that is under way owes it one.

    A thread has a ghost value: the run lock it holds, with the number of ids that had
    been generated when it took it and the id of a snapshot it is about to insert, and
    its duty.  The number orders the jobs: a job that is about to be acknowledged is
    older than the lock of a method that blocks the run, so the acknowledgement does not
    remove the job of the new wait. *)

From S2P Require Import Prelude Text Messages KeyProducer RunQueue EngineErrors EngineProg.
From S2P Require Import EngineData EngineSystems.
Local Open Scope Z_scope.

(** ** Ghost state *)

Inductive duty : Type :=
| Idle
| Completing (w : string)         (* [w] is completed; its runs are not known yet *)
| Blocking (r : string)           (* [r] is being blocked *)
| Scheduling (rs : list string).  (* the runs that are still to be scheduled *)

Record hold : Type := MkHold {
  h_run : string;
  h_ids : nat;
  h_reserved : option nat;
}.

Record ghost : Type := MkGhost {
  g_lock : option hold;
  g_duty : duty;
}.

(** The ids that are generated are different and not empty. *)
Class FreshIds (gen : nat → string) : Prop := {
  #[global] fresh_inj :: Inj (=) (=) gen;
  fresh_text n : truthy (gen n) = true;
}.

Section Wakeups.
Context {T : Type → Type} {J Q : Type} {TB : Table T} {TL : TableLaws T}.
Context {W : Worker J} {WL : WorkerLaws J}.
Context (gen : nat → string) {FI : FreshIds gen}.
Local Notation state := (engine_state T J Q).
Local Notation cfg := (engine_state T J Q * (nat → ghost))%type.
Implicit Types (s : state) (x y : cfg) (γ : nat → ghost) (r w k : string) (ex : option string).

(** ** What a wait depends on *)

Definition row_at s (id : string) : option TaskRunWaitpoint :=
  t_find id (taskRunWaitpoint (es_tables s)).
Definition snap_at s (id : string) : option TaskRunExecutionSnapshot :=
  t_find id (taskRunExecutionSnapshot (es_tables s)).
Definition wstatus s w : option WaitpointStatus :=
  option_map wp_status (t_find w (waitpoint (es_tables s))).

(** Run [r] is blocked by waitpoint [w]. *)
Definition blocks s r w : Prop :=
  ∃ id b, row_at s id = Some b ∧ tw_taskRunId b = r ∧ tw_waitpointId b = w.

(** [id] is a valid snapshot of [r], and the newest one. *)
Definition snap_of s r (id : string) (sn : TaskRunExecutionSnapshot) : Prop :=
  snap_at s id = Some sn ∧ sn_runId sn = r ∧ sn_isValid sn = true.
Definition newest s r (id : string) (sn : TaskRunExecutionSnapshot) : Prop :=
  snap_of s r id sn ∧
  ∀ id' sn', snap_of s r id' sn' → id' ≠ id → sn_createdAt sn' < sn_createdAt sn.

Definition wait_status (status : TaskRunExecutionStatus) : bool :=
  bool_decide (status ∈ [Exec_EXECUTING_WITH_WAITPOINTS; Exec_SUSPENDED]).

(** A status in which a run neither waits nor is handed over. *)
Definition plain_status (status : TaskRunExecutionStatus) : bool :=
  negb (wait_status status) && negb (bool_decide (status = Exec_PENDING_EXECUTING)).

Lemma plain_not_waiting status : plain_status status = true → wait_status status = false.
Proof. unfold plain_status. by destruct (wait_status status). Qed.

(** Run [r] waits. *)
Definition waiting s r : Prop :=
  ∃ id sn, newest s r id sn ∧ wait_status (sn_executionStatus sn) = true.

(** A run is handed to a worker with a snapshot that follows one in which it is queued,
    and only once for each of those. *)
Definition hand_overs s : Prop :=
  (∀ r id sn, snap_of s r id sn → sn_executionStatus sn = Exec_PENDING_EXECUTING →
     ∃ q sq, sn_previousSnapshotId sn = Some q ∧ snap_of s r q sq ∧
             sn_executionStatus sq = Exec_QUEUED ∧ sn_createdAt sq < sn_createdAt sn) ∧
  (∀ r id sn id' sn', snap_of s r id sn → snap_of s r id' sn' →
     sn_executionStatus sn = Exec_PENDING_EXECUTING → sn_executionStatus sn' = Exec_PENDING_EXECUTING →
     sn_previousSnapshotId sn = sn_previousSnapshotId sn' → id = id').

(** All it is blocked by is completed. *)
Definition rows_done s r : Prop :=
  (∃ w, blocks s r w) ∧ ∀ w, blocks s r w → wstatus s w = Some Wait_COMPLETED.

(** Its job is there, under a key other than [ex]; or it was given up. *)
Definition has_job s r ex : Prop :=
  ∃ it, worker_items (es_worker s) !! continue_job r = Some it ∧
        (∀ k, ex = Some k → ji_key it ≠ Some k).
Definition is_dead s r : Prop := is_Some (worker_dead (es_worker s) !! continue_job r).

Definition owes s (g : ghost) r : Prop :=
  match g_duty g with
  | Idle => False
  | Completing w => blocks s r w
  | Blocking r' => r' = r
  | Scheduling rs => r ∈ rs
  end.

(** Should [r] wait, it will be woken up, also without the job with key [ex]. *)
Definition cover x r ex : Prop :=
  ¬ rows_done x.1 r ∨ has_job x.1 r ex ∨ is_dead x.1 r ∨ ∃ i, owes x.1 (x.2 i) r.
Definition covered x r ex : Prop := ¬ waiting x.1 r ∨ cover x r ex.

(** The key [ex] is one of the first [n] ids. *)
Definition old (n : nat) ex : Prop := ∀ k, ex = Some k → ∃ j, (j < n)%nat ∧ k = gen j.

Definition holds (g : ghost) r (n : nat) : Prop := ∃ m, g_lock g = Some (MkHold r n m).

(** Id [m] is for a snapshot the thread will insert. *)
Definition reserves (g : ghost) (m : nat) : Prop := ∃ r n, g_lock g = Some (MkHold r n (Some m)).

(** ** What a thread may do, and what is kept *)

Record act (i : nat) (x y : cfg) : Prop := {
  a_completed w : wstatus x.1 w = Some Wait_COMPLETED → wstatus y.1 w = Some Wait_COMPLETED;
  a_exists w : is_Some (wstatus x.1 w) → is_Some (wstatus y.1 w);
  a_ids : (es_ids x.1 ≤ es_ids y.1)%nat;
  a_clock : es_clock x.1 ≤ es_clock y.1;
  a_snap id sn : snap_at x.1 id = Some sn → snap_at y.1 id = Some sn;
  a_ghost j : j ≠ i → y.2 j = x.2 j;
  a_lock r n : holds (y.2 i) r n → holds (x.2 i) r n ∨ n = es_ids x.1;
  (** What is under the lock of another thread is left alone. *)
  a_rows j r n w : j ≠ i → holds (x.2 j) r n → blocks x.1 r w → blocks y.1 r w;
  a_snaps j r n id sn : j ≠ i → holds (x.2 j) r n → snap_of y.1 r id sn ↔ snap_of x.1 r id sn;
  (** Runs stay covered. *)
  a_covered r ex :
    old (es_ids x.1) ex → (∀ n, holds (x.2 i) r n → old n ex) → covered x r ex → covered y r ex;
  a_cover j r n :
    j ≠ i → holds (x.2 j) r n → (∀ ex, old n ex → cover x r ex) → ∀ ex, old n ex → cover y r ex;
}.

Record inv x : Prop := {
  i_fk r w : blocks x.1 r w → is_Some (wstatus x.1 w);
  i_key r it : worker_items (es_worker x.1) !! continue_job r = Some it →
    ji_job it = Job_continueRunIfUnblocked r ∧
    ∃ j, (j < es_ids x.1)%nat ∧ ji_key it = Some (gen j);
  i_job id it r : worker_items (es_worker x.1) !! id = Some it →
    ji_job it = Job_continueRunIfUnblocked r → id = continue_job r;
  i_time id sn : snap_at x.1 id = Some sn → sn_createdAt sn ≤ es_clock x.1;
  i_distinct r id sn id' sn' : snap_of x.1 r id sn → snap_of x.1 r id' sn' →
    sn_createdAt sn = sn_createdAt sn' → id = id';
  i_fresh n : (es_ids x.1 ≤ n)%nat →
    row_at x.1 (gen n) = None ∧ snap_at x.1 (gen n) = None ∧ wstatus x.1 (gen n) = None;
  i_handed : hand_overs x.1;
  i_locked i r n : holds (x.2 i) r n → r ∈ es_locks x.1 ∧ (n ≤ es_ids x.1)%nat;
  i_exclusive i j r n m : holds (x.2 i) r n → holds (x.2 j) r m → i = j;
  i_reserved i m : reserves (x.2 i) m → (m < es_ids x.1)%nat ∧ snap_at x.1 (gen m) = None;
  i_reserved_once i j m : reserves (x.2 i) m → reserves (x.2 j) m → i = j;
  i_covered r : covered x r None;
}.

(** ** Frames *)

(** The waits are the same in two states. *)
Record same_waits s s' : Prop := {
  sw_status w : wstatus s' w = wstatus s w;
  sw_row id : row_at s' id = row_at s id;
  sw_snap id : snap_at s' id = snap_at s id;
}.

Lemma blocks_same s s' r w : (∀ id, row_at s' id = row_at s id) → blocks s' r w ↔ blocks s r w.
Proof. intros H. unfold blocks. by setoid_rewrite H. Qed.

Lemma snap_of_same s s' r id sn :
  (∀ id, snap_at s' id = snap_at s id) → snap_of s' r id sn ↔ snap_of s r id sn.
Proof. intros H. unfold snap_of. by rewrite H. Qed.

Lemma hand_overs_same s s' : (∀ id, snap_at s' id = snap_at s id) → hand_overs s → hand_overs s'.
Proof. intros H. unfold hand_overs. by setoid_rewrite snap_of_same. Qed.

Lemma newest_ext s s' r id sn :
  (∀ id sn, snap_of s' r id sn ↔ snap_of s r id sn) → newest s' r id sn ↔ newest s r id sn.
Proof. intros H. unfold newest. by setoid_rewrite H. Qed.

Lemma waiting_ext s s' r : (∀ id sn, snap_of s' r id sn ↔ snap_of s r id sn) → waiting s' r ↔ waiting s r.
Proof. intros H. unfold waiting, newest. by setoid_rewrite H. Qed.

Lemma waiting_same s s' r : (∀ id, snap_at s' id = snap_at s id) → waiting s' r ↔ waiting s r.
Proof. intros H. apply waiting_ext. intros. by apply snap_of_same. Qed.

Lemma rows_done_same s s' r :
  (∀ id, row_at s' id = row_at s id) → (∀ w, wstatus s' w = wstatus s w) →
  rows_done s' r ↔ rows_done s r.
Proof.
  intros Hr Hw. assert (Hb : ∀ w, blocks s' r w ↔ blocks s r w) by (intros; by apply blocks_same).
  unfold rows_done. setoid_rewrite Hb. by setoid_rewrite Hw.
Qed.

Lemma owes_same s s' g r : (∀ id, row_at s' id = row_at s id) → owes s' g r ↔ owes s g r.
Proof. intros H. unfold owes. destruct (g_duty g); [done|by apply blocks_same|done|done]. Qed.

Lemma set_ghost_eq i g γ : set_ghost i g γ i = g.
Proof. unfold set_ghost. by rewrite decide_True. Qed.
Lemma set_ghost_ne i j g γ : j ≠ i → set_ghost i g γ j = γ j.
Proof. intros. unfold set_ghost. by rewrite decide_False. Qed.

(** Someone else's duty, or one's own. *)
Lemma owed_set i g s γ r :
  (∃ j, owes s (set_ghost i g γ j) r) ↔ owes s g r ∨ ∃ j, j ≠ i ∧ owes s (γ j) r.
Proof.
  split.
  - intros [j Hj]. destruct (decide (j = i)) as [->|Hne].
    + rewrite set_ghost_eq in Hj. by left.
    + rewrite set_ghost_ne in Hj by done. right. by exists j.
  - intros [Hg|(j & Hne & Hj)]; [exists i; by rewrite set_ghost_eq|exists j; by rewrite set_ghost_ne].
Qed.

(** The keys of jobs and the names of others differ. *)
Lemma continue_job_inj r r' : continue_job r = continue_job r' → r = r'.
Proof. unfold continue_job. intros H. by apply (inj (String.app _)) in H. Qed.

(** ** Steps *)

Lemma old_mono n m ex : (n ≤ m)%nat → old n ex → old m ex.
Proof. intros Hnm Ho k Hk. destruct (Ho k Hk) as (j & Hj & ->). exists j. split; [lia|done]. Qed.

Lemma old_none n : old n None.
Proof. by intros k. Qed.

(** Thread [i] keeps its lock, and reserves new ids only; the others do nothing. *)
Record keeps (i : nat) s s' γ γ' : Prop := {
  k_others j : j ≠ i → γ' j = γ j;
  k_holds r n : holds (γ' i) r n ↔ holds (γ i) r n;
  k_reserves m : reserves (γ' i) m → reserves (γ i) m ∨ (es_ids s ≤ m < es_ids s')%nat;
}.

Lemma keeps_lock i s s' γ γ' :
  (∀ j, j ≠ i → γ' j = γ j) → g_lock (γ' i) = g_lock (γ i) → keeps i s s' γ γ'.
Proof. intros Hne Hl. split; [done| |]; unfold holds, reserves; intros; rewrite Hl in *; auto. Qed.

Lemma keeps_same i s s' γ γ' : (∀ j, γ' j = γ j) → keeps i s s' γ γ'.
Proof. intros H. apply keeps_lock; intros; by rewrite H. Qed.

Lemma keeps_holds i s s' γ γ' j r n : keeps i s s' γ γ' → holds (γ' j) r n ↔ holds (γ j) r n.
Proof.
  intros [Hne Hh _]. destruct (decide (j = i)) as [->|Hj]; [apply Hh|by rewrite Hne].
Qed.

(** What the invariant says of reserved ids. *)
Definition reserved_ok x : Prop :=
  (∀ i m, reserves (x.2 i) m → (m < es_ids x.1)%nat ∧ snap_at x.1 (gen m) = None) ∧
  ∀ i j m, reserves (x.2 i) m → reserves (x.2 j) m → i = j.

Lemma keeps_reserved i s s' γ γ' :
  inv (s, γ) → keeps i s s' γ γ' → (es_ids s ≤ es_ids s')%nat →
  (∀ j m, reserves (γ' j) m → snap_at s (gen m) = None → snap_at s' (gen m) = None) →
  reserved_ok (s', γ').
Proof using FI.
  intros Hi [Hne _ Hres] Hids Hsn. pose proof (i_reserved _ Hi) as Hr. pose proof (i_fresh _ Hi) as Hf.
  pose proof (i_reserved_once _ Hi) as Ho. cbn in *.
  assert (Hcase : ∀ j m, reserves (γ' j) m →
            reserves (γ j) m ∨ j = i ∧ (es_ids s ≤ m < es_ids s')%nat).
  { intros j m Hm. destruct (decide (j = i)) as [->|Hj]; [|left; by rewrite <- Hne].
    destruct (Hres m Hm); auto. }
  split; cbn.
  - intros j m Hm. destruct (Hcase j m Hm) as [Hj|[-> Hlt]].
    + destruct (Hr j m Hj). split; [lia|]. by eapply Hsn.
    + split; [lia|]. eapply Hsn; [done|]. apply Hf. lia.
  - intros j j' m Hm Hm'. destruct (Hcase j m Hm) as [Hj|[-> Hlt]], (Hcase j' m Hm') as [Hj'|[-> Hlt']].
    + by eapply Ho.
    + destruct (Hr j m Hj). lia.
    + destruct (Hr j' m Hj'). lia.
    + done.
Qed.

(** The part of a step that is not about the covering. *)
Record calm (i : nat) (x y : cfg) : Prop := {
  c_completed w : wstatus x.1 w = Some Wait_COMPLETED → wstatus y.1 w = Some Wait_COMPLETED;
  c_exists w : is_Some (wstatus x.1 w) → is_Some (wstatus y.1 w);
  c_ids : (es_ids x.1 ≤ es_ids y.1)%nat;
  c_clock : es_clock x.1 ≤ es_clock y.1;
  c_snap id sn : snap_at x.1 id = Some sn → snap_at y.1 id = Some sn;
  c_ghost j : j ≠ i → y.2 j = x.2 j;
  c_lock r n : holds (y.2 i) r n → holds (x.2 i) r n ∨ n = es_ids x.1;
  c_rows j r n w : j ≠ i → holds (x.2 j) r n → blocks x.1 r w → blocks y.1 r w;
  c_snaps j r n id sn : j ≠ i → holds (x.2 j) r n → snap_of y.1 r id sn ↔ snap_of x.1 r id sn;
}.

(** A step after which no other run waits, and the covers are kept. *)
Lemma act_calm i x y :
  inv x → calm i x y →
  (∀ r, waiting y.1 r → waiting x.1 r) →
  (∀ r ex, old (es_ids x.1) ex → cover x r ex → cover y r ex) →
  act i x y.
Proof.
  intros Hi [] Hw Hc. split; try done.
  - intros r ex Ho _ [Hn|Hcov]; [left; auto|right; auto].
  - intros j r n Hj Hh Hall ex Hex. apply Hc; [|by apply Hall].
    apply (old_mono n); [by apply (i_locked x Hi j r)|done].
Qed.

(** The invariant after a step that leaves the stores of the waits and the jobs of
    continuations as they are. *)
Record quiet s s' : Prop := {
  q_waits : same_waits s s';
  q_locks : es_locks s' = es_locks s;
  q_clock : es_clock s ≤ es_clock s';
  q_ids : (es_ids s ≤ es_ids s')%nat;
  q_items r : worker_items (es_worker s') !! continue_job r = worker_items (es_worker s) !! continue_job r;
  q_dead r : worker_dead (es_worker s') !! continue_job r = worker_dead (es_worker s) !! continue_job r;
  q_jobs id it r : worker_items (es_worker s') !! id = Some it →
    ji_job it = Job_continueRunIfUnblocked r → worker_items (es_worker s) !! id = Some it;
}.

Lemma cover_quiet s s' γ γ' r ex :
  quiet s s' → (∀ j, owes s (γ j) r → (∃ j', owes s (γ' j') r) ∨ ¬ rows_done s r) →
  cover (s, γ) r ex → cover (s', γ') r ex.
Proof.
  intros [[Hst Hrow Hsn] _ _ _ Hit Hd _] Hduty. unfold cover, has_job, is_dead. cbn.
  rewrite (rows_done_same s s'), Hit, Hd by done.
  intros [Hn|[Hj|[Hd'|[j Hj]]]]; [by left|by right; left|by right; right; left|].
  destruct (Hduty j Hj) as [[j' Hj']|Hn]; [|by left]. right; right; right. exists j'.
  by rewrite (owes_same s s').
Qed.

Lemma quiet_step i s s' γ γ' :
  inv (s, γ) → quiet s s' → keeps i s s' γ γ' →
  (∀ r, owes s (γ i) r → owes s (γ' i) r ∨ ¬ rows_done s r) →
  act i (s, γ) (s', γ') ∧ inv (s', γ').
Proof.
  intros Hi Hq Hk Hduty. pose proof Hq as [[Hst Hrow Hsn] Hlk Hck Hids Hit Hd Hjb].
  assert (Hh : ∀ j r n, holds (γ' j) r n ↔ holds (γ j) r n) by (intros; by eapply keeps_holds).
  pose proof (k_others _ _ _ _ _ Hk) as Hne.
  destruct (keeps_reserved i s s' γ γ' Hi Hk Hids) as [Hr1 Hr2]; [by intros j m _; rewrite Hsn|].
  assert (Hc : ∀ r ex, cover (s, γ) r ex → cover (s', γ') r ex).
  { intros r ex. apply cover_quiet; [done|]. intros j Hj. destruct (decide (j = i)) as [->|Hji].
    - destruct (Hduty r Hj) as [Hg|]; [left; by exists i|by right].
    - left. exists j. by rewrite Hne. }
  assert (Hwait : ∀ r, waiting s' r ↔ waiting s r) by (intros r; by apply waiting_same).
  split.
  - apply act_calm; [done| |cbn; intros r; apply Hwait|auto].
    split; cbn; try done.
    + intros w. by rewrite Hst.
    + intros w. by rewrite Hst.
    + intros id sn. by rewrite Hsn.
    + intros r n Hn. left. by apply Hh in Hn.
    + intros j r n w _ _. by rewrite (blocks_same s s').
    + intros j r n id sn _ _. by apply snap_of_same.
  - destruct Hi as [Hfk Hkey Hjob Htime Hdis Hfr Hho Hlo Hexc _ _ Hcov]. cbn in *.
    split; cbn.
    + intros r w. rewrite (blocks_same s s'), Hst by done. apply Hfk.
    + intros r it. rewrite Hit. intros H. destruct (Hkey r it H) as (Hkj & j & Hj & Hkk).
      split; [done|]. exists j. split; [lia|done].
    + intros id it r Hid Hjr. apply (Hjob id it); [by eapply Hjb|done].
    + intros id sn. rewrite Hsn. intros H. specialize (Htime id sn H). lia.
    + intros r id sn id' sn'. rewrite !(snap_of_same s s') by done. apply Hdis.
    + intros n Hn. rewrite Hrow, Hsn, Hst. apply Hfr. lia.
    + apply (hand_overs_same s); [done|exact Hho].
    + intros j r n. rewrite Hh, Hlk. intros H. destruct (Hlo j r n H). split; [done|lia].
    + intros j j' r n m. rewrite !Hh. apply Hexc.
    + exact Hr1.
    + exact Hr2.
    + intros r. destruct (Hcov r) as [Hn|Hcv]; [left|right; by apply Hc]. cbn. by rewrite Hwait.
Qed.

(** Whether a run is blocked by a waitpoint can be looked up. *)
Lemma blocks_rows s r w :
  blocks s r w ↔ Exists (λ kb, tw_taskRunId kb.2 = r ∧ tw_waitpointId kb.2 = w)
                   (t_rows (taskRunWaitpoint (es_tables s))).
Proof using TL.
  rewrite Exists_exists. split.
  - intros (id & b & Hr & Hb). exists (id, b). split; [by apply t_rows_find|done].
  - intros ([id b] & Hin & Hb). exists id, b. split; [by apply t_rows_find|done].
Qed.

Lemma blocks_dec s r w : blocks s r w ∨ ¬ blocks s r w.
Proof using TL. rewrite !blocks_rows. destruct (decide (Exists (λ kb : string * TaskRunWaitpoint,
  tw_taskRunId kb.2 = r ∧ tw_waitpointId kb.2 = w) (t_rows (taskRunWaitpoint (es_tables s))))); tauto. Qed.

(** Letting time pass. *)
Lemma elapse_step i d s γ : inv (s, γ) → inv (elapse d s, γ) ∧ act i (s, γ) (elapse d s, γ).
Proof.
  intros Hi. destruct (quiet_step i s (elapse d s) γ γ) as [Ha Hi']; [done| |by apply keeps_same|by left|done].
  split; try done. cbn. unfold constant. lia.
Qed.

Local Notation stable := (stable inv act).
Local Notation step := (step elapse inv act).
Local Notation safe := (safe elapse inv act).

(** The ghost value of thread [i]. *)
Definition ghost_is (i : nat) (g : ghost) x : Prop := x.2 i = g.

Lemma ghost_stable i g : stable i (ghost_is i g).
Proof. intros j x y Hj Ha _ Hx. unfold ghost_is in *. by rewrite (a_ghost j x y Ha i). Qed.

(** A statement that does not touch the waits, while the duty stays or can be dropped;
    the reply satisfies [φ]. *)
Lemma quiet_stmt {B} i g (g' : B → ghost) (f : state → B * state) (P : cfg → Prop)
    (φ : B → state → Prop) :
  (∀ s, quiet s (f s).2) → (∀ b, g_lock (g' b) = g_lock g) →
  (∀ x, P x → ghost_is i g x) →
  (∀ x r, inv x → P x → owes x.1 g r → owes x.1 (g' (f x.1).1) r ∨ ¬ rows_done x.1 r) →
  (∀ x, inv x → P x → φ (f x.1).1 (f x.1).2) →
  step i f P (λ b y, ghost_is i (g' b) y ∧ φ b y.1).
Proof.
  intros Hq Hl HP Hd Hφ d s γ _ Hi Hp. set (s' := elapse d s) in *. exists (g' (f s').1). cbn.
  pose proof (HP _ Hp) as Hg. unfold ghost_is in Hg. cbn in Hg.
  destruct (quiet_step i s' (f s').2 γ (set_ghost i (g' (f s').1) γ)) as [Ha Hi']; [done|apply Hq| | |].
  - apply keeps_lock; [intros j Hj; by apply set_ghost_ne|]. by rewrite set_ghost_eq, Hl, Hg.
  - intros r. rewrite set_ghost_eq, Hg. by apply (Hd (s', γ)).
  - split; [exact Ha|]. split; [exact Hi'|]. split; [apply set_ghost_eq|]. by apply (Hφ (s', γ)).
Qed.

(** ** The jobs of continuations *)

(** What is the same when only jobs of continuations change. *)
Record same_but_jobs s s' : Prop := {
  sj_waits : same_waits s s';
  sj_locks : es_locks s' = es_locks s;
  sj_clock : es_clock s' = es_clock s;
  sj_ids : (es_ids s ≤ es_ids s')%nat;
}.

(** A step on jobs is one that keeps the covers and the form of the jobs. *)
Lemma jobs_step i s s' γ γ' :
  inv (s, γ) → same_but_jobs s s' → keeps i s s' γ γ' →
  (∀ r it, worker_items (es_worker s') !! continue_job r = Some it →
     ji_job it = Job_continueRunIfUnblocked r ∧
     ∃ j, (j < es_ids s')%nat ∧ ji_key it = Some (gen j)) →
  (∀ id it r, worker_items (es_worker s') !! id = Some it →
     ji_job it = Job_continueRunIfUnblocked r → id = continue_job r) →
  (∀ r ex, old (es_ids s) ex → (∀ n, holds (γ i) r n → old n ex) →
     covered (s, γ) r ex → covered (s', γ') r ex) →
  (∀ j r n, j ≠ i → holds (γ j) r n →
     (∀ ex, old n ex → cover (s, γ) r ex) → ∀ ex, old n ex → cover (s', γ') r ex) →
  act i (s, γ) (s', γ') ∧ inv (s', γ').
Proof.
  intros Hi [[Hst Hrow Hsn] Hlk Hck Hids] Hk Hkey' Hjob' Hcovd Hcov'.
  assert (Hh : ∀ j r n, holds (γ' j) r n ↔ holds (γ j) r n) by (intros; by eapply keeps_holds).
  pose proof (k_others _ _ _ _ _ Hk) as Hne.
  destruct (keeps_reserved i s s' γ γ' Hi Hk Hids) as [Hr1 Hr2]; [by intros j m _; rewrite Hsn|].
  split.
  - split; cbn; try done.
    + intros w. by rewrite Hst.
    + intros w. by rewrite Hst.
    + by rewrite Hck.
    + intros id sn. by rewrite Hsn.
    + intros r n Hn. left. by apply Hh in Hn.
    + intros j r n w _ _. by rewrite (blocks_same s s').
    + intros j r n id sn _ _. by apply snap_of_same.
  - destruct Hi as [Hfk Hkey Hjob Htime Hdis Hfr Hho Hlo Hexc _ _ Hcov]. cbn in *. split; cbn; try done.
    + intros r w. rewrite (blocks_same s s'), Hst by done. apply Hfk.
    + intros id sn. rewrite Hsn, Hck. apply Htime.
    + intros r id sn id' sn'. rewrite !(snap_of_same s s') by done. apply Hdis.
    + intros n Hn. rewrite Hrow, Hsn, Hst. apply Hfr. lia.
    + apply (hand_overs_same s); [done|exact Hho].
    + intros j r n. rewrite Hh, Hlk. intros H. destruct (Hlo j r n H). split; [done|lia].
    + intros j j' r n m. rewrite !Hh. apply Hexc.
    + intros r. apply Hcovd; [by intros k|by intros n _ k|apply Hcov].
Qed.

(** The job of [r] is scheduled under a fresh key. *)
Lemma enqueue_step i s s' γ γ' r attempt :
  inv (s, γ) → same_but_jobs s s' → es_ids s' = S (es_ids s) →
  worker_items (es_worker s') =
    <[continue_job r := MkJob (Job_continueRunIfUnblocked r) attempt (Some (gen (es_ids s)))]>
      (worker_items (es_worker s)) →
  worker_dead (es_worker s') = worker_dead (es_worker s) →
  (∀ j, j ≠ i → γ' j = γ j) → g_lock (γ' i) = g_lock (γ i) →
  (∀ r', owes s (γ i) r' → owes s (γ' i) r' ∨ r' = r ∨ ¬ rows_done s r') →
  act i (s, γ) (s', γ') ∧ inv (s', γ').
Proof using FI.
  intros Hi Hsj Hids Hit Hd Hne Hl Hduty. pose proof Hsj as [[Hst Hrow Hsn] _ _ _].
  assert (Hnew : ∀ ex, old (es_ids s) ex → has_job s' r ex).
  { intros ex Ho. eexists. rewrite Hit, lookup_insert_eq. split; [done|]. cbn. intros k -> [= Hk].
    destruct (Ho k eq_refl) as (j & Hj & ->). apply (inj gen) in Hk. lia. }
  assert (Hc : ∀ r' ex, old (es_ids s) ex → cover (s, γ) r' ex → cover (s', γ') r' ex).
  { intros r' ex Ho. destruct (decide (r' = r)) as [->|Hr]; [intros _; right; left; by apply Hnew|].
    unfold cover, has_job, is_dead. cbn. rewrite (rows_done_same s s'), Hd, Hit by done.
    rewrite lookup_insert_ne by (intros ?%continue_job_inj; done).
    intros [Hn|[Hj|[Hdd|[j Hj]]]]; [by left|by right; left|by right; right; left|].
    destruct (decide (j = i)) as [->|Hji].
    - destruct (Hduty r' Hj) as [Hg|[?|Hn]]; [|done|by left]. right; right; right. exists i.
      by rewrite (owes_same s s').
    - right; right; right. exists j. by rewrite Hne, (owes_same s s'). }
  apply jobs_step; [done|done|by apply keeps_lock| | | |].
  - intros r' it. rewrite Hit. destruct (decide (r' = r)) as [->|Hr].
    + rewrite lookup_insert_eq. intros [= <-]. split; [done|]. exists (es_ids s). split; [lia|done].
    + rewrite lookup_insert_ne by (intros ?%continue_job_inj; done). intros H.
      destruct (i_key _ Hi r' it H) as (? & j & ? & ?). cbn in *. split; [done|].
      exists j. split; [lia|done].
  - intros id it r'. rewrite Hit. destruct (decide (id = continue_job r)) as [->|Hid].
    + rewrite lookup_insert_eq. intros [= <-]. by intros [= ->].
    + rewrite lookup_insert_ne by done. apply (i_job _ Hi).
  - intros r' ex Ho _ [Hn|Hcv]; [left|right; by apply Hc]. cbn. by rewrite (waiting_same s s').
  - intros j r' n Hj Hh Hall ex Hex. apply Hc; [|by apply Hall].
    apply (old_mono n); [by apply (i_locked _ Hi j r')|done].
Qed.

(** The worker is done with the job of [r] it took under the key [k]. *)
Definition claim r k x : Prop :=
  old (es_ids x.1) (Some k) ∧ covered x r (Some k) ∧ ∀ j n, holds (x.2 j) r n → old n (Some k).

(** It stays so whatever is done. *)
Lemma claim_act j r k x y : act j x y → claim r k x → claim r k y.
Proof.
  intros Ha (Ho & Hc & Hh). split; [|split].
  - apply (old_mono (es_ids x.1)); [by apply (a_ids _ _ _ Ha)|done].
  - apply (a_covered _ _ _ Ha); [done| |done]. intros n. apply Hh.
  - intros j' n Hn. destruct (decide (j' = j)) as [->|Hne].
    + destruct (a_lock _ _ _ Ha r n Hn) as [Hn'| ->]; [by eapply Hh|done].
    + rewrite (a_ghost _ _ _ Ha j' Hne) in Hn. by eapply Hh.
Qed.

(** Covers that do not rest on a job. *)
Lemma cover_without s γ r k ex :
  (∀ it, worker_items (es_worker s) !! continue_job r = Some it → ji_key it = Some k) →
  cover (s, γ) r (Some k) → ¬ rows_done s r ∨ is_dead s r ∨ ∃ i, owes s (γ i) r.
Proof.
  intros Hk [Hn|[(it & Hit & Hne)|[Hd|Ho]]]; [by left| |by right; left|by right; right].
  destruct (Hne k eq_refl). by apply Hk.
Qed.

(** The acknowledgement of the job of [r] with the key [k]. *)
Lemma ack_step i s γ γ' r n (k := gen n) :
  inv (s, γ) → claim r k (s, γ) → (∀ j, γ' j = γ j) →
  let s' := s {{ es_worker := worker_ack (continue_job r) (Some k) (es_worker s) }} in
  act i (s, γ) (s', γ') ∧ inv (s', γ').
Proof using FI WL.
  intros Hi (Ho & Hcl & Hlk) Hγ s'.
  assert (Hw : es_worker s' = worker_ack (continue_job r) (Some k) (es_worker s)) by done.
  assert (Hsj : same_but_jobs s s') by (split; [by split|done|done|done]).
  clearbody s'. pose proof Hsj as [[Hst Hrow Hsn] _ _ _].
  assert (Hdead : worker_dead (es_worker s') = worker_dead (es_worker s)) by (rewrite Hw; apply dead_ack).
  assert (Hitems : worker_items (es_worker s') = worker_items (es_worker s) ∨
    (worker_items (es_worker s') = delete (continue_job r) (worker_items (es_worker s)) ∧
     ∀ it, worker_items (es_worker s) !! continue_job r = Some it → ji_key it = Some k)).
  { rewrite Hw, items_ack. destruct (worker_items _ !! continue_job r) as [it|] eqn:E; [|by left].
    destruct (key_rejects (Some k) (ji_key it)) eqn:Hrej; [by left|right]. split; [done|].
    intros ? [= <-]. destruct (i_key _ Hi r it E) as (_ & j & _ & Hk). rewrite Hk in *.
    unfold key_rejects in Hrej. cbn in Hrej. unfold k in Hrej. rewrite fresh_text in Hrej.
    apply negb_false_iff, bool_decide_eq_true in Hrej. by rewrite Hrej. }
  assert (Hown : ∀ r', (∃ j, owes s (γ j) r') → ∃ j, owes s' (γ' j) r').
  { intros r' [j Hj]. exists j. by rewrite Hγ, (owes_same s s'). }
  assert (Hbase : ∀ r', ¬ rows_done s r' ∨ is_dead s r' ∨ (∃ j, owes s (γ j) r') →
                  ∀ ex, cover (s', γ') r' ex).
  { intros r' [Hn|[Hd|Hj]] ex; [left; cbn; by rewrite (rows_done_same s s')| |
      right; right; right; by apply Hown]. right; right; left. unfold is_dead. cbn. by rewrite Hdead. }
  assert (Hc : ∀ r' ex, (r' = r → cover (s, γ) r (Some k)) →
                  cover (s, γ) r' ex → cover (s', γ') r' ex).
  { intros r' ex Hrk Hcv. destruct Hitems as [He|[He Hkey]].
    - destruct Hcv as [Hn|[Hj|[Hd|Hj]]]; [apply Hbase; tauto| |apply Hbase; tauto|apply Hbase; tauto].
      right; left. unfold has_job. cbn. by rewrite He.
    - destruct (decide (r' = r)) as [->|Hr].
      + apply Hbase. by apply (cover_without s γ r k ex Hkey), Hrk.
      + destruct Hcv as [Hn|[Hj|[Hd|Hj]]]; [apply Hbase; tauto| |apply Hbase; tauto|apply Hbase; tauto].
        right; left. unfold has_job. cbn.
        rewrite He, lookup_delete_ne by (intros ?%continue_job_inj; congruence). exact Hj. }
  assert (Hsub : ∀ id it, worker_items (es_worker s') !! id = Some it →
                   worker_items (es_worker s) !! id = Some it).
  { intros id it. destruct Hitems as [->|[-> _]]; [done|]. by intros [_ ?]%lookup_delete_Some. }
  assert (Hwait : ∀ r', ¬ waiting s r' → ¬ waiting s' r') by (intros r'; by rewrite (waiting_same s s')).
  apply jobs_step; [done|done|by apply keeps_same| | | |].
  - intros r' it H. destruct (i_key _ Hi r' it) as (? & j & ? & ?); [by apply Hsub|].
    split; [done|]. exists j. split; [|done]. pose proof (sj_ids _ _ Hsj). cbn in *. lia.
  - intros id it r' H. apply (i_job _ Hi). by apply Hsub.
  - intros r' ex _ _ [Hn|Hcv]; [left; by apply Hwait|]. destruct (decide (r' = r)) as [->|Hr].
    + destruct Hcl as [Hn|Hck]; [left; by apply Hwait|right]. by apply Hc.
    + right. by apply Hc.
  - intros j r' m Hj Hh Hall ex Hex. apply Hc; [|by apply Hall]. intros ->. apply Hall. by eapply Hlk.
Qed.

(** The job of [r] is given up. *)
Lemma bury_step i s γ γ' r e :
  inv (s, γ) → (∀ j, γ' j = γ j) →
  let s' := s {{ es_worker := worker_bury (continue_job r) e (es_worker s) }} in
  act i (s, γ) (s', γ') ∧ inv (s', γ').
Proof using FI WL.
  intros Hi Hγ s'.
  assert (Hw : es_worker s' = worker_bury (continue_job r) e (es_worker s)) by done.
  assert (Hsj : same_but_jobs s s') by (split; [by split|done|done|done]).
  clearbody s'. pose proof Hsj as [[Hst Hrow Hsn] _ _ _].
  assert (Hdead : ∀ r', is_dead s r' → is_dead s' r').
  { intros r'. unfold is_dead. rewrite Hw, dead_bury. destruct (worker_items _ !! _); [|done].
    intros Hd. destruct (decide (r' = r)) as [->|Hr]; [by rewrite lookup_insert_eq|].
    by rewrite lookup_insert_ne by (intros ?%continue_job_inj; done). }
  assert (Hjob : ∀ r' ex, has_job s r' ex → has_job s' r' ex ∨ is_dead s' r').
  { intros r' ex (it & Hit & Hk). destruct (decide (r' = r)) as [->|Hr].
    - right. unfold is_dead. by rewrite Hw, dead_bury, Hit, lookup_insert_eq.
    - left. exists it. by rewrite Hw, items_bury, lookup_delete_ne by (intros ?%continue_job_inj; done). }
  assert (Hc : ∀ r' ex, cover (s, γ) r' ex → cover (s', γ') r' ex).
  { intros r' ex [Hn|[Hj|[Hd|[j Hj]]]]; unfold cover; cbn.
    - left. by rewrite (rows_done_same s s').
    - destruct (Hjob r' ex Hj); tauto.
    - right; right; left. by apply Hdead.
    - right; right; right. exists j. by rewrite Hγ, (owes_same s s'). }
  assert (Hsub : ∀ id it, worker_items (es_worker s') !! id = Some it →
                   worker_items (es_worker s) !! id = Some it).
  { intros id it. rewrite Hw, items_bury. by intros [_ ?]%lookup_delete_Some. }
  apply jobs_step; [done|done|by apply keeps_same| | | |].
  - intros r' it H. destruct (i_key _ Hi r' it) as (? & j & ? & ?); [by apply Hsub|].
    split; [done|]. exists j. split; [|done]. pose proof (sj_ids _ _ Hsj). cbn in *. lia.
  - intros id it r' H. apply (i_job _ Hi). by apply Hsub.
  - intros r' ex _ _ [Hn|Hcv]; [left; cbn; by rewrite (waiting_same s s')|right; by apply Hc].
  - intros j r' m _ _ Hall ex Hex. by apply Hc, Hall.
Qed.

(** ** The stores of the waits *)

(** What a statement on the tables leaves alone. *)
Record same_but_tables s s' : Prop := {
  st_worker : es_worker s' = es_worker s;
  st_locks : es_locks s' = es_locks s;
  st_clock : es_clock s' = es_clock s;
  st_ids : (es_ids s ≤ es_ids s')%nat;
}.

(** The tables stay well formed. *)
Record tables_ok s : Prop := {
  to_fk r w : blocks s r w → is_Some (wstatus s w);
  to_time id sn : snap_at s id = Some sn → sn_createdAt sn ≤ es_clock s;
  to_distinct r id sn id' sn' : snap_of s r id sn → snap_of s r id' sn' →
    sn_createdAt sn = sn_createdAt sn' → id = id';
  to_fresh n : (es_ids s ≤ n)%nat →
    row_at s (gen n) = None ∧ snap_at s (gen n) = None ∧ wstatus s (gen n) = None;
  to_handed : hand_overs s;
}.

Lemma inv_tables x : inv x → tables_ok x.1.
Proof. by intros []. Qed.

Lemma tables_step i s s' γ γ' :
  inv (s, γ) → same_but_tables s s' → tables_ok s' → keeps i s s' γ γ' →
  (∀ j m, reserves (γ' j) m → snap_at s (gen m) = None → snap_at s' (gen m) = None) →
  calm i (s, γ) (s', γ') →
  (∀ r ex, old (es_ids s) ex → (∀ n, holds (γ i) r n → old n ex) →
     covered (s, γ) r ex → covered (s', γ') r ex) →
  (∀ j r n, j ≠ i → holds (γ j) r n →
     (∀ ex, old n ex → cover (s, γ) r ex) → ∀ ex, old n ex → cover (s', γ') r ex) →
  act i (s, γ) (s', γ') ∧ inv (s', γ').
Proof.
  intros Hi [Hwk Hlk Hck Hids] [Hfk' Hti' Hdi' Hfr' Hho'] Hk Hres [] Hcovd Hcov'.
  assert (Hh : ∀ j r n, holds (γ' j) r n ↔ holds (γ j) r n) by (intros; by eapply keeps_holds).
  pose proof (k_others _ _ _ _ _ Hk) as Hne.
  destruct (keeps_reserved i s s' γ γ' Hi Hk Hids) as [Hr1 Hr2]; [done|].
  split; [by split|].
  destruct Hi as [Hfk Hkey Hjob Htime Hdis Hfr Hho Hlo Hexc _ _ Hcov]. cbn in *. split; cbn; try done.
  - intros r it. rewrite Hwk. intros H. destruct (Hkey r it H) as (? & j & ? & ?).
    split; [done|]. exists j. split; [lia|done].
  - intros id it r. rewrite Hwk. apply Hjob.
  - intros j r n. rewrite Hh, Hlk. intros H. destruct (Hlo j r n H). split; [done|lia].
  - intros j j' r n m. rewrite !Hh. apply Hexc.
  - intros r. apply Hcovd; [by intros k|by intros n _ k|apply Hcov].
Qed.

(** Covers through a statement on the tables, run by run. *)
Lemma cover_tables s s' γ γ' r ex :
  es_worker s' = es_worker s →
  (¬ rows_done s r → ¬ rows_done s' r ∨ ∃ j, owes s' (γ' j) r) →
  (∀ j, owes s (γ j) r → (∃ j', owes s' (γ' j') r) ∨ ¬ rows_done s' r) →
  cover (s, γ) r ex → cover (s', γ') r ex.
Proof.
  intros Hw Hrd Ho. unfold cover, has_job, is_dead. cbn. rewrite Hw.
  intros [Hn|[Hj|[Hd|[j Hj]]]]; [|by right; left|by right; right; left|].
  - destruct (Hrd Hn); [by left|by right; right; right].
  - destruct (Ho j Hj); [by right; right; right|by left].
Qed.

(** Waitpoint [w] is completed, and the thread takes up the duty. *)
Lemma complete_step i s s' γ γ' w :
  inv (s, γ) → same_but_tables s s' →
  (∀ id, row_at s' id = row_at s id) → (∀ id, snap_at s' id = snap_at s id) →
  (∀ w', w' ≠ w → wstatus s' w' = wstatus s w') →
  wstatus s' w = option_map (λ _, Wait_COMPLETED) (wstatus s w) →
  (∀ j, j ≠ i → γ' j = γ j) → g_lock (γ' i) = g_lock (γ i) →
  g_duty (γ i) = Idle → g_duty (γ' i) = Completing w →
  act i (s, γ) (s', γ') ∧ inv (s', γ').
Proof.
  intros Hi Hst Hrow Hsn Hoth Hw Hne Hl Hidle Hcomp.
  assert (Hb : ∀ r w', blocks s' r w' ↔ blocks s r w') by (intros; by apply blocks_same).
  assert (Hex : ∀ w', is_Some (wstatus s' w') ↔ is_Some (wstatus s w')).
  { intros w'. destruct (decide (w' = w)) as [->|Hw']; [|by rewrite Hoth]. rewrite Hw.
    destruct (wstatus s w); cbn; split; intros []; by eauto || done. }
  assert (Hc : ∀ r ex, cover (s, γ) r ex → cover (s', γ') r ex).
  { intros r ex. apply cover_tables; [by apply Hst| |].
    - intros Hn. destruct (blocks_dec s r w) as [Hbw|Hbw].
      + right. exists i. unfold owes. rewrite Hcomp. by apply Hb.
      + left. intros [[w' Hw'] Hall]. apply Hn. split; [exists w'; by apply Hb|].
        intros w'' Hw''. assert (w'' ≠ w) by (intros ->; done). rewrite <- Hoth by done.
        apply Hall. by apply Hb.
    - intros j Hj. left. destruct (decide (j = i)) as [->|Hji].
      + unfold owes in Hj. by rewrite Hidle in Hj.
      + exists j. rewrite Hne by done. by rewrite (owes_same s s'). }
  assert (Hwait : ∀ r, waiting s' r ↔ waiting s r) by (intros; by apply waiting_same).
  destruct (inv_tables _ Hi) as [Hfk Hti Hdi Hfr Hho]. cbn in *.
  apply tables_step; [done|done| |by apply keeps_lock|by intros j m _; rewrite Hsn| | |].
  - split.
    + intros r w'. rewrite Hb, Hex. apply Hfk.
    + intros id sn. rewrite Hsn, (st_clock _ _ Hst). apply Hti.
    + intros r id sn id' sn'. rewrite !(snap_of_same s s') by done. apply Hdi.
    + intros n Hn. pose proof (st_ids _ _ Hst). destruct (Hfr n ltac:(lia)) as (? & ? & ?).
      rewrite Hrow, Hsn. do 2 (split; [done|]). apply eq_None_not_Some. rewrite Hex.
      by apply eq_None_not_Some.
    + by apply (hand_overs_same s).
  - split; cbn; try done.
    + intros w' Hw'. destruct (decide (w' = w)) as [->|?]; [by rewrite Hw, Hw'|by rewrite Hoth].
    + intros w'. apply Hex.
    + by apply Hst.
    + by rewrite (st_clock _ _ Hst).
    + intros id sn. by rewrite Hsn.
    + intros r n. unfold holds. rewrite Hl. by left.
    + intros j r n w' _ _. by rewrite Hb.
    + intros j r n id sn _ _. by apply snap_of_same.
  - intros r ex _ _ [Hn|Hcv]; [left; cbn; by rewrite Hwait|right; by apply Hc].
  - intros j r n _ _ Hall ex Hex'. apply Hc. by apply Hall.
Qed.

(** Rows that block [r] are added by the holder of its lock, who takes up the duty. *)
Lemma block_step i s s' γ γ' r n :
  inv (s, γ) → same_but_tables s s' → holds (γ i) r n →
  (∀ id, snap_at s' id = snap_at s id) → (∀ w, wstatus s' w = wstatus s w) →
  (∀ id b, row_at s id = Some b → row_at s' id = Some b) →
  (∀ id b, row_at s' id = Some b → row_at s id = Some b ∨
     tw_taskRunId b = r ∧ is_Some (wstatus s (tw_waitpointId b))) →
  (∀ m, (es_ids s' ≤ m)%nat → row_at s' (gen m) = None) →
  (∀ j, j ≠ i → γ' j = γ j) → g_lock (γ' i) = g_lock (γ i) →
  g_duty (γ i) = Idle → g_duty (γ' i) = Blocking r →
  act i (s, γ) (s', γ') ∧ inv (s', γ').
Proof.
  intros Hi Hst Hhold Hsn Hws Hmore Hnew Hfresh Hne Hl Hidle Hblk.
  assert (Hb : ∀ r' w, blocks s r' w → blocks s' r' w).
  { intros r' w (id & b & Hid & Hrw). exists id, b. split; [by apply Hmore|done]. }
  assert (Hb' : ∀ r' w, r' ≠ r → blocks s' r' w → blocks s r' w).
  { intros r' w Hr (id & b & Hid & <- & Hw). exists id, b.
    destruct (Hnew id b Hid) as [?|[? _]]; [done|congruence]. }
  assert (Hc : ∀ r' ex, cover (s, γ) r' ex → cover (s', γ') r' ex).
  { intros r' ex. destruct (decide (r' = r)) as [->|Hr].
    { intros _. right; right; right. exists i. unfold owes. cbn. by rewrite Hblk. }
    apply cover_tables; [by apply Hst| |].
    - intros Hn. left. intros [[w Hw] Hall]. apply Hn. split; [exists w; by apply Hb'|].
      intros w' Hw'. rewrite <- Hws. apply Hall. by apply Hb.
    - intros j Hj. left. destruct (decide (j = i)) as [->|Hji].
      + unfold owes in Hj. by rewrite Hidle in Hj.
      + exists j. rewrite Hne by done. unfold owes in *. destruct (g_duty (γ j)); [done|by apply Hb|done|done]. }
  assert (Hwait : ∀ r', waiting s' r' ↔ waiting s r') by (intros; by apply waiting_same).
  destruct (inv_tables _ Hi) as [Hfk Hti Hdi Hfr Hho]. cbn in *.
  apply tables_step; [done|done| |by apply keeps_lock|by intros j m _; rewrite Hsn| | |].
  - split.
    + intros r' w (id & b & Hid & <- & <-). rewrite Hws. destruct (Hnew id b Hid) as [H|[_ H]]; [|done].
      apply (Hfk (tw_taskRunId b)). by exists id, b.
    + intros id sn. rewrite Hsn, (st_clock _ _ Hst). apply Hti.
    + intros r' id sn id' sn'. rewrite !(snap_of_same s s') by done. apply Hdi.
    + intros m Hm. pose proof (st_ids _ _ Hst). destruct (Hfr m ltac:(lia)) as (_ & ? & ?).
      rewrite Hsn, Hws. by rewrite Hfresh.
    + by apply (hand_overs_same s).
  - split; cbn; try done.
    + intros w. by rewrite Hws.
    + intros w. by rewrite Hws.
    + by apply Hst.
    + by rewrite (st_clock _ _ Hst).
    + intros id sn. by rewrite Hsn.
    + intros r' m. unfold holds. rewrite Hl. by left.
    + intros j r' m w _ _. apply Hb.
    + intros j r' m id sn _ _. by apply snap_of_same.
  - intros r' ex _ _ [Hn|Hcv]; [left; cbn; by rewrite Hwait|right; by apply Hc].
  - intros j r' m _ _ Hall ex Hex'. apply Hc. by apply Hall.
Qed.

(** Rows that block [r] are removed by the holder of its lock: all of them, or while [r]
    does not wait. *)
Lemma unblock_step i s s' γ γ' r n :
  inv (s, γ) → same_but_tables s s' → holds (γ i) r n →
  (∀ id, snap_at s' id = snap_at s id) → (∀ w, wstatus s' w = wstatus s w) →
  (∀ id b, row_at s' id = Some b → row_at s id = Some b) →
  (∀ id b, row_at s id = Some b → tw_taskRunId b ≠ r → row_at s' id = Some b) →
  (∀ j, γ' j = γ j) →
  (∀ w, ¬ blocks s' r w) ∨ ¬ waiting s r →
  g_duty (γ i) = Idle →
  act i (s, γ) (s', γ') ∧ inv (s', γ').
Proof.
  intros Hi Hst Hhold Hsn Hws Hless Hkeep Hγ Hgone Hidle.
  assert (Hb : ∀ r' w, r' ≠ r → blocks s' r' w ↔ blocks s r' w).
  { intros r' w Hr. split; intros (id & b & Hid & Hr' & Hw); exists id, b.
    - split; [by apply Hless|done].
    - split; [apply Hkeep; [done|congruence]|done]. }
  assert (Hc : ∀ r' ex, r' ≠ r → cover (s, γ) r' ex → cover (s', γ') r' ex).
  { intros r' ex Hr. apply cover_tables; [by apply Hst| |].
    - intros Hn. left. intros [[w Hw] Hall]. apply Hn. split; [exists w; by apply Hb|].
      intros w' Hw'. rewrite <- Hws. apply Hall. by apply Hb.
    - intros j Hj. left. exists j. rewrite Hγ. unfold owes in *.
      destruct (g_duty (γ j)); [done|by apply Hb|done|done]. }
  assert (Hwait : ∀ r', waiting s' r' ↔ waiting s r') by (intros; by apply waiting_same).
  destruct (inv_tables _ Hi) as [Hfk Hti Hdi Hfr Hho]. pose proof (i_exclusive _ Hi) as Hexc. cbn in *.
  assert (Hother : ∀ j r' m, j ≠ i → holds (γ j) r' m → r' ≠ r).
  { intros j r' m Hj Hh ->. apply Hj. by eapply Hexc. }
  apply tables_step; [done|done| |by apply keeps_same|by intros j m _; rewrite Hsn| | |].
  - split.
    + intros r' w (id & b & Hid & Hr & Hw). rewrite Hws. apply (Hfk r'). exists id, b.
      split; [by apply Hless|done].
    + intros id sn. rewrite Hsn, (st_clock _ _ Hst). apply Hti.
    + intros r' id sn id' sn'. rewrite !(snap_of_same s s') by done. apply Hdi.
    + intros m Hm. pose proof (st_ids _ _ Hst). destruct (Hfr m ltac:(lia)) as (Hr & ? & ?).
      rewrite Hsn, Hws. split; [|done]. destruct (row_at s' (gen m)) eqn:E; [|done].
      apply Hless in E. congruence.
    + by apply (hand_overs_same s).
  - split; cbn; try done.
    + intros w. by rewrite Hws.
    + intros w. by rewrite Hws.
    + by apply Hst.
    + by rewrite (st_clock _ _ Hst).
    + intros id sn. by rewrite Hsn.
    + intros r' m. rewrite Hγ. by left.
    + intros j r' m w Hj Hh. rewrite Hb; [done|]. by eapply Hother.
    + intros j r' m id sn _ _. by apply snap_of_same.
  - intros r' ex _ _ Hcv. destruct (decide (r' = r)) as [->|Hr].
    + destruct Hgone as [Hg|Hg]; [right; left|left; cbn; by rewrite Hwait].
      intros [[w Hw] _]. by apply (Hg w).
    + destruct Hcv as [Hn|Hcv]; [left; cbn; by rewrite Hwait|right; by apply Hc].
  - intros j r' m Hj Hh Hall ex Hex'. apply Hc; [by eapply Hother|]. by apply Hall.
Qed.

(** A snapshot with a later time than the others of its run is the newest. *)
Lemma newest_unique s r id sn id' sn' : newest s r id sn → newest s r id' sn' → id' = id ∧ sn' = sn.
Proof.
  intros [Ho Hm] [Ho' Hm']. destruct (decide (id' = id)) as [->|Hne].
  - destruct Ho as (Ho & _), Ho' as (Ho' & _). split; congruence.
  - specialize (Hm _ _ Ho' Hne). specialize (Hm' _ _ Ho ltac:(congruence)). lia.
Qed.

Lemma newest_waiting s r id sn :
  newest s r id sn → waiting s r ↔ wait_status (sn_executionStatus sn) = true.
Proof.
  intros Hn. split; [|by exists id, sn]. intros (id' & sn' & Hn' & Hw).
  by destruct (newest_unique _ _ _ _ _ _ Hn Hn') as [-> ->].
Qed.

Lemma newest_insert s s' r id sn :
  snap_at s' id = Some sn → (∀ id', id' ≠ id → snap_at s' id' = snap_at s id') →
  sn_runId sn = r → sn_isValid sn = true →
  (∀ id' sn', snap_of s r id' sn' → sn_createdAt sn' < sn_createdAt sn) →
  newest s' r id sn.
Proof.
  intros Hid Hoth Hr Hv Hlate. split; [done|]. intros id' sn' (H & Hr' & Hv') Hne.
  apply (Hlate id'). split; [by rewrite <- Hoth|done].
Qed.

(** A snapshot may follow the newest one; to hand the run over, that must be queued. *)
Definition may_follow s r (sn : TaskRunExecutionSnapshot) : Prop :=
  sn_executionStatus sn = Exec_PENDING_EXECUTING →
  ∃ q sq, sn_previousSnapshotId sn = Some q ∧ newest s r q sq ∧ sn_executionStatus sq = Exec_QUEUED.

Lemma plain_follows s r sn : plain_status (sn_executionStatus sn) = true → may_follow s r sn.
Proof. unfold plain_status. intros H E. rewrite E in H. done. Qed.

Lemma hand_overs_insert s s' r id sn :
  (∀ r' id' sn', snap_of s r' id' sn' → snap_of s' r' id' sn' ∧ id' ≠ id) →
  (∀ r' id' sn', snap_of s' r' id' sn' → snap_of s r' id' sn' ∨ id' = id ∧ sn' = sn ∧ r' = r) →
  (∀ id' sn', snap_of s r id' sn' → sn_createdAt sn' < sn_createdAt sn) →
  may_follow s r sn → hand_overs s → hand_overs s'.
Proof.
  intros Hold Hnew Hlate Hfol [H1 H2].
  assert (Hno : ∀ id' sn', snap_of s r id' sn' → sn_executionStatus sn' = Exec_PENDING_EXECUTING →
    sn_executionStatus sn = Exec_PENDING_EXECUTING →
    sn_previousSnapshotId sn' = sn_previousSnapshotId sn → False).
  { intros id' sn' Hof Hst' Hst Heq. destruct (Hfol Hst) as (q & sq & Hq & [Hsq Hmax] & _).
    destruct (H1 r id' sn' Hof Hst') as (q' & sq' & Hq' & Hsq' & _ & Hlt).
    assert (q' = q) as -> by congruence. destruct Hsq as [Hsq _], Hsq' as [Hsq' _].
    assert (sq' = sq) as -> by congruence. destruct (decide (id' = q)) as [->|Hne].
    - destruct Hof as [Hof _]. assert (sn' = sq) as -> by congruence. lia.
    - specialize (Hmax _ _ Hof Hne). lia. }
  split.
  - intros r' id' sn' [Hof|(-> & -> & ->)]%Hnew Hst.
    + destruct (H1 _ _ _ Hof Hst) as (q & sq & ? & ? & ? & ?). exists q, sq.
      split; [done|]. split; [by apply Hold|done].
    + destruct (Hfol Hst) as (q & sq & Hq & [Hsq _] & Hqst). exists q, sq.
      split; [done|]. split; [by apply Hold|]. split; [done|by eapply Hlate].
  - intros r' id1 sn1 id2 sn2 [G1|(-> & -> & ->)]%Hnew [G2|(-> & -> & E)]%Hnew S1 S2 Heq.
    + by eapply (H2 r' id1 sn1).
    + subst. by destruct (Hno id1 sn1).
    + by destruct (Hno id2 sn2).
    + done.
Qed.

(** The holder of the lock of [r] adds a snapshot, with the latest time of [r].  If it
    makes [r] wait, [r] waits already or is covered. *)
Lemma snapshot_step i s s' γ γ' r n m sn (id := gen m) :
  inv (s, γ) → same_but_tables s s' → holds (γ i) r n →
  (∀ id, row_at s' id = row_at s id) → (∀ w, wstatus s' w = wstatus s w) →
  (m < es_ids s')%nat → snap_at s id = None → (∀ j, ¬ reserves (γ' j) m) →
  snap_at s' id = Some sn → (∀ id', id' ≠ id → snap_at s' id' = snap_at s id') →
  sn_runId sn = r → sn_isValid sn = true → sn_createdAt sn ≤ es_clock s →
  (∀ id' sn', snap_of s r id' sn' → sn_createdAt sn' < sn_createdAt sn) →
  keeps i s s' γ γ' → g_duty (γ' i) = g_duty (γ i) →
  wait_status (sn_executionStatus sn) = false ∨ waiting s r ∨ (∀ ex, old n ex → cover (s, γ) r ex) →
  may_follow s r sn →
  act i (s, γ) (s', γ') ∧ inv (s', γ').
Proof using FI.
  intros Hi Hst Hhold Hrow Hws Hm Hnone Hfree Hid Hoth Hr Hval Hcr Hstrict Hk Hduty Hok Hfol.
  destruct (inv_tables _ Hi) as [Hfk Hti Hdi Hfr Hho]. pose proof (i_exclusive _ Hi) as Hexc. cbn in *.
  assert (Hold : ∀ r' id' sn', snap_of s r' id' sn' → snap_of s' r' id' sn' ∧ id' ≠ id).
  { intros r' id' sn' (H & ? & ?). assert (id' ≠ id) by (intros ->; congruence).
    split; [|done]. split; [by rewrite Hoth|done]. }
  assert (Hnew : ∀ r' id' sn', snap_of s' r' id' sn' → snap_of s r' id' sn' ∨ id' = id ∧ sn' = sn ∧ r' = r).
  { intros r' id' sn' (H & Hr' & Hv). destruct (decide (id' = id)) as [->|Hne].
    - right. split; [done|]. assert (sn' = sn) as -> by congruence. split; [done|congruence].
    - left. split; [by rewrite <- Hoth|done]. }
  assert (Hoths : ∀ r' id' sn', r' ≠ r → snap_of s' r' id' sn' ↔ snap_of s r' id' sn').
  { intros r' id' sn' Hr'. split; [|intros; by apply Hold].
    intros [?|(_ & _ & ?)]%Hnew; [done|congruence]. }
  assert (Hwait : waiting s' r → wait_status (sn_executionStatus sn) = true)
    by (intros; by apply (newest_waiting s' r id sn); [eapply newest_insert|]).
  assert (Howes : ∀ j r', owes s (γ j) r' → owes s' (γ' j) r').
  { intros j r' Hj. rewrite (owes_same s s') by done. destruct (decide (j = i)) as [->|Hji].
    - unfold owes in *. by rewrite Hduty.
    - by rewrite (k_others _ _ _ _ _ Hk). }
  assert (Hc : ∀ r' ex, cover (s, γ) r' ex → cover (s', γ') r' ex).
  { intros r' ex. apply cover_tables; [by apply Hst| |].
    - intros Hn. left. by rewrite (rows_done_same s s').
    - intros j Hj. left. exists j. by apply Howes. }
  apply tables_step; [done|done| |done| | | |].
  - split.
    + intros r' w. rewrite (blocks_same s s'), Hws by done. apply Hfk.
    + intros id' sn'. rewrite (st_clock _ _ Hst). destruct (decide (id' = id)) as [->|Hne].
      * rewrite Hid. intros [= <-]. lia.
      * rewrite Hoth by done. apply Hti.
    + intros r' id1 sn1 id2 sn2 H1 H2 Heq.
      destruct (Hnew _ _ _ H1) as [G1|(-> & -> & ->)], (Hnew _ _ _ H2) as [G2|(-> & -> & E2)].
      * by eapply Hdi.
      * subst. specialize (Hstrict _ _ G1). lia.
      * specialize (Hstrict _ _ G2). lia.
      * done.
    + intros m' Hm'. pose proof (st_ids _ _ Hst). destruct (Hfr m' ltac:(lia)) as (? & ? & ?).
      rewrite Hrow, Hws, Hoth; [done|]. intros Heq. apply (inj gen) in Heq. lia.
    + by apply (hand_overs_insert s s' r id sn).
  - intros j m' Hj. rewrite Hoth; [done|]. intros Heq%(inj gen). subst. by apply (Hfree j).
  - split; cbn; try done.
    + intros w. by rewrite Hws.
    + intros w. by rewrite Hws.
    + by apply Hst.
    + by rewrite (st_clock _ _ Hst).
    + intros id' sn' H. rewrite Hoth; [done|]. intros ->. congruence.
    + by apply Hk.
    + intros r' m'. rewrite (k_holds _ _ _ _ _ Hk). by left.
    + intros j r' m' w _ _. by rewrite (blocks_same s s').
    + intros j r' m' id' sn' Hj Hh. apply Hoths. intros ->. apply Hj. by eapply Hexc.
  - intros r' ex _ Hex Hcv. destruct (decide (r' = r)) as [->|Hr'].
    + destruct Hok as [Hf|[Hw|Hp]]; [left; cbn; intros Hw%Hwait; congruence| |].
      * destruct Hcv as [?|Hcv]; [done|right; by apply Hc].
      * right. by apply Hc, Hp, Hex.
    + destruct Hcv as [Hn|Hcv]; [left|right; by apply Hc]. cbn.
      by rewrite (waiting_ext s s') by (intros; by apply Hoths).
  - intros j r' m' Hj Hh Hall ex Hex'. apply Hc. by apply Hall.
Qed.

(** A snapshot that is not valid is added under a fresh id. *)
Lemma invalid_step i s s' γ γ' m sn :
  inv (s, γ) → same_but_tables s s' →
  (∀ id, row_at s' id = row_at s id) → (∀ w, wstatus s' w = wstatus s w) →
  (es_ids s ≤ m < es_ids s')%nat →
  snap_at s' (gen m) = Some sn → (∀ id, id ≠ gen m → snap_at s' id = snap_at s id) →
  sn_isValid sn = false → sn_createdAt sn ≤ es_clock s → (∀ j, γ' j = γ j) →
  act i (s, γ) (s', γ') ∧ inv (s', γ').
Proof using FI.
  intros Hi Hst Hrow Hws Hm Hnew Hoth Hval Hcr Hγ.
  destruct (inv_tables _ Hi) as [Hfk Hti Hdi Hfr Hho]. cbn in *.
  assert (Hnone : snap_at s (gen m) = None) by (apply Hfr; lia).
  assert (Hof : ∀ r id sn', snap_of s' r id sn' ↔ snap_of s r id sn').
  { intros r id sn'. unfold snap_of. destruct (decide (id = gen m)) as [->|Hne]; [|by rewrite Hoth].
    rewrite Hnew, Hnone. split; [|by intros []]. intros ([= <-] & _ & ?). congruence. }
  assert (Hb : ∀ r w, blocks s' r w ↔ blocks s r w) by (intros; by apply blocks_same).
  assert (Hc : ∀ r' ex, cover (s, γ) r' ex → cover (s', γ') r' ex).
  { intros r' ex. apply cover_tables; [by apply Hst| |].
    - intros Hn. left. by rewrite (rows_done_same s s').
    - intros j Hj. left. exists j. rewrite Hγ. by rewrite (owes_same s s'). }
  assert (Hwait : ∀ r', waiting s' r' ↔ waiting s r') by (intros; by apply waiting_ext).
  apply tables_step; [done|done| |by apply keeps_same| | | |].
  - split.
    + intros r w. rewrite Hb, Hws. apply Hfk.
    + intros id sn'. rewrite (st_clock _ _ Hst). destruct (decide (id = gen m)) as [->|Hne].
      * rewrite Hnew. by intros [= <-].
      * rewrite Hoth by done. apply Hti.
    + intros r' id sn1 id' sn2. rewrite !Hof. apply Hdi.
    + intros m' Hm'. pose proof (st_ids _ _ Hst). destruct (Hfr m' ltac:(lia)) as (? & ? & ?).
      rewrite Hrow, Hws, Hoth; [done|]. intros Heq. apply (inj gen) in Heq. lia.
    + unfold hand_overs. by setoid_rewrite Hof.
  - intros j m' Hj Hn. rewrite Hoth; [done|]. intros Heq%(inj gen). subst. rewrite Hγ in Hj.
    destruct (i_reserved _ Hi j m Hj). cbn in *. lia.
  - split; cbn; try done.
    + intros w. by rewrite Hws.
    + intros w. by rewrite Hws.
    + by apply Hst.
    + by rewrite (st_clock _ _ Hst).
    + intros id sn' H. rewrite Hoth; [done|]. intros ->. congruence.
    + intros r' m'. rewrite Hγ. by left.
    + intros j r' m' w _ _. by rewrite Hb.
  - intros r' ex _ _ [Hn|Hcv]; [left; cbn; by rewrite Hwait|right; by apply Hc].
  - intros j r' n' _ _ Hall ex Hex'. apply Hc. by apply Hall.
Qed.

(** A waitpoint is added under a fresh id. *)
Lemma waitpoint_step i s s' γ γ' m status :
  inv (s, γ) → same_but_tables s s' →
  (∀ id, row_at s' id = row_at s id) → (∀ id, snap_at s' id = snap_at s id) →
  (es_ids s ≤ m < es_ids s')%nat →
  wstatus s' (gen m) = Some status → (∀ w, w ≠ gen m → wstatus s' w = wstatus s w) →
  (∀ j, γ' j = γ j) →
  act i (s, γ) (s', γ') ∧ inv (s', γ').
Proof using FI.
  intros Hi Hst Hrow Hsn Hm Hnew Hoth Hγ.
  destruct (inv_tables _ Hi) as [Hfk Hti Hdi Hfr Hho]. cbn in *.
  assert (Hnone : wstatus s (gen m) = None) by (apply Hfr; lia).
  assert (Hkeep : ∀ w, is_Some (wstatus s w) → wstatus s' w = wstatus s w).
  { intros w Hw. apply Hoth. intros ->. rewrite Hnone in Hw. by destruct Hw. }
  assert (Hb : ∀ r w, blocks s' r w ↔ blocks s r w) by (intros; by apply blocks_same).
  assert (Hrd : ∀ r, rows_done s' r → rows_done s r).
  { intros r [[w Hw] Hall]. split; [exists w; by apply Hb|]. intros w' Hw'.
    rewrite <- Hkeep by by eapply Hfk. apply Hall. by apply Hb. }
  assert (Hc : ∀ r' ex, cover (s, γ) r' ex → cover (s', γ') r' ex).
  { intros r' ex. apply cover_tables; [by apply Hst| |].
    - intros Hn. left. by intros ?%Hrd.
    - intros j Hj. left. exists j. rewrite Hγ. by rewrite (owes_same s s'). }
  assert (Hwait : ∀ r', waiting s' r' ↔ waiting s r') by (intros; by apply waiting_same).
  apply tables_step; [done|done| |by apply keeps_same|by intros j m1 _; rewrite Hsn| | |].
  - split.
    + intros r w. rewrite Hb. intros H%Hfk. by rewrite Hkeep.
    + intros id sn. rewrite Hsn, (st_clock _ _ Hst). apply Hti.
    + intros r' id sn id' sn'. rewrite !(snap_of_same s s') by done. apply Hdi.
    + intros m' Hm'. pose proof (st_ids _ _ Hst). destruct (Hfr m' ltac:(lia)) as (? & ? & ?).
      rewrite Hrow, Hsn, Hoth; [done|]. intros Heq. apply (inj gen) in Heq. lia.
    + by apply (hand_overs_same s).
  - split; cbn; try done.
    + intros w Hw. rewrite Hkeep; [done|]. by rewrite Hw.
    + intros w Hw. by rewrite Hkeep.
    + by apply Hst.
    + by rewrite (st_clock _ _ Hst).
    + intros id sn. by rewrite Hsn.
    + intros r' m'. rewrite Hγ. by left.
    + intros j r' m' w _ _. by rewrite Hb.
    + intros j r' m' id' sn' _ _. by apply snap_of_same.
  - intros r' ex _ _ [Hn|Hcv]; [left; cbn; by rewrite Hwait|right; by apply Hc].
  - intros j r' n' _ _ Hall ex Hex'. apply Hc. by apply Hall.
Qed.

(** ** Locks *)

Lemma lock_step i s γ γ' locks :
  inv (s, γ) → (∀ j, j ≠ i → γ' j = γ j) → g_duty (γ' i) = g_duty (γ i) →
  (∀ r n, holds (γ' i) r n →
     n = es_ids s ∧ r ∈ locks ∧ ∀ j m, j ≠ i → ¬ holds (γ j) r m) →
  (∀ m, ¬ reserves (γ' i) m) →
  (∀ j r n, j ≠ i → holds (γ j) r n → r ∈ locks) →
  act i (s, γ) (s {{ es_locks := locks }}, γ') ∧ inv (s {{ es_locks := locks }}, γ').
Proof.
  intros Hi Hne Hd Hnew Hres Hkeep. set (s' := s {{ es_locks := locks }}).
  assert (Hc : ∀ r ex, cover (s, γ) r ex → cover (s', γ') r ex).
  { intros r ex [Hn|[Hj|[Hdd|[j Hj]]]]; [by left|by right; left|by right; right; left|].
    right; right; right. exists j. destruct (decide (j = i)) as [->|Hji].
    - unfold owes in *. cbn in *. rewrite Hd. exact Hj.
    - cbn. rewrite Hne by done. exact Hj. }
  split.
  - apply act_calm; [done| |done|auto]. split; cbn; try done.
    intros r n Hn. right. by apply Hnew in Hn as [? _].
  - assert (Hrs : ∀ j m, reserves (γ' j) m → reserves (γ j) m).
    { intros j m Hj. destruct (decide (j = i)) as [->|Hji]; [by apply Hres in Hj|by rewrite <- Hne]. }
    pose proof Hi as [Hfk Hkey Hjob Htime Hdis Hfr Hho Hlo Hexc Hr1 Hr2 Hcov]. split; try done.
    + intros j r n Hh. destruct (decide (j = i)) as [->|Hji].
      * cbn in Hh. destruct (Hnew r n Hh) as (-> & ? & _). by split.
      * cbn in Hh. rewrite Hne in Hh by done. split; [by eapply Hkeep|]. by apply (Hlo j r).
    + cbn. intros j j' r n m Hh Hh'.
      destruct (decide (j = i)) as [->|Hj], (decide (j' = i)) as [->|Hj']; [done| | |].
      * rewrite Hne in Hh' by done. by destruct (Hnew r n Hh) as (_ & _ & []%(λ H, H j' m Hj')).
      * rewrite Hne in Hh by done. by destruct (Hnew r m Hh') as (_ & _ & []%(λ H, H j n Hj)).
      * rewrite Hne in Hh, Hh' by done. by eapply Hexc.
    + intros j m Hj. apply (Hr1 j), Hrs, Hj.
    + intros j j' m Hj Hj'. by eapply Hr2; apply Hrs.
    + intros r. destruct (Hcov r) as [Hn|Hcv]; [by left|right; by apply Hc].
Qed.

(** ** The latest snapshot *)

Lemma later_in (a b : string * TaskRunExecutionSnapshot) : later a b = a ∨ later a b = b.
Proof. unfold later. destruct (_ <? _); auto. Qed.

Lemma foldl_later l z :
  (foldl later z l = z ∨ foldl later z l ∈ l) ∧
  sn_createdAt z.2 ≤ sn_createdAt (foldl later z l).2 ∧
  ∀ a, a ∈ l → sn_createdAt a.2 ≤ sn_createdAt (foldl later z l).2.
Proof.
  revert z. induction l as [|a l IH]; intros z; cbn.
  { split; [by left|]. split; [lia|]. by intros b ?%elem_of_nil. }
  destruct (IH (later z a)) as (Hin & Hz & Hl).
  assert (sn_createdAt z.2 ≤ sn_createdAt (later z a).2 ∧
          sn_createdAt a.2 ≤ sn_createdAt (later z a).2) as [H1 H2].
  { unfold later. destruct (Z.ltb_spec (sn_createdAt z.2) (sn_createdAt a.2)); lia. }
  split; [|split; [lia|]].
  - destruct Hin as [->|Hin]; [|right; by right].
    destruct (later_in z a) as [->| ->]; [by left|right; left].
  - intros b [->|Hb]%elem_of_cons; [lia|by apply Hl].
Qed.

Lemma elem_of_valid s r id sn :
  (id, sn) ∈ valid_snapshots r (es_tables s) ↔ snap_of s r id sn.
Proof using TL.
  unfold valid_snapshots, select, snap_of, snap_at. rewrite list_elem_of_filter, t_rows_find. cbn.
  rewrite andb_true_iff, bool_decide_eq_true. tauto.
Qed.

Lemma latest_newest x r id sn :
  inv x → latest_snapshot r (es_tables x.1) = Some (id, sn) → newest x.1 r id sn.
Proof using TL.
  intros Hi. unfold latest_snapshot. destruct (valid_snapshots r (es_tables x.1)) as [|z l] eqn:E; [done|].
  intros [= He]. destruct (foldl_later l z) as (Hin & Hz & Hl). rewrite He in *.
  assert (Hof : ∀ p, p = z ∨ p ∈ l → snap_of x.1 r p.1 p.2).
  { intros [a b] H. apply elem_of_valid. rewrite E. cbn. apply elem_of_cons. destruct H; auto. }
  assert (Hme : snap_of x.1 r id sn) by (apply (Hof (id, sn)); destruct Hin; auto).
  split; [done|]. intros id' sn' Hof' Hne.
  assert (sn_createdAt sn' ≤ sn_createdAt sn).
  { apply elem_of_valid in Hof' as Hin'. rewrite E in Hin'.
    apply elem_of_cons in Hin' as [<-|Hin']; [exact Hz|by apply (Hl (id', sn'))]. }
  assert (sn_createdAt sn' ≠ sn_createdAt sn); [|lia].
  intros Heq. apply Hne. by eapply (i_distinct _ Hi).
Qed.

Lemma latest_waiting x r id sn :
  inv x → latest_snapshot r (es_tables x.1) = Some (id, sn) →
  waiting x.1 r ↔ wait_status (sn_executionStatus sn) = true.
Proof using TL.
  intros Hi Hl%latest_newest; [|done]. by eapply newest_waiting.
Qed.

End Wakeups.
