(* ===== verification/EngineWakeupRules.v ===== *)
(** * EngineWakeupRules: rules for methods that keep blocked runs covered

    A method that begins and ends without a duty is _steady_.  The rules follow the
    structure of methods; the statements are the steps of [EngineWakeups]. *)

From Stdlib Require Import SpecFloat.
From S2P Require Import Prelude Text Messages Retry KeyProducer RunQueue EngineErrors EngineProg.
From S2P Require Import EngineData EngineSystems EngineAttempts EngineLifecycle EngineHandlers.
From S2P Require Import EngineWakeups.
Local Open Scope Z_scope.

Section Rules.
Context {T : Type → Type} {J Q : Type} {TB : Table T} {TL : TableLaws T}.
Context {W : Worker J} {WL : WorkerLaws J} {EQ : EngineQueue Q}.
Context (gen : nat → string) {FI : FreshIds gen}.
Local Notation state := (engine_state T J Q).
Local Notation cfg := (engine_state T J Q * (nat → ghost))%type.
Local Notation M := (M T J Q).
Local Notation inv := (inv gen).
Local Notation act := (act gen).
Local Notation stable := (EngineProg.stable inv act).
Local Notation step := (EngineProg.step elapse inv act).
Local Notation safe := (EngineProg.safe elapse inv act).
Implicit Types (s : state) (x y : cfg) (γ : nat → ghost) (r w k : string) (L : option hold).

Lemma rely_elapse : ∀ i d s γ, inv (s, γ) → inv (elapse d s, γ) ∧ act i (s, γ) (elapse d s, γ).
Proof. intros. by apply elapse_step. Qed.

(** ** Steady methods *)

(** Thread [i] holds [L] and has no duty. *)
Definition at_rest (i : nat) L x : Prop := ghost_is i (MkGhost L Idle) x.

Lemma at_rest_stable i L : stable i (at_rest i L).
Proof. apply ghost_stable. Qed.

(** The end of a steady method. *)
Definition rested {A} (i : nat) L (φ : A → Prop) (o : outcome engine_error A) x : Prop :=
  at_rest i L x ∧ ∀ a, o = Ok a → φ a.

Definition steady {A} (i : nat) L (m : M A) (φ : A → Prop) : Prop :=
  ∀ x, inv x → at_rest i L x → safe i (m (option_map h_run L)) (rested i L φ) x.

Definition any {A} (a : A) : Prop := True.

Lemma rested_stable {A} i L (φ : A → Prop) o : stable i (rested i L φ o).
Proof. intros j x y Hj Ha Hi [Hr Hφ]. split; [by eapply at_rest_stable|done]. Qed.

Lemma steady_ret {A} i L (a : A) (φ : A → Prop) : φ a → steady i L (e_ret a) φ.
Proof.
  intros Ha x Hi Hx. apply safe_ret; [apply rested_stable|]. split; [done|]. by intros ? [= <-].
Qed.

Lemma steady_throw {A} i L e (φ : A → Prop) : steady i L (e_throw e) φ.
Proof. intros x Hi Hx. apply safe_throw; [apply rested_stable|]. by split. Qed.

Lemma steady_bind {A B} i L (m : M A) (f : A → M B) (φ : A → Prop) (ψ : B → Prop) :
  steady i L m φ → (∀ a, φ a → steady i L (f a) ψ) → steady i L (e_bind m f) ψ.
Proof.
  intros Hm Hf x Hi Hx. unfold e_bind. eapply safe_bind; [by apply Hm| |].
  - intros a y Hy [Hr Ha]. apply Hf; [by apply Ha|done|done].
  - intros e y _ [Hr _]. by split.
Qed.

Lemma steady_catch {A} i L (m : M A) h (φ : A → Prop) :
  steady i L m φ → (∀ e, steady i L (h e) φ) → steady i L (e_catch m h) φ.
Proof.
  intros Hm Hf x Hi Hx. unfold e_catch. eapply safe_catch; [by apply Hm| |].
  - intros a y _ [Hr Ha]. by split.
  - intros e y Hy [Hr _]. by apply Hf.
Qed.

Lemma steady_mono {A} i L (m : M A) (φ ψ : A → Prop) :
  steady i L m φ → (∀ a, φ a → ψ a) → steady i L m ψ.
Proof.
  intros Hm Himp x Hi Hx. eapply safe_mono; [by apply Hm|]. intros o y _ [Hr Ha].
  split; [done|]. eauto.
Qed.

Lemma steady_any {A} i L (m : M A) (φ : A → Prop) : steady i L m φ → steady i L m any.
Proof. intros H. by eapply steady_mono. Qed.

Lemma steady_each {A} i L (body : A → M unit) l :
  (∀ a, steady i L (body a) any) → steady i L (e_each body l) any.
Proof.
  intros H. induction l as [|a l IH]; cbn; [by apply steady_ret|]. by eapply steady_bind.
Qed.

(** A statement that keeps the thread at rest. *)
Definition resting {B} (i : nat) L (f : state → B * state) (φ : B → Prop) : Prop :=
  step i f (at_rest i L) (λ b y, at_rest i L y ∧ φ b).

Lemma steady_stmt {B} i L (f : state → B * state) (φ : B → Prop) :
  resting i L f φ → steady i L (stmt f) φ.
Proof.
  intros Hf x Hi Hx. unfold stmt. eapply (safe_step elapse inv act rely_elapse);
    [apply at_rest_stable|exact Hx|exact Hf|].
  intros b y Hy [Hr Hb]. apply safe_ret; [apply rested_stable|]. split; [done|]. by intros ? [= <-].
Qed.

Lemma steady_stmt_or {B} i L e (f : state → option (B * state)) (φ : B → Prop) :
  resting i L (λ s, match f s with Some (a, s) => (Some a, s) | None => (None, s) end)
    (λ o, ∀ b, o = Some b → φ b) →
  steady i L (stmt_or e f) φ.
Proof.
  intros Hf x Hi Hx. unfold stmt_or. eapply (safe_step elapse inv act rely_elapse);
    [apply at_rest_stable|exact Hx|exact Hf|].
  intros [b|] y Hy [Hr Hb].
  - apply safe_ret; [apply rested_stable|]. split; [done|]. intros ? [= <-]. by apply Hb.
  - apply safe_throw; [apply rested_stable|]. by split.
Qed.

(** A statement, and what is done after it. *)
Lemma safe_stmt {A B} i L (f : state → B * state) (k : B → M A) P R Φ x :
  stable i P → P x → step i f P R →
  (∀ b y, inv y → R b y → safe i (k b (option_map h_run L)) Φ y) →
  safe i (e_bind (stmt f) k (option_map h_run L)) Φ x.
Proof.
  intros HP Hx Hf Hk. unfold e_bind, stmt. cbn [pbind].
  eapply (safe_step elapse inv act rely_elapse); [exact HP|exact Hx|exact Hf|exact Hk].
Qed.

(** A thread that does not touch the waits. *)
Lemma quiet_act i g s s' γ :
  inv (s, γ) → ghost_is i g (s, γ) → quiet s s' →
  let y := (s', set_ghost i g γ) in act i (s, γ) y ∧ inv y ∧ ghost_is i g y.
Proof.
  intros Hi Hr Hq. unfold ghost_is in Hr. cbn in Hr. cbv zeta.
  destruct (quiet_step gen i s s' γ (set_ghost i g γ)) as [Ha Hi']; [done|done| | |].
  - apply keeps_lock; [intros; by apply set_ghost_ne|by rewrite set_ghost_eq, Hr].
  - intros r. rewrite set_ghost_eq, Hr. by left.
  - split; [done|]. split; [done|]. apply set_ghost_eq.
Qed.

(** Statements that do not touch the waits. *)
Lemma resting_quiet {B} i L (f : state → B * state) (φ : B → Prop) :
  (∀ s, quiet s (f s).2) → (∀ s, φ (f s).1) → resting i L f φ.
Proof.
  intros Hq Hφ d s γ _ Hi Hr. exists (MkGhost L Idle).
  destruct (quiet_act i (MkGhost L Idle) (elapse d s) (f (elapse d s)).2 γ) as (? & ? & ?); [done|done|apply Hq|].
  split; [done|]. split; [done|]. split; [done|apply Hφ].
Qed.

Lemma quiet_refl s : quiet s s.
Proof. by split. Qed.

Lemma steady_query {A} i L (f : tables T → A) (φ : A → Prop) :
  (∀ t, φ (f t)) → steady i L (query f) φ.
Proof. intros Hf. apply steady_stmt, resting_quiet; intros s; [apply quiet_refl|apply Hf]. Qed.

Lemma steady_time i L : steady i L current_time any.
Proof. apply steady_stmt, resting_quiet; [intros; apply quiet_refl|done]. Qed.

(** ** Statements that do not touch the waits *)

(** An id that is not one of a continuation, and a job that is not one. *)
Definition other_id (id : string) : Prop := ∀ r, id ≠ continue_job r.
Definition other_job (job : engine_job) : Prop := ∀ r, job ≠ Job_continueRunIfUnblocked r.

(** A change of the worker under another id. *)
Lemma quiet_worker s id (f : J → J) (ids : nat) :
  other_id id →
  (∀ id', id' ≠ id → worker_items (f (es_worker s)) !! id' = worker_items (es_worker s) !! id') →
  (∀ id', id' ≠ id → worker_dead (f (es_worker s)) !! id' = worker_dead (es_worker s) !! id') →
  (∀ it, worker_items (f (es_worker s)) !! id = Some it → other_job (ji_job it) ∨
         worker_items (es_worker s) !! id = Some it) →
  (es_ids s ≤ ids)%nat →
  quiet s (s {{ es_worker := f (es_worker s); es_ids := ids }}).
Proof.
  intros Hid Hit Hd Hnew Hids. split; cbn; unfold constant; try done.
  - intros r. apply Hit. intros E. by destruct (Hid r).
  - intros r. apply Hd. intros E. by destruct (Hid r).
  - intros id' it r. destruct (decide (id' = id)) as [->|Hne]; [|by rewrite Hit].
    intros Hin Hj. destruct (Hnew it Hin) as [Ho|]; [|done]. by destruct (Ho r).
Qed.

Lemma quiet_enqueue s id job attempt at_ :
  other_id id → other_job job →
  quiet s ((take_id s) {{ es_worker :=
    worker_enqueue (es_clock s) (next_id gen s) id job attempt at_ (es_worker s) }}).
Proof.
  intros Hid Hj. apply (quiet_worker s id (worker_enqueue (es_clock s) (next_id gen s) id job attempt at_));
    [done| | | |lia].
  - intros id' Hne. by rewrite items_enqueue, lookup_insert_ne.
  - intros id' Hne. by rewrite dead_enqueue.
  - intros it. rewrite items_enqueue, lookup_insert_eq. intros [= <-]. by left.
Qed.

Lemma quiet_ack s id key :
  other_id id → quiet s (s {{ es_worker := worker_ack id key (es_worker s) }}).
Proof.
  intros Hid. apply (quiet_worker s id (worker_ack id key)); [done| | | |exact (le_n _)].
  - intros id' Hne. rewrite items_ack. destruct (worker_items (es_worker s) !! id); [|done].
    destruct (key_rejects _ _); [done|]. by rewrite lookup_delete_ne.
  - intros id' Hne. by rewrite dead_ack.
  - intros it. rewrite items_ack. destruct (worker_items (es_worker s) !! id) eqn:E; [|by rewrite E].
    destruct (key_rejects _ _); [by right; congruence|]. by rewrite lookup_delete_eq.
Qed.

Lemma quiet_bury s id e :
  other_id id → quiet s (s {{ es_worker := worker_bury id e (es_worker s) }}).
Proof.
  intros Hid. apply (quiet_worker s id (worker_bury id e)); [done| | | |exact (le_n _)].
  - intros id' Hne. by rewrite items_bury, lookup_delete_ne.
  - intros id' Hne. rewrite dead_bury. destruct (worker_items (es_worker s) !! id); [|done].
    by rewrite lookup_insert_ne.
  - intros it. by rewrite items_bury, lookup_delete_eq.
Qed.

Lemma quiet_reschedule s id at_ : quiet s (s {{ es_worker := worker_reschedule id at_ (es_worker s) }}).
Proof.
  split; cbn; unfold constant; try done; intros *; by rewrite ?items_reschedule, ?dead_reschedule.
Qed.

(** A change of the tables that are not about waits. *)
Lemma quiet_tables s t ids q :
  waitpoint t = waitpoint (es_tables s) →
  taskRunWaitpoint t = taskRunWaitpoint (es_tables s) →
  taskRunExecutionSnapshot t = taskRunExecutionSnapshot (es_tables s) →
  (es_ids s ≤ ids)%nat →
  quiet s (s {{ es_tables := t; es_ids := ids; es_queue := q }}).
Proof.
  intros Hw Hr Hs Hids. split; cbn; unfold constant; try done.
  split; intros; unfold wstatus, row_at, snap_at; cbn; unfold constant; by rewrite ?Hw, ?Hr, ?Hs.
Qed.

Lemma steady_enqueue i L id job at_ :
  other_id id → other_job job → steady i L (enqueue_job gen id job at_) any.
Proof. intros. apply steady_stmt, resting_quiet; [|done]. intros s. by apply quiet_enqueue. Qed.

Lemma steady_ack i L id : other_id id → steady i L (ack_job id) any.
Proof. intros. apply steady_stmt, resting_quiet; [|done]. intros s. by apply quiet_ack. Qed.

Lemma steady_reschedule i L id at_ : steady i L (reschedule_job id at_) any.
Proof. apply steady_stmt, resting_quiet; [|done]. intros s. apply quiet_reschedule. Qed.

Lemma steady_on_queue {A} i L (f : Z → string → Q → outcome rq_error A * Q) :
  steady i L (on_queue gen f) any.
Proof.
  intros x Hi Hx. unfold on_queue.
  eapply (safe_step elapse inv act rely_elapse) with (P := at_rest i L) (R := λ _, at_rest i L);
    [apply at_rest_stable|exact Hx| |].
  - intros d s γ Hi' Hi'' HP.
    destruct (resting_quiet i L (λ s : state, let '(r, q) := f (es_clock s) (next_id gen s) (es_queue s) in
      (r, (take_id s) {{ es_queue := q }})) (λ _, True)) with d s γ as (g & Ha & Hg & Hr & _); [|done..|].
    + intros s'. destruct (f _ _ _) as [o q]. cbn. apply (quiet_tables s' (es_tables s')); try done. lia.
    + by exists g.
  - intros [a|e] y Hy Hr; [apply safe_ret|apply safe_throw]; (apply rested_stable || by split).
Qed.

(** ** Assertions that survive what does not touch the waits *)

Definition unmoved (i : nat) g (P : cfg → Prop) : Prop :=
  ∀ s s' γ, quiet s s' → P (s, γ) → P (s', set_ghost i g γ).

(** [m] keeps [P]. *)
Definition kept {A} (i : nat) (c : option string) (P : cfg → Prop) (m : M A) : Prop :=
  ∀ x, inv x → P x → safe i (m c) (λ _, P) x.

Section Kept.
Context (i : nat) (c : option string) (g : ghost) (P : cfg → Prop).
Context (P_stable : stable i P) (P_ghost : ∀ x, P x → ghost_is i g x) (P_unmoved : unmoved i g P).

Lemma kept_ret {A} (a : A) : kept i c P (e_ret a).
Proof. intros x _ Hx. by apply safe_ret. Qed.

Lemma kept_bind {A B} (m : M A) (f : A → M B) :
  kept i c P m → (∀ a, kept i c P (f a)) → kept i c P (e_bind m f).
Proof.
  intros Hm Hf x Hi Hx. eapply safe_bind; [by apply Hm|intros; by apply Hf|done].
Qed.

Lemma kept_step {B} (f : state → B * state) : (∀ s, quiet s (f s).2) → step i f P (λ _, P).
Proof.
  intros Hq d s γ _ Hi Hp. exists g.
  destruct (quiet_act i g (elapse d s) (f (elapse d s)).2 γ) as (? & ? & ?); [done|by apply P_ghost|done|].
  split; [done|]. split; [done|]. apply (P_unmoved (elapse d s)); [apply Hq|done].
Qed.

Lemma kept_stmt {B} (f : state → B * state) : (∀ s, quiet s (f s).2) → kept i c P (stmt f).
Proof.
  intros Hq x Hi Hx. unfold stmt.
  eapply (safe_step elapse inv act rely_elapse); [exact P_stable|exact Hx|by apply kept_step|].
  intros u y _ Hy. by apply safe_ret.
Qed.

Lemma kept_enqueue id job at_ : other_id id → other_job job → kept i c P (enqueue_job gen id job at_).
Proof.
  intros Hid Hj. apply kept_stmt. intros s. by apply quiet_enqueue.
Qed.

Lemma kept_on_queue {A} (f : Z → string → Q → outcome rq_error A * Q) : kept i c P (on_queue gen f).
Proof.
  intros x Hi Hx. unfold on_queue.
  eapply (safe_step elapse inv act rely_elapse); [exact P_stable|exact Hx|apply kept_step|].
  - intros s. destruct (f _ _ _) as [o q]. cbn. apply (quiet_tables s (es_tables s)); try done. lia.
  - intros [a|e] y _ Hy; [by apply safe_ret|by apply safe_throw].
Qed.

Lemma kept_update_run id f : kept i c P (update_run id f).
Proof.
  intros x Hi Hx. unfold update_run, stmt_or.
  eapply (safe_step elapse inv act rely_elapse); [exact P_stable|exact Hx|apply kept_step|].
  - intros s. destruct (t_find id (taskRun (es_tables s))); cbn; [by apply (quiet_tables s)|apply quiet_refl].
  - intros [a|] y _ Hy; [by apply safe_ret|by apply safe_throw].
Qed.

Lemma kept_each {A} (body : A → M unit) l : (∀ a, kept i c P (body a)) → kept i c P (e_each body l).
Proof. intros H. induction l as [|a l IH]; cbn; [apply kept_ret|by apply kept_bind]. Qed.

End Kept.

(** ** Locks *)

(** What no step falsifies. *)
Definition lasting (P : cfg → Prop) : Prop := ∀ j x y, act j x y → inv y → P x → P y.

Lemma lasting_stable i L (P : cfg → Prop) : lasting P → stable i (λ x, at_rest i L x ∧ P x).
Proof.
  intros HP j x y Hj Ha Hi [Hr Hp]. split; [by eapply at_rest_stable|by eapply HP].
Qed.

(** A lock that is not reserved for a snapshot. *)
Local Notation locked r n := (Some (MkHold r n None)).

(** A thread at rest takes the lock of [r], or does not. *)
Lemma acquire_step i r (P : cfg → Prop) :
  lasting P →
  step i (acquire r) (λ x, at_rest i None x ∧ P x)
    (λ b y, P y ∧ if b : bool then at_rest i (locked r (es_ids y.1)) y else at_rest i None y).
Proof.
  intros HP d s γ _ Hi [Hr Hp]. set (s' := elapse d s) in *. clearbody s'. clear s d.
  unfold at_rest, ghost_is in Hr. cbn in Hr. unfold acquire. case_decide as Hin; cbn.
  - exists (MkGhost None Idle).
    destruct (quiet_act i (MkGhost None Idle) s' s' γ) as (Ha & Hi' & ?); [done|done|apply quiet_refl|].
    split; [done|]. split; [done|]. split; [by eapply HP|done].
  - exists (MkGhost (locked r (es_ids s')) Idle).
    destruct (lock_step gen i s' γ (set_ghost i (MkGhost (locked r (es_ids s')) Idle) γ)
                ({[r]} ∪ es_locks s')) as [Ha Hi']; [done| | | | | |].
    + intros. by apply set_ghost_ne.
    + by rewrite set_ghost_eq, Hr.
    + intros r' n. rewrite set_ghost_eq. intros [m [= <- <- <-]]. split; [done|]. split; [set_solver|].
      intros j m' _ Hh. apply Hin. by apply (i_locked _ _ Hi j r m').
    + intros m. rewrite set_ghost_eq. by intros (? & ? & [=]).
    + intros j r' n _ Hh. apply elem_of_union_r. by apply (i_locked _ _ Hi j r' n).
    + split; [done|]. split; [done|]. split; [by eapply HP|apply set_ghost_eq].
Qed.

Lemma release_step i r n (P : cfg → Prop) :
  lasting P →
  step i (release r) (λ x, at_rest i (locked r n) x ∧ P x) (λ _ y, at_rest i None y ∧ P y).
Proof.
  intros HP d s γ _ Hi [Hr Hp]. set (s' := elapse d s) in *. clearbody s'. clear s d.
  unfold at_rest, ghost_is in Hr. cbn in Hr. exists (MkGhost None Idle).
  destruct (lock_step gen i s' γ (set_ghost i (MkGhost None Idle) γ) (es_locks s' ∖ {[r]}))
    as [Ha Hi']; [done| | | | | |].
  - intros. by apply set_ghost_ne.
  - by rewrite set_ghost_eq, Hr.
  - intros r' m. rewrite set_ghost_eq. by intros [? [=]].
  - intros m. rewrite set_ghost_eq. by intros (? & ? & [=]).
  - intros j r' m Hj Hh. apply elem_of_difference.
    split; [by apply (i_locked _ _ Hi j r' m)|]. intros ->%elem_of_singleton. apply Hj.
    eapply (i_exclusive _ _ Hi); [exact Hh|]. exists None. cbn. by rewrite Hr.
  - cbn. split; [done|]. split; [done|]. split; [apply set_ghost_eq|by eapply HP].
Qed.

(** [lock r m] from [P] to [R], when [m] goes from [P] to [R] under the lock. *)
Lemma safe_lock {A} i r (m : M A) (P : cfg → Prop) (R : outcome engine_error A → cfg → Prop) x :
  lasting P → (∀ o, lasting (R o)) → (∀ e y, P y → R (Err e) y) →
  (∀ y (n := es_ids y.1), inv y → at_rest i (locked r n) y → P y →
     safe i (m (Some r)) (λ o z, at_rest i (locked r n) z ∧ R o z) y) →
  at_rest i None x → P x → safe i (lock r m None) (λ o z, at_rest i None z ∧ R o z) x.
Proof.
  intros HP HR He Hm Hr Hp. unfold lock. rewrite decide_False by done.
  eapply (safe_step elapse inv act rely_elapse);
    [by apply lasting_stable|by split|by apply acquire_step|].
  intros [|] y Hy [Hpy Hry].
  - apply safe_bind with (Q := λ o z, match o with
      | Ok o => at_rest i (locked r (es_ids y.1)) z ∧ R o z
      | Err _ => False
      end); [eapply safe_try; [by apply Hm|done]| |].
    + intros o z Hz Hoz. cbn in Hoz.
      eapply (safe_step elapse inv act rely_elapse i (release r) _
                (λ z, at_rest i (locked r (es_ids y.1)) z ∧ R o z));
        [by apply lasting_stable|exact Hoz|by apply release_step|].
      intros u z' _ Hz'. destruct o; [apply safe_ret|apply safe_throw]; (by apply lasting_stable || done).
    + intros e z _ [].
  - apply safe_throw; [by apply lasting_stable|]. split; [done|by apply He].
Qed.

(** A thread may take the lock of [r] when it has no other. *)
Definition may_lock L r : Prop := L = None ∨ ∃ n, L = locked r n.

Lemma steady_lock {A} i L r (m : M A) (φ : A → Prop) :
  may_lock L r → (∀ n, steady i (locked r n) m φ) → steady i L (lock r m) φ.
Proof.
  intros [->|[n ->]] Hm x Hi Hx; cbn.
  - apply (safe_lock i r m (λ _, True) (λ o _, ∀ a, o = Ok a → φ a));
      [done|by intros o j y z _ _|done| |done|done].
    intros y n Hy Hr _. exact (Hm n y Hy Hr).
  - unfold lock. rewrite decide_True by done. exact (Hm n x Hi Hx).
Qed.

(** ** Rows of runs, and snapshots *)

Lemma steady_quiet_or {A} i L e (f : state → option (A * state)) :
  (∀ s a s', f s = Some (a, s') → quiet s s') → steady i L (stmt_or e f) any.
Proof.
  intros Hf. apply steady_stmt_or, resting_quiet; [|done]. intros s.
  destruct (f s) as [[a s']|] eqn:E; cbn; [by eapply Hf|apply quiet_refl].
Qed.

Lemma steady_update_run i L id f : steady i L (update_run id f) any.
Proof.
  apply steady_quiet_or. intros s a s'. destruct (t_find id _); cbn; [|done]. intros [= _ <-].
  by apply (quiet_tables s).
Qed.

Lemma steady_update_select i L id f : steady i L (update_select id f) any.
Proof.
  apply steady_quiet_or. intros s a s'. destruct (t_find id _); cbn; [|done]. intros [= _ <-].
  by apply (quiet_tables s).
Qed.

Lemma steady_find_run i L r : steady i L (find_run r) any.
Proof. by apply steady_query. Qed.

(** The latest snapshot of a run is one of the run. *)
Lemma latest_enhanced_run r (t : tables T) sn : latest_enhanced r t = Some sn → sn_runId sn = r.
Proof.
  unfold latest_enhanced, latest_snapshot. destruct (valid_snapshots r t) as [|z l] eqn:E; [done|].
  assert (Hall : ∀ p, p ∈ z :: l → sn_runId p.2 = r).
  { intros [id p]. rewrite <- E. unfold valid_snapshots, select. rewrite list_elem_of_filter. cbn.
    rewrite andb_true_iff, bool_decide_eq_true. tauto. }
  destruct (foldl later z l) as [id p] eqn:Ep. intros [= <-]. cbn.
  apply (Hall (id, p)). rewrite <- Ep. apply elem_of_cons. destruct (foldl_later l z) as [[->|?] _]; auto.
Qed.

Lemma steady_latest i L r :
  steady i L (getLatestExecutionSnapshot r) (λ sn : EnhancedExecutionSnapshot, sn_runId sn = r).
Proof.
  unfold getLatestExecutionSnapshot.
  eapply steady_bind; [apply (steady_query i L _ (λ o : option EnhancedExecutionSnapshot,
                   ∀ sn, o = Some sn → sn_runId sn = r))|].
  - intros t sn. apply latest_enhanced_run.
  - intros [sn|] H; [apply steady_ret; by apply H|apply steady_throw].
Qed.

(** A ghost value that is set to what it is. *)
Lemma set_ghost_same i γ j : set_ghost i (γ i) γ j = γ j.
Proof. destruct (decide (j = i)) as [->|Hj]; [apply set_ghost_eq|by apply set_ghost_ne]. Qed.

(** The holder of the lock inserts a snapshot of its run. *)
Lemma insert_act i d s γ r n row (t : tables T) (s0 := elapse d s) :
  inv (s, γ) → inv (s0, γ) → g_lock (γ i) = locked r n →
  waitpoint t = waitpoint (es_tables s0) →
  taskRunWaitpoint t = taskRunWaitpoint (es_tables s0) →
  taskRunExecutionSnapshot t = taskRunExecutionSnapshot (es_tables s0) →
  sn_runId row = r → sn_isValid row = true → sn_createdAt row = es_clock s0 →
  wait_status (sn_executionStatus row) = false ∨ waiting s0 r ∨ (∀ ex, old gen n ex → cover (s0, γ) r ex) →
  may_follow s0 r row →
  let y := ((take_id s0) {{ es_tables := put_snapshot (next_id gen s0) row t }}, set_ghost i (γ i) γ) in
  act i (s0, γ) y ∧ inv y.
Proof.
  intros Hi Hi0 Hl Hw Hr Hs Hrun Hval Hcr Hok Hfol. cbv zeta.
  set (s1 := (take_id s0) {{ es_tables := put_snapshot (next_id gen s0) row t }}).
  assert (Hsn : ∀ id, snap_at s1 id = t_find id (t_put (gen (es_ids s0)) row
                        (taskRunExecutionSnapshot (es_tables s0)))).
  { intros id. rewrite <- Hs. done. }
  assert (Hrow : ∀ id, row_at s1 id = row_at s0 id) by (intros; unfold row_at; by rewrite <- Hr).
  assert (Hws : ∀ w, wstatus s1 w = wstatus s0 w) by (intros; unfold wstatus; by rewrite <- Hw).
  assert (Hst : same_but_tables s0 s1) by (split; [done|done|done|exact (Nat.le_succ_diag_r _)]).
  assert (Hids : es_ids s1 = S (es_ids s0)) by done. clearbody s1.
  assert (Hclock : es_clock s < es_clock s0) by (unfold s0; cbn; unfold constant; lia).
  assert (Hsame : ∀ id, snap_at s0 id = snap_at s id) by done. clearbody s0.
  assert (Hγ : ∀ j, set_ghost i (γ i) γ j = γ j) by apply set_ghost_same.
  apply (snapshot_step gen i s0 s1 γ _ r n (es_ids s0) row); try done.
  - by exists None.
  - lia.
  - by apply (i_fresh _ _ Hi0).
  - intros j. rewrite Hγ. intros Hj. destruct (i_reserved _ _ Hi0 j _ Hj). cbn in *. lia.
  - by rewrite Hsn, t_find_put.
  - intros id Hid. by rewrite Hsn, t_find_put_ne.
  - lia.
  - intros id sn (Hid & _). rewrite Hsame in Hid. pose proof (i_time _ _ Hi _ _ Hid). cbn in *. lia.
  - by apply keeps_same.
  - by rewrite Hγ.
Qed.

(** A snapshot in which the run does not wait. *)
Lemma resting_insert {B} i r n (f : state → B * state) (φ : B → Prop) :
  (∀ s, quiet s (f s).2 ∨ ∃ row t,
     (f s).2 = (take_id s) {{ es_tables := put_snapshot (next_id gen s) row t }} ∧
     waitpoint t = waitpoint (es_tables s) ∧ taskRunWaitpoint t = taskRunWaitpoint (es_tables s) ∧
     taskRunExecutionSnapshot t = taskRunExecutionSnapshot (es_tables s) ∧
     sn_runId row = r ∧ sn_isValid row = true ∧ sn_createdAt row = es_clock s ∧
     plain_status (sn_executionStatus row) = true) →
  (∀ s, φ (f s).1) → resting i (locked r n) f φ.
Proof.
  intros Hf Hφ d s γ Hi Hi0 Hr. pose proof Hr as Hg. unfold at_rest, ghost_is in Hg. cbn in Hg.
  destruct (Hf (elapse d s)) as [Hq|(row & t & Hs' & ? & ? & ? & ? & ? & ? & ?)].
  - exists (MkGhost (locked r n) Idle).
    destruct (quiet_act i (MkGhost (locked r n) Idle) (elapse d s) (f (elapse d s)).2 γ) as (? & ? & ?); [done..|].
    split; [done|]. split; [done|]. split; [done|apply Hφ].
  - exists (γ i). cbv zeta. rewrite Hs'.
    destruct (insert_act i d s γ r n row t) as [Ha Hi']; try done;
      [by rewrite Hg|left; by apply plain_not_waiting|by apply plain_follows|].
    split; [done|]. split; [done|]. split; [|apply Hφ].
    unfold at_rest, ghost_is. cbn. by rewrite set_ghost_eq.
Qed.

(** ** Completing a waitpoint *)

(** The job of [r] is scheduled. *)
Lemma schedule_step i g g' r attempt (at_ : Z → option Z) :
  g_lock g' = g_lock g →
  (∀ x r', inv x → owes x.1 g r' → owes x.1 g' r' ∨ r' = r ∨ ¬ rows_done x.1 r') →
  step i (λ s, (tt, (take_id s) {{ es_worker := worker_enqueue (es_clock s) (next_id gen s)
                 (continue_job r) (Job_continueRunIfUnblocked r) attempt (at_ (es_clock s)) (es_worker s) }}))
    (ghost_is i g) (λ _, ghost_is i g').
Proof.
  intros Hl Hd d s γ _ Hi Hg. set (s0 := elapse d s) in *. clearbody s0. clear s d.
  unfold ghost_is in Hg. cbn in Hg. exists g'. cbv zeta. cbn [snd fst].
  set (s1 := (take_id s0) {{ es_worker := _ }}).
  assert (Hw : es_worker s1 = worker_enqueue (es_clock s0) (gen (es_ids s0)) (continue_job r)
    (Job_continueRunIfUnblocked r) attempt (at_ (es_clock s0)) (es_worker s0)) by done.
  assert (Hids : es_ids s1 = S (es_ids s0)) by done.
  assert (Hsj : same_but_jobs s0 s1) by (split; [by split|done|done|exact (Nat.le_succ_diag_r _)]).
  clearbody s1.
  destruct (enqueue_step gen i s0 s1 γ (set_ghost i g' γ) r (default 0 attempt)) as [Ha Hi']; try done.
  - by rewrite Hw, items_enqueue.
  - by rewrite Hw, dead_enqueue.
  - intros. by apply set_ghost_ne.
  - by rewrite set_ghost_eq, Hl, Hg.
  - intros r'. rewrite set_ghost_eq, Hg. by apply (Hd (s0, γ)).
  - split; [done|]. split; [done|]. apply set_ghost_eq.
Qed.

(** The duty to schedule [rs]. *)
Definition to_schedule (rs : list string) : duty :=
  match rs with [] => Idle | _ => Scheduling rs end.

Lemma owes_schedule s L rs r : owes s (MkGhost L (to_schedule rs)) r ↔ r ∈ rs.
Proof. destruct rs; cbn; [|done]. rewrite elem_of_nil. done. Qed.

Lemma schedule_all {A} i L (a : A) (rs : list (string * TaskRunWaitpoint)) x :
  inv x → ghost_is i (MkGhost L (to_schedule (tw_taskRunId <$> rs.*2))) x →
  safe i ((e_each (λ b : string * TaskRunWaitpoint, schedule_continue gen (tw_taskRunId b.2)) rs ;;;
           e_ret a)%engine (option_map h_run L)) (rested i L any) x.
Proof.
  revert x. induction rs as [|b rs IH]; intros x Hi Hg.
  - apply safe_ret; [apply (rested_stable i L any (Ok a))|by split].
  - cbn [e_each]. unfold e_bind at 1 2. cbn [pbind schedule_continue enqueue_job stmt].
    eapply (safe_step elapse inv act rely_elapse); [apply ghost_stable|exact Hg| |].
    + apply (schedule_step i _ (MkGhost L (to_schedule (tw_taskRunId <$> rs.*2))) (tw_taskRunId b.2)
               None (λ now, Some (now + 50))); [done|].
      intros y r' _. rewrite !owes_schedule, !fmap_cons, elem_of_cons. tauto.
    + intros u y Hy Hg'. by apply IH.
Qed.

Lemma complete_pending_tables w output s (s' := complete_row w output s) :
  same_but_tables s s' ∧ (∀ id, row_at s' id = row_at s id) ∧ (∀ id, snap_at s' id = snap_at s id) ∧
  (∀ w', w' ≠ w → wstatus s' w' = wstatus s w') ∧
  wstatus s' w = option_map (λ _, Wait_COMPLETED) (wstatus s w).
Proof.
  unfold s', complete_row, wstatus. destruct (t_find w (waitpoint (es_tables s))) as [row|] eqn:E.
  - case_bool_decide as Hp; cbn; unfold constant.
    + split; [by split|]. do 2 (split; [done|]). split.
      * intros w' Hw. by rewrite t_find_put_ne.
      * by rewrite t_find_put.
    + split; [by split|]. do 3 (split; [done|]). rewrite E. cbn. by destruct (wp_status row).
  - cbn. split; [by split|]. do 3 (split; [done|]). by rewrite E.
Qed.

Lemma complete_pending_step i L w output :
  step i (λ s, (tt, complete_row w output s)) (at_rest i L) (λ _, ghost_is i (MkGhost L (Completing w))).
Proof.
  intros d s γ _ Hi Hg. set (s0 := elapse d s) in *. clearbody s0. clear s d.
  unfold at_rest, ghost_is in Hg. cbn in Hg. exists (MkGhost L (Completing w)). cbv zeta.
  destruct (complete_pending_tables w output s0) as (Hst & Hrow & Hsn & Hne & Hw).
  destruct (complete_step gen i s0 (complete_row w output s0) γ
              (set_ghost i (MkGhost L (Completing w)) γ) w) as [Ha Hi']; try done.
  - intros. by apply set_ghost_ne.
  - by rewrite set_ghost_eq, Hg.
  - by rewrite Hg.
  - by rewrite set_ghost_eq.
  - split; [done|]. split; [done|]. apply set_ghost_eq.
Qed.

(** The rows of a waitpoint and their runs. *)
Lemma select_blocked s r w :
  blocks s r w → r ∈ tw_taskRunId <$>
    (select (λ b, bool_decide (tw_waitpointId b = w)) (taskRunWaitpoint (es_tables s))).*2.
Proof.
  intros (id & b & Hb & <- & Hw). apply list_elem_of_fmap. exists b. split; [done|].
  apply list_elem_of_fmap. exists (id, b). split; [done|]. unfold select.
  rewrite list_elem_of_filter, bool_decide_eq_true. split; [done|]. by apply t_rows_find.
Qed.

(** Completing a waitpoint is steady: every run it blocks gets its job. *)
Lemma steady_completeWaitpoint i L w output : steady i L (completeWaitpoint gen w output) any.
Proof.
  intros x Hi Hx. unfold completeWaitpoint.
  eapply (safe_stmt i L); [apply at_rest_stable|exact Hx|apply (complete_pending_step i L w output)|].
  intros u y Hy Hg.
  eapply (safe_stmt i L) with (R := λ found z, ghost_is i (MkGhost L
      (if bool_decide (option_map wp_status found = Some Wait_COMPLETED) then Completing w else Idle)) z ∧ True);
    [apply ghost_stable|exact Hg| |].
  { apply (quiet_stmt gen i (MkGhost L (Completing w)) (λ found, MkGhost L
      (if bool_decide (option_map wp_status found = Some Wait_COMPLETED) then Completing w else Idle)) _
      _ (λ _ _, True)); try done.
    intros z r Hz _ Hb. cbn in Hb. case_bool_decide as Hc; [by left|right]. intros [_ Hall].
    by specialize (Hall w Hb). }
  intros [row|] z Hz [Hgz _]; cbn in Hgz.
  2: { rewrite bool_decide_eq_false_2 in Hgz by done. by apply steady_throw. }
  destruct (decide (wp_status row = Wait_COMPLETED)) as [Hc|Hc].
  2: { rewrite bool_decide_eq_false_2 in Hgz by congruence. rewrite bool_decide_eq_false_2 by done.
       by apply steady_throw. }
  rewrite bool_decide_eq_true_2 in Hgz by congruence. rewrite bool_decide_eq_true_2 by done. cbn [negb].
  eapply (safe_stmt i L) with (R := λ rows z,
      ghost_is i (MkGhost L (to_schedule (tw_taskRunId <$> rows.*2))) z ∧ True);
    [apply ghost_stable|exact Hgz| |].
  { apply (quiet_stmt gen i (MkGhost L (Completing w))
      (λ rows, MkGhost L (to_schedule (tw_taskRunId <$> rows.*2))) _ _ (λ _ _, True)); try done.
    intros z' r _ _ Hb. left. rewrite owes_schedule. by apply select_blocked. }
  intros rows z' Hz' [Hg' _]. by apply schedule_all.
Qed.

(** ** Unblocking a run *)

(** Some of the rows that block [r] are gone. *)
Record removes r (t t' : tables T) : Prop := {
  rm_waitpoint : waitpoint t' = waitpoint t;
  rm_snapshot : taskRunExecutionSnapshot t' = taskRunExecutionSnapshot t;
  rm_rows id b : t_find id (taskRunWaitpoint t') = Some b → t_find id (taskRunWaitpoint t) = Some b;
  rm_others id b : t_find id (taskRunWaitpoint t) = Some b → tw_taskRunId b ≠ r →
    t_find id (taskRunWaitpoint t') = Some b;
}.

Lemma removes_refl r t : removes r t t.
Proof. by split. Qed.

Lemma removes_trans r t t' t'' : removes r t t' → removes r t' t'' → removes r t t''.
Proof.
  intros [H1 H2 H3 H4] [G1 G2 G3 G4]. split; [congruence|congruence|by eauto|by eauto].
Qed.

Lemma removes_delete r t id :
  (∀ b, t_find id (taskRunWaitpoint t) = Some b → tw_taskRunId b = r) →
  removes r t (delete_blocker id t).
Proof.
  intros Hid. split; [done|done| |]; cbn; unfold constant; intros id' b;
    (destruct (decide (id' = id)) as [->|Hne]; [|by rewrite t_find_delete_ne]).
  - by rewrite t_find_delete.
  - intros Hb. by apply Hid in Hb.
Qed.

Lemma removes_foldl {A} r (f : tables T → A → tables T) l t :
  (∀ t a, removes r t (f t a)) → removes r t (foldl f t l).
Proof.
  intros Hf. revert t. induction l as [|a l IH]; intros t; cbn; [apply removes_refl|].
  eapply removes_trans; [apply Hf|apply IH].
Qed.

(** The step of one who removes rows: all of them, or while the run does not wait. *)
Lemma remove_step {B} i r n (f : state → B * state) (g : state → tables T) (P : cfg → Prop) :
  (∀ s, (f s).2 = s {{ es_tables := g s }}) → (∀ s, removes r (es_tables s) (g s)) →
  (∀ x, P x → at_rest i (locked r n) x) →
  (∀ x, inv x → P x →
     (∀ id b, t_find id (taskRunWaitpoint (g x.1)) = Some b → tw_taskRunId b ≠ r) ∨ ¬ waiting x.1 r) →
  step i f P (λ _, at_rest i (locked r n)).
Proof.
  intros Hf Hg HP Hok d s γ _ Hi Hp. set (s0 := elapse d s) in *. clearbody s0. clear s d.
  pose proof (HP _ Hp) as Hr. unfold at_rest, ghost_is in Hr. cbn in Hr. exists (γ i). cbv zeta.
  rewrite Hf. destruct (Hg s0) as [Hw Hs Hrm Hoth].
  destruct (unblock_step gen i s0 (s0 {{ es_tables := g s0 }}) γ (set_ghost i (γ i) γ) r n) as [Ha Hi'];
    try done.
  - exists None. by rewrite Hr.
  - intros id. unfold snap_at. cbn. unfold constant. by rewrite Hs.
  - intros w. unfold wstatus. cbn. unfold constant. by rewrite Hw.
  - apply set_ghost_same.
  - destruct (Hok _ Hi Hp) as [Hno|Hno]; [left|by right]. intros w (id & b & Hb & Hbr & _).
    by apply (Hno id b).
  - by rewrite Hr.
  - split; [done|]. split; [done|]. unfold at_rest, ghost_is. cbn. by rewrite set_ghost_eq.
Qed.

Lemma foldl_delete_blockers (l : list (string * TaskRunWaitpoint)) (t : tables T) id :
  t_find id (taskRunWaitpoint (foldl (λ t b, delete_blocker b.1 t) t l)) =
  if decide (id ∈ l.*1) then None else t_find id (taskRunWaitpoint t).
Proof.
  revert t. induction l as [|[k b] l IH]; intros t; cbn [foldl]; [done|]. rewrite IH. cbn.
  destruct (decide (id ∈ l.*1)) as [Hin|Hin]; [by rewrite decide_True by (by right)|].
  unfold constant. destruct (decide (id = k)) as [->|Hne].
  - by rewrite decide_True, t_find_delete by (by left).
  - rewrite decide_False by (rewrite elem_of_cons; tauto). by rewrite t_find_delete_ne.
Qed.

(** The rows of a run. *)
Definition rows_of r (t : tables T) : list (string * TaskRunWaitpoint) :=
  select (λ b, bool_decide (tw_taskRunId b = r)) (taskRunWaitpoint t).

Lemma elem_of_rows_of r t id b :
  t_find id (taskRunWaitpoint t) = Some b → id ∈ (rows_of r t).*1 ↔ tw_taskRunId b = r.
Proof.
  intros Hb. rewrite list_elem_of_fmap. unfold rows_of, select. split.
  - intros ([id' b'] & -> & Hin). rewrite list_elem_of_filter, bool_decide_eq_true, t_rows_find in Hin.
    cbn in *. destruct Hin as [<- Hin]. congruence.
  - intros Hr. exists (id, b). by rewrite list_elem_of_filter, bool_decide_eq_true, t_rows_find.
Qed.

Lemma foldl_delete_same (l : list (string * TaskRunWaitpoint)) (t : tables T) :
  waitpoint (foldl (λ t b, delete_blocker b.1 t) t l) = waitpoint t ∧
  taskRunExecutionSnapshot (foldl (λ t b, delete_blocker b.1 t) t l) = taskRunExecutionSnapshot t.
Proof. revert t. induction l as [|b l IH]; intros t; cbn [foldl]; [done|]. by destruct (IH (delete_blocker b.1 t)) as [-> ->]. Qed.

Lemma removes_all r t : removes r t (foldl (λ t b, delete_blocker b.1 t) t (rows_of r t)).
Proof.
  split; [apply foldl_delete_same|apply foldl_delete_same| |]; intros id b;
    rewrite foldl_delete_blockers.
  - by case_decide.
  - intros Hb Hr. rewrite decide_False; [done|]. by rewrite (elem_of_rows_of r t id b Hb).
Qed.

Lemma steady_clearBlockingWaitpoints i r n :
  steady i (locked r n) (clearBlockingWaitpoints r) any.
Proof.
  apply steady_stmt. eapply step_mono; [apply (remove_step i r n _
    (λ s, foldl (λ t b, delete_blocker b.1 t) (es_tables s) (rows_of r (es_tables s))))|by split].
  - done.
  - intros s. apply removes_all.
  - done.
  - intros x _ _. left. intros id b. rewrite foldl_delete_blockers. case_decide as Hin; [done|].
    intros Hb Hr. apply Hin. by rewrite (elem_of_rows_of r _ id b Hb).
Qed.

Lemma removes_delete_blockers r ids t :
  removes r t (foldl (λ t id,
    match t_find id (taskRunWaitpoint t) with
    | Some b => if bool_decide (tw_taskRunId b = r) then delete_blocker id t else t
    | None => t
    end) t ids).
Proof.
  apply removes_foldl. clear t ids. intros t id. destruct (t_find id (taskRunWaitpoint t)) as [b|] eqn:E;
    [|apply removes_refl]. case_bool_decide as Hr; [|apply removes_refl].
  apply removes_delete. intros b' Hb. congruence.
Qed.

(** While [r] does not wait, the holder of its lock may remove what blocks it. *)
Definition awake (i : nat) r (n : nat) x : Prop := at_rest i (locked r n) x ∧ ¬ waiting x.1 r.

Lemma awake_stable i r n : stable i (awake i r n).
Proof.
  intros j x y Hj Ha Hi [Hr Hw]. split; [by eapply at_rest_stable|].
  rewrite (waiting_ext x.1 y.1); [done|]. intros id sn.
  apply (a_snaps _ _ _ _ Ha i r n); [done|]. exists None. by rewrite Hr.
Qed.

Lemma awake_unmoved i r n : unmoved i (MkGhost (locked r n) Idle) (awake i r n).
Proof.
  intros s s' γ [Hw _ _ _ _ _ _] [Hr Hn]. split; [apply set_ghost_eq|]. cbn.
  by rewrite (waiting_same s s') by apply Hw.
Qed.

(** A snapshot in which the run does not wait. *)
Lemma insert_awake i r n (row : Z → TaskRunExecutionSnapshot) :
  (∀ now, sn_runId (row now) = r ∧ sn_isValid (row now) = true ∧ sn_createdAt (row now) = now ∧
          plain_status (sn_executionStatus (row now)) = true) →
  step i (λ s, ((next_id gen s, row (es_clock s)),
                (take_id s) {{ es_tables := put_snapshot (next_id gen s) (row (es_clock s)) (es_tables s) }}))
    (at_rest i (locked r n)) (λ _, awake i r n).
Proof.
  intros Hrow d s γ Hi Hi0 Hr. pose proof Hr as Hg. unfold at_rest, ghost_is in Hg. cbn in Hg.
  destruct (Hrow (es_clock (elapse d s))) as (Hrun & Hv & Hc & Hw). exists (γ i). cbv zeta. cbn [snd].
  destruct (insert_act i d s γ r n (row (es_clock (elapse d s))) (es_tables (elapse d s))) as [Ha Hi'];
    try done; [by rewrite Hg|left; by apply plain_not_waiting|by apply plain_follows|].
  split; [done|]. split; [done|]. split; [by unfold at_rest, ghost_is; cbn; rewrite set_ghost_eq|].
  set (s0 := elapse d s) in *. cbn [fst].
  rewrite (newest_waiting _ r (next_id gen s0) (row (es_clock s0))); [by rewrite plain_not_waiting|].
  apply (newest_insert s0); [apply t_find_put| |done|done|].
  - intros id Hne. by apply t_find_put_ne.
  - intros id sn (Hid & _). pose proof (i_time _ _ Hi id sn Hid). rewrite Hc. unfold s0. cbn in *.
    unfold constant. lia.
Qed.

Lemma safe_delete_blockers {A} i r n ids (k : unit → M A) Φ x :
  awake i r n x →
  (∀ y, inv y → at_rest i (locked r n) y → safe i (k tt (Some r)) Φ y) →
  safe i (e_bind (delete_blockers r ids) k (Some r)) Φ x.
Proof.
  intros Hx Hk. eapply (safe_stmt i (locked r n)); [apply awake_stable|exact Hx| |].
  - eapply remove_step; [done|intros s; apply removes_delete_blockers|by intros y []|].
    intros y _ [_ Hw]. by right.
  - intros [] y Hy Hr. by apply Hk.
Qed.

End Rules.

(** ** Automation *)

Create HintDb steady.

#[export] Hint Resolve steady_throw steady_time steady_update_run
  steady_update_select steady_find_run steady_on_queue steady_reschedule
  steady_completeWaitpoint steady_clearBlockingWaitpoints : steady.
#[export] Hint Extern 1 (may_lock _ _) =>
  first [assumption | by left | right; eexists; reflexivity] : steady.

(** Ids of other jobs. *)
Ltac other_id := let r := fresh in let H := fresh in intros r H; discriminate H.

#[export] Hint Extern 1 (steady ?gen _ _ (query _) any) => apply (steady_query gen); done : steady.
#[export] Hint Extern 1 (steady ?gen _ _ (enqueue_job _ _ _ _) any) =>
  apply (steady_enqueue gen); other_id : steady.
#[export] Hint Extern 1 (steady ?gen _ _ (ack_job _) any) => apply (steady_ack gen); other_id : steady.

(** Follow a method. *)
Ltac follow_one :=
  cbv zeta;
  lazymatch goal with
  | |- steady ?gen _ _ (e_ret _) _ => apply (steady_ret gen); (exact I || done)
  | |- steady ?gen _ _ (e_throw _) _ => apply (steady_throw gen)
  | |- steady ?gen _ _ (e_bind (getLatestExecutionSnapshot _) _) _ =>
      let H := fresh in eapply (steady_bind gen); [apply (steady_latest gen)|intros ? H; cbv beta in H]
  | |- steady ?gen _ _ (e_bind _ _) _ => apply (steady_bind gen _ _ _ _ any); [|intros ? _]
  | |- steady ?gen _ _ (e_each _ _) _ => apply (steady_each gen); intros ?
  | |- steady ?gen _ _ (lock _ _) _ => apply (steady_lock gen); [by eauto with steady|intros ?]
  | |- steady _ _ _ (if ?b then _ else _) _ => destruct b eqn:?
  | |- steady _ _ _ (match ?o with _ => _ end) _ => destruct o eqn:?
  | |- steady _ _ _ _ _ => solve [eauto with steady]
  end.
Ltac follow := repeat follow_one.
