(* ===== verification/EngineWakeupMethods.v ===== *)
(** * EngineWakeupMethods: the methods of the engine keep blocked runs covered

    The methods that take part in the waiting of runs, and those that run beside them,
    are steady; [EngineWakeupRules] has the rules. *)

From Stdlib Require Import SpecFloat.
From S2P Require Import Prelude Text Messages Retry KeyProducer RunQueue EngineErrors EngineProg.
From S2P Require Import EngineData Duration EngineSystems EngineAttempts EngineLifecycle EngineHandlers.
From S2P Require Import EngineWakeups EngineWakeupRules.
Local Open Scope Z_scope.
Local Open Scope engine_scope.

Section Methods.
Context {T : Type → Type} {J Q : Type} {TB : Table T} {TL : TableLaws T}.
Context {W : Worker J} {WL : WorkerLaws J} {EQ : EngineQueue Q}.
Context (gen : nat → string) {FI : FreshIds gen}.
Context (options : EngineOptions) (stringify_error : TaskRunError → string).
Context (stringify_timeout : Z → string) (humanize : Z → string).
Context (random : string → spec_float) (pow : spec_float → spec_float → spec_float).
Local Notation state := (engine_state T J Q).
Local Notation cfg := (engine_state T J Q * (nat → ghost))%type.
Local Notation M := (M T J Q).
Local Notation inv := (inv gen).
Local Notation act := (act gen).
Local Notation stable := (EngineProg.stable inv act).
Local Notation step := (EngineProg.step elapse inv act).
Local Notation safe := (EngineProg.safe elapse inv act).
Local Notation steady := (@EngineWakeupRules.steady T J Q TB W gen _).
Local Notation locked r n := (Some (MkHold r n None)).
Implicit Types (s : state) (x y : cfg) (γ : nat → ghost) (r w k : string) (L : option hold).

(** ** Snapshots *)

Lemma steady_set_heartbeat i L id si : steady i L (set_heartbeat gen options id si) any.
Proof.
  unfold set_heartbeat. follow.
Qed.

Lemma steady_createExecutionSnapshot i r n si :
  si_runId si = r → truthy_opt (si_error si) = false →
  plain_status (si_executionStatus si) = true →
  steady i (locked r n) (createExecutionSnapshot gen options si) any.
Proof.
  intros Hr He Hw. unfold createExecutionSnapshot. apply (steady_bind gen _ _ _ _ any).
  - apply (steady_stmt gen). apply (resting_insert gen); [|done]. intros s. right.
    exists (snapshot_data (es_clock s) si), (es_tables s). cbn. by rewrite He.
  - intros sn _. apply (steady_bind gen _ _ _ _ any); [apply steady_set_heartbeat|].
    intros _ _. by apply (steady_ret gen).
Qed.

Lemma steady_update_with_snapshot i r n f snapshot :
  (∀ now, sn_runId (snapshot now) = r ∧ sn_isValid (snapshot now) = true ∧
          sn_createdAt (snapshot now) = now ∧
          plain_status (sn_executionStatus (snapshot now)) = true) →
  steady i (locked r n) (update_with_snapshot gen r f snapshot) any.
Proof.
  intros Hsn. apply (steady_stmt_or gen), (resting_insert gen); [|done]. intros s.
  destruct (t_find r (taskRun (es_tables s))) as [run|]; cbn; [right|left; apply quiet_refl].
  destruct (Hsn (es_clock s)) as (? & ? & ? & ?).
  by exists (snapshot (es_clock s)), (put_run r (f (es_clock s) run) (es_tables s)).
Qed.
#[local] Hint Resolve steady_set_heartbeat : steady.
#[local] Hint Extern 1 (EngineWakeupRules.steady _ _ _ (createExecutionSnapshot _ _ _) any) =>
  apply steady_createExecutionSnapshot; cbn; (done || assumption || congruence) : steady.
#[local] Hint Extern 1 (EngineWakeupRules.steady _ _ _ (update_with_snapshot _ _ _ _) any) =>
  apply steady_update_with_snapshot; done : steady.

Lemma steady_heartbeatRun i L r id : steady i L (heartbeatRun options r id) any.
Proof. unfold heartbeatRun. follow.
Qed.

Lemma steady_restartHeartbeatForRun i L r delay a :
  steady i L (restartHeartbeatForRun gen r delay a) any.
Proof. unfold restartHeartbeatForRun. follow. Qed.

(** A run goes to the queue. *)
Lemma steady_enqueueRun i L r run opts :
  may_lock L r → (eq_skipRunLock opts = true → ∃ n, L = locked r n) →
  plain_status (eq_status opts) = true →
  steady i L (enqueueRun gen options r run opts) any.
Proof.
  intros HL Hskip Hw. unfold enqueueRun, lockIf. destruct (eq_skipRunLock opts); cbn [negb].
  - destruct Hskip as [n ->]; [done|]. follow.
  - follow.
Qed.

(** ** Creating waitpoints *)

(** A waitpoint under a fresh id. *)
Lemma waitpoint_act i L d s γ (m : nat) (ids : nat) wp (s0 := elapse d s) :
  inv (s0, γ) → at_rest i L (s0, γ) → (es_ids s0 ≤ m < ids)%nat →
  let y := (s0 {{ es_ids := ids; es_tables := put_waitpoint (gen m) wp (es_tables s0) }},
            set_ghost i (MkGhost L Idle) γ) in
  act i (s0, γ) y ∧ inv y ∧ at_rest i L y.
Proof.
  intros Hi Hr Hm. cbv zeta. unfold at_rest, ghost_is in Hr. cbn in Hr. clearbody s0. clear s d.
  set (s1 := s0 {{ es_ids := ids; es_tables := put_waitpoint (gen m) wp (es_tables s0) }}).
  assert (Hw : ∀ w, wstatus s1 w = option_map wp_status
                 (t_find w (t_put (gen m) wp (waitpoint (es_tables s0))))) by done.
  assert (Hids : es_ids s1 = ids) by done.
  assert (Hst : same_but_tables s0 s1) by (split; try done; lia).
  assert (Hrow : ∀ id, row_at s1 id = row_at s0 id) by done.
  assert (Hsn : ∀ id, snap_at s1 id = snap_at s0 id) by done. clearbody s1.
  destruct (waitpoint_step gen i s0 s1 γ (set_ghost i (MkGhost L Idle) γ) m (wp_status wp)) as [Ha Hi'];
    try done.
  - lia.
  - by rewrite Hw, t_find_put.
  - intros w Hne. by rewrite Hw, t_find_put_ne.
  - intros j. rewrite <- Hr. apply set_ghost_same.
  - split; [done|]. split; [done|]. apply set_ghost_eq.
Qed.

Lemma resting_create {B} i L (f : state → B * state) :
  (∀ s, quiet s (f s).2 ∨ ∃ m ids wp, (es_ids s ≤ m < ids)%nat ∧
     (f s).2 = s {{ es_ids := ids; es_tables := put_waitpoint (gen m) wp (es_tables s) }}) →
  resting gen i L f any.
Proof.
  intros Hf d s γ Hi Hi0 Hr. destruct (Hf (elapse d s)) as [Hq|(m & ids & wp & Hm & Hs')].
  - exists (MkGhost L Idle).
    by destruct (quiet_act gen i (MkGhost L Idle) (elapse d s) (f (elapse d s)).2 γ) as (? & ? & ?).
  - exists (MkGhost L Idle). cbv zeta. rewrite Hs'.
    destruct (waitpoint_act i L d s γ m ids wp) as (Ha & Hi' & Hr'); [done..|]. done.
Qed.

(** A waitpoint that is changed but for its status. *)
Lemma quiet_waitpoint s id wp wp' (ids : nat) :
  t_find id (waitpoint (es_tables s)) = Some wp → wp_status wp' = wp_status wp → (es_ids s ≤ ids)%nat →
  quiet s (s {{ es_ids := ids; es_tables := put_waitpoint id wp' (es_tables s) }}).
Proof.
  intros Hf Hs Hids. split; cbn; unfold constant; try done. split; try done. intros w.
  unfold wstatus. cbn. unfold constant. destruct (decide (w = id)) as [->|Hne].
  - rewrite t_find_put, Hf. cbn. by rewrite Hs.
  - by rewrite t_find_put_ne.
Qed.

Lemma steady_reuse_waitpoint i L env key : steady i L (reuse_waitpoint gen env key) any.
Proof.
  unfold reuse_waitpoint. follow. apply (steady_quiet_or gen). intros s1 a1 s2.
  destruct (t_find _ _) as [wp|] eqn:E; cbn; [|done]. intros [= _ <-].
  eapply (quiet_waitpoint s1); [exact E|done|lia].
Qed.

Lemma steady_upsert_waitpoint i L env key create : steady i L (upsert_waitpoint gen env key create) any.
Proof.
  apply (steady_stmt gen), resting_create. intros s. cbv zeta.
  destruct (find_idempotent env (default (next_id gen s) key) (es_tables s)) as [found|]; cbn.
  - left. apply (quiet_tables s (es_tables s) (S (es_ids s)) (es_queue s)); try done. lia.
  - right. eexists (S (es_ids s)), (S (S (es_ids s))), _. split; [lia|done].
Qed.
#[local] Hint Resolve steady_reuse_waitpoint steady_upsert_waitpoint : steady.

Lemma steady_createDateTimeWaitpoint i L p env after key e :
  steady i L (createDateTimeWaitpoint gen p env after key e) any.
Proof. unfold createDateTimeWaitpoint. follow. Qed.

Lemma steady_createManualWaitpoint i L env p key e timeout tags :
  steady i L (createManualWaitpoint gen stringify_timeout env p key e timeout tags) any.
Proof. unfold createManualWaitpoint. follow. Qed.

Lemma steady_getOrCreateRunWaitpoint i r p env :
  steady i None (getOrCreateRunWaitpoint gen stringify_error r p env) any.
Proof.
  unfold getOrCreateRunWaitpoint. follow. apply (steady_stmt gen), resting_create. intros s1. right. cbn.
  eexists (S (es_ids s1)), (S (S (es_ids s1))), _. split; [lia|done].
Qed.

(** ** Batches *)

Lemma steady_scheduleCompleteBatch i L b : steady i L (scheduleCompleteBatch gen b) any.
Proof. unfold scheduleCompleteBatch. follow. Qed.

Lemma steady_performCompleteBatch i L b : steady i L (performCompleteBatch gen b) any.
Proof.
  unfold performCompleteBatch. follow. apply (steady_quiet_or gen). intros s1 a1 s2.
  destruct (t_find _ _) as [row|]; cbn; [|done]. intros [= _ <-]. by apply (quiet_tables s1).
Qed.
#[local] Hint Resolve steady_scheduleCompleteBatch steady_performCompleteBatch : steady.

(** ** Attempts *)

Local Notation cancelRun := (cancelRun gen options stringify_error).
Local Notation permanentlyFailRun := (permanentlyFailRun gen options stringify_error).
Local Notation tryNackAndRequeue_with := (tryNackAndRequeue_with gen options random).
Local Notation attemptFailed_with := (attemptFailed_with gen options stringify_error random pow).
Local Notation attemptFailed_fuel := (attemptFailed_fuel gen options stringify_error random pow).
Local Notation attemptFailed := (attemptFailed gen options stringify_error random pow).

Lemma steady_finalizeRun i L r b : steady i L (finalizeRun gen r b) any.
Proof. unfold finalizeRun. follow. Qed.

Lemma steady_complete_associated i L run output : steady i L (complete_associated gen run output) any.
Proof. unfold complete_associated. follow. Qed.

Lemma steady_check_latest i L sn id : steady i L (check_latest sn id) any.
Proof. unfold check_latest. follow. Qed.

Lemma steady_cancel_usage i L r e ms : steady i L (cancel_usage options r e ms) any.
Proof. unfold cancel_usage. follow. Qed.

Lemma steady_retry_view i L r : steady i L (retry_view gen random r) any.
Proof.
  apply (steady_stmt gen), (resting_quiet gen); [|done]. intros s.
  apply (quiet_tables s (es_tables s) (S (es_ids s)) (es_queue s)); try done. lia.
Qed.
#[local] Hint Resolve steady_finalizeRun steady_complete_associated steady_check_latest
  steady_cancel_usage steady_retry_view : steady.

Lemma steady_attemptSucceeded i L r id completion wid rid :
  may_lock L r → steady i L (attemptSucceeded gen options r id completion wid rid) any.
Proof. intros HL. unfold attemptSucceeded. follow. Qed.

Lemma steady_cancelRun i L r wid rid at_ reason finalize b ms :
  may_lock L r → steady i L (cancelRun r wid rid at_ reason finalize b ms) any.
Proof. intros HL. unfold EngineAttempts.cancelRun, preventDelayedRunFromBeingEnqueued. follow. Qed.

Lemma steady_permanentlyFailRun i r n sn at_ error wid rid ms :
  steady i (locked r n) (permanentlyFailRun r sn at_ error wid rid ms) any.
Proof. unfold EngineAttempts.permanentlyFailRun. follow. Qed.
#[local] Hint Resolve steady_cancelRun steady_permanentlyFailRun : steady.

(** The recursion, given that the inner call is steady. *)
Lemma steady_systemFailure_with again i r n error :
  (∀ id c, steady i (locked r n) (again r id c) any) →
  steady i (locked r n) (systemFailure_with again r error) any.
Proof. intros Hagain. unfold systemFailure_with. follow. Qed.

Lemma steady_tryNackAndRequeue_with again i L r o :
  (∀ n id c, steady i (locked r n) (again r id c) any) → may_lock L r →
  steady i L (tryNackAndRequeue_with again r o) any.
Proof.
  intros Hagain HL. unfold EngineAttempts.tryNackAndRequeue_with. follow.
  by apply steady_systemFailure_with.
Qed.

Lemma steady_attemptFailed_with again i L r id wid rid completion force :
  (∀ n id c, steady i (locked r n) (again r id c) any) → may_lock L r →
  steady i L (attemptFailed_with again r id wid rid completion force) any.
Proof.
  intros Hagain HL. unfold EngineAttempts.attemptFailed_with. follow.
  apply steady_tryNackAndRequeue_with; eauto with steady.
Qed.

Lemma steady_attemptFailed_fuel fuel i L r id wid rid completion force :
  may_lock L r → steady i L (attemptFailed_fuel fuel r id wid rid completion force) any.
Proof.
  revert i L r id wid rid completion force. induction fuel as [|fuel IH]; intros; [apply (steady_throw gen)|].
  apply steady_attemptFailed_with; [|done]. intros n id' c. apply IH. eauto with steady.
Qed.

Lemma steady_attemptFailed i L r id wid rid completion force :
  may_lock L r → steady i L (attemptFailed r id wid rid completion force) any.
Proof. apply steady_attemptFailed_fuel. Qed.

Lemma steady_tryNackAndRequeue i L r o :
  may_lock L r → steady i L (tryNackAndRequeue gen options stringify_error random pow r o) any.
Proof.
  intros HL. apply steady_tryNackAndRequeue_with; [|done]. intros.
  apply steady_attemptFailed_fuel. eauto with steady.
Qed.
#[local] Hint Resolve steady_attemptSucceeded steady_attemptFailed steady_tryNackAndRequeue : steady.

Lemma steady_completeRunAttempt i r id completion wid rid :
  steady i None (completeRunAttempt gen options stringify_error random pow r id completion wid rid) any.
Proof. unfold completeRunAttempt. follow. Qed.

(** ** Delays, time to live, resuming *)

#[local] Hint Extern 1 (EngineWakeupRules.steady _ _ _ (enqueueRun _ _ _ _ _) any) =>
  apply steady_enqueueRun; [by eauto with steady|cbn; by eauto|done] : steady.

Lemma steady_continueRunExecution i r id wid rid :
  steady i None (continueRunExecution gen options r id wid rid) any.
Proof. unfold continueRunExecution. follow. Qed.

Lemma steady_rescheduleDelayedRun i r at_ : steady i None (rescheduleDelayedRun gen r at_) any.
Proof. unfold rescheduleDelayedRun. follow. Qed.

Lemma steady_scheduleExpireRun i L r ttl : steady i L (scheduleExpireRun gen r ttl) any.
Proof. unfold scheduleExpireRun. follow. Qed.
#[local] Hint Resolve steady_scheduleExpireRun : steady.

Lemma steady_enqueueDelayedRun i r : steady i None (enqueueDelayedRun gen options r) any.
Proof. unfold enqueueDelayedRun. follow. Qed.

Lemma steady_expireRun i r : steady i None (expireRun gen stringify_error r) any.
Proof. unfold expireRun. follow. Qed.

End Methods.

#[export] Hint Resolve steady_set_heartbeat steady_heartbeatRun steady_restartHeartbeatForRun
  steady_reuse_waitpoint steady_upsert_waitpoint steady_createDateTimeWaitpoint
  steady_createManualWaitpoint steady_getOrCreateRunWaitpoint steady_scheduleCompleteBatch
  steady_performCompleteBatch steady_finalizeRun steady_complete_associated
  steady_check_latest steady_cancel_usage steady_retry_view steady_attemptSucceeded
  steady_cancelRun steady_permanentlyFailRun steady_attemptFailed steady_tryNackAndRequeue
  steady_completeRunAttempt steady_continueRunExecution steady_rescheduleDelayedRun
  steady_scheduleExpireRun steady_enqueueDelayedRun steady_expireRun : steady.
#[export] Hint Extern 1 (steady _ _ _ (createExecutionSnapshot _ _ _) any) =>
  apply steady_createExecutionSnapshot; cbn; (done || assumption || congruence) : steady.
#[export] Hint Extern 1 (steady _ _ _ (update_with_snapshot _ _ _ _) any) =>
  apply steady_update_with_snapshot; done : steady.
#[export] Hint Extern 1 (steady _ _ _ (enqueueRun _ _ _ _ _) any) =>
  apply steady_enqueueRun; [by eauto with steady|cbn; by eauto|done] : steady.
