(* ===== verification/EngineWakeupWaits.v ===== *)
(** * EngineWakeupWaits: blocking a run, continuing it, and the worker

    The methods that make a run wait or let it go on: [continueRunIfUnblocked] and what
    it leaves behind for the acknowledgement of its job, [blockRunWithWaitpoint],
    [createCheckpoint], [startRunAttempt], and the worker that runs the jobs. *)

From Stdlib Require Import SpecFloat.
From S2P Require Import Prelude Text Messages Retry KeyProducer RunQueue EngineErrors EngineProg.
From S2P Require Import EngineData Duration EngineSystems EngineAttempts EngineLifecycle EngineHandlers.
From S2P Require Import EngineWakeups EngineWakeupRules EngineWakeupMethods.
Local Open Scope Z_scope.
Local Open Scope engine_scope.

Section Waits.
Context {T : Type → Type} {J Q : Type} {TB : Table T} {TL : TableLaws T}.
Context {W : Worker J} {WL : WorkerLaws J} {EQ : EngineQueue Q}.
Context (gen : nat → string) {FI : FreshIds gen}.
Context (options : EngineOptions) (stringify_error : TaskRunError → string).
Context (stringify_timeout : Z → string) (humanize : Z → string).
Context (random : string → spec_float) (pow : spec_float → spec_float → spec_float).
Local Notation state := (engine_state T J Q).
Local Notation cfg := (engine_state T J Q * (nat → ghost))%type.
Local Notation M := (M T J Q).
Local Notation inv := (inv gen).
Local Notation act := (act gen).
Local Notation stable := (EngineProg.stable inv act).
Local Notation step := (EngineProg.step elapse inv act).
Local Notation safe := (EngineProg.safe elapse inv act).
Local Notation lasting := (lasting gen).
Local Notation claim := (claim gen).
Local Notation steady := (@EngineWakeupRules.steady T J Q TB W gen _).
Local Notation kept := (@EngineWakeupRules.kept T J Q TB W gen _).
Local Notation locked r n := (Some (MkHold r n None)).
Implicit Types (s : state) (x y : cfg) (γ : nat → ghost) (r w k : string) (L : option hold).

(** ** Continuing a run *)

(** The holder of the lock is done with [r] for all jobs that are older than its lock. *)
Definition settled r (n : nat) x : Prop := ∀ k, old gen n (Some k) → claim r k x.

Lemma settled_lasting r n : lasting (settled r n).
Proof. intros j x y Ha _ Hs k Hk. eapply claim_act; [exact Ha|by apply Hs]. Qed.

Lemma settled_intro i r n x :
  inv x → at_rest i (locked r n) x → (∀ k, covered x r (Some k)) → settled r n x.
Proof.
  intros Hi Hr Hc k Hk. assert (Hh : holds (x.2 i) r n) by (exists None; by rewrite Hr).
  split; [|split; [apply Hc|]].
  - eapply old_mono; [|exact Hk]. by apply (i_locked _ _ Hi i r n).
  - intros j m Hj. assert (j = i) as -> by by eapply (i_exclusive _ _ Hi).
    destruct Hj as [? Hj], Hh as [? Hh]. rewrite Hh in Hj. by injection Hj as <- _.
Qed.

Lemma awake_settled i r n x : inv x → awake i r n x → settled r n x.
Proof. intros Hi [Hr Hw]. apply (settled_intro i); [done|done|]. intros k. by left. Qed.

(** From [at_rest] to [at_rest], done with [r]. *)
Definition continued {A} i r n (o : outcome engine_error A) x : Prop :=
  at_rest i (locked r n) x ∧ ∀ a, o = Ok a → settled r n x.

Lemma safe_continued {A} i r n (p : prog state engine_error A) x :
  settled r n x → safe i p (λ _, at_rest i (locked r n)) x → safe i p (continued i r n) x.
Proof.
  intros Hs Hp. eapply safe_mono; [eapply safe_frame with (P := settled r n)|].
  - intros. by apply (elapse_step gen).
  - apply settled_lasting.
  - done.
  - exact Hp.
  - intros o y _ [Hr Hst]. by split.
Qed.

Lemma kept_heartbeat i c g (P : cfg → Prop) id si :
  stable i P → (∀ x, P x → ghost_is i g x) → unmoved i g P →
  kept i c P (set_heartbeat gen options id si).
Proof.
  intros HP Hg Hu. unfold set_heartbeat. destruct (truthy_opt _); [by apply (kept_ret gen)|].
  destruct (getHeartbeatIntervalMs _ _); [|by apply (kept_ret gen)].
  apply (kept_enqueue gen i _ g); [done|done|done|other_id|other_id].
Qed.

Lemma kept_awake_heartbeat i r n id si : kept i (Some r) (awake i r n) (set_heartbeat gen options id si).
Proof.
  apply (kept_heartbeat i _ (MkGhost (locked r n) Idle));
    [apply (awake_stable gen)|by intros ? []|apply awake_unmoved].
Qed.

Lemma kept_awake_queue {A} i r n (f : Z → string → Q → outcome rq_error A * Q) :
  kept i (Some r) (awake i r n) (on_queue gen f).
Proof.
  apply (kept_on_queue gen i _ (MkGhost (locked r n) Idle));
    [apply (awake_stable gen)|by intros ? []|apply awake_unmoved].
Qed.

(** A new snapshot in which the run does not wait, and what is done after it. *)
Lemma safe_snapshot_awake {A} i r n si (k : string * TaskRunExecutionSnapshot → M A)
    (Φ : outcome engine_error A → cfg → Prop) x :
  si_runId si = r → truthy_opt (si_error si) = false →
  plain_status (si_executionStatus si) = true →
  at_rest i (locked r n) x →
  (∀ sn y, inv y → awake i r n y → safe i (k sn (Some r)) Φ y) →
  (∀ e y, awake i r n y → Φ (Err e) y) →
  safe i (e_bind (createExecutionSnapshot gen options si) k (Some r)) Φ x.
Proof.
  intros Hr He Hw Hx Hk Herr. unfold createExecutionSnapshot, insert_snapshot, stmt.
  unfold e_bind at 1 2. cbn [pbind].
  eapply (safe_step elapse inv act);
    [intros; by apply (elapse_step gen)|apply (at_rest_stable gen)|exact Hx| |].
  - apply (insert_awake gen i r n (λ now, snapshot_data now si)). intros now. cbn. by rewrite He.
  - intros sn y Hy Haw. eapply safe_bind with (Q := λ _, awake i r n); [|intros; by apply Hk|auto].
    apply (kept_bind gen i (Some r) (awake i r n)); [apply kept_awake_heartbeat| |done|done].
    intros u. apply (kept_ret gen), (awake_stable gen).
Qed.

(** A run that is put into the queue under its lock. *)
Lemma safe_enqueueRun_awake {A} i r n run opts (k : string * TaskRunExecutionSnapshot → M A)
    (Φ : outcome engine_error A → cfg → Prop) x :
  plain_status (eq_status opts) = true →
  at_rest i (locked r n) x →
  (∀ sn y, inv y → awake i r n y → safe i (k sn (Some r)) Φ y) →
  (∀ e y, awake i r n y → Φ (Err e) y) →
  safe i (e_bind (enqueueRun gen options r run opts) k (Some r)) Φ x.
Proof.
  intros Hw Hx Hk Herr. unfold e_bind at 1.
  eapply safe_bind with (Q := λ _, awake i r n); [|intros; by apply Hk|auto].
  assert (Hlock : ∀ (B : Type) b (m : M B), lockIf b r m (Some r) = m (Some r)).
  { intros B b m. unfold lockIf, lock. destruct b; [by rewrite decide_True by done|done]. }
  unfold enqueueRun. rewrite Hlock.
  apply (safe_snapshot_awake i r n); [done|done|done|done| |done]. intros sn y Hy Haw.
  apply (kept_bind gen i (Some r) (awake i r n)); [apply kept_awake_queue| |done|done].
  intros u. apply (kept_ret gen), (awake_stable gen).
Qed.

(** The rows that block a run, with their waitpoints. *)
Lemma blockers_pending x r :
  existsb (λ '(_, _, wp), negb (bool_decide (wp_status wp = Wait_COMPLETED)))
    (blockers_of r (es_tables x.1)) = true → ¬ rows_done x.1 r.
Proof.
  intros ([[id b] wp] & Hin & Hp)%existsb_exists [_ Hall]. apply list_elem_of_In in Hin.
  unfold blockers_of in Hin. apply list_elem_of_omap in Hin as ([id' b'] & Hsel & Hw).
  destruct (t_find (tw_waitpointId b') (waitpoint (es_tables x.1))) as [wp'|] eqn:E; [|done].
  cbn in Hw. injection Hw as -> -> ->. unfold select in Hsel.
  rewrite list_elem_of_filter, bool_decide_eq_true, t_rows_find in Hsel. destruct Hsel as [Hr Hb].
  specialize (Hall (tw_waitpointId b)). unfold wstatus in Hall. rewrite E in Hall. cbn in Hall.
  assert (wp_status wp = Wait_COMPLETED) as Hc.
  { apply Some_inj in Hall; [done|]. by exists id, b. }
  rewrite bool_decide_eq_true_2 in Hp by done. done.
Qed.

(** What the holder of the lock knows of the latest snapshot. *)
Definition seen i r n (sn : EnhancedExecutionSnapshot) x : Prop :=
  at_rest i (locked r n) x ∧ sn_runId sn = r ∧
  newest x.1 r (snapshot_id sn) (snapshot_row sn) ∧
  (waiting x.1 r ↔ wait_status (sn_executionStatus sn) = true).

Lemma seen_stable i r n sn : stable i (seen i r n sn).
Proof.
  intros j x y Hj Ha Hi (Hr & Hrun & Hs & Hw). split; [by eapply (at_rest_stable gen)|]. split; [done|].
  assert (Hof : ∀ id sn', snap_of y.1 r id sn' ↔ snap_of x.1 r id sn').
  { intros id sn'. apply (a_snaps _ _ _ _ Ha i r n); [done|]. exists None. by rewrite Hr. }
  split; [by rewrite (newest_ext x.1 y.1)|]. rewrite <- Hw. by apply waiting_ext.
Qed.

Lemma seen_unmoved i r n sn : unmoved i (MkGhost (locked r n) Idle) (seen i r n sn).
Proof.
  intros s s' γ [Hq _ _ _ _ _ _] (Hr & Hrun & Hs & Hw). split; [apply set_ghost_eq|]. split; [done|]. cbn.
  assert (Hof : ∀ id sn', snap_of s' r id sn' ↔ snap_of s r id sn')
    by (intros; apply snap_of_same, Hq).
  split; [by rewrite (newest_ext s s')|]. by rewrite (waiting_same s s') by apply Hq.
Qed.

Lemma safe_latest i r n x :
  at_rest i (locked r n) x →
  safe i (getLatestExecutionSnapshot r (Some r))
    (λ o y, at_rest i (locked r n) y ∧ ∀ sn, o = Ok sn → seen i r n sn y) x.
Proof.
  intros Hx. unfold getLatestExecutionSnapshot.
  eapply (safe_stmt gen i (locked r n)) with
    (R := λ o y, at_rest i (locked r n) y ∧ ∀ sn, o = Some sn → seen i r n sn y);
    [apply (at_rest_stable gen)|exact Hx| |].
  - intros d s γ _ Hi Hr. exists (MkGhost (locked r n) Idle).
    destruct (quiet_act gen i (MkGhost (locked r n) Idle) (elapse d s) (elapse d s) γ)
      as (Ha & Hi' & Hr'); [done|done|apply quiet_refl|].
    split; [done|]. split; [done|]. split; [done|]. cbn. intros sn Hsn.
    split; [done|]. split; [by eapply latest_enhanced_run|]. unfold latest_enhanced in Hsn.
    destruct (latest_snapshot r _) as [[id row]|] eqn:E; [|done]. injection Hsn as <-.
    split; [|by apply (latest_waiting gen (elapse d s, γ) r id row)].
    by apply (latest_newest gen (elapse d s, γ) r id row).
  - intros [sn|] y Hy [Hr Hsn].
    + apply (safe_ret elapse); [|by split; [|intros ? [= <-]; apply Hsn]].
      intros j z z' Hj Ha Hi [Hz Hs]. split; [by eapply (at_rest_stable gen)|].
      intros sn' Hsn'. eapply seen_stable; eauto.
    + apply (safe_throw elapse); [|by split].
      intros j z z' Hj Ha Hi [Hz Hs]. split; [by eapply (at_rest_stable gen)|done].
Qed.

Lemma continued_stable {A} i r n (o : outcome engine_error A) : stable i (continued i r n o).
Proof.
  intros j x y Hj Ha Hi [Hr Hs]. split; [by eapply (at_rest_stable gen)|].
  intros a Ho. eapply settled_lasting; [exact Ha|exact Hi|by eapply Hs].
Qed.

Lemma continued_ret {A} i r n (a : A) c x :
  at_rest i (locked r n) x → settled r n x → safe i (e_ret a c) (continued i r n) x.
Proof. intros Hr Hs. apply (safe_ret elapse); [apply continued_stable|by split]. Qed.

Lemma continued_throw {A} i r n e c x :
  at_rest i (locked r n) x → safe i (e_throw (A := A) e c) (continued i r n) x.
Proof. intros Hr. apply (safe_throw elapse); [apply continued_stable|by split]. Qed.

Lemma lock_held {A} r (m : M A) : lock r m (Some r) = m (Some r).
Proof. unfold lock. by rewrite decide_True by done. Qed.

(** The end of a continuation: the rows are removed. *)
Lemma continued_finish {A} i r n (b : bool) ids (a : A) x :
  inv x → awake i r n x →
  safe i (((if b then e_ret tt else delete_blockers r ids) ;;; e_ret a) (Some r)) (continued i r n) x.
Proof.
  intros Hi Hx. apply safe_continued; [by eapply awake_settled|].
  destruct b.
  - apply (safe_ret elapse); [apply (at_rest_stable gen)|apply Hx].
  - apply (safe_delete_blockers gen i r n); [done|]. intros y _ Hr.
    apply (safe_ret elapse); [apply (at_rest_stable gen)|done].
Qed.

(** Under the lock, a run that could be continued was, and the others are covered. *)
Lemma safe_continue i r n x :
  inv x → at_rest i (locked r n) x →
  safe i (continueRunIfUnblocked gen options r (Some r)) (continued i r n) x.
Proof.
  intros Hi Hx. unfold continueRunIfUnblocked. rewrite lock_held.
  eapply (safe_stmt gen i (locked r n)) with (R := λ bl y, at_rest i (locked r n) y ∧
    (existsb (λ '(_, _, wp), negb (bool_decide (wp_status wp = Wait_COMPLETED))) bl = true → settled r n y));
    [apply (at_rest_stable gen)|exact Hx| |].
  { intros d s γ _ Hi' Hr. exists (MkGhost (locked r n) Idle).
    destruct (quiet_act gen i (MkGhost (locked r n) Idle) (elapse d s) (elapse d s) γ)
      as (Ha & Hi'' & Hr'); [done|done|apply quiet_refl|].
    split; [done|]. split; [done|]. split; [done|]. cbn [fst snd]. intros Hp.
    apply (settled_intro i); [done|done|]. intros k. right. left.
    by apply (blockers_pending (elapse d s, γ)). }
  intros bl y Hy [Hr Hset]. cbv zeta. destruct (existsb _ bl) eqn:Hb; [by apply continued_ret; auto|].
  eapply safe_bind; [by apply (steady_find_run gen i (locked r n))| |by intros e z _ [? _]; split].
  intros run z Hz [Hrz _]. destruct run as [run|]; [|by apply continued_throw].
  eapply safe_bind; [by apply safe_latest| |by intros e z' _ [? _]; split].
  intros sn z' Hz' [_ Hsn]. specialize (Hsn sn eq_refl). destruct Hsn as (Hr' & Hrun & _ & Hw).
  destruct (sn_executionStatus sn) eqn:Est; cbn in Hw;
    try (apply continued_ret; [done|]; eapply awake_settled; [done|]; split; [done|]; by rewrite Hw).
  - apply (safe_snapshot_awake i r n); [done|done|done|done| |by intros e y' [? _]; split].
    intros. by apply continued_finish.
  - destruct (nonempty_text _); [|by apply continued_throw].
    apply (safe_enqueueRun_awake i r n); [done|done| |by intros e y' [? _]; split].
    intros. by apply continued_finish.
Qed.

(** Without the lock: a job that was there before is not needed any more. *)
Lemma old_lasting k : lasting (λ x, old gen (es_ids x.1) (Some k)).
Proof. intros j x y Ha _. apply old_mono, (a_ids _ _ _ _ Ha). Qed.

Lemma continue_claims i r k x :
  at_rest i None x → old gen (es_ids x.1) (Some k) →
  safe i (continueRunIfUnblocked gen options r None)
    (λ o y, at_rest i None y ∧ ∀ a, o = Ok a → claim r k y) x.
Proof.
  intros Hx Hk. apply (safe_lock gen) with (P := λ x, old gen (es_ids x.1) (Some k)); [| |done| |done|done].
  - apply old_lasting.
  - intros o j y z Ha _ Hc a Ho. eapply claim_act; [exact Ha|by eapply Hc].
  - intros y n Hy Hr Hold. pose proof (safe_continue i r n y Hy Hr) as Hs.
    unfold continueRunIfUnblocked in Hs. rewrite lock_held in Hs. eapply safe_mono; [exact Hs|].
    intros o z _ [Hrz Hset]. split; [done|]. intros a Ho. by apply (Hset a Ho).
Qed.

Lemma steady_continueRunIfUnblocked i L r :
  may_lock L r → steady i L (continueRunIfUnblocked gen options r) any.
Proof.
  intros HL. apply (steady_lock gen); [done|]. intros n x Hi Hx.
  pose proof (safe_continue i r n x Hi Hx) as Hs. unfold continueRunIfUnblocked in Hs.
  rewrite lock_held in Hs. eapply safe_mono; [exact Hs|]. intros o y _ [Hr _]. by split.
Qed.
#[local] Hint Resolve steady_continueRunIfUnblocked : steady.

(** ** Stalled snapshots and repairs *)

Lemma steady_handleStalledSnapshot i r id a :
  steady i None (handleStalledSnapshot gen options stringify_error humanize random pow r id a) any.
Proof.
  unfold handleStalledSnapshot, no_heartbeat. follow.
  match goal with H : _ = r |- _ => rewrite H end. eauto with steady.
Qed.

Lemma steady_handleRepairSnapshot i r id : steady i None (handleRepairSnapshot gen random r id) any.
Proof. unfold handleRepairSnapshot. follow. Qed.

(** ** The expiry of many runs *)

Lemma steady_finish_expired i L runs : steady i L (finish_expired gen stringify_error runs) any.
Proof.
  induction runs as [|[id run] runs IH]; cbn [finish_expired]; follow.
Qed.

#[local] Hint Resolve steady_finish_expired : steady.

Lemma steady_expire_rows i L now ids : steady i L (expire_rows now ids) any.
Proof.
  apply (steady_stmt gen), (resting_quiet gen); [|done]. intros s. cbn.
  set (f := λ (t : tables T) id, match t_find id (taskRun t) with
                    | Some r => put_run id (expire_row now r) t
                    | None => t
                    end).
  assert (Hf : ∀ t, waitpoint (foldl f t ids) = waitpoint t ∧
    taskRunWaitpoint (foldl f t ids) = taskRunWaitpoint t ∧
    taskRunExecutionSnapshot (foldl f t ids) = taskRunExecutionSnapshot t).
  { induction ids as [|id ids IH]; intros t; cbn [foldl]; [done|].
    destruct (IH (f t id)) as (-> & -> & ->). unfold f. by destruct (t_find id (taskRun t)). }
  destruct (Hf (es_tables s)) as (? & ? & ?). by apply (quiet_tables s).
Qed.
#[local] Hint Resolve steady_expire_rows : steady.

Lemma steady_expireRunsBatch i L ids : steady i L (expireRunsBatch gen stringify_error ids) any.
Proof. unfold expireRunsBatch. follow. Qed.

(** ** Blocking a run *)

(** The ids of rows that are still to be generated are free. *)
Definition fresh_rows s : Prop := ∀ m, (es_ids s ≤ m)%nat → row_at s (gen m) = None.

(** Rows that block [r] were added. *)
Record grown r s s' : Prop := {
  gr_tables : same_but_tables s s';
  gr_snap id : snap_at s' id = snap_at s id;
  gr_status w : wstatus s' w = wstatus s w;
  gr_rows id b : row_at s id = Some b → row_at s' id = Some b;
  gr_new id b : row_at s' id = Some b →
    row_at s id = Some b ∨ tw_taskRunId b = r ∧ is_Some (wstatus s (tw_waitpointId b));
}.

Lemma grown_trans r s1 s2 s3 : grown r s1 s2 → grown r s2 s3 → grown r s1 s3.
Proof.
  intros [[H1 H2 H3 H4] Hs Hw Hr Hn] [[G1 G2 G3 G4] Gs Gw Gr Gn]. split.
  - split; [congruence|congruence|congruence|lia].
  - intros id. by rewrite Gs, Hs.
  - intros w. by rewrite Gw, Hw.
  - auto.
  - intros id b Hb. destruct (Gn id b Hb) as [?|[? He]]; [by apply Hn|]. right. by rewrite Hw in He.
Qed.

Lemma grown_blocks r s s' r' w : grown r s s' → blocks s r' w → blocks s' r' w.
Proof. intros Hg (id & b & Hb & Hrw). exists id, b. split; [by apply (gr_rows r s)|done]. Qed.

(** One row. *)
Lemma grown_insert r w p span batch s (s' := (take_id s) {{ es_tables :=
      insert_blocker (next_id gen s) (blocker r w p span batch) (es_tables s) }}) :
  fresh_rows s → is_Some (wstatus s w) → grown r s s' ∧ fresh_rows s' ∧ blocks s' r w.
Proof.
  intros Hf Hw. unfold s', insert_blocker. cbn [blocker tw_taskRunId tw_waitpointId tw_batchIndex].
  match goal with |- context [find_row ?q ?t] => destruct (find_row q t) as [[id b]|] eqn:E end.
  - unfold find_row in E. apply fmap_Some in E as ([j [id' b']] & Hl & [= <- <-]).
    apply list_find_Some in Hl as (Hin & Hp & _). cbn in Hp.
    apply andb_true_iff in Hp as [[Hr Hb]%andb_true_iff _].
    apply bool_decide_eq_true in Hr, Hb. apply list_elem_of_lookup_2, t_rows_find in Hin.
    split; [split; try done|].
    + split; try done. exact (Nat.le_succ_diag_r _).
    + intros id0 b0 H. by left.
    + split; [intros m Hm; apply Hf; cbn in Hm; unfold constant in Hm; lia|by exists id, b].
  - set (id := next_id gen s). set (b := blocker r w p span batch).
    assert (Hnone : row_at s id = None) by by apply Hf.
    split; [split; try done|split].
    + split; try done. exact (Nat.le_succ_diag_r _).
    + intros id0 b0 H. unfold row_at. cbn. unfold constant. rewrite t_find_put_ne; [exact H|congruence].
    + intros id0 b0. unfold row_at. cbn. unfold constant. destruct (decide (id0 = id)) as [->|Hne].
      * rewrite t_find_put. intros [= <-]. by right.
      * rewrite t_find_put_ne by done. by left.
    + intros m Hm. cbn in Hm. unfold constant in Hm. unfold row_at. cbn. unfold constant.
      rewrite t_find_put_ne; [apply Hf; lia|]. intros Heq%(inj gen). lia.
    + exists id, b. split; [|done]. unfold row_at. cbn. unfold constant. apply t_find_put.
Qed.

(** The statement: the run is blocked by every waitpoint that exists. *)
Lemma grown_blockers r p span batch ws s (s' := insert_blockers gen r p span batch ws s) :
  fresh_rows s →
  grown r s s' ∧ fresh_rows s' ∧ ∀ w, w ∈ ws → is_Some (wstatus s w) → blocks s' r w.
Proof.
  unfold s'. clear s'. revert s. induction ws as [|w ws IH]; intros s Hf; cbn [insert_blockers].
  { split; [split; try done; by left|]. split; [done|]. by intros w ?%elem_of_nil. }
  destruct (t_find w (waitpoint (es_tables s))) as [wp|] eqn:E.
  - destruct (grown_insert r w p span batch s) as (Hg & Hf' & Hb); [done|unfold wstatus; by rewrite E|].
    destruct (IH _ Hf') as (Hg' & Hf'' & Hbs). split; [by eapply grown_trans|]. split; [done|].
    intros w' [->|Hin]%elem_of_cons Hw'; [by eapply grown_blocks|].
    apply Hbs; [done|]. by rewrite (gr_status r s).
  - destruct (IH s Hf) as (Hg & Hf' & Hbs). split; [done|]. split; [done|].
    intros w' [->|Hin]%elem_of_cons Hw'; [|by apply Hbs]. unfold wstatus in Hw'. rewrite E in Hw'.
    by destruct Hw'.
Qed.

(** The waitpoints exist. *)
Definition exist (ws : list string) x : Prop := ∀ w, w ∈ ws → is_Some (wstatus x.1 w).

Lemma exist_lasting ws : lasting (exist ws).
Proof. intros j x y Ha _ He w Hw. by apply (a_exists _ _ _ _ Ha), He. Qed.

(** The rows are there; the thread owes [r] a job. *)
Definition blocking i r n (ws : list string) x : Prop :=
  ghost_is i (MkGhost (locked r n) (Blocking r)) x ∧ ∀ w, w ∈ ws → blocks x.1 r w.

Lemma blocking_stable i r n ws : stable i (blocking i r n ws).
Proof.
  intros j x y Hj Ha Hi [Hg Hb]. split; [by eapply (ghost_stable gen)|]. intros w Hw.
  apply (a_rows _ _ _ _ Ha i r n); [done| |by apply Hb]. exists None. by rewrite Hg.
Qed.

Lemma block_statement_step i r n p span batch ws :
  step i (λ s, (tt, insert_blockers gen r p span batch (remove_dups ws) s))
    (λ x, at_rest i (locked r n) x ∧ exist ws x) (λ _, blocking i r n ws).
Proof.
  intros d s γ _ Hi [Hr He]. unfold at_rest, ghost_is in Hr. cbn in Hr.
  exists (MkGhost (locked r n) (Blocking r)). cbv zeta. cbn [snd].
  destruct (grown_blockers r p span batch (remove_dups ws) (elapse d s)) as (Hg & Hf & Hb).
  { intros m Hm. by apply (i_fresh _ _ Hi). }
  set (s1 := insert_blockers _ _ _ _ _ _ _) in *. clearbody s1.
  destruct (block_step gen i (elapse d s) s1 γ
              (set_ghost i (MkGhost (locked r n) (Blocking r)) γ) r n) as [Ha Hi']; try apply Hg; try done.
  - exists None. by rewrite Hr.
  - intros. by apply set_ghost_ne.
  - by rewrite set_ghost_eq, Hr.
  - by rewrite Hr.
  - by rewrite set_ghost_eq.
  - split; [done|]. split; [done|]. split; [apply set_ghost_eq|]. intros w Hw.
    apply Hb; [by apply elem_of_remove_dups|]. by apply He.
Qed.

(** Whether a waitpoint is pending was looked up: if one is, [r] is covered until the
    lock is released, and if none is, the thread still owes the job. *)
Definition duty_of (b : bool) r : duty := if b then Idle else Blocking r.
Definition decided i r n (b : bool) x : Prop :=
  ghost_is i (MkGhost (locked r n) (duty_of b r)) x ∧ ∀ ex, old gen n ex → cover x r ex.

Lemma decided_stable i r n b : stable i (decided i r n b).
Proof.
  intros j x y Hj Ha Hi [Hg Hc]. split; [by eapply (ghost_stable gen)|].
  apply (a_cover _ _ _ _ Ha i r n); [done| |done]. exists None. by rewrite Hg.
Qed.

Lemma pending_exists ws (t : tables T) :
  0 < pending_count ws t → ∃ w, w ∈ ws ∧ option_map wp_status (t_find w (waitpoint t)) = Some Wait_PENDING.
Proof.
  unfold pending_count. intros Hlen.
  destruct (base.filter _ (remove_dups ws)) as [|w l] eqn:E; [cbn in Hlen; lia|].
  assert (w ∈ w :: l) as Hin by left. rewrite <- E in Hin.
  apply list_elem_of_filter in Hin as [Hp Hin]. exists w.
  split; [by rewrite <- elem_of_remove_dups|].
  destruct (t_find w (waitpoint t)) as [wp|]; [|done]. cbn in Hp. cbn. by rewrite Hp.
Qed.

Lemma pending_step i r n ws :
  step i (λ s, (pending_count ws (es_tables s), s)) (blocking i r n ws)
    (λ c, decided i r n (0 <? c)).
Proof.
  intros d s γ _ Hi [Hg Hb]. set (s0 := elapse d s) in *. clearbody s0. clear s d.
  unfold ghost_is in Hg. cbn in Hg. cbn [fst snd]. set (c := pending_count ws (es_tables s0)).
  exists (MkGhost (locked r n) (duty_of (0 <? c) r)). cbv zeta.
  assert (Hd : (0 <? c) = true → ¬ rows_done s0 r).
  { intros Hc%Z.ltb_lt. destruct (pending_exists _ _ Hc) as (w & Hw & Hst). intros [_ Hall].
    specialize (Hall w (Hb w Hw)). unfold wstatus in Hall. congruence. }
  destruct (quiet_step gen i s0 s0 γ (set_ghost i (MkGhost (locked r n) (duty_of (0 <? c) r)) γ))
    as [Ha Hi']; [done|apply quiet_refl| | |].
  - apply keeps_lock; [intros; by apply set_ghost_ne|by rewrite set_ghost_eq, Hg].
  - intros r'. rewrite set_ghost_eq, Hg. cbn. intros <-. destruct (0 <? c) eqn:Hc; [right; auto|by left].
  - split; [done|]. split; [done|]. split; [apply set_ghost_eq|]. intros ex _.
    destruct (0 <? c) eqn:Hc; [left; auto|]. right; right; right. exists i. cbn.
    by rewrite set_ghost_eq.
Qed.

Lemma ghost_unmoved i g : unmoved i g (λ x : cfg, ghost_is i g x).
Proof. intros s s' γ _ _. apply set_ghost_eq. Qed.

(** A run that is covered is made to wait. *)
Lemma insert_blocked_step i r n b si :
  si_runId si = r → truthy_opt (si_error si) = false →
  si_executionStatus si ≠ Exec_PENDING_EXECUTING →
  step i (λ s, ((next_id gen s, snapshot_data (es_clock s) si), (take_id s) {{ es_tables :=
            put_snapshot (next_id gen s) (snapshot_data (es_clock s) si) (es_tables s) }}))
    (decided i r n b) (λ _, ghost_is i (MkGhost (locked r n) (duty_of b r))).
Proof.
  intros Hr He Hpe d s γ Hi Hi0 [Hg Hc]. unfold ghost_is in Hg. cbn in Hg. exists (γ i). cbv zeta. cbn [snd].
  destruct (insert_act gen i d s γ r n (snapshot_data (es_clock (elapse d s)) si) (es_tables (elapse d s)))
    as [Ha Hi']; try done.
  - by rewrite Hg.
  - cbn. by rewrite He.
  - right. by right.
  - by intros ?%Hpe.
  - split; [done|]. split; [done|]. unfold ghost_is. cbn. by rewrite set_ghost_eq.
Qed.

Lemma kept_schedule_timeouts i c g ws timeout :
  kept i c (ghost_is i g) (schedule_timeouts gen stringify_timeout ws timeout).
Proof.
  unfold schedule_timeouts. destruct timeout; [|apply (kept_ret gen), (ghost_stable gen)].
  apply (kept_each gen); [apply (ghost_stable gen)|]. intros w.
  apply (kept_enqueue gen i _ g); [apply (ghost_stable gen)|done|apply ghost_unmoved|other_id|other_id].
Qed.

(** The snapshot of a run that is blocked, unless it is there. *)
Lemma safe_blocked_snapshot i r n b (new : bool) si x :
  si_runId si = r → truthy_opt (si_error si) = false →
  si_executionStatus si ≠ Exec_PENDING_EXECUTING → decided i r n b x →
  safe i ((if new then createExecutionSnapshot gen options si ;;; e_ret tt else e_ret tt) (Some r))
    (λ _, ghost_is i (MkGhost (locked r n) (duty_of b r))) x.
Proof.
  intros Hr He Hpe Hx. destruct new; [|by apply (safe_ret elapse); [apply (ghost_stable gen)|apply Hx]].
  unfold createExecutionSnapshot, insert_snapshot, stmt. unfold e_bind at 1 2. cbn [pbind].
  eapply (safe_step elapse inv act); [intros; by apply (elapse_step gen)|apply decided_stable|exact Hx| |].
  - by apply insert_blocked_step.
  - intros sn y Hy Hg. 
    eapply safe_bind with (Q := λ _, ghost_is i (MkGhost (locked r n) (duty_of b r))); [| |done].
    2: { intros a z _ Hz. by apply (safe_ret elapse); [apply (ghost_stable gen)|]. }
    apply (kept_bind gen i (Some r));
      [apply (kept_heartbeat i _ _ _ _ _ (ghost_stable gen i _) (λ _ H, H) (ghost_unmoved i _))| |done|done].
    intros u. apply (kept_ret gen), (ghost_stable gen).
Qed.

Lemma never_blocked_snapshot (new : bool) si c :
  never (λ _, True) ((if new then createExecutionSnapshot gen options si ;;; e_ret tt else e_ret tt : M unit) c).
Proof.
  destruct new; [|done]. apply never_bind; [|done]. apply never_bind; [done|]. intros sn.
  apply never_bind; [|done]. unfold set_heartbeat. destruct (truthy_opt _); [done|].
  by destruct (getHeartbeatIntervalMs _ _).
Qed.

Lemma never_timeouts ws timeout c :
  never (λ _, True) ((schedule_timeouts gen stringify_timeout ws timeout : M unit) c).
Proof.
  unfold schedule_timeouts. destruct timeout; [|done]. induction ws as [|w ws IH]; [done|].
  cbn [e_each]. apply never_bind; [done|]. intros _. apply IH.
Qed.

(** The end: the job is scheduled if it is still owed. *)
Lemma safe_blocked_end i r n b x :
  ghost_is i (MkGhost (locked r n) (duty_of b r)) x →
  safe i ((if negb b then schedule_continue gen r else e_ret tt) (Some r))
    (λ _, at_rest i (locked r n)) x.
Proof.
  intros Hx. destruct b; [by apply (safe_ret elapse); [apply (ghost_stable gen)|]|]. cbn [negb].
  unfold schedule_continue, enqueue_job, stmt.
  eapply (safe_step elapse inv act); [intros; by apply (elapse_step gen)|apply (ghost_stable gen)|exact Hx| |].
  - apply (schedule_step gen i _ (MkGhost (locked r n) Idle) r None (λ now, Some (now + 50))); [done|].
    intros y r' _. cbn. auto.
  - intros u y _ Hg. by apply (safe_ret elapse); [apply (at_rest_stable gen)|].
Qed.

(** Blocking a run is steady when the waitpoints exist. *)
Lemma safe_blockRunWithWaitpoint i r ws p org timeout span batch wid rid x :
  inv x → at_rest i None x → exist ws x →
  safe i (blockRunWithWaitpoint gen options stringify_timeout r ws p org timeout span batch wid rid None)
    (rested i None any) x.
Proof.
  intros Hi Hx He. eapply safe_mono; [apply (safe_lock gen i r _ (exist ws) (λ _ _, True)); try done|].
  - apply exist_lasting.
  - intros y n Hy Hr Hex. cbv zeta. unfold e_bind at 1.
    eapply safe_bind with (Q := λ o z, (at_rest i (locked r n) z ∧ ∀ sn, o = Ok sn → seen i r n sn z) ∧ exist ws z).
    { apply safe_frame; [intros; by apply (elapse_step gen)|apply exist_lasting|done|by apply safe_latest]. }
    2: { by intros e z _ [[? _] _]. }
    intros sn z Hz [[Hrz Hsn] Hez]. destruct (Hsn sn eq_refl) as (_ & Hrun & _).
    eapply (safe_stmt gen i (locked r n)) with (P := λ x, at_rest i (locked r n) x ∧ exist ws x);
      [apply (lasting_stable gen), exist_lasting|done|apply block_statement_step|].
    intros u z1 Hz1 Hb.
    eapply (safe_stmt gen i (locked r n)); [apply blocking_stable|exact Hb|apply pending_step|].
    intros c z2 Hz2 Hd. cbv beta.
    eapply safe_bind; [apply safe_never; [apply never_blocked_snapshot|
        apply (safe_blocked_snapshot i r n (0 <? c)); [done|done|by cbn; destruct (_ || _)|done]]| |
      by intros e z' _ [_ [? [=]]]].
    intros u1 z3 Hz3 [Hg _].
    eapply safe_bind; [apply safe_never; [apply never_timeouts|by apply kept_schedule_timeouts]| |
      by intros e z' _ [_ [? [=]]]].
    intros u2 z4 Hz4 [Hg' _]. eapply safe_mono; [by apply safe_blocked_end|done].
  - intros o y _ [Hr _]. by split.
Qed.

(** ** Checkpoints *)

(** [id] is a snapshot in which its run waits for waitpoints. *)
Definition suspends (id : string) x : Prop :=
  ∃ sn, snap_at x.1 id = Some sn ∧ sn_executionStatus sn = Exec_EXECUTING_WITH_WAITPOINTS.

Lemma suspends_lasting id : lasting (suspends id).
Proof. intros j x y Ha _ (sn & Hs & Hst). exists sn. split; [by apply (a_snap _ _ _ _ Ha)|done]. Qed.

(** A run that waits gets another snapshot in which it waits. *)
Lemma insert_suspended_step i r n sn si :
  si_runId si = r → truthy_opt (si_error si) = false →
  wait_status (sn_executionStatus (snapshot_row sn)) = true →
  si_executionStatus si ≠ Exec_PENDING_EXECUTING →
  step i (λ s, ((next_id gen s, snapshot_data (es_clock s) si), (take_id s) {{ es_tables :=
            put_snapshot (next_id gen s) (snapshot_data (es_clock s) si) (es_tables s) }}))
    (seen i r n sn) (λ _, at_rest i (locked r n)).
Proof.
  intros Hr He Hst Hpe d s γ Hi Hi0 (Hg & _ & _ & Hw). unfold at_rest, ghost_is in Hg. cbn in Hg.
  exists (γ i). cbv zeta. cbn [snd].
  destruct (insert_act gen i d s γ r n (snapshot_data (es_clock (elapse d s)) si) (es_tables (elapse d s)))
    as [Ha Hi']; try done.
  - by rewrite Hg.
  - cbn. by rewrite He.
  - right. left. by apply Hw.
  - by intros ?%Hpe.
  - split; [done|]. split; [done|]. unfold at_rest, ghost_is. cbn. by rewrite set_ghost_eq.
Qed.

Lemma steady_release_concurrency i L r run : steady i L (release_concurrency gen r run) any.
Proof. unfold release_concurrency. follow. Qed.
#[local] Hint Resolve steady_release_concurrency : steady.

(** What follows the new snapshot. *)
Lemma safe_rest {A} i r n (m : M A) x :
  inv x → at_rest i (locked r n) x → steady i (locked r n) m any →
  safe i (m (Some r)) (λ _, at_rest i (locked r n)) x.
Proof. intros Hi Hx Hm. eapply safe_mono; [by apply Hm|]. by intros o y _ [? _]. Qed.

Lemma kept_insert_checkpoint i r n sn cp : kept i (Some r) (seen i r n sn) (insert_checkpoint gen cp).
Proof.
  apply (kept_stmt gen i _ (MkGhost (locked r n) Idle));
    [apply seen_stable|by intros ? []|apply seen_unmoved|].
  intros s. apply (quiet_tables s (put_checkpoint (next_id gen s) cp (es_tables s)) (S (es_ids s)) (es_queue s));
    try done. lia.
Qed.

Lemma kept_seen_update i r n sn id f : kept i (Some r) (seen i r n sn) (update_run id f).
Proof.
  apply (kept_update_run gen i _ (MkGhost (locked r n) Idle));
    [apply seen_stable|by intros ? []|apply seen_unmoved].
Qed.

(** The new snapshot of a run that is suspended. *)
Lemma safe_suspended_snapshot i r n sn si x :
  si_runId si = r → truthy_opt (si_error si) = false →
  wait_status (sn_executionStatus (snapshot_row sn)) = true →
  si_executionStatus si ≠ Exec_PENDING_EXECUTING → seen i r n sn x →
  safe i (createExecutionSnapshot gen options si (Some r)) (λ _, at_rest i (locked r n)) x.
Proof.
  intros Hr He Hw Hpe Hx. unfold createExecutionSnapshot.
  eapply (safe_stmt gen i (locked r n)); [apply seen_stable|exact Hx|by apply insert_suspended_step|].
  intros new y Hy Hry. apply (safe_rest i r n (set_heartbeat gen options new.1 si ;;; e_ret new)); [done|done|].
  follow.
Qed.

Lemma safe_createCheckpoint i r id cp wid rid x :
  inv x → at_rest i None x → suspends id x →
  safe i (createCheckpoint gen options r id cp wid rid None) (rested i None any) x.
Proof.
  intros Hi Hx He. eapply safe_mono; [apply (safe_lock gen i r _ (suspends id) (λ _ _, True)); try done|].
  - apply suspends_lasting.
  - intros y n Hy Hr Hex. unfold e_bind at 1.
    eapply safe_mono with (Q := λ _, at_rest i (locked r n)); [|done].
    eapply safe_bind with (Q := λ o z, (at_rest i (locked r n) z ∧ ∀ sn, o = Ok sn → seen i r n sn z) ∧ suspends id z).
    { apply safe_frame; [intros; by apply (elapse_step gen)|apply suspends_lasting|done|by apply safe_latest]. }
    2: { by intros e z _ [[? _] _]. }
    intros sn z Hz [[Hrz Hsn] Hez]. specialize (Hsn sn eq_refl). cbv zeta.
    set (again := bool_decide (sn_previousSnapshotId _ = _) && _).
    set (ok := isCheckpointable _).
    destruct (bool_decide (snapshot_id sn = id) || again) eqn:Hv; cbn [negb];
      [|by apply (safe_ret elapse); [apply (at_rest_stable gen)|]].
    destruct ok; cbn [negb]; [|by apply (safe_ret elapse); [apply (at_rest_stable gen)|]].
    eapply safe_bind; [by apply (kept_seen_update i r n sn)| |by intros e z' _ []].
    intros run z1 Hz1 Hs1. cbv beta.
    eapply safe_bind; [by apply (kept_insert_checkpoint i r n sn)| |by intros e z' _ []].
    intros cpid z2 Hz2 Hs2. cbv beta.
    eapply safe_bind with (Q := λ _, at_rest i (locked r n)); [| |done].
    2: { intros new z3 Hz3 Hr3. apply (safe_rest i r n (release_concurrency gen r run ;;; e_ret _)); [done|done|].
         follow. }
    destruct (decide (sn_executionStatus sn = Exec_QUEUED_EXECUTING)) as [Hq|Hq].
    + rewrite bool_decide_eq_true_2 by done. apply safe_rest; [done|apply Hs2|].
      apply (steady_enqueueRun gen); [by eauto with steady|done|done].
    + rewrite bool_decide_eq_false_2 by done. apply (safe_suspended_snapshot i r n sn); try done.
      unfold again in Hv. rewrite (bool_decide_eq_false_2 (_ = Exec_QUEUED_EXECUTING)), andb_false_r, orb_false_r
        in Hv by done.
      apply bool_decide_eq_true in Hv as <-. destruct Hez as (row & Hrow & Hst), Hsn as (_ & _ & [[Hs _] _] & _).
      assert (snapshot_row sn = row) as -> by congruence. by rewrite Hst.
  - intros o y _ [Hr _]. by split.
Qed.

End Waits.

#[export] Hint Resolve steady_continueRunIfUnblocked steady_handleStalledSnapshot
  steady_handleRepairSnapshot steady_expireRunsBatch : steady.
