(* ===== verification/EngineWakeupStarts.v ===== *)
(** * EngineWakeupStarts: starting an attempt

    The transaction of [startRunAttempt] writes its snapshot with the time of its start
    and shows it when it commits, after calls of the worker.  Until then the id of the
    snapshot is reserved. *)

From Stdlib Require Import SpecFloat.
From S2P Require Import Prelude Text Messages Retry KeyProducer RunQueue EngineErrors EngineProg.
From S2P Require Import EngineData Duration EngineSystems EngineAttempts EngineLifecycle EngineHandlers.
From S2P Require Import EngineWakeups EngineWakeupRules EngineWakeupMethods EngineWakeupWaits.
Local Open Scope Z_scope.
Local Open Scope engine_scope.

Section Starts.
Context {T : Type → Type} {J Q : Type} {TB : Table T} {TL : TableLaws T}.
Context {W : Worker J} {WL : WorkerLaws J} {EQ : EngineQueue Q}.
Context (gen : nat → string) {FI : FreshIds gen}.
Context (options : EngineOptions) (stringify_error : TaskRunError → string).
Context (random : string → spec_float) (pow : spec_float → spec_float → spec_float).
Local Notation state := (engine_state T J Q).
Local Notation cfg := (engine_state T J Q * (nat → ghost))%type.
Local Notation M := (M T J Q).
Local Notation inv := (inv gen).
Local Notation act := (act gen).
Local Notation stable := (EngineProg.stable inv act).
Local Notation step := (EngineProg.step elapse inv act).
Local Notation safe := (EngineProg.safe elapse inv act).
Local Notation steady := (@EngineWakeupRules.steady T J Q TB W gen _).
Local Notation kept := (@EngineWakeupRules.kept T J Q TB W gen _).
Local Notation locked r n := (Some (MkHold r n None)).
Local Notation reserved r n m := (Some (MkHold r n (Some m))).
Implicit Types (s : state) (x y : cfg) (γ : nat → ghost) (r w k : string) (L : option hold).

(** The snapshot with id [m] and time [now] is to be shown; it will be the newest. *)
Definition reserving i r n (m : nat) (now : Z) x : Prop :=
  at_rest i (reserved r n m) x ∧ now ≤ es_clock x.1 ∧
  ∀ id sn, snap_of x.1 r id sn → sn_createdAt sn < now.

Lemma reserving_stable i r n m now : stable i (reserving i r n m now).
Proof.
  intros j x y Hj Ha Hi (Hr & Hc & Hs). split; [by eapply (at_rest_stable gen)|].
  split; [pose proof (a_clock _ _ _ _ Ha); lia|]. intros id sn Hsn. apply (Hs id).
  apply (a_snaps _ _ _ _ Ha i r n); [done| |done]. exists (Some m). by rewrite Hr.
Qed.

Lemma reserving_unmoved i r n m now : unmoved i (MkGhost (reserved r n m) Idle) (reserving i r n m now).
Proof.
  intros s s' γ [Hq _ Hck _ _ _ _] (Hr & Hc & Hs). split; [apply set_ghost_eq|]. cbn in *.
  split; [lia|]. intros id sn. rewrite (snap_of_same s s') by apply Hq. apply Hs.
Qed.

Definition begun i r n (o : option (TaskRun * string * Z)) x : Prop :=
  match o with
  | Some (_, id, now) => ∃ m, id = gen m ∧ reserving i r n m now x
  | None => at_rest i (locked r n) x
  end.

Lemma begin_step i r n a first :
  step i (λ s, match (run ← t_find r (taskRun (es_tables s));
                 Some ((started (es_clock s) a first run, next_id gen s, es_clock s), take_id s)) with
               | Some (a, s) => (Some a, s)
               | None => (None, s)
               end)
    (at_rest i (locked r n)) (begun i r n).
Proof.
  intros d s γ Hi Hi0 Hr. set (s0 := elapse d s) in *.
  destruct (t_find r (taskRun (es_tables s0))) as [run|]; cbn.
  - exists (MkGhost (reserved r n (es_ids s0)) Idle). unfold at_rest, ghost_is in Hr. cbn in Hr.
    destruct (quiet_step gen i s0 (take_id s0) γ (set_ghost i (MkGhost (reserved r n (es_ids s0)) Idle) γ))
      as [Ha Hi']; [done| | | |].
    + apply (quiet_tables s0 (es_tables s0) (S (es_ids s0)) (es_queue s0)); try done. lia.
    + split.
      * intros. by apply set_ghost_ne.
      * intros r' n'. rewrite set_ghost_eq, Hr. unfold holds. cbn. split; intros [m [= <- <- _]]; by eexists.
      * intros m. rewrite set_ghost_eq. intros (? & ? & [= _ _ <-]). right. cbn. unfold constant. lia.
    + intros r'. by rewrite Hr.
    + split; [done|]. split; [done|]. exists (es_ids s0). split; [done|]. split; [apply set_ghost_eq|].
      split; [done|]. intros id sn (Hsn & _). pose proof (i_time _ _ Hi id sn Hsn). unfold s0. cbn in *.
      unfold constant. lia.
  - exists (MkGhost (locked r n) Idle). by apply (quiet_act gen).
Qed.

(** The reservation is dropped. *)
Lemma drop_keeps i r n m s s' γ :
  at_rest i (reserved r n m) (s, γ) → keeps i s s' γ (set_ghost i (MkGhost (locked r n) Idle) γ).
Proof.
  unfold at_rest, ghost_is. cbn. intros Hr. split.
  - intros. by apply set_ghost_ne.
  - intros r' n'. rewrite set_ghost_eq, Hr. unfold holds. cbn. split; intros [m' [= <- <- _]]; by eexists.
  - intros m'. rewrite set_ghost_eq. by intros (? & ? & [=]).
Qed.

Lemma commit_step i r n m now a first si :
  si_runId si = r → truthy_opt (si_error si) = false →
  plain_status (si_executionStatus si) = true →
  step i (λ s, match (run ← t_find r (taskRun (es_tables s));
                 let run := started now a first run in
                 let row := snapshot_data now si in
                 Some ((run, row), s {{ es_tables := put_snapshot (gen m) row (put_run r run (es_tables s)) }})) with
               | Some (a, s) => (Some a, s)
               | None => (None, s)
               end)
    (reserving i r n m now) (λ _, at_rest i (locked r n)).
Proof.
  intros Hrun He Hw d s γ Hi Hi0 (Hr & Hc & Hlate). set (s0 := elapse d s) in *. clearbody s0. clear Hi s d.
  exists (MkGhost (locked r n) Idle). pose proof Hr as Hg. unfold at_rest, ghost_is in Hg. cbn in Hg.
  destruct (t_find r (taskRun (es_tables s0))) as [run|]; cbn.
  - set (s1 := s0 {{ es_tables := put_snapshot (gen m) (snapshot_data now si)
      (put_run r (started now a first run) (es_tables s0)) }}).
    assert (Hst : same_but_tables s0 s1) by done.
    assert (Hrow : ∀ id, row_at s1 id = row_at s0 id) by done.
    assert (Hws : ∀ w, wstatus s1 w = wstatus s0 w) by done.
    assert (Hsn : ∀ id, snap_at s1 id = t_find id (t_put (gen m) (snapshot_data now si)
                          (taskRunExecutionSnapshot (es_tables s0)))) by done.
    destruct (i_reserved _ _ Hi0 i m) as [Hm Hnone]; [by exists r, n; cbn; rewrite Hg|].
    destruct (snapshot_step gen i s0 s1 γ (set_ghost i (MkGhost (locked r n) Idle) γ) r n m
                (snapshot_data now si)) as [Ha Hi']; try done.
    + exists (Some m). by rewrite Hg.
    + intros j. destruct (decide (j = i)) as [->|Hj].
      * rewrite set_ghost_eq. by intros (? & ? & [=]).
      * rewrite set_ghost_ne by done. intros Hres. apply Hj. eapply (i_reserved_once _ _ Hi0); [exact Hres|].
        exists r, n. cbn. by rewrite Hg.
    + by rewrite Hsn, t_find_put.
    + intros id Hid. by rewrite Hsn, t_find_put_ne.
    + cbn. by rewrite He.
    + by eapply drop_keeps.
    + by rewrite set_ghost_eq, Hg.
    + left. by apply plain_not_waiting.
    + by apply plain_follows.
    + split; [done|]. split; [done|]. apply set_ghost_eq.
  - destruct (quiet_step gen i s0 s0 γ (set_ghost i (MkGhost (locked r n) Idle) γ)) as [Ha Hi'];
      [done|apply quiet_refl|by eapply drop_keeps| |].
    + intros r'. by rewrite Hg.
    + split; [done|]. split; [done|]. apply set_ghost_eq.
Qed.

Lemma never_heartbeat id si c : never (λ _, True) ((set_heartbeat gen options id si : M unit) c).
Proof.
  unfold set_heartbeat. destruct (truthy_opt _); [done|]. by destruct (getHeartbeatIntervalMs _ _).
Qed.

(** The transaction, from its writes to its end. *)
Lemma safe_commit {A} i r n m now a first si id (b : bool) (k : TaskRun * TaskRunExecutionSnapshot → A) x :
  si_runId si = r → truthy_opt (si_error si) = false →
  plain_status (si_executionStatus si) = true →
  inv x → reserving i r n m now x →
  safe i ((set_heartbeat gen options id si ;;;
           (if b then ack_job ("expireRun:" +:+ r) else e_ret tt) ;;;
           result <- commit_start r (gen m) now a first si ;;
           e_ret (k result)) (Some r)) (λ _, at_rest i (locked r n)) x.
Proof.
  intros Hrun He Hw Hi Hx.
  pose proof (reserving_stable i r n m now) as Hst. pose proof (reserving_unmoved i r n m now) as Hun.
  set (g := MkGhost (reserved r n m) Idle).
  assert (Hgh : ∀ x, reserving i r n m now x → ghost_is i g x) by by intros ? [].
  eapply safe_bind with (Q := λ o y, reserving i r n m now y ∧ ∃ u, o = Ok u);
    [apply safe_never; [apply never_heartbeat|by apply (kept_heartbeat gen options i _ g)]| |
     by intros e y _ [_ [? [=]]]].
  intros u y Hy [Hry _].
  eapply safe_bind with (Q := λ o y, reserving i r n m now y ∧ ∃ u, o = Ok u); [| |by intros e z _ [_ [? [=]]]].
  { apply safe_never; [by destruct b|]. destruct b; [|by apply (kept_ret gen i (Some r))].
    apply (kept_stmt gen i (Some r) g); try done. intros s. apply quiet_ack. other_id. }
  intros u' z Hz [Hrz _].
  eapply (safe_step elapse inv act); [intros; by apply (elapse_step gen)|exact Hst|exact Hrz|by apply commit_step|].
  intros [res|] z' _ Hz'; [apply (safe_ret elapse)|apply (safe_throw elapse)]; (apply (at_rest_stable gen) || done).
Qed.

(** Starting an attempt is steady. *)
Lemma steady_startRunAttempt i r id wid rid warm :
  steady i None (startRunAttempt gen options stringify_error random pow r id wid rid warm) any.
Proof.
  apply (steady_lock gen); [by left|]. intros n.
  eapply (steady_bind gen); [apply (steady_latest gen)|]. intros sn Hsn. cbv beta in Hsn.
  destruct (negb _); [apply (steady_throw gen)|].
  apply (steady_bind gen _ _ _ _ any); [apply (steady_find_run gen)|]. intros [run|] _; [|apply (steady_throw gen)].
  destruct (isFinishedOrPendingFinished _); [apply (steady_throw gen)|].
  destruct (negb _); [apply (steady_throw gen)|]. cbv zeta. destruct (_ <? _); [follow|].
  intros x Hi Hx.
  eapply (safe_step elapse inv act);
    [intros; by apply (elapse_step gen)|apply (at_rest_stable gen)|exact Hx|apply begin_step|].
  intros [[[run' sid] now]|] y Hy Hb.
  - destruct Hb as (m & -> & Hres). eapply safe_mono;
      [apply (safe_commit i r n m now _ _ _ _ _ (λ result, (result.1, (gen m, result.2)))); try done|].
    by intros o z _ Hz.
  - apply (safe_throw elapse); [apply (rested_stable gen)|by split].
Qed.

End Starts.

#[export] Hint Resolve steady_startRunAttempt : steady.
