(* ===== verification/EngineWakeupDequeue.v ===== *)
(** * EngineWakeupDequeue: handing a run to a worker

    [dequeueFromWorkerQueue] keeps blocked runs covered, and the snapshot with which it
    hands a run over follows the latest snapshot of the run, in which it is queued: what
    was read under the lock of the run is still so when the snapshot is inserted. *)

From Stdlib Require Import SpecFloat.
From S2P Require Import Prelude Text Messages Retry KeyProducer RunQueue EngineErrors EngineProg.
From S2P Require Import EngineData Duration EngineSystems EngineAttempts EngineLifecycle EngineHandlers.
From S2P Require Import EngineDequeue.
From S2P Require Import EngineWakeups EngineWakeupRules EngineWakeupMethods EngineWakeupWaits.
Local Open Scope Z_scope.
Local Open Scope engine_scope.

Section DequeueSteps.
Context {T : Type → Type} {J Q : Type} {TB : Table T} {TL : TableLaws T}.
Context {W : Worker J} {WL : WorkerLaws J} {EQ : EngineQueue Q}.
Context (gen : nat → string) {FI : FreshIds gen}.
Context (options : EngineOptions) (stringify_error : TaskRunError → string).
Context (random : string → spec_float) (pow : spec_float → spec_float → spec_float).
Context (catalog : Z → worker_catalog T) (machines : list (string * MachinePreset)).
Context (getCurrentPlan : Z → string → option (bool * option bool)).
Local Notation state := (engine_state T J Q).
Local Notation cfg := (engine_state T J Q * (nat → ghost))%type.
Local Notation M := (M T J Q).
Local Notation inv := (inv gen).
Local Notation act := (act gen).
Local Notation stable := (EngineProg.stable inv act).
Local Notation step := (EngineProg.step elapse inv act).
Local Notation safe := (EngineProg.safe elapse inv act).
Local Notation steady := (@EngineWakeupRules.steady T J Q TB W gen _).
Local Notation kept := (@EngineWakeupRules.kept T J Q TB W gen _).
Local Notation locked r n := (Some (MkHold r n None)).
Implicit Types (s : state) (x y : cfg) (γ : nat → ghost) (r w k : string) (L : option hold).

(** ** Looking up *)

(** What only reads keeps what is seen. *)
Lemma kept_read {A} i c r n sn (f : state → A) : kept i c (seen i r n sn) (stmt (λ s, (f s, s))).
Proof.
  apply (kept_stmt gen i c (MkGhost (locked r n) Idle));
    [apply (seen_stable gen)|by intros ? []|apply seen_unmoved|intros; apply quiet_refl].
Qed.

Lemma kept_update i c r n sn id f : kept i c (seen i r n sn) (update_run id f).
Proof.
  apply (kept_update_run gen i c (MkGhost (locked r n) Idle));
    [apply (seen_stable gen)|by intros ? []|apply seen_unmoved].
Qed.

Lemma kept_lookup i c r n sn id wid :
  kept i c (seen i r n sn) (getRunWithBackgroundWorkerTasks catalog id wid).
Proof.
  unfold getRunWithBackgroundWorkerTasks, find_run_environment.
  apply (kept_bind gen); [apply kept_read|]. intros [[run []]|]; try (apply (kept_ret gen), (seen_stable gen)).
  apply (kept_bind gen).
  { unfold find_worker. destruct (bool_decide _), (nonempty_text _); try apply kept_read.
    apply (kept_bind gen); [apply kept_read|]. intros [[type worker]|]; [|apply (kept_ret gen), (seen_stable gen)].
    destruct (is_managed type); [apply (kept_ret gen), (seen_stable gen)|apply kept_read]. }
  intros [worker|]; [|apply (kept_ret gen), (seen_stable gen)].
  destruct (match nonempty_text wid with Some _ => _ | None => _ end); [apply (kept_ret gen), (seen_stable gen)|].
  destruct (find_task run worker); [destruct (find_queue run worker); apply (kept_ret gen), (seen_stable gen)|].
  apply (kept_bind gen); [apply kept_read|]. intros [other|]; apply (kept_ret gen), (seen_stable gen).
Qed.

(** ** Handing over *)

(** A snapshot that follows the latest one, which is queued. *)
Lemma insert_handed_step i r n sn si :
  si_runId si = r → truthy_opt (si_error si) = false →
  si_executionStatus si = Exec_PENDING_EXECUTING → si_previousSnapshotId si = Some (snapshot_id sn) →
  sn_executionStatus sn = Exec_QUEUED →
  step i (λ s, ((next_id gen s, snapshot_data (es_clock s) si), (take_id s) {{ es_tables :=
            put_snapshot (next_id gen s) (snapshot_data (es_clock s) si) (es_tables s) }}))
    (seen i r n sn) (λ _, at_rest i (locked r n)).
Proof.
  intros Hr He Hpe Hprev Hq d s γ Hi Hi0 (Hg & _ & Hnew & _). unfold at_rest, ghost_is in Hg. cbn in Hg.
  exists (γ i). cbv zeta. cbn [snd].
  destruct (insert_act gen i d s γ r n (snapshot_data (es_clock (elapse d s)) si) (es_tables (elapse d s)))
    as [Ha Hi']; try done.
  - by rewrite Hg.
  - cbn. by rewrite He.
  - left. cbn. by rewrite Hpe.
  - intros _. by exists (snapshot_id sn), (snapshot_row sn).
  - split; [done|]. split; [done|]. unfold at_rest, ghost_is. cbn. by rewrite set_ghost_eq.
Qed.

Lemma safe_handed_snapshot {A} i r n sn si (k : string * TaskRunExecutionSnapshot → M A) (φ : A → Prop) x :
  si_runId si = r → truthy_opt (si_error si) = false →
  si_executionStatus si = Exec_PENDING_EXECUTING → si_previousSnapshotId si = Some (snapshot_id sn) →
  sn_executionStatus sn = Exec_QUEUED → seen i r n sn x →
  (∀ new, steady i (locked r n) (k new) φ) →
  safe i (e_bind (createExecutionSnapshot gen options si) k (Some r)) (rested i (locked r n) φ) x.
Proof.
  intros Hr He Hpe Hprev Hq Hx Hk. unfold createExecutionSnapshot, insert_snapshot, stmt.
  unfold e_bind at 1 2. cbn [pbind].
  eapply (safe_step elapse inv act);
    [intros; by apply (elapse_step gen)|apply (seen_stable gen)|exact Hx|by apply insert_handed_step|].
  intros new y Hy Hry.
  assert (steady i (locked r n) (set_heartbeat gen options new.1 si ;;; k new) φ) as Hs; [|].
  { apply (steady_bind gen _ _ _ _ any); [apply (steady_set_heartbeat gen)|by intros _ _]. }
  specialize (Hs y Hy Hry). unfold e_bind in Hs. cbn [option_map h_run] in Hs.
  revert Hs. unfold set_heartbeat. destruct (truthy_opt _); [done|]. by destruct (getHeartbeatIntervalMs _ _).
Qed.

Lemma safe_hand_over i r n (sn : EnhancedExecutionSnapshot) org wid rid run worker task queue x :
  sn_executionStatus sn = Exec_QUEUED → inv x → seen i r n sn x →
  safe i (hand_over gen options machines getCurrentPlan org r wid rid sn run worker task queue (Some r))
    (rested i (locked r n) any) x.
Proof.
  intros Hq Hi Hx. unfold hand_over. cbv zeta.
  eapply safe_bind; [by apply (kept_read i _ r n sn)| |by intros e y _ []]. intros lockedAt y Hy Hsy.
  eapply safe_bind; [by apply (kept_update i _ r n sn)| |by intros e z _ []].
  intros lockedTaskRun z Hz Hsz.
  eapply safe_bind; [by apply (kept_read i _ r n sn)| |by intros e z' _ []]. intros plan z' Hz' Hsz'.
  apply (safe_handed_snapshot i r n sn); try done. intros new. by apply (steady_ret gen).
Qed.

(** ** The other outcomes *)

(** A snapshot that records an error. *)
Lemma steady_error_snapshot i L si :
  truthy_opt (si_error si) = true → steady i L (createExecutionSnapshot gen options si) any.
Proof.
  intros He. unfold createExecutionSnapshot. apply (steady_bind gen _ _ _ _ any); [|intros sn _; follow].
  apply (steady_stmt gen). intros d s γ _ Hi Hr. set (s0 := elapse d s) in *. clearbody s0. clear s d.
  unfold at_rest, ghost_is in Hr. cbn in Hr. exists (γ i). cbv zeta. cbn [snd].
  set (s1 := (take_id s0) {{ es_tables := _ }}).
  assert (Hst : same_but_tables s0 s1) by (split; [done|done|done|exact (Nat.le_succ_diag_r _)]).
  assert (Hids : es_ids s1 = S (es_ids s0)) by done.
  assert (Hsn : ∀ id, snap_at s1 id = t_find id (t_put (gen (es_ids s0)) (snapshot_data (es_clock s0) si)
                        (taskRunExecutionSnapshot (es_tables s0)))) by done.
  assert (Hrow : ∀ id, row_at s1 id = row_at s0 id) by done.
  assert (Hws : ∀ w, wstatus s1 w = wstatus s0 w) by done. clearbody s1.
  destruct (invalid_step gen i s0 s1 γ (set_ghost i (γ i) γ) (es_ids s0) (snapshot_data (es_clock s0) si))
    as [Ha Hi']; try done.
  - lia.
  - by rewrite Hsn, t_find_put.
  - intros id Hid. by rewrite Hsn, t_find_put_ne.
  - cbn. by rewrite He.
  - apply set_ghost_same.
  - split; [done|]. split; [done|]. split; [|done]. unfold at_rest, ghost_is. cbn. by rewrite set_ghost_eq.
Qed.

Lemma steady_systemFailure i r n error :
  steady i (locked r n) (systemFailure gen options stringify_error random pow r error) any.
Proof.
  apply (steady_systemFailure_with gen). intros id c. apply (steady_attemptFailed_fuel gen).
  by eauto with steady.
Qed.

Lemma steady_reject_dequeue i r n (sn : EnhancedExecutionSnapshot) org wid rid :
  sn_runId sn = r →
  steady i (locked r n)
    (reject_dequeue gen options stringify_error random pow org r wid rid sn) any.
Proof.
  intros Hr. unfold reject_dequeue, acknowledge. destruct (bool_decide _); [follow|].
  apply (steady_bind gen _ _ _ _ any); [by apply steady_error_snapshot|]. intros _ _.
  apply (steady_bind gen _ _ _ _ any); [apply steady_systemFailure|]. intros _ _. follow.
Qed.

Lemma steady_pendingVersion i r n org reason statusReason :
  steady i (locked r n) (pendingVersion gen options org r reason statusReason) any.
Proof. unfold pendingVersion, acknowledge. follow. Qed.

Lemma safe_resolve i r n (sn : EnhancedExecutionSnapshot) org wid rid result x :
  sn_executionStatus sn = Exec_QUEUED → inv x → seen i r n sn x →
  safe i (resolve gen options random machines getCurrentPlan org r wid rid sn result (Some r))
    (rested i (locked r n) any) x.
Proof.
  intros Hq Hi Hx. pose proof Hx as [Hr _].
  assert (Hst : ∀ m : M (option dequeued_run), steady i (locked r n) m any →
    safe i (m (Some r)) (rested i (locked r n) any) x) by (intros m Hm; by apply Hm).
  assert (Hpv : ∀ reason code, steady i (locked r n)
    (pendingVersion gen options org r reason code ;;; e_ret None) (any : option dequeued_run → Prop)).
  { intros. apply (steady_bind gen _ _ _ _ any); [apply steady_pendingVersion|]. intros _ _. follow. }
  destruct result as [|[] message|run worker task queue]; cbn [resolve];
    try (apply Hst; apply Hpv); try (apply Hst; unfold acknowledge; follow; fail).
  destruct (deployable run worker); [by apply safe_hand_over|apply Hst, Hpv].
Qed.

(** The body of the lock. *)
Lemma steady_dequeue_locked i r n org bwid wid rid :
  steady i (locked r n)
    (dequeue_locked gen options stringify_error random pow catalog machines getCurrentPlan
       org r bwid wid rid) any.
Proof.
  intros x Hi Hx. unfold dequeue_locked.
  eapply safe_bind; [by apply (safe_latest gen)| |by intros e y _ [? _]]. intros sn y Hy [Hr Hs].
  specialize (Hs sn eq_refl). pose proof Hs as (_ & Hrun & _).
  destruct (negb _) eqn:Hd.
  { assert (steady i (locked r n) (reject_dequeue gen options stringify_error random pow org r wid rid sn ;;;
      e_ret None) (any : option dequeued_run → Prop)) as Hst; [|by apply Hst].
    apply (steady_bind gen _ _ _ _ any); [by apply steady_reject_dequeue|]. intros _ _. follow. }
  destruct (bool_decide _) eqn:Hqe.
  { assert (steady i (locked r n) (continue_executing gen options r sn ;;; e_ret None)
      (any : option dequeued_run → Prop)) as Hst; [|by apply Hst]. unfold continue_executing. follow. }
  eapply safe_bind; [by apply kept_lookup| |by intros e z _ []]. intros result z Hz Hsz.
  apply safe_resolve; [|done|done]. apply bool_decide_eq_false in Hqe. apply negb_false_iff in Hd.
  unfold isDequeueableExecutionStatus in Hd. apply bool_decide_eq_true in Hd.
  rewrite !elem_of_cons, elem_of_nil in Hd. tauto.
Qed.

Lemma steady_dequeue_message i r org bwid wid rid :
  steady i None
    (dequeue_message gen options stringify_error random pow catalog machines getCurrentPlan
       org r bwid wid rid) any.
Proof.
  unfold dequeue_message. apply (steady_catch gen).
  - apply (steady_lock gen); [by left|]. intros n. apply steady_dequeue_locked.
  - intros e. unfold requeue_dequeued. follow.
Qed.

Lemma steady_dequeueFromWorkerQueue i workerQueue bwid wid rid blockingPop :
  steady i None
    (dequeueFromWorkerQueue gen options stringify_error random pow catalog machines getCurrentPlan
       workerQueue bwid wid rid blockingPop) any.
Proof.
  unfold dequeueFromWorkerQueue. apply (steady_bind gen _ _ _ _ any); [apply (steady_on_queue gen)|].
  intros [message|] _; [apply steady_dequeue_message|follow].
Qed.

End DequeueSteps.

#[export] Hint Resolve steady_dequeueFromWorkerQueue : steady.
