(* ===== verification/EngineNoLostWakeup.v ===== *)
(** * EngineNoLostWakeup: no blocked run is forgotten

    Any number of processes call the methods of the engine, and workers run its jobs.
    Whatever the order of their statements, once they are done every run that waits and
    whose waitpoints are all completed has its [continueRunIfUnblocked] job in the queue
    of the worker, or the job was moved to the dead letter queue. *)

From Stdlib Require Import SpecFloat.
From S2P Require Import Prelude Text Messages Retry KeyProducer RunQueue EngineErrors EngineProg.
From S2P Require Import EngineData Duration EngineSystems EngineAttempts EngineLifecycle EngineHandlers.
From S2P Require Import EngineDequeue EngineOutcomes EngineSamples EngineDequeueFacts.
From S2P Require Import EngineWakeups EngineWakeupRules EngineWakeupMethods EngineWakeupWaits.
From S2P Require Import EngineWakeupStarts EngineWakeupDequeue.
Local Open Scope Z_scope.
Local Open Scope engine_scope.

Section NoLostWakeup.
Context {T : Type → Type} {J Q : Type} {TB : Table T} {TL : TableLaws T}.
Context {W : Worker J} {WL : WorkerLaws J} {EQ : EngineQueue Q}.
Context (gen : nat → string) {FI : FreshIds gen}.
Context (options : EngineOptions) (stringify_error : TaskRunError → string).
Context (stringify_timeout : Z → string) (humanize : Z → string).
Context (random : string → spec_float) (pow : spec_float → spec_float → spec_float).
Context (catalog : Z → worker_catalog T) (machines : list (string * MachinePreset)).
Context (getCurrentPlan : Z → string → option (bool * option bool)).
Local Notation state := (engine_state T J Q).
Local Notation cfg := (engine_state T J Q * (nat → ghost))%type.
Local Notation M := (M T J Q).
Local Notation inv := (inv gen).
Local Notation act := (act gen).
Local Notation stable := (EngineProg.stable inv act).
Local Notation step := (EngineProg.step elapse inv act).
Local Notation safe := (EngineProg.safe elapse inv act).
Local Notation claim := (claim gen).
Local Notation steady := (@EngineWakeupRules.steady T J Q TB W gen _).
Local Notation job_handler := (job_handler gen options stringify_error humanize random pow).
Local Notation work_item := (work_item gen options stringify_error humanize random pow).
Implicit Types (s : state) (x y : cfg) (γ : nat → ghost) (r w k : string) (L : option hold).

(** ** The worker *)

(** The handlers of the jobs are steady. *)
Lemma steady_job_handler i job h : job_handler job = Some h → steady i None h any.
Proof. destruct job; cbn; intros [= <-]; follow. Qed.

(** A job of another kind. *)
Lemma steady_process_other i h e id it :
  other_id id → other_job (ji_job it) → steady i None h any →
  steady i None (processItem gen random pow h e id it) any.
Proof.
  intros Hid Hj Hh. unfold processItem. apply (steady_catch gen).
  - apply (steady_bind gen _ _ _ _ any); [done|]. intros _ _.
    apply (steady_stmt gen), (resting_quiet gen); [|done]. intros s. by apply quiet_ack.
  - intros err. apply (steady_bind gen _ _ _ _ any).
    + apply (steady_stmt gen), (resting_quiet gen); [|done]. intros s.
      apply (quiet_tables s (es_tables s) (S (es_ids s)) (es_queue s)); try done. lia.
    + intros rnd _. destruct (nonzero _).
      * apply (steady_stmt gen), (resting_quiet gen); [|done]. intros s. by apply quiet_enqueue.
      * apply (steady_stmt gen), (resting_quiet gen); [|done]. intros s. by apply quiet_bury.
Qed.

(** The acknowledgement of the job of a continuation. *)
Lemma ack_continue_step i r (n : nat) :
  step i (λ s, (tt, s {{ es_worker := worker_ack (continue_job r) (Some (gen n)) (es_worker s) }}))
    (λ x, at_rest i None x ∧ claim r (gen n) x) (λ _, at_rest i None).
Proof.
  intros d s γ _ Hi [Hr Hc]. unfold at_rest, ghost_is in Hr. cbn in Hr. exists (γ i). cbv zeta. cbn [snd].
  destruct (ack_step gen i (elapse d s) γ (set_ghost i (γ i) γ) r n) as [Ha Hi']; [done|done| |].
  - apply set_ghost_same.
  - split; [done|]. split; [done|]. unfold at_rest, ghost_is. cbn. by rewrite set_ghost_eq.
Qed.

Lemma bury_continue_step i r e :
  step i (λ s, (tt, s {{ es_worker := worker_bury (continue_job r) e (es_worker s) }}))
    (at_rest i None) (λ _, at_rest i None).
Proof.
  intros d s γ _ Hi Hr. unfold at_rest, ghost_is in Hr. cbn in Hr. exists (γ i). cbv zeta. cbn [snd].
  destruct (bury_step gen i (elapse d s) γ (set_ghost i (γ i) γ) r e) as [Ha Hi']; [done| |].
  - apply set_ghost_same.
  - split; [done|]. split; [done|]. unfold at_rest, ghost_is. cbn. by rewrite set_ghost_eq.
Qed.

(** A failed continuation is tried again or given up. *)
Lemma steady_retry_continue i r (e : string) attempt rnd :
  steady i None
    (match nonzero (default None (calculateNextRetryDelay rnd pow defaultRetrySettings attempt)) with
     | None => on_worker (worker_bury (continue_job r) e)
     | Some retryDelay =>
         stmt (λ s, (tt, (take_id s) {{ es_worker :=
           worker_enqueue (es_clock s) (next_id gen s) (continue_job r) (Job_continueRunIfUnblocked r)
             (Some attempt) (Some (es_clock s + retryDelay)) (es_worker s) }}))
     end) any.
Proof.
  destruct (nonzero _) as [delay|]; apply (steady_stmt gen); eapply step_mono; [| |apply bury_continue_step|].
  - apply (schedule_step gen i (MkGhost None Idle) (MkGhost None Idle) r (Some attempt)
             (λ now, Some (now + delay))); [done|]. by intros.
  - by intros u y Hy.
  - by intros u y Hy.
Qed.

(** The job of a continuation: when it is acknowledged, it is not needed any more. *)
Lemma safe_process_continue i e r (n : nat) attempt x :
  at_rest i None x → old gen (es_ids x.1) (Some (gen n)) →
  safe i (processItem gen random pow (continueRunIfUnblocked gen options r ;;; e_ret tt) e (continue_job r)
            (MkJob (Job_continueRunIfUnblocked r) attempt (Some (gen n))) None) (rested i None any) x.
Proof.
  intros Hx Hold. unfold processItem, e_catch. cbn [ji_attempt ji_key ji_job].
  eapply safe_catch with (Q := λ _, at_rest i None); [|by intros a y _ Hy; split|].
  - eapply safe_bind with (Q := λ o y, at_rest i None y ∧ ∀ u, o = Ok u → claim r (gen n) y);
      [| |by intros err y _ [? _]].
    + eapply safe_bind; [by apply (continue_claims gen options i r (gen n))| |by intros err y _ [? _]; split].
      intros a y Hy [Hr Hc]. apply (safe_ret elapse); [|split; [done|]; intros; by apply (Hc a)].
      intros j z z' Hj Ha Hi [Hz Hcz]. split; [by eapply (at_rest_stable gen)|].
      intros u Hu. eapply claim_act; [exact Ha|by eapply Hcz].
    + intros u y Hy [Hr Hc]. specialize (Hc u eq_refl).
      eapply (safe_step elapse inv act) with (P := λ x, at_rest i None x ∧ claim r (gen n) x);
        [intros; by apply (elapse_step gen)| |by split|apply ack_continue_step|].
      * apply (lasting_stable gen). intros j z z' Ha _. by eapply claim_act.
      * intros u' z _ Hz. by apply (safe_ret elapse); [apply (at_rest_stable gen)|].
  - intros err y Hy Hr.
    assert (steady i None (rnd <- stmt (λ s, (random (next_id gen s), take_id s)) ;;
      match nonzero (default None (calculateNextRetryDelay rnd pow defaultRetrySettings (attempt + 1))) with
      | None => on_worker (worker_bury (continue_job r) (e err))
      | Some retryDelay =>
          stmt (λ s, (tt, (take_id s) {{ es_worker :=
            worker_enqueue (es_clock s) (next_id gen s) (continue_job r) (Job_continueRunIfUnblocked r)
              (Some (attempt + 1)) (Some (es_clock s + retryDelay)) (es_worker s) }}))
      end) any) as Hs; [|by apply Hs].
    apply (steady_bind gen _ _ _ _ any); [|intros; apply steady_retry_continue].
    apply (steady_stmt gen), (resting_quiet gen); [|done]. intros s.
    apply (quiet_tables s (es_tables s) (S (es_ids s)) (es_queue s)); try done. lia.
Qed.

(** What is known of a job that was dequeued. *)
Definition dequeued i (o : option (string * job_item)) x : Prop :=
  at_rest i None x ∧ ∀ id it, o = Some (id, it) →
    (∃ r n, id = continue_job r ∧ ji_job it = Job_continueRunIfUnblocked r ∧ ji_key it = Some (gen n) ∧
            old gen (es_ids x.1) (Some (gen n))) ∨
    (other_id id ∧ other_job (ji_job it)).

Lemma dequeue_step i :
  step i (λ s, ((worker_take (es_clock s) (es_worker s)).1,
                s {{ es_worker := (worker_take (es_clock s) (es_worker s)).2 }}))
    (at_rest i None) (dequeued i).
Proof.
  intros d s γ _ Hi Hr. set (s0 := elapse d s) in *. clearbody s0. clear s d.
  exists (MkGhost None Idle). cbv zeta. cbn [fst snd].
  destruct (quiet_act gen i (MkGhost None Idle) s0
              (s0 {{ es_worker := (worker_take (es_clock s0) (es_worker s0)).2 }}) γ) as (Ha & Hi' & Hr');
    [done|done| |].
  { split; cbn; unfold constant; try done; intros *; by rewrite ?items_take, ?dead_take. }
  split; [done|]. split; [done|]. split; [done|]. intros id it Ht%take_item.
  assert (Hcase : (∃ r, ji_job it = Job_continueRunIfUnblocked r) ∨ other_job (ji_job it)).
  { destruct (ji_job it); (by left; eexists) || (right; by intros ?). }
  destruct Hcase as [[r Hj]|Hj].
  - left. assert (id = continue_job r) as -> by by eapply (i_job _ _ Hi).
    destruct (i_key _ _ Hi r it Ht) as (_ & n & Hn & Hk). exists r, n. do 3 (split; [done|]).
    intros k [= <-]. by exists n.
  - right. split; [|done]. intros r ->. destruct (i_key _ _ Hi r it Ht) as [Hc _]. by apply (Hj r).
Qed.

Lemma dequeued_stable i o : stable i (dequeued i o).
Proof.
  intros j x y Hj Ha Hi [Hr Ho]. split; [by eapply (at_rest_stable gen)|]. intros id it Hit.
  destruct (Ho id it Hit) as [(r & n & H1 & H2 & H3 & Hold)|?]; [left|by right].
  exists r, n. do 3 (split; [done|]). eapply old_mono; [apply (a_ids _ _ _ _ Ha)|done].
Qed.

(** A worker that takes a job. *)
Lemma steady_work_item i e : steady i None (work_item e) any.
Proof.
  intros x Hi Hx. unfold EngineHandlers.work_item.
  eapply (safe_stmt gen i None); [apply (at_rest_stable gen)|exact Hx|apply dequeue_step|].
  intros [[id it]|] y Hy [Hr Hd]; [|by apply (steady_ret gen i None tt any)].
  destruct (job_handler (ji_job it)) as [h|] eqn:Hh; [|by apply (steady_ret gen i None tt any)].
  destruct (Hd id it eq_refl) as [(r & n & -> & Hj & Hk & Hold)|[Hid Hj]].
  - destruct it as [job attempt key]. cbn in *. subst. injection Hh as <-. by apply safe_process_continue.
  - apply (steady_process_other i h); [done|done| |done|done]. by eapply steady_job_handler.
Qed.

(** ** The pool *)

(** A call of the engine, or one turn of a worker. *)
Inductive call : Type :=
| CompleteWaitpoint (id : string) (output : option waitpoint_output)
| BlockRunWithWaitpoint (runId : string) (waitpoints : list string) (projectId organizationId : string)
    (timeout : option Z) (spanIdToComplete : option string) (batch : option (string * option Z))
    (workerId runnerId : option string)
| BlockRunAndCompleteWaitpoint (runId waitpointId : string) (output : waitpoint_output)
    (projectId organizationId : string) (batch : option (string * option Z))
| CreateDateTimeWaitpoint (projectId environmentId : string) (completedAfter : Z)
    (idempotencyKey : option string) (expiresAt : option Z)
| CreateManualWaitpoint (environmentId projectId : string) (idempotencyKey : option string)
    (expiresAt timeout : option Z) (tags : list string)
| GetOrCreateRunWaitpoint (runId projectId environmentId : string)
| StartRunAttempt (runId snapshotId : string) (workerId runnerId : option string) (isWarmStart : bool)
| CompleteRunAttempt (runId snapshotId : string) (completion : success_completion + failure_completion)
    (workerId runnerId : option string)
| CancelRun (runId : string) (workerId runnerId : option string) (completedAt : option Z)
    (reason : option string) (finalize : bool) (bulkActionId : option string)
    (attemptDurationMs : option Z)
| CreateCheckpoint (runId snapshotId : string) (checkpoint : TaskRunCheckpoint)
    (workerId runnerId : option string)
| ContinueRunExecution (runId snapshotId : string) (workerId runnerId : option string)
| RescheduleDelayedRun (runId : string) (delayUntil : Z)
| ExpireRunsBatch (runIds : list string)
| HeartbeatRun (runId snapshotId : string)
| DequeueFromWorkerQueue (workerQueue : string) (backgroundWorkerId workerId runnerId : option string)
    (blockingPop : option bool)
| WorkItem.

Context (errorMessage : engine_error → string).

Definition exec (c : call) : M unit :=
  match c with
  | CompleteWaitpoint id output => completeWaitpoint gen id output ;;; e_ret tt
  | BlockRunWithWaitpoint r ws p org timeout span batch wid rid =>
      blockRunWithWaitpoint gen options stringify_timeout r ws p org timeout span batch wid rid
  | BlockRunAndCompleteWaitpoint r w output p org batch =>
      blockRunAndCompleteWaitpoint gen options stringify_timeout r w output p org batch
  | CreateDateTimeWaitpoint p env after key e => createDateTimeWaitpoint gen p env after key e ;;; e_ret tt
  | CreateManualWaitpoint env p key e timeout tags =>
      createManualWaitpoint gen stringify_timeout env p key e timeout tags ;;; e_ret tt
  | GetOrCreateRunWaitpoint r p env => getOrCreateRunWaitpoint gen stringify_error r p env ;;; e_ret tt
  | StartRunAttempt r id wid rid warm =>
      startRunAttempt gen options stringify_error random pow r id wid rid warm ;;; e_ret tt
  | CompleteRunAttempt r id completion wid rid =>
      completeRunAttempt gen options stringify_error random pow r id completion wid rid ;;; e_ret tt
  | CancelRun r wid rid at_ reason finalize b ms =>
      cancelRun gen options stringify_error r wid rid at_ reason finalize b ms ;;; e_ret tt
  | CreateCheckpoint r id cp wid rid => createCheckpoint gen options r id cp wid rid ;;; e_ret tt
  | ContinueRunExecution r id wid rid => continueRunExecution gen options r id wid rid ;;; e_ret tt
  | RescheduleDelayedRun r at_ => rescheduleDelayedRun gen r at_ ;;; e_ret tt
  | ExpireRunsBatch ids => expireRunsBatch gen stringify_error ids ;;; e_ret tt
  | HeartbeatRun r id => heartbeatRun options r id ;;; e_ret tt
  | DequeueFromWorkerQueue wq bwid wid rid pop =>
      dequeueFromWorkerQueue gen options stringify_error random pow catalog machines getCurrentPlan
        wq bwid wid rid pop ;;;
      e_ret tt
  | WorkItem => work_item errorMessage
  end.

(** What the callers see to: runs are blocked with waitpoints that exist, and a
    checkpoint is made of a run that executes and waits. *)
Definition allowed (c : call) s : Prop :=
  match c with
  | BlockRunWithWaitpoint _ ws _ _ _ _ _ _ _ => ∀ w, w ∈ ws → is_Some (wstatus s w)
  | BlockRunAndCompleteWaitpoint _ w _ _ _ _ => is_Some (wstatus s w)
  | CreateCheckpoint _ id _ _ _ =>
      ∃ sn, snap_at s id = Some sn ∧ sn_executionStatus sn = Exec_EXECUTING_WITH_WAITPOINTS
  | _ => True
  end.

(** No thread has a lock or a duty. *)
Definition idle : nat → ghost := λ _, MkGhost None Idle.

Lemma safe_exec i c s : inv (s, idle) → allowed c s → safe i (exec c None) (rested i None any) (s, idle).
Proof.
  intros Hi Hc.
  assert (Hx : at_rest i None (s, idle)) by done.
  assert (Hst : steady i None (exec c) any → safe i (exec c None) (rested i None any) (s, idle))
    by (intros H; by apply H).
  destruct c; cbn [exec]; try (apply Hst; cbn [exec]; follow; fail).
  - by apply (safe_blockRunWithWaitpoint gen).
  - eapply safe_bind; [apply (safe_blockRunWithWaitpoint gen)| |by intros e y _ [? _]; split]; [done|done| |].
    + by intros w ->%list_elem_of_singleton.
    + intros u y Hy [Hr _].
      assert (steady i None (completeWaitpoint gen waitpointId (Some output) ;;; e_ret tt) any) as Hs by follow.
      by apply Hs.
  - eapply safe_bind; [by apply (safe_createCheckpoint gen)| |by intros e y _ [? _]; split].
    intros u y Hy [Hr _]. by apply (steady_ret gen i None tt any).
  - by apply steady_work_item.
Qed.

(** All that blocks a run is completed. *)
Lemma blockers_done x r :
  inv x → blockers_of r (es_tables x.1) ≠ [] →
  (∀ b, b ∈ blockers_of r (es_tables x.1) → wp_status b.2 = Wait_COMPLETED) → rows_done x.1 r.
Proof.
  intros Hi Hne Hall.
  assert (Hin : ∀ id b wp, row_at x.1 id = Some b → tw_taskRunId b = r →
    t_find (tw_waitpointId b) (waitpoint (es_tables x.1)) = Some wp → (id, b, wp) ∈ blockers_of r (es_tables x.1)).
  { intros id b wp Hb Hr Hw. unfold blockers_of. apply list_elem_of_omap. exists (id, b).
    split; [|by rewrite Hw]. unfold select. by rewrite list_elem_of_filter, bool_decide_eq_true, t_rows_find. }
  split.
  - destruct (blockers_of r _) as [|[[id b] wp] l] eqn:E; [done|].
    assert ((id, b, wp) ∈ blockers_of r (es_tables x.1)) as Hb by (rewrite E; left).
    unfold blockers_of in Hb. apply list_elem_of_omap in Hb as ([id' b'] & Hsel & Hw).
    destruct (t_find (tw_waitpointId b') _); [|done]. cbn in Hw. injection Hw as -> -> _.
    unfold select in Hsel. rewrite list_elem_of_filter, bool_decide_eq_true, t_rows_find in Hsel.
    exists (tw_waitpointId b), id, b. split; [apply Hsel|]. split; [apply Hsel|done].
  - intros w Hb. pose proof (i_fk _ _ Hi r w Hb) as [st Hst]. destruct Hb as (id & b & Hb & Hr & <-).
    unfold wstatus in *. destruct (t_find (tw_waitpointId b) _) as [wp|] eqn:E; [|done]. cbn.
    f_equal. by apply (Hall (id, b, wp)), Hin.
Qed.

(** The invariant holds at every moment of a run of calls, and at the end nobody has a
    duty. *)
Lemma pool_inv schedule calls s :
  inv (s, idle) → (∀ c, c ∈ calls → allowed c s) →
  let x := run_pool elapse schedule ((λ c, exec c None) <$> calls, s) in
  ∃ γ, inv (x.2, γ) ∧ ((∀ p, p ∈ x.1 → ended p = true) → ∀ i, at_rest i None (x.2, γ)).
Proof.
  intros Hi Hc x. destruct x as [ps s'] eqn:E. subst x. cbn [fst snd].
  destruct (pool_safe elapse inv act ltac:(intros; by apply (elapse_step gen)) (λ i, rested i None any)
              schedule ((λ c, exec c None) <$> calls) s idle) as (γ & Hsafe & Hlen & Hidle).
  { split; [done|]. intros i p. rewrite list_lookup_fmap. destruct (calls !! i) as [c|] eqn:Hci; [|done].
    cbn. intros [= <-]. apply safe_exec; [done|]. by apply Hc, (list_elem_of_lookup_2 _ i). }
  rewrite E in Hsafe, Hlen. cbn in Hsafe, Hlen. pose proof Hsafe as [Hi' _]. exists γ. split; [done|].
  intros Hend i. destruct (ps !! i) as [p|] eqn:Hp; [|apply lookup_ge_None in Hp; rewrite Hlen in Hp; by apply Hidle].
  pose proof (all_safe_ended _ _ _ _ ps (s', γ) i p Hsafe Hp) as Hq.
  specialize (Hend p ltac:(by eapply list_elem_of_lookup_2)). destruct p; [apply Hq|apply Hq|done].
Qed.

(** C3. No wake-up is lost.  Any number of processes complete waitpoints, block runs,
    start, complete and cancel attempts, make checkpoints, take runs from worker queues and
    so on, and workers take jobs and run their handlers (but for that of
    [queueRunsPendingVersion]); the statements of all of them are interleaved by any
    schedule.  When they have all ended, every run that waits (its latest snapshot is
    EXECUTING_WITH_WAITPOINTS or SUSPENDED) and is blocked by waitpoints all of which are
    completed has its [continueRunIfUnblocked] job in the queue of the worker, or in its
    dead letter queue. *)
Theorem no_lost_wakeup schedule calls s :
  inv (s, idle) → (∀ c, c ∈ calls → allowed c s) →
  let x := run_pool elapse schedule ((λ c, exec c None) <$> calls, s) in
  (∀ p, p ∈ x.1 → ended p = true) →
  ∀ r id sn,
    latest_snapshot r (es_tables x.2) = Some (id, sn) →
    sn_executionStatus sn = Exec_EXECUTING_WITH_WAITPOINTS ∨ sn_executionStatus sn = Exec_SUSPENDED →
    blockers_of r (es_tables x.2) ≠ [] →
    (∀ b, b ∈ blockers_of r (es_tables x.2) → wp_status b.2 = Wait_COMPLETED) →
    is_Some (worker_items (es_worker x.2) !! continue_job r) ∨
    is_Some (worker_dead (es_worker x.2) !! continue_job r).
Proof.
  intros Hi Hc x Hend r id sn Hlatest Hst Hne Hall.
  destruct (pool_inv schedule calls s Hi Hc) as (γ & Hi' & Hrest). fold x in Hi', Hrest.
  specialize (Hrest Hend).
  assert (waiting x.2 r) as Hw.
  { apply (latest_waiting gen (x.2, γ) r id sn); [done|done|]. by destruct Hst as [-> | ->]. }
  destruct (i_covered _ _ Hi' r) as [?|[Hn|[(it & Hit & _)|[Hd|[i Ho]]]]]; [done| |by left; exists it|by right|].
  - destruct Hn. by apply (blockers_done (x.2, γ)).
  - specialize (Hrest i). unfold at_rest, ghost_is in Hrest. cbn in Hrest, Ho. by rewrite Hrest in Ho.
Qed.

(** C4. A run is handed to a worker once each time it is queued.  Whatever the order of the
    statements of any number of processes, at every moment: every valid snapshot with
    which a run was handed over (PENDING_EXECUTING) follows an older valid snapshot of the
    run in which it was QUEUED, and no two of them follow the same one. *)
Theorem handed_out_once schedule calls s :
  inv (s, idle) → (∀ c, c ∈ calls → allowed c s) →
  let t := es_tables (run_pool elapse schedule ((λ c, exec c None) <$> calls, s)).2 in
  let handed r id sn := (id, sn) ∈ valid_snapshots r t ∧ sn_executionStatus sn = Exec_PENDING_EXECUTING in
  (∀ r id sn, handed r id sn →
     ∃ q sq, sn_previousSnapshotId sn = Some q ∧ (q, sq) ∈ valid_snapshots r t ∧
             sn_executionStatus sq = Exec_QUEUED ∧ sn_createdAt sq < sn_createdAt sn) ∧
  (∀ r id sn id' sn', handed r id sn → handed r id' sn' →
     sn_previousSnapshotId sn = sn_previousSnapshotId sn' → id = id').
Proof.
  intros Hi Hc t handed. destruct (pool_inv schedule calls s Hi Hc) as (γ & Hi' & _).
  destruct (i_handed _ _ Hi') as [H1 H2]. cbn [fst] in *. unfold handed, t. clear Hi'. split.
  - intros r id sn [Hv%elem_of_valid Hst]. destruct (H1 r id sn Hv Hst) as (q & sq & ? & Hq & ? & ?).
    exists q, sq. split; [done|]. split; [by apply elem_of_valid|done].
  - intros r id sn id' sn' [Hv%elem_of_valid Hst] [Hv'%elem_of_valid Hst']. by apply (H2 r).
Qed.

End NoLostWakeup.

(** ** A witness *)

#[export] Instance sample_fresh : FreshIds sample_gen.
Proof. split; [|done]. intros n m H. unfold sample_gen in H. by apply (inj _), (inj _), (inj _) in H. Qed.

(** A run that is not handed over, with one snapshot and no job. *)
Lemma sample_sound run sn q :
  sn_createdAt sn = 3 → sn_executionStatus sn ≠ Exec_PENDING_EXECUTING →
  inv sample_gen ((sample_state run sn) {{ es_queue := q }}, idle).
Proof.
  intros Ht Hpe. set (s := (sample_state run sn) {{ es_queue := q }}).
  assert (Hrow : ∀ id, row_at s id = None) by done.
  assert (Hsnap : ∀ id sn', snap_at s id = Some sn' → id = "s1" ∧ sn' = sn).
  { intros id sn'. unfold snap_at. cbn. by intros [<- <-]%lookup_singleton_Some. }
  assert (Hitems : ∀ id, worker_items (es_worker s) !! id = None) by done.
  split; cbn [fst snd].
  - intros r w (id & b & Hb & _). by rewrite Hrow in Hb.
  - intros r it. by rewrite Hitems.
  - intros id it r. by rewrite Hitems.
  - intros id sn' [-> ->]%Hsnap. rewrite Ht. cbn. unfold constant. lia.
  - intros r id sn1 id' sn2 ([-> _]%Hsnap & _) ([-> _]%Hsnap & _) _. done.
  - intros n _. split; [done|]. split.
    + destruct (snap_at s (sample_gen n)) eqn:E; [|done]. apply Hsnap in E as [E _]. discriminate E.
    + unfold wstatus. cbn. unfold constant. rewrite lookup_singleton_ne; [done|]. intros E. discriminate E.
  - split; [intros r id sn' ([-> ->]%Hsnap & _)|intros r id sn1 id' sn2 ([-> ->]%Hsnap & _) _]; done.
  - intros i r n [m [=]].
  - intros i j r n m [? [=]].
  - intros i m (? & ? & [=]).
  - intros i j m (? & ? & [=]).
  - intros r. right. left. intros [(w & id & b & Hb & _) _]. by rewrite Hrow in Hb.
Qed.

Lemma executing_sound : inv sample_gen (executing, idle).
Proof. by apply (sample_sound sample_run (sample_snapshot Exec_EXECUTING Run_EXECUTING) (es_queue executing)). Qed.

Definition sample_calls : list call :=
  [BlockRunWithWaitpoint "r1" ["w1"] "proj1" "org1" None None None None None; CompleteWaitpoint "w1" None].

(** The waitpoint is completed after the run was blocked by it and before the snapshot. *)
Definition sample_schedule : list (nat * nat) :=
  [(0, 0); (0, 0); (0, 0); (0, 0); (1, 0); (1, 0); (1, 0); (1, 0); (0, 0); (0, 0); (0, 0); (0, 0)]%nat.

Definition sample_end :=
  run_pool elapse sample_schedule
    ((λ c, exec sample_gen sample_engine sample_text (λ _, "timeout") (λ _, "") sample_random sample_pow
             sample_catalog [] (λ _ _, None) (λ _, "") c None) <$> sample_calls, executing).

Lemma sample_end_eq :
  run_pool elapse sample_schedule
    ((λ c, exec sample_gen sample_engine sample_text (λ _, "timeout") (λ _, "") sample_random sample_pow
             sample_catalog [] (λ _ _, None) (λ _, "") c None) <$> sample_calls, executing) = sample_end.
Proof. unfold sample_end. reflexivity. Qed.

Lemma sample_latest : latest_status sample_end.2 = Some Exec_EXECUTING_WITH_WAITPOINTS.
Proof. by vm_compute. Qed.
Lemma sample_blockers :
  (λ b, wp_status b.2) <$> blockers_of "r1" (es_tables sample_end.2) = [Wait_COMPLETED].
Proof. by vm_compute. Qed.

Lemma sample_ended : forallb ended sample_end.1 = true.
Proof. by vm_compute. Qed.

Lemma sample_all_ended p : p ∈ sample_end.1 → ended p = true.
Proof.
  intros Hp. exact (proj1 (forallb_forall ended sample_end.1) sample_ended p
                      (proj1 (list_elem_of_In sample_end.1 p) Hp)).
Qed.

Lemma sample_blocked : blockers_of "r1" (es_tables sample_end.2) ≠ [].
Proof. intros Hn. pose proof sample_blockers as Hb. rewrite Hn in Hb. discriminate Hb. Qed.

Lemma sample_completed b :
  b ∈ blockers_of "r1" (es_tables sample_end.2) → wp_status b.2 = Wait_COMPLETED.
Proof.
  intros Hin. apply (list_elem_of_fmap_2 (λ b, wp_status b.2)) in Hin. rewrite sample_blockers in Hin.
  apply list_elem_of_singleton in Hin. exact Hin.
Qed.

Lemma sample_allowed c : c ∈ sample_calls → allowed c executing.
Proof.
  unfold sample_calls. rewrite !elem_of_cons, elem_of_nil. intros [->|[->|[]]]; [|exact I].
  intros w ->%list_elem_of_singleton. by eexists.
Qed.

Lemma no_lost_wakeup_witness :
  is_Some (worker_items (es_worker sample_end.2) !! continue_job "r1") ∨
  is_Some (worker_dead (es_worker sample_end.2) !! continue_job "r1").
Proof.
  destruct (latest_snapshot "r1" (es_tables sample_end.2)) as [[id sn]|] eqn:E.
  - pose proof (no_lost_wakeup sample_gen sample_engine sample_text (λ _, "timeout") (λ _, "") sample_random
      sample_pow sample_catalog [] (λ _ _, None) (λ _, "") sample_schedule sample_calls executing executing_sound sample_allowed) as H.
    cbv zeta in H. rewrite sample_end_eq in H.
    pose proof sample_latest as Hl. unfold latest_status in Hl. rewrite E in Hl. injection Hl as Hl.
    exact (H sample_all_ended "r1" id sn E (or_introl Hl) sample_blocked sample_completed).
  - pose proof sample_latest as Hl. unfold latest_status in Hl. rewrite E in Hl. discriminate Hl.
Defined.

(** Two workers ask for a run while another method looks at it. *)
Definition handed_calls : list call :=
  [DequeueFromWorkerQueue "main" None None None None; DequeueFromWorkerQueue "main" None None None None;
   HeartbeatRun "r1" "s1"].

Definition handed_pool :=
  (λ c, exec sample_gen sample_engine sample_text (λ _, "timeout") (λ _, "") sample_random sample_pow
          sample_catalog [] (λ _ _, None) (λ _, "") c None) <$> handed_calls.

Definition handed_end := run_pool elapse (turns 0 4 ++ turns 1 2 ++ turns 2 1 ++ turns 0 20) (handed_pool, resumed).

Lemma handed_end_eq : run_pool elapse (turns 0 4 ++ turns 1 2 ++ turns 2 1 ++ turns 0 20)
  ((λ c, exec sample_gen sample_engine sample_text (λ _, "timeout") (λ _, "") sample_random sample_pow
          sample_catalog [] (λ _ _, None) (λ _, "") c None) <$> handed_calls, resumed) = handed_end.
Proof. unfold handed_end, handed_pool. reflexivity. Qed.

Lemma resumed_sound : inv sample_gen (resumed, idle).
Proof. by apply sample_sound. Qed.

Lemma handed_allowed c : c ∈ handed_calls → allowed c resumed.
Proof. unfold handed_calls. rewrite !elem_of_cons, elem_of_nil. by intros [->|[->|[->|[]]]]. Qed.

Lemma handed_status : latest_status handed_end.2 = Some Exec_PENDING_EXECUTING.
Proof. by vm_compute. Qed.

Lemma handed_out_once_witness :
  latest_status handed_end.2 = Some Exec_PENDING_EXECUTING ∧
  ∀ id sn, (id, sn) ∈ valid_snapshots "r1" (es_tables handed_end.2) ∧
           sn_executionStatus sn = Exec_PENDING_EXECUTING →
    ∃ q sq, sn_previousSnapshotId sn = Some q ∧ (q, sq) ∈ valid_snapshots "r1" (es_tables handed_end.2) ∧
            sn_executionStatus sq = Exec_QUEUED ∧ sn_createdAt sq < sn_createdAt sn.
Proof.
  split; [exact handed_status|].
  pose proof (handed_out_once sample_gen sample_engine sample_text (λ _, "timeout") (λ _, "") sample_random
    sample_pow sample_catalog [] (λ _ _, None) (λ _, "") (turns 0 4 ++ turns 1 2 ++ turns 2 1 ++ turns 0 20)
    handed_calls resumed resumed_sound handed_allowed) as H.
  cbv zeta in H. rewrite handed_end_eq in H. destruct H as [H _]. exact (H "r1").
Defined.
